(* ===== verification/_CoqProject ===== *)
-Q . S2P
Prelude.v
StableSort.v
GoValues.v
GoTypes.v
GoMaps.v
GoStrings.v
GoJSON.v
RecordKey.v
DalQuery.v
DalString.v
GoSlices.v
DalBuilder.v
Orm.v
DalReader.v
DalTransaction.v
DalErrors.v
DalInsert.v
DalChanges.v
Ddl.v
RecordsetColumns.v
RecordsetColumnLaws.v
RecordsetRows.v
Dalgo2fs.v
MemoryRows.v
MemoryQuery.v
MemoryOrder.v
MemoryResults.v
MemoryGroups.v
MemoryUpdate.v
MemoryEngine.v
MemoryColumnar.v
MemoryColumnarLaws.v
MemoryIndex.v
MemorySession.v
MemoryPivot.v
MemorySessionLaws.v
MemorySchema.v
MemoryExamples.v
MemoryStrategies.v
MemoryRecordset.v
DalCollection.v
MemoryCollection.v
MemoryBranching.v
MemoryHeap.v
BranchingConformance.v
MemoryConformance.v
RWLock.v
MemoryConcurrency.v
AccessOperation.v
AccessResource.v
AccessRule.v
AccessPolicy.v
AccessSession.v
AccessDocument.v
AccessCodec.v
SecuredMemory.v
MemorySecrecy.v
End2End.v
MemoryEnd2End.v
RecordCompare.v
RecordDiff.v
RecordBridge.v
RecordRender.v
MemoryDiff.v
Dtql.v
DtqlSchema.v
DtqlText.v
