(* ===== verification/Prelude.v ===== *)
(** * Verification of dal-go/dalgo

    dalgo is a database abstraction layer in Go: interfaces of databases,
    sessions, queries and readers (src/dal), decorators and services over them
    (src/access, src/recordops, src/dtql, src/recordset, src/ddl), and an
    in-memory database that implements the interfaces
    (src/adapters/dalgo2memory).  This library translates that code into
    executable definitions and proves what makes it correct.

    ** How Go is modelled

    - This file: [res E A] is the result of a call, [Ret], [Fail] with an error,
      or [Panic] with a message; the [do] notation, generic lemmas, the hint
      database and tactics of the library.
    - GoValues, GoTypes, GoMaps, GoStrings, GoJSON, StableSort: the language and
      its standard library as the program uses them.  A variable of type [any]
      holds a [value] with the name of its dynamic type; map[string]any is the
      list of its entries in key order; a float is a [spec_float]; the sort
      functions are one stable sort.  Machine-width integers are written out
      where they matter: the 16-bit sets of AccessOperation, the 32-bit rows of
      bitmap columns (RecordsetColumns), Unix time in DalInsert.
    - RecordKey: the methods of a key that the program calls, as a class.  Keys
      are another module's ([github.com/dal-go/record]).

    State is passed explicitly: a method of an object is a function on the
    object's state, a call of an adapter is a function of a context and a state.
    Aliasing is modelled where the code depends on it: MemoryBranching has a
    heap of shared objects, GoSlices the arrays that slices share, with the rule
    when code that appends may take its slices for lists.  Engines keep the
    pointers to keys that they are given, and inserts with an identifier
    generator assign to [key.ID]: a [key] of MemorySession is a pointer together
    with what its object holds, and the record [key_objects] says what an
    assignment through one pointer does to it and to every other.  Concurrency
    is modelled in RWLock.

    ** Access policies (src/access)

    - AccessOperation (operation.go), AccessResource (resource.go), AccessRule
      (rule.go): operation sets, path patterns, the rule tree and its compiler.
    - AccessPolicy (policy.go): [Decide], [Classify], the order of precedence.
      Theorems: a request is allowed exactly when on every resource the winning
      rule is an Allow; Deny overrides what is not more specific; the order of
      declaration is immaterial; denies only narrow.
    - AccessSession (context.go, session.go, database.go): policies in contexts,
      the guard, secured sessions and databases over any adapter.  A secured
      session refines the wrapped one; policies bound to a handle stay in force
      for its reads and for the workers of both kinds of transactions.
    - AccessDocument, AccessCodec (document.go): documents of policies; written
      and read back, a policy decides as before.

    ** Queries and documents (src/dal, src/dtql)

    - DalQuery (q_*.go, query_struct.go, q_builder.go), DalString (their text).
    - DalBuilder (q_builder.go): builders as objects whose clones share arrays.
      They are the values of DalQuery while no builder with room is cloned;
      clones with room overwrite each other.
    - Orm (src/orm): typed fields.
    - Dtql (shapes.go, serialize.go, deserialize.go, equal.go): both directions
      of the translation, as round trips.
    - DtqlSchema (schema.go): the published JSON Schema as a type system: an
      interpreter of its keywords with fuel.  It accepts the documents that can
      be read as queries with scalar constants and natural limits, and what is
      written for a query in scope exactly if the query is one of those.
      [decides] says that every fuel from some bound on gives the answer.
    - DtqlText (serialize.go, deserialize.go, query.go): queries as texts over
      the YAML library, and the methods of a query that was read.  Read back, a
      query selects the same records of the in-memory database.

    ** The in-memory database (src/adapters/dalgo2memory)

    - MemoryRows, MemoryQuery (database.go, group.go, join.go, project.go): the
      query pipeline.  MemoryOrder, MemoryResults, MemoryGroups: what it
      returns, as sets and sequences of records: the selected rows in order,
      independently of the order of Go's maps where there is no GROUP BY; groups
      as a partition of the rows in the order of the first row of each (which
      does depend on it, as an example shows); joins.
    - MemoryUpdate, MemoryEngine (engine.go, serialized.go): updates by path and
      the contract of a storage engine, the class [EngineLaws]: a finite map
      from identifiers to records.
    - MemoryColumnar, MemoryColumnarLaws (columnar.go), MemoryIndex (strategy.go):
      the columnar engine refines that map; its index agrees with a full scan.
      MemoryStrategies: strategies of callers as objects with states, told of
      every cell; those that do what the interface documents agree with the
      default strategy after any operations and compactions.
    - MemorySchema (schema.go): options and the engines they choose.
    - MemorySession, MemorySessionLaws (database.go): sessions over any engine
      that keeps the contract: what is set is got, no reads after writes.
      Inserts change no data of stored records, and the key of one only through
      the pointer that they share with the inserted record; KeyObjectExamples of
      MemoryExamples has a record object inserted twice, which rewrites the key
      of the first record.
    - MemoryPivot (recordset.go): the recordset reader of a session;
      MemoryRecordset: results as recordsets.
    - MemoryBranching (branching.go, src/branching): checkpoints and branches on
      a heap; branches share no object with their source.  MemoryHeap: the
      serialized engine on the objects of that heap refines the engine as a
      value.  BranchingConformance (src/branchingtest): the conformance suite as
      a program over any provider, and the contract that makes it pass;
      MemoryConformance: the in-memory provider keeps the contract.
    - RWLock, MemoryConcurrency (database.go): clients that interleave under the
      read-write lock.  Readers create engines lazily, so they do change the
      shared state; every execution still amounts to the calls in some order.
      New engines must hold no keys ([keyless_engines]), as those of every
      configuration of the adapter do (MemorySchema).
    - SecuredMemory: sessions of the in-memory database under access policies.
      The data of a record that is protected under every key of its place never
      change, and its key only if its object is inserted again.
      MemorySecrecy: databases that differ in a collection cannot be told apart
      through a session whose policies reject the calls that name it; policies
      on the paths of nested records do not hide them, as examples show.
    - End2End (src/end2end): the suite with which adapters test their databases,
      as a program over any database; an adapter that implements a map of records
      passes the parts without queries.  MemoryEnd2End: the in-memory database is
      such an adapter, and an example runs the whole suite on it.
    - MemoryExamples: instances on concrete data.

    ** Sessions, transactions, readers and collections (src/dal)

    - DalReader (reader_*.go, query_select_funcs.go): draining a reader through
      a window.  DalTransaction (transaction.go): contexts of nested
      transactions, options.  DalInsert (tx_inserter.go, id_generator.go): the
      retry loop, generators.  DalChanges (changes.go): tracked records, change
      sets.  DalErrors (errors.go, hooks.go and the small option records).
    - DalCollection (collection.go): typed collections over the class
      [Session] of its callers; MemoryCollection: over the in-memory database.
      Terminals that address keys refuse incomplete parents; All, Count and
      First do not.
    - Ddl (src/dbschema, src/ddl): schemas, alterations and their dispatch.

    ** Recordsets and record streams (src/recordset, src/recordops)

    - RecordsetColumns, RecordsetColumnLaws, RecordsetRows: columns with the
      laws that a column keeps, columnar recordsets as tables with computed
      columns.
    - RecordCompare (compare.go), RecordDiff (diff.go): field deltas, and the
      streaming k-way merge against a reference definition, under a strict
      total order; with Go's [==] as the class [GoEq], which a NaN does not
      satisfy with itself, the merge of a NaN never ends.  RecordBridge
      (bridge.go): streams over readers.  RecordRender (render_*.go).
      MemoryDiff: the merge over scans of in-memory databases reports the
      differences of what they store.

    ** Files (src/adapters/dalgo2fs)

    - Dalgo2fs: directories as recordsets over the columns of RecordsetRows, and
      files as records.  The operating system is the class [FileSystem].

    ** Parameters and hypotheses

    Keys, change sets, the YAML and JSON encoders of documents, roaring bitmaps,
    random strings, the assertions of tests and the clock come from other modules or the environment:
    they are classes or arguments.  Their laws, where a theorem needs any, state
    documented behaviour and are fields of the class or named hypotheses;
    every theorem with hypotheses is applied at concrete instances.  JSON of
    values is modelled in GoJSON on syntax trees; formatting of floats is a
    parameter ([GoFmt], [GoJSON]).

    ** Fuel

    [DiffFunc] runs its loop with one more than the number of pending records,
    and is proved to end if every identifier equals itself; otherwise no fuel is
    enough, which is proved as well.  [ReaderToSeq] and [SelectAll] read from readers that
    may never end: their theorems on readers of slices show the fuel to be
    enough.  The insert loops count their attempts as the code does.  The
    copies of keys on the heap (MemoryBranching) have any fuel that is at least
    the length of the chains of parents of the keys that are stored.

    ** Not modelled

    - Mocks: generated code.
    - Interface declarations without behaviour, files of commented-out code
      (batching.go, with_hooks.go).
    - The encoders behind the renderers and documents; a panic inside a
      consumer of a stream; timing and cancellation other than a context's
      error; memory limits.
    - Validation of a record's data with its key before an insert in the
      in-memory session ([ValidateWithKey], which DalInsert has); reads of a key
      object that race with an assignment to it.
    - Column strategies that two columns share, and ones that call the database
      back. *)

From Stdlib Require Import String Ascii.
From stdpp Require Import base gmap strings list sorting.

(** ** Notation and automation *)

Declare Scope dalgo_scope.
Delimit Scope dalgo_scope with dalgo.
Open Scope dalgo_scope.

Create HintDb dalgo discriminated.

(** Splits every [match] and [if] of the goal or of a hypothesis. *)
Ltac split_matches :=
  repeat (case_match; simplify_eq/=; try done).

(** Turns boolean connectives into propositions. *)
Ltac to_prop :=
  repeat match goal with
  | H : andb _ _ = true |- _ => apply andb_true_iff in H; destruct H
  | H : orb _ _ = false |- _ => apply orb_false_iff in H; destruct H
  | H : negb _ = true |- _ => apply negb_true_iff in H
  | H : negb _ = false |- _ => apply negb_false_iff in H
  | |- andb _ _ = true => apply andb_true_iff; split
  | |- orb _ _ = false => apply orb_false_iff; split
  | |- negb _ = true => apply negb_true_iff
  end.

(** ** Outcomes of Go calls

    A Go function that returns [(T, error)] returns [Ret] with a nil error or
    [Fail] with the error; [Panic] is a run-time panic, with its message. *)

Inductive res (E A : Type) : Type :=
| Ret (a : A)
| Fail (e : E)
| Panic (msg : string).
Arguments Ret {E A} a.
Arguments Fail {E A} e.
Arguments Panic {E A} msg.

Definition rbind {E A B : Type} (m : res E A) (k : A → res E B) : res E B :=
  match m with
  | Ret a => k a
  | Fail e => Fail e
  | Panic s => Panic s
  end.

Definition rmap_error {E F A : Type} (f : E → F) (m : res E A) : res F A :=
  match m with
  | Ret a => Ret a
  | Fail e => Fail (f e)
  | Panic s => Panic s
  end.

Definition rmap {E A B : Type} (f : A → B) (m : res E A) : res E B :=
  match m with
  | Ret a => Ret (f a)
  | Fail e => Fail e
  | Panic s => Panic s
  end.

Notation "'do' x <- m ; k" := (rbind m (λ x, k))
  (at level 10, x binder, m at level 100, k at level 200) : dalgo_scope.

Section Res.
Context {E A B : Type}.

Lemma rbind_Ret (m : res E A) (k : A → res E B) b :
  rbind m k = Ret b ↔ ∃ a, m = Ret a ∧ k a = Ret b.
Proof. destruct m; naive_solver. Qed.

Lemma rbind_Ret_inv (m : res E A) (k : A → res E B) b :
  rbind m k = Ret b → ∃ a, m = Ret a ∧ k a = Ret b.
Proof. apply rbind_Ret. Qed.

Lemma rmap_error_Ret {F} (f : E → F) (m : res E A) a :
  rmap_error f m = Ret a ↔ m = Ret a.
Proof. destruct m; naive_solver. Qed.
End Res.

(** Decomposes hypotheses [do x <- m; k = Ret b]. *)
Ltac inv_res :=
  repeat match goal with
  | H : rbind _ _ = Ret _ |- _ =>
      let a := fresh "a" in let Ha := fresh "Hm" in
      apply rbind_Ret_inv in H; destruct H as (a & Ha & H)
  | H : rmap_error _ _ = Ret _ |- _ => apply rmap_error_Ret in H
  | H : Fail _ = Ret _ |- _ => discriminate H
  | H : Panic _ = Ret _ |- _ => discriminate H
  end; simplify_eq/=.

Section Loops.
Context {E A B S : Type}.

(** A loop [for i, x := range l] that builds a slice and stops at the first
    error; [f] receives the index. *)
Context (f : nat → A → res E B).
Fixpoint traverse_from (i : nat) (l : list A) : res E (list B) :=
  match l with
  | [] => Ret []
  | x :: l' => do y <- f i x; do ys <- traverse_from (Datatypes.S i) l'; Ret (y :: ys)
  end.

Definition traverse (l : list A) : res E (list B) := traverse_from 0 l.

(** A loop that threads a state and stops at the first error. *)
Context (step : A → S → res E S).
Fixpoint fold_res (l : list A) (s : S) : res E S :=
  match l with
  | [] => Ret s
  | x :: l' => do s' <- step x s; fold_res l' s'
  end.
End Loops.

Lemma traverse_from_Forall2 {E A B} (f : nat → A → res E B) l i ys :
  traverse_from f i l = Ret ys → Forall2 (λ x y, ∃ j, f j x = Ret y) l ys.
Proof.
  revert i ys. induction l as [|x l IH]; intros i ys H; simpl in H; inv_res; [constructor|].
  constructor; eauto.
Qed.

Lemma traverse_from_const {E A B} (f : nat → A → res E B) (g : A → B) l i :
  (∀ j x, x ∈ l → f j x = Ret (g x)) → traverse_from f i l = Ret (g <$> l).
Proof.
  revert i. induction l as [|x l IH]; intros i H; simpl; [done|].
  rewrite H by set_solver. simpl. rewrite IH by set_solver. done.
Qed.

Lemma traverse_from_map {E A B C} (f : nat → B → res E C) (f' : nat → A → res E C) (g : A → B) l i :
  (∀ j x, x ∈ l → f j (g x) = f' j x) → traverse_from f i (g <$> l) = traverse_from f' i l.
Proof.
  revert i. induction l as [|x l IH]; intros i Hf; simpl; [done|].
  rewrite Hf by set_solver. rewrite IH; [done|]. intros j y Hy. apply Hf. set_solver.
Qed.

Lemma fold_res_app {E A S} (f : A → S → res E S) l1 l2 s :
  fold_res f (l1 ++ l2) s = do s' <- fold_res f l1 s; fold_res f l2 s'.
Proof.
  revert s. induction l1 as [|x l1 IH]; intros s; simpl; [done|].
  destruct (f x s); simpl; auto.
Qed.

Lemma fold_res_invariant {E A S} (P : S → Prop) (f : A → S → res E S) l s s' :
  (∀ x t t', x ∈ l → P t → f x t = Ret t' → P t') →
  P s → fold_res f l s = Ret s' → P s'.
Proof.
  revert s. induction l as [|x l IH]; intros s Hf Hs H; simpl in H; inv_res; [done|].
  eapply IH; [|eapply Hf|]; eauto; set_solver.
Qed.

(** ** Byte strings: Go's [<] on strings is the lexicographic order of bytes *)

Definition string_lt (a b : string) : Prop := String.compare a b = Lt.

Lemma string_compare_refl a : String.compare a a = Eq.
Proof.
  induction a as [|c a IH]; simpl; [done|].
  unfold Ascii.compare. by rewrite N.compare_refl.
Qed.

Lemma string_compare_eq a b : String.compare a b = Eq ↔ a = b.
Proof.
  split; [apply String.compare_eq_iff|]. intros ->. apply string_compare_refl.
Qed.

Lemma string_ltb_lt a b : String.ltb a b = true ↔ string_lt a b.
Proof. unfold String.ltb, string_lt. by destruct (String.compare a b). Qed.

Lemma string_lt_trans a b c : string_lt a b → string_lt b c → string_lt a c.
Proof.
  unfold string_lt. revert b c.
  induction a as [|x a IH]; intros [|y b] [|z c]; simpl; try done.
  unfold Ascii.compare. intros H1 H2.
  destruct (N.compare_spec (N_of_ascii x) (N_of_ascii y)) as [E1|E1|E1];
    destruct (N.compare_spec (N_of_ascii y) (N_of_ascii z)) as [E2|E2|E2];
    try done;
    destruct (N.compare_spec (N_of_ascii x) (N_of_ascii z)) as [E3|E3|E3];
    try done; try lia; eauto.
Qed.

Lemma string_lt_irrefl a : ¬ string_lt a a.
Proof. unfold string_lt. by rewrite string_compare_refl. Qed.

Lemma string_lt_asym a b : string_lt a b → ¬ string_lt b a.
Proof. intros H1 H2. eapply string_lt_irrefl, string_lt_trans; eauto. Qed.

Lemma string_lt_total a b : ¬ string_lt a b → ¬ string_lt b a → a = b.
Proof.
  unfold string_lt. intros H1 H2. apply string_compare_eq.
  rewrite String.compare_antisym in H2. by destruct (String.compare a b).
Qed.

#[export] Instance string_lt_dec a b : Decision (string_lt a b).
Proof. unfold string_lt. solve_decision. Defined.

#[export] Instance string_lt_strict : StrictOrder string_lt.
Proof. split; [exact string_lt_irrefl | exact string_lt_trans]. Qed.
