(* ===== verification/StableSort.v ===== *)
(** * Stable sorting, as Go's [sort.SliceStable] does it

    [stable_sort less] follows the insertion sort that [sort.SliceStable] runs
    on its blocks: each element is moved left past every element it is less
    than.  For a strict weak order the result is the only stable sorted
    permutation, whatever the algorithm, so the model also stands for the
    block merges the library adds on longer slices, and for [sort.Strings] and
    [sort.Slice] on keys without ties. *)

From stdpp Require Import base sets list sorting strings.
From S2P Require Import Prelude.

(** ** Comparators

    A three-way comparison on the elements of a domain [D]: swapping the
    arguments swaps the outcome, and "not greater" is transitive. *)

Class Comparator {A : Type} (D : A → Prop) (c : A → A → comparison) : Prop := {
  cmp_opp x y : D x → D y → c y x = CompOpp (c x y);
  cmp_trans x y z : D x → D y → D z → c x y ≠ Gt → c y z ≠ Gt → c x z ≠ Gt;
}.

(** Compare by [c1]; ties go to [c2]. *)
Definition lexc {A : Type} (c1 c2 : A → A → comparison) (x y : A) : comparison :=
  match c1 x y with Eq => c2 x y | r => r end.

(** Compare by a key. *)
Definition cmp_on {A B : Type} (k : A → B) (c : B → B → comparison) (x y : A) : comparison :=
  c (k x) (k y).

(** The reverse order. *)
Definition cmp_desc {A : Type} (c : A → A → comparison) (x y : A) : comparison := c y x.

Section Comparators.
Context {A : Type} (D : A → Prop).

Lemma cmp_refl c `{!Comparator D c} x : D x → c x x = Eq.
Proof. intros Hx. pose proof (cmp_opp x x Hx Hx). by destruct (c x x). Qed.

Lemma cmp_Eq_Lt c `{!Comparator D c} x y z :
  D x → D y → D z → c x y ≠ Gt → c y z ≠ Gt → c x z = Eq → c x y = Eq ∧ c y z = Eq.
Proof.
  intros Hx Hy Hz H1 H2 H3.
  assert (c z x = Eq) as H3' by by rewrite (cmp_opp x z), H3.
  assert (c y x ≠ Gt) as H4 by (apply (cmp_trans y z x); congruence).
  assert (c z y ≠ Gt) as H5 by (apply (cmp_trans z x y); congruence).
  rewrite (cmp_opp x y) in H4 by done. rewrite (cmp_opp y z) in H5 by done.
  by destruct (c x y), (c y z).
Qed.

#[export] Instance lexc_comparator c1 c2 :
  Comparator D c1 → Comparator D c2 → Comparator D (lexc c1 c2).
Proof.
  intros C1 C2. split; unfold lexc.
  - intros x y Hx Hy. rewrite (cmp_opp x y) by done.
    destruct (c1 x y); simpl; auto. by apply cmp_opp.
  - intros x y z Hx Hy Hz H1 H2.
    assert (c1 x y ≠ Gt) as H1' by by destruct (c1 x y).
    assert (c1 y z ≠ Gt) as H2' by by destruct (c1 y z).
    pose proof (cmp_trans x y z Hx Hy Hz H1' H2') as H3.
    destruct (c1 x z) eqn:E; try done.
    destruct (cmp_Eq_Lt c1 x y z) as [E1 E2]; auto.
    rewrite E1 in H1. rewrite E2 in H2. by apply (cmp_trans x y z).
Qed.

#[export] Instance cmp_desc_comparator c : Comparator D c → Comparator D (cmp_desc c).
Proof.
  intros C. split; unfold cmp_desc.
  - intros x y Hx Hy. by apply cmp_opp.
  - intros x y z Hx Hy Hz H1 H2. by apply (cmp_trans z y x).
Qed.
End Comparators.

Lemma cmp_on_comparator {A B} (D : A → Prop) (k : A → B) c :
  Comparator (λ _, True) c → Comparator D (cmp_on k c).
Proof.
  intros C. split; unfold cmp_on.
  - intros x y _ _. by apply cmp_opp.
  - intros x y z _ _ _. by apply cmp_trans.
Qed.

#[export] Instance nat_comparator : Comparator (λ _, True) Nat.compare.
Proof.
  split.
  - intros x y _ _. apply Nat.compare_antisym.
  - intros x y z _ _ _. rewrite !Nat.compare_gt_iff. lia.
Qed.

#[export] Instance string_comparator : Comparator (λ _, True) String.compare.
Proof.
  split.
  - intros x y _ _. rewrite String.compare_antisym. by destruct (String.compare _ _).
  - intros x y z _ _ _ H1 H2 H3.
    assert (string_lt z x) as Hzx.
    { unfold string_lt. by rewrite String.compare_antisym, H3. }
    destruct (String.compare x y) eqn:E1; [|clear H1|done].
    + apply string_compare_eq in E1 as ->. by rewrite H3 in H2.
    + destruct (String.compare y z) eqn:E2; [|clear H2|done].
      * apply string_compare_eq in E2 as ->. by rewrite H3 in E1.
      * eapply string_lt_irrefl, string_lt_trans; [exact Hzx|].
        by eapply string_lt_trans.
Qed.

(** ** The sort *)

Class StrictWeak {A : Type} (D : A → Prop) (less : A → A → bool) : Prop := {
  sw_asym x y : D x → D y → less x y = true → less y x = false;
  sw_negtrans x y z : D x → D y → D z →
    less x y = false → less y z = false → less x z = false;
}.

Lemma strict_weak_of_comparator {A} (D : A → Prop) c less :
  Comparator D c →
  (∀ x y, D x → D y → less x y = match c x y with Lt => true | _ => false end) →
  StrictWeak D less.
Proof.
  intros C Hless. split.
  - intros x y Hx Hy. rewrite !Hless, (cmp_opp x y) by done. by destruct (c x y).
  - intros x y z Hx Hy Hz. rewrite !Hless by done. intros H1 H2.
    assert (c y x ≠ Gt) as H1' by (rewrite (cmp_opp x y) by done; by destruct (c x y)).
    assert (c z y ≠ Gt) as H2' by (rewrite (cmp_opp y z) by done; by destruct (c y z)).
    pose proof (cmp_trans z y x Hz Hy Hx H2' H1') as H3.
    rewrite (cmp_opp x z) in H3 by done. by destruct (c x z).
Qed.

Section StableSort.
Context {A : Type} (less : A → A → bool).

(** [racc] is the sorted prefix, last element first. *)
Fixpoint insert_back (x : A) (racc : list A) : list A :=
  match racc with
  | [] => [x]
  | y :: r => if less x y then y :: insert_back x r else x :: y :: r
  end.

Definition stable_sort (l : list A) : list A :=
  rev (fold_left (λ acc x, insert_back x acc) l []).

Lemma insert_back_perm x racc : insert_back x racc ≡ₚ x :: racc.
Proof.
  induction racc as [|y r IH]; simpl; [done|].
  case_match; [|done]. rewrite IH. constructor.
Qed.

Lemma fold_insert_perm l racc :
  fold_left (λ acc x, insert_back x acc) l racc ≡ₚ l ++ racc.
Proof.
  revert racc. induction l as [|x l IH]; intros racc; simpl; [done|].
  rewrite IH, insert_back_perm. by rewrite <- Permutation_middle.
Qed.

Lemma stable_sort_perm l : stable_sort l ≡ₚ l.
Proof.
  unfold stable_sort. rewrite <- Permutation_rev, fold_insert_perm.
  by rewrite app_nil_r.
Qed.

Lemma stable_sort_elem x l : x ∈ stable_sort l ↔ x ∈ l.
Proof. by rewrite stable_sort_perm. Qed.

Lemma stable_sort_length l : length (stable_sort l) = length l.
Proof. by rewrite stable_sort_perm. Qed.

Lemma stable_sort_NoDup l : NoDup l → NoDup (stable_sort l).
Proof. by rewrite stable_sort_perm. Qed.

(** In sorted order no element is less than an earlier one. *)
Definition in_order (x y : A) : Prop := less y x = false.
Definition in_order_rev (x y : A) : Prop := less x y = false.

Context (D : A → Prop) `{!StrictWeak D less}.

Lemma insert_back_sorted x racc :
  D x → Forall D racc →
  StronglySorted in_order_rev racc → StronglySorted in_order_rev (insert_back x racc).
Proof.
  intros Dx Dr. induction 1 as [|y r Hs IH Hy]; simpl; [repeat constructor|].
  apply Forall_cons in Dr as [Dy Dr]. case_match eqn:E.
  - constructor; [by apply IH|]. rewrite insert_back_perm. constructor; [|done].
    by apply sw_asym.
  - constructor; [by constructor|]. constructor; [done|].
    rewrite Forall_forall in Hy, Dr |- *. intros z Hz.
    eapply (sw_negtrans x y z); eauto. by apply Hy.
Qed.

Lemma fold_insert_sorted l racc :
  Forall D l → Forall D racc → StronglySorted in_order_rev racc →
  StronglySorted in_order_rev (fold_left (λ acc x, insert_back x acc) l racc).
Proof.
  revert racc. induction l as [|x l IH]; intros racc Dl Dr H; simpl; [done|].
  apply Forall_cons in Dl as [Dx Dl]. apply IH; [done| |by apply insert_back_sorted].
  rewrite insert_back_perm. by constructor.
Qed.

Lemma StronglySorted_rev l :
  StronglySorted in_order_rev l → StronglySorted in_order (rev l).
Proof.
  induction 1 as [|x l Hs IH Hx]; simpl; [constructor|].
  apply StronglySorted_app. split; [|split; [done | repeat constructor]].
  intros y z Hy Hz. apply list_elem_of_singleton in Hz as ->.
  rewrite Forall_forall in Hx. apply Hx.
  by rewrite list_elem_of_In, in_rev, <- list_elem_of_In.
Qed.

Lemma stable_sort_sorted l : Forall D l → StronglySorted in_order (stable_sort l).
Proof. intros Dl. apply StronglySorted_rev, fold_insert_sorted; [done|constructor..]. Qed.

(** The first element: nothing is less than it. *)
Lemma stable_sort_head l x :
  Forall D l → head (stable_sort l) = Some x → x ∈ l ∧ ∀ y, y ∈ l → less y x = false.
Proof.
  intros Dl. pose proof (stable_sort_sorted l Dl) as Hs. pose proof (stable_sort_perm l) as Hp.
  destruct (stable_sort l) as [|z s]; simpl; [done|]. intros [= ->].
  inversion_clear Hs as [|? ? _ Hall].
  assert (x ∈ l) as Hx by (rewrite <- Hp; set_solver).
  assert (D x) as Dx by (rewrite Forall_forall in Dl; by apply Dl).
  split; [done|].
  intros y Hy. rewrite <- Hp in Hy. apply elem_of_cons in Hy as [->|Hy].
  - destruct (less x x) eqn:E; [|done]. by rewrite (sw_asym x x Dx Dx E) in E.
  - rewrite Forall_forall in Hall. by apply Hall.
Qed.

Lemma stable_sort_head_None l : head (stable_sort l) = None ↔ l = [].
Proof.
  split; [|by intros ->]. intros H.
  pose proof (stable_sort_length l) as Hl.
  destruct (stable_sort l); [|done]. by destruct l.
Qed.

(** When ties only occur between equal elements, the sorted list depends on
    the elements only. *)
Lemma stable_sort_unique l1 l2 :
  Forall D l1 →
  (∀ x y, x ∈ l1 → y ∈ l2 → less x y = false → less y x = false → x = y) →
  l1 ≡ₚ l2 → stable_sort l1 = stable_sort l2.
Proof.
  intros Dl Htie Hp. eapply (StronglySorted_unique_strong in_order).
  - intros x y Hx Hy. rewrite stable_sort_elem in Hx, Hy.
    unfold in_order. intros H1 H2. by apply Htie.
  - by apply stable_sort_sorted.
  - apply stable_sort_sorted. by rewrite <- Hp.
  - by rewrite !stable_sort_perm.
Qed.

(** Stability: the elements of a class without internal order keep the order
    they had. *)
Section Stability.
Context (P : A → bool).
Hypothesis P_class : ∀ x y, P x = true → P y = true → less x y = false.

Lemma insert_back_filter x racc :
  List.filter P (insert_back x racc) = List.filter P (x :: racc).
Proof.
  induction racc as [|y r IH]; simpl; [done|].
  case_match eqn:E; simpl; [|done]. rewrite IH. simpl.
  destruct (P x) eqn:Px, (P y) eqn:Py; try done.
  by rewrite (P_class x y) in E.
Qed.

Lemma fold_insert_filter l racc :
  List.filter P (fold_left (λ acc x, insert_back x acc) l racc)
  = List.filter P (rev l) ++ List.filter P racc.
Proof.
  revert racc. induction l as [|x l IH]; intros racc; simpl; [done|].
  rewrite IH, insert_back_filter, List.filter_app, <- (assoc_L (++)). simpl.
  by destruct (P x).
Qed.

Lemma stable_sort_stable l : List.filter P (stable_sort l) = List.filter P l.
Proof.
  unfold stable_sort.
  enough (∀ s, List.filter P (rev s) = rev (List.filter P s)) as Hrev.
  { rewrite Hrev, fold_insert_filter, app_nil_r, Hrev. apply rev_involutive. }
  intros s. induction s as [|x s IH]; simpl; [done|].
  rewrite List.filter_app, IH. simpl. destruct (P x); simpl; by rewrite ?app_nil_r.
Qed.
End Stability.
End StableSort.


(** ** Sorting by a text key *)

Lemma StronglySorted_keys {A} (R R' : A → A → Prop) (k : A → string) l :
  StronglySorted R l → NoDup (k <$> l) → (∀ x y, R x y → k x ≠ k y → R' x y) →
  StronglySorted R' l.
Proof.
  intros Hs Hnd HR. induction Hs as [|x l Hs IH Hx]; [constructor|].
  rewrite fmap_cons in Hnd. apply NoDup_cons in Hnd as [Hn Hnd].
  constructor; [by apply IH|]. rewrite Forall_forall in Hx |- *. intros y Hy.
  apply HR; [by apply Hx|]. intros E. apply Hn. rewrite E. by apply list_elem_of_fmap_2.
Qed.

Definition key_less {A} (k : A → string) (x y : A) : bool := String.ltb (k x) (k y).

Lemma key_less_strict_weak {A} (k : A → string) : StrictWeak (λ _, True) (key_less k).
Proof.
  apply (strict_weak_of_comparator _ (cmp_on k String.compare)).
  - apply cmp_on_comparator, _.
  - intros x y _ _. unfold key_less, cmp_on, String.ltb. by destruct (String.compare _ _).
Qed.

Lemma stable_sort_keys {A} (k : A → string) l :
  NoDup (k <$> l) → StronglySorted (λ x y, string_lt (k x) (k y)) (stable_sort (key_less k) l).
Proof.
  intros Hnd. pose proof (key_less_strict_weak k) as SW.
  apply (StronglySorted_keys (in_order (key_less k)) _ k).
  - apply (stable_sort_sorted (key_less k) (λ _, True)). by apply Forall_true.
  - by rewrite stable_sort_perm.
  - intros x y Hxy Hne. unfold in_order, key_less in Hxy.
    destruct (string_lt_dec (k x) (k y)) as [|Hn]; [done|]. exfalso. apply Hne.
    apply string_lt_total; [done|]. intros Hlt. apply string_ltb_lt in Hlt. congruence.
Qed.

(** [sort.Strings] *)
Definition sort_strings (l : list string) : list string := stable_sort (key_less id) l.

Lemma sort_strings_strict l : NoDup l → StronglySorted string_lt (sort_strings l).
Proof. intros Hl. apply (stable_sort_keys id). by rewrite list_fmap_id. Qed.

Lemma sort_strings_elem x l : x ∈ sort_strings l ↔ x ∈ l.
Proof. apply stable_sort_elem. Qed.
