(* ===== verification/GoValues.v ===== *)
(** * Go's dynamic values

    The values that the program stores in variables of type [any], with the
    operations of the language and its standard library that the program
    applies to them: the kind of a value ([reflect.Kind]), interface equality
    [==], [reflect.DeepEqual] and [fmt.Sprint].

    A value carries its dynamic type's name, which identifies the type.
    Integers are unbounded [Z] inside their kind's range; floats are IEEE
    floats ([spec_float]); maps have string keys (the only maps the program
    looks into) and are listed by entry; a pointer has an address and what it
    points to.  Two slices or maps are never the same object: the identity
    shortcut of [reflect.DeepEqual] only matters when they hold a NaN or a
    function.  Channels and complex numbers are left out. *)

From Stdlib Require Import String Ascii SpecFloat.
From stdpp Require Import base sets list strings pretty.
From S2P Require Import Prelude StableSort.

Inductive int_kind := KInt | KInt8 | KInt16 | KInt32 | KInt64.
Inductive uint_kind := KUint | KUint8 | KUint16 | KUint32 | KUint64 | KUintptr.
Inductive float_kind := KFloat32 | KFloat64.

#[export] Instance int_kind_eq_dec : EqDecision int_kind.
Proof. solve_decision. Defined.
#[export] Instance uint_kind_eq_dec : EqDecision uint_kind.
Proof. solve_decision. Defined.
#[export] Instance float_kind_eq_dec : EqDecision float_kind.
Proof. solve_decision. Defined.

Set Warnings "-register-all".

Inductive value : Type :=
| VNil
| VBool (ty : string) (b : bool)
| VInt (ty : string) (k : int_kind) (z : Z)
| VUint (ty : string) (k : uint_kind) (z : Z)
| VFloat (ty : string) (k : float_kind) (f : spec_float)
| VString (ty : string) (s : string)
| VSlice (ty : string) (elems : option (list value))
| VArray (ty : string) (comparable : bool) (elems : list value)
| VMap (ty keyty : string) (entries : option (list (string * value)))
| VStruct (ty : string) (comparable : bool) (fields : list (string * bool * value))
| VPtr (ty : string) (addr : Z) (target : option value)
| VFunc (ty : string) (addr : option Z).

(** The values of the predeclared types. *)
Definition vstr (s : string) : value := VString "string" s.
Definition vint (z : Z) : value := VInt "int" KInt z.
Definition vbool (b : bool) : value := VBool "bool" b.
Definition vfloat (f : spec_float) : value := VFloat "float64" KFloat64 f.
Definition vanys (l : list value) : value := VSlice "[]interface {}" (Some l).
Definition vmap (l : list (string * value)) : value :=
  VMap "map[string]interface {}" "string" (Some l).

(** The type assertion [v.(string)]. *)
Definition assert_string (v : value) : option string :=
  match v with
  | VString ty s => if String.eqb ty "string" then Some s else None
  | _ => None
  end.

Lemma assert_string_Some v s : assert_string v = Some s ↔ v = vstr s.
Proof.
  split; [|by intros ->]. destruct v; simpl; try done.
  destruct (String.eqb_spec ty "string") as [->|]; [|done]. by intros [= ->].
Qed.

(** Induction with hypotheses for the values nested in lists. *)
Section ValueInd.
Context (P : value → Prop).
Context (Hnil : P VNil)
  (Hbool : ∀ ty b, P (VBool ty b))
  (Hint : ∀ ty k z, P (VInt ty k z))
  (Huint : ∀ ty k z, P (VUint ty k z))
  (Hfloat : ∀ ty k f, P (VFloat ty k f))
  (Hstring : ∀ ty s, P (VString ty s))
  (Hslice_nil : ∀ ty, P (VSlice ty None))
  (Hslice : ∀ ty l, Forall P l → P (VSlice ty (Some l)))
  (Harray : ∀ ty c l, Forall P l → P (VArray ty c l))
  (Hmap_nil : ∀ ty kt, P (VMap ty kt None))
  (Hmap : ∀ ty kt l, Forall (λ kv, P kv.2) l → P (VMap ty kt (Some l)))
  (Hstruct : ∀ ty c l, Forall (λ fv, P fv.2) l → P (VStruct ty c l))
  (Hptr_nil : ∀ ty a, P (VPtr ty a None))
  (Hptr : ∀ ty a v, P v → P (VPtr ty a (Some v)))
  (Hfunc : ∀ ty a, P (VFunc ty a)).

Fixpoint value_nested_ind (v : value) : P v :=
  let list_ind := fix go (l : list value) : Forall P l :=
    match l with [] => List.Forall_nil _ | x :: l' => @List.Forall_cons _ P x l' (value_nested_ind x) (go l') end in
  match v with
  | VNil => Hnil
  | VBool ty b => Hbool ty b
  | VInt ty k z => Hint ty k z
  | VUint ty k z => Huint ty k z
  | VFloat ty k f => Hfloat ty k f
  | VString ty s => Hstring ty s
  | VSlice ty None => Hslice_nil ty
  | VSlice ty (Some l) => Hslice ty l (list_ind l)
  | VArray ty c l => Harray ty c l (list_ind l)
  | VMap ty kt None => Hmap_nil ty kt
  | VMap ty kt (Some l) =>
      Hmap ty kt l ((fix go (l : list (string * value)) : Forall (λ kv, P kv.2) l :=
        match l with
        | [] => List.Forall_nil _
        | kv :: l' => @List.Forall_cons _ (λ kv, P kv.2) kv l' (value_nested_ind kv.2) (go l')
        end) l)
  | VStruct ty c l =>
      Hstruct ty c l ((fix go (l : list (string * bool * value)) : Forall (λ fv, P fv.2) l :=
        match l with
        | [] => List.Forall_nil _
        | fv :: l' => @List.Forall_cons _ (λ fv, P fv.2) fv l' (value_nested_ind fv.2) (go l')
        end) l)
  | VPtr ty a None => Hptr_nil ty a
  | VPtr ty a (Some v) => Hptr ty a v (value_nested_ind v)
  | VFunc ty a => Hfunc ty a
  end.
End ValueInd.

Fixpoint assoc {A : Type} (k : string) (l : list (string * A)) : option A :=
  match l with
  | [] => None
  | (k', v) :: l' => if String.eqb k k' then Some v else assoc k l'
  end.

(** ** [reflect.DeepEqual] *)

Definition option_Z_isnil (a : option Z) : bool := match a with None => true | Some _ => false end.

(** Same length, and equal element by element. *)
Definition forall2b {A : Type} (f : A → A → bool) : list A → list A → bool :=
  fix go l l' :=
    match l, l' with
    | [], [] => true
    | x :: l, y :: l' => f x y && go l l'
    | _, _ => false
    end.

(** Every entry of the first list has an equal entry in [l']. *)
Definition entries_sub {A : Type} (f : A → A → bool) (l' : list (string * A))
  : list (string * A) → bool :=
  fix go l :=
    match l with
    | [] => true
    | (k, x) :: l => match assoc k l' with Some y => f x y && go l | None => false end
    end.

Fixpoint deep_equal (a b : value) {struct a} : bool :=
  match a, b with
  | VNil, VNil => true
  | VBool t x, VBool t' y => String.eqb t t' && Bool.eqb x y
  | VInt t k x, VInt t' k' y => String.eqb t t' && bool_decide (k = k') && Z.eqb x y
  | VUint t k x, VUint t' k' y => String.eqb t t' && bool_decide (k = k') && Z.eqb x y
  | VFloat t k x, VFloat t' k' y => String.eqb t t' && bool_decide (k = k') && SFeqb x y
  | VString t x, VString t' y => String.eqb t t' && String.eqb x y
  | VSlice t None, VSlice t' None => String.eqb t t'
  | VSlice t (Some l), VSlice t' (Some l') => String.eqb t t' && forall2b deep_equal l l'
  | VArray t _ l, VArray t' _ l' => String.eqb t t' && forall2b deep_equal l l'
  | VMap t _ None, VMap t' _ None => String.eqb t t'
  | VMap t _ (Some l), VMap t' _ (Some l') =>
      String.eqb t t' && Nat.eqb (length l) (length l') && entries_sub deep_equal l' l
  | VStruct t _ l, VStruct t' _ l' =>
      String.eqb t t' && forall2b (λ f f', deep_equal f.2 f'.2) l l'
  | VPtr t p x, VPtr t' p' y =>
      String.eqb t t' &&
      (Z.eqb p p' || match x, y with Some x, Some y => deep_equal x y | _, _ => false end)
  | VFunc t p, VFunc t' p' => String.eqb t t' && option_Z_isnil p && option_Z_isnil p'
  | _, _ => false
  end.

(** ** Interface equality [a == b]; [None] is the run-time panic that comparing
    values of an uncomparable type raises. *)

(** Elements in order, up to the first difference. *)
Definition first_difference {A : Type} (f : A → A → option bool)
  : list A → list A → option bool :=
  fix go l l' :=
    match l, l' with
    | [], [] => Some true
    | x :: l, y :: l' => match f x y with Some true => go l l' | r => r end
    | _, _ => Some false
    end.

Fixpoint iface_eq (a b : value) {struct a} : option bool :=
  match a, b with
  | VNil, VNil => Some true
  | VBool t x, VBool t' y => Some (String.eqb t t' && Bool.eqb x y)
  | VInt t _ x, VInt t' _ y => Some (String.eqb t t' && Z.eqb x y)
  | VUint t _ x, VUint t' _ y => Some (String.eqb t t' && Z.eqb x y)
  | VFloat t _ x, VFloat t' _ y => Some (String.eqb t t' && SFeqb x y)
  | VString t x, VString t' y => Some (String.eqb t t' && String.eqb x y)
  | VSlice t _, VSlice t' _ => if String.eqb t t' then None else Some false
  | VArray t c l, VArray t' _ l' =>
      if String.eqb t t' then if c then first_difference iface_eq l l' else None
      else Some false
  | VMap t _ _, VMap t' _ _ => if String.eqb t t' then None else Some false
  | VStruct t c l, VStruct t' _ l' =>
      if String.eqb t t'
      then if c then first_difference (λ f f', iface_eq f.2 f'.2) l l' else None
      else Some false
  | VPtr t p _, VPtr t' p' _ => Some (String.eqb t t' && Z.eqb p p')
  | VFunc t _, VFunc t' _ => if String.eqb t t' then None else Some false
  | _, _ => Some false
  end.

(** ** [fmt.Sprint] of one operand

    Two things of the standard library's formatting stay parameters: the
    shortest decimal text of a float, and the text that a value's own [Error]
    or [String] method returns ([None] for a type without one). *)

Class GoFmt := {
  fmt_float : float_kind → spec_float → string;
  method_String : value → option string;
}.

Definition hex_digit (lower : bool) (n : N) : ascii :=
  if (n <? 10)%N then ascii_of_N (48 + n)
  else ascii_of_N ((if lower then 87 else 55) + n).

(** The digits of a positive number in base 16, least significant first. *)
Fixpoint hex_digits (fuel : nat) (n : N) : list N :=
  match fuel with
  | O => []
  | S fuel => if (n =? 0)%N then [] else (n mod 16)%N :: hex_digits fuel (n / 16)%N
  end.

(** An address as [0xc000012345]: at most 16 digits. *)
Definition hex_address (z : Z) : string :=
  "0x" +:+ string_of_list_ascii (hex_digit true <$> rev (hex_digits 16 (Z.to_N z))).

Definition join (sep : string) (l : list string) : string := String.concat sep l.

Section Sprint.
Context `{GoFmt}.

Definition sprint_nonnil_address (a : Z) : string :=
  if Z.eqb a 0 then "<nil>" else hex_address a.

(** [can] is [CanInterface]: methods are not called below unexported
    fields.  [top] is depth 0, where a pointer to a composite value prints
    as [&] and the value. *)
Fixpoint sprint_at (can top : bool) (v : value) {struct v} : string :=
  match (if can then method_String v else None) with
  | Some s => s
  | None =>
      match v with
      | VNil => "<nil>"
      | VBool _ b => if b then "true" else "false"
      | VInt _ _ z => pretty z
      | VUint _ _ z => pretty z
      | VFloat _ k f => fmt_float k f
      | VString _ s => s
      | VSlice _ None => "[]"
      | VSlice _ (Some l) => "[" +:+ join " " (map (sprint_at can false) l) +:+ "]"
      | VArray _ _ l => "[" +:+ join " " (map (sprint_at can false) l) +:+ "]"
      | VMap _ _ None => "map[]"
      | VMap _ _ (Some l) =>
          let texts := map (λ kv, (kv.1, sprint_at can false kv.2)) l in
          let sorted := stable_sort (λ a b, String.ltb a.1 b.1) texts in
          "map[" +:+ join " " (map (λ kt, kt.1 +:+ ":" +:+ kt.2) sorted) +:+ "]"
      | VStruct _ _ l =>
          "{" +:+ join " " (map (λ fv, sprint_at (can && fv.1.2) false fv.2) l) +:+ "}"
      | VPtr _ a None => sprint_nonnil_address a
      | VPtr _ a (Some x) =>
          match top, x with
          | true, (VSlice _ _ | VArray _ _ _ | VStruct _ _ _ | VMap _ _ _) =>
              "&" +:+ sprint_at can false x
          | _, _ => sprint_nonnil_address a
          end
      | VFunc _ a => match a with Some a => hex_address a | None => "<nil>" end
      end
  end.

Definition sprint (v : value) : string := sprint_at true true v.

(** Strings print as themselves, whatever the methods of other types. *)
Lemma sprint_string s : method_String (vstr s) = None → sprint (vstr s) = s.
Proof. intros E. unfold sprint, vstr in *. simpl. by rewrite E. Qed.
End Sprint.

(** ** Laws of the comparisons *)

(** No NaN and no function anywhere, and maps with distinct keys: the values on
    which [reflect.DeepEqual] is reflexive. *)
Fixpoint plain (v : value) : bool :=
  match v with
  | VFloat _ _ f => SFeqb f f
  | VSlice _ (Some l) => forallb plain l
  | VArray _ _ l => forallb plain l
  | VMap _ _ (Some l) => bool_decide (NoDup l.*1) && forallb (λ kv, plain kv.2) l
  | VStruct _ _ l => forallb (λ fv, plain fv.2) l
  | VPtr _ _ (Some x) => plain x
  | VFunc _ a => option_Z_isnil a
  | _ => true
  end.

Lemma assoc_elem {A} k (v : A) l : NoDup l.*1 → (k, v) ∈ l → assoc k l = Some v.
Proof.
  induction l as [|[k' v'] l IH]; simpl; intros Hnd Hin; [set_solver|].
  apply NoDup_cons in Hnd as [Hk Hnd]. apply elem_of_cons in Hin as [[= <- <-]|Hin].
  - by rewrite String.eqb_refl.
  - destruct (String.eqb_spec k k') as [->|_]; [|by apply IH].
    exfalso. apply Hk. by apply (list_elem_of_fmap_2 fst _ (k', v)).
Qed.

Lemma assoc_Some_elem {A} k (v : A) l : assoc k l = Some v → (k, v) ∈ l.
Proof.
  induction l as [|[k' v'] l IH]; simpl; [done|].
  destruct (String.eqb_spec k k') as [->|_]; intros E; [|set_solver].
  simplify_eq. set_solver.
Qed.

Lemma assoc_None_elem {A} k (l : list (string * A)) : assoc k l = None ↔ k ∉ l.*1.
Proof.
  induction l as [|[k' v'] l IH]; simpl; [set_solver|].
  destruct (String.eqb_spec k k') as [->|Hne]; [set_solver|]. rewrite IH. set_solver.
Qed.

Ltac refl_bools :=
  rewrite ?String.eqb_refl, ?bool_decide_eq_true_2, ?Z.eqb_refl, ?Nat.eqb_refl by done; simpl.

Lemma forall2b_refl {A} (f : A → A → bool) (p : A → bool) l :
  Forall (λ x, p x = true → f x x = true) l → forallb p l = true → forall2b f l l = true.
Proof.
  induction 1 as [|x l Hx _ IH]; simpl; [done|]. intros. to_prop; auto.
Qed.

Lemma entries_sub_refl {A} (f : A → A → bool) (p : A → bool) l m :
  NoDup l.*1 → Forall (λ kv : string * A, p kv.2 = true → f kv.2 kv.2 = true) m →
  forallb (λ kv : string * A, p kv.2) m = true → (∀ kv, kv ∈ m → kv ∈ l) →
  entries_sub f l m = true.
Proof.
  intros Hnd. induction 1 as [|[k x] m Hx _ IH]; simpl; intros Hp Hin; [done|].
  to_prop. rewrite (assoc_elem k x) by (try done; apply Hin; set_solver).
  to_prop; [by apply Hx | apply IH; set_solver].
Qed.

Lemma deep_equal_refl v : plain v = true → deep_equal v v = true.
Proof.
  induction v using value_nested_ind; simpl; intros Hp; to_prop; refl_bools;
    try done; eauto using forall2b_refl.
  - by destruct b.
  - apply bool_decide_eq_true_1 in H0. by apply (entries_sub_refl _ plain).
  - by apply (forall2b_refl _ (λ fv : string * bool * value, plain fv.2)).
Qed.
