(* ===== verification/GoTypes.v ===== *)
(** * Go's types, as far as package reflect shows them to the program

    A [reflect.Type] is its name, which identifies it, and its kind.  Element
    types of slices, maps and pointers are not needed.  Channels, complex
    numbers and unsafe pointers are left out, as in GoValues.v. *)

From Stdlib Require Import String SpecFloat.
From stdpp Require Import base list strings.
From S2P Require Import Prelude GoValues.

Local Open Scope string_scope.
Local Open Scope list_scope.

Set Warnings "-register-all".

Inductive gotype :=
| TBool (name : string)
| TInt (name : string) (k : int_kind)
| TUint (name : string) (k : uint_kind)
| TFloat (name : string) (k : float_kind)
| TString (name : string)
| TSlice (name : string)
| TMap (name keyname : string)
| TPointer (name : string)
| TFunc (name : string)
| TInterface (name : string)
| TArray (name : string) (elem : gotype) (len : nat)
| TStruct (name : string) (fields : list (string * bool * option string * gotype)).

(** A field of a struct type: its name, whether it is exported, what
    [Tag.Lookup("json")] returns, and its type. *)
Definition structField : Type := string * bool * option string * gotype.
Definition field_Name (f : structField) : string := f.1.1.1.
Definition field_exported (f : structField) : bool := f.1.1.2.
Definition field_tag (f : structField) : option string := f.1.2.
Definition field_Type (f : structField) : gotype := f.2.

Definition Type_Name (t : gotype) : string :=
  match t with
  | TBool n | TInt n _ | TUint n _ | TFloat n _ | TString n | TSlice n | TMap n _ | TPointer n
  | TFunc n | TInterface n | TArray n _ _ | TStruct n _ => n
  end.

(** [==] on [reflect.Type]s *)
Definition same_type (t t' : gotype) : bool := String.eqb (Type_Name t) (Type_Name t').

(** [reflect.Type.Comparable] *)
Fixpoint Comparable (t : gotype) : bool :=
  match t with
  | TSlice _ | TMap _ _ | TFunc _ => false
  | TArray _ elem _ => Comparable elem
  | TStruct _ fields => forallb (λ f : structField, Comparable f.2) fields
  | _ => true
  end.

(** [reflect.Zero]; the zero value of an interface type is the nil interface. *)
Fixpoint zero_value (t : gotype) : value :=
  match t with
  | TBool n => VBool n false
  | TInt n k => VInt n k 0
  | TUint n k => VUint n k 0
  | TFloat n k => VFloat n k (S754_zero false)
  | TString n => VString n ""
  | TSlice n => VSlice n None
  | TMap n kn => VMap n kn None
  | TPointer n => VPtr n 0 None
  | TFunc n => VFunc n None
  | TInterface _ => VNil
  | TArray n elem len => VArray n (Comparable elem) (replicate len (zero_value elem))
  | TStruct n fields =>
      VStruct n (forallb (λ f : structField, Comparable f.2) fields)
        (map (λ f : structField, (f.1.1.1, f.1.1.2, zero_value f.2)) fields)
  end.

Definition any_type : gotype := TInterface "interface {}".

Definition is_interface (t : gotype) : bool := match t with TInterface _ => true | _ => false end.
