(* ===== verification/GoMaps.v ===== *)
(** * Go maps with string keys, as the list of their entries in key order

    [map_set] and [map_delete] are the assignments [m[k] = v] and [delete(m, k)];
    the order of the list makes equal maps equal lists. *)

From Stdlib Require Import String Sorted.
From stdpp Require Import base sets list strings sorting.
From S2P Require Import Prelude GoValues.

Section Maps.
Context {A : Type}.

Fixpoint map_set (k : string) (v : A) (m : list (string * A)) : list (string * A) :=
  match m with
  | [] => [(k, v)]
  | (k', v') :: m' =>
      match String.compare k k' with
      | Lt => (k, v) :: m
      | Eq => (k, v) :: m'
      | Gt => (k', v') :: map_set k v m'
      end
  end.

Fixpoint map_delete (k : string) (m : list (string * A)) : list (string * A) :=
  match m with
  | [] => []
  | (k', v') :: m' => if String.eqb k k' then map_delete k m' else (k', v') :: map_delete k m'
  end.

(** [maps.Copy(dst, src)] *)
Definition map_copy (dst src : list (string * A)) : list (string * A) :=
  fold_left (λ m kv, map_set kv.1 kv.2 m) src dst.

(** The map of the pairs of a list; later pairs win. *)
Definition map_of (l : list (string * A)) : list (string * A) := map_copy [] l.

Definition has_key (k : string) (m : list (string * A)) : bool :=
  match assoc k m with Some _ => true | None => false end.

Lemma assoc_map_set k v m q :
  assoc q (map_set k v m) = if String.eqb q k then Some v else assoc q m.
Proof.
  induction m as [|[k' v'] m IH]; simpl; [done|].
  destruct (String.compare k k') eqn:E; simpl.
  - apply string_compare_eq in E as ->. by destruct (String.eqb q k').
  - by destruct (String.eqb q k).
  - rewrite IH. destruct (String.eqb_spec q k') as [->|]; [|done].
    destruct (String.eqb_spec k' k) as [->|]; [|done]. by rewrite string_compare_refl in E.
Qed.

Lemma assoc_map_delete k m q :
  assoc q (map_delete k m) = if String.eqb q k then None else assoc q m.
Proof.
  induction m as [|[k' v'] m IH]; simpl; [by destruct (String.eqb q k)|].
  destruct (String.eqb_spec k k') as [->|Hne]; simpl; rewrite IH.
  - destruct (String.eqb_spec q k'); done.
  - destruct (String.eqb_spec q k') as [->|]; [|done]. by destruct (String.eqb_spec k' k).
Qed.

Lemma assoc_map_copy dst src q :
  assoc q (map_copy dst src) = match assoc q (rev src) with Some v => Some v | None => assoc q dst end.
Proof.
  unfold map_copy. induction src as [|[k v] src IH] using rev_ind; simpl; [done|].
  rewrite fold_left_app, rev_app_distr. simpl. rewrite assoc_map_set, IH.
  by destruct (String.eqb q k).
Qed.

(** ** The key order *)

Definition keys_lt (x y : string * A) : Prop := string_lt x.1 y.1.
Definition well_keyed (m : list (string * A)) : Prop := StronglySorted keys_lt m.

Lemma map_set_elem k v m x : x ∈ map_set k v m → x = (k, v) ∨ x ∈ m.
Proof.
  induction m as [|[k' v'] m IH]; simpl; [set_solver|].
  destruct (String.compare k k'); set_solver.
Qed.

Lemma map_delete_elem k m x : x ∈ map_delete k m → x ∈ m.
Proof.
  induction m as [|[k' v'] m IH]; simpl; [done|]. destruct (String.eqb k k'); set_solver.
Qed.

Lemma map_set_well_keyed k v m : well_keyed m → well_keyed (map_set k v m).
Proof.
  induction 1 as [|[k' v'] m Hs IH Hx]; simpl; [repeat constructor|].
  rewrite Forall_forall in Hx.
  destruct (String.compare k k') eqn:E.
  - apply string_compare_eq in E as ->. constructor; [done|]. by apply Forall_forall.
  - constructor; [by constructor; [|apply Forall_forall]|].
    apply Forall_forall. intros x [->|Hin]%elem_of_cons; [done|].
    eapply string_lt_trans; [exact E|]. apply (Hx x Hin).
  - constructor; [done|]. apply Forall_forall. intros x [->|Hin]%map_set_elem; [|by apply Hx].
    unfold keys_lt, string_lt. simpl. by rewrite String.compare_antisym, E.
Qed.

Lemma map_delete_well_keyed k m : well_keyed m → well_keyed (map_delete k m).
Proof.
  induction 1 as [|[k' v'] m Hs IH Hx]; simpl; [constructor|].
  destruct (String.eqb k k'); [done|]. constructor; [done|].
  rewrite Forall_forall in *. eauto using map_delete_elem.
Qed.

Lemma map_copy_well_keyed dst src : well_keyed dst → well_keyed (map_copy dst src).
Proof.
  unfold map_copy. revert dst. induction src as [|[k v] src IH]; simpl; [done|].
  intros dst Hd. by apply IH, map_set_well_keyed.
Qed.

Lemma map_of_well_keyed l : well_keyed (map_of l).
Proof. apply map_copy_well_keyed. constructor. Qed.

Lemma well_keyed_tail_None k v m : well_keyed ((k, v) :: m) → ∀ q, String.compare q k ≠ Gt → assoc q m = None.
Proof.
  intros Hm q Hq. apply StronglySorted_inv in Hm as [_ Hx]. rewrite Forall_forall in Hx.
  apply assoc_None_elem. intros Hin. apply list_elem_of_fmap in Hin as (x & -> & Hin).
  apply Hq. specialize (Hx x Hin). unfold keys_lt, string_lt in Hx. simpl in Hx.
  by rewrite String.compare_antisym, Hx.
Qed.

(** Maps with the same lookups are equal. *)
Lemma well_keyed_ext m m' :
  well_keyed m → well_keyed m' → (∀ q, assoc q m = assoc q m') → m = m'.
Proof.
  intros Hm. revert m'. induction Hm as [|[k v] m Hs IH Hx]; intros m' Hm' Hext.
  { destruct m' as [|[k' v'] m']; [done|]. specialize (Hext k'). simpl in Hext.
    by rewrite String.eqb_refl in Hext. }
  destruct m' as [|[k' v'] m'].
  { specialize (Hext k). simpl in Hext. by rewrite String.eqb_refl in Hext. }
  assert (Hm : well_keyed ((k, v) :: m)) by by constructor.
  assert (k = k') as ->.
  { destruct (String.compare k k') eqn:E; [by apply string_compare_eq| |].
    - specialize (Hext k). simpl in Hext. rewrite String.eqb_refl in Hext.
      destruct (String.eqb_spec k k'); [done|].
      by rewrite (well_keyed_tail_None _ _ _ Hm' k) in Hext by congruence.
    - specialize (Hext k'). simpl in Hext. rewrite String.eqb_refl in Hext.
      destruct (String.eqb_spec k' k); [done|].
      assert (String.compare k' k ≠ Gt) by by rewrite String.compare_antisym, E.
      by rewrite (well_keyed_tail_None _ _ _ Hm k') in Hext. }
  pose proof (Hext k') as Hk. simpl in Hk. rewrite String.eqb_refl in Hk. injection Hk as ->.
  f_equal. apply IH; [by apply StronglySorted_inv in Hm' as []|]. intros q.
  specialize (Hext q). simpl in Hext. destruct (String.eqb_spec q k') as [Hq|]; [rewrite Hq|done].
  rewrite (well_keyed_tail_None _ _ _ Hm), (well_keyed_tail_None _ _ _ Hm');
    by rewrite ?string_compare_refl.
Qed.

Lemma well_keyed_NoDup m : well_keyed m → NoDup m.*1.
Proof.
  induction 1 as [|[k v] m Hs IH Hx]; simpl; constructor; [|done].
  rewrite Forall_forall in Hx. intros Hin. apply list_elem_of_fmap in Hin as ([k' v'] & E & Hin).
  simpl in E. subst. apply (string_lt_irrefl k'). by apply (Hx (k', v')).
Qed.

Lemma assoc_rev (m : list (string * A)) q : NoDup m.*1 → assoc q (rev m) = assoc q m.
Proof.
  intros Hnd. assert (Hrev : rev m ≡ₚ m) by (symmetry; apply Permutation_rev).
  assert (Hnd' : NoDup (rev m).*1) by by rewrite Hrev.
  destruct (assoc q m) as [v|] eqn:E.
  - apply assoc_Some_elem in E. apply assoc_elem; [done|by rewrite Hrev].
  - apply assoc_None_elem in E. apply assoc_None_elem. by rewrite Hrev.
Qed.

Lemma map_of_id (m : list (string * A)) : well_keyed m → map_of m = m.
Proof.
  intros Hm. apply well_keyed_ext; [apply map_of_well_keyed|done|]. intros q.
  unfold map_of. rewrite assoc_map_copy, assoc_rev by by apply well_keyed_NoDup.
  simpl. by destruct (assoc q m).
Qed.

Lemma map_set_get k v m : well_keyed m → assoc k m = Some v → map_set k v m = m.
Proof.
  intros Hm Hk. apply well_keyed_ext; [by apply map_set_well_keyed|done|]. intros q.
  rewrite assoc_map_set. by destruct (String.eqb_spec q k) as [->|].
Qed.
Fixpoint sorted_keys (m : list (string * A)) : bool :=
  match m with
  | (k, _) :: (((k', _) :: _) as m') => String.ltb k k' && sorted_keys m'
  | _ => true
  end.

Lemma sorted_keys_well_keyed m : sorted_keys m = true ↔ well_keyed m.
Proof.
  split.
  - intros Hm. apply Sorted_StronglySorted.
    { intros x y z. unfold keys_lt. apply string_lt_trans. }
    induction m as [|[k v] [|[k' v'] m] IH]; [repeat constructor..|].
    simpl in Hm. to_prop. constructor; [by apply IH|]. constructor. by apply string_ltb_lt.
  - induction 1 as [|[k v] m Hs IH Hx]; [done|]. simpl. destruct m as [|[k' v'] m]; [done|].
    apply andb_true_iff. split; [|done]. apply string_ltb_lt. by inversion Hx.
Qed.
End Maps.
