(* ===== verification/GoStrings.v ===== *)
(** * The string functions of Go's standard library that the program uses

    [strings.TrimSpace], [ToLower], [HasPrefix], [TrimPrefix], [TrimSuffix],
    [Split], [Join] and [net/url]'s [PathEscape] and [PathUnescape], on byte
    strings. *)

From Stdlib Require Import String Ascii.
From stdpp Require Import base sets list strings.
From S2P Require Import Prelude GoValues.

Local Open Scope string_scope.
Local Open Scope nat_scope.
Local Open Scope list_scope.

(** ** Prefixes and suffixes *)

Fixpoint strip_prefix (p s : string) : option string :=
  match p, s with
  | EmptyString, _ => Some s
  | String a p', String b s' => if Ascii.eqb a b then strip_prefix p' s' else None
  | String _ _, EmptyString => None
  end.

Definition HasPrefix (s p : string) : bool :=
  match strip_prefix p s with Some _ => true | None => false end.

Definition TrimPrefix (s p : string) : string :=
  match strip_prefix p s with Some s' => s' | None => s end.

Definition string_rev (s : string) : string :=
  string_of_list_ascii (rev (list_ascii_of_string s)).

Definition strip_suffix (p s : string) : option string :=
  string_rev <$> strip_prefix (string_rev p) (string_rev s).

Definition TrimSuffix (s p : string) : string :=
  match strip_suffix p s with Some s' => s' | None => s end.

Lemma string_rev_involutive s : string_rev (string_rev s) = s.
Proof.
  unfold string_rev.
  by rewrite list_ascii_of_string_of_list_ascii, rev_involutive,
    string_of_list_ascii_of_string.
Qed.

Lemma strip_prefix_Some p s t : strip_prefix p s = Some t ↔ s = p +:+ t.
Proof.
  revert s. induction p as [|a p IH]; intros s; simpl; [split; [by intros [= ->] | by intros ->]|].
  destruct s as [|b s]; [done|].
  destruct (Ascii.eqb_spec a b) as [->|Hne]; [rewrite IH|]; split; try done.
  - by intros ->.
  - by intros [= ->].
  - by intros [= <-].
Qed.

Lemma app_string_cons x a b : String x a +:+ b = String x (a +:+ b).
Proof. done. Qed.

Lemma app_string_nil b : "" +:+ b = b.
Proof. done. Qed.

Lemma app_string_assoc (a b c : string) : (a +:+ b) +:+ c = a +:+ (b +:+ c).
Proof. induction a as [|x a IH]; [done|]. by rewrite !app_string_cons, IH. Qed.

Lemma app_string_nil_r (a : string) : a +:+ "" = a.
Proof. induction a as [|x a IH]; [done|]. by rewrite app_string_cons, IH. Qed.

Lemma list_ascii_app a b :
  list_ascii_of_string (a +:+ b) = (list_ascii_of_string a ++ list_ascii_of_string b)%list.
Proof. induction a as [|x a IH]; [done|]. rewrite app_string_cons; simpl. by rewrite IH. Qed.

Lemma string_rev_app a b : string_rev (a +:+ b) = string_rev b +:+ string_rev a.
Proof.
  unfold string_rev. rewrite list_ascii_app, rev_app_distr.
  generalize (rev (list_ascii_of_string b)) (rev (list_ascii_of_string a)).
  intros l l'. induction l as [|x l IH]; [done|]. simpl. by rewrite app_string_cons, IH.
Qed.

Lemma strip_suffix_Some p s t : strip_suffix p s = Some t ↔ s = t +:+ p.
Proof.
  unfold strip_suffix. rewrite fmap_Some. split.
  - intros (r & Hr & ->). apply strip_prefix_Some in Hr.
    rewrite <- (string_rev_involutive s), Hr, string_rev_app.
    by rewrite string_rev_involutive.
  - intros ->. exists (string_rev t).
    rewrite strip_prefix_Some, string_rev_app, string_rev_involutive. done.
Qed.

(** ** TrimSpace: removes the leading and trailing runes that Unicode's
    White_Space property holds, in their UTF-8 encodings. *)

Definition bytes (l : list N) : string := string_of_list_ascii (map ascii_of_N l).

Definition space_runes : list string :=
  map bytes
    ([[9]; [10]; [11]; [12]; [13]; [32];
      [0xC2; 0x85]; [0xC2; 0xA0]; [0xE1; 0x9A; 0x80];
      [0xE2; 0x80; 0x80]; [0xE2; 0x80; 0x81]; [0xE2; 0x80; 0x82]; [0xE2; 0x80; 0x83];
      [0xE2; 0x80; 0x84]; [0xE2; 0x80; 0x85]; [0xE2; 0x80; 0x86]; [0xE2; 0x80; 0x87];
      [0xE2; 0x80; 0x88]; [0xE2; 0x80; 0x89]; [0xE2; 0x80; 0x8A];
      [0xE2; 0x80; 0xA8]; [0xE2; 0x80; 0xA9]; [0xE2; 0x80; 0xAF];
      [0xE2; 0x81; 0x9F]; [0xE3; 0x80; 0x80]]%N).

(** The string without one of [ps] at its start, if it starts with one. *)
Fixpoint strip_any (ps : list string) (s : string) : option string :=
  match ps with
  | [] => None
  | p :: ps => match strip_prefix p s with Some t => Some t | None => strip_any ps s end
  end.

Fixpoint trim_runes (ps : list string) (fuel : nat) (s : string) : string :=
  match fuel with
  | O => s
  | S fuel => match strip_any ps s with Some t => trim_runes ps fuel t | None => s end
  end.

Definition TrimLeftSpace (s : string) : string :=
  trim_runes space_runes (String.length s) s.

Definition TrimRightSpace (s : string) : string :=
  string_rev (trim_runes (map string_rev space_runes) (String.length s) (string_rev s)).

Definition TrimSpace (s : string) : string := TrimRightSpace (TrimLeftSpace s).

(** ** ToLower

    Upper-case ASCII letters, and the two other runes whose lower case is an
    ASCII letter: the Kelvin sign and the dotted capital I.  Other runes lower
    to runes outside ASCII, so comparing the result with an ASCII word gives
    the outcome of [strings.ToLower]; the program makes no other use of it. *)

Definition ascii_lower (c : ascii) : ascii :=
  let n := N_of_ascii c in
  if ((65 <=? n) && (n <=? 90))%N then ascii_of_N (n + 32) else c.

Definition kelvin_sign : string := bytes [0xE2; 0x84; 0xAA]%N.
Definition dotted_capital_i : string := bytes [0xC4; 0xB0]%N.

Fixpoint to_lower (fuel : nat) (s : string) : string :=
  match fuel, s with
  | O, _ | _, EmptyString => EmptyString
  | S fuel, String c s' =>
      match strip_prefix kelvin_sign s, strip_prefix dotted_capital_i s with
      | Some t, _ => String "k" (to_lower fuel t)
      | None, Some t => String "i" (to_lower fuel t)
      | None, None => String (ascii_lower c) (to_lower fuel s')
      end
  end.

Definition ToLower (s : string) : string := to_lower (String.length s) s.

(** ** Split and Join with a one-byte separator *)

Fixpoint Split (s : string) (sep : ascii) : list string :=
  match s with
  | EmptyString => [EmptyString]
  | String c s' =>
      if Ascii.eqb c sep then EmptyString :: Split s' sep
      else match Split s' sep with
           | p :: ps => String c p :: ps
           | [] => [String c EmptyString]
           end
  end.

(** ** url.PathEscape and url.PathUnescape *)

Definition is_hex (c : ascii) : bool :=
  let n := N_of_ascii c in
  ((48 <=? n) && (n <=? 57) || (97 <=? n) && (n <=? 102) || (65 <=? n) && (n <=? 70))%N.

Definition unhex (c : ascii) : N :=
  let n := N_of_ascii c in
  (if (48 <=? n) && (n <=? 57) then n - 48
   else if (97 <=? n) && (n <=? 102) then n - 87 else n - 55)%N.

(** Bytes that stay as they are in a path segment. *)
Definition path_unreserved (c : ascii) : bool :=
  let n := N_of_ascii c in
  ((97 <=? n) && (n <=? 122) || (65 <=? n) && (n <=? 90) || (48 <=? n) && (n <=? 57))%N
  || bool_decide (c ∈ list_ascii_of_string "-_.~$&+:=@").

Definition escape_byte (c : ascii) : string :=
  if path_unreserved c then String c EmptyString
  else let n := N_of_ascii c in
       String "%" (String (hex_digit false (n / 16)) (String (hex_digit false (n mod 16)) "")).

Fixpoint PathEscape (s : string) : string :=
  match s with
  | EmptyString => EmptyString
  | String c s' => escape_byte c +:+ PathEscape s'
  end.

(** [None] is the escape error: a [%] without two hexadecimal digits. *)
Fixpoint PathUnescape (s : string) : option string :=
  match s with
  | EmptyString => Some EmptyString
  | String c s1 =>
      if Ascii.eqb c "%"
      then match s1 with
           | String a (String b s2) =>
               if is_hex a && is_hex b
               then String (ascii_of_N (unhex a * 16 + unhex b)) <$> PathUnescape s2
               else None
           | _ => None
           end
      else String c <$> PathUnescape s1
  end.

(** ** Laws *)

Lemma list_ascii_length s : length (list_ascii_of_string s) = String.length s.
Proof. induction s as [|c s IH]; simpl; [done|]. by rewrite IH. Qed.

Lemma string_length_app a b : String.length (a +:+ b) = String.length a + String.length b.
Proof. by rewrite <- !list_ascii_length, list_ascii_app, length_app. Qed.

Lemma string_length_rev s : String.length (string_rev s) = String.length s.
Proof.
  rewrite <- !list_ascii_length. unfold string_rev.
  by rewrite list_ascii_of_string_of_list_ascii, length_rev.
Qed.

Lemma strip_any_Some ps s t : strip_any ps s = Some t → ∃ p, p ∈ ps ∧ s = p +:+ t.
Proof.
  induction ps as [|p ps IH]; simpl; [done|].
  destruct (strip_prefix p s) as [t'|] eqn:E; intros H.
  - injection H as ->. apply strip_prefix_Some in E. exists p. set_solver.
  - destruct (IH H) as (q & Hq & ->). exists q. set_solver.
Qed.

Lemma strip_any_None ps s : strip_any ps s = None ↔ ∀ p t, p ∈ ps → s ≠ p +:+ t.
Proof.
  induction ps as [|p ps IH]; simpl; [set_solver|].
  destruct (strip_prefix p s) as [t|] eqn:E.
  - apply strip_prefix_Some in E. split; [done|]. intros H. exfalso. by apply (H p t); [set_solver|].
  - rewrite IH. split.
    + intros H q t [->|Hq]%elem_of_cons; [|by apply H].
      intros Hs%strip_prefix_Some. congruence.
    + intros H q t Hq. apply H. set_solver.
Qed.

Section TrimRunes.
Context (ps : list string).
Hypothesis ps_nonempty : ∀ p, p ∈ ps → 0 < String.length p.

(** Enough fuel: nothing is left to strip. *)
Lemma trim_runes_None fuel s :
  String.length s ≤ fuel → strip_any ps (trim_runes ps fuel s) = None.
Proof.
  revert s. induction fuel as [|fuel IH]; intros s Hs; simpl.
  - apply strip_any_None. intros p t Hp ->. apply ps_nonempty in Hp.
    rewrite string_length_app in Hs. lia.
  - destruct (strip_any ps s) as [t|] eqn:E; [|done]. apply IH.
    apply strip_any_Some in E as (p & Hp & ->). apply ps_nonempty in Hp.
    rewrite string_length_app in Hs. lia.
Qed.

Lemma trim_runes_id fuel s : strip_any ps s = None → trim_runes ps fuel s = s.
Proof. intros E. destruct fuel; simpl; [done|]. by rewrite E. Qed.

Lemma trim_runes_suffix fuel s : ∃ p, s = p +:+ trim_runes ps fuel s.
Proof.
  revert s. induction fuel as [|fuel IH]; intros s; simpl; [by exists ""|].
  destruct (strip_any ps s) as [t|] eqn:E; [|by exists ""].
  apply strip_any_Some in E as (p & _ & ->). destruct (IH t) as [q Hq].
  exists (p +:+ q). by rewrite app_string_assoc, <- Hq.
Qed.
End TrimRunes.

Lemma space_runes_nonempty p : p ∈ space_runes → 0 < String.length p.
Proof.
  revert p. apply Forall_forall. unfold space_runes. repeat constructor; simpl; lia.
Qed.

Lemma space_runes_rev_nonempty p : p ∈ map string_rev space_runes → 0 < String.length p.
Proof.
  intros (q & -> & Hq)%list_elem_of_fmap. rewrite string_length_rev.
  by apply space_runes_nonempty.
Qed.

(** The trimmed string neither starts nor ends with white space. *)
Lemma TrimSpace_left s : strip_any space_runes (TrimSpace s) = None.
Proof.
  unfold TrimSpace, TrimRightSpace. apply strip_any_None. intros p t Hp E.
  pose proof (trim_runes_None space_runes space_runes_nonempty (String.length s) s) as HN.
  fold (TrimLeftSpace s) in HN. rewrite strip_any_None in HN.
  set (l := TrimLeftSpace s) in *.
  destruct (trim_runes_suffix (map string_rev space_runes) (String.length l) (string_rev l))
    as [q Hq].
  apply (f_equal string_rev) in Hq.
  rewrite string_rev_involutive, string_rev_app, E, app_string_assoc in Hq.
  eapply HN; [lia|exact Hp|exact Hq].
Qed.

Lemma TrimSpace_right s :
  strip_any (map string_rev space_runes) (string_rev (TrimSpace s)) = None.
Proof.
  unfold TrimSpace, TrimRightSpace. rewrite string_rev_involutive.
  apply trim_runes_None; [exact space_runes_rev_nonempty|]. by rewrite string_length_rev.
Qed.

Lemma TrimSpace_id s :
  strip_any space_runes s = None →
  strip_any (map string_rev space_runes) (string_rev s) = None → TrimSpace s = s.
Proof.
  intros H1 H2. unfold TrimSpace, TrimLeftSpace. rewrite trim_runes_id by done.
  unfold TrimRightSpace. rewrite trim_runes_id by done. apply string_rev_involutive.
Qed.

Lemma TrimSpace_idempotent s : TrimSpace (TrimSpace s) = TrimSpace s.
Proof. apply TrimSpace_id; [apply TrimSpace_left | apply TrimSpace_right]. Qed.

(** Splitting a joined list gives the list back when no part holds the
    separator. *)
Lemma Split_app_sep p s sep :
  sep ∉ list_ascii_of_string p → Split (p +:+ String sep s) sep = p :: Split s sep.
Proof.
  induction p as [|c p IH]; simpl; intros Hp.
  - by rewrite Ascii.eqb_refl.
  - destruct (Ascii.eqb_spec c sep) as [->|_]; [set_solver|]. rewrite IH by set_solver. done.
Qed.

Lemma Split_single p sep : sep ∉ list_ascii_of_string p → Split p sep = [p].
Proof.
  induction p as [|c p IH]; simpl; intros Hp; [done|].
  destruct (Ascii.eqb_spec c sep) as [->|_]; [set_solver|]. by rewrite IH by set_solver.
Qed.

Lemma Split_join l sep :
  l ≠ [] → Forall (λ p, sep ∉ list_ascii_of_string p) l →
  Split (join (String sep "") l) sep = l.
Proof.
  intros Hne H. induction H as [|p l Hp Hl IH]; [done|].
  destruct l as [|q l].
  - by apply Split_single.
  - change (join (String sep "") (p :: q :: l))
      with (p +:+ String sep (join (String sep "") (q :: l))).
    rewrite Split_app_sep by done. by rewrite IH.
Qed.

Lemma PathUnescape_escape_byte c s :
  PathUnescape (escape_byte c +:+ s) = String c <$> PathUnescape s.
Proof. destruct c as [[] [] [] [] [] [] [] []]; reflexivity. Qed.

Lemma PathUnescape_PathEscape s : PathUnescape (PathEscape s) = Some s.
Proof.
  induction s as [|c s IH]; simpl; [done|].
  by rewrite PathUnescape_escape_byte, IH.
Qed.

(** Escaped text holds neither a slash nor a star. *)
Lemma escape_byte_safe c :
  bool_decide ("/"%char ∈ list_ascii_of_string (escape_byte c)) = false ∧
  bool_decide ("*"%char ∈ list_ascii_of_string (escape_byte c)) = false.
Proof. destruct c as [[] [] [] [] [] [] [] []]; vm_compute; done. Qed.

Lemma PathEscape_safe s :
  "/"%char ∉ list_ascii_of_string (PathEscape s) ∧
  "*"%char ∉ list_ascii_of_string (PathEscape s).
Proof.
  induction s as [|c s [IH1 IH2]]; simpl; [set_solver|].
  destruct (escape_byte_safe c) as [H1%bool_decide_eq_false_1 H2%bool_decide_eq_false_1].
  rewrite list_ascii_app. set_solver.
Qed.

Lemma Split_not_nil s sep : Split s sep ≠ [].
Proof. destruct s as [|c s]; simpl; [done|]. destruct (Ascii.eqb c sep), (Split s sep); done. Qed.

(** Splitting at one separator splits there. *)
Lemma Split_app a b sep : Split (a +:+ String sep b) sep = Split a sep ++ Split b sep.
Proof.
  induction a as [|c a IH]; [simpl; by rewrite Ascii.eqb_refl|].
  rewrite app_string_cons. simpl. rewrite IH.
  pose proof (Split_not_nil a sep). destruct (Ascii.eqb c sep), (Split a sep); done.
Qed.

(** Bytes that neither are nor end a white-space rune. *)
Definition not_space_end (c : ascii) : bool :=
  let n := N_of_ascii c in ((33 <=? n) && (n <=? 126))%N.

Lemma strip_any_space_rev c r :
  not_space_end c = true → strip_any (map string_rev space_runes) (String c r) = None.
Proof. destruct c as [[] [] [] [] [] [] [] []]; vm_compute; done. Qed.

Lemma strip_any_space c r :
  not_space_end c = true → strip_any space_runes (String c r) = None.
Proof. destruct c as [[] [] [] [] [] [] [] []]; vm_compute; done. Qed.

(** Text made of such bytes has nothing to trim. *)
Lemma TrimSpace_visible s :
  Forall (λ c, not_space_end c = true) (list_ascii_of_string s) → TrimSpace s = s.
Proof.
  intros Hs. apply TrimSpace_id.
  - destruct s as [|c s]; [done|]. simpl in Hs. apply Forall_cons in Hs as [Hc _].
    by apply strip_any_space.
  - unfold string_rev.
    assert (Forall (λ c, not_space_end c = true) (rev (list_ascii_of_string s))) as Hr
      by by apply Forall_rev.
    destruct (rev (list_ascii_of_string s)) as [|c l]; [done|]. simpl.
    apply Forall_cons in Hr as [Hc _]. by apply strip_any_space_rev.
Qed.

Lemma escape_byte_visible c :
  forallb not_space_end (list_ascii_of_string (escape_byte c)) = true.
Proof. destruct c as [[] [] [] [] [] [] [] []]; vm_compute; done. Qed.

Lemma PathEscape_visible s :
  Forall (λ c, not_space_end c = true) (list_ascii_of_string (PathEscape s)).
Proof.
  induction s as [|c s IH]; simpl; [constructor|]. rewrite list_ascii_app.
  apply Forall_app. split; [|done].
  apply Forall_forall. intros x Hx. pose proof (escape_byte_visible c) as Hc.
  rewrite forallb_forall in Hc. apply Hc. by apply list_elem_of_In.
Qed.

Lemma PathEscape_nil s : PathEscape s = "" → s = "".
Proof.
  destruct s as [|c s]; [done|]. simpl. unfold escape_byte.
  destruct (path_unreserved c); done.
Qed.

Lemma join_visible (P : ascii → Prop) sep l :
  P sep → Forall (λ p, Forall P (list_ascii_of_string p)) l →
  Forall P (list_ascii_of_string (join (String sep "") l)).
Proof.
  intros Hsep. induction 1 as [|p l Hp Hl IH]; [constructor|].
  destruct l as [|q l]; [done|].
  change (join (String sep "") (p :: q :: l)) with (p +:+ String sep (join (String sep "") (q :: l))).
  rewrite list_ascii_app. apply Forall_app. split; [done|]. by constructor.
Qed.
