(* ===== verification/GoJSON.v ===== *)
(** * encoding/json, as the program uses it

    [Marshal] of dynamic values and [Unmarshal] into a variable of type [any].
    A JSON text is represented by its syntax tree; [json_text] is the text that
    [Marshal] writes for a tree.  Strings are taken to be valid UTF-8. *)

From Stdlib Require Import String Ascii SpecFloat.
From stdpp Require Import base sets list strings pretty.
From S2P Require Import Prelude GoValues GoMaps.

Local Open Scope string_scope.
Local Open Scope nat_scope.
Local Open Scope list_scope.
Set Warnings "-register-all".

(** ** Float arithmetic: binary64 *)

Definition prec : Z := 53.
Definition emax : Z := 1024.

(** [float64(i)] of an integer *)
Definition float_of_Z (z : Z) : spec_float := binary_normalize prec emax z 0 false.
Definition float_add (a b : spec_float) : spec_float := SFadd prec emax a b.
Definition float_div (a b : spec_float) : spec_float := SFdiv prec emax a b.

Definition float_finite (f : spec_float) : bool :=
  match f with S754_zero _ | S754_finite _ _ _ => true | _ => false end.

(** ** Syntax trees

    A number written for an integer, or for a float of the given kind. *)

Inductive json :=
| JNull
| JBool (b : bool)
| JInt (z : Z)
| JFloat (k : float_kind) (f : spec_float)
| JString (s : string)
| JArray (l : list json)
| JObject (l : list (string * json)).

(** What the types of the program's callers decide: the key and [omitempty] of a
    struct's field ([None] for a field that is not serialized), and the methods
    [MarshalJSON] or [MarshalText] of a value's type.  The decimal text of a
    float, and the float64 that the text of a float32 reads as. *)
Class GoJSON := {
  json_field : string → string → option (string * bool);
  method_MarshalJSON : value → option (option json);
  json_float : float_kind → spec_float → string;
  reparse_float32 : spec_float → spec_float;
}.

Section OptAll.
Context {A B : Type} (f : A → option B).
Fixpoint opt_all (l : list A) : option (list B) :=
  match l with
  | [] => Some []
  | x :: l' => match f x with Some y => match opt_all l' with Some ys => Some (y :: ys) | None => None end
               | None => None end
  end.
End OptAll.

(** The [omitempty] test. *)
Definition is_empty_value (v : value) : bool :=
  match v with
  | VNil | VBool _ false | VSlice _ (None | Some []) | VArray _ _ [] | VMap _ _ (None | Some [])
  | VPtr _ _ None => true
  | VInt _ _ z | VUint _ _ z => Z.eqb z 0
  | VFloat _ _ f => match f with S754_zero _ => true | _ => false end
  | VString _ s => String.eqb s ""
  | _ => false
  end.

Section JSON.
Context `{GoJSON}.

(** [json.Marshal]; [None] is an error. *)
Fixpoint marshal (v : value) : option json :=
  match method_MarshalJSON v with
  | Some r => r
  | None =>
      match v with
      | VNil => Some JNull
      | VBool _ b => Some (JBool b)
      | VInt _ _ z | VUint _ _ z => Some (JInt z)
      | VFloat _ k f => if float_finite f then Some (JFloat k f) else None
      | VString _ s => Some (JString s)
      | VSlice _ None => Some JNull
      | VSlice _ (Some l) | VArray _ _ l => JArray <$> opt_all marshal l
      | VMap _ _ None => Some JNull
      | VMap _ _ (Some l) =>
          (λ l, JObject (map_of l)) <$> opt_all (λ kv, pair kv.1 <$> marshal kv.2) l
      | VStruct ty _ l =>
          (λ fields, JObject (List.concat fields)) <$>
            opt_all (λ fv : string * bool * value,
              match json_field ty fv.1.1 with
              | Some (name, omitempty) =>
                  if fv.1.2 && negb (omitempty && is_empty_value fv.2)
                  then (λ j, [(name, j)]) <$> marshal fv.2 else Some []
              | None => Some []
              end) l
      | VPtr _ _ None => Some JNull
      | VPtr _ _ (Some x) => marshal x
      | VFunc _ _ => None
      end
  end.

(** [json.Unmarshal] into a variable of type [any]. *)
Fixpoint unmarshal_any (j : json) : value :=
  match j with
  | JNull => VNil
  | JBool b => vbool b
  | JInt z => vfloat (float_of_Z z)
  | JFloat KFloat64 f => vfloat f
  | JFloat KFloat32 f => vfloat (reparse_float32 f)
  | JString s => vstr s
  | JArray l => vanys (map unmarshal_any l)
  | JObject l => vmap (map_of (map (λ kv, (kv.1, unmarshal_any kv.2)) l))
  end.

(** [json.Unmarshal] into a variable of type [map[string]any] that is nil. *)
Definition unmarshal_map (j : json) : option (option (list (string * value))) :=
  match j with
  | JNull => Some None
  | JObject l => Some (Some (map_of (map (λ kv, (kv.1, unmarshal_any kv.2)) l)))
  | _ => None
  end.

(** ** The text of a tree *)

Definition hex4 (n : N) : string :=
  string_of_list_ascii (map (λ d, hex_digit true (N.modulo (N.div n d) 16)) [4096; 256; 16; 1]%N).

(** A byte of a string; HTML's special characters are escaped. *)
Definition json_byte (c : ascii) : string :=
  let n := N_of_ascii c in
  (if n =? 34 then "\" +:+ String c "" else if n =? 92 then "\\" else if n =? 8 then "\b"
   else if n =? 9 then "\t" else if n =? 10 then "\n" else if n =? 12 then "\f"
   else if n =? 13 then "\r"
   else if (n <? 32) || (n =? 60) || (n =? 62) || (n =? 38) then "\u" +:+ hex4 n
   else String c "")%N.

(** The bytes of a string; the line separators U+2028 and U+2029 are escaped. *)
Fixpoint json_bytes (s : string) : string :=
  match s with
  | String c0 ((String c1 (String c2 s')) as t) =>
      if ((N_of_ascii c0 =? 226) && (N_of_ascii c1 =? 128)
          && ((N_of_ascii c2 =? 168) || (N_of_ascii c2 =? 169)))%N
      then "\u202" +:+ (if (N_of_ascii c2 =? 168)%N then "8" else "9") +:+ json_bytes s'
      else json_byte c0 +:+ json_bytes t
  | String c s' => json_byte c +:+ json_bytes s'
  | EmptyString => ""
  end.

Definition json_string (s : string) : string :=
  let quote := String (ascii_of_N 34) "" in quote +:+ json_bytes s +:+ quote.

Fixpoint json_text (j : json) : string :=
  match j with
  | JNull => "null"
  | JBool b => if b then "true" else "false"
  | JInt z => pretty z
  | JFloat k f => json_float k f
  | JString s => json_string s
  | JArray l => "[" +:+ join "," (map json_text l) +:+ "]"
  | JObject l => "{" +:+ join "," (map (λ kv, json_string kv.1 +:+ ":" +:+ json_text kv.2) l) +:+ "}"
  end.

(** ** Values as they are read from JSON *)

Fixpoint json_value (v : value) : bool :=
  match v with
  | VNil => true
  | VBool ty _ => String.eqb ty "bool"
  | VFloat ty k f => String.eqb ty "float64" && bool_decide (k = KFloat64) && float_finite f
  | VString ty _ => String.eqb ty "string"
  | VSlice ty (Some l) => String.eqb ty "[]interface {}" && forallb json_value l
  | VMap ty kt (Some l) =>
      String.eqb ty "map[string]interface {}" && String.eqb kt "string"
      && sorted_keys l && forallb (λ kv, json_value kv.2) l
  | _ => false
  end.

(** The types of JSON values have no methods of their own. *)
Definition no_json_methods : Prop := ∀ v, json_value v = true → method_MarshalJSON v = None.

Lemma opt_all_map {A B} (f : A → option B) (g : B → A) (p : A → bool) l :
  Forall (λ x, p x = true → ∃ y, f x = Some y ∧ g y = x) l → forallb p l = true →
  ∃ ys, opt_all f l = Some ys ∧ map g ys = l.
Proof.
  induction 1 as [|x l Hx _ IH]; simpl; intros Hp; [by eexists|]. to_prop.
  destruct Hx as (y & -> & Hy); [done|]. destruct IH as (ys & -> & Hys); [done|].
  eexists. split; [done|]. simpl. congruence.
Qed.

Lemma map_copy_map {A B} (f : A → B) (dst src : list (string * A)) :
  map_copy (map (λ kv, (kv.1, f kv.2)) dst) (map (λ kv, (kv.1, f kv.2)) src)
  = map (λ kv, (kv.1, f kv.2)) (map_copy dst src).
Proof.
  unfold map_copy. revert dst. induction src as [|[k v] src IH]; intros dst; simpl; [done|].
  rewrite <- IH. f_equal. clear. induction dst as [|[k' v'] dst IH]; simpl; [done|].
  destruct (String.compare k k'); simpl; congruence.
Qed.

Lemma map_of_map {A B} (f : A → B) l :
  map_of (map (λ kv, (kv.1, f kv.2)) l) = map (λ kv, (kv.1, f kv.2)) (map_of l).
Proof. exact (map_copy_map f [] l). Qed.

Lemma map_of_involutive {A} (l : list (string * A)) : map_of (map_of l) = map_of l.
Proof. apply map_of_id, map_of_well_keyed. Qed.

(** Marshalling a value read from JSON and reading it again changes nothing. *)
Lemma json_roundtrip v :
  no_json_methods → json_value v = true → ∃ j, marshal v = Some j ∧ unmarshal_any j = v.
Proof.
  intros Hno. induction v using value_nested_ind; intros Hv; pose proof (Hno _ Hv) as Hm;
    simpl in Hv; try done; to_prop;
    repeat match goal with
    | E : String.eqb _ _ = true |- _ => apply String.eqb_eq in E; subst
    | E : bool_decide _ = true |- _ => apply bool_decide_eq_true_1 in E; subst
    | E : sorted_keys _ = true |- _ => apply sorted_keys_well_keyed in E
    end; simpl; rewrite Hm.
  - by eexists.
  - by eexists.
  - match goal with E : float_finite _ = true |- _ => rewrite E end. by eexists.
  - by eexists.
  - destruct (opt_all_map marshal unmarshal_any json_value l) as (js & -> & Hjs); [done..|].
    eexists. split; [done|]. simpl. by rewrite Hjs.
  - destruct (opt_all_map (λ kv, pair kv.1 <$> marshal kv.2) (λ kv, (kv.1, unmarshal_any kv.2))
      (λ kv : string * value, json_value kv.2) l) as (js & -> & Hjs); [|done|].
    { eapply Forall_impl; [done|]. intros [k v]. simpl. intros Hx Hp.
      destruct (Hx Hp) as (j & -> & Hj). exists (k, j). simpl. by rewrite Hj. }
    eexists. split; [done|]. simpl.
    by rewrite map_of_map, map_of_involutive, <- map_of_map, Hjs, map_of_id.
Qed.
End JSON.
