(* ===== verification/RecordKey.v ===== *)
(** * Record keys

    Keys come from the module [github.com/dal-go/record], which is not part of
    this repository: [RecordKeys] lists the methods the program calls and the
    one law it relies on, and [chain_keys] is an instance for examples. *)

From Stdlib Require Import String.
From stdpp Require Import base sets list strings.
From S2P Require Import Prelude GoValues.

Local Open Scope string_scope.

Class RecordKeys := {
  key : Type;
  Collection : key → string;
  key_ID : key → value;
  Parent : key → option key;
  Level : key → nat;
  EscapeID : string → string;
  key_String : key → string;
  (** equality of two pointers to keys *)
  key_eqb : key → key → bool;
}.

(** A key has one ancestor more than its parent. *)
Class RecordKeysLaws `(RecordKeys) : Prop :=
  Level_Parent k p : Parent k = Some p → Level k = S (Level p).

(** A key as the chain of its (collection, id) pairs. *)
Set Warnings "-register-all".

Inductive chain_key := ChainKey (collection : string) (id : value) (parent : option chain_key).

Local Open Scope nat_scope.

Fixpoint chain_level (k : chain_key) : nat :=
  match k with
  | ChainKey _ _ None => 0
  | ChainKey _ _ (Some p) => S (chain_level p)
  end.

(** The formatting parameters of examples: no value of an example is a float or
    has a [String] method. *)
Definition plain_fmt : GoFmt := {| fmt_float _ _ := "0"; method_String _ := None |}.

(** Collections and identifiers from the root, with slashes between them; the
    examples print keys with texts as identifiers only. *)
Fixpoint chain_path (k : chain_key) : string :=
  match k with
  | ChainKey c i p =>
      let part := String.append c (String.append "/" match i with VString _ s => s | _ => "?" end) in
      match p with None => part | Some p => String.append (chain_path p) (String.append "/" part) end
  end.

Definition chain_keys : RecordKeys := {|
  key := chain_key;
  Collection k := match k with ChainKey c _ _ => c end;
  key_ID k := match k with ChainKey _ i _ => i end;
  Parent k := match k with ChainKey _ _ p => p end;
  Level := chain_level;
  EscapeID s := s;
  key_String := chain_path;
  key_eqb k k' := false;
|}.

Lemma chain_keys_laws : RecordKeysLaws chain_keys.
Proof. intros [c i [q|]] p; simpl; intros E; [|done]. injection E as ->. done. Qed.

