(* ===== verification/DalQuery.v ===== *)
(** * The query model and its builder (src/dal/q_*.go, query_struct.go) *)

From Stdlib Require Import String Ascii.
From stdpp Require Import base sets list strings.
From S2P Require Import Prelude GoValues GoStrings RecordKey.

Local Open Scope string_scope.
Local Open Scope nat_scope.
Local Open Scope list_scope.
Set Warnings "-register-all".

(** ** Operators *)

Abbreviation Operator := string (only parsing).

Definition Equal : Operator := "==".
Definition In : Operator := "In".
Definition GreaterThen : Operator := ">".
Definition GreaterOrEqual : Operator := ">=".
Definition LessThen : Operator := "<".
Definition LessOrEqual : Operator := "<=".
Definition And : Operator := "AND".
Definition Or : Operator := "OR".

(** ** Expressions and conditions

    [Expression] and [Condition] are the same Go interface: any type with a
    [String] method.  [OtherExpr] stands for the implementations outside this
    package and pointers, by their text; [NilExpr] is the nil interface. *)

Inductive Expression :=
| NilExpr
| FieldRef (source name : string) (isID : bool)
| Constant (v : value)
| Array (v : value)
| Function (Name : string) (Args : list Expression)
| Star
| Comparison (op : Operator) (Left Right : Expression)
| GroupCondition (operator : Operator) (conditions : list Expression)
| OtherExpr (text : string).

Abbreviation Condition := Expression (only parsing).

(** Induction with hypotheses for the expressions nested in lists. *)
Section ExpressionInd.
Context (P : Expression → Prop).
Context (Hnil : P NilExpr) (Hfield : ∀ s n i, P (FieldRef s n i))
  (Hconst : ∀ v, P (Constant v)) (Harray : ∀ v, P (Array v))
  (Hfun : ∀ n l, Forall P l → P (Function n l)) (Hstar : P Star)
  (Hcmp : ∀ o l r, P l → P r → P (Comparison o l r))
  (Hgroup : ∀ o l, Forall P l → P (GroupCondition o l)) (Hother : ∀ t, P (OtherExpr t)).

Fixpoint Expression_nested_ind (e : Expression) : P e :=
  let list_ind := fix go (l : list Expression) : Forall P l :=
    match l with
    | [] => List.Forall_nil _
    | x :: l' => @List.Forall_cons _ P x l' (Expression_nested_ind x) (go l')
    end in
  match e with
  | NilExpr => Hnil
  | FieldRef s n i => Hfield s n i
  | Constant v => Hconst v
  | Array v => Harray v
  | Function n l => Hfun n l (list_ind l)
  | Star => Hstar
  | Comparison o l r => Hcmp o l r (Expression_nested_ind l) (Expression_nested_ind r)
  | GroupCondition o l => Hgroup o l (list_ind l)
  | OtherExpr t => Hother t
  end.
End ExpressionInd.

Definition NewFieldRef (source name : string) : Expression := FieldRef source name false.

Definition Field (name : string) : Expression := NewFieldRef "" name.

Definition NewComparison (left : Expression) (o : Operator) (right : Expression) : Condition :=
  Comparison o left right.

Definition NewGroupCondition (operator : Operator) (conditions : list Condition) : Condition :=
  GroupCondition operator conditions.

Definition ID (name : string) (v : value) : Expression :=
  Comparison Equal (FieldRef "" name true) (Constant v).

Record Column := mkColumn { Alias : string; col_Expression : Expression }.

Record OrderExpression := mkOrder { ord_Expression : Expression; Descending : bool }.

Definition Ascending (expression : Expression) : OrderExpression := mkOrder expression false.
Definition Descending_ (expression : Expression) : OrderExpression := mkOrder expression true.

Definition AscendingField (name : string) : OrderExpression := mkOrder (NewFieldRef "" name) false.
Definition DescendingField (name : string) : OrderExpression := mkOrder (NewFieldRef "" name) true.

(** ** Aggregate functions *)

Definition SUM : string := "SUM".
Definition COUNT : string := "COUNT".
Definition MIN : string := "MIN".
Definition MAX : string := "MAX".
Definition AVERAGE : string := "AVG".

Definition Count : Column := mkColumn "" (Function COUNT [Star]).

Definition singleArgFunctionAs (name alias : string) (expression : Expression) : Column :=
  mkColumn alias (Function name [expression]).

Definition SumAs (expression : Expression) (alias : string) : Column := singleArgFunctionAs SUM alias expression.
Definition CountAs (expression : Expression) (alias : string) : Column := singleArgFunctionAs COUNT alias expression.
Definition MinAs (expression : Expression) (alias : string) : Column := singleArgFunctionAs MIN alias expression.
Definition MaxAs (expression : Expression) (alias : string) : Column := singleArgFunctionAs MAX alias expression.
Definition AverageAs (expression : Expression) (alias : string) : Column := singleArgFunctionAs AVERAGE alias expression.

(** ** Constants of a dynamic value *)

Definition type_name (v : value) : string :=
  match v with
  | VNil => ""
  | VBool ty _ | VInt ty _ _ | VUint ty _ _ | VFloat ty _ _ | VString ty _
  | VSlice ty _ | VArray ty _ _ | VMap ty _ _ | VStruct ty _ _ | VPtr ty _ _ | VFunc ty _ => ty
  end.

(** The cases of the type switches of [NewConstant] and [WhereField]. *)
Definition constant_types : list string :=
  [""; "bool"; "string"; "float32"; "float64"; "int"; "int8"; "int16"; "int32"; "int64";
   "uint"; "uint8"; "uint16"; "uint32"; "uint64"; "time.Time"].

Definition where_slice_types : list string :=
  ["[]string"; "[]int"; "[]int8"; "[]int16"; "[]int32"; "[]int64"; "[]uint"; "[]uint8";
   "[]uint16"; "[]uint32"; "[]uint64"; "[]float32"; "[]float64"].

(** [NewArray] accepts no []int8, []int16 and []int32. *)
Definition array_types : list string :=
  ["[]string"; "[]int"; "[]int64"; "[]uint"; "[]uint8"; "[]uint16"; "[]uint32"; "[]uint64";
   "[]float32"; "[]float64"].

(** An argument of type [any] that may itself be an expression. *)
Inductive any_arg := ArgValue (v : value) | ArgExpr (e : Expression).

Definition NewConstant (v : any_arg) : res unit Expression :=
  match v with
  | ArgValue v =>
      if bool_decide (type_name v ∈ constant_types) then Ret (Constant v)
      else Panic "unsupported type"
  | ArgExpr (Constant v) => Ret (Constant v)
  | ArgExpr _ => Panic "unsupported type"
  end.

Definition NewArray (v : value) : res unit Expression :=
  if bool_decide (type_name v ∈ array_types) then Ret (Array v) else Panic "unsupported type".

Definition WhereField (name : string) (operator : Operator) (v : any_arg) : res unit Condition :=
  do val <-
    match v with
    | ArgValue v =>
        if bool_decide (type_name v ∈ constant_types) then Ret (Constant v)
        else if bool_decide (type_name v ∈ where_slice_types) then
          if String.eqb operator In then Ret (Array v)
          else Panic "arrays must use with `In` operator"
        else Panic "unsupported type"
    | ArgExpr (Array v) =>
        if String.eqb operator In then Ret (Array v)
        else Panic "arrays must use with `In` operator"
    | ArgExpr (Constant v) => Ret (Constant v)
    | ArgExpr (FieldRef s n i) => Ret (FieldRef s n i)
    | ArgExpr _ => Panic "unsupported type"
    end;
  Ret (Comparison operator (FieldRef "" name false) val).

(** [FieldRef.EqualTo]: the condition names the field only, not its source. *)
Definition FieldRef_EqualTo (source name : string) (isID : bool) (v : any_arg) : res unit Condition := WhereField name Equal v.

Definition word_byte (c : ascii) : bool :=
  let n := N_of_ascii c in
  ((97 <=? n) && (n <=? 122) || (65 <=? n) && (n <=? 90) || (48 <=? n) && (n <=? 57)
   || (n =? 95))%N.

(** No match of [^\w+$]. *)
Definition RequiresEscaping (s : string) : bool :=
  String.eqb s "" || negb (forallb word_byte (list_ascii_of_string s)).

Definition FieldRef_String (source name : string) : string :=
  let name' := if RequiresEscaping name then "[" +:+ name +:+ "]" else name in
  if String.eqb source "" then name' else source +:+ "." +:+ name'.

Definition FieldRef_Equal (f b : string * string * bool) : bool :=
  let '(source, name, isID) := f in
  let '(source', name', isID') := b in
  String.eqb source source' && Bool.eqb isID isID' && String.eqb name name'.

Definition IsGroupOperator (o : Operator) : bool := String.eqb o In.

(** ** Sources *)

Section Queries.
Context `{RecordKeys}.

(** [ptr] is true for a pointer to the struct; [OtherSource] stands for the
    types that embed a source, by what [fmt.Sprint] makes of them. *)
Inductive RecordsetSource :=
| CollectionRef (ptr : bool) (name alias : string) (parent : option key)
| CollectionGroupRef (ptr : bool) (name alias : string)
| OtherSource (name alias text : string).

Definition source_Name (s : RecordsetSource) : string :=
  match s with
  | CollectionRef _ n _ _ | CollectionGroupRef _ n _ | OtherSource n _ _ => n
  end.

Definition source_Alias (s : RecordsetSource) : string :=
  match s with
  | CollectionRef _ _ a _ | CollectionGroupRef _ _ a | OtherSource _ a _ => a
  end.

Definition newCollectionRef (name alias : string) (parent : option key) : res unit RecordsetSource :=
  if String.eqb name "" then Panic "name is required parameter for NewCollectionRef()"
  else Ret (CollectionRef false name (if String.eqb alias name then "" else alias) parent).

Definition NewCollectionRef (name alias : string) (parent : option key) : res unit RecordsetSource :=
  newCollectionRef name alias parent.

Definition NewRootCollectionRef (name alias : string) : res unit RecordsetSource :=
  newCollectionRef name alias None.

Definition NewCollectionGroupRef (name alias : string) : res unit RecordsetSource :=
  if String.eqb name "" then Panic "name of collection group reference cannot be empty"
  else Ret (CollectionGroupRef false name alias).

(** [CollectionRef.Path] *)
Definition CollectionRef_Path (name : string) (parent : option key) : string :=
  match parent with
  | None => name
  | Some p => key_String p +:+ "/" +:+ name
  end.

Inductive JoinType := JoinInner | JoinLeft | JoinRight | JoinFull | JoinCross | JoinOther (s : string).

Record JoinedSource := mkJoin {
  join_source : RecordsetSource;
  join_joinType : JoinType;
  join_on : list Condition;
}.

Definition NewJoinedSource (src : RecordsetSource) (joinType : JoinType) (on : list Condition) : JoinedSource :=
  mkJoin src joinType on.

Record FromSource := mkFrom {
  from_Base : RecordsetSource;
  from_Joins : list JoinedSource;
}.

Definition From_ (source : RecordsetSource) : FromSource := mkFrom source [].

Definition Join (f : FromSource) (joint : JoinedSource) : FromSource :=
  mkFrom (from_Base f) (from_Joins f ++ [joint]).

(** ** Structured queries *)

(** A nil interface field is [None]; [intoRecord] and the recordset options are
    opaque to the model. *)
Record structuredQuery := mkQuery {
  q_from : option FromSource;
  q_where : option Condition;
  q_groupBy : list Expression;
  q_having : option Condition;
  q_orderBy : list OrderExpression;
  q_columns : list Column;
  q_intoRecord : option value;
  q_recordsetOptions : list value;
  q_offset : Z;
  q_limit : Z;
  q_idKind : Z;
  q_startCursor : string;
}.

Definition empty_query (from : option FromSource) : structuredQuery :=
  mkQuery from None [] None [] [] None [] 0 0 0 "".

(** [groupWithConditions]; a nil [where] stays a nil condition of the group. *)
Definition groupWithConditions (q : structuredQuery) (operator : Operator)
    (conditions : list Condition) : structuredQuery :=
  mkQuery (q_from q)
    (Some (GroupCondition operator (default NilExpr (q_where q) :: conditions)))
    [] None [] [] None [] 0 0 0 "".

Definition query_And (q : structuredQuery) (conditions : list Condition) : structuredQuery :=
  groupWithConditions q And conditions.
Definition query_Or (q : structuredQuery) (conditions : list Condition) : structuredQuery :=
  groupWithConditions q Or conditions.

(** The two query types of the package, and those of other packages by their
    text. *)
Inductive Query :=
| StructuredQuery (q : structuredQuery)
| TextQuery (text : string) (args : list (string * value)) (offset limit : Z)
| OtherQuery (text : string).

(** [NewTextQuery]; the key function is opaque to the model. *)
Definition NewTextQuery (text : string) (args : list (string * value)) : Query := TextQuery text args 0 0.

(** ** The builder

    A builder as a value: each method is a function of the receiver's state.
    DalBuilder.v has the builders as objects, with the arrays that clones
    share, and says when they are values. *)

Record QueryBuilder := mkBuilder {
  b_q : structuredQuery;
  b_conditions : list Condition;
  b_havingConditions : list Condition;
}.

Definition NewQueryBuilder (from : FromSource) : QueryBuilder :=
  mkBuilder (empty_query (Some from)) [] [].

Definition NewQuery (f : FromSource) : QueryBuilder := NewQueryBuilder f.

Definition set_q (s : QueryBuilder) (q : structuredQuery) : QueryBuilder :=
  mkBuilder q (b_conditions s) (b_havingConditions s).

Definition StartFrom (s : QueryBuilder) (cursor : string) : QueryBuilder :=
  let q := b_q s in
  set_q s (mkQuery (q_from q) (q_where q) (q_groupBy q) (q_having q) (q_orderBy q) (q_columns q)
    (q_intoRecord q) (q_recordsetOptions q) (q_offset q) (q_limit q) (q_idKind q) cursor).

Definition Offset (s : QueryBuilder) (i : Z) : QueryBuilder :=
  let q := b_q s in
  set_q s (mkQuery (q_from q) (q_where q) (q_groupBy q) (q_having q) (q_orderBy q) (q_columns q)
    (q_intoRecord q) (q_recordsetOptions q) i (q_limit q) (q_idKind q) (q_startCursor q)).

Definition Limit (s : QueryBuilder) (i : Z) : QueryBuilder :=
  let q := b_q s in
  set_q s (mkQuery (q_from q) (q_where q) (q_groupBy q) (q_having q) (q_orderBy q) (q_columns q)
    (q_intoRecord q) (q_recordsetOptions q) (q_offset q) i (q_idKind q) (q_startCursor q)).

Definition OrderBy (s : QueryBuilder) (expressions : list OrderExpression) : QueryBuilder :=
  let q := b_q s in
  set_q s (mkQuery (q_from q) (q_where q) (q_groupBy q) (q_having q)
    (q_orderBy q ++ expressions) (q_columns q)
    (q_intoRecord q) (q_recordsetOptions q) (q_offset q) (q_limit q) (q_idKind q) (q_startCursor q)).

Definition GroupBy (s : QueryBuilder) (expressions : list Expression) : QueryBuilder :=
  let q := b_q s in
  set_q s (mkQuery (q_from q) (q_where q) (q_groupBy q ++ expressions) (q_having q)
    (q_orderBy q) (q_columns q)
    (q_intoRecord q) (q_recordsetOptions q) (q_offset q) (q_limit q) (q_idKind q) (q_startCursor q)).

Definition Where (s : QueryBuilder) (conditions : list Condition) : QueryBuilder :=
  mkBuilder (b_q s) (b_conditions s ++ conditions) (b_havingConditions s).

Definition Having (s : QueryBuilder) (conditions : list Condition) : QueryBuilder :=
  mkBuilder (b_q s) (b_conditions s) (b_havingConditions s ++ conditions).

Definition builder_WhereField (s : QueryBuilder) (name : string) (operator : Operator)
    (v : any_arg) : res unit QueryBuilder :=
  do c <- WhereField name operator v; Ret (Where s [c]).

Definition WhereInArrayField (s : QueryBuilder) (name : string) (v : value) : QueryBuilder :=
  Where s [Comparison In (Constant v) (FieldRef "" name false)].

Definition WhereArrayContains (s : QueryBuilder) (name : string) (v : value) : QueryBuilder :=
  WhereInArrayField s name v.

Definition WhereArrayContainsAny (s : QueryBuilder) (name : string) (values : any_arg)
  : res unit QueryBuilder :=
  do arr <-
    match values with
    | ArgExpr (Array v) => Ret (Array v)
    | ArgValue v => NewArray v
    | ArgExpr _ => Panic "unsupported type"
    end;
  Ret (Where s [Comparison In (FieldRef "" name false) arr]).

(** The condition that a list of conditions amounts to; no condition leaves the
    field as it is. *)
Definition combine_conditions (conditions : list Condition) (old : option Condition)
  : option Condition :=
  match conditions with
  | [] => old
  | [c] => Some c
  | _ => Some (GroupCondition And conditions)
  end.

(** The builder keeps the query it returns. *)
Definition newQuery (s : QueryBuilder) : QueryBuilder * structuredQuery :=
  let q := b_q s in
  let q' :=
    mkQuery (q_from q) (combine_conditions (b_conditions s) (q_where q)) (q_groupBy q)
      (combine_conditions (b_havingConditions s) (q_having q)) (q_orderBy q) (q_columns q)
      (q_intoRecord q) (q_recordsetOptions q) (q_offset q) (q_limit q) (q_idKind q)
      (q_startCursor q) in
  (set_q s q', q').

(** Each [Select] method completes a copy of the query. *)
Definition SelectIntoRecord (s : QueryBuilder) (into : value) : QueryBuilder * structuredQuery :=
  let '(s', q) := newQuery s in
  (s', mkQuery (q_from q) (q_where q) (q_groupBy q) (q_having q) (q_orderBy q) (q_columns q)
    (Some into) (q_recordsetOptions q) (q_offset q) (q_limit q) (q_idKind q) (q_startCursor q)).

Definition SelectIntoRecordset (s : QueryBuilder) (options : list value)
  : QueryBuilder * structuredQuery :=
  let '(s', q) := newQuery s in
  (s', mkQuery (q_from q) (q_where q) (q_groupBy q) (q_having q) (q_orderBy q) (q_columns q)
    (q_intoRecord q) options (q_offset q) (q_limit q) (q_idKind q) (q_startCursor q)).

Definition SelectKeysOnly (s : QueryBuilder) (idKind : Z) : QueryBuilder * structuredQuery :=
  let '(s', q) := newQuery s in
  (s', mkQuery (q_from q) (q_where q) (q_groupBy q) (q_having q) (q_orderBy q) (q_columns q)
    (q_intoRecord q) (q_recordsetOptions q) (q_offset q) (q_limit q) idKind (q_startCursor q)).

Definition SelectColumns (s : QueryBuilder) (columns : list Column)
  : QueryBuilder * structuredQuery :=
  let '(s', q) := newQuery s in
  (s', mkQuery (q_from q) (q_where q) (q_groupBy q) (q_having q) (q_orderBy q) columns
    (q_intoRecord q) (q_recordsetOptions q) (q_offset q) (q_limit q) (q_idKind q)
    (q_startCursor q)).
End Queries.
