(* ===== verification/DalString.v ===== *)
(** * The text of expressions and queries (the String methods of src/dal/q_*.go)

    A method that dereferences a nil interface, or meets an array that is not
    a slice, panics; [fmt] recovers such a panic and prints it. *)

From Stdlib Require Import String Ascii.
From stdpp Require Import base sets list strings pretty.
From S2P Require Import Prelude GoValues GoMaps GoStrings GoJSON RecordKey DalQuery.

Local Open Scope string_scope.
Local Open Scope nat_scope.
Local Open Scope list_scope.

Definition nil_dereference : string :=
  "runtime error: invalid memory address or nil pointer dereference".

Section Strings.
Context `{GoFmt, GoJSON}.

Definition Constant_String (v : value) : string :=
  match v with
  | VInt ty _ z => if String.eqb ty "int" then pretty z else json_text (JInt z)
  | VString ty s => if String.eqb ty "string" then "'" +:+ s +:+ "'" else json_text (JString s)
  | _ => match marshal v with Some j => json_text j | None => "" end
  end.

Definition unsupported_type (v : value) : string := "unsupported type " +:+ type_name v.

Definition elem_string (v : value) : string := match v with VString _ s => s | _ => "" end.

Definition Array_String (v : value) : res unit string :=
  match v with
  | VNil => Ret "()"
  | VSlice ty l =>
      let l := default [] l in
      if String.eqb ty "[]string" then
        match l with
        | [] => Ret "()"
        | _ => Ret ("('" +:+ join "','" (elem_string <$> l) +:+ "')")
        end
      else Ret ("(" +:+ join "," (sprint <$> l) +:+ ")")
  | _ => Panic (unsupported_type v)
  end.

(** [fmt]'s verb [%v] of an operand with a [String] method. *)
Definition print_operand (e : Expression) (s : res unit string) : string :=
  match e, s with
  | NilExpr, _ => "<nil>"
  | _, Ret s => s
  | _, Panic msg => "%!v(PANIC=String method: " +:+ msg +:+ ")"
  | _, Fail _ => ""
  end.

Definition Comparison_operator (o : Operator) : string :=
  if String.eqb o Equal then "=" else if String.eqb o "" then "{NO_OPERATOR}" else o.

Definition function_String (name : string) (args : list string) : string := name +:+ "(" +:+ join ", " args +:+ ")".

Definition GroupCondition_String (operator : Operator) (conditions : list string) : string :=
  "(" +:+ join (" " +:+ operator +:+ " ") conditions +:+ ")".

Fixpoint Expression_String (e : Expression) : res unit string :=
  match e with
  | NilExpr => Panic nil_dereference
  | FieldRef source name _ => Ret (FieldRef_String source name)
  | Constant v => Ret (Constant_String v)
  | Array v => Array_String v
  | Function name args =>
      do texts <- traverse_from (λ _ a, Expression_String a) 0 args;
      Ret (function_String name texts)
  | Star => Ret "*"
  | Comparison o l r =>
      Ret (print_operand l (Expression_String l) +:+ " " +:+ Comparison_operator o +:+ " "
           +:+ print_operand r (Expression_String r))
  | GroupCondition o cs =>
      do texts <- traverse_from (λ _ c, Expression_String c) 0 cs;
      Ret (GroupCondition_String o texts)
  | OtherExpr t => Ret t
  end.

Definition Column_String (c : Column) : res unit string :=
  do expr <- match col_Expression c with NilExpr => Ret "NULL" | e => Expression_String e end;
  Ret (if String.eqb (Alias c) "" then expr else expr +:+ " AS " +:+ Alias c).

Definition orderExpression_String (o : OrderExpression) : res unit string :=
  do s <- Expression_String (ord_Expression o);
  Ret (if Descending o then s +:+ " DESC" else s).

Section Queries.
Context `{RecordKeys}.

Definition new_line : string := String (ascii_of_N 10) "".
Definition tab : string := String (ascii_of_N 9) "".

Definition CollectionRef_String (name alias : string) (parent : option key) : string :=
  let path := if negb (String.eqb name "") && bool_decide (parent = None) then name else CollectionRef_Path name parent in
  if String.eqb alias "" then path else path +:+ " AS " +:+ alias.

(** [%T] is the name of the type, a pointer's too. *)
Definition CollectionGroupRef_String (name alias : string) : string :=
  let q := String (ascii_of_N 34) "" in
  "dal.CollectionGroupRef{name=" +:+ q +:+ name +:+ q
    +:+ (if String.eqb alias "" then "" else ",alias=" +:+ q +:+ alias +:+ q) +:+ "}".

Definition is1liner (q : structuredQuery) : bool :=
  (length (q_columns q) <=? 1)
  && match q_where q with None | Some (Comparison _ _ _) => true | _ => false end.

Definition columns_text (columns : list Column) : res unit string :=
  match columns with
  | [] => Ret " *"
  | [c] => do s <- Column_String c; Ret (" " +:+ s)
  | _ =>
      do texts <- traverse (λ _ c, do s <- Column_String c; Ret (new_line +:+ tab +:+ s)) columns;
      Ret (join "," texts)
  end.

Definition from_text (f : FromSource) : string :=
  match from_Base f with
  | CollectionRef _ name _ parent => CollectionRef_Path name parent
  | CollectionGroupRef _ name _ => name
  | OtherSource _ _ _ => ""
  end.

(** A clause that lists expressions, absent when there is none. *)
Definition list_clause {X} (keyword : string) (text : X → res unit string) (l : list X)
  : res unit string :=
  match l with
  | [] => Ret ""
  | _ => do texts <- traverse (λ _ x, text x) l; Ret (new_line +:+ keyword +:+ join ", " texts)
  end.

Definition optional_clause (prefix : string) (c : option Condition) : res unit string :=
  match c with
  | None => Ret ""
  | Some c => do s <- Expression_String c; Ret (prefix +:+ s)
  end.

Definition query_String (q : structuredQuery) : res unit string :=
  let sep := if is1liner q then " " else new_line in
  do columns <- columns_text (q_columns q);
  do where_ <- optional_clause (sep +:+ "WHERE ") (q_where q);
  do group_by <- list_clause "GROUP BY " Expression_String (q_groupBy q);
  do having <- optional_clause (new_line +:+ "HAVING ") (q_having q);
  do order_by <- list_clause "ORDER BY " orderExpression_String (q_orderBy q);
  Ret ("SELECT" +:+ (if (0 <? q_limit q)%Z then " TOP " +:+ pretty (q_limit q) else "")
       +:+ columns
       +:+ match q_from q with Some f => sep +:+ "FROM [" +:+ from_text f +:+ "]" | None => "" end
       +:+ where_ +:+ group_by +:+ having +:+ order_by
       +:+ (if (0 <? q_offset q)%Z then new_line +:+ "OFFSET " +:+ pretty (q_offset q) else "")).

(** [structuredQuery.Text] *)
Definition query_Text (q : structuredQuery) : res unit string := query_String q.

(** ** Which queries have a text *)

Definition printable_array (v : value) : bool :=
  match v with VNil | VSlice _ _ => true | _ => false end.

(** The operands of a comparison are printed by [fmt]. *)
Fixpoint printable (e : Expression) : bool :=
  match e with
  | NilExpr => false
  | Array v => printable_array v
  | Function _ args => forallb printable args
  | GroupCondition _ cs => forallb printable cs
  | _ => true
  end.

Definition printable_column (c : Column) : bool :=
  match col_Expression c with NilExpr => true | e => printable e end.

Definition printable_query (q : structuredQuery) : bool :=
  forallb printable_column (q_columns q)
  && (match q_where q with Some c => printable c | None => true end
  && (forallb printable (q_groupBy q)
  && (match q_having q with Some c => printable c | None => true end
  && forallb (λ o, printable (ord_Expression o)) (q_orderBy q)))).

Definition returns {A} (m : res unit A) : Prop := ∃ a, m = Ret a.

Lemma returns_Ret {A} (a : A) : returns (Ret a).
Proof. by exists a. Qed.

Lemma returns_bind {A B} (m : res unit A) (k : A → res unit B) :
  (∀ a, returns (k a)) → returns (rbind m k) ↔ returns m.
Proof.
  intros Hk. split.
  - intros (b & Hb). destruct m as [a| |]; try done. apply returns_Ret.
  - intros (a & ->). apply Hk.
Qed.

Lemma returns_then {A B} (m : res unit A) (k : A → res unit B) (P : Prop) :
  (∀ a, returns (k a) ↔ P) → returns (rbind m k) ↔ returns m ∧ P.
Proof.
  intros Hk. split.
  - intros (b & Hb). destruct m as [a| |]; try done. split; [apply returns_Ret|].
    apply (Hk a). by exists b.
  - intros [(a & ->) HP]. by apply Hk.
Qed.

Lemma returns_traverse {X} (f : X → res unit string) (p : X → bool) i l :
  Forall (λ x, returns (f x) ↔ p x = true) l →
  returns (traverse_from (λ _ x, f x) i l) ↔ forallb p l = true.
Proof.
  intros HF. revert i. induction HF as [|x l Hx _ IH]; intros i; simpl.
  { split; [done|]. intros _. apply returns_Ret. }
  rewrite (returns_then _ _ (forallb p l = true)).
  - by rewrite Hx, andb_true_iff.
  - intros y. rewrite returns_bind; [apply IH|]. intros ys. apply returns_Ret.
Qed.

Lemma Expression_String_returns e : returns (Expression_String e) ↔ printable e = true.
Proof.
  induction e using Expression_nested_ind; simpl;
    try (split; [done|]; intros _; apply returns_Ret).
  - split; [|done]. by intros (s & ?).
  - destruct v; simpl; try (split; [by intros (text & ?)|done]);
      (split; [done|]; intros _); [apply returns_Ret|]. repeat case_match; apply returns_Ret.
  - rewrite returns_bind; [by apply returns_traverse|]. intros a. apply returns_Ret.
  - rewrite returns_bind; [by apply returns_traverse|]. intros a. apply returns_Ret.
Qed.

Lemma Column_String_returns c : returns (Column_String c) ↔ printable_column c = true.
Proof.
  unfold Column_String, printable_column. rewrite returns_bind by (intros a; apply returns_Ret).
  destruct (col_Expression c) eqn:E;
    [split; [done|]; intros _; apply returns_Ret | rewrite Expression_String_returns; done..].
Qed.

Lemma optional_clause_returns prefix c :
  returns (optional_clause prefix c) ↔ match c with Some c => printable c | None => true end = true.
Proof.
  destruct c as [c|]; simpl; [|split; [done|]; intros _; apply returns_Ret].
  rewrite returns_bind by (intros a; apply returns_Ret). apply Expression_String_returns.
Qed.

Lemma list_clause_returns {X} keyword (f : X → res unit string) (p : X → bool) l :
  (∀ x, returns (f x) ↔ p x = true) → returns (list_clause keyword f l) ↔ forallb p l = true.
Proof.
  intros Hf. destruct l as [|x l]; [split; [done|]; intros _; apply returns_Ret|].
  unfold list_clause. rewrite returns_bind by (intros a; apply returns_Ret).
  apply returns_traverse. by apply Forall_true.
Qed.

Lemma columns_text_returns l : returns (columns_text l) ↔ forallb printable_column l = true.
Proof.
  assert (∀ f : string → string, ∀ c,
    returns (do s <- Column_String c; Ret (f s)) ↔ printable_column c = true) as Hc.
  { intros f c. rewrite returns_bind by (intros a; apply returns_Ret). apply Column_String_returns. }
  unfold columns_text. destruct l as [|c [|c' l]].
  - split; [done|]. intros _. apply returns_Ret.
  - rewrite (Hc (λ s, " " +:+ s)). simpl. by rewrite andb_true_r.
  - rewrite returns_bind by (intros a; apply returns_Ret).
    apply (returns_traverse (λ c, do s <- Column_String c; Ret (new_line +:+ tab +:+ s))).
    apply Forall_true. intros x. apply (Hc (λ s, new_line +:+ tab +:+ s)).
Qed.

(** [structuredQuery.Text] produces a text exactly when no expression it
    prints directly (a condition of a group, an argument of a function, a term
    of GROUP BY or ORDER BY) is nil, and every array printed directly is a
    slice; on any other query it panics. *)
Theorem query_Text_returns q : (∃ text, query_Text q = Ret text) ↔ printable_query q = true.
Proof.
  change (returns (query_Text q) ↔ printable_query q = true).
  unfold query_Text, query_String, printable_query. rewrite !andb_true_iff.
  rewrite <- columns_text_returns.
  apply returns_then. intros columns.
  rewrite <- (optional_clause_returns ((if is1liner q then " " else new_line) +:+ "WHERE ")).
  apply returns_then. intros where_.
  rewrite <- (list_clause_returns "GROUP BY " _ _ _ Expression_String_returns).
  apply returns_then. intros group_by. rewrite <- (optional_clause_returns (new_line +:+ "HAVING ")).
  apply returns_then. intros having. rewrite returns_bind by (intros a; apply returns_Ret).
  apply list_clause_returns. intros o. unfold orderExpression_String.
  rewrite returns_bind by (intros a; apply returns_Ret). apply Expression_String_returns.
Qed.

(** [And] and [Or] on a query without a condition make a group with a nil
    condition, which has no text. *)
Lemma And_without_where_panics q conditions :
  q_where q = None → ∀ text, query_Text (query_And q conditions) ≠ Ret text.
Proof.
  intros Hq text E. assert (printable_query (query_And q conditions) = true) as Hp.
  { revert E. unfold query_Text, query_String, query_And, groupWithConditions. simpl. by rewrite Hq. }
  revert Hp. unfold printable_query. simpl. by rewrite Hq.
Qed.
End Queries.
End Strings.
