(* ===== verification/GoSlices.v ===== *)
(** * Go slices that share arrays

    A slice is a view of an array that other slices may view too: [append]
    writes behind its end when the array has room, and moves to a new array
    otherwise.  The rule of this file says when code that appends may treat its
    slices as lists: of the slices that view an array, only one may still grow
    in place. *)

From Stdlib Require Import Arith.
From stdpp Require Import base list.
From S2P Require Import Prelude.

Local Open Scope nat_scope.
Local Open Scope list_scope.

(** A slice of an array from its first element; [None] is the nil slice. *)
Record slice := mkSlice { s_array : option nat; s_len : nat; s_cap : nat }.
#[export] Instance slice_eq_dec : EqDecision slice.
Proof. solve_decision. Defined.
Definition nil_slice : slice := mkSlice None 0 0.

(** Without room for another element. *)
Definition full (s : slice) : Prop := s_len s = s_cap s.
#[export] Instance full_dec s : Decision (full s) := decide (s_len s = s_cap s).

(** Two views of one array. *)
Definition aliases (s t : slice) : Prop := ∃ l, s_array s = Some l ∧ s_array t = Some l.

Section Slices.
Context {X : Type} (zero : X) (extra : nat → nat → nat).

(** The arrays of one element type, by their address.  What the runtime reserves
    when an array grows is any function [extra] of the old capacity and the
    new length. *)
Notation store := (list (list X)).

Definition array_of (st : store) (s : slice) : list X :=
  match s_array s with Some l => default [] (st !! l) | None => [] end.
Definition contents (st : store) (s : slice) : list X := take (s_len s) (array_of st s).

Definition append (s : slice) (xs : list X) (st : store) : store * slice :=
  let needed := s_len s + length xs in
  if needed <=? s_cap s then
    match s_array s with
    | Some l => (alter (λ a, take (s_len s) a ++ xs ++ drop needed a) l st, mkSlice (Some l) needed (s_cap s))
    | None => (st, s)
    end
  else
    let reserve := extra (s_cap s) needed in
    (st ++ [contents st s ++ xs ++ replicate reserve zero], mkSlice (Some (length st)) needed (needed + reserve)).

Definition valid (st : store) (s : slice) : Prop :=
  match s_array s with
  | None => s_len s = 0 ∧ s_cap s = 0
  | Some l => ∃ a, st !! l = Some a ∧ length a = s_cap s ∧ s_len s ≤ s_cap s
  end.

Lemma valid_nil st : valid st nil_slice.
Proof. done. Qed.
Lemma contents_nil st : contents st nil_slice = [].
Proof. done. Qed.

Lemma valid_caps st s t : valid st s → valid st t → aliases s t → s_cap s = s_cap t.
Proof.
  unfold valid. intros Hs Ht (l & Es & Et). rewrite Es in Hs. rewrite Et in Ht.
  destruct Hs as (a & Ha & <- & _), Ht as (b & Hb & <- & _). congruence.
Qed.

Lemma valid_len st s : valid st s → s_len s ≤ s_cap s.
Proof. unfold valid. destruct (s_array s); [naive_solver|lia]. Qed.

Lemma length_contents st s : valid st s → length (contents st s) = s_len s.
Proof.
  unfold valid, contents, array_of. destruct (s_array s) as [l|]; simpl.
  - intros (a & -> & Ha & Hle). rewrite length_take. simpl. lia.
  - intros [-> _]. done.
Qed.

(** *** What one append does *)

Inductive append_case (s : slice) (xs : list X) (st : store) : store * slice → Prop :=
| append_nothing : xs = [] → append_case s xs st (st, s)
| append_in_place l a :
    s_array s = Some l → st !! l = Some a → s_len s + length xs ≤ s_cap s → s_len s < s_cap s →
    append_case s xs st
      (<[l := take (s_len s) a ++ xs ++ drop (s_len s + length xs) a]> st, mkSlice (Some l) (s_len s + length xs) (s_cap s))
| append_moves reserve :
    append_case s xs st
      (st ++ [contents st s ++ xs ++ replicate reserve zero],
       mkSlice (Some (length st)) (s_len s + length xs) (s_len s + length xs + reserve)).

Lemma append_cases s xs st : valid st s → append_case s xs st (append s xs st).
Proof.
  intros Hv. unfold append. destruct (Nat.leb_spec (s_len s + length xs) (s_cap s)) as [Hle|Hgt]; [|apply append_moves].
  unfold valid in Hv. destruct s as [[l|] n m]; simpl in *.
  - destruct Hv as (a & Ha & Hl & Hn). destruct xs as [|x xs].
    + assert (alter (λ a, take n a ++ [] ++ drop (n + length (@nil X)) a) l st = st) as ->.
      { apply list_eq. intros i. destruct (decide (i = l)) as [->|Hne].
        - rewrite list_lookup_alter_eq, Ha. simpl. by rewrite Nat.add_0_r, take_drop.
        - by rewrite list_lookup_alter_ne. }
      simpl. rewrite Nat.add_0_r. by apply append_nothing.
    + assert (alter (λ a, take n a ++ (x :: xs) ++ drop (n + length (x :: xs)) a) l st
        = <[l := take n a ++ (x :: xs) ++ drop (n + length (x :: xs)) a]> st) as ->.
      { apply list_eq. intros i. destruct (decide (i = l)) as [->|Hne].
        - rewrite list_lookup_alter_eq, Ha. simpl. by rewrite list_lookup_insert_eq by by eapply lookup_lt_Some.
        - by rewrite list_lookup_alter_ne, list_lookup_insert_ne. }
      apply (append_in_place (mkSlice (Some l) n m)); simpl in *; [done..|lia].
  - destruct Hv as [-> ->]. destruct xs; simpl in *; [by apply append_nothing|lia].
Qed.

Lemma append_valid s xs st : valid st s → valid (append s xs st).1 (append s xs st).2.
Proof.
  intros Hv. destruct (append_cases s xs st Hv) as [_|l a Hl Ha Hroom _|reserve]; simpl; [done|..]; unfold valid; simpl.
  - unfold valid in Hv. rewrite Hl, Ha in Hv. destruct Hv as (a' & [= <-] & Hlen & Hle). eexists. split_and!; [|..|done].
    + apply list_lookup_insert_eq. by eapply lookup_lt_Some.
    + rewrite !length_app, length_take, length_drop. lia.
  - eexists. split_and!; [apply list_lookup_middle; done|..|lia].
    rewrite !length_app, length_contents, length_replicate by done. lia.
Qed.

Lemma append_contents s xs st : valid st s → contents (append s xs st).1 (append s xs st).2 = contents st s ++ xs.
Proof.
  intros Hv. destruct (append_cases s xs st Hv) as [->|l a Hl Ha Hroom _|reserve]; simpl; [by rewrite app_nil_r|..].
  - unfold valid in Hv. rewrite Hl, Ha in Hv. destruct Hv as (a' & [= <-] & Hlen & Hle).
    unfold contents, array_of. simpl. rewrite Hl, list_lookup_insert_eq, Ha by by eapply lookup_lt_Some. simpl.
    rewrite app_assoc. apply take_app_length'. rewrite length_app, length_take. lia.
  - unfold contents at 1, array_of. simpl. rewrite list_lookup_middle by done. simpl.
    rewrite app_assoc. apply take_app_length'. by rewrite length_app, length_contents.
Qed.

(** A slice that is not written behind keeps its contents. *)
Lemma append_frame s xs st t :
  valid st s → valid st t → (aliases t s → s_len t ≤ s_len s ∨ full s) →
  valid (append s xs st).1 t ∧ contents (append s xs st).1 t = contents st t.
Proof.
  intros Hs Ht Hal. destruct (append_cases s xs st Hs) as [_|l a Hl Ha Hroom Hspare|reserve]; simpl; [done|..].
  - unfold valid, contents, array_of in *. destruct (s_array t) as [l'|] eqn:Et; [|done].
    destruct (decide (l' = l)) as [->|Hne]; [|by rewrite !list_lookup_insert_ne by done].
    destruct Ht as (a' & Ha' & Hcap & Hle). rewrite Ha in Ha'. injection Ha' as <-.
    destruct Hal as [Hle'|Hfull]; [by exists l| |unfold full in Hfull; lia].
    rewrite Hl, Ha in Hs. destruct Hs as (a' & [= <-] & Hlen & Hn).
    rewrite list_lookup_insert_eq, Ha by by eapply lookup_lt_Some. simpl. split.
    + eexists. split_and!; [done|rewrite !length_app, length_take, length_drop; lia|done].
    + rewrite take_app_le by (rewrite length_take; lia). rewrite take_take. f_equal. lia.
  - unfold valid, contents, array_of in *. destruct (s_array t) as [l'|] eqn:Et; [|done].
    destruct Ht as (a & Ha & Hcap & Hle). rewrite lookup_app_l by by eapply lookup_lt_Some.
    rewrite Ha. split; [by exists a|done].
Qed.

(** Two slices of one array with room: the second append shows in the first. *)
Lemma append_overwrites s x y st :
  valid st s → ¬ full s →
  (append s [y] (append s [x] st).1).2 = (append s [x] st).2 ∧
  contents (append s [y] (append s [x] st).1).1 (append s [x] st).2 = contents st s ++ [y].
Proof.
  intros Hs Hroom.
  assert (s_len s + 1 ≤ s_cap s) as Hle by (pose proof (valid_len st s Hs); unfold full in Hroom; lia).
  assert (∀ z st', (append s [z] st').2 = mkSlice (s_array s) (s_len s + 1) (s_cap s)) as Hview.
  { intros z st'. unfold append. simpl. rewrite (proj2 (Nat.leb_le _ _) Hle).
    destruct s as [[l|] n cap]; unfold valid in Hs; simpl in *; [done|lia]. }
  destruct (append_frame s [x] st s Hs Hs ltac:(by left)) as [Hs1 Hc1].
  split; [by rewrite !Hview|]. rewrite <- Hc1, <- (append_contents s [y] _ Hs1). f_equal. by rewrite !Hview.
Qed.

(** The new view is of the same array, or of one that nobody viewed. *)
Lemma append_aliases s xs st t :
  valid st s → valid st t → aliases t (append s xs st).2 →
  aliases t s ∧ s_len s ≤ s_len (append s xs st).2 ∧ (full s → (append s xs st).2 = s).
Proof.
  intros Hs Ht. destruct (append_cases s xs st Hs) as [->|l a Hl Ha Hroom Hspare|reserve]; simpl; intros (l' & Et & El); simpl in *.
  - split_and!; [by exists l'|lia|done].
  - injection El as <-. split_and!; [by exists l|lia|]. unfold full. intros Hfull. lia.
  - injection El as <-. unfold valid in Ht. rewrite Et in Ht. destruct Ht as (a & Ha%lookup_lt_Some & _). lia.
Qed.
End Slices.

(** ** Who may grow

    The slices of a program, by names: owners are appended to, readers are only
    read. *)

Section Ownership.
Context {X : Type} (zero : X) (extra : nat → nat → nat).

Record owned {K R : Type} (st : list (list X)) (owner : K → option slice) (reader : R → option slice) : Prop := mkOwned {
  owners_valid : ∀ k s, owner k = Some s → valid st s;
  readers_valid : ∀ r t, reader r = Some t → valid st t;
  owners_apart : ∀ k k' s s', k ≠ k' → owner k = Some s → owner k' = Some s' → aliases s s' → full s ∧ full s';
  readers_behind : ∀ r k t s, reader r = Some t → owner k = Some s → aliases t s → s_len t ≤ s_len s;
}.

Lemma owned_ext {K R : Type} st (owner owner' : K → option slice) (reader reader' : R → option slice) :
  (∀ k, owner' k = owner k) → (∀ r, reader' r = reader r) → owned st owner reader → owned st owner' reader'.
Proof.
  intros Ho Hr [Hov Hrv Ha Hb]. split.
  - intros k s. rewrite Ho. apply Hov.
  - intros r t. rewrite Hr. apply Hrv.
  - intros k k' s s'. rewrite !Ho. apply Ha.
  - intros r k t s. rewrite Ho, Hr. apply Hb.
Qed.

Lemma owned_append {K R : Type} `{EqDecision K} st (owner owner' : K → option slice) (reader : R → option slice) k s xs :
  owned st owner reader → owner k = Some s →
  (∀ k', owner' k' = if decide (k' = k) then Some (append zero extra s xs st).2 else owner k') →
  owned (append zero extra s xs st).1 owner' reader ∧
  (∀ k' t, k' ≠ k → owner k' = Some t → contents (append zero extra s xs st).1 t = contents st t) ∧
  (∀ r t, reader r = Some t → contents (append zero extra s xs st).1 t = contents st t).
Proof.
  intros [Hov Hrv Ha Hb] Hk Hown. assert (valid st s) as Hs by by eapply Hov.
  assert (∀ k' t, k' ≠ k → owner k' = Some t → valid (append zero extra s xs st).1 t ∧ contents (append zero extra s xs st).1 t = contents st t) as Hothers.
  { intros k' t Hne Ht. apply append_frame; [done|by eapply Hov|]. intros Hal. right. by destruct (Ha k' k t s Hne Ht Hk Hal). }
  assert (∀ r t, reader r = Some t → valid (append zero extra s xs st).1 t ∧ contents (append zero extra s xs st).1 t = contents st t) as Hreaders.
  { intros r t Ht. apply append_frame; [done|by eapply Hrv|]. intros Hal. left. by eapply Hb. }
  split; [split|split; [intros k' t Hne Ht; by apply (Hothers k')|intros r t Ht; by apply (Hreaders r)]].
  - intros k' t. rewrite Hown. case_decide; [intros [= <-]; by apply append_valid|]. intros Ht. by apply (Hothers k').
  - intros r t Ht. by apply (Hreaders r).
  - assert (∀ k' t, k' ≠ k → owner k' = Some t → aliases t (append zero extra s xs st).2 → full t ∧ full (append zero extra s xs st).2) as Hnew.
    { intros k' t Hne Ht Hal. destruct (append_aliases zero extra s xs st t Hs (Hov k' t Ht) Hal) as (Hal' & _ & Hsame).
      destruct (Ha k' k t s Hne Ht Hk Hal') as [Hft Hfs]. by rewrite Hsame. }
    intros k1 k2 s1 s2 Hne. rewrite !Hown. do 2 case_decide; subst; [done|..].
    + intros [= <-] H2 (l & E1 & E2). destruct (Hnew k2 s2) as [? ?]; [done..|by exists l|done].
    + intros H1 [= <-] Hal. by apply (Hnew k1).
    + by apply Ha.
  - intros r k' t t' Hr. rewrite Hown. case_decide; [intros [= <-]; intros Hal|by eapply Hb].
    destruct (append_aliases zero extra s xs st t Hs (Hrv r t Hr) Hal) as (Hal' & Hle & _). pose proof (Hb r k t s Hr Hk Hal'). lia.
Qed.

(** Names may be added: for nil slices, for readers of what owners or readers
    had, and for a second owner of a slice that is full. *)
Lemma owned_rename {K R K' R' : Type} st (owner : K → option slice) (reader : R → option slice)
    (owner' : K' → option slice) (reader' : R' → option slice) :
  owned st owner reader →
  (∀ k' s, owner' k' = Some s → s = nil_slice ∨ ∃ k, owner k = Some s) →
  (∀ k1 k2 s1 s2, k1 ≠ k2 → owner' k1 = Some s1 → owner' k2 = Some s2 → s1 = nil_slice ∨ s2 = nil_slice ∨
    (∃ j1 j2, owner j1 = Some s1 ∧ owner j2 = Some s2 ∧ (j1 ≠ j2 ∨ full s1))) →
  (∀ r' t, reader' r' = Some t → t = nil_slice ∨ (∃ r, reader r = Some t) ∨ ∃ k, owner k = Some t) →
  owned st owner' reader'.
Proof.
  intros [Hov Hrv Ha Hb] Ho Hd Hr.
  assert (∀ s t, s = nil_slice ∨ t = nil_slice → ¬ aliases s t) as Hnil by (intros s t [-> | ->] (l & E & E'); done).
  assert (∀ r' t, reader' r' = Some t → valid st t) as Hval.
  { intros r' t Ht. destruct (Hr r' t Ht) as [->|[[r Hr']|[k Hk]]]; [apply valid_nil|by eapply Hrv|by eapply Hov]. }
  split; [|done|..].
  - intros k' s Hs. destruct (Ho k' s Hs) as [->|[k Hk]]; [apply valid_nil|by eapply Hov].
  - intros k1 k2 s1 s2 Hne H1 H2 Hal. destruct (Hd k1 k2 s1 s2 Hne H1 H2) as [?|[?|(j1 & j2 & Hj1 & Hj2 & Hj)]]; [by destruct (Hnil s1 s2); auto..|].
    destruct (decide (s1 = s2)) as [<-|Hs]; [|by apply (Ha j1 j2); [congruence|..]].
    destruct Hj as [Hj|Hj]; [by apply (Ha j1 j2)|done].
  - intros r' k' t s Ht Hs Hal. destruct (Ho k' s Hs) as [?|[k Hk]]; [by destruct (Hnil t s); auto|].
    destruct (Hr r' t Ht) as [?|[[r Hr']|[k2 Hk2]]]; [by destruct (Hnil t s); auto|by eapply Hb|].
    destruct (decide (t = s)) as [->|Hne]; [lia|].
    destruct (Ha k2 k t s) as [Hf1 Hf2]; [congruence|done..|]. unfold full in Hf1, Hf2.
    rewrite Hf1, Hf2. by rewrite (valid_caps st t s (Hov _ _ Hk2) (Hov _ _ Hk) Hal).
Qed.

(** Readers more, of what is there. *)
Lemma owned_add_readers {K R R' : Type} st (owner owner' : K → option slice) (reader : R → option slice) (reader' : R' → option slice) :
  owned st owner reader → (∀ k, owner' k = owner k) →
  (∀ r' t, reader' r' = Some t → (∃ r, reader r = Some t) ∨ ∃ k, owner k = Some t) → owned st owner' reader'.
Proof.
  intros Howned Ho Hr. eapply owned_rename; [exact Howned|..].
  - intros k s. rewrite Ho. eauto.
  - intros k1 k2 s1 s2 Hne. rewrite !Ho. intros H1 H2. do 2 right. exists k1, k2. auto.
  - intros r' t Ht. right. by apply (Hr r').
Qed.

(** An object more, with empty slices or full ones of an object before. *)
Lemma owned_add_object {B F R R' : Type} `{EqDecision F} st (field : F → B → slice) (bs : list B) b (reader : R → option slice) (reader' : R' → option slice) :
  owned st (λ k, field k.2 <$> bs !! k.1) reader →
  (∀ f, field f b = nil_slice ∨ ∃ i, bs !! i = Some b ∧ full (field f b)) →
  (∀ r' t, reader' r' = Some t → ∃ r, reader r = Some t) →
  owned st (λ k, field k.2 <$> (bs ++ [b]) !! k.1) reader'.
Proof.
  intros Howned Hf Hr.
  assert (∀ k s, field k.2 <$> (bs ++ [b]) !! k.1 = Some s →
    field k.2 <$> bs !! k.1 = Some s ∨ s = nil_slice ∨ k.1 = length bs ∧ ∃ i, field k.2 <$> bs !! i = Some s ∧ full s) as Hnew.
  { intros [j f] s (c & Hc & ->)%fmap_Some. simpl in *. apply lookup_snoc_Some in Hc as [[_ Hc]|[-> <-]]; [left; by rewrite Hc|right].
    destruct (Hf f) as [->|(i & Hi & Hfull)]; [by left|right]. split; [done|]. exists i. by rewrite Hi. }
  eapply owned_rename; [exact Howned|..].
  - intros k s Hs. destruct (Hnew k s Hs) as [Hk|[?|(_ & i & Hi & _)]]; [right; by exists k|by left|right; by exists (i, k.2)].
  - intros k1 k2 s1 s2 Hne H1 H2.
    destruct (Hnew k1 s1 H1) as [Hk1|[?|(El1 & i1 & Hi1 & Hfull1)]]; [|by left|];
      (destruct (Hnew k2 s2 H2) as [Hk2|[?|(El2 & i2 & Hi2 & Hfull2)]]; [|by auto|]); do 2 right.
    + exists k1, k2. auto.
    + exists k1, (i2, k2.2). split_and!; [done..|]. destruct (decide (s1 = s2)) as [->|]; [by right|left; intros ->; simpl in *; congruence].
    + exists (i1, k1.2), k2. auto.
    + exists (i1, k1.2), (i2, k2.2). auto.
  - intros r' t Ht. right. left. by eapply Hr.
Qed.
End Ownership.
