(* ===== verification/DalBuilder.v ===== *)
(** * Query builders and what their clones share
    (src/dal: q_builder.go, q_recordset_source.go)

    The builder of DalQuery.v is a value.  In the program it is an object whose
    slices are appended to in place, [Clone] copies the object and not the
    arrays, and a query keeps slices of its builder.  Here are the builders with
    their arrays; they agree with the values as long as no builder with room
    behind its slices is cloned, and two clones with room overwrite each other's
    conditions. *)

From Stdlib Require Import String.
From stdpp Require Import base list strings.
From S2P Require Import Prelude GoValues GoStrings RecordKey DalQuery DalString GoSlices.

Local Open Scope string_scope.
Local Open Scope nat_scope.
Local Open Scope list_scope.

Section Builders.
Context `{RecordKeys} (extra : nat → nat → nat).

(** ** Objects *)

(** A field of type [Condition] that the builder writes: nil, the only
    condition, or a group over the builder's slice. *)
Inductive clause := NoCondition | Single (c : Condition) | Group (operator : Operator) (conditions : slice).

Record query_object := mkQueryObject {
  qo_from : option FromSource;
  qo_where : clause;
  qo_groupBy : slice;
  qo_having : clause;
  qo_orderBy : slice;
  qo_columns : list Column;
  qo_intoRecord : option value;
  qo_recordsetOptions : list value;
  qo_offset : Z;
  qo_limit : Z;
  qo_idKind : Z;
  qo_startCursor : string;
}.

Record builder_object := mkBuilderObject {
  bo_q : query_object;
  bo_conditions : slice;
  bo_havingConditions : slice;
}.

(** The arrays of the two element types, the builders by their address, and the
    queries that were built. *)
Record memory := mkMemory {
  m_exprs : list (list Expression);
  m_orders : list (list OrderExpression);
  m_builders : list builder_object;
  m_queries : list query_object;
}.

Definition new_query_object (from : FromSource) : query_object :=
  mkQueryObject (Some from) NoCondition nil_slice NoCondition nil_slice [] None [] 0 0 0 "".
Definition new_builder (from : FromSource) : builder_object := mkBuilderObject (new_query_object from) nil_slice nil_slice.

(** ** Methods

    A method on the arrays and its receiver. *)

Definition method : Type :=
  list (list Expression) → list (list OrderExpression) → builder_object →
  list (list Expression) * list (list OrderExpression) * builder_object.

Definition set_qo (b : builder_object) (q : query_object) : builder_object :=
  mkBuilderObject q (bo_conditions b) (bo_havingConditions b).

Definition o_StartFrom (cursor : string) : method := λ es os b,
  let q := bo_q b in
  (es, os, set_qo b (mkQueryObject (qo_from q) (qo_where q) (qo_groupBy q) (qo_having q) (qo_orderBy q) (qo_columns q)
    (qo_intoRecord q) (qo_recordsetOptions q) (qo_offset q) (qo_limit q) (qo_idKind q) cursor)).

Definition o_Offset (i : Z) : method := λ es os b,
  let q := bo_q b in
  (es, os, set_qo b (mkQueryObject (qo_from q) (qo_where q) (qo_groupBy q) (qo_having q) (qo_orderBy q) (qo_columns q)
    (qo_intoRecord q) (qo_recordsetOptions q) i (qo_limit q) (qo_idKind q) (qo_startCursor q))).

Definition o_Limit (i : Z) : method := λ es os b,
  let q := bo_q b in
  (es, os, set_qo b (mkQueryObject (qo_from q) (qo_where q) (qo_groupBy q) (qo_having q) (qo_orderBy q) (qo_columns q)
    (qo_intoRecord q) (qo_recordsetOptions q) (qo_offset q) i (qo_idKind q) (qo_startCursor q))).

Definition o_OrderBy (expressions : list OrderExpression) : method := λ es os b,
  let q := bo_q b in
  let '(os, s) := append (mkOrder NilExpr false) extra (qo_orderBy q) expressions os in
  (es, os, set_qo b (mkQueryObject (qo_from q) (qo_where q) (qo_groupBy q) (qo_having q) s (qo_columns q)
    (qo_intoRecord q) (qo_recordsetOptions q) (qo_offset q) (qo_limit q) (qo_idKind q) (qo_startCursor q))).

(** The slices of expressions that a builder appends to. *)
Inductive expr_field := FConditions | FHaving | FGroupBy.

Definition get_field (f : expr_field) (b : builder_object) : slice :=
  match f with
  | FConditions => bo_conditions b
  | FHaving => bo_havingConditions b
  | FGroupBy => qo_groupBy (bo_q b)
  end.

Definition set_field (f : expr_field) (b : builder_object) (s : slice) : builder_object :=
  match f with
  | FConditions => mkBuilderObject (bo_q b) s (bo_havingConditions b)
  | FHaving => mkBuilderObject (bo_q b) (bo_conditions b) s
  | FGroupBy =>
      let q := bo_q b in
      set_qo b (mkQueryObject (qo_from q) (qo_where q) s (qo_having q) (qo_orderBy q) (qo_columns q)
        (qo_intoRecord q) (qo_recordsetOptions q) (qo_offset q) (qo_limit q) (qo_idKind q) (qo_startCursor q))
  end.

Definition append_field (f : expr_field) (xs : list Expression) : method := λ es os b,
  let '(es, s) := append NilExpr extra (get_field f b) xs es in (es, os, set_field f b s).

Definition o_Where (conditions : list Condition) : method := append_field FConditions conditions.
Definition o_GroupBy (expressions : list Expression) : method := append_field FGroupBy expressions.
Definition o_Having (conditions : list Condition) : method := append_field FHaving conditions.

Definition o_WhereField (name : string) (operator : Operator) (v : any_arg) : res unit method :=
  do c <- WhereField name operator v; Ret (o_Where [c]).

Definition o_WhereInArrayField (name : string) (v : value) : method :=
  o_Where [Comparison In (Constant v) (FieldRef "" name false)].

Definition o_WhereArrayContainsAny (name : string) (values : any_arg) : res unit method :=
  do arr <- match values with
            | ArgExpr (Array v) => Ret (Array v)
            | ArgValue v => NewArray v
            | ArgExpr _ => Panic "unsupported type"
            end;
  Ret (o_Where [Comparison In (FieldRef "" name false) arr]).

(** [newQuery]: the switch on the length of the builder's conditions. *)
Definition clause_of (es : list (list Expression)) (s : slice) (old : clause) : clause :=
  match s_len s with
  | 0 => old
  | 1 => Single (nth 0 (contents es s) NilExpr)
  | _ => Group And s
  end.

Definition o_newQuery (es : list (list Expression)) (b : builder_object) : query_object :=
  let q := bo_q b in
  mkQueryObject (qo_from q) (clause_of es (bo_conditions b) (qo_where q)) (qo_groupBy q)
    (clause_of es (bo_havingConditions b) (qo_having q)) (qo_orderBy q) (qo_columns q)
    (qo_intoRecord q) (qo_recordsetOptions q) (qo_offset q) (qo_limit q) (qo_idKind q) (qo_startCursor q).

(** What a Select method writes into the copy it returns. *)
Inductive selection :=
| IntoRecord (into : value)
| IntoRecordset (options : list value)
| KeysOnly (idKind : Z)
| Columns (columns : list Column).

Definition o_select (sel : selection) (q : query_object) : query_object :=
  match sel with
  | IntoRecord into =>
      mkQueryObject (qo_from q) (qo_where q) (qo_groupBy q) (qo_having q) (qo_orderBy q) (qo_columns q)
        (Some into) (qo_recordsetOptions q) (qo_offset q) (qo_limit q) (qo_idKind q) (qo_startCursor q)
  | IntoRecordset options =>
      mkQueryObject (qo_from q) (qo_where q) (qo_groupBy q) (qo_having q) (qo_orderBy q) (qo_columns q)
        (qo_intoRecord q) options (qo_offset q) (qo_limit q) (qo_idKind q) (qo_startCursor q)
  | KeysOnly idKind =>
      mkQueryObject (qo_from q) (qo_where q) (qo_groupBy q) (qo_having q) (qo_orderBy q) (qo_columns q)
        (qo_intoRecord q) (qo_recordsetOptions q) (qo_offset q) (qo_limit q) idKind (qo_startCursor q)
  | Columns columns =>
      mkQueryObject (qo_from q) (qo_where q) (qo_groupBy q) (qo_having q) (qo_orderBy q) columns
        (qo_intoRecord q) (qo_recordsetOptions q) (qo_offset q) (qo_limit q) (qo_idKind q) (qo_startCursor q)
  end.

(** ** Programs over builders *)

Inductive edit :=
| EStartFrom (cursor : string)
| EOffset (i : Z)
| ELimit (i : Z)
| EOrderBy (expressions : list OrderExpression)
| EWhere (conditions : list Condition)
| EGroupBy (expressions : list Expression)
| EHaving (conditions : list Condition)
| EWhereField (name : string) (operator : Operator) (v : any_arg)
| EWhereInArrayField (name : string) (v : value)
| EWhereArrayContains (name : string) (v : value)
| EWhereArrayContainsAny (name : string) (values : any_arg).

Definition o_edit (e : edit) : res unit method :=
  match e with
  | EStartFrom cursor => Ret (o_StartFrom cursor)
  | EOffset i => Ret (o_Offset i)
  | ELimit i => Ret (o_Limit i)
  | EOrderBy expressions => Ret (o_OrderBy expressions)
  | EWhere conditions => Ret (o_Where conditions)
  | EGroupBy expressions => Ret (o_GroupBy expressions)
  | EHaving conditions => Ret (o_Having conditions)
  | EWhereField name operator v => o_WhereField name operator v
  | EWhereInArrayField name v | EWhereArrayContains name v => Ret (o_WhereInArrayField name v)
  | EWhereArrayContainsAny name values => o_WhereArrayContainsAny name values
  end.

Inductive action :=
| DoNew (from : FromSource)
| DoClone (i : nat)
| DoEdit (i : nat) (e : edit)
| DoSelect (i : nat) (sel : selection).

Definition no_builder {A} : res unit A := Panic nil_dereference.

Definition o_step (a : action) (m : memory) : res unit memory :=
  match a with
  | DoNew from => Ret (mkMemory (m_exprs m) (m_orders m) (m_builders m ++ [new_builder from]) (m_queries m))
  | DoClone i =>
      match m_builders m !! i with
      | Some b => Ret (mkMemory (m_exprs m) (m_orders m) (m_builders m ++ [b]) (m_queries m))
      | None => no_builder
      end
  | DoEdit i e =>
      match m_builders m !! i with
      | Some b =>
          do f <- o_edit e;
          let '(es, os, b) := f (m_exprs m) (m_orders m) b in
          Ret (mkMemory es os (<[i := b]> (m_builders m)) (m_queries m))
      | None => no_builder
      end
  | DoSelect i sel =>
      match m_builders m !! i with
      | Some b =>
          let q := o_newQuery (m_exprs m) b in
          Ret (mkMemory (m_exprs m) (m_orders m) (<[i := set_qo b q]> (m_builders m)) (m_queries m ++ [o_select sel q]))
      | None => no_builder
      end
  end.

Fixpoint o_run (actions : list action) (m : memory) : res unit memory :=
  match actions with
  | [] => Ret m
  | a :: actions => do m <- o_step a m; o_run actions m
  end.

(** *** The same on values *)

Definition v_edit (e : edit) (b : QueryBuilder) : res unit QueryBuilder :=
  match e with
  | EStartFrom cursor => Ret (StartFrom b cursor)
  | EOffset i => Ret (Offset b i)
  | ELimit i => Ret (Limit b i)
  | EOrderBy expressions => Ret (OrderBy b expressions)
  | EWhere conditions => Ret (Where b conditions)
  | EGroupBy expressions => Ret (GroupBy b expressions)
  | EHaving conditions => Ret (Having b conditions)
  | EWhereField name operator v => builder_WhereField b name operator v
  | EWhereInArrayField name v => Ret (WhereInArrayField b name v)
  | EWhereArrayContains name v => Ret (WhereArrayContains b name v)
  | EWhereArrayContainsAny name values => WhereArrayContainsAny b name values
  end.

Definition v_select (sel : selection) (b : QueryBuilder) : QueryBuilder * structuredQuery :=
  match sel with
  | IntoRecord into => SelectIntoRecord b into
  | IntoRecordset options => SelectIntoRecordset b options
  | KeysOnly idKind => SelectKeysOnly b idKind
  | Columns columns => SelectColumns b columns
  end.

(** Builders and queries as values; a clone is a copy. *)
Definition values : Type := list QueryBuilder * list structuredQuery.

Definition v_step (a : action) (v : values) : res unit values :=
  let '(bs, qs) := v in
  match a with
  | DoNew from => Ret (bs ++ [NewQueryBuilder from], qs)
  | DoClone i => match bs !! i with Some b => Ret (bs ++ [b], qs) | None => no_builder end
  | DoEdit i e => match bs !! i with Some b => do b <- v_edit e b; Ret (<[i := b]> bs, qs) | None => no_builder end
  | DoSelect i sel =>
      match bs !! i with
      | Some b => let '(b, q) := v_select sel b in Ret (<[i := b]> bs, qs ++ [q])
      | None => no_builder
      end
  end.

Fixpoint v_run (actions : list action) (v : values) : res unit values :=
  match actions with
  | [] => Ret v
  | a :: actions => do v <- v_step a v; v_run actions v
  end.

(** *** What objects show *)

Definition clause_value (es : list (list Expression)) (c : clause) : option Condition :=
  match c with
  | NoCondition => None
  | Single c => Some c
  | Group operator s => Some (GroupCondition operator (contents es s))
  end.

Definition query_value (es : list (list Expression)) (os : list (list OrderExpression)) (q : query_object) : structuredQuery :=
  mkQuery (qo_from q) (clause_value es (qo_where q)) (contents es (qo_groupBy q)) (clause_value es (qo_having q))
    (contents os (qo_orderBy q)) (qo_columns q) (qo_intoRecord q) (qo_recordsetOptions q) (qo_offset q) (qo_limit q)
    (qo_idKind q) (qo_startCursor q).

Definition builder_value (es : list (list Expression)) (os : list (list OrderExpression)) (b : builder_object) : QueryBuilder :=
  mkBuilder (query_value es os (bo_q b)) (contents es (bo_conditions b)) (contents es (bo_havingConditions b)).

Definition shown (m : memory) : values :=
  (builder_value (m_exprs m) (m_orders m) <$> m_builders m, query_value (m_exprs m) (m_orders m) <$> m_queries m).

(** No slice of the builder has room. *)
Definition no_room (b : builder_object) : bool :=
  bool_decide (full (bo_conditions b)) && bool_decide (full (bo_havingConditions b)) &&
  bool_decide (full (qo_groupBy (bo_q b))) && bool_decide (full (qo_orderBy (bo_q b))).

(** Only builders without room are cloned. *)
Fixpoint clones_full (actions : list action) (m : memory) : bool :=
  match actions with
  | [] => true
  | a :: actions =>
      match a with DoClone i => match m_builders m !! i with Some b => no_room b | None => true end | _ => true end &&
      match o_step a m with Ret m => clones_full actions m | _ => true end
  end.

Definition no_objects : memory := mkMemory [] [] [] [].

(** ** Builders agree with values *)

Definition clause_slice (c : clause) : option slice := match c with Group _ s => Some s | _ => None end.

(** The slices of expressions and of orders, by where they are kept. *)
Definition expr_owner (bs : list builder_object) (k : nat * expr_field) : option slice := get_field k.2 <$> bs !! k.1.
Definition order_owner (bs : list builder_object) (k : nat * unit) : option slice := qo_orderBy ∘ bo_q <$> bs !! k.1.

Inductive reader_name := BuilderWhere (i : nat) | BuilderHaving (i : nat) | QueryWhere (j : nat) | QueryHaving (j : nat) | QueryGroupBy (j : nat).

Definition expr_reader (bs : list builder_object) (qs : list query_object) (r : reader_name) : option slice :=
  match r with
  | BuilderWhere i => b ← bs !! i; clause_slice (qo_where (bo_q b))
  | BuilderHaving i => b ← bs !! i; clause_slice (qo_having (bo_q b))
  | QueryWhere j => q ← qs !! j; clause_slice (qo_where q)
  | QueryHaving j => q ← qs !! j; clause_slice (qo_having q)
  | QueryGroupBy j => qo_groupBy <$> qs !! j
  end.
Definition order_reader (qs : list query_object) (j : nat) : option slice := qo_orderBy <$> qs !! j.

#[export] Instance expr_field_eq_dec : EqDecision expr_field.
Proof. solve_decision. Defined.

Record separate (m : memory) : Prop := mkSeparate {
  separate_exprs : owned (m_exprs m) (expr_owner (m_builders m)) (expr_reader (m_builders m) (m_queries m));
  separate_orders : owned (m_orders m) (order_owner (m_builders m)) (order_reader (m_queries m));
}.

(** What a query or builder shows depends on its slices only. *)
Lemma clause_value_ext es es' c : (∀ t, clause_slice c = Some t → contents es' t = contents es t) → clause_value es' c = clause_value es c.
Proof. intros Ht. destruct c; [done..|]. simpl. by rewrite Ht. Qed.

Lemma query_value_ext es es' os os' q :
  (∀ t, clause_slice (qo_where q) = Some t → contents es' t = contents es t) →
  (∀ t, clause_slice (qo_having q) = Some t → contents es' t = contents es t) →
  contents es' (qo_groupBy q) = contents es (qo_groupBy q) → contents os' (qo_orderBy q) = contents os (qo_orderBy q) →
  query_value es' os' q = query_value es os q.
Proof. intros Hw Hh Hg Ho. unfold query_value. by rewrite (clause_value_ext es es' _ Hw), (clause_value_ext es es' _ Hh), Hg, Ho. Qed.

Section Frame.
Context (es es' : list (list Expression)) (os os' : list (list OrderExpression)) (bs : list builder_object) (qs : list query_object).
Context (Hreaders : ∀ r t, expr_reader bs qs r = Some t → contents es' t = contents es t).
Context (Hqorders : ∀ j t, order_reader qs j = Some t → contents os' t = contents os t).

Lemma queries_kept : query_value es' os' <$> qs = query_value es os <$> qs.
Proof.
  apply list_eq. intros j. rewrite !list_lookup_fmap. destruct (qs !! j) as [q|] eqn:Hq; [|done]. simpl. f_equal.
  apply query_value_ext.
  - intros t Ht. apply (Hreaders (QueryWhere j)). simpl. by rewrite Hq.
  - intros t Ht. apply (Hreaders (QueryHaving j)). simpl. by rewrite Hq.
  - apply (Hreaders (QueryGroupBy j)). simpl. by rewrite Hq.
  - apply (Hqorders j). unfold order_reader. by rewrite Hq.
Qed.

Lemma builder_kept i b :
  bs !! i = Some b → (∀ f, contents es' (get_field f b) = contents es (get_field f b)) →
  contents os' (qo_orderBy (bo_q b)) = contents os (qo_orderBy (bo_q b)) → builder_value es' os' b = builder_value es os b.
Proof.
  intros Hb Hf Ho. unfold builder_value. rewrite (query_value_ext es es' os os').
  - f_equal; [apply (Hf FConditions)|apply (Hf FHaving)].
  - intros t Ht. apply (Hreaders (BuilderWhere i)). simpl. by rewrite Hb.
  - intros t Ht. apply (Hreaders (BuilderHaving i)). simpl. by rewrite Hb.
  - apply (Hf FGroupBy).
  - done.
Qed.
End Frame.

(** *** Every step keeps the objects separate and shows what the value step gives *)

Lemma get_set_field f g b s : get_field f (set_field g b s) = if decide (f = g) then s else get_field f b.
Proof. by destruct f, g. Qed.
Lemma set_field_clauses g b s :
  qo_where (bo_q (set_field g b s)) = qo_where (bo_q b) ∧ qo_having (bo_q (set_field g b s)) = qo_having (bo_q b) ∧
  qo_orderBy (bo_q (set_field g b s)) = qo_orderBy (bo_q b).
Proof. by destruct g. Qed.

Lemma readers_insert bs qs i b b' r :
  bs !! i = Some b → qo_where (bo_q b') = qo_where (bo_q b) → qo_having (bo_q b') = qo_having (bo_q b) →
  expr_reader (<[i := b']> bs) qs r = expr_reader bs qs r.
Proof.
  intros Hb Hw Hh.
  destruct r as [j|j|j|j|j]; simpl; [..|done|done|done]; (destruct (decide (j = i)) as [->|Hne]; [|by rewrite list_lookup_insert_ne]);
    rewrite list_lookup_insert_eq, Hb by (by eapply lookup_lt_Some); simpl; by rewrite ?Hw, ?Hh.
Qed.

Lemma insert_field {A} (f : builder_object → A) (bs : list builder_object) i b b' j :
  f b' = f b → bs !! i = Some b → f <$> (<[i := b']> bs) !! j = f <$> bs !! j.
Proof.
  intros Hf Hb. destruct (decide (j = i)) as [->|Hne]; [|by rewrite list_lookup_insert_ne].
  rewrite list_lookup_insert_eq by (by eapply lookup_lt_Some). rewrite Hb. simpl. by f_equal.
Qed.

Lemma shown_insert es es' os os' bs qs i b b' :
  bs !! i = Some b →
  (∀ j c, j ≠ i → bs !! j = Some c → builder_value es' os' c = builder_value es os c) →
  query_value es' os' <$> qs = query_value es os <$> qs →
  shown (mkMemory es' os' (<[i := b']> bs) qs) = (<[i := builder_value es' os' b']> (builder_value es os <$> bs), query_value es os <$> qs).
Proof.
  intros Hb Hothers Hqs. unfold shown. simpl. f_equal; [|done]. apply list_eq. intros j. rewrite list_lookup_fmap.
  destruct (decide (j = i)) as [->|Hne].
  - by rewrite !list_lookup_insert_eq by (rewrite ?length_fmap; by eapply lookup_lt_Some).
  - rewrite !list_lookup_insert_ne, list_lookup_fmap by done. destruct (bs !! j) as [c|] eqn:Hc; [|done]. simpl. f_equal. by eapply Hothers.
Qed.

Lemma append_field_ok f xs m i b :
  separate m → m_builders m !! i = Some b →
  let '(es, os, b') := append_field f xs (m_exprs m) (m_orders m) b in
  separate (mkMemory es os (<[i := b']> (m_builders m)) (m_queries m)) ∧
  shown (mkMemory es os (<[i := b']> (m_builders m)) (m_queries m)) =
    (<[i := let v := builder_value (m_exprs m) (m_orders m) b in
            match f with FConditions => Where v xs | FHaving => Having v xs | FGroupBy => GroupBy v xs end]> (shown m).1, (shown m).2).
Proof.
  intros [He Ho] Hb. unfold append_field.
  set (owner' := expr_owner (<[i := set_field f b (append NilExpr extra (get_field f b) xs (m_exprs m)).2]> (m_builders m))).
  destruct (owned_append NilExpr extra (m_exprs m) (expr_owner (m_builders m)) owner' (expr_reader (m_builders m) (m_queries m)) (i, f) (get_field f b) xs)
    as (Howned & Hothers & Hreaders); [done|unfold expr_owner; simpl; by rewrite Hb|..].
  { intros [j g]. unfold owner', expr_owner. simpl. destruct (decide (j = i)) as [->|Hne].
    - rewrite list_lookup_insert_eq, Hb by by eapply lookup_lt_Some. simpl. rewrite get_set_field.
      destruct (decide (g = f)) as [->|Hg]; [by rewrite decide_True|by rewrite decide_False by congruence].
    - rewrite list_lookup_insert_ne by done. by rewrite decide_False by congruence. }
  pose proof (append_contents NilExpr extra (get_field f b) xs (m_exprs m) (owners_valid _ _ _ He (i, f) _ ltac:(unfold expr_owner; simpl; by rewrite Hb))) as Hnew.
  destruct (append NilExpr extra (get_field f b) xs (m_exprs m)) as [es s]. simpl in *.
  destruct (set_field_clauses f b s) as (Hw & Hh & Hor). split.
  - split; simpl.
    + apply (owned_ext es owner' _ (expr_reader (m_builders m) (m_queries m)) _); [done|intros r; by apply (readers_insert _ _ i b)|done].
    + apply (owned_ext _ (order_owner (m_builders m)) _ (order_reader (m_queries m)) _); [|done|done].
      intros [j []]. by apply (insert_field (qo_orderBy ∘ bo_q) _ i b).
  - assert (∀ j c g, m_builders m !! j = Some c → (j, g) ≠ (i, f) → contents es (get_field g c) = contents (m_exprs m) (get_field g c)) as Hfield.
    { intros j c g Hc Hne. apply (Hothers (j, g)); [done|]. unfold expr_owner. simpl. by rewrite Hc. }
    rewrite (shown_insert (m_exprs m) es (m_orders m)) with (b := b); [|done|..].
    + unfold shown. simpl. do 2 f_equal.
      assert (clause_value es (qo_where (bo_q b)) = clause_value (m_exprs m) (qo_where (bo_q b))) as Hcw.
      { apply clause_value_ext. intros t Ht. apply (Hreaders (BuilderWhere i)). simpl. by rewrite Hb. }
      assert (clause_value es (qo_having (bo_q b)) = clause_value (m_exprs m) (qo_having (bo_q b))) as Hch.
      { apply clause_value_ext. intros t Ht. apply (Hreaders (BuilderHaving i)). simpl. by rewrite Hb. }
      pose proof (λ g Hne, Hfield i b g Hb Hne) as Hg.
      pose proof (Hg FConditions) as Hg1. pose proof (Hg FHaving) as Hg2. pose proof (Hg FGroupBy) as Hg3.
      unfold builder_value, query_value, Where, Having, GroupBy, set_q.
      destruct f; simpl in *; rewrite Hcw, Hch, Hnew, ?Hg1, ?Hg2, ?Hg3 by done; done.
    + intros j c Hne Hc. eapply builder_kept; [exact Hreaders|exact Hc|intros g; apply (Hfield j); congruence|done].
    + by eapply queries_kept.
Qed.

Lemma OrderBy_ok l m i b :
  separate m → m_builders m !! i = Some b →
  let '(es, os, b') := o_OrderBy l (m_exprs m) (m_orders m) b in
  separate (mkMemory es os (<[i := b']> (m_builders m)) (m_queries m)) ∧
  shown (mkMemory es os (<[i := b']> (m_builders m)) (m_queries m)) =
    (<[i := OrderBy (builder_value (m_exprs m) (m_orders m) b) l]> (shown m).1, (shown m).2).
Proof.
  intros [He Ho] Hb. unfold o_OrderBy. set (s0 := qo_orderBy (bo_q b)).
  assert (order_owner (m_builders m) (i, ()) = Some s0) as Hs0 by (unfold order_owner; simpl; by rewrite Hb).
  set (b' := set_qo b (let q := bo_q b in mkQueryObject (qo_from q) (qo_where q) (qo_groupBy q) (qo_having q)
    (append (mkOrder NilExpr false) extra s0 l (m_orders m)).2 (qo_columns q) (qo_intoRecord q) (qo_recordsetOptions q)
    (qo_offset q) (qo_limit q) (qo_idKind q) (qo_startCursor q))).
  destruct (owned_append (mkOrder NilExpr false) extra (m_orders m) (order_owner (m_builders m)) (order_owner (<[i := b']> (m_builders m)))
    (order_reader (m_queries m)) (i, ()) s0 l Ho Hs0) as (Howned & Hothers & Hreaders).
  { intros [j []]. unfold order_owner. simpl. case_decide as Hj; [injection Hj as ->|rewrite list_lookup_insert_ne by congruence; done].
    by rewrite list_lookup_insert_eq by by eapply lookup_lt_Some. }
  pose proof (append_contents (mkOrder NilExpr false) extra s0 l (m_orders m) (owners_valid _ _ _ Ho _ _ Hs0)) as Hnew.
  destruct (append (mkOrder NilExpr false) extra s0 l (m_orders m)) as [os s]. simpl in *. split.
  - split; simpl.
    + apply (owned_ext _ (expr_owner (m_builders m)) _ (expr_reader (m_builders m) (m_queries m)) _); [| |done].
      * intros [j g]. by apply (insert_field (get_field g) _ i b); [destruct g|].
      * intros r. by apply (readers_insert _ _ i b).
    + done.
  - rewrite (shown_insert (m_exprs m) _ (m_orders m)) with (b := b); [|done|..].
    + unfold shown. simpl. do 2 f_equal. unfold builder_value, query_value, OrderBy, set_q. simpl. by rewrite Hnew.
    + intros j c Hne Hc. unfold builder_value, query_value. rewrite (Hothers (j, ())); [done|congruence|]. unfold order_owner. simpl. by rewrite Hc.
    + by apply (queries_kept _ _ _ _ (m_builders m)).
Qed.

(** Setting a number or the cursor. *)
Lemma set_number_ok m i b b' :
  separate m → m_builders m !! i = Some b → (∀ f, get_field f b' = get_field f b) →
  qo_where (bo_q b') = qo_where (bo_q b) → qo_having (bo_q b') = qo_having (bo_q b) → qo_orderBy (bo_q b') = qo_orderBy (bo_q b) →
  separate (mkMemory (m_exprs m) (m_orders m) (<[i := b']> (m_builders m)) (m_queries m)) ∧
  shown (mkMemory (m_exprs m) (m_orders m) (<[i := b']> (m_builders m)) (m_queries m)) =
    (<[i := builder_value (m_exprs m) (m_orders m) b']> (shown m).1, (shown m).2).
Proof.
  intros [He Ho] Hb Hf Hw Hh Hor. split; [split; simpl|by apply (shown_insert _ _ _ _ _ _ _ b)].
  - apply (owned_ext _ (expr_owner (m_builders m)) _ (expr_reader (m_builders m) (m_queries m)) _); [| |done].
    + intros [j g]. by apply (insert_field (get_field g) _ i b).
    + intros r. by apply (readers_insert _ _ i b).
  - apply (owned_ext _ (order_owner (m_builders m)) _ (order_reader (m_queries m)) _); [|done|done].
    intros [j []]. by apply (insert_field (qo_orderBy ∘ bo_q) _ i b).
Qed.

Lemma edit_ok e m i b :
  separate m → m_builders m !! i = Some b →
  match o_edit e with
  | Ret f =>
      let '(es, os, b') := f (m_exprs m) (m_orders m) b in
      separate (mkMemory es os (<[i := b']> (m_builders m)) (m_queries m)) ∧
      ∃ v, v_edit e (builder_value (m_exprs m) (m_orders m) b) = Ret v ∧
        shown (mkMemory es os (<[i := b']> (m_builders m)) (m_queries m)) = (<[i := v]> (shown m).1, (shown m).2)
  | Fail err => v_edit e (builder_value (m_exprs m) (m_orders m) b) = Fail err
  | Panic msg => v_edit e (builder_value (m_exprs m) (m_orders m) b) = Panic msg
  end.
Proof.
  intros Hm Hb.
  assert (∀ f xs, let '(es, os, b') := append_field f xs (m_exprs m) (m_orders m) b in
    separate (mkMemory es os (<[i := b']> (m_builders m)) (m_queries m)) ∧
    ∃ v, Ret (E := unit) (let v := builder_value (m_exprs m) (m_orders m) b in
            match f with FConditions => Where v xs | FHaving => Having v xs | FGroupBy => GroupBy v xs end) = Ret v ∧
      shown (mkMemory es os (<[i := b']> (m_builders m)) (m_queries m)) = (<[i := v]> (shown m).1, (shown m).2)) as Happend.
  { intros f xs. pose proof (append_field_ok f xs m i b Hm Hb) as Hok.
    destruct (append_field f xs (m_exprs m) (m_orders m) b) as [[es os] b']. destruct Hok as [Hs Hv]. split; [done|]. by eexists. }
  destruct e as [cursor|n|n|l|l|l|l|name op v|name v|name v|name vs]; simpl.
  1-3: eapply set_number_ok in Hb as [Hs Hv]; [split; [exact Hs|eexists; split; [|exact Hv]; done]|done..].
  - pose proof (OrderBy_ok l m i b Hm Hb) as Hok. unfold o_OrderBy in *.
    destruct (append _ extra _ l (m_orders m)) as [os s]. destruct Hok as [Hs Hv]. split; [done|]. by eexists.
  - apply (Happend FConditions).
  - apply (Happend FGroupBy).
  - apply (Happend FHaving).
  - unfold o_WhereField, builder_WhereField. destruct (WhereField name op v) as [c|err|msg]; [|done..]. apply (Happend FConditions [c]).
  - apply (Happend FConditions).
  - apply (Happend FConditions).
  - unfold o_WhereArrayContainsAny, WhereArrayContainsAny. destruct vs as [v|e]; simpl.
    + destruct (NewArray v) as [c|err|msg]; [|done..]. simpl. apply (Happend FConditions).
    + destruct e; try done. simpl. apply (Happend FConditions).
Qed.

(** A new object, empty or a copy of one without room. *)
Lemma add_builder_ok m b :
  separate m → (∃ from, b = new_builder from) ∨ (∃ i, m_builders m !! i = Some b ∧ no_room b = true) →
  separate (mkMemory (m_exprs m) (m_orders m) (m_builders m ++ [b]) (m_queries m)).
Proof.
  intros [He Ho] Hb.
  assert (∀ f, get_field f b = nil_slice ∨ ∃ i, m_builders m !! i = Some b ∧ full (get_field f b)) as Hf.
  { intros f. destruct Hb as [[from ->]|(i & Hi & Hroom)]; [left; by destruct f|right]. exists i. split; [done|].
    unfold no_room in Hroom. rewrite !andb_true_iff, !bool_decide_eq_true in Hroom. destruct f; naive_solver. }
  assert (qo_orderBy (bo_q b) = nil_slice ∨ ∃ i, m_builders m !! i = Some b ∧ full (qo_orderBy (bo_q b))) as Hfo.
  { destruct Hb as [[from ->]|(i & Hi & Hroom)]; [by left|right]. exists i. split; [done|].
    unfold no_room in Hroom. rewrite !andb_true_iff, !bool_decide_eq_true in Hroom. naive_solver. }
  split; simpl.
  - eapply (owned_add_object _ get_field); [exact He|done|].
    intros [j|j|j|j|j] t Ht; [..|by exists (QueryWhere j)|by exists (QueryHaving j)|by exists (QueryGroupBy j)].
    all: apply bind_Some in Ht as (c & Hc & Ht); apply lookup_snoc_Some in Hc as [[_ Hc]|[-> <-]].
    + exists (BuilderWhere j). simpl. by rewrite Hc.
    + destruct Hb as [[from ->]|(i & Hi & _)]; [done|]. exists (BuilderWhere i). simpl. by rewrite Hi.
    + exists (BuilderHaving j). simpl. by rewrite Hc.
    + destruct Hb as [[from ->]|(i & Hi & _)]; [done|]. exists (BuilderHaving i). simpl. by rewrite Hi.
  - eapply (owned_add_object _ (λ _ : unit, qo_orderBy ∘ bo_q)); [exact Ho|by intros []|by eauto].
Qed.

(** A query keeps slices that its builder appends to. *)
Lemma clause_of_value es s old :
  valid es s → clause_value es (clause_of es s old) = combine_conditions (contents es s) (clause_value es old).
Proof.
  intros Hs%length_contents. unfold clause_of. rewrite <- Hs. by destruct (contents es s) as [|c1 [|c2 l]] eqn:Hl; simpl; rewrite ?Hl.
Qed.

Lemma clause_of_slice es s old t : clause_slice (clause_of es s old) = Some t → t = s ∨ clause_slice old = Some t.
Proof. unfold clause_of. destruct (s_len s) as [|[|n]]; simpl; [auto|done|]. intros [= <-]. by left. Qed.

Lemma o_select_same sel q :
  qo_where (o_select sel q) = qo_where q ∧ qo_having (o_select sel q) = qo_having q ∧
  qo_groupBy (o_select sel q) = qo_groupBy q ∧ qo_orderBy (o_select sel q) = qo_orderBy q.
Proof. by destruct sel. Qed.

Lemma select_separate sel m i b :
  separate m → m_builders m !! i = Some b →
  let q := o_newQuery (m_exprs m) b in
  separate (mkMemory (m_exprs m) (m_orders m) (<[i := set_qo b q]> (m_builders m)) (m_queries m ++ [o_select sel q])).
Proof.
  intros [He Ho] Hb q.
  assert (∀ f, expr_owner (m_builders m) (i, f) = Some (get_field f b)) as Hown by (intros f; unfold expr_owner; simpl; by rewrite Hb).
  assert (∀ t, clause_slice (qo_where q) = Some t → (∃ r, expr_reader (m_builders m) (m_queries m) r = Some t) ∨ ∃ k, expr_owner (m_builders m) k = Some t) as Hw.
  { intros t [->|Ht]%clause_of_slice; [right; by exists (i, FConditions)|left; exists (BuilderWhere i); simpl; by rewrite Hb]. }
  assert (∀ t, clause_slice (qo_having q) = Some t → (∃ r, expr_reader (m_builders m) (m_queries m) r = Some t) ∨ ∃ k, expr_owner (m_builders m) k = Some t) as Hh.
  { intros t [->|Ht]%clause_of_slice; [right; by exists (i, FHaving)|left; exists (BuilderHaving i); simpl; by rewrite Hb]. }
  destruct (o_select_same sel q) as (Ew & Eh & Eg & Eo). split; simpl; (eapply owned_add_readers; [eassumption|..]).
  - intros [j f]. by apply (insert_field (get_field f) _ i b); [destruct f|].
  - intros [j|j|j|j|j] t Ht; simpl in Ht.
    + destruct (decide (j = i)) as [->|Hne]; [rewrite list_lookup_insert_eq in Ht by (by eapply lookup_lt_Some); by apply Hw|].
      rewrite list_lookup_insert_ne in Ht by done. left. by exists (BuilderWhere j).
    + destruct (decide (j = i)) as [->|Hne]; [rewrite list_lookup_insert_eq in Ht by (by eapply lookup_lt_Some); by apply Hh|].
      rewrite list_lookup_insert_ne in Ht by done. left. by exists (BuilderHaving j).
    + apply bind_Some in Ht as (c & [[_ Hc]|[-> <-]]%lookup_snoc_Some & Ht); [left; exists (QueryWhere j); simpl; by rewrite Hc|].
      rewrite Ew in Ht. by apply Hw.
    + apply bind_Some in Ht as (c & [[_ Hc]|[-> <-]]%lookup_snoc_Some & Ht); [left; exists (QueryHaving j); simpl; by rewrite Hc|].
      rewrite Eh in Ht. by apply Hh.
    + apply fmap_Some in Ht as (c & [[_ Hc]|[-> <-]]%lookup_snoc_Some & ->); [left; exists (QueryGroupBy j); simpl; by rewrite Hc|].
      right. exists (i, FGroupBy). rewrite Eg. apply Hown.
  - intros [j []]. by apply (insert_field (qo_orderBy ∘ bo_q) _ i b).
  - intros j t Ht. apply fmap_Some in Ht as (c & [[_ Hc]|[-> <-]]%lookup_snoc_Some & ->); [left; exists j; unfold order_reader; by rewrite Hc|].
    right. exists (i, ()). unfold order_owner. simpl. rewrite Hb. simpl. by rewrite Eo.
Qed.

Lemma select_shown sel m i b :
  separate m → m_builders m !! i = Some b →
  let q := o_newQuery (m_exprs m) b in
  let v := v_select sel (builder_value (m_exprs m) (m_orders m) b) in
  shown (mkMemory (m_exprs m) (m_orders m) (<[i := set_qo b q]> (m_builders m)) (m_queries m ++ [o_select sel q])) =
    (<[i := v.1]> (shown m).1, (shown m).2 ++ [v.2]).
Proof.
  intros [He _] Hb q v.
  assert (∀ f, valid (m_exprs m) (get_field f b)) as Hval.
  { intros f. apply (owners_valid _ _ _ He (i, f)). unfold expr_owner. simpl. by rewrite Hb. }
  assert (query_value (m_exprs m) (m_orders m) q = (newQuery (builder_value (m_exprs m) (m_orders m) b)).2) as Hq.
  { unfold query_value, newQuery. simpl. by rewrite !clause_of_value by (apply (Hval FConditions) || apply (Hval FHaving)). }
  unfold shown. simpl. rewrite fmap_app. f_equal.
  - rewrite list_fmap_insert. f_equal. destruct sel; simpl; unfold builder_value; simpl; by rewrite Hq.
  - f_equal. simpl. f_equal. unfold v, query_value, newQuery in *. injection Hq as Hq1 Hq2. destruct sel; simpl; by rewrite Hq1, Hq2.
Qed.

Lemma step_shown a m :
  separate m → (∀ i b, a = DoClone i → m_builders m !! i = Some b → no_room b = true) →
  match o_step a m with
  | Ret m' => separate m' ∧ v_step a (shown m) = Ret (shown m')
  | Fail e => v_step a (shown m) = Fail e
  | Panic msg => v_step a (shown m) = Panic msg
  end.
Proof.
  intros Hm Hroom. destruct a as [from|i|i e|i sel]; simpl.
  - split; [apply add_builder_ok; eauto|]. unfold shown. simpl. by rewrite fmap_app.
  - rewrite list_lookup_fmap. destruct (m_builders m !! i) as [b|] eqn:Hb; [|done]. simpl. split.
    + apply add_builder_ok; [done|right]. exists i. split; [done|]. by eapply Hroom.
    + unfold shown. simpl. by rewrite fmap_app.
  - rewrite list_lookup_fmap. destruct (m_builders m !! i) as [b|] eqn:Hb; [|done]. simpl.
    pose proof (edit_ok e m i b Hm Hb) as Hok. destruct (o_edit e) as [f|err|msg]; simpl; [|by rewrite Hok..].
    destruct (f (m_exprs m) (m_orders m) b) as [[es os] b']. destruct Hok as (Hs & v & Hv & Hshown). simpl.
    split; [done|]. by rewrite Hv, Hshown.
  - rewrite list_lookup_fmap. destruct (m_builders m !! i) as [b|] eqn:Hb; [|done]. simpl.
    split; [by apply select_separate|]. rewrite (select_shown sel m i b Hm Hb). by destruct (v_select _ _).
Qed.

Lemma run_shown actions : ∀ m, separate m → clones_full actions m = true → rmap shown (o_run actions m) = v_run actions (shown m).
Proof.
  induction actions as [|a actions IH]; intros m Hm Hfull; [done|]. cbn [o_run v_run clones_full] in *. apply andb_true_iff in Hfull as [Ha Hrest].
  assert (∀ i b, a = DoClone i → m_builders m !! i = Some b → no_room b = true) as Hroom by (intros i b -> Hb; by rewrite Hb in Ha).
  pose proof (step_shown a m Hm Hroom) as Hstep. destruct (o_step a m) as [m'|e|msg]; [|by rewrite Hstep..].
  destruct Hstep as [Hm' ->]. by apply IH.
Qed.

Lemma separate_no_objects : separate no_objects.
Proof. split; split; simpl; intros; repeat (match goal with H : nat * _ |- _ => destruct H | H : reader_name |- _ => destruct H end); done. Qed.

(** C28: builders are values as long as no builder with room is cloned: whatever
    the program does with its builders, each of them, and every query built
    from them, then or before, is what the value builders of DalQuery.v give,
    whatever the runtime reserves when an array grows. *)
Theorem builders_are_values actions (Hclones : clones_full actions no_objects = true) :
  rmap shown (o_run actions no_objects) = v_run actions ([], []).
Proof. exact (run_shown actions no_objects separate_no_objects Hclones). Qed.

Lemma clones_full_without_clones actions : ∀ m, Forall (λ a, ∀ i, a ≠ DoClone i) actions → clones_full actions m = true.
Proof.
  induction actions as [|a actions IH]; intros m Hall; [done|]. inversion Hall as [|? ? Ha Hrest]. subst. simpl.
  apply andb_true_iff. split; [destruct a; [done|by destruct (Ha i)|done..]|]. destruct (o_step a m); [by apply IH|done..].
Qed.

(** A clone of a builder with room shares its array: a condition that is
    added to the builder replaces the one that was added to the clone. *)
Theorem Clone_shares_conditions m i b c1 c2
    (Hb : m_builders m !! i = Some b) (Hvalid : valid (m_exprs m) (bo_conditions b)) (Hroom : ¬ full (bo_conditions b)) :
  ∃ m' clone, o_run [DoClone i; DoEdit (length (m_builders m)) (EWhere [c1]); DoEdit i (EWhere [c2])] m = Ret m' ∧
    m_builders m' !! length (m_builders m) = Some clone ∧
    contents (m_exprs m') (bo_conditions clone) = contents (m_exprs m) (bo_conditions b) ++ [c2].
Proof.
  pose proof (append_overwrites NilExpr extra (bo_conditions b) c1 c2 (m_exprs m) Hvalid Hroom) as [_ Hsame].
  assert (i < length (m_builders m)) as Hi by by eapply lookup_lt_Some.
  simpl. rewrite Hb. simpl. rewrite lookup_app_r, Nat.sub_diag by done. simpl.
  unfold o_Where, append_field. simpl. destruct (append NilExpr extra (bo_conditions b) [c1] (m_exprs m)) as [es1 s1] eqn:E1. simpl.
  rewrite list_lookup_insert_ne, lookup_app_l, Hb by lia. simpl.
  simpl in Hsame. destruct (append NilExpr extra (bo_conditions b) [c2] es1) as [es2 s2] eqn:E2. simpl in *.
  eexists _, _. split; [done|]. simpl. rewrite list_lookup_insert_ne, list_lookup_insert_eq by (rewrite ?length_app; simpl; lia). done.
Qed.
End Builders.

Module BuilderExamples.
(** The growth of Go's runtime for small slices. *)
Definition doubling (cap needed : nat) : nat := 2 * cap - needed.

Definition users : FromSource := @From_ chain_keys (CollectionRef false "users" "" None).
Definition equals (name : string) (n : Z) : Condition := Comparison Equal (NewFieldRef "" name) (Constant (vint n)).

(** A base query with two conditions, cloned twice. *)
Definition two_conditions : list (action (H := chain_keys)) :=
  [DoNew users; DoEdit 0 (EWhere [equals "a" 1]); DoEdit 0 (EWhere [equals "b" 2]);
   DoClone 0; DoEdit 1 (EWhere [equals "c" 3]); DoSelect 1 (KeysOnly 0);
   DoClone 0; DoEdit 2 (EWhere [equals "d" 4]); DoSelect 2 (KeysOnly 0)].

Lemma builders_are_values_witness :
  clones_full doubling two_conditions no_objects = true ∧
  rmap shown (o_run doubling two_conditions no_objects) = v_run two_conditions ([], []).
Proof. split; [vm_compute; reflexivity|]. apply (builders_are_values doubling two_conditions). vm_compute. reflexivity. Defined.

(** With three conditions the array has room for a fourth. *)
Definition three_conditions (last : list (action (H := chain_keys))) : list (action (H := chain_keys)) :=
  [DoNew users; DoEdit 0 (EWhere [equals "a" 1]); DoEdit 0 (EWhere [equals "b" 2]); DoEdit 0 (EWhere [equals "c" 3])] ++ last.

Definition three : memory (H := chain_keys) :=
  match o_run doubling (three_conditions []) no_objects with Ret m => m | _ => no_objects end.

Lemma Clone_shares_conditions_witness :
  ∃ m' clone, o_run doubling [DoClone 0; DoEdit 1 (EWhere [equals "d" 4]); DoEdit 0 (EWhere [equals "e" 5])] three = Ret m' ∧
    m_builders m' !! 1 = Some clone ∧ contents (m_exprs m') (bo_conditions clone) = [equals "a" 1; equals "b" 2; equals "c" 3; equals "e" 5].
Proof.
  refine (Clone_shares_conditions doubling three 0 _ (equals "d" 4) (equals "e" 5) eq_refl _ _).
  - eexists. vm_compute. split_and!; [reflexivity..|repeat constructor].
  - by vm_compute.
Defined.

(** A query that was built from one clone gets the condition of another. *)
Definition first_where (program : list (action (H := chain_keys))) : option Condition :=
  match o_run doubling program no_objects with
  | Ret m => match shown m with (_, q :: _) => q_where q | _ => None end
  | _ => None
  end.
Definition clone_built : list (action (H := chain_keys)) :=
  three_conditions [DoClone 0; DoEdit 1 (EWhere [equals "d" 4]); DoSelect 1 (KeysOnly 0); DoClone 0].

Example built_query_changes :
  first_where clone_built = Some (GroupCondition And [equals "a" 1; equals "b" 2; equals "c" 3; equals "d" 4]) ∧
  first_where (clone_built ++ [DoEdit 2 (EWhere [equals "e" 5])]) = Some (GroupCondition And [equals "a" 1; equals "b" 2; equals "c" 3; equals "e" 5]).
Proof. by vm_compute. Qed.
End BuilderExamples.
