(* ===== verification/Orm.v ===== *)
(** * Typed fields (src/orm)

    A field of a collection knows the Go type of its values and makes conditions
    about itself.  The type parameter [T] is a [gotype]; a value of type [T] is
    a dynamic value. *)

From Stdlib Require Import String.
From stdpp Require Import base list strings.
From S2P Require Import Prelude GoValues GoTypes GoStrings RecordKey DalQuery DalString.

Local Open Scope string_scope.
Local Open Scope list_scope.

(** [reflect.Kind.String] of a type *)
Definition kind_name (t : gotype) : string :=
  match t with
  | TBool _ => "bool"
  | TInt _ k => match k with KInt => "int" | KInt8 => "int8" | KInt16 => "int16" | KInt32 => "int32" | KInt64 => "int64" end
  | TUint _ k =>
      match k with
      | KUint => "uint" | KUint8 => "uint8" | KUint16 => "uint16" | KUint32 => "uint32" | KUint64 => "uint64" | KUintptr => "uintptr"
      end
  | TFloat _ k => match k with KFloat32 => "float32" | KFloat64 => "float64" end
  | TString _ => "string"
  | TSlice _ => "slice"
  | TMap _ _ => "map"
  | TPointer _ => "ptr"
  | TFunc _ => "func"
  | TInterface _ => "interface"
  | TArray _ _ _ => "array"
  | TStruct _ _ => "struct"
  end.

Record FieldDefinition := mkField { f_name : string; f_valueType : string; f_isRequired : bool; f_defaultVal : value }.

Definition FieldOption : Type := FieldDefinition → FieldDefinition.
Definition Required : FieldOption := λ f, mkField (f_name f) (f_valueType f) true (f_defaultVal f).
Definition Default (v : value) : FieldOption := λ f, mkField (f_name f) (f_valueType f) (f_isRequired f) v.

Section Fields.
Context (T : gotype).

(** [reflect.TypeOf] of a nil interface is nil, and its methods cannot be
    called. *)
Definition NewFieldWithType (name valueType : string) (options : list FieldOption) : res unit FieldDefinition :=
  if String.eqb (TrimSpace name) "" then Panic "name cannot be empty"
  else if is_interface T then Panic nil_dereference
  else if negb (String.eqb (kind_name T) "any") && negb (String.eqb (kind_name T) valueType)
  then Panic ("valueType must be " +:+ kind_name T)
  else Ret (fold_left (λ f o, o f) options (mkField name valueType false (zero_value T))).

Definition NewField (name : string) (options : list FieldOption) : res unit FieldDefinition :=
  if is_interface T then Panic nil_dereference else NewFieldWithType name (Type_Name T) options.
End Fields.

Definition CompareTo (f : FieldDefinition) (operator : Operator) (expression : Expression) : Condition :=
  NewComparison (NewFieldRef "" (f_name f)) operator expression.
Definition field_EqualTo (f : FieldDefinition) (v : value) : Condition := CompareTo f Equal (Constant v).

(** [NewField] makes fields of the types that are named after their kind, that
    is, of the predeclared types, and panics for all others. *)
Lemma NewField_predeclared T name options :
  (∃ f, NewField T name options = Ret f) ↔ TrimSpace name ≠ "" ∧ is_interface T = false ∧ Type_Name T = kind_name T.
Proof.
  unfold NewField, NewFieldWithType. destruct (is_interface T) eqn:Hi; [split; [by intros [f ?]|naive_solver]|].
  destruct (String.eqb_spec (TrimSpace name) "") as [Hn|Hn]; [split; [by intros [f ?]|naive_solver]|].
  assert (String.eqb (kind_name T) "any" = false) as -> by (destruct T as [|? []|? []|? []| | | | | | | |]; done). simpl.
  destruct (String.eqb_spec (kind_name T) (Type_Name T)) as [Ht|Ht]; simpl; [split; [naive_solver|eauto]|split; [by intros [f ?]|naive_solver]].
Qed.


Module OrmExamples.
Example email : NewField (TString "string") "Email" [Required] = Ret (mkField "Email" "string" true (vstr "")).
Proof. reflexivity. Qed.
Example time_panics : NewField (TStruct "time.Time" []) "Created" [] = Panic "valueType must be struct".
Proof. reflexivity. Qed.
End OrmExamples.
