(* ===== verification/DalReader.v ===== *)
(** * Readers of query results (src/dal: reader_read_all.go, query_select_funcs.go,
    reader_slice_records.go, reader_empty.go, errors.go)

    A reader is an object with a state; what it does is a record of functions
    on that state.  [SelectAll] drains a reader through a window of offset and
    limit; it is proved to deliver exactly that window of a slice. *)

From Stdlib Require Import String.
From stdpp Require Import base list strings pretty.
From S2P Require Import Prelude.

Local Open Scope string_scope.
Local Open Scope nat_scope.
Local Open Scope list_scope.

(** ** Errors

    An error wraps others; [errors.Is] looks for a sentinel along the chain. *)

Inductive reader_error :=
| EOF
| ErrNoMoreRecords
| ErrLimitReached
| no_records_slice
| ErrReaderClosed
| ErrReaderNotStarted
| failed_to_close (e : reader_error)
| failed_to_skip (e : reader_error)
| failed_to_get_next (e : reader_error)
| failed_to_get_reader (e : reader_error)
| reader_failure (text : string).

#[export] Instance reader_error_eq_dec : EqDecision reader_error.
Proof. solve_decision. Defined.

(** What [Unwrap] returns. *)
Definition unwrap (e : reader_error) : option reader_error :=
  match e with
  | ErrNoMoreRecords => Some EOF
  | ErrLimitReached => Some ErrNoMoreRecords
  | failed_to_close e | failed_to_skip e | failed_to_get_next e | failed_to_get_reader e => Some e
  | _ => None
  end.

Fixpoint errors_Is (e target : reader_error) {struct e} : bool :=
  bool_decide (e = target) ||
  match e with
  | ErrNoMoreRecords => bool_decide (target = EOF)
  | ErrLimitReached => bool_decide (target = ErrNoMoreRecords) || bool_decide (target = EOF)
  | failed_to_close e | failed_to_skip e | failed_to_get_next e | failed_to_get_reader e => errors_Is e target
  | _ => false
  end.

Lemma errors_Is_unwrap e target :
  errors_Is e target = bool_decide (e = target) || match unwrap e with Some e' => errors_Is e' target | None => false end.
Proof. destruct e; simpl; rewrite ?orb_false_r; try done; by destruct target. Qed.

(** ** Options of a read *)

Record ReaderOptions := mkReaderOptions { ro_offset : Z; ro_limit : Z }.
Definition ReaderOption : Type := ReaderOptions → ReaderOptions.

Definition WithLimit (limit : Z) : ReaderOption := λ ro, mkReaderOptions (ro_offset ro) limit.
Definition WithOffset (offset : Z) : ReaderOption := λ ro, mkReaderOptions offset (ro_limit ro).
Definition newReaderOptions (options : list ReaderOption) : ReaderOptions :=
  fold_left (λ ro o, o ro) options (mkReaderOptions 0 0).

(** ** Readers *)

Record Reader (S R : Type) := mkReader {
  Next : S → S * (R + reader_error);
  Cursor : S → string + reader_error;
  Close : S → S * option reader_error;
}.
Arguments mkReader {S R}.
Arguments Next {S R}.
Arguments Cursor {S R}.
Arguments Close {S R}.

(** A context tells at its [n]th check whether it is done; [None] is the nil
    context. *)
Definition context : Type := option (nat → option reader_error).
Definition ctx_check (ctx : context) (n : nat) : option reader_error :=
  match ctx with Some done_ => done_ n | None => None end.

(** Where a loop of reads ends: at its bound, at a [return] with an error or
    nil, or out of fuel. *)
Inductive loop_end := at_bound | returned (err : option reader_error) | out_of_fuel.

Section Select.
Context {S R A : Type} (reader : Reader S R) (ctx : context) (addItem : R → A → A).

(** [for offset > 0]: the number of context checks, the reader, and the end. *)
Fixpoint skip_records (offset : nat) (n : nat) (s : S) : nat * S * loop_end :=
  match offset with
  | 0 => (n, s, at_bound)
  | Datatypes.S offset =>
      match ctx_check ctx n with
      | Some err => (Datatypes.S n, s, returned (Some err))
      | None =>
          match Next reader s with
          | (s, inr e) => (Datatypes.S n, s, returned (if errors_Is e ErrNoMoreRecords then None else Some e))
          | (s, inl _) => skip_records offset (Datatypes.S n) s
          end
      end
  end.

(** The loop of a read without limit; only this loop needs fuel. *)
Fixpoint read_all (fuel : nat) (n : nat) (s : S) (acc : A) : S * A * loop_end :=
  match fuel with
  | 0 => (s, acc, out_of_fuel)
  | Datatypes.S fuel =>
      match ctx_check ctx n with
      | Some err => (s, acc, returned (Some err))
      | None =>
          match Next reader s with
          | (s, inr e) => (s, acc, returned (if errors_Is e EOF then None else Some e))
          | (s, inl r) => read_all fuel (Datatypes.S n) s (addItem r acc)
          end
      end
  end.

Fixpoint read_some (limit : nat) (n : nat) (s : S) (acc : A) : S * A * loop_end :=
  match limit with
  | 0 => (s, acc, at_bound)
  | Datatypes.S limit =>
      match ctx_check ctx n with
      | Some err => (s, acc, returned (Some err))
      | None =>
          match Next reader s with
          | (s, inr e) => (s, acc, returned (if errors_Is e ErrNoMoreRecords then None else Some e))
          | (s, inl r) => read_some limit (Datatypes.S n) s (addItem r acc)
          end
      end
  end.

Definition select_body (fuel : nat) (ro : ReaderOptions) (s : S) (acc : A) : S * A * loop_end :=
  match skip_records (Z.to_nat (ro_offset ro)) 0 s with
  | (n, s, at_bound) =>
      if (ro_limit ro <=? 0)%Z then read_all fuel n s acc else read_some (Z.to_nat (ro_limit ro)) n s acc
  | (_, s, end_) => (s, acc, end_)
  end.

(** The deferred [Close]: its error is returned when there is no other.
    [None] is a read that does not end within the fuel. *)
Definition close_after (s : S) (err : option reader_error) : S * option reader_error :=
  let '(s, close_err) := Close reader s in
  (s, match err with Some e => Some e | None => failed_to_close <$> close_err end).

Definition SelectAll (fuel : nat) (options : list ReaderOption) (s : S) (acc : A)
  : option (S * A * option reader_error) :=
  match select_body fuel (newReaderOptions options) s acc with
  | (_, _, out_of_fuel) => None
  | (s, acc, end_) =>
      let '(s, err) := close_after s (match end_ with returned err => err | _ => None end) in
      Some (s, acc, err)
  end.
End Select.

(** A nil reader panics before anything else. *)
Definition SelectAll_nilable {S R A} (reader : option (Reader S R)) ctx (addItem : R → A → A) fuel options s acc
  : res unit (option (S * A * option reader_error)) :=
  match reader with
  | None => Panic "reader is a required parameter, got nil"
  | Some reader => Ret (SelectAll reader ctx addItem fuel options s acc)
  end.

(** [return records, SelectAll(...)]: the language does not say whether the
    variable [records] is evaluated before or after the call that appends to
    it; [call_first] is what the official compiler does. *)
Definition ReadAllToRecords {S R} (call_first : bool) (reader : Reader S R) ctx fuel options s
  : option (S * list R * option reader_error) :=
  match SelectAll reader ctx (λ r records, records ++ [r]) fuel options s [] with
  | Some (s, records, err) => Some (s, if call_first then records else [], err)
  | None => None
  end.

(** An executor of queries returns a reader or an error. *)
Definition ExecuteQueryAndReadAllToRecords {S R} (call_first : bool) (reader : Reader S R) ctx fuel options
    (execute : S + reader_error) : option (option S * list R * option reader_error) :=
  match execute with
  | inr e => Some (None, [], Some e)
  | inl s =>
      (λ r, (Some r.1.1, r.1.2, r.2)) <$> ReadAllToRecords call_first reader ctx fuel options s
  end.

(** ** Draining a recordset reader

    The rows go into the recordset the reader shows, so only the reader's state
    and the error come back.  The loop with a limit ends by the limit, the one
    without by the reader. *)

Section Recordset.
Context {S R : Type} (reader : Reader S R) (ctx : context).

Definition ends_rows (e : reader_error) : bool := errors_Is e ErrNoMoreRecords || errors_Is e EOF.
Definition next_error (e : reader_error) : option reader_error :=
  if ends_rows e then None else Some (failed_to_get_next e).

Fixpoint skip_rows (offset : nat) (n : nat) (s : S) : nat * S * loop_end :=
  match offset with
  | 0 => (n, s, at_bound)
  | Datatypes.S offset =>
      match ctx_check ctx n with
      | Some err => (Datatypes.S n, s, returned (Some err))
      | None =>
          match Next reader s with
          | (s, inr e) =>
              (Datatypes.S n, s, returned (if errors_Is e ErrNoMoreRecords then None else Some (failed_to_skip e)))
          | (s, inl _) => skip_rows offset (Datatypes.S n) s
          end
      end
  end.

Fixpoint fill_all (fuel : nat) (n : nat) (s : S) : S * loop_end :=
  match fuel with
  | 0 => (s, out_of_fuel)
  | Datatypes.S fuel =>
      match ctx_check ctx n with
      | Some err => (s, returned (Some err))
      | None =>
          match Next reader s with
          | (s, inr e) => (s, returned (next_error e))
          | (s, inl _) => fill_all fuel (Datatypes.S n) s
          end
      end
  end.

(** [wanted] rows are still to come; [rowsCount >= limit] is [wanted = 0]. *)
Fixpoint fill_some (wanted : nat) (n : nat) (s : S) : S * loop_end :=
  match wanted with
  | 0 => (s, returned (Some ErrLimitReached))
  | Datatypes.S wanted =>
      match ctx_check ctx n with
      | Some err => (s, returned (Some err))
      | None =>
          match Next reader s with
          | (s, inr e) => (s, returned (next_error e))
          | (s, inl _) => fill_some wanted (Datatypes.S n) s
          end
      end
  end.

Definition ExecuteQueryAndReadAllToRecordset (fuel : nat) (options : list ReaderOption)
    (execute : S + reader_error) : option (option S * option reader_error) :=
  match execute with
  | inr e => Some (None, Some (failed_to_get_reader e))
  | inl s =>
      let ro := newReaderOptions options in
      let '(s, end_) :=
        match skip_rows (Z.to_nat (ro_offset ro)) 0 s with
        | (n, s, at_bound) =>
            if (ro_limit ro <=? 0)%Z then fill_all fuel n s else fill_some (Z.to_nat (ro_limit ro)) n s
        | (_, s, end_) => (s, end_)
        end in
      match end_ with
      | out_of_fuel => None
      | _ =>
          let '(s, err) := close_after reader s (match end_ with returned err => err | _ => None end) in
          Some (Some s, err)
      end
  end.
End Recordset.

(** ** The reader of a slice *)

Section SliceReader.
Context {R : Type}.

(** [rr_records] is [None] for the nil slice. *)
Record recordsReader := mkRecordsReader { rr_current : Z; rr_records : option (list R) }.

Definition NewRecordsReader (records : option (list R)) : recordsReader := mkRecordsReader (-1) records.

Definition slice_Next (r : recordsReader) : recordsReader * (R + reader_error) :=
  match rr_records r with
  | None => (r, inr no_records_slice)
  | Some l =>
      let r := mkRecordsReader (rr_current r + 1) (Some l) in
      if (Z.of_nat (length l) <=? rr_current r)%Z then (r, inr ErrNoMoreRecords)
      else
        match l !! Z.to_nat (rr_current r) with
        | Some x => (r, inl x)
        | None => (r, inr ErrNoMoreRecords)
        end
  end.

Definition slice_Cursor (r : recordsReader) : string + reader_error :=
  if (Z.of_nat (length (default [] (rr_records r))) <=? rr_current r)%Z then inr ErrReaderClosed
  else if (rr_current r <? 0)%Z then inr ErrReaderNotStarted
  else inl (pretty (rr_current r)).

Definition slice_Close (r : recordsReader) : recordsReader * option reader_error :=
  (mkRecordsReader (rr_current r) None, None).

Definition slice_reader : Reader recordsReader R := mkReader slice_Next slice_Cursor slice_Close.

(** [EmptyReader] *)
Definition EmptyReader : Reader unit R :=
  mkReader (λ s, (s, inr ErrNoMoreRecords)) (λ _, inr (reader_failure "not supported")) (λ s, (s, None)).
End SliceReader.
Arguments recordsReader R : clear implicits.

(** ** What a read delivers *)

Section Window.
Context {R A : Type} (addItem : R → A → A).

(** The items a read is meant to deliver. *)
Definition window (ro : ReaderOptions) (l : list R) : list R :=
  let rest := drop (Z.to_nat (ro_offset ro)) l in
  if (ro_limit ro <=? 0)%Z then rest else take (Z.to_nat (ro_limit ro)) rest.

Definition add_all (items : list R) (acc : A) : A := fold_left (λ acc r, addItem r acc) items acc.

Definition never_done (ctx : context) : Prop := ∀ n, ctx_check ctx n = None.

(** A loop over the items [w] ended well: it added a prefix of them, all of
    them unless the context was done. *)
Definition delivers (ctx : context) (w : list R) (acc : A) (r : recordsReader R * A * loop_end) : Prop :=
  ∃ k, r.1.2 = add_all (take k w) acc ∧
    match r.2 with
    | at_bound | returned None => length w ≤ k
    | returned (Some _) => ¬ never_done ctx
    | out_of_fuel => False
    end.

Lemma slice_Next_at (l : list R) (i : nat) :
  slice_Next (mkRecordsReader (Z.of_nat i - 1) (Some l)) =
  (mkRecordsReader (Z.of_nat i) (Some l), match l !! i with Some x => inl x | None => inr ErrNoMoreRecords end).
Proof.
  unfold slice_Next; simpl. replace (Z.of_nat i - 1 + 1)%Z with (Z.of_nat i) by lia.
  rewrite Nat2Z.id. destruct (Z.leb_spec (Z.of_nat (length l)) (Z.of_nat i)) as [H|H].
  - by rewrite lookup_ge_None_2 by lia.
  - by destruct (l !! i).
Qed.

Lemma drop_lookup (l : list R) i :
  drop i l = match l !! i with Some x => x :: drop (Datatypes.S i) l | None => [] end.
Proof.
  destruct (l !! i) as [x|] eqn:E; [by apply drop_S | by apply drop_ge, lookup_ge_None].
Qed.

Lemma delivers_cons ctx x w acc r :
  delivers ctx w (addItem x acc) r → delivers ctx (x :: w) acc r.
Proof.
  intros [k [Hk He]]. exists (Datatypes.S k). split; [done|].
  destruct r.2 as [|[]|]; simpl; try lia; done.
Qed.

Lemma done_not_never ctx n err : ctx_check ctx n = Some err → ¬ never_done ctx.
Proof. intros H N. by rewrite N in H. Qed.

Lemma next_index i : Z.of_nat i = (Z.of_nat (Datatypes.S i) - 1)%Z.
Proof. lia. Qed.

Lemma read_all_delivers ctx (l : list R) : ∀ fuel n i acc,
  length l - i < fuel →
  delivers ctx (drop i l) acc (read_all slice_reader ctx addItem fuel n (mkRecordsReader (Z.of_nat i - 1) (Some l)) acc).
Proof.
  induction fuel as [|fuel IH]; intros n i acc Hf; [lia|].
  cbn [read_all Next slice_reader]. destruct (ctx_check ctx n) as [e|] eqn:C.
  - exists 0. split; [done|]. by eapply done_not_never.
  - rewrite slice_Next_at, (drop_lookup l i). destruct (l !! i) as [x|] eqn:E; simpl.
    + apply delivers_cons. rewrite next_index. apply IH. apply lookup_lt_Some in E. lia.
    + exists 0. split; simpl; [done|lia].
Qed.

Lemma read_some_delivers ctx (l : list R) : ∀ limit n i acc,
  delivers ctx (take limit (drop i l)) acc
    (read_some slice_reader ctx addItem limit n (mkRecordsReader (Z.of_nat i - 1) (Some l)) acc).
Proof.
  induction limit as [|limit IH]; intros n i acc; [exists 0; split; simpl; [done|lia]|].
  cbn [read_some Next slice_reader]. destruct (ctx_check ctx n) as [e|] eqn:C.
  - exists 0. split; [done|]. by eapply done_not_never.
  - rewrite slice_Next_at, (drop_lookup l i). destruct (l !! i) as [x|] eqn:E; simpl.
    + apply delivers_cons. rewrite next_index. apply IH.
    + exists 0. split; simpl; [done|lia].
Qed.

Lemma skip_records_slice ctx (l : list R) : ∀ offset n i,
  match skip_records slice_reader ctx offset n (mkRecordsReader (Z.of_nat i - 1) (Some l)) with
  | (_, s, at_bound) => s = mkRecordsReader (Z.of_nat (i + offset) - 1) (Some l)
  | (_, _, returned None) => length l ≤ i + offset
  | (_, _, returned (Some _)) => ¬ never_done ctx
  | (_, _, out_of_fuel) => False
  end.
Proof.
  induction offset as [|offset IH]; intros n i; simpl; [by rewrite Nat.add_0_r|].
  destruct (ctx_check ctx n) as [e|] eqn:C; [by eapply done_not_never|].
  rewrite slice_Next_at. destruct (l !! i) as [x|] eqn:E; simpl.
  - rewrite (next_index i). specialize (IH (Datatypes.S n) (Datatypes.S i)).
    by rewrite Nat.add_succ_comm in IH.
  - apply lookup_ge_None in E. lia.
Qed.

Lemma select_body_delivers ctx (l : list R) fuel ro acc :
  length l < fuel →
  delivers ctx (window ro l) acc (select_body slice_reader ctx addItem fuel ro (NewRecordsReader (Some l)) acc).
Proof.
  intros Hf. unfold select_body, window, NewRecordsReader.
  generalize (skip_records_slice ctx l (Z.to_nat (ro_offset ro)) 0 0); simpl.
  change (Z.of_nat 0 - 1)%Z with (-1)%Z.
  destruct (skip_records _ _ _ _ _) as [[n s] [|[err|]|]]; intros Hs; simpl; try done.
  - subst s. destruct (ro_limit ro <=? 0)%Z; [apply read_all_delivers; lia|apply read_some_delivers].
  - by exists 0.
  - exists 0. split; [done|]. simpl. rewrite (drop_ge l) by lia. rewrite take_nil. by destruct (_ <=? _)%Z.
Qed.

(** C27: [SelectAll] of a slice returns: it hands over the records from
    [offset] on, [limit] of them at most when the limit is positive, each once
    and in order; it fails only when its context is done, has then handed
    over a prefix of them, and the reader is closed in every case. *)
Theorem SelectAll_window ctx options (l : list R) fuel acc :
  length l < fuel →
  let w := window (newReaderOptions options) l in
  ∃ k s err,
    SelectAll slice_reader ctx addItem fuel options (NewRecordsReader (Some l)) acc
      = Some (s, add_all (take k w) acc, err) ∧
    rr_records s = None ∧
    (err = None → length w ≤ k) ∧
    (never_done ctx → err = None).
Proof.
  intros Hf w. destruct (select_body_delivers ctx l fuel (newReaderOptions options) acc Hf) as [k [Hk He]].
  exists k. unfold SelectAll, w.
  destruct (select_body _ _ _ _ _ _ _) as [[s a] end_]. simpl in Hk, He. subst a.
  destruct end_ as [|[err|]|]; simpl; try done;
    (eexists _, _; split; [reflexivity|]; split; [done|]; split; [done || (by intros _)|]; done || tauto).
Qed.
End Window.

(** A slice that is read as a whole comes back. *)
Lemma add_all_snoc {R} (l acc : list R) : add_all (λ r records, records ++ [r]) l acc = acc ++ l.
Proof.
  unfold add_all. revert acc. induction l as [|x l IH]; intros acc; simpl; [by rewrite app_nil_r|].
  by rewrite IH, <- app_assoc.
Qed.

Lemma ReadAllToRecords_slice {R} ctx (l : list R) fuel :
  never_done ctx → length l < fuel →
  ∃ s, ReadAllToRecords true slice_reader ctx fuel [] (NewRecordsReader (Some l)) = Some (s, l, None).
Proof.
  intros Hctx Hf. unfold ReadAllToRecords, SelectAll.
  destruct (select_body_delivers (λ r records, records ++ [r]) ctx l fuel (newReaderOptions []) [] Hf) as [k [Hk He]].
  destruct (select_body _ _ _ _ _ _ _) as [[s a] end_]. simpl in Hk, He. subst a.
  rewrite add_all_snoc. destruct end_ as [|[err|]|]; simpl; try done; rewrite take_ge by (simpl in *; lia); eauto.
Qed.

(** The same read of a reader that ends with a plain [io.EOF] succeeds without
    a limit and fails with one. *)
Definition eof_reader {R} : Reader unit R :=
  mkReader (λ s, (s, inr EOF)) (λ _, inr EOF) (λ s, (s, None)).

Lemma SelectAll_of_plain_EOF {R A} (addItem : R → A → A) acc limit :
  (0 < limit)%Z →
  SelectAll eof_reader None addItem 1 [] tt acc = Some (tt, acc, None) ∧
  SelectAll eof_reader None addItem 1 [WithLimit limit] tt acc = Some (tt, acc, Some EOF).
Proof.
  intros H. split; [done|]. unfold SelectAll, select_body; simpl.
  destruct (Z.leb_spec limit 0); [lia|]. by destruct (Z.to_nat limit) eqn:E; [lia|].
Qed.

(** Were the returned variable read before the call, no record would come back. *)
Lemma ReadAllToRecords_order {S R} (reader : Reader S R) ctx fuel options s r :
  ReadAllToRecords false reader ctx fuel options s = Some r → r.1.2 = [].
Proof. unfold ReadAllToRecords. destruct (SelectAll _ _ _ _ _ _ _) as [[[]]|]; naive_solver. Qed.

Module ReaderExamples.

Lemma SelectAll_window_witness :
  SelectAll slice_reader (Some (λ _, None)) (λ (r : nat) l, l ++ [r]) 6 [WithOffset 1; WithLimit 3]
    (NewRecordsReader (Some [10; 11; 12; 13; 14])) []
    = Some (mkRecordsReader 3 None, [11; 12; 13], None) ∧
  ∃ k s err,
    SelectAll slice_reader (Some (λ _, None)) (λ (r : nat) l, l ++ [r]) 6 [WithOffset 1; WithLimit 3]
      (NewRecordsReader (Some [10; 11; 12; 13; 14])) []
      = Some (s, add_all (λ r l, l ++ [r]) (take k [11; 12; 13]) [], err) ∧
    rr_records s = None ∧ (err = None → 3 ≤ k) ∧ (never_done (Some (λ _, None)) → err = None).
Proof.
  split; [reflexivity|].
  exact (SelectAll_window (λ r l, l ++ [r]) (Some (λ _, None)) [WithOffset 1; WithLimit 3] [10; 11; 12; 13; 14] 6 []
    ltac:(vm_compute; lia)).
Defined.

(** A done context stops a read in the middle. *)
Example cancelled_read :
  SelectAll slice_reader (Some (λ n, if n <? 2 then None else Some (reader_failure "context canceled")))
    (λ (r : nat) l, l ++ [r]) 9 [] (NewRecordsReader (Some [1; 2; 3])) []
  = Some (mkRecordsReader 1 None, [1; 2], Some (reader_failure "context canceled")).
Proof. reflexivity. Qed.

Example limited_rows :
  ExecuteQueryAndReadAllToRecordset slice_reader None 9 [WithLimit 2] (inl (NewRecordsReader (Some [1; 2; 3])))
  = Some (Some (mkRecordsReader 1 None), Some ErrLimitReached).
Proof. reflexivity. Qed.

End ReaderExamples.
