(* ===== verification/DalTransaction.v ===== *)
(** * Transactions: contexts and options (src/dal: transaction.go)

    A transaction travels in a context together with the context it was started
    from; nested transactions keep the outermost one.  [T] are the values of
    the interface [Transaction]; a nil interface is [None]. *)

From Stdlib Require Import String.
From stdpp Require Import base list strings pretty.
From S2P Require Import Prelude.

Local Open Scope string_scope.
Local Open Scope nat_scope.
Local Open Scope list_scope.
Set Warnings "-register-all".

(** ** Contexts *)

Lemma last_of_cons {A} (x : A) l : ∃ y, last (x :: l) = Some y.
Proof. revert x. induction l as [|z l IH]; intros x; [by eexists|apply IH]. Qed.

Section Contexts.
Context {T : Type}.

(** A context of the standard library is a chain of values over a root;
    [WithOther] stands for every derivation that sets neither key. *)
Inductive gocontext :=
| Root (name : string)
| WithOther (parent : gocontext) (what : string)
| WithOriginal (parent original : gocontext)
| WithTransaction (parent : gocontext) (tx : option T).

(** [ctx.Value(&transactionContextKey)]; a nil transaction reads as nil. *)
Fixpoint Value_transaction (c : gocontext) : option T :=
  match c with
  | Root _ => None
  | WithTransaction _ tx => tx
  | WithOther parent _ | WithOriginal parent _ => Value_transaction parent
  end.

(** [ctx.Value(&nonTransactionalContextKey)] *)
Fixpoint Value_original (c : gocontext) : option gocontext :=
  match c with
  | Root _ => None
  | WithOriginal _ original => Some original
  | WithOther parent _ | WithTransaction parent _ => Value_original parent
  end.

Definition NewContextWithTransaction (nonTransactionalContext : gocontext) (tx : option T) : gocontext :=
  let originalContext :=
    match Value_transaction nonTransactionalContext with
    | Some _ => default nonTransactionalContext (Value_original nonTransactionalContext)
    | None => nonTransactionalContext
    end in
  WithTransaction (WithOriginal nonTransactionalContext originalContext) tx.

Definition GetTransaction (c : gocontext) : option T := Value_transaction c.

(** The type assertion panics when the context has no transaction. *)
Definition GetNonTransactionalContext (c : gocontext) : res unit gocontext :=
  match Value_original c with
  | Some original => Ret original
  | None => Panic "interface conversion: interface is nil, not context.Context"
  end.

(** ** Nested transactions *)

(** How a context is derived: another value, or a transaction. *)
Inductive derivation := ByOther (what : string) | ByTransaction (tx : T).

Definition derive (c : gocontext) (d : derivation) : gocontext :=
  match d with
  | ByOther what => WithOther c what
  | ByTransaction tx => NewContextWithTransaction c (Some tx)
  end.
Definition derive_all (ds : list derivation) (c : gocontext) : gocontext := fold_left derive ds c.

Definition transactions (ds : list derivation) : list T :=
  omap (λ d, match d with ByTransaction tx => Some tx | ByOther _ => None end) ds.

Lemma Value_transaction_derive_all ds c :
  Value_transaction (derive_all ds c) = match last (transactions ds) with Some tx => Some tx | None => Value_transaction c end.
Proof.
  revert c. induction ds as [|d ds IH]; intros c; [done|]. change (derive_all (d :: ds) c) with (derive_all ds (derive c d)).
  rewrite IH. destruct d as [what|tx]; [done|].
  change (transactions (ByTransaction tx :: ds)) with (tx :: transactions ds).
  destruct (transactions ds) as [|t ts]; [done|]. change (last (tx :: t :: ts)) with (last (t :: ts)).
  by destruct (last_of_cons t ts) as [x ->].
Qed.

Lemma Value_original_derive_all ds c o tx :
  Value_original c = Some o → Value_transaction c = Some tx → Value_original (derive_all ds c) = Some o.
Proof.
  revert c tx. induction ds as [|d ds IH]; intros c tx Ho Ht; [done|].
  change (derive_all (d :: ds) c) with (derive_all ds (derive c d)). destruct d as [what|tx']; simpl.
  - by eapply IH.
  - apply (IH _ tx'); [simpl; by rewrite Ht, Ho|done].
Qed.

(** C37: however contexts and transactions are nested, the transaction of a
    context is the innermost one, and its non-transactional context is the one
    that the outermost transaction was put in. *)
Theorem nested_transactions c before tx rest :
  Value_transaction c = None → transactions before = [] →
  let started := derive_all before c in
  let inner := derive_all rest (NewContextWithTransaction started (Some tx)) in
  GetTransaction inner = last (tx :: transactions rest) ∧
  GetNonTransactionalContext inner = Ret started.
Proof.
  intros Hc Hb started inner.
  assert (Hs : Value_transaction started = None) by (unfold started; by rewrite Value_transaction_derive_all, Hb).
  split.
  - unfold GetTransaction, inner. rewrite Value_transaction_derive_all. simpl.
    destruct (transactions rest) as [|t ts]; [done|]. change (last (tx :: t :: ts)) with (last (t :: ts)).
    by destruct (last_of_cons t ts) as [x ->].
  - unfold GetNonTransactionalContext, inner.
    rewrite (Value_original_derive_all rest _ started tx); [done| |done]. simpl. by rewrite Hs.
Qed.

Lemma no_original_panics name : ∃ msg, GetNonTransactionalContext (Root name) = Panic msg.
Proof. by eexists. Qed.
End Contexts.
Arguments gocontext T : clear implicits.
Arguments derivation T : clear implicits.

(** ** Options of transactions *)

Definition TxUnspecified : Z := 0.
Definition TxChaos : Z := 1.
Definition TxReadCommitted : Z := 2.
Definition TxReadUncommitted : Z := 3.
Definition TxRepeatableRead : Z := 4.
Definition TxSerializable : Z := 5.
Definition TxSnapshot : Z := 6.

Record txOptions := mkTxOptions {
  message : string;
  isolationLevel : Z;
  isReadonly : bool;
  isCrossGroup : bool;
  attempts : Z;
  password : string;
}.

Definition SetMessage (v : txOptions) (msg : string) : txOptions :=
  mkTxOptions msg (isolationLevel v) (isReadonly v) (isCrossGroup v) (attempts v) (password v).

(** An option may panic when it is applied. *)
Definition TransactionOption : Type := txOptions → res unit txOptions.

Definition NewTransactionOptions (opts : list TransactionOption) : res unit txOptions :=
  fold_res (λ opt options, opt options) opts (mkTxOptions "" 0 false false 0 "").

(** The constructor panics on an unspecified level, its option on a second one. *)
Definition TxWithIsolationLevel (level : Z) : res unit TransactionOption :=
  if (level =? TxUnspecified)%Z then Panic "isolationLevel == TxUnspecified"
  else Ret (λ options,
    if negb (isolationLevel options =? TxUnspecified)%Z then
      if (isolationLevel options =? level)%Z
      then Panic ("an attempt to set same isolation level twice: " +:+ pretty level)
      else Panic "an attempt to request more then 1 isolation level"
    else Ret (mkTxOptions (message options) level (isReadonly options) (isCrossGroup options) (attempts options) (password options))).

Definition TxWithMessage (msg : string) : TransactionOption := λ options, Ret (SetMessage options msg).
Definition TxWithAttempts (n : Z) : TransactionOption := λ options,
  Ret (mkTxOptions (message options) (isolationLevel options) (isReadonly options) (isCrossGroup options) n (password options)).
Definition TxWithReadonly : TransactionOption := λ options,
  Ret (mkTxOptions (message options) (isolationLevel options) true (isCrossGroup options) (attempts options) (password options)).
Definition TxWithCrossGroup : TransactionOption := λ options,
  Ret (mkTxOptions (message options) (isolationLevel options) (isReadonly options) true (attempts options) (password options)).

(** The options a caller can make. *)
Inductive tx_option := OptLevel (level : Z) | OptMessage (msg : string) | OptAttempts (n : Z) | OptReadonly | OptCrossGroup.

Definition make_option (o : tx_option) : res unit TransactionOption :=
  match o with
  | OptLevel level => TxWithIsolationLevel level
  | OptMessage msg => Ret (TxWithMessage msg)
  | OptAttempts n => Ret (TxWithAttempts n)
  | OptReadonly => Ret TxWithReadonly
  | OptCrossGroup => Ret TxWithCrossGroup
  end.

Definition options_of (os : list tx_option) : res unit txOptions :=
  do opts <- traverse (λ _ o, make_option o) os; NewTransactionOptions opts.

Definition levels (os : list tx_option) : list Z := omap (λ o, match o with OptLevel l => Some l | _ => None end) os.
Definition messages (os : list tx_option) : list string := omap (λ o, match o with OptMessage m => Some m | _ => None end) os.
Definition attempt_counts (os : list tx_option) : list Z := omap (λ o, match o with OptAttempts n => Some n | _ => None end) os.

(** What a list of options amounts to, over some options. *)
Definition requested (os : list tx_option) (base : txOptions) : txOptions :=
  mkTxOptions (default (message base) (last (messages os))) (default (isolationLevel base) (head (levels os)))
    (isReadonly base || existsb (λ o, match o with OptReadonly => true | _ => false end) os)
    (isCrossGroup base || existsb (λ o, match o with OptCrossGroup => true | _ => false end) os)
    (default (attempts base) (last (attempt_counts os))) (password base).

Lemma default_last_cons {A} (x d : A) l : default d (last (x :: l)) = default x (last l).
Proof.
  destruct l as [|y l]; [done|]. change (last (x :: y :: l)) with (last (y :: l)).
  by destruct (last_of_cons y l) as [z ->].
Qed.

Lemma make_options os : Forall (λ l, l ≠ TxUnspecified) (levels os) →
  ∃ opts, traverse (λ _ o, make_option o) os = Ret opts ∧ Forall2 (λ o opt, make_option o = Ret opt) os opts.
Proof.
  unfold traverse. generalize 0. induction os as [|o os IH]; intros i Hl; [exists []; by split|].
  destruct (IH (S i)) as (opts & Ho & Hf).
  { destruct o; [by apply Forall_cons in Hl as [_ Hl]|done..]. }
  simpl. destruct o as [l|m|n| |]; simpl; rewrite ?Ho; try (by eexists; split; [reflexivity|]; constructor).
  apply Forall_cons in Hl as [Hl _]. unfold TxWithIsolationLevel. rewrite (proj2 (Z.eqb_neq _ _) Hl). simpl.
  eexists. split; [reflexivity|]. constructor; [|done]. simpl. unfold TxWithIsolationLevel. by rewrite (proj2 (Z.eqb_neq _ _) Hl).
Qed.

Lemma levels_cons o os : levels (o :: os) = match o with OptLevel l => l :: levels os | _ => levels os end.
Proof. by destruct o. Qed.
Lemma messages_cons o os : messages (o :: os) = match o with OptMessage m => m :: messages os | _ => messages os end.
Proof. by destruct o. Qed.
Lemma attempt_counts_cons o os :
  attempt_counts (o :: os) = match o with OptAttempts n => n :: attempt_counts os | _ => attempt_counts os end.
Proof. by destruct o. Qed.

(** The options applied from a record on, with at most one level in all. *)
Lemma apply_options os opts base :
  Forall2 (λ o opt, make_option o = Ret opt) os opts →
  length (levels os) + (if decide (isolationLevel base = TxUnspecified) then 0 else 1) ≤ 1 →
  fold_res (λ (opt : TransactionOption) options, opt options) opts base = Ret (requested os base).
Proof.
  intros Hf. revert base. induction Hf as [|o opt os opts Ho Hf IH]; intros base Hn; cbn [fold_res].
  { unfold requested. cbn. rewrite !orb_false_r. by destruct base. }
  rewrite levels_cons in Hn. unfold requested. rewrite levels_cons, messages_cons, attempt_counts_cons.
  destruct o as [l|m|n| |]; cbn [make_option] in Ho; cbn [existsb orb]; rewrite ?orb_true_r.
  - unfold TxWithIsolationLevel in Ho. destruct (Z.eqb_spec l TxUnspecified) as [|Hl]; [done|]. injection Ho as <-.
    cbn [length] in Hn. destruct (decide (isolationLevel base = TxUnspecified)) as [E|]; [|lia].
    assert (Hnone : levels os = []) by (destruct (levels os); [done|simpl in Hn; lia]).
    rewrite E. cbn [Z.eqb TxUnspecified negb rbind]. rewrite IH by (rewrite Hnone; cbn; by destruct (decide _); lia).
    unfold requested. by rewrite Hnone.
  - injection Ho as <-. cbn [TxWithMessage rbind]. rewrite IH by done. unfold requested. cbn. by rewrite default_last_cons.
  - injection Ho as <-. cbn [TxWithAttempts rbind]. rewrite IH by done. unfold requested. cbn. by rewrite default_last_cons.
  - injection Ho as <-. cbn [TxWithReadonly rbind]. by rewrite IH by done.
  - injection Ho as <-. cbn [TxWithCrossGroup rbind]. by rewrite IH by done.
Qed.

(** Options with at most one isolation level, which is specified, make the
    options requested; the last message and number of attempts count. *)
Lemma options_of_requested os :
  Forall (λ l, l ≠ TxUnspecified) (levels os) → length (levels os) ≤ 1 →
  options_of os = Ret (requested os (mkTxOptions "" 0 false false 0 "")).
Proof.
  intros Hl Hn. unfold options_of. destruct (make_options os Hl) as (opts & -> & Hf). simpl.
  apply apply_options; [done|]. rewrite decide_True by done. lia.
Qed.

Module TransactionExamples.

Lemma nested_transactions_witness :
  let c := Root (T := nat) "request" in
  let started := derive_all [ByOther "deadline"] c in
  let inner := derive_all [ByOther "trace"; ByTransaction 2; ByTransaction 3] (NewContextWithTransaction started (Some 1)) in
  GetTransaction inner = Some 3 ∧ GetNonTransactionalContext inner = Ret started.
Proof.
  exact (nested_transactions (Root "request") [ByOther "deadline"] 1 [ByOther "trace"; ByTransaction 2; ByTransaction 3]
    eq_refl eq_refl).
Defined.

Example two_levels_panic :
  options_of [OptLevel TxSnapshot; OptLevel TxSnapshot] = Panic "an attempt to set same isolation level twice: 6".
Proof. reflexivity. Qed.

End TransactionExamples.
