(* ===== verification/DalErrors.v ===== *)
(** * Errors, hooks and preconditions (src/dal: errors.go, hooks.go,
    data_wrapper.go, precondition.go, adapter.go, schema.go)

    The errors of the package and what [errors.Is] finds in them; the hooks that
    run before a record is saved; the small option records. *)

From Stdlib Require Import String.
From stdpp Require Import base list strings.
From S2P Require Import Prelude GoStrings GoValues RecordKey.

Local Open Scope string_scope.
Local Open Scope nat_scope.
Local Open Scope list_scope.

Section Errors.
Context `{RecordKeys}.

(** ** The tree of errors

    A sentinel is a package variable, which compares by its identity, here its
    name; [fmt.Errorf] with [%w] wraps an error; a foreign error wraps
    nothing. *)
Inductive goerror :=
| sentinel (name text : string)
| wrapped (text : string) (inner : goerror)
| foreign (text : string)
| errNotFoundByKey (k : key) (cause : option goerror)
| rollbackError (rollbackErr originalErr : option goerror).

(** [record.ErrRecordNotFound], of another package: its text. *)
Context (not_found_text : string).
Definition ErrRecordNotFound : goerror := sentinel "record.ErrRecordNotFound" not_found_text.

Definition is_sentinel (name : string) (e : goerror) : bool :=
  match e with sentinel name' _ => String.eqb name name' | _ => false end.

Definition not_found_Cause (cause : option goerror) : goerror := default ErrRecordNotFound cause.

(** [errors.Is(e, target)] for a sentinel [target]: [Unwrap] of an error of a
    key gives its cause; an error of a rollback has no [Unwrap]. *)
Fixpoint errors_Is (e : goerror) (name : string) : bool :=
  match e with
  | sentinel name' _ => String.eqb name name'
  | wrapped _ inner => errors_Is inner name
  | errNotFoundByKey _ (Some cause) => errors_Is cause name
  | errNotFoundByKey _ None => String.eqb name "record.ErrRecordNotFound"
  | foreign _ | rollbackError _ _ => false
  end.

(** The text of an error; [%v] of a nil error is [<nil>]. *)
Fixpoint Error (e : goerror) : string :=
  let text (o : option goerror) := match o with Some e => Error e | None => "<nil>" end in
  match e with
  | sentinel _ text | wrapped text _ | foreign text => text
  | errNotFoundByKey k cause =>
      let found := match cause with Some c => errors_Is c "record.ErrRecordNotFound" | None => false end in
      if found then text cause +:+ ": by key=" +:+ key_String k
      else match cause with Some c => Error c | None => not_found_text end +:+ ": not found by key=" +:+ key_String k
  | rollbackError rollbackErr None => "rollback failed: " +:+ text rollbackErr
  | rollbackError rollbackErr (Some original) =>
      "rollback failed: " +:+ text rollbackErr +:+ ": original error: " +:+ Error original
  end.

(** [fmt.Errorf("%w: %v", w, v)] *)
Definition Errorf_w_v (w v : goerror) : goerror := wrapped (Error w +:+ ": " +:+ Error v) w.

Definition errNotFoundCause (cause : option goerror) : goerror :=
  match cause with
  | None => ErrRecordNotFound
  | Some c => if is_sentinel "record.ErrRecordNotFound" c then ErrRecordNotFound else Errorf_w_v ErrRecordNotFound c
  end.

Definition NewErrNotFoundByKey (k : key) (cause : option goerror) : goerror :=
  errNotFoundByKey k (Some (errNotFoundCause cause)).

Definition NewRollbackError (rollbackErr originalErr : option goerror) : goerror :=
  rollbackError rollbackErr originalErr.

(** An error of a missing key is [ErrRecordNotFound] whatever its cause,
    and no other sentinel, even where the cause is one: of the cause only the
    text is kept. *)
Theorem NewErrNotFoundByKey_is_not_found k cause :
  (∀ name, errors_Is (NewErrNotFoundByKey k cause) name = String.eqb name "record.ErrRecordNotFound") ∧
  Error (NewErrNotFoundByKey k cause) =
    match cause with
    | None => not_found_text
    | Some c => if is_sentinel "record.ErrRecordNotFound" c then not_found_text else not_found_text +:+ ": " +:+ Error c
    end +:+ ": by key=" +:+ key_String k.
Proof.
  unfold NewErrNotFoundByKey, errNotFoundCause, Errorf_w_v.
  destruct cause as [c|]; [destruct (is_sentinel _ c)|]; by split.
Qed.

Record ErrDuplicateUser := mkDuplicateUser { SearchCriteria : string; DuplicateUserIDs : list string }.

Definition ErrDuplicateUser_Error (err : ErrDuplicateUser) : string :=
  "multiple users by given search criteria[" +:+ SearchCriteria err +:+ "]: " +:+ join "," (DuplicateUserIDs err).

(** ** Hooks *)

Definition ErrHookFailed : goerror := sentinel "dal.ErrHookFailed" "failed in dalgo hook".

Section Hooks.
Context {S R : Type}.

(** A hook changes a state; the first failure ends the calls. *)
Definition RecordHook : Type := R → S → S * option goerror.

Fixpoint callRecordHooks (record : R) (hooks : list RecordHook) (s : S) : S * option goerror :=
  match hooks with
  | [] => (s, None)
  | hook :: hooks =>
      match hook record s with
      | (s, Some err) => (s, Some (Errorf_w_v ErrHookFailed err))
      | (s, None) => callRecordHooks record hooks s
      end
  end.

(** [Validate] of the record's data, when it has one. *)
Definition beforeSafe (Validate : R → option (S → S * option goerror)) (record : R) (s : S) : S * option goerror :=
  match Validate record with Some validate => validate s | None => (s, None) end.

Definition BeforeSave (Validate : R → option (S → S * option goerror)) (beforeSafeHooks : list RecordHook)
    (record : R) (s : S) : S * option goerror :=
  match beforeSafe Validate record s with
  | (s, Some err) => (s, Some err)
  | (s, None) => callRecordHooks record beforeSafeHooks s
  end.

(** The states between hooks that all succeed. *)
Inductive hooks_run (record : R) : list RecordHook → S → S → Prop :=
| hooks_none s : hooks_run record [] s s
| hooks_next hook hooks s s' s'' :
    hook record s = (s', None) → hooks_run record hooks s' s'' → hooks_run record (hook :: hooks) s s''.

(** Hooks succeed together, or one fails after those before it succeeded, and
    those after it are not called. *)
Lemma callRecordHooks_stops record hooks s s' r : callRecordHooks record hooks s = (s', r) →
  match r with
  | None => hooks_run record hooks s s'
  | Some e => ∃ before hook after t err, hooks = before ++ hook :: after ∧ hooks_run record before s t ∧
      hook record t = (s', Some err) ∧ e = Errorf_w_v ErrHookFailed err ∧ errors_Is e "dal.ErrHookFailed" = true
  end.
Proof.
  revert s. induction hooks as [|hook hooks IH]; intros s Hr; simpl in Hr; [simplify_eq; constructor|].
  destruct (hook record s) as [s1 [err|]] eqn:Eh.
  - simplify_eq. exists [], hook, hooks, s, err. split_and!; [done|constructor|done..].
  - specialize (IH s1 Hr). destruct r as [e|]; [|by econstructor].
    destruct IH as (before & h & after & t & err & -> & Hb & Hh & He & Hs).
    exists (hook :: before), h, after, t, err. split_and!; [done|by econstructor|done..].
Qed.
End Hooks.

(** ** Wrapped data *)

Section Data.
Context {S : Type}.

Definition RecordDataHook : Type := key → value → S → S * option goerror.

Record recordData := mkRecordData { rd_data : value; rd_beforeSave : option RecordDataHook; rd_afterLoad : option RecordDataHook }.

Definition run_hook (hook : option RecordDataHook) (v : recordData) (k : key) (s : S) : S * option goerror :=
  match hook with Some h => h k (rd_data v) s | None => (s, None) end.
Definition recordData_BeforeSave (v : recordData) : key → S → S * option goerror := run_hook (rd_beforeSave v) v.
Definition recordData_AfterLoad (v : recordData) : key → S → S * option goerror := run_hook (rd_afterLoad v) v.

Definition RecordDataOption : Type := recordData → recordData.
Definition WithBeforeSave (hook : option RecordDataHook) : RecordDataOption := λ rd, mkRecordData (rd_data rd) hook (rd_afterLoad rd).
Definition WithAfterLoad (hook : option RecordDataHook) : RecordDataOption := λ rd, mkRecordData (rd_data rd) (rd_beforeSave rd) hook.
Definition MakeRecordData (data : value) (options : list RecordDataOption) : recordData :=
  fold_left (λ rd o, o rd) options (mkRecordData data None None).
End Data.
End Errors.

(** ** Preconditions *)

(** [time.Time], of which the zero value is used. *)
Section Preconditions.
Context {T : Type} (zero_time : T).

Record preConditions := mkPreConditions { pc_exists : bool; pc_lastUpdateTime : T }.
Definition precondition : Type := preConditions → preConditions.

Definition WithExistsPrecondition : precondition := λ p, mkPreConditions true (pc_lastUpdateTime p).
Definition WithLastUpdateTimePrecondition (t : T) : precondition := λ p, mkPreConditions (pc_exists p) t.
Definition GetPreconditions (items : list precondition) : preConditions :=
  fold_left (λ result item, item result) items (mkPreConditions false zero_time).
End Preconditions.

(** ** Adapters *)

Record adapter := mkAdapter { ad_name : string; ad_version : string }.
Definition NewAdapter (name version : string) : adapter := mkAdapter name version.
Definition adapter_Equals (v other : adapter) : bool :=
  String.eqb (ad_name v) (ad_name other) && String.eqb (ad_version v) (ad_version other).
Definition adapter_String (v : adapter) : string := ad_name v +:+ "@" +:+ ad_version v.

(** ** Schemas of keys *)

Section Schema.
Context `{RecordKeys} {E : Type}.

Record field := mkField { ef_name : string; ef_value : value }.
Definition NewExtraField (name : string) (v : value) : field := mkField name v.

(** The functions may fill the data that they get, which is then returned too. *)
Record SchemaBase := mkSchemaBase {
  keyToFields : option (key → value → value * res E (list field));
  dataToKey : option (key → value → res E key);
}.
Definition NewSchema keyToField dataToKey : SchemaBase := mkSchemaBase keyToField dataToKey.

Definition KeyToFields (s : SchemaBase) (k : key) (data : value) : value * res E (list field) :=
  match keyToFields s with Some f => f k data | None => (data, Ret []) end.

(** A nil function panics when it is called. *)
Definition DataToKey (s : SchemaBase) (incompleteKey : key) (data : value) : res E key :=
  match dataToKey s with
  | Some f => f incompleteKey data
  | None => Panic "runtime error: invalid memory address or nil pointer dereference"
  end.
End Schema.

(** ** Transforms: transform.go, unions.go *)

Inductive Transform :=
| transform (name : string) (v : value)
| arrayUnion (elems : list value).

Definition transform_Name (t : Transform) : string := match t with transform name _ => name | arrayUnion _ => "ArrayUnion" end.
(** Of [ArrayUnion], the elements as a value of type []any. *)
Definition transform_Value (t : Transform) : value :=
  match t with transform _ v => v | arrayUnion elems => VSlice "[]interface {}" (Some elems) end.
Definition Increment (v : Z) : Transform := transform "increment" (vint v).
Definition ArrayUnion (elems : list value) : Transform := arrayUnion elems.

(** Of a value of type [any] that is a transform or something else. *)
Definition IsTransform (v : Transform + value) : option Transform :=
  match v with inl (transform name v) => Some (transform name v) | _ => None end.

(** The transform of [ArrayUnion] is not one for [IsTransform]. *)
Lemma IsTransform_ArrayUnion elems : IsTransform (inl (ArrayUnion elems)) = None.
Proof. done. Qed.

Module ErrorExamples.
Example not_found :
  Error (H := chain_keys) "record not found" (NewErrNotFoundByKey (H := chain_keys) "record not found"
    (ChainKey "users" (vint 1) None) (Some (foreign "no rows"))) = "record not found: no rows: by key=users/?".
Proof. reflexivity. Qed.
End ErrorExamples.
