(* ===== verification/DalInsert.v ===== *)
(** * Inserts and identifier generators (src/dal: tx_inserter.go,
    id_generator.go, key_options.go)

    The options of an insert, the retry loop of [InsertWithIdGenerator] over
    callbacks that change a state, the counting generator, and the identifiers
    made of time stamps.  The random strings come from another package and are
    an argument. *)

From Stdlib Require Import String.
From stdpp Require Import base list strings.
From S2P Require Import Prelude GoValues.

Local Open Scope string_scope.
Local Open Scope nat_scope.
Local Open Scope list_scope.

(** ** Options *)

Section Options.
Context {G : Type}.

Record insertOptions := mkInsertOptions { idGenerator : option G; preferAdapterGeneratedID : bool }.
Definition InsertOption : Type := insertOptions → insertOptions.

Definition NewInsertOptions (opts : list InsertOption) : insertOptions :=
  fold_left (λ options o, o options) opts (mkInsertOptions None false).

Definition WithAdapterGeneratedID : InsertOption := λ options, mkInsertOptions (idGenerator options) true.

(** [options.idGenerator = g], the body of the options that set a generator *)
Definition with_generator (g : G) : InsertOption := λ options, mkInsertOptions (Some g) (preferAdapterGeneratedID options).

Lemma NewInsertOptions_app opts o : NewInsertOptions (opts ++ [o]) = o (NewInsertOptions opts).
Proof. unfold NewInsertOptions. by rewrite fold_left_app. Qed.
End Options.
Arguments insertOptions G : clear implicits.
Arguments InsertOption G : clear implicits.

(** The options of random strings. *)
Record randomStringOptions := mkRandomStringOptions { rso_length : Z; rso_prefix : string }.
Definition DefaultRandomStringIDLength : Z := 16.
Definition rso_Length (v : randomStringOptions) : Z :=
  if (rso_length v =? 0)%Z then DefaultRandomStringIDLength else rso_length v.
Definition Prefix (prefix : string) : randomStringOptions → randomStringOptions :=
  λ options, mkRandomStringOptions (rso_length options) prefix.
Definition RandomLength (length : Z) : randomStringOptions → randomStringOptions :=
  λ options, mkRandomStringOptions length (rso_prefix options).

(** ** The retry loop *)

Inductive insert_error (E : Type) :=
| failed_to_generate (e : E)
| failed_to_validate (e : E)
| failed_to_check (e : E)
| not_able_to_generate (maxAttempts : Z)   (** wraps [ErrExceedsMaxNumberOfAttempts] *)
| insert_failed (e : E).                   (** what [insert] returned, unchanged *)
Arguments failed_to_generate {E} e.
Arguments failed_to_validate {E} e.
Arguments failed_to_check {E} e.
Arguments not_able_to_generate {E} maxAttempts.
Arguments insert_failed {E} e.

(** What the record, its key and the callbacks do on the state they share. *)
Record inserter (S E : Type) := mkInserter {
  generateID : S → S * res E unit;
  SetError_nil : S → S;
  (** [None]: the data has no method [ValidateWithKey] *)
  ValidateWithKey : S → option (S * res E unit);
  exists_key : S → S * res E unit;
  insert_record : S → S * res E unit;
  set_ID_nil : S → S;
  IsNotFound : E → bool;
}.
Arguments mkInserter {S E}.
Arguments generateID {S E} i s.
Arguments SetError_nil {S E} i s.
Arguments ValidateWithKey {S E} i s.
Arguments exists_key {S E} i s.
Arguments insert_record {S E} i s.
Arguments set_ID_nil {S E} i s.
Arguments IsNotFound {S E} i e.

Section Loop.
Context {S E : Type} (io : inserter S E) (maxAttempts : Z).

Definition validate_key (s : S) : S * res E unit :=
  match ValidateWithKey io s with Some r => r | None => (s, Ret tt) end.

(** The iterations that are left. *)
Fixpoint attempts (n : nat) (s : S) : S * res (insert_error E) unit :=
  match n with
  | O => (set_ID_nil io s, Fail (not_able_to_generate maxAttempts))
  | Datatypes.S n =>
      match generateID io s with
      | (s, Panic msg) => (s, Panic msg)
      | (s, Fail e) => (set_ID_nil io s, Fail (failed_to_generate e))
      | (s, Ret _) =>
          match validate_key (SetError_nil io s) with
          | (s, Panic msg) => (s, Panic msg)
          | (s, Fail e) => (s, Fail (failed_to_validate e))
          | (s, Ret _) =>
              match exists_key io s with
              | (s, Panic msg) => (s, Panic msg)
              | (s, Ret _) => attempts n s
              | (s, Fail e) =>
                  if IsNotFound io e
                  then let '(s, r) := insert_record io s in (s, rmap_error insert_failed r)
                  else (set_ID_nil io s, Fail (failed_to_check e))
              end
          end
      end
  end.

(** [for i := 1; i <= maxAttempts; i++]: no iteration when [maxAttempts <= 0]. *)
Definition InsertWithIdGenerator (s : S) : S * res (insert_error E) unit := attempts (Z.to_nat maxAttempts) s.
End Loop.

(** ** What the loop calls

    The calls of a run, each with what it returned, logged next to the state. *)
Inductive call_event := Generated (ok : bool) | Checked (free : option bool) | Inserted.

Section Log.
Context {S E : Type} (io : inserter S E).
Notation L := (S * list call_event)%type.

Definition is_ret {A} (r : res E A) : bool := match r with Ret _ => true | _ => false end.

(** [exists] found no record, found one, or failed. *)
Definition checked (r : res E unit) : option bool :=
  match r with Ret _ => Some false | Fail e => if IsNotFound io e then Some true else None | Panic _ => None end.

Definition log_call (f : S → S * res E unit) (ev : res E unit → call_event) (l : L) : L * res E unit :=
  let '(s, r) := f l.1 in ((s, l.2 ++ [ev r]), r).

Definition logging : inserter L E := mkInserter
  (log_call (generateID io) (λ r, Generated (is_ret r)))
  (λ l, (SetError_nil io l.1, l.2))
  (λ l, (λ '(s, r), ((s, l.2), r)) <$> ValidateWithKey io l.1)
  (log_call (exists_key io) (λ r, Checked (checked r)))
  (log_call (insert_record io) (λ _, Inserted))
  (λ l, (set_ID_nil io l.1, l.2))
  (IsNotFound io).

(** An attempt whose identifier was taken. *)
Definition taken : list call_event := [Generated true; Checked (Some false)].

(** How a run ends: the calls after the attempts that found their identifier
    taken. *)
Definition ending (r : res (insert_error E) unit) (tail : list call_event) : Prop :=
  match r with
  | Ret _ | Fail (insert_failed _) => tail = [Generated true; Checked (Some true); Inserted]
  | Fail (failed_to_generate _) => tail = [Generated false]
  | Fail (failed_to_validate _) => tail = [Generated true]
  | Fail (failed_to_check _) => tail = [Generated true; Checked None]
  | Fail (not_able_to_generate _) => tail = []
  | Panic _ => True
  end.

(** Logging changes neither the states nor the outcome. *)
Lemma logging_transparent maxAttempts n s log :
  let '((s', _), r) := attempts logging maxAttempts n (s, log) in (s', r) = attempts io maxAttempts n s.
Proof.
  revert s log. induction n as [|n IH]; intros s log; simpl; [done|]. unfold log_call. cbn [fst snd].
  destruct (generateID io s) as [s1 [u|e|msg]]; cbn; [|done..].
  unfold validate_key. simpl. destruct (ValidateWithKey io (SetError_nil io s1)) as [[s2 [u2|e2|m2]]|]; cbn; try done.
  all: match goal with |- context [exists_key io ?t] => destruct (exists_key io t) as [s3 [u3|e3|m3]] end; cbn; try done; try apply IH.
  all: destruct (IsNotFound io e3); cbn; [|done].
  all: by destruct (insert_record io s3) as [s4 r4].
Qed.

(** A run that ends in this attempt. *)
Ltac ends_with t := exists 0, t; split_and!; [lia|by rewrite <- ?app_assoc|done|by intros].

Lemma log_of_attempts maxAttempts n s log :
  let '((_, log'), r) := attempts logging maxAttempts n (s, log) in
  ∃ k tail, k ≤ n ∧ log' = log ++ concat (replicate k taken) ++ tail ∧ ending r tail ∧
    (tail = [] → (∃ msg, r = Panic msg) ∨ k = n).
Proof.
  revert s log. induction n as [|n IH]; intros s log; simpl.
  { exists 0, []. simpl. rewrite app_nil_r. split_and!; [done..|by right]. }
  unfold log_call. cbn [fst snd].
  destruct (generateID io s) as [s1 [u|e|msg]]; cbn; [|ends_with [Generated false]..].
  unfold validate_key. simpl.
  destruct (ValidateWithKey io (SetError_nil io s1)) as [[s2 [u2|e2|m2]]|]; cbn; try ends_with [Generated true].
  all: match goal with |- context [exists_key io ?t] => destruct (exists_key io t) as [s3 [u3|e3|m3]] end; cbn;
    try ends_with [Generated true; Checked None].
  1, 3: specialize (IH s3 (log ++ taken)); unfold taken in IH; rewrite <- app_assoc;
    destruct (attempts logging maxAttempts n _) as [[sf lf] rf];
    destruct IH as (k & tail & Hk & -> & He & Ht);
    exists (Datatypes.S k), tail; split_and!; [lia|by rewrite <- app_assoc|done|];
    intros Hn; destruct (Ht Hn) as [|]; [by left|right; lia].
  all: destruct (IsNotFound io e3); cbn; [|ends_with [Generated true; Checked None]].
  all: destruct (insert_record io s3) as [s4 [u4|e4|m4]]; cbn; ends_with [Generated true; Checked (Some true); Inserted].
Qed.
End Log.

(** C32: the calls of [InsertWithIdGenerator]: attempts whose identifier was
    taken, at most [maxAttempts] in all, and then what the outcome says.  In
    particular the record is inserted at most once, as the last call, and only
    directly after its identifier was generated and found to be free; and the
    error of too many attempts comes after exactly that many. *)
Theorem InsertWithIdGenerator_calls {S E} (io : inserter S E) maxAttempts s :
  let '((s', calls), r) := InsertWithIdGenerator (logging io) maxAttempts (s, []) in
  (s', r) = InsertWithIdGenerator io maxAttempts s ∧
  ∃ n tail, n ≤ Z.to_nat maxAttempts ∧ calls = concat (replicate n taken) ++ tail ∧ ending r tail ∧
    (r = Fail (not_able_to_generate maxAttempts) → n = Z.to_nat maxAttempts).
Proof.
  unfold InsertWithIdGenerator.
  pose proof (logging_transparent io maxAttempts (Z.to_nat maxAttempts) s []) as Ht.
  pose proof (log_of_attempts io maxAttempts (Z.to_nat maxAttempts) s []) as Hl.
  destruct (attempts (logging io) maxAttempts _ (s, [])) as [[s' calls] r].
  split; [exact Ht|]. destruct Hl as (n & tail & Hn & -> & He & Hk).
  exists n, tail. repeat split; [done..|]. intros ->. destruct (Hk He) as [[msg Hm]|]; [done|assumption].
Qed.

(** After a run that fails before the insert, other than by the validation of
    the record, the key has no identifier. *)
Lemma attempts_clear_ID {S E} (io : inserter S E) (ID : S → value) maxAttempts n s s' e :
  (∀ t, ID (set_ID_nil io t) = VNil) →
  attempts io maxAttempts n s = (s', Fail e) →
  match e with failed_to_generate _ | failed_to_check _ | not_able_to_generate _ => ID s' = VNil | _ => True end.
Proof.
  intros HID. revert s. induction n as [|n IH]; intros s Hr; simpl in Hr; [by simplify_eq|].
  destruct (generateID io s) as [s1 [u|e1|msg]]; [|by simplify_eq..].
  destruct (validate_key io (SetError_nil io s1)) as [s2 [u2|e2|m2]]; [|by simplify_eq..].
  destruct (exists_key io s2) as [s3 [u3|e3|m3]]; [by apply (IH s3)| |by simplify_eq].
  destruct (IsNotFound io e3); [|by simplify_eq].
  destruct (insert_record io s3) as [s4 [u4|e4|m4]]; by simplify_eq/=.
Qed.

(** ** The counting generator *)

Record idGenerator_state := mkIdGenerator { ig_maxAttempts : Z; ig_attempts : Z }.

Inductive generate_error (E : Type) := exceeds_attempts (maxAttempts : Z) | generator_error (e : E).
Arguments exceeds_attempts {E} maxAttempts.
Arguments generator_error {E} e.

Section Generators.
Context {S E : Type}.
Context (set_ID : value → S → S).

Definition GenerateID (f : S → S * res E unit) (v : idGenerator_state) (s : S)
  : idGenerator_state * S * res (generate_error E) unit :=
  let v := mkIdGenerator (ig_maxAttempts v) (ig_attempts v + 1) in
  if (ig_maxAttempts v <? ig_attempts v)%Z then (v, set_ID VNil s, Fail (exceeds_attempts (ig_maxAttempts v)))
  else let '(s, r) := f s in (v, s, rmap_error generator_error r).

(** The generator that the options install is the function itself, not the
    method that counts. *)
Definition NewIDGenerator (f : S → S * res E unit) (maxAttempts : Z) : S → S * res E unit := f.

(** [random.ID(length)] of another package *)
Context (random_ID : Z → S → S * string).

Definition WithRandomStringKey (length maxAttempts : Z) : InsertOption (S → S * res E unit) :=
  with_generator (NewIDGenerator
    (λ s, let '(s, id) := random_ID length s in (set_ID (vstr id) s, Ret tt)) maxAttempts).

(** [Prefix] and [RandomLength] make a key option out of the same generator; a
    key that has an identifier makes it panic. *)
Context (get_ID : S → value).
Definition WithIDGenerator (g : S → S * res E unit) (s : S) : S * res E unit :=
  match get_ID s with
  | VNil => g s
  | _ => (s, Panic "an attempt to set ID generator for a child that already have an ID value")
  end.

(** [reflect.String], which the option notes in the key *)
Context (set_IDKind_String : S → S).
Definition WithRandomStringID (options : list (randomStringOptions → randomStringOptions)) (s : S) : S * res E unit :=
  let rso := fold_left (λ r setOption, setOption r) options (mkRandomStringOptions 0 "") in
  WithIDGenerator
    (λ s, let '(s, id) := random_ID (rso_Length rso) s in (set_ID (vstr (rso_prefix rso +:+ id)) s, Ret tt))
    (set_IDKind_String s).

(** ** Time stamps *)

(** A time of the standard library: seconds since 1970, and nanoseconds. *)
Record time := mkTime { unixSec : Z; nsec : Z }.
Context (now : S → time).

Definition int64 (z : Z) : Z := ((z + 2^63) mod 2^64 - 2^63)%Z.

Definition UnixNano (t : time) : Z := int64 (unixSec t * 1000000000 + nsec t).
Definition UnixMicro (t : time) : Z := int64 (unixSec t * 1000000 + nsec t / 1000).
Definition UnixMilli (t : time) : Z := int64 (unixSec t * 1000 + nsec t / 1000000).
Definition Unix (t : time) : Z := unixSec t.

(** [TimeStampAccuracyNano] and so on are numbered from 0; Go's division
    truncates. *)
Definition timestamp (accuracy : Z) (t : time) : res E Z :=
  match accuracy with
  | 0 => Ret (UnixNano t)
  | 1 => Ret (UnixMicro t)
  | 2 => Ret (UnixMilli t)
  | 3 => Ret (Unix t)
  | 4 => Ret (Z.quot (Unix t) 60)
  | 5 => Ret (Z.quot (Z.quot (Unix t) 60) 60)
  | 6 => Ret (Z.quot (Z.quot (Z.quot (Unix t) 60) 60) 24)
  | _ => Panic "invalid timeStampAccuracy"
  end%Z.

(** [strconv.FormatInt] *)
Definition digit_chars : string := "0123456789abcdefghijklmnopqrstuvwxyz".
Definition digit (d : Z) : Ascii.ascii := default Ascii.zero (String.get (Z.to_nat d) digit_chars).

Fixpoint digits (fuel : nat) (base u : Z) (acc : list Z) : list Z :=
  match fuel with
  | O => acc
  | Datatypes.S fuel => if (u <? base)%Z then u :: acc else digits fuel base (u / base) (u mod base :: acc)%Z
  end.

(** A 64-bit number has at most 64 digits. *)
Definition FormatInt (i base : Z) : res E string :=
  if (base <? 2)%Z || (36 <? base)%Z then Panic "strconv: illegal AppendInt/FormatInt base"
  else
    let text := String.string_of_list_ascii (map digit (digits 64 base (Z.abs i) [])) in
    Ret (if (i <? 0)%Z then String (Ascii.ascii_of_nat 45) text else text).

(** [WithTimeStampStringKeyID]: the identifier that is generated *)
Definition timestamp_ID (accuracy base : Z) (t : time) : res E string :=
  do ts <- timestamp accuracy t; FormatInt ts base.

Definition WithTimeStampStringID (accuracy base maxAttempts : Z) : InsertOption (S → S * res E unit) :=
  with_generator (NewIDGenerator
    (λ s, match timestamp_ID accuracy base (now s) with
          | Ret id => (set_ID (vstr id) s, Ret tt)
          | Fail e => (s, Fail e)
          | Panic msg => (s, Panic msg)
          end) maxAttempts).

(** [fmt.Sprintf("%d_%s", ...)] *)
Definition WithRandomStringKeyPrefixedByUnixTime (randomLength maxAttempts : Z) : InsertOption (S → S * res E unit) :=
  with_generator (NewIDGenerator
    (λ s, let t := now s in
          let '(s, id) := random_ID randomLength s in
          match FormatInt (Unix t) 10 with
          | Ret secs => (set_ID (vstr (secs +:+ "_" +:+ id)) s, Ret tt)
          | Fail e => (s, Fail e)
          | Panic msg => (s, Panic msg)
          end) maxAttempts).
End Generators.

(** The method that counts gives up after [maxAttempts]; the generator that
    the options install never does. *)
Lemma GenerateID_gives_up {S E} (set_ID : value → S → S) (f : S → S * res E unit) v s :
  (ig_maxAttempts v <= ig_attempts v)%Z →
  ∃ v', GenerateID set_ID f v s = (v', set_ID VNil s, Fail (exceeds_attempts (ig_maxAttempts v))).
Proof. intros Hv. eexists. unfold GenerateID. simpl. by rewrite (proj2 (Z.ltb_lt _ _)) by lia. Qed.

(** ** Reading identifiers back *)

Section Digits.

Definition minus_char : Ascii.ascii := Ascii.ascii_of_nat 45.

Fixpoint index_of (c : Ascii.ascii) (s : string) : Z :=
  match s with
  | EmptyString => 0
  | String c' s => if Ascii.eqb c c' then 0 else 1 + index_of c s
  end%Z.

Definition digits_value (base : Z) (s : string) : Z :=
  fold_left (λ a c, a * base + index_of c digit_chars)%Z (String.list_ascii_of_string s) 0%Z.

Definition ParseInt (s : string) (base : Z) : Z :=
  match s with
  | String c s' => if Ascii.eqb c minus_char then (- digits_value base s')%Z else digits_value base s
  | EmptyString => 0%Z
  end.

Lemma digit_spec d : (0 <= d < 36)%Z → index_of (digit d) digit_chars = d ∧ Ascii.eqb (digit d) minus_char = false.
Proof.
  intros Hd. assert (Hall : forallb (λ n, let z := Z.of_nat n in
    Z.eqb (index_of (digit z) digit_chars) z && negb (Ascii.eqb (digit z) minus_char)) (seq 0 36) = true) by reflexivity.
  rewrite forallb_forall in Hall. specialize (Hall (Z.to_nat d)). rewrite Z2Nat.id in Hall by lia.
  apply andb_true_iff in Hall as [H1 H2]; [|apply List.in_seq; lia].
  split; [by apply Z.eqb_eq|by apply negb_true_iff].
Qed.

Definition digit_in (base d : Z) : Prop := (0 <= d < base)%Z.

Lemma digits_in base fuel u acc : (2 <= base)%Z → (0 <= u)%Z → (u < base ^ Z.of_nat fuel)%Z →
  Forall (digit_in base) acc → Forall (digit_in base) (digits fuel base u acc).
Proof.
  intros Hb. revert u acc. induction fuel as [|fuel IH]; intros u acc Hu Hf Ha; [done|]. simpl.
  destruct (Z.ltb_spec u base); [by constructor|]. apply IH.
  - apply Z.div_pos; lia.
  - apply Z.div_lt_upper_bound; [lia|]. by rewrite Nat2Z.inj_succ, Z.pow_succ_r in Hf by lia.
  - constructor; [apply Z.mod_pos_bound; lia|done].
Qed.

Lemma digits_fold base fuel u acc : (2 <= base)%Z → (0 <= u)%Z → (u < base ^ Z.of_nat fuel)%Z → 0 < fuel →
  fold_left (λ a d, a * base + d)%Z (digits fuel base u acc) 0%Z = fold_left (λ a d, a * base + d)%Z acc u.
Proof.
  intros Hb. revert u acc. induction fuel as [|fuel IH]; intros u acc Hu Hf Hp; [lia|]. simpl.
  destruct (Z.ltb_spec u base); [done|].
  rewrite Nat2Z.inj_succ, Z.pow_succ_r in Hf by lia.
  destruct fuel as [|fuel]; [simpl in Hf; lia|].
  rewrite IH; [|apply Z.div_pos; lia|apply Z.div_lt_upper_bound; lia|lia].
  simpl. f_equal. rewrite Z.mul_comm. symmetry. apply Z.div_mod. lia.
Qed.

Lemma digits_value_map base ds : Forall (digit_in 36) ds →
  digits_value base (String.string_of_list_ascii (map digit ds)) = fold_left (λ a d, a * base + d)%Z ds 0%Z.
Proof.
  unfold digits_value. rewrite String.list_ascii_of_string_of_list_ascii. generalize 0%Z.
  induction ds as [|d ds IH]; intros a Hd; [done|]. apply Forall_cons in Hd as [Hd Hds]. cbn [map fold_left].
  rewrite (proj1 (digit_spec d Hd)). by apply IH.
Qed.

Lemma pow64 base : (2 <= base)%Z → (2 ^ 63 < base ^ 64)%Z.
Proof.
  intros Hb. apply Z.lt_le_trans with (2 ^ 64)%Z; [by apply Z.pow_lt_mono_r|]. apply Z.pow_le_mono_l. lia.
Qed.

(** Formatting can be undone. *)
Lemma FormatInt_ParseInt {E} i base : (2 <= base <= 36)%Z → (- 2 ^ 63 <= i < 2 ^ 63)%Z →
  ∃ s, FormatInt (E := E) i base = Ret s ∧ ParseInt s base = i.
Proof.
  intros Hb Hi. unfold FormatInt. rewrite (proj2 (Z.ltb_ge _ _)), (proj2 (Z.ltb_ge 36 _)) by lia. simpl orb.
  eexists. split; [reflexivity|].
  pose proof (pow64 base ltac:(lia)) as Hp.
  assert (Hd : Forall (digit_in base) (digits 64 base (Z.abs i) [])) by (apply digits_in; [lia..|constructor]).
  assert (Hf : fold_left (λ a d, a * base + d)%Z (digits 64 base (Z.abs i) []) 0%Z = Z.abs i).
  { by rewrite digits_fold by lia. }
  revert Hd Hf. generalize (digits 64 base (Z.abs i) []). intros ds Hd Hf.
  assert (Hv : digits_value base (String.string_of_list_ascii (map digit ds)) = Z.abs i).
  { rewrite digits_value_map; [done|]. eapply Forall_impl; [exact Hd|]. unfold digit_in. simpl. lia. }
  destruct (Z.ltb_spec i 0) as [Hn|Hn].
  - cbn [ParseInt]. unfold minus_char. rewrite Ascii.eqb_refl, Hv. lia.
  - destruct ds as [|d ds]; [cbn in *; lia|].
    apply Forall_cons in Hd as [Hd _]. cbn [map String.string_of_list_ascii ParseInt] in *.
    rewrite (proj2 (digit_spec d ltac:(unfold digit_in in Hd; lia))). rewrite Hv. lia.
Qed.

Lemma FormatInt_inj {E} i j base s : (2 <= base <= 36)%Z → (- 2 ^ 63 <= i < 2 ^ 63)%Z → (- 2 ^ 63 <= j < 2 ^ 63)%Z →
  FormatInt (E := E) i base = Ret s → FormatInt (E := E) j base = Ret s → i = j.
Proof.
  intros Hb Hi Hj Ei Ej. destruct (FormatInt_ParseInt (E := E) i base Hb Hi) as (si & Ei' & Pi).
  destruct (FormatInt_ParseInt (E := E) j base Hb Hj) as (sj & Ej' & Pj). congruence.
Qed.
End Digits.

(** ** Which time stamps collide *)

(** The nanoseconds since 1970, and those in a unit of each accuracy. *)
Definition total_nanos (t : time) : Z := (unixSec t * 1000000000 + nsec t)%Z.
Definition unit_nanos (accuracy : Z) : Z :=
  match accuracy with
  | 0 => 1 | 1 => 1000 | 2 => 1000000 | 3 => 1000000000
  | 4 => 60 * 1000000000 | 5 => 60 * 60 * 1000000000 | _ => 24 * 60 * 60 * 1000000000
  end%Z.

(** A time after 1970 whose nanoseconds fit in 64 bits (until the year 2262). *)
Definition representable (t : time) : Prop :=
  (0 <= unixSec t ∧ 0 <= nsec t < 1000000000 ∧ total_nanos t < 2 ^ 63)%Z.

Lemma int64_id z : (0 <= z < 2 ^ 63)%Z → int64 z = z.
Proof. intros Hz. unfold int64. rewrite Z.mod_small by lia. lia. Qed.

Lemma scaled_div s n d u : (0 <= n < d * u)%Z → (0 < u)%Z → (0 <= s)%Z → (s * d + n / u = (s * (d * u) + n) / u)%Z.
Proof. intros Hn Hu Hs. replace (s * (d * u) + n)%Z with (n + (s * d) * u)%Z by lia. rewrite Z.div_add by lia. lia. Qed.

Lemma timestamp_units {E} accuracy t : representable t → (0 <= accuracy <= 6)%Z →
  timestamp (E := E) accuracy t = Ret (total_nanos t / unit_nanos accuracy)%Z.
Proof.
  intros (Hs & Hn & Ht) Ha. unfold total_nanos in *.
  assert (Hsec : unixSec t = ((unixSec t * 1000000000 + nsec t) / 1000000000)%Z).
  { rewrite Z.div_add_l by lia. rewrite Z.div_small by lia. lia. }
  assert (Hq : (0 <= unixSec t / 60)%Z ∧ (0 <= unixSec t / 60 / 60)%Z) by (split; repeat apply Z.div_pos; lia).
  assert (Hcases : (accuracy = 0 ∨ accuracy = 1 ∨ accuracy = 2 ∨ accuracy = 3 ∨ accuracy = 4 ∨ accuracy = 5 ∨ accuracy = 6)%Z) by lia.
  destruct Hcases as [->|[->|[->|[->|[->|[->| ->]]]]]]; simpl; unfold UnixNano, UnixMicro, UnixMilli, Unix; f_equal.
  - rewrite int64_id by lia. by rewrite Z.div_1_r.
  - rewrite (scaled_div (unixSec t) (nsec t) 1000000 1000) by lia. apply int64_id.
    split; [apply Z.div_pos; lia|apply Z.div_lt_upper_bound; lia].
  - rewrite (scaled_div (unixSec t) (nsec t) 1000 1000000) by lia. apply int64_id.
    split; [apply Z.div_pos; lia|apply Z.div_lt_upper_bound; lia].
  - exact Hsec.
  - rewrite Z.quot_div_nonneg by lia. rewrite Hsec at 1. by rewrite Z.div_div by lia.
  - rewrite (Z.quot_div_nonneg (unixSec t)), (Z.quot_div_nonneg (_ / _)) by lia.
    rewrite Hsec at 1. by rewrite !Z.div_div by lia.
  - rewrite (Z.quot_div_nonneg (unixSec t)), (Z.quot_div_nonneg (unixSec t / 60)), (Z.quot_div_nonneg (_ / _ / _)) by lia.
    rewrite Hsec at 1. by rewrite !Z.div_div by lia.
Qed.

(** Between 1970 and 2262, with a base from 2 to 36, two generated
    identifiers are the same exactly when the times fall into one unit of the
    accuracy: nothing else makes them collide, and within a unit every retry of
    an insert gets the identifier that was taken. *)
Theorem timestamp_collisions {E} accuracy base t1 t2 :
  (0 <= accuracy <= 6)%Z → (2 <= base <= 36)%Z → representable t1 → representable t2 →
  ∃ id1 id2, timestamp_ID (E := E) accuracy base t1 = Ret id1 ∧ timestamp_ID (E := E) accuracy base t2 = Ret id2 ∧
    (id1 = id2 ↔ (total_nanos t1 / unit_nanos accuracy)%Z = (total_nanos t2 / unit_nanos accuracy)%Z).
Proof.
  intros Ha Hb H1 H2. unfold timestamp_ID. rewrite !timestamp_units by done. cbn [rbind].
  assert (Hr : ∀ t, representable t → (- 2 ^ 63 <= total_nanos t / unit_nanos accuracy < 2 ^ 63)%Z).
  { intros t (Hs & Hn & Ht). assert (Hu : (1 <= unit_nanos accuracy)%Z) by (unfold unit_nanos; repeat case_match; lia).
    assert (0 <= total_nanos t)%Z by (unfold total_nanos; lia).
    split; [apply Z.le_trans with 0%Z; [lia|apply Z.div_pos; lia]|].
    apply Z.div_lt_upper_bound; [lia|]. nia. }
  destruct (FormatInt_ParseInt (E := E) _ base Hb (Hr _ H1)) as (id1 & E1 & _).
  destruct (FormatInt_ParseInt (E := E) _ base Hb (Hr _ H2)) as (id2 & E2 & _).
  exists id1, id2. split_and!; [done..|]. split.
  - intros <-. by eapply FormatInt_inj; eauto.
  - intros Heq. rewrite Heq in E1. congruence.
Qed.

Module InsertExamples.

(** A store of numbers; the generator counts up from the state. *)
Definition counting : inserter (nat * option nat) string := mkInserter
  (λ '(n, _), ((Datatypes.S n, Some n), Ret tt)) id (λ _, None)
  (λ s, (s, if decide (s.2 = Some 2) then Fail "not found" else Ret tt))
  (λ s, (s, Ret tt)) (λ s, (s.1, None)) (String.eqb "not found").

Example third_attempt : InsertWithIdGenerator (logging counting) 5 ((0, None), []) =
  (((3, Some 2), taken ++ taken ++ [Generated true; Checked (Some true); Inserted]), Ret tt).
Proof. reflexivity. Qed.

Example two_attempts_are_not_enough : InsertWithIdGenerator counting 2 (0, None) = ((2, None), Fail (not_able_to_generate 2)).
Proof. reflexivity. Qed.

Example base_36 : timestamp_ID (E := string) 3 36 (mkTime 1700000000 5) = Ret "s44we8".
Proof. reflexivity. Qed.

Lemma timestamp_collisions_witness :
  ∃ id1 id2, timestamp_ID (E := string) 4 36 (mkTime 1700000000 0) = Ret id1 ∧
    timestamp_ID (E := string) 4 36 (mkTime 1700000030 0) = Ret id2 ∧
    (id1 = id2 ↔ (total_nanos (mkTime 1700000000 0) / unit_nanos 4)%Z = (total_nanos (mkTime 1700000030 0) / unit_nanos 4)%Z).
Proof. apply timestamp_collisions; try lia; unfold representable, total_nanos; cbn; lia. Defined.

End InsertExamples.
