(* ===== verification/DalChanges.v ===== *)
(** * Tracked records and change sets (src/dal/changes.go)

    [Changes] collects the records that a workflow is going to save, one per
    key; [ApplyChanges] plays a change set on a transaction.  Records, keys and
    change sets come from another package: what the code calls of them is a
    class each. *)

From Stdlib Require Import String.
From stdpp Require Import base list strings.
From S2P Require Import Prelude GoValues RecordKey.

Local Open Scope string_scope.
Local Open Scope nat_scope.
Local Open Scope list_scope.

(** ** Tracked records *)

(** Records are compared as interface values, by [==], and their keys by
    [record.EqualKeys]; [MarkAsChanged] changes the state of a record. *)
Class Records (R S : Type) := {
  same_record : R → R → bool;
  EqualKeys : R → R → bool;
  MarkAsChanged : R → S → S;
}.

(** A record is the same as itself. *)
Class RecordsLaws (R S : Type) `{!Records R S} : Prop :=
  same_record_refl r : same_record r r = true.

Section Tracked.
Context {R S : Type} `{!Records R S}.

Definition Changes : Type := list R.

Definition matches (rec changed : R) : bool := same_record changed rec || EqualKeys changed rec.

(** A nil record is [None]. *)
Definition IsChanged (changes : Changes) (rec : option R) : bool :=
  match rec with None => false | Some rec => existsb (matches rec) changes end.

Definition FlagAsChanged (changes : Changes) (rec : option R) (s : S) : S * res unit Changes :=
  match rec with
  | None => (s, Panic "record == nil")
  | Some rec =>
      (MarkAsChanged rec s, Ret (if IsChanged changes (Some rec) then changes else changes ++ [rec]))
  end.

(** A copy: a slice that is appended to later does not change it. *)
Definition Records_ (changes : Changes) : list R := changes.
Definition HasChanges (changes : Changes) : bool := 0 <? length changes.

Fixpoint flag_all (recs : list R) (changes : Changes) (s : S) : S * res unit Changes :=
  match recs with
  | [] => (s, Ret changes)
  | r :: recs =>
      match FlagAsChanged changes (Some r) s with
      | (s, Ret changes) => flag_all recs changes s
      | other => other
      end
  end.

(** The first record of each key, in order: a record is kept unless one that
    was kept before it matches. *)
Fixpoint first_of_each (kept recs : list R) : list R :=
  match recs with
  | [] => []
  | r :: recs => if existsb (matches r) kept then first_of_each kept recs else r :: first_of_each (kept ++ [r]) recs
  end.

Definition distinct (recs : list R) : Prop := ForallOrdPairs (λ r r', matches r' r = false) recs.

Lemma flag_all_spec recs changes s :
  flag_all recs changes s = (fold_left (λ s r, MarkAsChanged r s) recs s, Ret (changes ++ first_of_each changes recs)).
Proof.
  revert changes s. induction recs as [|r recs IH]; intros changes s; simpl; [by rewrite app_nil_r|].
  rewrite IH. destruct (existsb (matches r) changes); [done|]. by rewrite <- app_assoc.
Qed.

Lemma first_of_each_app kept pre post :
  first_of_each kept (pre ++ post) = first_of_each kept pre ++ first_of_each (kept ++ first_of_each kept pre) post.
Proof.
  revert kept. induction pre as [|r pre IH]; intros kept; simpl; [by rewrite app_nil_r|].
  destruct (existsb (matches r) kept); [apply IH|]. simpl. f_equal. rewrite IH. by rewrite <- app_assoc.
Qed.

(** When a record is flagged, it follows the records tracked so far, or it
    matches one of them and nothing is tracked. *)
Lemma first_of_each_cons pre r post :
  first_of_each [] (pre ++ r :: post) =
    (if existsb (matches r) (first_of_each [] pre) then first_of_each [] pre else first_of_each [] pre ++ [r]) ++
    first_of_each (first_of_each [] (pre ++ [r])) post.
Proof.
  rewrite !first_of_each_app. simpl. destruct (existsb (matches r) (first_of_each [] pre)); simpl.
  - by rewrite app_nil_r.
  - by rewrite <- app_assoc.
Qed.

Lemma distinct_snoc recs r : distinct recs → existsb (matches r) recs = false → distinct (recs ++ [r]).
Proof.
  intros Hd. induction Hd as [|r' recs Hf Hd IH]; simpl; intros He; [repeat constructor|].
  apply orb_false_iff in He as [He1 He2]. constructor; [|by apply IH].
  apply Forall_app. by repeat constructor.
Qed.

Lemma first_of_each_distinct kept recs : distinct kept → distinct (kept ++ first_of_each kept recs).
Proof.
  revert kept. induction recs as [|r recs IH]; intros kept Hk; simpl; [by rewrite app_nil_r|].
  destruct (existsb (matches r) kept) eqn:E; [by apply IH|].
  change (r :: ?l) with ([r] ++ l). rewrite app_assoc. by apply IH, distinct_snoc.
Qed.

Lemma first_of_each_covers `{!RecordsLaws R S} kept recs r :
  r ∈ recs → existsb (matches r) (kept ++ first_of_each kept recs) = true.
Proof.
  revert kept. induction recs as [|r' recs IH]; intros kept Hr; [by apply not_elem_of_nil in Hr|].
  simpl. destruct (existsb (matches r') kept) eqn:E; apply elem_of_cons in Hr as [->|Hr].
  - by rewrite existsb_app, E.
  - by apply IH.
  - rewrite existsb_app. simpl. unfold matches at 2. rewrite same_record_refl. by rewrite orb_true_r.
  - change (r' :: ?l) with ([r'] ++ l). rewrite app_assoc. by apply IH.
Qed.

Lemma first_of_each_sublist kept recs : sublist (first_of_each kept recs) recs.
Proof.
  revert kept. induction recs as [|r recs IH]; intros kept; simpl; [done|].
  destruct (existsb (matches r) kept); constructor; apply IH.
Qed.
End Tracked.
Arguments Changes R : clear implicits.

(** C39: flagging records marks every one of them, in order, and tracks
    exactly the first of each key, in the order in which they were flagged
    first: when a record is flagged after [pre], it is added behind the records
    tracked for [pre] if none of those matches it, and nothing is added if one
    does.  So no two tracked records match, every flagged record is reported as
    changed, and there are changes as soon as a record was flagged. *)
Theorem Changes_track_once {R S} `{!Records R S, !RecordsLaws R S} (recs : list R) (s : S) :
  ∃ changes, flag_all recs [] s = (fold_left (λ s r, MarkAsChanged r s) recs s, Ret changes) ∧
    Records_ changes = first_of_each (S := S) [] recs ∧
    (∀ pre r post, recs = pre ++ r :: post → ∃ kept, flag_all pre [] s = (fold_left (λ s r, MarkAsChanged r s) pre s, Ret kept) ∧
      if existsb (matches (S := S) r) kept then kept `prefix_of` changes ∧ flag_all (pre ++ [r]) [] s = (fold_left (λ s r, MarkAsChanged r s) (pre ++ [r]) s, Ret kept)
      else kept ++ [r] `prefix_of` changes) ∧
    sublist (Records_ changes) recs ∧ distinct (S := S) changes ∧
    (∀ r, r ∈ recs → IsChanged (S := S) changes (Some r) = true) ∧ HasChanges changes = (0 <? length recs).
Proof.
  eexists. rewrite flag_all_spec. split_and!; [done|done| |apply first_of_each_sublist| | |].
  - intros pre r post ->. eexists. rewrite flag_all_spec. split; [done|]. simpl. rewrite first_of_each_cons.
    destruct (existsb (matches r) (first_of_each [] pre)) eqn:E; [|by eexists].
    split; [by eexists|]. rewrite flag_all_spec, first_of_each_app. simpl. by rewrite E, app_nil_r.
  - apply (first_of_each_distinct []). constructor.
  - intros r Hr. by apply first_of_each_covers.
  - by destruct recs.
Qed.

(** ** Change sets *)

(** [record.Changes]: the queued operations, and [Reset]. *)
Class ChangeSet `{RecordKeys} (R U C : Type) := {
  RecordsToInsert : C → list R;
  RecordsToUpdate : C → list (R * list U);
  RecordsToDelete : C → list key;
  Reset : C → C;
  record_Key : R → key;
}.

Inductive change_error (E : Type) :=
| failed_to_insert (e : E)
| failed_to_update (text : string) (e : E)
| failed_to_delete (e : E).
Arguments failed_to_insert {E} e.
Arguments failed_to_update {E} text e.
Arguments failed_to_delete {E} e.

(** The operations of a transaction that are called. *)
Record write_transaction `{RecordKeys} (S E R U : Type) := mkWriteTransaction {
  tx_InsertMulti : list R → S → S * res E unit;
  tx_Update : key → list U → S → S * res E unit;
  tx_DeleteMulti : list key → S → S * res E unit;
}.
Arguments mkWriteTransaction {_ S E R U}.
Arguments tx_InsertMulti {_ S E R U} w.
Arguments tx_Update {_ S E R U} w.
Arguments tx_DeleteMulti {_ S E R U} w.

Section Apply.
Context `{RecordKeys} {S E R U C : Type} `{!ChangeSet R U C}.
Context (tx : write_transaction S E R U).

(** Keys are compared as pointers. *)
Definition excludeRecords (records : list R) (excludeKeys : list key) : list R :=
  if decide (excludeKeys = []) then records
  else List.filter (λ r, negb (existsb (key_eqb (record_Key r)) excludeKeys)) records.

(** [m], and when it succeeds [k] *)
Definition and_then (m : S → S * res (change_error E) unit) (k : S → S * res (change_error E) unit) (s : S) :=
  match m s with (s, Ret _) => k s | other => other end.

Definition wrapping (f : E → change_error E) (m : S → S * res E unit) (s : S) : S * res (change_error E) unit :=
  let '(s, r) := m s in (s, rmap_error f r).

Fixpoint apply_updates (updates : list (R * list U)) (s : S) : S * res (change_error E) unit :=
  match updates with
  | [] => (s, Ret tt)
  | (r, us) :: updates =>
      and_then (wrapping (failed_to_update (key_String (record_Key r))) (tx_Update tx (record_Key r) us))
        (apply_updates updates) s
  end.

Definition apply_inserts (records : list R) (s : S) : S * res (change_error E) unit :=
  if 0 <? length records then wrapping failed_to_insert (tx_InsertMulti tx records) s else (s, Ret tt).

Definition apply_deletes (keys : list key) (s : S) : S * res (change_error E) unit :=
  if 0 <? length keys then wrapping failed_to_delete (tx_DeleteMulti tx keys) s else (s, Ret tt).

(** The change set is reset only at the end. *)
Definition ApplyChanges (changes : option C) (excludeKeys : list key) (s : S) : S * option C * res (change_error E) unit :=
  match changes with
  | None => (s, None, Panic "changes == nil")
  | Some c =>
      let '(s, r) := and_then (apply_inserts (excludeRecords (RecordsToInsert c) excludeKeys))
                       (and_then (apply_updates (RecordsToUpdate c)) (apply_deletes (RecordsToDelete c))) s in
      (s, Some match r with Ret _ => Reset c | _ => c end, r)
  end.
End Apply.

(** ** The commands of a change set *)

(** A call of the transaction, as data. *)
Inductive command `{RecordKeys} (R U : Type) :=
| CInsert (records : list R)
| CUpdate (k : key) (updates : list U)
| CDelete (keys : list key).
Arguments CInsert {_ R U} records.
Arguments CUpdate {_ R U} k updates.
Arguments CDelete {_ R U} keys.

Section Commands.
Context `{RecordKeys} {S E R U C : Type} `{!ChangeSet R U C}.
Context (tx : write_transaction S E R U).
Implicit Types cmd : command R U.

Definition run_command cmd : S → S * res E unit :=
  match cmd with
  | CInsert records => tx_InsertMulti tx records
  | CUpdate k updates => tx_Update tx k updates
  | CDelete keys => tx_DeleteMulti tx keys
  end.

(** The error of a change set when a command fails. *)
Definition command_error cmd : E → change_error E :=
  match cmd with
  | CInsert _ => failed_to_insert
  | CUpdate k _ => failed_to_update (key_String k)
  | CDelete _ => failed_to_delete
  end.

(** All inserts in one call, then the updates one by one, then all deletes in
    one call; an empty list makes no call. *)
Definition commands (c : C) (excludeKeys : list key) : list (command R U) :=
  (let records := excludeRecords (RecordsToInsert c) excludeKeys in if 0 <? length records then [CInsert records] else [])
  ++ map (λ '(r, us), CUpdate (record_Key r) us) (RecordsToUpdate c)
  ++ (if 0 <? length (RecordsToDelete c) then [CDelete (RecordsToDelete c)] else []).

(** Commands that all succeed. *)
Inductive commands_run : list (command R U) → S → S → Prop :=
| commands_none s : commands_run [] s s
| commands_next cmd cmds s s' s'' :
    run_command cmd s = (s', Ret tt) → commands_run cmds s' s'' → commands_run (cmd :: cmds) s s''.

Fixpoint run_commands (cmds : list (command R U)) (s : S) : S * res (change_error E) unit :=
  match cmds with
  | [] => (s, Ret tt)
  | cmd :: cmds => and_then (wrapping (command_error cmd) (run_command cmd)) (run_commands cmds) s
  end.

Lemma run_commands_app l1 l2 s : run_commands (l1 ++ l2) s = and_then (run_commands l1) (run_commands l2) s.
Proof.
  revert s. induction l1 as [|cmd l1 IH]; intros s; [done|]. simpl. unfold and_then at 1 2 3.
  destruct (wrapping _ _ s) as [s1 [u|e|msg]]; [|done..]. apply IH.
Qed.

Lemma and_then_ext {S' E'} (m k m' k' : S' → S' * res (change_error E') unit) s :
  (∀ t, m t = m' t) → (∀ t, k t = k' t) → and_then m k s = and_then m' k' s.
Proof. intros Hm Hk. unfold and_then. rewrite Hm. by destruct (m' s) as [t [u|e|msg]]. Qed.

Lemma run_one cmd s : run_commands [cmd] s = wrapping (command_error cmd) (run_command cmd) s.
Proof. simpl. unfold and_then. by destruct (wrapping _ _ s) as [s1 [[]|e|msg]]. Qed.

Lemma apply_updates_commands updates s :
  apply_updates tx updates s = run_commands (map (λ '(r, us), CUpdate (record_Key r) us) updates) s.
Proof.
  revert s. induction updates as [|[r us] updates IH]; intros s; [done|]. simpl. by apply and_then_ext.
Qed.

Lemma apply_inserts_commands records s :
  apply_inserts tx records s = run_commands (if 0 <? length records then [CInsert records] else []) s.
Proof. unfold apply_inserts. destruct (0 <? length records); [|done]. by rewrite run_one. Qed.

Lemma apply_deletes_commands keys s :
  apply_deletes tx keys s = run_commands (if 0 <? length keys then [CDelete keys] else []) s.
Proof. unfold apply_deletes. destruct (0 <? length keys); [|done]. by rewrite run_one. Qed.

Lemma ApplyChanges_commands c excludeKeys s :
  ApplyChanges tx (Some c) excludeKeys s =
    (let '(s', r) := run_commands (commands c excludeKeys) s in
     (s', Some match r with Ret _ => Reset c | _ => c end, r)).
Proof.
  unfold ApplyChanges, commands. rewrite run_commands_app.
  rewrite (and_then_ext _ (and_then (apply_updates tx (RecordsToUpdate c)) (apply_deletes tx (RecordsToDelete c)))
    (run_commands (if 0 <? length (excludeRecords (RecordsToInsert c) excludeKeys)
                   then [CInsert (excludeRecords (RecordsToInsert c) excludeKeys)] else []))
    (run_commands (map (λ '(r, us), CUpdate (record_Key r) us) (RecordsToUpdate c) ++
                   (if 0 <? length (RecordsToDelete c) then [CDelete (RecordsToDelete c)] else [])))); [done| |].
  - intros t. apply apply_inserts_commands.
  - intros t. rewrite run_commands_app. apply and_then_ext; intros u; [apply apply_updates_commands|apply apply_deletes_commands].
Qed.

Lemma run_commands_stops cmds s s' r : run_commands cmds s = (s', r) →
  match r with
  | Ret _ => commands_run cmds s s'
  | Fail e => ∃ before cmd after t err, cmds = before ++ cmd :: after ∧ commands_run before s t ∧
      run_command cmd t = (s', Fail err) ∧ e = command_error cmd err
  | Panic msg => ∃ before cmd after t, cmds = before ++ cmd :: after ∧ commands_run before s t ∧
      run_command cmd t = (s', Panic msg)
  end.
Proof.
  revert s. induction cmds as [|cmd cmds IH]; intros s Hr; simpl in Hr; [simplify_eq; constructor|].
  unfold and_then, wrapping in Hr. destruct (run_command cmd s) as [s1 [[]|e|msg]] eqn:Ec; simpl in Hr.
  - specialize (IH s1 Hr). destruct r as [u|e|msg].
    + by econstructor.
    + destruct IH as (before & cmd' & after & t & err & -> & Hb & Hrest).
      exists (cmd :: before), cmd', after, t, err. split_and!; [done|by econstructor|apply Hrest..].
    + destruct IH as (before & cmd' & after & t & -> & Hb & Hrest).
      exists (cmd :: before), cmd', after, t. split_and!; [done|by econstructor|done].
  - simplify_eq. exists [], cmd, cmds, s, e. split_and!; [done|constructor|done..].
  - simplify_eq. exists [], cmd, cmds, s. split_and!; [done|constructor|done].
Qed.
End Commands.

(** C38: [ApplyChanges] runs the commands of a change set in order: the
    inserts that are not excluded in one call, each update, and the deletes in
    one call.  It succeeds when all of them do, and only then is the change set
    reset; at the first failure it stops, leaves the change set as it was, and
    reports that command's error under the command's kind, with the effects of
    the commands before it in place. *)
Theorem ApplyChanges_runs `{RecordKeys} {S E R U C} `{!ChangeSet R U C} (tx : write_transaction S E R U) c excludeKeys s :
  let '(s', c', r) := ApplyChanges tx (Some c) excludeKeys s in
  match r with
  | Ret _ => commands_run tx (commands c excludeKeys) s s' ∧ c' = Some (Reset c)
  | Fail e => c' = Some c ∧ ∃ before cmd after t err, commands c excludeKeys = before ++ cmd :: after ∧
      commands_run tx before s t ∧ run_command tx cmd t = (s', Fail err) ∧ e = command_error cmd err
  | Panic msg => c' = Some c ∧ ∃ before cmd after t, commands c excludeKeys = before ++ cmd :: after ∧
      commands_run tx before s t ∧ run_command tx cmd t = (s', Panic msg)
  end.
Proof.
  rewrite ApplyChanges_commands. destruct (run_commands tx (commands c excludeKeys) s) as [s' r] eqn:Er.
  pose proof (run_commands_stops tx _ _ _ _ Er). by destruct r.
Qed.

Module ChangesExamples.

(** Records are numbers that stand for pointers; their keys are the numbers
    modulo 10, and the state lists the records that were marked. *)
#[local] Instance numbered : Records nat (list nat) := {|
  same_record := Nat.eqb;
  EqualKeys r r' := Nat.eqb (r mod 10) (r' mod 10);
  MarkAsChanged r marked := marked ++ [r];
|}.
#[local] Instance numbered_laws : RecordsLaws nat (list nat).
Proof. intros r. apply Nat.eqb_refl. Qed.

Example one_per_key : flag_all [3; 5; 13; 5; 7] [] [] = ([3; 5; 13; 5; 7], Ret [3; 5; 7]).
Proof. reflexivity. Qed.

Lemma Changes_track_once_witness :
  ∃ changes, flag_all [3; 5; 13] [] ([] : list nat) =
      (fold_left (λ s r, MarkAsChanged r s) [3; 5; 13] ([] : list nat), Ret changes) ∧ Records_ changes = [3; 5].
Proof. destruct (Changes_track_once [3; 5; 13] ([] : list nat)) as (changes & Hf & Hc & _). by exists changes. Defined.

End ChangesExamples.
