(* ===== verification/Ddl.v ===== *)
(** * Schemas and their changes (src/dbschema, src/ddl)

    The portable description of collections, the operations that alter them,
    and the helpers that hand a request to a driver when it has the
    capability.  A driver is a record of the interfaces that its handle
    implements; what it does is a function on a state. *)

From Stdlib Require Import String.
From stdpp Require Import base list strings pretty.
From S2P Require Import Prelude GoValues RecordKey DalQuery DalErrors.

Local Open Scope string_scope.
Local Open Scope nat_scope.
Local Open Scope list_scope.

(** ** Types of fields *)

Inductive Type_ := TNull | TBool | TInt | TFloat | TString | TBytes | TTime | TDecimal | TUnknown (n : Z).

Definition Type_String (t : Type_) : string :=
  match t with
  | TNull => "null" | TBool => "bool" | TInt => "int" | TFloat => "float"
  | TString => "string" | TBytes => "bytes" | TTime => "time" | TDecimal => "decimal"
  | TUnknown _ => "unknown"
  end.

(** The text of a type tells which it is, unless it is unknown. *)
Lemma Type_String_inj t t' : Type_String t = Type_String t' → t = t' ∨ ∃ n n', t = TUnknown n ∧ t' = TUnknown n'.
Proof. destruct t, t'; intros [=]; by eauto. Qed.

Record Precision := mkPrecision { Total : Z; Scale : Z }.

Inductive DefaultExpr := DefaultLiteral (v : value) | DefaultCurrentTimestamp.

Definition FieldName : Type := string.

Record FieldDef := mkFieldDef {
  fd_Name : FieldName;
  fd_Type : Type_;
  fd_Length : option Z;
  fd_Precision : option Precision;
  fd_Nullable : bool;
  fd_Default : option DefaultExpr;
  fd_AutoIncrement : bool;
}.

Record IndexDef := mkIndexDef {
  ix_Name : string;
  ix_Collection : string;
  ix_Fields : list FieldName;
  ix_Unique : bool;
}.

Record CollectionDef := mkCollectionDef {
  cd_Name : string;
  cd_Fields : list FieldDef;
  cd_PrimaryKey : list FieldName;
  cd_Indexes : list IndexDef;
}.

Record ConstraintDef := mkConstraintDef { con_Name : string; con_Type : string }.

(** ** Options of operations *)

Record Options := mkOptions { IfNotExists_ : bool; IfExists_ : bool }.

(** A nil option is skipped. *)
Definition Option_ : Type := option (Options → Options).
Definition IfNotExists : Option_ := Some (λ o, mkOptions true (IfExists_ o)).
Definition IfExists : Option_ := Some (λ o, mkOptions (IfNotExists_ o) true).

Definition ResolveOptions (opts : list Option_) : Options :=
  fold_left (λ o fn, match fn with Some fn => fn o | None => o end) opts (mkOptions false false).

(** ** Alterations *)

Inductive AlterOp :=
| addFieldOp (field : FieldDef) (options : Options)
| dropFieldOp (name : FieldName) (options : Options)
| modifyFieldOp (name : FieldName) (newDef : FieldDef) (options : Options)
| renameFieldOp (oldName newName : FieldName) (options : Options)
| addIndexOp (index : IndexDef) (options : Options)
| dropIndexOp (name : string) (options : Options).

Definition AddField (f : FieldDef) (opts : list Option_) : AlterOp := addFieldOp f (ResolveOptions opts).
Definition DropField (name : FieldName) (opts : list Option_) : AlterOp := dropFieldOp name (ResolveOptions opts).
Definition ModifyField (name : FieldName) (newDef : FieldDef) (opts : list Option_) : AlterOp :=
  modifyFieldOp name newDef (ResolveOptions opts).
Definition RenameField (oldName newName : FieldName) (opts : list Option_) : AlterOp :=
  renameFieldOp oldName newName (ResolveOptions opts).
Definition AddIndex (idx : IndexDef) (opts : list Option_) : AlterOp := addIndexOp idx (ResolveOptions opts).
Definition DropIndex (name : string) (opts : list Option_) : AlterOp := dropIndexOp name (ResolveOptions opts).

(** What a driver offers to the operations: a method for each. *)
Record Applier (S E : Type) := mkApplier {
  ApplyAddField : FieldDef → Options → S → S * option E;
  ApplyDropField : FieldName → Options → S → S * option E;
  ApplyModifyField : FieldName → FieldDef → Options → S → S * option E;
  ApplyRenameField : FieldName → FieldName → Options → S → S * option E;
  ApplyAddIndex : IndexDef → Options → S → S * option E;
  ApplyDropIndex : string → Options → S → S * option E;
}.
Arguments ApplyAddField {S E}. Arguments ApplyDropField {S E}. Arguments ApplyModifyField {S E}.
Arguments ApplyRenameField {S E}. Arguments ApplyAddIndex {S E}. Arguments ApplyDropIndex {S E}.
Arguments mkApplier {S E}.

Definition ApplyTo {S E} (op : AlterOp) (a : Applier S E) : S → S * option E :=
  match op with
  | addFieldOp field options => ApplyAddField a field options
  | dropFieldOp name options => ApplyDropField a name options
  | modifyFieldOp name newDef options => ApplyModifyField a name newDef options
  | renameFieldOp oldName newName options => ApplyRenameField a oldName newName options
  | addIndexOp index options => ApplyAddIndex a index options
  | dropIndexOp name options => ApplyDropIndex a name options
  end.

(** Options are flags: their order and repetitions do not matter. *)
Inductive known_option := KIfNotExists | KIfExists | KNil.
Definition known (k : known_option) : Option_ :=
  match k with KIfNotExists => IfNotExists | KIfExists => IfExists | KNil => None end.
Definition is_IfNotExists (k : known_option) : bool := match k with KIfNotExists => true | _ => false end.
Definition is_IfExists (k : known_option) : bool := match k with KIfExists => true | _ => false end.

Lemma ResolveOptions_flags ks :
  ResolveOptions (map known ks) = mkOptions (existsb is_IfNotExists ks) (existsb is_IfExists ks).
Proof.
  unfold ResolveOptions. cut (∀ o, fold_left (λ o fn, match fn with Some fn => fn o | None => o end) (map known ks) o =
    mkOptions (IfNotExists_ o || existsb is_IfNotExists ks) (IfExists_ o || existsb is_IfExists ks)).
  { intros Hall. by rewrite Hall. }
  induction ks as [|k ks IH]; intros [n e]; simpl; [by rewrite !orb_false_r|].
  rewrite IH. destruct k, n, e; reflexivity.
Qed.

(** ** Errors *)

(** [fmt.Sprintf("op=%s", e.Op)] and so on, where the part is not empty. *)
Definition part (prefix s : string) : list string := if decide (s = "") then [] else [prefix +:+ s].

Record NotSupportedError := mkNotSupportedError { ns_Op : string; ns_Backend : string; ns_Reason : string }.

Definition NotSupportedError_Error (e : NotSupportedError) : string :=
  let parts := "dbschema: operation not supported"
    :: part "op=" (ns_Op e) ++ part "backend=" (ns_Backend e) ++ part "reason=" (ns_Reason e) in
  fold_left (λ out p, out +:+ "; " +:+ p) (tail parts) (default "" (head parts)).

Record PartialSuccessError (E : Type) := mkPartialSuccessError {
  ps_Op : string;
  ps_Collection : string;
  ps_Backend : string;
  ps_Applied : list AlterOp;
  ps_FirstFailed : option AlterOp;
  ps_NotAttempted : list AlterOp;
  ps_Cause : option E;
}.
Arguments ps_Op {E}. Arguments ps_Collection {E}. Arguments ps_Backend {E}. Arguments ps_Applied {E}.
Arguments ps_FirstFailed {E}. Arguments ps_NotAttempted {E}. Arguments ps_Cause {E}. Arguments mkPartialSuccessError {E}.

Definition prefixed (prefix s : string) : string := if decide (s = "") then "" else prefix +:+ s +:+ " ".

Definition PartialSuccessError_Error {E} (text : E → string) (e : PartialSuccessError E) : string :=
  "ddl: partial success: " +:+ prefixed "op=" (ps_Op e) +:+ prefixed "collection=" (ps_Collection e)
  +:+ prefixed "backend=" (ps_Backend e)
  +:+ "applied=" +:+ pretty (length (ps_Applied e)) +:+ " failed=1 not_attempted=" +:+ pretty (length (ps_NotAttempted e))
  +:+ match ps_Cause e with Some c => "; cause: " +:+ text c | None => "" end.

Definition PartialSuccessError_Unwrap {E} (e : PartialSuccessError E) : option E := ps_Cause e.

(** ** Drivers and helpers *)

Inductive ddl_error (E : Type) := not_supported_error (e : NotSupportedError) | driver_error (e : E).
Arguments not_supported_error {E} e.
Arguments driver_error {E} e.

Section Helpers.
Context `{RecordKeys} {S E : Type}.

Record SchemaModifier := mkSchemaModifier {
  sm_CreateCollection : CollectionDef → list Option_ → S → S * res E unit;
  sm_DropCollection : string → list Option_ → S → S * res E unit;
  sm_AlterCollection : string → list AlterOp → S → S * res E unit;
}.

(** A reference to a collection, in a nested key space. *)
Context {CollectionRef : Type}.

Record Referrer := mkReferrer { rf_Collection : CollectionRef; rf_Fields : list FieldName }.

Record SchemaReader := mkSchemaReader {
  sr_ListCollections : option key → S → S * res E (list CollectionRef);
  sr_DescribeCollection : option CollectionRef → S → S * res E (option CollectionDef);
  sr_ListIndexes : option CollectionRef → S → S * res E (list IndexDef);
  sr_ListConstraints : option CollectionRef → S → S * res E (list ConstraintDef);
  sr_ListReferrers : option CollectionRef → S → S * res E (list Referrer);
}.

(** A handle: its adapter, which may be nil, and the interfaces it
    implements. *)
Record DB := mkDB {
  db_Adapter : option adapter;
  db_modifier : option SchemaModifier;
  db_reader : option SchemaReader;
  db_transactionalDDL : option bool;
}.

(** A nil handle implements nothing. *)
Definition backendName (db : option DB) : string :=
  match db with
  | None => ""
  | Some db => match db_Adapter db with None => "" | Some a => ad_name a end
  end.

Definition notSupportedModifier (op : string) (db : option DB) : NotSupportedError :=
  mkNotSupportedError op (backendName db) "driver does not implement ddl.SchemaModifier".
Definition notSupportedReader (op : string) (db : option DB) : NotSupportedError :=
  mkNotSupportedError op (backendName db) "driver does not implement dbschema.SchemaReader".

(** [m, ok := db.(I); if !ok { return unsupported }; return m.call(...)] *)
Definition asserted {I X} (impl : option I) (unsupported : NotSupportedError) (call : I → S → S * res E X) (s : S)
  : S * res (ddl_error E) X :=
  match impl with
  | None => (s, Fail (not_supported_error unsupported))
  | Some m => let '(s, r) := call m s in (s, rmap_error driver_error r)
  end.

Definition CreateCollection (db : option DB) (c : CollectionDef) (opts : list Option_) : S → S * res (ddl_error E) unit :=
  asserted (db ≫= db_modifier) (notSupportedModifier "CreateCollection" db) (λ m, sm_CreateCollection m c opts).
Definition DropCollection (db : option DB) (name : string) (opts : list Option_) : S → S * res (ddl_error E) unit :=
  asserted (db ≫= db_modifier) (notSupportedModifier "DropCollection" db) (λ m, sm_DropCollection m name opts).
Definition AlterCollection (db : option DB) (name : string) (ops : list AlterOp) : S → S * res (ddl_error E) unit :=
  asserted (db ≫= db_modifier) (notSupportedModifier "AlterCollection" db) (λ m, sm_AlterCollection m name ops).

Definition ListCollections (db : option DB) (parent : option key) : S → S * res (ddl_error E) (list CollectionRef) :=
  asserted (db ≫= db_reader) (notSupportedReader "ListCollections" db) (λ r, sr_ListCollections r parent).
Definition DescribeCollection (db : option DB) (ref : option CollectionRef) : S → S * res (ddl_error E) (option CollectionDef) :=
  asserted (db ≫= db_reader) (notSupportedReader "DescribeCollection" db) (λ r, sr_DescribeCollection r ref).
Definition ListIndexes (db : option DB) (ref : option CollectionRef) : S → S * res (ddl_error E) (list IndexDef) :=
  asserted (db ≫= db_reader) (notSupportedReader "ListIndexes" db) (λ r, sr_ListIndexes r ref).
Definition ListConstraints (db : option DB) (ref : option CollectionRef) : S → S * res (ddl_error E) (list ConstraintDef) :=
  asserted (db ≫= db_reader) (notSupportedReader "ListConstraints" db) (λ r, sr_ListConstraints r ref).
Definition ListReferrers (db : option DB) (ref : option CollectionRef) : S → S * res (ddl_error E) (list Referrer) :=
  asserted (db ≫= db_reader) (notSupportedReader "ListReferrers" db) (λ r, sr_ListReferrers r ref).

Definition SupportsTransactionalDDL (db : option DB) : bool :=
  match db ≫= db_transactionalDDL with None => false | Some b => b end.

(** ** What a driver is asked to do *)

(** The requests of the package, as data. *)
Inductive request := RCreate (c : CollectionDef) (opts : list Option_) | RDrop (name : string) (opts : list Option_)
  | RAlter (name : string) (ops : list AlterOp).

Definition request_op (r : request) : string :=
  match r with RCreate _ _ => "CreateCollection" | RDrop _ _ => "DropCollection" | RAlter _ _ => "AlterCollection" end.
Definition run_request (db : option DB) (r : request) : S → S * res (ddl_error E) unit :=
  match r with
  | RCreate c opts => CreateCollection db c opts
  | RDrop name opts => DropCollection db name opts
  | RAlter name ops => AlterCollection db name ops
  end.
Definition driver_request (m : SchemaModifier) (r : request) : S → S * res E unit :=
  match r with
  | RCreate c opts => sm_CreateCollection m c opts
  | RDrop name opts => sm_DropCollection m name opts
  | RAlter name ops => sm_AlterCollection m name ops
  end.

(** A request reaches the driver unchanged, and its result comes back
    unchanged; without the capability nothing happens and the error names the
    operation, the backend when it is known, and the missing interface. *)
Lemma request_delegates db r s :
  match db ≫= db_modifier with
  | Some m => run_request db r s = (let '(s', x) := driver_request m r s in (s', rmap_error driver_error x))
  | None => ∃ e, run_request db r s = (s, Fail (not_supported_error e)) ∧ ns_Op e = request_op r ∧
      NotSupportedError_Error e = "dbschema: operation not supported; op=" +:+ request_op r +:+
        (if decide (backendName db = "") then "" else "; backend=" +:+ backendName db) +:+
        "; reason=driver does not implement ddl.SchemaModifier"
  end.
Proof.
  unfold run_request, CreateCollection, DropCollection, AlterCollection, asserted.
  destruct (db ≫= db_modifier) as [m|] eqn:E1; [by destruct r|].
  exists (notSupportedModifier (request_op r) db). split; [by destruct r|]. split; [done|].
  unfold NotSupportedError_Error, notSupportedModifier, part. simpl.
  rewrite (decide_False (P := request_op r = "")) by (by destruct r). simpl.
  destruct (decide (backendName db = "")); simpl; by destruct r.
Qed.
End Helpers.

