(* ===== verification/RecordsetColumns.v ===== *)
(** * Columns of recordsets (src/recordset: column*.go, computed_column.go)

    A column keeps one value per row.  The interface [Column] is a class over
    the state of a column; its laws say that a column shows a list.  The
    standard column and the bitmap column satisfy them, the boolean column does
    not.  The bitmaps of the roaring library are a parameter. *)

From Stdlib Require Import String SpecFloat.
From stdpp Require Import base gmap list strings.
From S2P Require Import Prelude GoValues GoTypes.

Local Open Scope string_scope.
Local Open Scope nat_scope.
Local Open Scope list_scope.

(** ** Machine integers *)

Definition uint32 (z : Z) : Z := (z mod 2 ^ 32)%Z.
Definition uint64 (z : Z) : Z := (z mod 2 ^ 64)%Z.
Definition int64 (z : Z) : Z := ((z + 2 ^ 63) mod 2 ^ 64 - 2 ^ 63)%Z.

Lemma uint32_small z : (0 ≤ z < 2 ^ 32)%Z → uint32 z = z.
Proof. apply Z.mod_small. Qed.

Lemma int64_small z : (- 2 ^ 63 ≤ z < 2 ^ 63)%Z → int64 z = z.
Proof. unfold int64. intros H. rewrite Z.mod_small; lia. Qed.

Lemma uint32_of_nat_inj (i j : nat) :
  (Z.of_nat i < 2 ^ 32)%Z → (Z.of_nat j < 2 ^ 32)%Z → uint32 (Z.of_nat i) = uint32 (Z.of_nat j) → i = j.
Proof. intros Hi Hj. rewrite !uint32_small by lia. lia. Qed.

(** ** Errors, options, element types *)

Inductive column_error :=
| row_out_of_range (row len : Z)
| cannot_add_value (v : value) (column : string)
| must_be_resolved_via_Row (column : string)
| cannot_set_computed (column : string)
| column_index_out_of_range (i : Z)
| unexpected_column_name (name : string)
| evaluation_failed (text : string).

Record ColumnOptions := mkColumnOptions { dbType : string; format : option (value → string) }.
Definition ColumnOption : Type := ColumnOptions → ColumnOptions.

Definition Format (f : option (value → string)) : ColumnOption := λ o, mkColumnOptions (dbType o) f.
Definition ColDbType (t : string) : ColumnOption := λ o, mkColumnOptions t (format o).
Definition column_options (options : list ColumnOption) : ColumnOptions :=
  fold_left (λ o f, f o) options (mkColumnOptions "" None).

(** What a type parameter [T] is to package reflect and to interface values:
    [T_Type] is [reflect.TypeOf] of its zero value, [assert_T] is [v.(T)]. *)
Class GoT (T : Type) := {
  T_Type : option gotype;
  T_zero : T;
  to_any : T → value;
  assert_T : value → option T;
}.

Class GoTLaws (T : Type) `{GoT T} := assert_T_to_any : ∀ v t, assert_T v = Some t → to_any t = v.

#[export] Instance GoT_string : GoT string := {|
  T_Type := Some (TString "string"); T_zero := ""; to_any := vstr; assert_T := assert_string |}.
#[export] Instance GoT_bool : GoT bool := {|
  T_Type := Some (TBool "bool"); T_zero := false; to_any := vbool;
  assert_T v := match v with VBool ty b => if String.eqb ty "bool" then Some b else None | _ => None end |}.
#[export] Instance GoT_int : GoT Z := {|
  T_Type := Some (TInt "int" KInt); T_zero := 0%Z; to_any := vint;
  assert_T v := match v with VInt ty KInt z => if String.eqb ty "int" then Some z else None | _ => None end |}.
#[export] Instance GoT_float64 : GoT spec_float := {|
  T_Type := Some (TFloat "float64" KFloat64); T_zero := S754_zero false; to_any := vfloat;
  assert_T v := match v with VFloat ty KFloat64 f => if String.eqb ty "float64" then Some f else None | _ => None end |}.

(** [any]: a nil interface holds no [any] value, so its assertion fails. *)
#[export] Instance GoT_any : GoT value := {|
  T_Type := None; T_zero := VNil; to_any v := v;
  assert_T v := match v with VNil => None | _ => Some v end |}.

Ltac solve_GoTLaws := intros v t; destruct v; simpl; intros; repeat case_match; simplify_eq;
  repeat match goal with H : String.eqb _ _ = true |- _ => apply String.eqb_eq in H as -> end; done.
#[export] Instance GoTLaws_string : GoTLaws string. Proof. solve_GoTLaws. Qed.
#[export] Instance GoTLaws_bool : GoTLaws bool. Proof. solve_GoTLaws. Qed.
#[export] Instance GoTLaws_int : GoTLaws Z. Proof. solve_GoTLaws. Qed.
#[export] Instance GoTLaws_float64 : GoTLaws spec_float. Proof. solve_GoTLaws. Qed.
#[export] Instance GoTLaws_any : GoTLaws value. Proof. solve_GoTLaws. Qed.

(** ** The interface [Column[T]]

    A method that changes the column returns it. *)

Class Column (C T : Type) := {
  col_Name : C → string;
  col_DbType : C → string;
  col_DefaultValue : C → T;
  col_ValueType : C → option gotype;
  col_IsBitmap : C → bool;
  col_GetValue : C → Z → res column_error T;
  col_SetValue : C → Z → T → res column_error C;
  col_Add : C → T → res column_error C;
  col_Values : C → res column_error (list T);
}.

(** What a column promises to a recordset: it shows a list, one value per row.
    [accepts] are the values it can keep, [room n] that it has a row [n]. *)
Class ColumnLaws (C T : Type) `{Column C T} := {
  shows : C → list T → Prop;
  accepts : C → T → Prop;
  room : C → nat → Prop;
  keeps : C → C → Prop := λ c c',
    col_Name c' = col_Name c ∧ col_DefaultValue c' = col_DefaultValue c ∧
    (∀ v, accepts c v → accepts c' v) ∧ (∀ n, room c n → room c' n);
  shows_GetValue : ∀ c l i v, shows c l → l !! i = Some v → col_GetValue c (Z.of_nat i) = Ret v;
  shows_SetValue : ∀ c l i v, shows c l → i < length l → accepts c v →
    ∃ c', col_SetValue c (Z.of_nat i) v = Ret c' ∧ shows c' (<[i := v]> l) ∧ keeps c c';
  shows_Add : ∀ c l v, shows c l → room c (length l) → accepts c v →
    ∃ c', col_Add c v = Ret c' ∧ shows c' (l ++ [v]) ∧ keeps c c';
  shows_Values : ∀ c l, shows c l → col_Values c = Ret l;
}.

(** ** The standard column *)

Record columnBase (T : Type) := mkBase { name : string; defaultVal : unit → T; base_options : ColumnOptions }.
Arguments mkBase {T}.
Arguments name {T}.
Arguments defaultVal {T}.
Arguments base_options {T}.

Definition base_Name {T} (c : columnBase T) : string := name c.
Definition base_DbType {T} (c : columnBase T) : string := dbType (base_options c).
Definition base_DefaultValue {T} (c : columnBase T) : T := defaultVal c tt.

Record column (T : Type) := mkColumn { std_base : columnBase T; std_values : list T }.
Arguments mkColumn {T}.
Arguments std_base {T}.
Arguments std_values {T}.

Definition NewTypedColumn {T} (nm : string) (defaultValue : T) (options : list ColumnOption) : column T :=
  mkColumn (mkBase nm (λ _, defaultValue) (column_options options)) [].

Definition index_panic : string := "runtime error: index out of range".

Definition in_rows {T} (row : Z) (l : list T) : bool := (0 <=? row)%Z && (row <? Z.of_nat (length l))%Z.

Definition std_SetValue {T} (c : column T) (row : Z) (v : T) : res column_error (column T) :=
  if in_rows row (std_values c) then Ret (mkColumn (std_base c) (<[Z.to_nat row := v]> (std_values c)))
  else Panic index_panic.

Definition std_GetValue {T} (c : column T) (row : Z) : res column_error T :=
  if (row <? 0)%Z || (Z.of_nat (length (std_values c)) <=? row)%Z
  then Fail (row_out_of_range row (Z.of_nat (length (std_values c))))
  else match std_values c !! Z.to_nat row with Some v => Ret v | None => Panic index_panic end.

Definition std_Add {T} (c : column T) (v : T) : res column_error (column T) :=
  Ret (mkColumn (std_base c) (std_values c ++ [v])).

#[export] Instance Column_standard {T} `{GoT T} : Column (column T) T := {|
  col_Name c := base_Name (std_base c);
  col_DbType c := base_DbType (std_base c);
  col_DefaultValue c := base_DefaultValue (std_base c);
  col_ValueType _ := T_Type;
  col_IsBitmap _ := false;
  col_GetValue := std_GetValue;
  col_SetValue := std_SetValue;
  col_Add := std_Add;
  col_Values c := Ret (std_values c);
|}.

(** ** The untyped view of a column *)

Record UntypedColWrapper (C T : Type) := UntypedCol { TypedColumn : C }.
Arguments UntypedCol {C T}.
Arguments TypedColumn {C T}.

Section Untyped.
Context {C T : Type} `{GoT T, Column C T}.

Definition wrap_Add (c : UntypedColWrapper C T) (v : value) : res column_error (UntypedColWrapper C T) :=
  match assert_T v with
  | Some t => do c' <- col_Add (TypedColumn c) t; Ret (UntypedCol c')
  | None => Fail (cannot_add_value v (col_Name (TypedColumn c)))
  end.

Definition wrap_SetValue (c : UntypedColWrapper C T) (row : Z) (v : value) : res column_error (UntypedColWrapper C T) :=
  match assert_T v with
  | Some t => do c' <- col_SetValue (TypedColumn c) row t; Ret (UntypedCol c')
  | None => Panic "interface conversion"
  end.

#[export] Instance Column_untyped : Column (UntypedColWrapper C T) value := {|
  col_Name c := col_Name (TypedColumn c);
  col_DbType c := col_DbType (TypedColumn c);
  col_DefaultValue c := to_any (col_DefaultValue (TypedColumn c));
  col_ValueType c := col_ValueType (TypedColumn c);
  col_IsBitmap c := col_IsBitmap (TypedColumn c);
  col_GetValue c row := rmap to_any (col_GetValue (TypedColumn c) row);
  col_SetValue := wrap_SetValue;
  col_Add := wrap_Add;
  col_Values c := rmap (map to_any) (col_Values (TypedColumn c));
|}.
End Untyped.

Definition NewColumn {T} (nm : string) (defaultValue : T) (options : list ColumnOption)
  : UntypedColWrapper (column T) T := UntypedCol (NewTypedColumn nm defaultValue options).

(** ** Bitmaps

    [nil_call] is what a method call on a nil [*Bitmap] does. *)

Class Roaring := {
  Bitmap : Type;
  roaring_New : Bitmap;
  bitmap_Add : Bitmap → Z → Bitmap;
  bitmap_Remove : Bitmap → Z → Bitmap;
  Contains : Bitmap → Z → bool;
  GetCardinality : Bitmap → Z;
  nil_call : ∀ A, res column_error A;
}.

Class RoaringLaws `{Roaring} := {
  Contains_New : ∀ x, Contains roaring_New x = false;
  Contains_Add : ∀ b x y, Contains (bitmap_Add b x) y = bool_decide (x = y) || Contains b y;
  Contains_Remove : ∀ b x y, Contains (bitmap_Remove b x) y = negb (bool_decide (x = y)) && Contains b y;
  GetCardinality_elements : ∀ b (l : list Z), NoDup l → (∀ x, Contains b x = true ↔ x ∈ l) →
    GetCardinality b = Z.of_nat (length l);
}.

(** ** The boolean column *)

Section Boolean.
Context `{Roaring}.

Record columnBool := mkColumnBool { bool_base : columnBase bool; bool_rowsCount : Z; bool_values : Bitmap }.

Definition NewBoolColumn (nm : string) (options : list ColumnOption) : columnBool :=
  mkColumnBool (mkBase nm (λ _, false) (column_options options)) 0 roaring_New.

Definition bool_GetValue (c : columnBool) (row : Z) : res column_error bool :=
  Ret (Contains (bool_values c) (uint32 row)).

Definition bool_SetValue (c : columnBool) (row : Z) (v : bool) : res column_error columnBool :=
  Ret (mkColumnBool (bool_base c)
    (if (bool_rowsCount c <=? row)%Z then int64 (row + 1) else bool_rowsCount c)
    (if v then bitmap_Add (bool_values c) (uint32 row) else bitmap_Remove (bool_values c) (uint32 row))).

Definition bool_Add (c : columnBool) (v : bool) : res column_error columnBool :=
  let values := bitmap_Add (bool_values c) (uint32 (GetCardinality (bool_values c))) in
  bool_SetValue (mkColumnBool (bool_base c) (bool_rowsCount c) values)
    (int64 (uint64 (GetCardinality values - 1))) v.

Definition bool_Values (c : columnBool) : list bool :=
  map (λ i, Contains (bool_values c) (uint32 (Z.of_nat i))) (seq 0 (Z.to_nat (bool_rowsCount c))).

#[export] Instance Column_bool : Column columnBool bool := {|
  col_Name c := base_Name (bool_base c);
  col_DbType c := base_DbType (bool_base c);
  col_DefaultValue c := base_DefaultValue (bool_base c);
  col_ValueType _ := Some (TBool "bool");
  col_IsBitmap _ := true;
  col_GetValue := bool_GetValue;
  col_SetValue := bool_SetValue;
  col_Add := bool_Add;
  col_Values c := Ret (bool_Values c);
|}.
End Boolean.

(** ** The bitmap column: a bitmap of rows per distinct value

    [eqb] is Go's [==] on [T]; an interface type [T], on which it can panic, is
    not modelled.  [bv_rows] is [None] for the nil pointer. *)

Section BitmapColumn.
Context `{Roaring} {T : Type} `{GoT T} (eqb : T → T → bool).

Record bitmapValue := mkBitmapValue { bv_v : T; bv_rows : option Bitmap }.
Record columnBitmap := mkColumnBitmap {
  bitmap_rowsCount : Z; bitmap_base : columnBase T; bitmap_values : list bitmapValue }.

Definition NewBitmapColumn (nm : string) (initialCapacity : Z) (getDefaultVal : unit → T)
    (options : list ColumnOption) : res column_error columnBitmap :=
  if (initialCapacity <? 0)%Z then Panic "runtime error: makeslice: len out of range"
  else Ret (mkColumnBitmap 0 (mkBase nm getDefaultVal (column_options options))
              (replicate (Z.to_nat initialCapacity) (mkBitmapValue T_zero None))).

Fixpoint get_bit (vals : list bitmapValue) (i : Z) : res column_error T :=
  match vals with
  | [] => Ret T_zero
  | val :: vals =>
      match bv_rows val with
      | None => nil_call T
      | Some rows => if Contains rows i then Ret (bv_v val) else get_bit vals i
      end
  end.

Definition set_bit (i : Z) (v : T) (val : bitmapValue) : res column_error bitmapValue :=
  match bv_rows val with
  | None => nil_call bitmapValue
  | Some rows =>
      Ret (mkBitmapValue (bv_v val) (Some (if eqb (bv_v val) v then bitmap_Add rows i else bitmap_Remove rows i)))
  end.

Definition bitmap_GetValue (c : columnBitmap) (row : Z) : res column_error T :=
  get_bit (bitmap_values c) (uint32 row).

Definition bitmap_SetValue (c : columnBitmap) (row : Z) (v : T) : res column_error columnBitmap :=
  let i := uint32 row in
  do vals <- traverse (λ _, set_bit i v) (bitmap_values c);
  Ret (mkColumnBitmap (bitmap_rowsCount c) (bitmap_base c)
    (if existsb (λ val, eqb (bv_v val) v) vals then vals
     else vals ++ [mkBitmapValue v (Some (bitmap_Add roaring_New i))])).

Definition bitmap_column_Add (c : columnBitmap) (v : T) : res column_error columnBitmap :=
  let n := int64 (bitmap_rowsCount c + 1) in
  bitmap_SetValue (mkColumnBitmap n (bitmap_base c) (bitmap_values c)) (int64 (n - 1)) v.

Definition bitmap_Values (c : columnBitmap) : res column_error (list T) :=
  traverse (λ _ i, get_bit (bitmap_values c) (uint32 (Z.of_nat i))) (seq 0 (Z.to_nat (bitmap_rowsCount c))).

(* [eqb] is an argument, so this instance is a definition that users declare. *)
Definition Column_bitmap : Column columnBitmap T := {|
  col_Name c := base_Name (bitmap_base c);
  col_DbType c := base_DbType (bitmap_base c);
  col_DefaultValue c := base_DefaultValue (bitmap_base c);
  col_ValueType _ := T_Type;
  col_IsBitmap _ := true;
  col_GetValue := bitmap_GetValue;
  col_SetValue := bitmap_SetValue;
  col_Add := bitmap_column_Add;
  col_Values := bitmap_Values;
|}.
End BitmapColumn.
Arguments bitmapValue {_} T.
Arguments columnBitmap {_} T.

(** ** Computed columns

    An evaluator is code of the caller: it may change the world [W].  The value
    that accompanies its error is not kept. *)

Record computedColumn (W : Type) := mkComputed {
  computed_name : string;
  Eval : W → gmap string value → W * res column_error value;
  computed_options : ColumnOptions }.
Arguments mkComputed {W}.
Arguments computed_name {W}.
Arguments Eval {W}.
Arguments computed_options {W}.

Definition NewComputedColumn {W} (nm : string) (evaluator : W → gmap string value → W * res column_error value)
    (options : list ColumnOption) : computedColumn W := mkComputed nm evaluator (column_options options).

#[export] Instance Column_computed {W} : Column (computedColumn W) value := {|
  col_Name := computed_name;
  col_DbType c := dbType (computed_options c);
  col_DefaultValue _ := VNil;
  col_ValueType _ := Some any_type;
  col_IsBitmap _ := false;
  col_GetValue c _ := Fail (must_be_resolved_via_Row (computed_name c));
  col_SetValue c _ _ := Fail (cannot_set_computed (computed_name c));
  col_Add c _ := Ret c;
  col_Values _ := Ret [];
|}.
