(* ===== verification/RecordsetColumnLaws.v ===== *)
(** * What columns promise (src/recordset: column*.go)

    The standard column, its untyped view and the bitmap column satisfy the
    laws of [ColumnLaws]; a bitmap column answers as the standard column does,
    up to 2^32 rows.  The boolean column breaks the law of [Add]. *)

From Stdlib Require Import String SpecFloat.
From stdpp Require Import base gmap list strings.
From S2P Require Import Prelude GoValues GoTypes RecordsetColumns.

Local Open Scope string_scope.
Local Open Scope nat_scope.
Local Open Scope list_scope.

(** ** The standard column *)

Lemma in_rows_lt {T} (i : nat) (l : list T) : i < length l → in_rows (Z.of_nat i) l = true.
Proof. intros H. unfold in_rows. apply andb_true_iff. split; [apply Z.leb_le|apply Z.ltb_lt]; lia. Qed.

Lemma in_rows_nat {T} (i : nat) (l : list T) : in_rows (Z.of_nat i) l = true → i < length l.
Proof. unfold in_rows. intros [_ H%Z.ltb_lt]%andb_true_iff. lia. Qed.

#[export] Program Instance ColumnLaws_standard {T} `{GoT T} : ColumnLaws (column T) T := {|
  shows c l := std_values c = l;
  accepts _ _ := True;
  room _ _ := True;
|}.
Next Obligation.
  intros T ? c l i v <- Hi. simpl. unfold std_GetValue.
  pose proof (lookup_lt_Some _ _ _ Hi) as Hlt.
  rewrite (proj2 (Z.ltb_ge _ _)), (proj2 (Z.leb_gt _ _)) by lia. simpl.
  by rewrite Nat2Z.id, Hi.
Qed.
Next Obligation.
  intros T ? c l i v <- Hi _. simpl. unfold std_SetValue. rewrite in_rows_lt, Nat2Z.id by done. eauto 8.
Qed.
Next Obligation. intros T ? c l v <- _ _. simpl. unfold std_Add. eauto 8. Qed.
Next Obligation. by intros T ? c l <-. Qed.

(** ** The untyped view *)

#[export] Program Instance ColumnLaws_untyped {C T} `{GoTLaws T, ColumnLaws C T} : ColumnLaws (UntypedColWrapper C T) value := {|
  shows c l := ∃ l', shows (TypedColumn c) l' ∧ l = map to_any l';
  accepts c v := ∃ t, assert_T v = Some t ∧ accepts (TypedColumn c) t;
  room c n := room (TypedColumn c) n;
|}.
Next Obligation.
  intros C T ? ? ? ? c l i v [l' [Hl ->]] Hi. simpl.
  apply list_lookup_fmap_Some in Hi as [t [-> Ht]]. by rewrite (shows_GetValue _ _ _ _ Hl Ht).
Qed.
Next Obligation.
  intros C T ? ? ? ? c l i v [l' [Hl ->]] Hi [t [Hv Ht]]. simpl. unfold wrap_SetValue. rewrite Hv.
  rewrite length_map in Hi.
  destruct (shows_SetValue _ _ _ _ Hl Hi Ht) as [c' [-> [Hc' [Hn [Hd [Ha Hr]]]]]]. simpl.
  exists (UntypedCol c'). simpl. rewrite Hn, Hd. split; [done|]. split.
  - exists (<[i:=t]> l'). split; [done|]. rewrite <- (assert_T_to_any _ _ Hv). symmetry. apply list_fmap_insert.
  - naive_solver.
Qed.
Next Obligation.
  intros C T ? ? ? ? c l v [l' [Hl ->]] Hroom [t [Hv Ht]]. simpl. unfold wrap_Add. rewrite Hv.
  rewrite length_map in Hroom.
  destruct (shows_Add _ _ _ Hl Hroom Ht) as [c' [-> [Hc' [Hn [Hd [Ha Hr]]]]]]. simpl.
  exists (UntypedCol c'). simpl. rewrite Hn, Hd. split; [done|]. split.
  - exists (l' ++ [t]). split; [done|]. rewrite map_app. simpl. by rewrite (assert_T_to_any _ _ Hv).
  - naive_solver.
Qed.
Next Obligation.
  intros C T ? ? ? ? c l [l' [Hl ->]]. simpl. by rewrite (shows_Values _ _ Hl).
Qed.

(** ** The bitmap column *)

Section Cells.
Context `{Roaring} {T : Type} `{GoT T}.

Definition bit (val : bitmapValue T) (i : Z) : bool :=
  match bv_rows val with Some rows => Contains rows i | None => false end.

(** Row [i] is in the bitmap of the value [v] and in no other's. *)
Definition holds_at (vals : list (bitmapValue T)) (i : Z) (v : T) : Prop :=
  (∃ val, val ∈ vals ∧ bit val i = true) ∧ ∀ val, val ∈ vals → bit val i = true → bv_v val = v.

Definition allocated (vals : list (bitmapValue T)) : Prop := ∀ val, val ∈ vals → is_Some (bv_rows val).

Definition bitmap_shows (c : columnBitmap T) (l : list T) : Prop :=
  bitmap_rowsCount c = Z.of_nat (length l) ∧ (Z.of_nat (length l) ≤ 2 ^ 32)%Z ∧
  allocated (bitmap_values c) ∧
  ∀ i v, l !! i = Some v → holds_at (bitmap_values c) (uint32 (Z.of_nat i)) v.

Lemma get_bit_holds vals i v : allocated vals → holds_at vals i v → get_bit vals i = Ret v.
Proof.
  intros Ha [[val [Hin Hbit]] Hv]. induction vals as [|w vals IH]; [set_solver|].
  destruct (Ha w ltac:(set_solver)) as [rows Hr]. simpl. rewrite Hr.
  destruct (Contains rows i) eqn:E.
  - f_equal. apply Hv; [set_solver|]. unfold bit. by rewrite Hr.
  - apply IH; [set_solver| |set_solver]. apply elem_of_cons in Hin as [->|]; [|done].
    unfold bit in Hbit. rewrite Hr in Hbit. congruence.
Qed.

End Cells.

Section Bitmap.
Context `{RoaringLaws} {T : Type} `{GoT T} (eqb : T → T → bool) (eqb_spec : ∀ x y, eqb x y = true ↔ x = y).

Definition marked (i : Z) (v : T) (val : bitmapValue T) : bitmapValue T :=
  mkBitmapValue (bv_v val)
    ((λ rows, if eqb (bv_v val) v then bitmap_Add rows i else bitmap_Remove rows i) <$> bv_rows val).

Lemma set_bit_marked i v vals :
  allocated vals → traverse (λ _, set_bit eqb i v) vals = Ret (map (marked i v) vals).
Proof.
  intros Ha. unfold traverse. rewrite (traverse_from_const _ (marked i v)); [done|].
  intros _ val Hin. destruct (Ha _ Hin) as [rows Hr]. unfold set_bit, marked. by rewrite Hr.
Qed.

Lemma bit_marked i v val j :
  is_Some (bv_rows val) →
  bit (marked i v val) j = if bool_decide (i = j) then eqb (bv_v val) v else bit val j.
Proof.
  intros [rows Hr]. unfold bit, marked. simpl. rewrite Hr. simpl.
  destruct (eqb (bv_v val) v); rewrite ?Contains_Add, ?Contains_Remove; by case_bool_decide.
Qed.

Lemma bitmap_SetValue_spec c (l : list T) i v :
  allocated (bitmap_values c) →
  ∃ vals, bitmap_SetValue eqb c i v = Ret (mkColumnBitmap (bitmap_rowsCount c) (bitmap_base c) vals) ∧
    allocated vals ∧ holds_at vals (uint32 i) v ∧
    ∀ j w, j ≠ uint32 i → holds_at (bitmap_values c) j w → holds_at vals j w.
Proof.
  intros Ha. unfold bitmap_SetValue. rewrite set_bit_marked by done. simpl.
  set (vals := map (marked (uint32 i) v) (bitmap_values c)).
  assert (Hvals : ∀ val, val ∈ vals ↔ ∃ val0, val = marked (uint32 i) v val0 ∧ val0 ∈ bitmap_values c)
    by (intros val; apply list_elem_of_fmap).
  assert (Hsome : ∀ val, val ∈ bitmap_values c → is_Some (bv_rows (marked (uint32 i) v val)))
    by (intros val Hin; destruct (Ha _ Hin) as [rows Hr]; unfold marked; rewrite Hr; eauto).
  assert (Hother : ∀ j w, j ≠ uint32 i → holds_at (bitmap_values c) j w → holds_at vals j w).
  { intros j w Hj [[val [Hin Hbit]] Hw]. split.
    - exists (marked (uint32 i) v val). rewrite Hvals, bit_marked, bool_decide_false by auto. eauto.
    - intros val' [val0 [-> Hin0]]%Hvals. rewrite bit_marked, bool_decide_false by auto. simpl. eauto. }
  assert (Hsame : ∀ val, val ∈ vals → bit val (uint32 i) = true → bv_v val = v).
  { intros val' [val0 [-> Hin0]]%Hvals. rewrite bit_marked, bool_decide_true by auto. simpl. apply eqb_spec. }
  eexists. split; [reflexivity|].
  destruct (existsb _ vals) eqn:E.
  - split; [intros val [val0 [-> Hin0]]%Hvals; auto|]. split; [|done]. split; [|done].
    apply existsb_exists in E as [val [Hin Hv]]. apply list_elem_of_In in Hin. exists val. split; [done|].
    apply Hvals in Hin as [val0 [-> Hin0]]. rewrite bit_marked, bool_decide_true by auto. done.
  - split; [intros val [[val0 [-> Hin0]]%Hvals| ->%list_elem_of_singleton]%elem_of_app; [auto|eauto]|].
    split; [split|].
    + eexists. split; [apply elem_of_app; right; by apply list_elem_of_singleton|].
      unfold bit. simpl. by rewrite Contains_Add, bool_decide_true.
    + intros val [Hin| ->%list_elem_of_singleton]%elem_of_app; [auto|done].
    + intros j w Hj Hw. destruct (Hother j w Hj Hw) as [[val [Hin Hbit]] Hall]. split.
      * exists val. split; [apply elem_of_app; by left|done].
      * intros val' [Hin'| ->%list_elem_of_singleton]%elem_of_app; [auto|].
        unfold bit. simpl. rewrite Contains_Add, Contains_New, bool_decide_false by auto. done.
Qed.

#[local] Existing Instance Column_bitmap.

Lemma bitmap_shows_SetValue c l i v :
  bitmap_shows c l → i < length l →
  ∃ c', bitmap_SetValue eqb c (Z.of_nat i) v = Ret c' ∧ bitmap_shows c' (<[i := v]> l) ∧
        bitmap_base c' = bitmap_base c.
Proof.
  intros (Hn & Hb & Ha & Hl) Hi.
  destruct (bitmap_SetValue_spec c l (Z.of_nat i) v Ha) as (vals & -> & Ha' & Hv & Ho).
  eexists. split; [done|]. split; [|done]. unfold bitmap_shows. simpl. rewrite length_insert.
  split; [done|]. split; [done|]. split; [done|]. intros j w Hj.
  pose proof (lookup_lt_Some _ _ _ Hj) as Hlt. rewrite length_insert in Hlt.
  destruct (decide (i = j)) as [->|Hne].
  - rewrite list_lookup_insert_eq in Hj by done. by simplify_eq.
  - rewrite list_lookup_insert_ne in Hj by done. apply Ho; [|by apply Hl].
    intros He. apply Hne. symmetry. apply uint32_of_nat_inj; [lia|lia|done].
Qed.

Lemma bitmap_shows_Add c l v :
  bitmap_shows c l → (Z.of_nat (length l) < 2 ^ 32)%Z →
  ∃ c', bitmap_column_Add eqb c v = Ret c' ∧ bitmap_shows c' (l ++ [v]) ∧ bitmap_base c' = bitmap_base c.
Proof.
  intros (Hn & Hb & Ha & Hl) Hr. unfold bitmap_column_Add. rewrite Hn.
  rewrite (int64_small (Z.of_nat (length l) + 1)), int64_small by lia.
  replace (Z.of_nat (length l) + 1 - 1)%Z with (Z.of_nat (length l)) by lia.
  destruct (bitmap_SetValue_spec (mkColumnBitmap (Z.of_nat (length l) + 1) (bitmap_base c) (bitmap_values c)) l
    (Z.of_nat (length l)) v Ha) as (vals & -> & Ha' & Hv & Ho).
  eexists. split; [done|]. split; [|done]. unfold bitmap_shows. simpl. rewrite length_app. simpl.
  split; [lia|]. split; [lia|]. split; [done|]. intros j w Hj.
  apply lookup_app_Some in Hj as [Hj|[Hlen Hj]].
  - pose proof (lookup_lt_Some _ _ _ Hj) as Hlt. apply Ho; [|by apply Hl].
    intros He%uint32_of_nat_inj; lia.
  - pose proof (lookup_lt_Some _ _ _ Hj) as Hlt. simpl in Hlt.
    replace j with (length l) in * by lia. rewrite Nat.sub_diag in Hj. by simplify_eq/=.
Qed.

Lemma traverse_from_seq {E A} (f : nat → res E A) (l : list A) k : ∀ i,
  (∀ j x, l !! j = Some x → f (k + j) = Ret x) → traverse_from (λ _, f) i (seq k (length l)) = Ret l.
Proof.
  revert k. induction l as [|x l IH]; intros k i Hf; simpl; [done|].
  rewrite <- (Nat.add_0_r k) at 1. rewrite (Hf 0 x) by done. simpl. rewrite IH; [done|].
  intros j y Hj. rewrite Nat.add_succ_comm. by apply Hf.
Qed.

#[export] Program Instance ColumnLaws_bitmap : ColumnLaws (H := Column_bitmap eqb) (columnBitmap T) T := {|
  shows := bitmap_shows;
  accepts _ _ := True;
  room _ n := (Z.of_nat n < 2 ^ 32)%Z;
|}.
Next Obligation. intros c l i v (Hn & Hb & Ha & Hl) Hi. simpl. unfold bitmap_GetValue. apply get_bit_holds; auto. Qed.
Next Obligation.
  intros c l i v Hc Hi _. destruct (bitmap_shows_SetValue c l i v Hc Hi) as (c' & E1 & E2 & E3).
  exists c'. cbn. rewrite E3. split; [exact E1|]. split; [exact E2|]. auto.
Qed.
Next Obligation.
  intros c l v Hc Hr _. destruct (bitmap_shows_Add c l v Hc Hr) as (c' & E1 & E2 & E3).
  exists c'. cbn. rewrite E3. split; [exact E1|]. split; [exact E2|]. auto.
Qed.
Next Obligation.
  intros c l (Hn & Hb & Ha & Hl). simpl. unfold bitmap_Values. rewrite Hn, Nat2Z.id.
  apply traverse_from_seq. intros j x Hj. apply get_bit_holds; auto.
Qed.
End Bitmap.

(** ** Programs over a column *)

Inductive column_op (T : Type) := op_Set (row : nat) (v : T) | op_Add (v : T).
Arguments op_Set {T}.
Arguments op_Add {T}.

Definition run_op {C T} `{Column C T} (op : column_op T) (c : C) : res column_error C :=
  match op with op_Set row v => col_SetValue c (Z.of_nat row) v | op_Add v => col_Add c v end.

Definition run_ops {C T} `{Column C T} (ops : list (column_op T)) (c : C) : res column_error C := fold_res run_op ops c.

Lemma std_op_length {T} `{GoT T} op (c c' : column T) :
  run_op op c = Ret c' → length (std_values c) ≤ length (std_values c').
Proof.
  destruct op as [i v|v]; simpl; unfold std_SetValue, std_Add; [case_match|]; intros; simplify_eq/=;
    rewrite ?length_insert, ?length_app; lia.
Qed.

Lemma std_ops_length {T} `{GoT T} ops : ∀ c c' : column T,
  run_ops ops c = Ret c' → length (std_values c) ≤ length (std_values c').
Proof.
  unfold run_ops. induction ops as [|op ops IH]; intros c c' Hr; cbn [fold_res] in Hr; [simplify_eq; lia|].
  apply rbind_Ret_inv in Hr as (c1 & H1 & H2). apply std_op_length in H1. apply IH in H2. lia.
Qed.

Section Same.
Context `{RoaringLaws} {T : Type} `{GoT T} (eqb : T → T → bool) (eqb_spec : ∀ x y, eqb x y = true ↔ x = y).
#[local] Existing Instance Column_bitmap.

Lemma bitmap_op_simulates op (c : columnBitmap T) (s s' : column T) :
  bitmap_shows c (std_values s) → run_op op s = Ret s' → (Z.of_nat (length (std_values s')) ≤ 2 ^ 32)%Z →
  ∃ c', run_op (H := Column_bitmap eqb) op c = Ret c' ∧ bitmap_shows c' (std_values s').
Proof.
  destruct op as [i v|v]; simpl; unfold std_SetValue, std_Add; intros Hc Hs Hb.
  - destruct (in_rows _ _) eqn:E; simplify_eq/=. rewrite Nat2Z.id.
    apply in_rows_nat in E.
    destruct (bitmap_shows_SetValue eqb eqb_spec c _ i v Hc E) as (c' & ? & ? & _); eauto.
  - simplify_eq/=. rewrite length_app in Hb. simpl in Hb.
    destruct (bitmap_shows_Add eqb eqb_spec c _ v Hc) as (c' & ? & ? & _); [lia|eauto].
Qed.

Lemma bitmap_ops_simulate ops : ∀ (c : columnBitmap T) (s s' : column T),
  bitmap_shows c (std_values s) → run_ops ops s = Ret s' → (Z.of_nat (length (std_values s')) ≤ 2 ^ 32)%Z →
  ∃ c', run_ops (H := Column_bitmap eqb) ops c = Ret c' ∧ bitmap_shows c' (std_values s').
Proof.
  induction ops as [|op ops IH]; intros c s s' Hc Hs Hb.
  - unfold run_ops in *. simpl in *. simplify_eq. eauto.
  - unfold run_ops in *. cbn [fold_res] in *. apply rbind_Ret_inv in Hs as (s1 & Hs1 & Hs2).
    destruct (bitmap_op_simulates op c s s1 Hc Hs1) as (c1 & -> & Hc1).
    { pose proof (std_ops_length _ _ _ Hs2). lia. }
    simpl. eauto.
Qed.

(** A bitmap column, which keeps one bitmap of row numbers per distinct
    value, answers as the standard column does after any sequence of additions
    and assignments to existing rows, as long as it has at most 2^32 rows. *)
Theorem bitmap_column_is_standard nm d options ops (s : column T) :
  run_ops ops (NewTypedColumn nm d options) = Ret s →
  (Z.of_nat (length (std_values s)) ≤ 2 ^ 32)%Z →
  ∃ c0 c, NewBitmapColumn nm 0 (λ _, d) options = Ret c0 ∧
    run_ops (H := Column_bitmap eqb) ops c0 = Ret c ∧
    bitmap_Values c = Ret (std_values s) ∧
    ∀ row, in_rows row (std_values s) = true → bitmap_GetValue c row = std_GetValue s row.
Proof.
  intros Hs Hb. eexists. destruct (bitmap_ops_simulate ops
    (mkColumnBitmap 0 (mkBase nm (λ _, d) (column_options options)) []) (NewTypedColumn nm d options) s)
    as (c & Hc & Hsh); [|done|done|].
  { split; [done|]. split; [done|]. split; [intros ? ?; set_solver|done]. }
  exists c. split; [reflexivity|]. split; [done|]. split.
  { apply (shows_Values (ColumnLaws := ColumnLaws_bitmap eqb eqb_spec) _ _ Hsh). }
  intros row Hrow. unfold in_rows in Hrow. to_prop.
  destruct (lookup_lt_is_Some_2 (std_values s) (Z.to_nat row)) as [v Hv]; [lia|].
  rewrite <- (Z2Nat.id row) by lia.
  etransitivity; [apply (shows_GetValue (ColumnLaws := ColumnLaws_bitmap eqb eqb_spec) _ _ _ _ Hsh Hv)|].
  symmetry. by apply (shows_GetValue (ColumnLaws := ColumnLaws_standard) s (std_values s)).
Qed.

(** C40: rows are kept as 32-bit numbers: rows that differ by a multiple of
    2^32 are one cell of a bitmap column, so that writing either is read
    through the other, while rows below 2^32 are separate cells. *)
Theorem bitmap_rows_wrap (c : columnBitmap T) row k v :
  allocated (bitmap_values c) →
  ∃ c', bitmap_SetValue eqb c row v = Ret c' ∧
    bitmap_GetValue c' (row + k * 2 ^ 32) = Ret v ∧
    ∀ other w, holds_at (bitmap_values c) (uint32 other) w →
      bitmap_GetValue c' other = Ret (if bool_decide (uint32 other = uint32 row) then v else w).
Proof.
  intros Ha. destruct (bitmap_SetValue_spec eqb eqb_spec c [] row v Ha) as (vals & -> & Ha' & Hv & Ho).
  eexists. split; [done|]. unfold bitmap_GetValue. simpl. split.
  - apply get_bit_holds; [done|]. replace (uint32 (row + k * 2 ^ 32)) with (uint32 row); [done|].
    unfold uint32. by rewrite Z.mod_add.
  - intros other w Hw. apply get_bit_holds; [done|]. case_bool_decide as E; [by rewrite E|auto].
Qed.
End Same.

(** ** The boolean column *)

Section Bool.
Context `{RoaringLaws}.

(** Adding a value to a boolean column whose bitmap has [n] rows set writes row
    [n], whatever the number of rows: after an added [false] the next value
    takes the same row. *)
Lemma bool_Add_row (c : columnBool) v n :
  GetCardinality (bool_values c) = n → Contains (bool_values c) (uint32 n) = false →
  (0 ≤ n < 2 ^ 32 - 1)%Z →
  GetCardinality (bitmap_Add (bool_values c) (uint32 n)) = (n + 1)%Z →
  bool_Add c v = bool_SetValue (mkColumnBool (bool_base c) (bool_rowsCount c) (bitmap_Add (bool_values c) (uint32 n))) n v.
Proof.
  intros <- Hc Hb Hcard. unfold bool_Add. cbn zeta. rewrite Hcard.
  replace (GetCardinality (bool_values c) + 1 - 1)%Z with (GetCardinality (bool_values c)) by lia.
  unfold uint64. rewrite Z.mod_small by lia. by rewrite int64_small by lia.
Qed.

(** The boolean column does not keep its values: after [false] and [true]
    were added to a new one, it has a single row, and that row is [true]. *)
Theorem bool_column_loses_false nm options :
  ∃ c1 c2, col_Add (NewBoolColumn nm options) false = Ret c1 ∧ col_Add c1 true = Ret c2 ∧
    col_Values c2 = Ret [true] ∧ bool_GetValue c2 0 = Ret true ∧ bool_GetValue c2 1 = Ret false.
Proof.
  set (b1 := bitmap_Add roaring_New (uint32 0)).
  set (b2 := bitmap_Remove b1 (uint32 0)).
  set (b3 := bitmap_Add b2 (uint32 0)).
  assert (N : ∀ x, Contains roaring_New x = false) by apply Contains_New.
  assert (E2 : ∀ x, Contains b2 x = false).
  { intros x. unfold b2, b1. rewrite Contains_Remove, Contains_Add, N. by case_bool_decide. }
  assert (C0 : GetCardinality roaring_New = 0%Z).
  { apply (GetCardinality_elements _ []); [constructor|]. intros x. rewrite N. set_solver. }
  assert (C2 : GetCardinality b2 = 0%Z).
  { apply (GetCardinality_elements _ []); [constructor|]. intros x. rewrite E2. set_solver. }
  assert (one : ∀ b, (∀ x, Contains b x = false) → GetCardinality (bitmap_Add b (uint32 0)) = 1%Z).
  { intros b Hb. apply (GetCardinality_elements _ [uint32 0]); [apply NoDup_singleton|]. intros x.
    rewrite Contains_Add, Hb, orb_false_r, bool_decide_eq_true, list_elem_of_singleton. naive_solver. }
  assert (E3 : ∀ x, Contains (bitmap_Add b3 (uint32 0)) x = bool_decide (uint32 0 = x)).
  { intros x. unfold b3. rewrite !Contains_Add, E2. by case_bool_decide. }
  exists (mkColumnBool (mkBase nm (λ _, false) (column_options options)) 1 b2).
  exists (mkColumnBool (mkBase nm (λ _, false) (column_options options)) 1 (bitmap_Add b3 (uint32 0))).
  cbn [col_Add Column_bool col_Values]. split; [|split].
  - rewrite (bool_Add_row _ _ 0%Z); [done|done|apply N|lia|by apply one].
  - rewrite (bool_Add_row _ _ 0%Z); [done|done|apply E2|lia|by apply one].
  - unfold bool_Values, bool_GetValue. simpl. by rewrite !E3.
Qed.
End Bool.

(** ** Bitmaps as finite sets *)

Module ColumnExamples.

#[export] Instance set_bitmaps : Roaring := {|
  Bitmap := gset Z;
  roaring_New := ∅;
  bitmap_Add b x := {[x]} ∪ b;
  bitmap_Remove b x := b ∖ {[x]};
  Contains b x := bool_decide (x ∈ b);
  GetCardinality b := Z.of_nat (size b);
  nil_call A := Panic "runtime error: invalid memory address or nil pointer dereference";
|}.

#[export] Instance set_bitmaps_laws : RoaringLaws.
Proof.
  split; simpl.
  - intros x. apply bool_decide_eq_false. set_solver.
  - intros b x y. apply eq_iff_eq_true. rewrite orb_true_iff, !bool_decide_eq_true. set_solver.
  - intros b x y. apply eq_iff_eq_true. rewrite andb_true_iff, negb_true_iff, !bool_decide_eq_true, bool_decide_eq_false.
    set_solver.
  - intros b l Hl Hb. rewrite <- (size_list_to_set (C := gset Z) l Hl). do 2 f_equal.
    apply set_eq. intros x. rewrite elem_of_list_to_set, <- Hb. by rewrite bool_decide_eq_true.
Defined.

Definition colours : list (column_op string) := [op_Add "red"; op_Add "blue"; op_Add "red"; op_Set 1 "red"; op_Set 0 "green"].

Lemma string_eqb_spec (x y : string) : String.eqb x y = true ↔ x = y.
Proof. apply String.eqb_eq. Qed.

Lemma bitmap_column_is_standard_witness :
  run_ops colours (NewTypedColumn "colour" "" []) =
    Ret (mkColumn (mkBase "colour" (λ _, "") (column_options [])) ["green"; "red"; "red"]) ∧
  ∃ c0 c, NewBitmapColumn "colour" 0 (λ _, "") [] = Ret c0 ∧
    run_ops (H := Column_bitmap String.eqb) colours c0 = Ret c ∧
    bitmap_Values c = Ret ["green"; "red"; "red"] ∧
    ∀ row, in_rows row ["green"; "red"; "red"] = true →
      bitmap_GetValue c row =
      std_GetValue (mkColumn (mkBase "colour" (λ _, "") (column_options [])) ["green"; "red"; "red"]) row.
Proof.
  split; [reflexivity|].
  apply (bitmap_column_is_standard String.eqb string_eqb_spec "colour" "" [] colours
    (mkColumn (mkBase "colour" (λ _, "") (column_options [])) ["green"; "red"; "red"])).
  - reflexivity.
  - vm_compute. discriminate.
Defined.

Lemma bitmap_rows_wrap_witness :
  ∃ c', bitmap_SetValue String.eqb
      (mkColumnBitmap 1 (mkBase "colour" (λ _, "") (column_options [])) [mkBitmapValue "red" (Some {[0%Z]})])
      (2 ^ 32)%Z "blue" = Ret c' ∧
    bitmap_GetValue c' (2 ^ 32 + 3 * 2 ^ 32)%Z = Ret "blue" ∧
    ∀ other w, holds_at [mkBitmapValue "red" (Some {[0%Z]})] (uint32 other) w →
      bitmap_GetValue c' other = Ret (if bool_decide (uint32 other = uint32 (2 ^ 32)) then "blue" else w).
Proof.
  apply (bitmap_rows_wrap String.eqb string_eqb_spec
    (mkColumnBitmap 1 (mkBase "colour" (λ _, "") (column_options [])) [mkBitmapValue "red" (Some {[0%Z]})])
    (2 ^ 32)%Z 3 "blue").
  intros val Hval. apply list_elem_of_singleton in Hval. subst val. by exists {[0%Z]}.
Defined.

Lemma bool_column_loses_false_witness :
  ∃ c1 c2, col_Add (NewBoolColumn "done" []) false = Ret c1 ∧ col_Add c1 true = Ret c2 ∧
    col_Values c2 = Ret [true] ∧ bool_GetValue c2 0 = Ret true ∧ bool_GetValue c2 1 = Ret false.
Proof. exact (bool_column_loses_false "done" []). Defined.

(** Slots reserved by an initial capacity have no bitmap: the first use of the
    column calls a method of a nil pointer. *)
Example reserved_slots_panic :
  (do c <- NewBitmapColumn "colour" 1 (λ _, "") []; bitmap_column_Add String.eqb c "red")
  = Panic "runtime error: invalid memory address or nil pointer dereference".
Proof. reflexivity. Qed.

(** An untyped view of an [any] column refuses its own default value. *)
Example any_view_refuses_nil :
  col_Add (NewColumn (T := value) "note" VNil []) VNil = Fail (cannot_add_value VNil "note").
Proof. reflexivity. Qed.

End ColumnExamples.
