(* ===== verification/RecordsetRows.v ===== *)
(** * Columnar recordsets and their rows (src/recordset: columns.go, options.go,
    recordset_columnar.go)

    A recordset has columns of different types behind one interface: a column is
    a package of its state and its methods.  A row is an index with a memo of
    the computed columns it has resolved. *)

From Stdlib Require Import String SpecFloat.
From stdpp Require Import base gmap list strings pretty.
From S2P Require Import Prelude GoValues GoTypes RecordsetColumns RecordsetColumnLaws.

Local Open Scope string_scope.
Local Open Scope nat_scope.
Local Open Scope list_scope.

(** ** Columns of any kind *)

Record stored_column := mkStored { carrier : Type; methods : Column carrier value; object : carrier }.

Definition stored {C} `{M : Column C value} (c : C) : stored_column := mkStored C M c.

Section Rows.
Context {W : Type}.

(** [Column[any]]; the assertion to [ComputedColumn] is the match. *)
Inductive any_column := Stored (c : stored_column) | Computed (c : computedColumn W).

Definition column_Name (c : any_column) : string :=
  match c with Stored c => @col_Name _ _ (methods c) (object c) | Computed c => computed_name c end.

Definition column_DefaultValue (c : any_column) : value :=
  match c with Stored c => @col_DefaultValue _ _ (methods c) (object c) | Computed c => col_DefaultValue c end.

Definition column_GetValue (c : any_column) (row : Z) : res column_error value :=
  match c with Stored c => @col_GetValue _ _ (methods c) (object c) row | Computed c => col_GetValue c row end.

Definition column_SetValue (c : any_column) (row : Z) (v : value) : res column_error any_column :=
  match c with
  | Stored c => rmap (λ o, Stored (mkStored _ (methods c) o)) (@col_SetValue _ _ (methods c) (object c) row v)
  | Computed c => rmap Computed (col_SetValue c row v)
  end.

Definition column_Add (c : any_column) (v : value) : res column_error any_column :=
  match c with
  | Stored c => rmap (λ o, Stored (mkStored _ (methods c) o)) (@col_Add _ _ (methods c) (object c) v)
  | Computed c => rmap Computed (col_Add c v)
  end.

(** ** The list of columns *)

Definition GetColumnByIndex (cols : list any_column) (i : Z) : res column_error (option any_column) :=
  if (Z.of_nat (length cols) <=? i)%Z then Ret None
  else if (i <? 0)%Z then Panic index_panic
  else Ret (cols !! Z.to_nat i).

Fixpoint GetColumnByName (cols : list any_column) (nm : string) : option any_column :=
  match cols with
  | [] => None
  | c :: cols => if String.eqb (column_Name c) nm then Some c else GetColumnByName cols nm
  end.

Fixpoint column_index_from (i : Z) (cols : list any_column) (nm : string) : Z :=
  match cols with
  | [] => -1
  | c :: cols => if String.eqb (column_Name c) nm then i else column_index_from (i + 1) cols nm
  end.
Definition GetColumnIndex : list any_column → string → Z := column_index_from 0.

(** ** The recordset *)

Record ColumnarRecordset := mkRecordset { rs_name : string; rs_cols : list any_column; rs_rowsCount : Z }.

(** [row_memo] is [None] for the nil map; it holds results and errors. *)
Record columnarRow := mkColumnarRow { row_i : Z; row_memo : option (gmap string (res column_error value)) }.

Definition NewColumnarRecordset (nm : string) (cols : list any_column) : ColumnarRecordset := mkRecordset nm cols 0.

(** [_ = c.Add(c.DefaultValue())]: an error is dropped. *)
Definition add_default (c : any_column) : res column_error any_column :=
  match column_Add c (column_DefaultValue c) with Fail _ => Ret c | r => r end.

Definition NewRow (rs : ColumnarRecordset) : res column_error (ColumnarRecordset * columnarRow) :=
  do cols <- traverse (λ _, add_default) (rs_cols rs);
  Ret (mkRecordset (rs_name rs) cols (int64 (rs_rowsCount rs + 1)), mkColumnarRow (rs_rowsCount rs) None).

Definition GetRow (rs : ColumnarRecordset) (i : Z) : option columnarRow :=
  if (rs_rowsCount rs <=? i)%Z then None else Some (mkColumnarRow i None).

(** ** Rows *)

(** The stored values of a row by column name; a later column of the same name
    wins. *)
Fixpoint gather_stored (row : Z) (cols : list any_column) (acc : gmap string value)
  : res column_error (gmap string value) :=
  match cols with
  | [] => Ret acc
  | Computed _ :: cols => gather_stored row cols acc
  | c :: cols => do v <- column_GetValue c row; gather_stored row cols (<[column_Name c := v]> acc)
  end.

Definition memoize (row : columnarRow) (nm : string) (r : res column_error value) : columnarRow :=
  mkColumnarRow (row_i row) (Some (<[nm := r]> (default ∅ (row_memo row)))).

Definition resolveComputed (w : W) (row : columnarRow) (cc : computedColumn W) (rs : ColumnarRecordset)
  : W * columnarRow * res column_error value :=
  match default ∅ (row_memo row) !! computed_name cc with
  | Some cached => (w, row, cached)
  | None =>
      let allocated := mkColumnarRow (row_i row) (Some (default ∅ (row_memo row))) in
      match gather_stored (row_i row) (rs_cols rs) ∅ with
      | Panic msg => (w, allocated, Panic msg)
      | Fail e => (w, memoize row (computed_name cc) (Fail e), Fail e)
      | Ret values =>
          match Eval cc w values with
          | (w, Panic msg) => (w, allocated, Panic msg)
          | (w, r) => (w, memoize row (computed_name cc) r, r)
          end
      end
  end.

(** The value of one column of a row. *)
Definition column_value (w : W) (row : columnarRow) (c : any_column) (rs : ColumnarRecordset)
  : W * columnarRow * res column_error value :=
  match c with
  | Computed cc => resolveComputed w row cc rs
  | _ => (w, row, column_GetValue c (row_i row))
  end.

(** The loop of [Data] over the columns: the slice, and the error or the panic
    that ended it.  The slice that comes with an error has nil from the failing
    column on (an evaluator that fails has no value besides its error). *)
Fixpoint row_data (w : W) (row : columnarRow) (cols : list any_column) (rs : ColumnarRecordset)
  : W * columnarRow * (list value * res column_error unit) :=
  match cols with
  | [] => (w, row, ([], Ret tt))
  | c :: cols =>
      match column_value w row c rs with
      | (w, row, Ret v) => let '(w, row, (data, r)) := row_data w row cols rs in (w, row, (v :: data, r))
      | (w, row, r) => (w, row, (repeat VNil (Datatypes.S (length cols)), rmap (λ _, tt) r))
      end
  end.

Definition Data (w : W) (row : columnarRow) (rs : ColumnarRecordset) : W * columnarRow * (list value * res column_error unit) :=
  row_data w row (rs_cols rs) rs.

Definition GetValueByIndex (w : W) (row : columnarRow) (i : Z) (rs : ColumnarRecordset)
  : W * columnarRow * res column_error value :=
  match GetColumnByIndex (rs_cols rs) i with
  | Ret (Some c) => column_value w row c rs
  | Ret None => (w, row, Fail (column_index_out_of_range i))
  | Fail e => (w, row, Fail e)
  | Panic msg => (w, row, Panic msg)
  end.

Definition GetValueByName (w : W) (row : columnarRow) (nm : string) (rs : ColumnarRecordset)
  : W * columnarRow * res column_error value :=
  match GetColumnByName (rs_cols rs) nm with
  | Some c => column_value w row c rs
  | None => (w, row, Fail (unexpected_column_name nm))
  end.

Definition nil_pointer_panic : string := "runtime error: invalid memory address or nil pointer dereference".

(** A set through a row changes one column of the recordset; that of a column
    that is not there calls a method of a nil interface. *)
Definition set_column (row : columnarRow) (v : value) (rs : ColumnarRecordset) (j : nat) (c : any_column)
  : res column_error ColumnarRecordset :=
  match c with
  | Computed cc => Fail (cannot_set_computed (computed_name cc))
  | _ => do c' <- column_SetValue c (row_i row) v; Ret (mkRecordset (rs_name rs) (<[j := c']> (rs_cols rs)) (rs_rowsCount rs))
  end.

Definition SetValueByName (row : columnarRow) (nm : string) (v : value) (rs : ColumnarRecordset)
  : res column_error ColumnarRecordset :=
  match GetColumnByName (rs_cols rs) nm with
  | Some c => set_column row v rs (Z.to_nat (GetColumnIndex (rs_cols rs) nm)) c
  | None => Panic nil_pointer_panic
  end.

Definition SetValueByIndex (row : columnarRow) (i : Z) (v : value) (rs : ColumnarRecordset)
  : res column_error ColumnarRecordset :=
  do c <- GetColumnByIndex (rs_cols rs) i;
  match c with
  | Some c => set_column row v rs (Z.to_nat i) c
  | None => Panic nil_pointer_panic
  end.
End Rows.
Arguments any_column W : clear implicits.
Arguments ColumnarRecordset W : clear implicits.

(** ** Options: options.go *)

Definition Option_ : Type := string → string.
Definition WithName (nm : string) : Option_ := λ _, nm.
(** [NewOptions(opts...).Name()] *)
Definition NewOptions_Name (opts : list Option_) : string := fold_left (λ o f, f o) opts "".

(** ** Recordset kinds: type.go *)

Definition RecordsetType_String (t : Z) : string :=
  if (t =? 0)%Z then "Unknown" else if (t =? 1)%Z then "Table" else if (t =? 2)%Z then "View"
  else if (t =? 3)%Z then "StoredProcedure" else pretty t.

(** ** What a recordset shows

    A sheet is the plain table a recordset stands for: per column its name, its
    default, the values it takes and the cells.  [N] bounds the rows. *)

Record sheet_column (W : Type) := mkSheetColumn {
  s_name : string; s_default : value; s_ok : value → Prop; s_computed : option (computedColumn W); s_cells : list value }.
Arguments mkSheetColumn {W}.
Arguments s_name {W}.
Arguments s_default {W}.
Arguments s_ok {W}.
Arguments s_computed {W}.
Arguments s_cells {W}.

Section Sheet.
Context {W : Type} (N : nat).
Implicit Types (col : any_column W) (sc : sheet_column W).

Definition column_shows col sc : Prop :=
  column_Name col = s_name sc ∧ column_DefaultValue col = s_default sc ∧
  match col with
  | Stored c =>
      s_computed sc = None ∧
      ∃ L : ColumnLaws (H := methods c) (carrier c) value,
        @shows _ _ _ L (object c) (s_cells sc) ∧
        (∀ v, s_ok sc v → @accepts _ _ _ L (object c) v) ∧
        (∀ n, n < N → @room _ _ _ L (object c) n) ∧
        s_ok sc (s_default sc)
  | Computed c => s_computed sc = Some c
  end.

Definition rs_shows (rs : ColumnarRecordset W) (n : nat) (sheet : list (sheet_column W)) : Prop :=
  rs_rowsCount rs = Z.of_nat n ∧ Forall2 column_shows (rs_cols rs) sheet ∧
  Forall (λ sc, length (s_cells sc) = n) sheet.

Definition with_cells sc (cells : list value) : sheet_column W :=
  mkSheetColumn (s_name sc) (s_default sc) (s_ok sc) (s_computed sc) cells.

Definition add_cell sc : sheet_column W := with_cells sc (s_cells sc ++ [s_default sc]).
Definition set_cell (i : nat) (v : value) sc : sheet_column W := with_cells sc (<[i := v]> (s_cells sc)).

Lemma column_shows_GetValue c sc i v :
  column_shows (Stored c) sc → s_cells sc !! i = Some v → column_GetValue (W := W) (Stored c) (Z.of_nat i) = Ret v.
Proof. intros (_ & _ & _ & L & Hs & _) Hi. by apply (shows_GetValue (ColumnLaws := L) _ (s_cells sc)). Qed.

Lemma column_shows_SetValue c sc i v :
  column_shows (Stored c) sc → i < length (s_cells sc) → s_ok sc v →
  ∃ c', column_SetValue (W := W) (Stored c) (Z.of_nat i) v = Ret (Stored c') ∧ column_shows (Stored c') (set_cell i v sc).
Proof.
  intros (Hn & Hd & Hk & L & Hs & Ha & Hr & Hok) Hi Hv.
  destruct (shows_SetValue (ColumnLaws := L) _ _ _ _ Hs Hi (Ha v Hv)) as (o & Ho & Hs' & En & Ed & Ka & Kr).
  exists (mkStored _ (methods c) o). simpl. rewrite Ho. split; [done|].
  unfold column_shows. simpl in *. rewrite En, Ed. do 3 (split; [done|]). exists L. auto 8.
Qed.

Lemma column_shows_Add col sc :
  column_shows col sc → length (s_cells sc) < N →
  ∃ col', add_default col = Ret col' ∧ column_shows col' (add_cell sc).
Proof.
  unfold add_default. destruct col as [c|c]; [|intros (? & ? & ?) _; exists (Computed c); by split; [|split]].
  intros (Hn & Hd & Hk & L & Hs & Ha & Hr & Hok) Hi. rewrite Hd.
  destruct (shows_Add (ColumnLaws := L) _ _ (s_default sc) Hs (Hr _ Hi) (Ha _ Hok)) as (o & Ho & Hs' & En & Ed & Ka & Kr).
  exists (Stored (mkStored _ (methods c) o)). simpl. rewrite Ho. split; [done|].
  unfold column_shows. simpl in *. rewrite En, Ed. do 3 (split; [done|]). exists L. auto 8.
Qed.

Lemma add_defaults_show cols sheet n i :
  Forall2 column_shows cols sheet → Forall (λ sc, length (s_cells sc) = n) sheet → n < N →
  ∃ cols', traverse_from (λ _, add_default) i cols = Ret cols' ∧ Forall2 column_shows cols' (map add_cell sheet).
Proof.
  intros Hc Hl Hn. revert i. induction Hc as [|col sc cols sheet Hcol Hc IH]; intros i; simpl; [eauto|].
  apply Forall_cons in Hl as [Hlen Hl].
  destruct (column_shows_Add col sc Hcol) as (col' & -> & Hcol'); [lia|]. simpl.
  destruct (IH Hl (Datatypes.S i)) as (cols' & -> & Hc'). simpl. eauto.
Qed.

Lemma NewRow_shows rs n sheet :
  rs_shows rs n sheet → n < N → (Z.of_nat N < 2 ^ 63)%Z →
  ∃ rs', NewRow rs = Ret (rs', mkColumnarRow (Z.of_nat n) None) ∧
    rs_shows rs' (Datatypes.S n) (map add_cell sheet) ∧ rs_name rs' = rs_name rs.
Proof.
  intros (Hn & Hc & Hl) HN HB. unfold NewRow, traverse.
  destruct (add_defaults_show _ _ n 0 Hc Hl HN) as (cols' & -> & Hc'). simpl. rewrite Hn.
  eexists. split; [done|]. split; [|done]. split; [|split].
  - simpl. rewrite int64_small by lia. lia.
  - done.
  - apply Forall_map. eapply Forall_impl; [exact Hl|]. intros sc. simpl. rewrite length_app. simpl. lia.
Qed.

(** The first column of a name. *)
Definition named (sheet : list (sheet_column W)) (nm : string) (j : nat) sc : Prop :=
  sheet !! j = Some sc ∧ s_name sc = nm ∧ ∀ j' sc', j' < j → sheet !! j' = Some sc' → s_name sc' ≠ nm.

Lemma named_cons sc0 sheet nm j sc :
  named (sc0 :: sheet) nm j sc →
  (j = 0 ∧ sc = sc0 ∧ s_name sc0 = nm) ∨ (∃ j', j = Datatypes.S j' ∧ s_name sc0 ≠ nm ∧ named sheet nm j' sc).
Proof.
  intros (Hj & Hn & Hf). destruct j as [|j]; simpl in Hj; [left; naive_solver|right].
  exists j. split; [done|]. split; [by apply (Hf 0); [lia|]|]. split; [done|]. split; [done|].
  intros j' sc' Hlt Hj'. apply (Hf (Datatypes.S j')); [lia|done].
Qed.

Lemma GetColumnByName_named cols sheet nm : ∀ j sc,
  Forall2 column_shows cols sheet → named sheet nm j sc →
  ∃ col, GetColumnByName cols nm = Some col ∧ cols !! j = Some col ∧ column_shows col sc ∧
    ∀ i, column_index_from i cols nm = (i + Z.of_nat j)%Z.
Proof.
  intros j sc Hc. revert j. induction Hc as [|col sc0 cols sheet Hcol Hc IH]; intros j Hn; [destruct Hn; done|].
  pose proof Hcol as (En & _). simpl. rewrite En.
  apply named_cons in Hn as [(-> & -> & Hnm)|(j' & -> & Hne & Hn)].
  - rewrite (proj2 (String.eqb_eq _ _) Hnm). exists col. split; [done|]. split; [done|]. split; [done|]. intros; lia.
  - rewrite (proj2 (String.eqb_neq _ _) Hne). destruct (IH j' Hn) as (col' & H1 & H2 & H3 & H4).
    exists col'. split; [done|]. split; [done|]. split; [done|]. intros i. rewrite H4. lia.
Qed.

Lemma SetValueByName_shows rs n sheet nm j sc i v :
  rs_shows rs n sheet → named sheet nm j sc → s_computed sc = None → i < n → s_ok sc v →
  ∃ rs', SetValueByName (mkColumnarRow (Z.of_nat i) None) nm v rs = Ret rs' ∧
    rs_shows rs' n (<[j := set_cell i v sc]> sheet) ∧ rs_name rs' = rs_name rs.
Proof.
  intros (Hn & Hc & Hl) Hnm Hk Hi Hv. unfold SetValueByName, GetColumnIndex.
  destruct (GetColumnByName_named _ _ _ _ _ Hc Hnm) as (col & -> & Hj & Hcol & Hidx).
  rewrite Hidx. destruct Hnm as (Hsj & _).
  destruct col as [c|cc]; [|destruct Hcol as (_ & _ & Hcol); congruence].
  assert (Hlen : length (s_cells sc) = n) by (by eapply Forall_lookup_1 in Hl).
  destruct (column_shows_SetValue c sc i v Hcol) as (c' & Hset & Hcol'); [lia|done|].
  unfold set_column. cbn [row_i]. rewrite Hset. simpl.
  eexists. split; [done|]. replace (Z.to_nat (0 + Z.of_nat j)) with j by lia. split; [|done].
  split; [done|]. split; simpl.
  - by apply Forall2_insert.
  - apply Forall_insert; [done|]. simpl. by rewrite length_insert.
Qed.

(** *** The values of a row *)

Fixpoint sheet_stored (i : nat) (sheet : list (sheet_column W)) (acc : gmap string value) : gmap string value :=
  match sheet with
  | [] => acc
  | sc :: sheet =>
      sheet_stored i sheet
        (match s_computed sc with None => <[s_name sc := default VNil (s_cells sc !! i)]> acc | Some _ => acc end)
  end.

Lemma gather_stored_sheet cols sheet n i acc :
  Forall2 column_shows cols sheet → Forall (λ sc, length (s_cells sc) = n) sheet → i < n →
  gather_stored (Z.of_nat i) cols acc = Ret (sheet_stored i sheet acc).
Proof.
  intros Hc Hl Hi. revert acc. induction Hc as [|col sc cols sheet Hcol Hc IH]; intros acc; cbn [gather_stored sheet_stored]; [done|].
  apply Forall_cons in Hl as [Hlen Hl]. specialize (IH Hl).
  destruct col as [c|cc].
  - destruct (lookup_lt_is_Some_2 (s_cells sc) i) as [v Hv]; [lia|].
    rewrite (column_shows_GetValue c sc i v Hcol Hv). destruct Hcol as (-> & _ & -> & _). rewrite Hv. cbn [rbind]. apply IH.
  - destruct Hcol as (_ & _ & ->). apply IH.
Qed.

(** The row [i] of a sheet, given the results of its computed columns. *)
Definition sheet_row (g : string → value) (i : nat) (sheet : list (sheet_column W)) : list value :=
  map (λ sc, match s_computed sc with None => default VNil (s_cells sc !! i) | Some cc => g (computed_name cc) end) sheet.

Definition memo_ok (g : string → value) (row : columnarRow) : Prop :=
  ∀ nm r, default ∅ (row_memo row) !! nm = Some r → r = Ret (g nm).

(** Evaluators that return [g] on this row, and leave the world alone. *)
Definition evaluate_to (g : string → value) (i : nat) (sheet : list (sheet_column W)) : Prop :=
  ∀ sc cc, sc ∈ sheet → s_computed sc = Some cc →
    ∀ w, Eval cc w (sheet_stored i sheet ∅) = (w, Ret (g (computed_name cc))).

Lemma column_value_sheet rs n sheet g i w row col sc :
  rs_shows rs n sheet → i < n → evaluate_to g i sheet → sc ∈ sheet → column_shows col sc →
  row_i row = Z.of_nat i → memo_ok g row → length (s_cells sc) = n →
  ∃ row', column_value w row col rs =
      (w, row', Ret (match s_computed sc with None => default VNil (s_cells sc !! i) | Some cc => g (computed_name cc) end))
    ∧ row_i row' = Z.of_nat i ∧ memo_ok g row'.
Proof.
  intros (Hn & Hc & Hl) Hi Hev Hsc Hcol Hrow Hmemo Hlen. destruct col as [c|cc]; simpl.
  - destruct (lookup_lt_is_Some_2 (s_cells sc) i) as [v Hv]; [lia|].
    exists row. rewrite Hrow. pose proof (column_shows_GetValue c sc i v Hcol Hv) as Hget. simpl in Hget. rewrite Hget.
    destruct Hcol as (_ & _ & -> & _). by rewrite Hv.
  - destruct Hcol as (_ & _ & Hk). rewrite Hk. unfold resolveComputed.
    destruct (default ∅ (row_memo row) !! computed_name cc) as [r|] eqn:Em.
    + exists row. by rewrite (Hmemo _ _ Em).
    + rewrite Hrow, (gather_stored_sheet _ _ _ _ _ Hc Hl Hi), (Hev sc cc Hsc Hk).
      eexists. split; [done|]. split; [done|]. intros nm r. simpl.
      destruct (decide (computed_name cc = nm)) as [<-|Hne].
      * rewrite lookup_insert_eq. by intros [= <-].
      * rewrite lookup_insert_ne by done. apply Hmemo.
Qed.

Lemma row_data_sheet rs n sheet g i w row cols sub :
  rs_shows rs n sheet → i < n → evaluate_to g i sheet →
  Forall2 column_shows cols sub → sub ⊆ sheet → Forall (λ sc, length (s_cells sc) = n) sub →
  row_i row = Z.of_nat i → memo_ok g row →
  ∃ row', row_data w row cols rs = (w, row', (sheet_row g i sub, Ret tt)).
Proof.
  intros Hrs Hi Hev Hc Hsub Hl. revert row. induction Hc as [|col sc cols sub Hcol Hc IH]; intros row Hrow Hmemo; simpl; [eauto|].
  apply Forall_cons in Hl as [Hlen Hl].
  destruct (column_value_sheet rs n sheet g i w row col sc) as (row1 & -> & Hrow1 & Hmemo1); [done|done|done|set_solver|done|done|done|done|].
  destruct (IH ltac:(set_solver) Hl row1 Hrow1 Hmemo1) as (row2 & ->). simpl. eauto.
Qed.

Lemma Data_sheet rs n sheet g i w :
  rs_shows rs n sheet → i < n → evaluate_to g i sheet →
  ∃ row', Data w (mkColumnarRow (Z.of_nat i) None) rs = (w, row', (sheet_row g i sheet, Ret tt)).
Proof.
  intros Hrs Hi Hev. pose proof Hrs as (Hn & Hc & Hl).
  by apply (row_data_sheet rs n sheet g i w _ (rs_cols rs) sheet).
Qed.
End Sheet.

(** ** Recordsets as sheets *)

Inductive row_op := op_NewRow | op_SetByName (row : nat) (nm : string) (v : value).

Definition run_row_op {W} (op : row_op) (rs : ColumnarRecordset W) : res column_error (ColumnarRecordset W) :=
  match op with
  | op_NewRow => rmap fst (NewRow rs)
  | op_SetByName i nm v => SetValueByName (mkColumnarRow (Z.of_nat i) None) nm v rs
  end.

(** What the operations do to the sheet: a new row of defaults, or one cell of
    the first column of that name. *)
Inductive sheet_step {W} (N : nat) : row_op → nat * list (sheet_column W) → nat * list (sheet_column W) → Prop :=
| step_NewRow n sheet :
    n < N → sheet_step N op_NewRow (n, sheet) (Datatypes.S n, map add_cell sheet)
| step_SetByName n sheet nm j sc i v :
    named sheet nm j sc → s_computed sc = None → i < n → s_ok sc v →
    sheet_step N (op_SetByName i nm v) (n, sheet) (n, <[j := set_cell i v sc]> sheet).

Inductive sheet_run {W} (N : nat) : list row_op → nat * list (sheet_column W) → nat * list (sheet_column W) → Prop :=
| run_done st : sheet_run N [] st st
| run_step op ops st st' st'' : sheet_step N op st st' → sheet_run N ops st' st'' → sheet_run N (op :: ops) st st''.

Lemma run_row_op_shows {W} N op (rs : ColumnarRecordset W) st st' :
  (Z.of_nat N < 2 ^ 63)%Z → rs_shows N rs st.1 st.2 → sheet_step N op st st' →
  ∃ rs', run_row_op op rs = Ret rs' ∧ rs_shows N rs' st'.1 st'.2.
Proof.
  intros HN Hrs Hstep. revert Hrs. destruct Hstep as [n sheet Hn|n sheet nm j sc i v Hnm Hk Hi Hv]; simpl; intros Hrs.
  - destruct (NewRow_shows N rs n sheet Hrs Hn HN) as (rs' & -> & Hrs' & _). eauto.
  - destruct (SetValueByName_shows N rs n sheet nm j sc i v Hrs Hnm Hk Hi Hv) as (rs' & -> & Hrs' & _). eauto.
Qed.

Lemma run_row_ops_show {W} N ops : ∀ (rs : ColumnarRecordset W) st st',
  (Z.of_nat N < 2 ^ 63)%Z → rs_shows N rs st.1 st.2 → sheet_run N ops st st' →
  ∃ rs', fold_res run_row_op ops rs = Ret rs' ∧ rs_shows N rs' st'.1 st'.2.
Proof.
  induction ops as [|op ops IH]; intros rs st st' HN Hrs Hrun; inversion Hrun; subst; [simpl; eauto|].
  destruct (run_row_op_shows N op rs st _ HN Hrs ltac:(eassumption)) as (rs1 & E1 & Hrs1).
  cbn [fold_res]. rewrite E1. simpl. eauto.
Qed.

(** C30: a columnar recordset over columns that keep the column laws, whatever
    their types, is a table: new rows hold the defaults, a set by name changes
    the cell of the first column with that name and nothing else, and [Data] of
    each row returns its cells and the results of the computed columns on the
    stored cells of that row. *)
Theorem recordset_is_sheet {W} N nm (cols : list (any_column W)) sheet ops n' sheet' g i w :
  (Z.of_nat N < 2 ^ 63)%Z →
  Forall2 (column_shows N) cols sheet → Forall (λ sc, s_cells sc = []) sheet →
  sheet_run N ops (0, sheet) (n', sheet') → i < n' → evaluate_to g i sheet' →
  ∃ rs row, fold_res run_row_op ops (NewColumnarRecordset nm cols) = Ret rs ∧
    rs_rowsCount rs = Z.of_nat n' ∧ GetRow rs (Z.of_nat i) = Some (mkColumnarRow (Z.of_nat i) None) ∧
    Data w (mkColumnarRow (Z.of_nat i) None) rs = (w, row, (sheet_row g i sheet', Ret tt)).
Proof.
  intros HN Hc He Hrun Hi Hev.
  destruct (run_row_ops_show N ops (NewColumnarRecordset nm cols) (0, sheet) (n', sheet') HN) as (rs & Hrs & Hshow); [|done|].
  { split; [done|]. split; [done|]. eapply Forall_impl; [exact He|]. by intros sc ->. }
  destruct (Data_sheet N rs n' sheet' g i w Hshow Hi Hev) as (row & Hdata).
  exists rs, row. destruct Hshow as (Hn & _). split; [done|]. split; [done|]. split; [|done].
  unfold GetRow. simpl in Hn. rewrite Hn. destruct (Z.leb_spec (Z.of_nat n') (Z.of_nat i)); [lia|done].
Qed.

Definition panics {E A} (r : res E A) : bool := match r with Panic _ => true | _ => false end.

(** A row evaluates a computed column at most once: once it was resolved,
    with a value or with an error, the row answers the same without calling an
    evaluator, even after the recordset or the world has changed. *)
Theorem computed_once {W} (w w1 w2 : W) row row1 cc cc' rs rs' r :
  resolveComputed w row cc rs = (w1, row1, r) → panics r = false → computed_name cc' = computed_name cc →
  resolveComputed w2 row1 cc' rs' = (w2, row1, r).
Proof.
  intros Hr Hp Hn. unfold resolveComputed in Hr |- *. rewrite Hn.
  destruct (default ∅ (row_memo row) !! computed_name cc) as [cached|] eqn:Em; [simplify_eq; by rewrite Em|].
  destruct (gather_stored _ _ _) as [values|e|msg]; [|simplify_eq/=; by rewrite lookup_insert_eq|by simplify_eq].
  destruct (Eval cc w values) as [w' [v|e|msg]]; simplify_eq/=; by rewrite ?lookup_insert_eq.
Qed.

Module RowExamples.

Definition full_name : computedColumn nat :=
  NewComputedColumn "full" (λ calls m,
    (Datatypes.S calls,
     match m !! "first", m !! "last" with
     | Some (VString _ a), Some (VString _ b) => Ret (vstr (a +:+ " " +:+ b))
     | _, _ => Fail (evaluation_failed "no name")
     end)) [].

Definition people : list (any_column nat) :=
  [Stored (stored (NewColumn (T := string) "first" "" []));
   Computed full_name;
   Stored (stored (NewTypedColumn (T := value) "last" VNil []))].

Definition is_string (v : value) : Prop := ∃ s, v = vstr s.

Definition one_person : list row_op := [op_NewRow; op_SetByName 0 "last" (vstr "Lovelace"); op_SetByName 0 "first" (vstr "Ada")].

Example evaluations_are_counted :
  (do rs <- fold_res run_row_op one_person (NewColumnarRecordset "people" people);
   let '(calls, row, r) := Data 0 (mkColumnarRow 0 None) rs in
   let '(calls, _, r') := GetValueByName calls row "full" rs in
   do _ <- r.2; do v <- r'; Ret (calls, r.1, v))
  = Ret (1, [vstr "Ada"; vstr "Ada Lovelace"; vstr "Lovelace"], vstr "Ada Lovelace").
Proof. reflexivity. Qed.

(** The data that come with an error: those before the failing column. *)
Example partial_data :
  rmap (λ rs, (Data 0 (mkColumnarRow 0 None) rs).2)
    (fold_res run_row_op [op_NewRow; op_SetByName 0 "first" (vstr "Ada")]
       (NewColumnarRecordset "people" [Stored (stored (NewColumn (T := string) "first" "" []));
          Computed full_name; Stored (stored (NewColumn (T := string) "city" "" []))]))
  = Ret ([vstr "Ada"; VNil; VNil], Fail (evaluation_failed "no name")).
Proof. reflexivity. Qed.

Lemma computed_once_witness :
  ∃ row1, resolveComputed 7 (mkColumnarRow 0 None) full_name (mkRecordset "people" [] 1)
      = (8, row1, Fail (evaluation_failed "no name")) ∧
    resolveComputed 9 row1 full_name (mkRecordset "people" people 1) = (9, row1, Fail (evaluation_failed "no name")).
Proof.
  eexists. split; [reflexivity|].
  apply (computed_once 7 8 9 (mkColumnarRow 0 None) _ full_name full_name (mkRecordset "people" [] 1)
    (mkRecordset "people" people 1) _); reflexivity.
Defined.

(** The same column without the counter. *)
Definition pure_name : computedColumn nat :=
  NewComputedColumn "full" (λ calls m, (calls, (Eval full_name 0 m).2)) [].

Definition people' : list (any_column nat) :=
  [Stored (stored (NewColumn (T := string) "first" "" []));
   Computed pure_name;
   Stored (stored (NewTypedColumn (T := value) "last" VNil []))].

Definition people_sheet' (cells1 cells2 cells3 : list value) : list (sheet_column nat) :=
  [mkSheetColumn "first" (vstr "") is_string None cells1;
   mkSheetColumn "full" VNil (λ _, True) (Some pure_name) cells2;
   mkSheetColumn "last" VNil (λ _, True) None cells3].

Lemma people_show : Forall2 (column_shows 10) people' (people_sheet' [] [] []).
Proof.
  constructor; [|constructor; [|constructor; [|constructor]]].
  - split; [done|]. split; [done|]. split; [done|].
    exists (ColumnLaws_untyped (C := column string) (T := string)). split; [by exists []|].
    split; [intros v [s ->]; by exists s|]. split; [done|]. by exists "".
  - done.
  - split; [done|]. split; [done|]. split; [done|]. exists (ColumnLaws_standard (T := value)). done.
Qed.

Lemma one_person_runs :
  sheet_run 10 one_person (0, people_sheet' [] [] [])
    (1, people_sheet' [vstr "Ada"] [VNil] [vstr "Lovelace"]).
Proof.
  refine (run_step 10 _ _ _ (1, people_sheet' [vstr ""] [VNil] [VNil]) _ (step_NewRow 10 0 (people_sheet' [] [] []) _) _); [lia|].
  refine (run_step 10 _ _ _ (1, people_sheet' [vstr ""] [VNil] [vstr "Lovelace"]) _
    (step_SetByName 10 1 (people_sheet' [vstr ""] [VNil] [VNil]) "last" 2 (mkSheetColumn "last" VNil (λ _, True) None [VNil]) 0 (vstr "Lovelace") _ _ _ _) _); try done; [|lia|].
  { split; [reflexivity|]. split; [done|]. intros [|[|]] sc' Hj Hsc; simpl in Hsc; simplify_eq; simpl; done || lia. }
  refine (run_step 10 _ _ _ _ _
    (step_SetByName 10 1 (people_sheet' [vstr ""] [VNil] [vstr "Lovelace"]) "first" 0 (mkSheetColumn "first" (vstr "") is_string None [vstr ""]) 0 (vstr "Ada") _ _ _ _)
    (run_done _ _)); try done; [|lia|by exists "Ada"].
  split; [reflexivity|]. split; [done|]. intros; lia.
Qed.

Lemma pure_name_evaluates :
  evaluate_to (λ _, vstr "Ada Lovelace") 0 (people_sheet' [vstr "Ada"] [VNil] [vstr "Lovelace"]).
Proof.
  intros sc cc Hsc Hk w. unfold people_sheet' in Hsc.
  repeat (apply elem_of_cons in Hsc as [->|Hsc]; [simpl in Hk; simplify_eq; try reflexivity|]). set_solver.
Qed.

Lemma recordset_is_sheet_witness :
  ∃ rs row, fold_res run_row_op one_person (NewColumnarRecordset "people" people') = Ret rs ∧
    rs_rowsCount rs = 1%Z ∧ GetRow rs 0 = Some (mkColumnarRow 0 None) ∧
    Data 3 (mkColumnarRow 0 None) rs = (3, row, ([vstr "Ada"; vstr "Ada Lovelace"; vstr "Lovelace"], Ret tt)).
Proof.
  apply (recordset_is_sheet 10 "people" people' (people_sheet' [] [] []) one_person 1
    (people_sheet' [vstr "Ada"] [VNil] [vstr "Lovelace"]) (λ _, vstr "Ada Lovelace") 0 3).
  - done.
  - exact people_show.
  - repeat constructor.
  - exact one_person_runs.
  - lia.
  - exact pure_name_evaluates.
Defined.

(** A missing column is an error when it is read and a panic when it is set. *)
Example missing_column rs :
  rs_cols (W := nat) rs = [] →
  GetValueByName 0 (mkColumnarRow 0 None) "x" rs = (0, mkColumnarRow 0 None, Fail (unexpected_column_name "x")) ∧
  SetValueByName (mkColumnarRow 0 None) "x" VNil rs = Panic nil_pointer_panic.
Proof. intros E. unfold GetValueByName, SetValueByName. by rewrite E. Qed.

(** A negative index is not out of range for [GetRow]. *)
Example negative_row : GetRow (NewColumnarRecordset (W := nat) "people" []) (-1) = Some (mkColumnarRow (-1) None).
Proof. reflexivity. Qed.

End RowExamples.
