(* ===== verification/Dalgo2fs.v ===== *)
(** * The file system adapter (src/adapters/dalgo2fs)

    Files of a directory as records and as rows of a recordset.  The operating
    system is a state with the calls that the code makes of it; paths are joined
    as package [path/filepath] does on Unix. *)

From Stdlib Require Import String Ascii.
From stdpp Require Import base gmap list strings.
From S2P Require Import Prelude GoValues GoStrings GoTypes RecordKey RecordsetColumns RecordsetColumnLaws RecordsetRows.

Local Open Scope string_scope.
Local Open Scope nat_scope.
Local Open Scope list_scope.

(** ** Paths *)

(** The elements of a path after [Clean]: the innermost comes first. *)
Fixpoint clean_elements (rooted : bool) (elements kept : list string) : list string :=
  match elements with
  | [] => kept
  | e :: elements =>
      clean_elements rooted elements
        (if String.eqb e "" || String.eqb e "." then kept
         else if String.eqb e ".." then
           match kept with
           | k :: kept' => if String.eqb k ".." then e :: kept else kept'
           | [] => if rooted then [] else [e]
           end
         else e :: kept)
  end.

Definition Clean (path : string) : string :=
  let rooted := HasPrefix path "/" in
  match clean_elements rooted (Split path (ascii_of_nat 47)) [] with
  | [] => if rooted then "/" else "."
  | kept => (if rooted then "/" else "") +:+ String.concat "/" (rev kept)
  end.

(** [filepath.Join] of two elements *)
Definition filepath_Join (a b : string) : string :=
  if negb (String.eqb a "") then Clean (a +:+ "/" +:+ b) else if negb (String.eqb b "") then Clean b else "".

(** [path.Ext]: from the last dot behind the last slash. *)
Fixpoint ext_from (path : string) (found : string) : string :=
  match path with
  | EmptyString => found
  | String c rest =>
      if bool_decide (c = ascii_of_nat 47) then ext_from rest ""
      else if bool_decide (c = ascii_of_nat 46) then ext_from rest path
      else ext_from rest found
  end.
Definition Ext (path : string) : string := ext_from path "".

(** ** The operating system *)

Record FileInfo := mkFileInfo { Size : Z; ModTime : value }.
Record DirEntry := mkDirEntry { entry_Name : string; IsDir : bool }.

(** [Fail] is an error of the system, by its text, and whether it says that the
    file does not exist. *)
Class FileSystem (F : Type) := {
  ReadDir : string → F → res (string * bool) (list DirEntry);
  Info : DirEntry → F → F * res (string * bool) FileInfo;
  Stat : string → F → res (string * bool) FileInfo;
  UserHomeDir : F → res (string * bool) string;
}.

Inductive fs_error :=
| ErrNoMoreRecords
| ErrNotSupported
| ErrNotImplementedYet
| ErrNoError
| os_error (text : string).

Definition os_result {A} (r : res (string * bool) A) : res fs_error A := rmap_error (λ e, os_error e.1) r.

(** ** Records of files: record.go *)

Section Database.
Context `{RecordKeys} {F : Type} `{FileSystem F}.

Record fileRecord := mkFileRecord { fr_key : key; fr_data : option FileInfo; fr_changed : bool; fr_err : option fs_error }.

Definition NewFileRecord (k : key) : fileRecord := mkFileRecord k None false None.
Definition fr_Exists (f : fileRecord) : bool :=
  match fr_err f, fr_data f with None, Some _ => true | _, _ => false end.
Definition fr_SetError (f : fileRecord) (err : option fs_error) : fileRecord :=
  mkFileRecord (fr_key f) (fr_data f) (fr_changed f) (Some (default ErrNoError err)).
Definition fr_setData (f : fileRecord) (data : FileInfo) : fileRecord :=
  mkFileRecord (fr_key f) (Some data) (fr_changed f) (fr_err f).
Definition fr_MarkAsChanged (f : fileRecord) : fileRecord :=
  mkFileRecord (fr_key f) (fr_data f) true (fr_err f).

(** ** The database: database.go *)

Record database := mkDatabase { db_path : string; db_dir : FileInfo }.

Definition NewDB (dirPath : string) (f : F) : res fs_error database :=
  do path <-
    (if HasPrefix dirPath "~" then
       do home <- os_result (UserHomeDir f);
       Ret (if String.eqb dirPath "~" then home
            else if HasPrefix dirPath "~/" then filepath_Join home (substring 2 (String.length dirPath - 2) dirPath)
            else dirPath)
     else Ret dirPath);
  do dir <- os_result (Stat path f);
  Ret (mkDatabase path dir).

(** [key.ID.(string)] *)
Definition string_ID (k : key) : res fs_error string :=
  match key_ID k with VString ty s => if String.eqb ty "string" then Ret s else Panic "interface conversion" | _ => Panic "interface conversion" end.

(** A record is a file record, or another one, whose [SetError] is called. *)
Definition fs_Get (d : database) (f : F) (r : fileRecord + key) : res fs_error (fileRecord + fs_error) :=
  let k := match r with inl fr => fr_key fr | inr k => k end in
  do id <- string_ID k;
  do fi <- os_result (Stat (filepath_Join (db_path d) id) f);
  Ret (match r with inl fr => inl (fr_setData fr fi) | inr _ => inr ErrNotSupported end).

Definition fs_Exists (d : database) (f : F) (k : key) : res fs_error bool :=
  do id <- string_ID k;
  match Stat (filepath_Join (db_path d) id) f with
  | Ret _ => Ret true
  | Fail (text, notExist) => if notExist then Ret false else Fail (os_error text)
  | Panic msg => Panic msg
  end.

(** The records before the first that fails have their data. *)
Fixpoint fs_GetMulti (d : database) (f : F) (rs : list (fileRecord + key)) : list (fileRecord + fs_error) * res fs_error unit :=
  match rs with
  | [] => ([], Ret tt)
  | r :: rs =>
      match fs_Get d f r with
      | Ret r => let '(l, e) := fs_GetMulti d f rs in (r :: l, e)
      | Fail e => ([], Fail e)
      | Panic msg => ([], Panic msg)
      end
  end.
End Database.

(** ** Transactions: transaction.go

    A transaction has no operation yet. *)

Inductive tx_call :=
| TxGet | TxExists | TxGetMulti | TxRecordsReader | TxRecordsetReader | TxSet | TxSetMulti | TxDelete | TxDeleteMulti
| TxUpdate | TxUpdateRecord | TxUpdateMulti | TxInsert | TxInsertMulti.

Definition transaction_call (c : tx_call) : res fs_error unit :=
  match c with
  | TxSet | TxSetMulti | TxUpdate | TxUpdateRecord | TxUpdateMulti => Fail ErrNotSupported
  | _ => Fail ErrNotImplementedYet
  end.

(** The worker runs on a transaction, whatever the options are. *)
Definition fs_RunReadonlyTransaction {A} (f : (tx_call → res fs_error unit) → A) : A := f transaction_call.
Definition fs_RunReadwriteTransaction {A} (f : (tx_call → res fs_error unit) → A) : A := f transaction_call.

(** ** Directories as recordsets: recordset_columns.go, recordset_reader.go *)

Definition ColumnFileName : string := "File.Name".
Definition ColumnIsDir : string := "File.IsDir".
Definition ColumnFileSize : string := "File.Size".
Definition ColumnFileExt : string := "File.Ext".
Definition ColumnFileModified : string := "File.Modified".

Section Reader.
Context {W F : Type} `{FileSystem F}.

(** The typed columns that the reader keeps are those of its recordset, found by
    their names again. *)
Record dirReader := mkDirReader {
  dr_rs : option (ColumnarRecordset W);
  dr_nextIndex : nat;
  dr_entries : list DirEntry;
}.

(** A column comes with the element type of the [UntypedColWrapper] it is, if it
    is one. *)
Definition tagged_column : Type := option string * any_column W.

Definition assert_column (columns : list tagged_column) (nm ty : string) : res fs_error unit :=
  match find (λ c, String.eqb (column_Name c.2) nm) columns with
  | None => Ret tt
  | Some (tag, _) => if bool_decide (tag = Some ty) then Ret tt else Panic "interface conversion"
  end.

Definition NewDirReader (nm : string) (columns : list tagged_column) (f : F) : res fs_error dirReader :=
  do entries <- os_result (ReadDir nm f);
  do _ <- assert_column columns ColumnFileName "string";
  do _ <- assert_column columns ColumnFileExt "string";
  do _ <- assert_column columns ColumnFileSize "int64";
  do _ <- assert_column columns ColumnIsDir "bool";
  do _ <- assert_column columns ColumnFileModified "time.Time";
  Ret (mkDirReader (Some (NewColumnarRecordset nm (map snd columns))) 0 entries).

Definition dr_Close (r : dirReader) : dirReader := mkDirReader None (dr_nextIndex r) [].

(** [_ = r.nameCol.SetValue(rowIndex, v)]: an error is dropped. *)
Definition set_typed (nm : string) (row : Z) (v : value) (rs : ColumnarRecordset W) : res fs_error (ColumnarRecordset W) :=
  match GetColumnByName (rs_cols rs) nm with
  | None => Panic nil_pointer_panic
  | Some c =>
      match column_SetValue c row v with
      | Ret c' => Ret (mkRecordset (rs_name rs) (<[Z.to_nat (GetColumnIndex (rs_cols rs) nm) := c']> (rs_cols rs)) (rs_rowsCount rs))
      | Fail _ => Ret rs
      | Panic msg => Panic msg
      end
  end.

(** The loop over the columns of the recordset; [fi] is nil until a column needs
    it. *)
Fixpoint fill (e : DirEntry) (row : Z) (fi : option FileInfo) (names : list string) (rs : ColumnarRecordset W) (f : F)
  : F * ColumnarRecordset W * res fs_error unit :=
  match names with
  | [] => (f, rs, Ret tt)
  | nm :: names =>
      let set v fi f :=
        match set_typed nm row v rs with
        | Ret rs => fill e row fi names rs f
        | Fail err => (f, rs, Fail err)
        | Panic msg => (f, rs, Panic msg)
        end in
      if String.eqb nm ColumnFileName then set (vstr (entry_Name e)) fi f
      else if String.eqb nm ColumnIsDir then set (VBool "bool" (IsDir e)) fi f
      else if String.eqb nm ColumnFileExt then set (vstr (Ext (entry_Name e))) fi f
      else if String.eqb nm ColumnFileSize || String.eqb nm ColumnFileModified then
        let '(f, got) := match fi with Some fi => (f, Ret fi) | None => Info e f end in
        match got with
        | Ret info => set (if String.eqb nm ColumnFileSize then VInt "int64" KInt64 (Size info) else ModTime info) (Some info) f
        | Fail (text, _) => (f, rs, Fail (os_error text))
        | Panic msg => (f, rs, Panic msg)
        end
      else fill e row fi names rs f
  end.

(** The first entry at [i] or later that is no directory. *)
Fixpoint next_file (i : nat) (entries : list DirEntry) : nat * option DirEntry :=
  match entries with
  | [] => (i, None)
  | e :: entries => if IsDir e then next_file (Datatypes.S i) entries else (i, Some e)
  end.

Definition dr_Next (r : dirReader) (f : F) : F * dirReader * res fs_error columnarRow :=
  match next_file (dr_nextIndex r) (drop (dr_nextIndex r) (dr_entries r)) with
  | (i, None) => (f, mkDirReader (dr_rs r) i (dr_entries r), Fail ErrNoMoreRecords)
  | (i, Some e) =>
      match dr_rs r with
      | None => (f, r, Panic nil_pointer_panic)
      | Some rs =>
          match NewRow rs with
          | Ret (rs, row) =>
              match fill e (int64 (rs_rowsCount rs - 1)) None (map column_Name (rs_cols rs)) rs f with
              | (f, rs, Ret _) => (f, mkDirReader (Some rs) (Datatypes.S i) (dr_entries r), Ret row)
              | (f, rs, Fail err) => (f, mkDirReader (Some rs) i (dr_entries r), Fail err)
              | (f, rs, Panic msg) => (f, mkDirReader (Some rs) i (dr_entries r), Panic msg)
              end
          | Fail _ => (f, r, Panic "no error of NewRow")
          | Panic msg => (f, r, Panic msg)
          end
      end
  end.

(** Calls [Next] until it fails. *)
Fixpoint read_rows (fuel : nat) (r : dirReader) (f : F) : option (F * dirReader * list columnarRow * res fs_error unit) :=
  match fuel with
  | 0 => None
  | Datatypes.S fuel =>
      match dr_Next r f with
      | (f, r, Ret row) => '(f, r, rows, e) ← read_rows fuel r f; Some (f, r, row :: rows, e)
      | (f, r, Fail err) => Some (f, r, [], Fail err)
      | (f, r, Panic msg) => Some (f, r, [], Panic msg)
      end
  end.
End Reader.

(** ** What a reader reads

    One row per file, in the order of the system, and directories are left
    out. *)

Section Listing.
Context {W F : Type} `{FileSystem F} (N : nat) (info : DirEntry → FileInfo).
Implicit Types (sc : sheet_column W) (sheet : list (sheet_column W)) (rs : ColumnarRecordset W) (e : DirEntry).

Definition cell_of (nm : string) e : option value :=
  if String.eqb nm ColumnFileName then Some (vstr (entry_Name e))
  else if String.eqb nm ColumnIsDir then Some (VBool "bool" (IsDir e))
  else if String.eqb nm ColumnFileExt then Some (vstr (Ext (entry_Name e)))
  else if String.eqb nm ColumnFileSize then Some (VInt "int64" KInt64 (Size (info e)))
  else if String.eqb nm ColumnFileModified then Some (ModTime (info e))
  else None.

(** The columns about files are stored and take what the system says of the
    entry. *)
Definition takes sheet e : Prop :=
  ∀ sc v, sc ∈ sheet → cell_of (s_name sc) e = Some v → s_computed sc = None ∧ s_ok sc v.

Lemma set_typed_shows rs m sheet nm j sc i v :
  rs_shows N rs m sheet → named sheet nm j sc → s_computed sc = None → i < m → s_ok sc v →
  ∃ rs', set_typed nm (Z.of_nat i) v rs = Ret rs' ∧ rs_shows N rs' m (<[j := set_cell i v sc]> sheet).
Proof.
  intros Hrs Hnm Hk Hi Hv. destruct (SetValueByName_shows N rs m sheet nm j sc i v Hrs Hnm Hk Hi Hv) as (rs' & Hset & Hrs' & _).
  exists rs'. split; [|done]. unfold SetValueByName, set_typed in *. destruct (GetColumnByName (rs_cols rs) nm) as [c|]; [|done].
  unfold set_column in Hset. simpl in Hset. destruct c as [c|cc]; [|done].
  destruct (column_SetValue (Stored c) (Z.of_nat i) v) as [c'|err|msg]; [|done..]. by injection Hset as <-.
Qed.

Definition fill_cell (i : nat) e sc : sheet_column W :=
  match cell_of (s_name sc) e with Some v => set_cell i v sc | None => sc end.

Lemma fill_cell_name i e sc : s_name (fill_cell i e sc) = s_name sc.
Proof. unfold fill_cell. by destruct (cell_of (s_name sc) e). Qed.

Lemma named_middle (pre post : list (sheet_column W)) sc :
  s_name sc ∉ map s_name pre → named (pre ++ sc :: post) (s_name sc) (length pre) sc.
Proof.
  intros Hpre. split; [by apply list_lookup_middle|]. split; [done|]. intros j' sc' Hlt Hj' Hn. apply Hpre.
  rewrite lookup_app_l in Hj' by done. apply list_elem_of_fmap. exists sc'. split; [done|]. by eapply list_elem_of_lookup_2.
Qed.

Lemma fill_shows e i m f :
  Info e f = (f, Ret (info e)) → i < m →
  ∀ post pre fi rs, (fi = None ∨ fi = Some (info e)) →
    rs_shows N rs m (map (fill_cell i e) pre ++ post) → NoDup (map s_name (pre ++ post)) → takes (pre ++ post) e →
    ∃ rs', fill e (Z.of_nat i) fi (map s_name post) rs f = (f, rs', Ret tt) ∧ rs_shows N rs' m (map (fill_cell i e) (pre ++ post)).
Proof.
  intros Hinfo Hi. induction post as [|sc post IH]; intros pre fi rs Hfi Hrs Hnd Htakes.
  { exists rs. rewrite !app_nil_r in *. by split. }
  assert (∀ fi' rs', fi' = None ∨ fi' = Some (info e) → rs_shows N rs' m (map (fill_cell i e) pre ++ fill_cell i e sc :: post) →
    ∃ rs'', fill e (Z.of_nat i) fi' (map s_name post) rs' f = (f, rs'', Ret tt) ∧ rs_shows N rs'' m (map (fill_cell i e) (pre ++ sc :: post))) as Hrest.
  { intros fi' rs' Hfi' Hrs'. destruct (IH (pre ++ [sc]) fi' rs') as (rs'' & Hf & Hs); [done|by rewrite map_app, <- app_assoc|by rewrite <- app_assoc..|].
    exists rs''. split; [done|]. by rewrite <- app_assoc in Hs. }
  assert (∀ v, cell_of (s_name sc) e = Some v → ∃ rs', set_typed (s_name sc) (Z.of_nat i) v rs = Ret rs' ∧
    rs_shows N rs' m (map (fill_cell i e) pre ++ fill_cell i e sc :: post)) as Hset.
  { intros v Hv. destruct (Htakes sc v) as [Hk Hok]; [set_solver|done|].
    destruct (set_typed_shows rs m (map (fill_cell i e) pre ++ sc :: post) (s_name sc) (length pre) sc i v) as (rs' & Hset & Hrs'); [done| |done..|].
    - rewrite <- (length_map (fill_cell i e) pre). apply named_middle. rewrite map_map.
      rewrite (map_ext _ _ (fill_cell_name i e)). rewrite map_app in Hnd. apply NoDup_app in Hnd as (_ & Hnd & _).
      intros Hin. apply (Hnd _ Hin). simpl. set_solver.
    - exists rs'. split; [done|]. unfold fill_cell at 2. rewrite Hv.
      rewrite insert_app_r_alt in Hrs' by by rewrite length_map. by rewrite length_map, Nat.sub_diag in Hrs'. }
  cbn [map fill]. unfold cell_of in Hset.
  repeat match type of Hset with context [String.eqb (s_name sc) ?c] => let E := fresh "E" in destruct (String.eqb (s_name sc) c) eqn:E end;
    cbn [orb]; try (destruct (Hset _ eq_refl) as (rs' & -> & Hrs'); by apply Hrest).
  - assert ((match fi with Some fi0 => (f, Ret fi0) | None => Info e f end) = (f, Ret (info e))) as -> by (destruct Hfi as [-> | ->]; done).
    destruct (Hset _ eq_refl) as (rs' & -> & Hrs'). apply Hrest; auto.
  - assert ((match fi with Some fi0 => (f, Ret fi0) | None => Info e f end) = (f, Ret (info e))) as -> by (destruct Hfi as [-> | ->]; done).
    destruct (Hset _ eq_refl) as (rs' & -> & Hrs'). apply Hrest; auto.
  - apply Hrest; [done|]. unfold fill_cell at 2, cell_of. by rewrite E, E0, E1, E2, E3.
Qed.

(** The rows of files behind what a sheet has. *)
Definition list_files (es : list DirEntry) sc : sheet_column W :=
  with_cells sc (s_cells sc ++ map (λ e, default (s_default sc) (cell_of (s_name sc) e)) es).

Lemma list_files_cons e es sc : list_files es (list_files [e] sc) = list_files (e :: es) sc.
Proof. unfold list_files, with_cells. simpl. by rewrite <- app_assoc. Qed.

Lemma fill_new_cell n e sc : length (s_cells sc) = n → fill_cell n e (add_cell sc) = list_files [e] sc.
Proof.
  intros Hlen. unfold fill_cell, list_files, set_cell, add_cell, with_cells. simpl.
  destruct (cell_of (s_name sc) e) as [v|]; [|done]. simpl. rewrite insert_app_r_alt by (by rewrite Hlen). by rewrite Hlen, Nat.sub_diag.
Qed.

Lemma shown_names (cols : list (any_column W)) sheet : Forall2 (column_shows N) cols sheet → map column_Name cols = map s_name sheet.
Proof. induction 1 as [|col sc cols sheet Hcol _ IH]; simpl; [done|]. destruct Hcol as (-> & _). by f_equal. Qed.

Lemma next_file_spec entries : ∀ i,
  next_file i entries = (i + length entries, None) ∧ filter (λ e, IsDir e = false) entries = [] ∨
  ∃ k e rest, next_file i entries = (i + k, Some e) ∧ k < length entries ∧ drop (Datatypes.S k) entries = rest ∧
    filter (λ e, IsDir e = false) entries = e :: filter (λ e, IsDir e = false) rest.
Proof.
  induction entries as [|e entries IH]; intros i; simpl; [left; by rewrite Nat.add_0_r|].
  rewrite filter_cons. destruct (IsDir e) eqn:He; simpl.
  - destruct (IH (Datatypes.S i)) as [[-> ->]|(k & e' & rest & -> & Hk & Hrest & ->)]; [left; split; [f_equal; lia|done]|right].
    exists (Datatypes.S k), e', rest. split_and!; [f_equal; lia|lia|done|done].
  - right. exists 0, e, entries. rewrite Nat.add_0_r, drop_0. split_and!; [done|lia|done|done].
Qed.

Lemma read_file nm i entries rs n sheet f e k rest :
  rs_shows N rs n sheet → NoDup (map s_name sheet) → takes sheet e → Info e f = (f, Ret (info e)) → n < N → (Z.of_nat N < 2 ^ 63)%Z →
  next_file i (drop i entries) = (i + k, Some e) → rest = drop (Datatypes.S k) (drop i entries) → rs_name rs = nm →
  ∃ rs', dr_Next (mkDirReader (Some rs) i entries) f
      = (f, mkDirReader (Some rs') (Datatypes.S (i + k)) entries, Ret (mkColumnarRow (Z.of_nat n) None)) ∧
    rs_shows N rs' (Datatypes.S n) (map (list_files [e]) sheet) ∧ drop (Datatypes.S (i + k)) entries = rest.
Proof.
  intros Hrs Hnd Htakes Hinfo Hn HN Hnext -> Hnm.
  destruct (NewRow_shows N rs n sheet Hrs Hn HN) as (rs1 & Hrow & Hrs1 & _).
  destruct (fill_shows e n (Datatypes.S n) f Hinfo ltac:(lia) (map add_cell sheet) [] None rs1) as (rs2 & Hfill & Hrs2); [by left|done|..].
  { simpl. by rewrite map_map. }
  { intros sc v Hsc Hv. simpl in Hsc. apply list_elem_of_fmap in Hsc as (sc0 & -> & Hsc). by apply (Htakes sc0 v). }
  exists rs2. split; [|split].
  - unfold dr_Next. simpl. rewrite Hnext, Hrow. pose proof Hrs1 as (Hcount & Hcols & _).
    rewrite (shown_names _ _ Hcols), Hcount, int64_small by lia.
    replace (Z.of_nat (Datatypes.S n) - 1)%Z with (Z.of_nat n) by lia. by rewrite Hfill.
  - simpl in Hrs2. rewrite map_map in Hrs2. destruct Hrs as (_ & _ & Hlen).
    erewrite map_ext_in in Hrs2; [exact Hrs2|]. intros sc Hsc%list_elem_of_In. apply fill_new_cell. by eapply Forall_forall in Hlen.
  - rewrite drop_drop. f_equal. lia.
Qed.

Lemma read_rows_files files : ∀ i entries rs n sheet f,
  filter (λ e, IsDir e = false) (drop i entries) = files → i ≤ length entries →
  rs_shows N rs n sheet → NoDup (map s_name sheet) → (∀ e, e ∈ files → takes sheet e ∧ Info e f = (f, Ret (info e))) →
  n + length files ≤ N → (Z.of_nat N < 2 ^ 63)%Z →
  ∃ rs', read_rows (Datatypes.S (length files)) (mkDirReader (Some rs) i entries) f
      = Some (f, mkDirReader (Some rs') (length entries) entries, map (λ j, mkColumnarRow (Z.of_nat j) None) (seq n (length files)), Fail ErrNoMoreRecords) ∧
    rs_shows N rs' (n + length files) (map (list_files files) sheet).
Proof.
  induction files as [|e files IH]; intros i entries rs n sheet f Hfiles Hi Hrs Hnd Hfile Hlen HN.
  - destruct (next_file_spec (drop i entries) i) as [[Hnext _]|(k & e & rest & _ & _ & _ & He)]; [|congruence].
    exists rs. simpl. unfold dr_Next. simpl. rewrite Hnext, length_drop.
    replace (i + (length entries - i)) with (length entries) by lia. split; [done|].
    rewrite Nat.add_0_r. erewrite map_ext; [by rewrite map_id|]. intros sc. unfold list_files, with_cells. simpl. rewrite app_nil_r. by destruct sc.
  - destruct (next_file_spec (drop i entries) i) as [[_ He]|(k & e' & rest & Hnext & Hk & Hrest & He)]; [congruence|].
    rewrite Hfiles in He. injection He as <- Hfs.
    destruct (Hfile e) as [Htakes Hinfo]; [set_solver|]. simpl in Hlen.
    destruct (read_file (rs_name rs) i entries rs n sheet f e k rest) as (rs1 & Hread & Hrs1 & Hdrop); [done..|lia|done|done|done|done|].
    rewrite length_drop in Hk.
    destruct (IH (Datatypes.S (i + k)) entries rs1 (Datatypes.S n) (map (list_files [e]) sheet) f) as (rs2 & Hrows & Hrs2); [by rewrite Hdrop|lia|done| | |lia|done|].
    { by rewrite map_map. }
    { intros e' He'. destruct (Hfile e') as [Ht Hinf]; [set_solver|]. split; [|done].
      intros sc v Hsc Hv. apply list_elem_of_fmap in Hsc as (sc0 & -> & Hsc). by apply (Ht sc0 v). }
    exists rs2. split.
    + change (read_rows (Datatypes.S (length (e :: files)))) with (read_rows (W := W) (F := F) (Datatypes.S (Datatypes.S (length files)))).
      cbn [read_rows]. rewrite Hread. cbn [read_rows] in Hrows. rewrite Hrows. done.
    + replace (n + length (e :: files)) with (Datatypes.S n + length files) by (simpl; lia).
      rewrite map_map in Hrs2. erewrite map_ext; [exact Hrs2|]. intros sc. symmetry. apply list_files_cons.
Qed.

(** Reading a directory to its end gives one row per file, in the order of the
    system, and no row for a directory; the cells of a column about files are
    what the system says of them, those of other columns are the defaults.  The
    reader ends after one call more than there are files. *)
Theorem dir_reader_lists_files nm (columns : list tagged_column) sheet entries f :
  ReadDir nm f = Ret entries →
  Forall2 (column_shows N) (map snd columns) sheet → Forall (λ sc, s_cells sc = []) sheet → NoDup (map s_name sheet) →
  (∀ cn ty, In (cn, ty) [(ColumnFileName, "string"); (ColumnFileExt, "string"); (ColumnFileSize, "int64"); (ColumnIsDir, "bool"); (ColumnFileModified, "time.Time")] →
    assert_column columns cn ty = Ret tt) →
  let files := filter (λ e, IsDir e = false) entries in
  (∀ e, e ∈ files → takes sheet e ∧ Info e f = (f, Ret (info e))) →
  length files ≤ N → (Z.of_nat N < 2 ^ 63)%Z →
  ∃ r r' rs, NewDirReader nm columns f = Ret r ∧
    read_rows (Datatypes.S (length files)) r f
      = Some (f, r', map (λ j, mkColumnarRow (Z.of_nat j) None) (seq 0 (length files)), Fail ErrNoMoreRecords) ∧
    dr_rs r' = Some rs ∧
    rs_shows N rs (length files) (map (λ sc, with_cells sc (map (λ e, default (s_default sc) (cell_of (s_name sc) e)) files)) sheet).
Proof.
  intros Hdir Hcols Hempty Hnd Hassert files Hfiles Hlen HN.
  destruct (read_rows_files files 0 entries (NewColumnarRecordset nm (map snd columns)) 0 sheet f) as (rs & Hread & Hrs); [done|lia| |done..|].
  { split; [done|]. split; [done|]. eapply Forall_impl; [exact Hempty|]. by intros sc ->. }
  exists (mkDirReader (Some (NewColumnarRecordset nm (map snd columns))) 0 entries). eexists _, rs. split_and!; [|exact Hread|done|].
  - unfold NewDirReader. rewrite Hdir. simpl. by rewrite !Hassert by (simpl; auto 10).
  - simpl in Hrs. erewrite map_ext_in; [exact Hrs|]. intros sc Hsc%list_elem_of_In. unfold list_files.
    eapply Forall_forall in Hempty; [|done]. by rewrite Hempty.
Qed.
End Listing.

(** ** The columns about files: recordset_columns.go *)

Record int64_value := Int64 { int64_Z : Z }.
Record time_Time := Time { time_value : value }.

(** A time is a struct value, whose fields are left out; [time_zero] is the zero
    time. *)
Definition time_zero : value := VStruct "time.Time" true [].

#[export] Instance GoT_int64 : GoT int64_value := {|
  T_Type := Some (TInt "int64" KInt64); T_zero := Int64 0; to_any z := VInt "int64" KInt64 (int64_Z z);
  assert_T v := match v with VInt ty KInt64 z => if String.eqb ty "int64" then Some (Int64 z) else None | _ => None end |}.
#[export] Instance GoT_time : GoT time_Time := {|
  T_Type := Some (TStruct "time.Time" []); T_zero := Time time_zero; to_any := time_value;
  assert_T v := match v with VStruct ty _ _ => if String.eqb ty "time.Time" then Some (Time v) else None | _ => None end |}.
#[export] Instance GoTLaws_int64 : GoTLaws int64_value. Proof. solve_GoTLaws. Qed.
#[export] Instance GoTLaws_time : GoTLaws time_Time. Proof. solve_GoTLaws. Qed.

Section FileColumns.
Context {W : Type} `{Roaring}.

Definition NewFileNameColumn : column string := NewTypedColumn ColumnFileName "" [].
Definition NewIsDirColumn : columnBool := NewBoolColumn ColumnIsDir [].
Definition NewFileExtColumn : res column_error (columnBitmap string) :=
  NewBitmapColumn ColumnFileExt 0 (λ _, "") [ColDbType "STRING"].
Definition NewFileSizeColumn : column int64_value := NewTypedColumn ColumnFileSize (Int64 0) [].
Definition NewFileModifiedColumn : column time_Time := NewTypedColumn ColumnFileModified (Time time_zero) [].

(** An untyped column with the type of its values. *)
Definition untyped_column {C T} `{GoT T, !Column C T} (ty : string) (c : C) : tagged_column (W := W) :=
  (Some ty, Stored (stored (UntypedCol (C := C) (T := T) c))).

Definition NewFileInfoColumns : res column_error (list (tagged_column (W := W))) :=
  do ext <- NewFileExtColumn;
  Ret [untyped_column "string" NewFileNameColumn;
       untyped_column "int64" NewFileSizeColumn;
       untyped_column (Column0 := Column_bitmap String.eqb) "string" ext;
       untyped_column "time.Time" NewFileModifiedColumn].
End FileColumns.

Module FsExamples.

(** A directory with a subdirectory and a file, whose information is read or
    not. *)
Definition entries : list DirEntry := [mkDirEntry "sub" true; mkDirEntry "a.txt" false; mkDirEntry "b" false].
Definition info_of (e : DirEntry) : FileInfo := mkFileInfo (Z.of_nat (String.length (entry_Name e))) time_zero.

(** The state counts the calls of [Info] that still fail. *)
#[export] Instance small_fs : FileSystem nat := {|
  ReadDir nm _ := if String.eqb nm "dir" then Ret entries else Fail ("no such file or directory", true);
  Info e failures := match failures with 0 => (0, Ret (info_of e)) | Datatypes.S n => (n, Fail ("stale handle", false)) end;
  Stat path _ := if String.eqb path "/data/a.txt" then Ret (mkFileInfo 5 VNil)
                 else if String.eqb path "/etc/passwd" then Ret (mkFileInfo 99 VNil)
                 else Fail ("no such file or directory", true);
  UserHomeDir _ := Ret "/home/me";
|}.

Definition columns : list (tagged_column (W := nat)) :=
  [(Some "string", Stored (stored (NewColumn (T := string) ColumnFileName "" [])));
   (None, Stored (stored (NewTypedColumn (T := value) "other" VNil [])))].

Definition is_string (v : value) : Prop := ∃ s, v = vstr s.

Definition sheet (names others : list value) : list (sheet_column nat) :=
  [mkSheetColumn ColumnFileName (vstr "") is_string None names; mkSheetColumn "other" VNil (λ _, True) None others].

Lemma columns_show : Forall2 (column_shows 10) (map snd columns) (sheet [] []).
Proof.
  constructor; [|constructor; [|constructor]].
  - split; [done|]. split; [done|]. split; [done|].
    exists (ColumnLaws_untyped (C := column string) (T := string)). split; [by exists []|].
    split; [intros v [s ->]; by exists s|]. split; [done|]. by exists "".
  - split; [done|]. split; [done|]. split; [done|]. exists (ColumnLaws_standard (T := value)). done.
Qed.

Lemma dir_reader_lists_files_witness :
  ∃ r r' rs, NewDirReader "dir" columns 0 = Ret r ∧
    read_rows 3 r 0 = Some (0, r', [mkColumnarRow 0 None; mkColumnarRow 1 None], Fail ErrNoMoreRecords) ∧
    dr_rs r' = Some rs ∧ rs_shows 10 rs 2 (sheet [vstr "a.txt"; vstr "b"] [VNil; VNil]).
Proof.
  apply (dir_reader_lists_files 10 info_of "dir" columns (sheet [] []) entries 0); try done.
  - exact columns_show.
  - repeat constructor.
  - repeat constructor; set_solver.
  - intros cn ty. simpl. intros Hc. repeat destruct Hc as [[= <- <-]|Hc]; done.
  - intros e _. split; [|done]. intros sc v Hsc. apply elem_of_cons in Hsc as [->|Hsc].
    + intros [= <-]. split; [done|]. by eexists.
    + apply list_elem_of_singleton in Hsc as ->. done.
  - simpl. lia.
Defined.

(** The columns about files, read from the directory: names, sizes, extensions
    and times of its two files. *)
#[local] Existing Instance RecordsetColumnLaws.ColumnExamples.set_bitmaps.

Definition file_table (f : nat) : res fs_error (list (string * list (res column_error value))) :=
  do columns <- rmap_error (λ _, os_error "column") (NewFileInfoColumns (W := nat));
  do r <- NewDirReader "dir" columns f;
  match read_rows 3 r f with
  | Some (_, r, rows, Fail ErrNoMoreRecords) =>
      match dr_rs r with
      | Some rs => Ret ((λ c, (column_Name c, (λ i, column_GetValue c (Z.of_nat i)) <$> seq 0 (length rows))) <$> rs_cols rs)
      | None => Fail ErrNotSupported
      end
  | _ => Fail ErrNotSupported
  end.

Example files_of_directory :
  file_table 0 = Ret [(ColumnFileName, [Ret (vstr "a.txt"); Ret (vstr "b")]);
                      (ColumnFileSize, [Ret (VInt "int64" KInt64 5); Ret (VInt "int64" KInt64 1)]);
                      (ColumnFileExt, [Ret (vstr ".txt"); Ret (vstr "")]);
                      (ColumnFileModified, [Ret time_zero; Ret time_zero])].
Proof. vm_compute. reflexivity. Qed.

(** When the information of an entry cannot be read, the row that was added
    stays, and trying again adds another. *)
Definition size_column : list (tagged_column (W := nat)) :=
  [(Some "int64", Stored (stored (NewTypedColumn (T := value) ColumnFileSize (vint 0) [])))].
Example failed_row_stays :
  (do r <- NewDirReader "dir" size_column 1;
   let '(f, r, first) := dr_Next r 1 in
   let '(_, r, second) := dr_Next r f in
   Ret (first, rs_rowsCount <$> dr_rs r)) = Ret (Fail (os_error "stale handle"), Some 2%Z).
Proof. reflexivity. Qed.

(** An identifier with dots leads out of the directory of the database. *)
Example identifier_leaves_directory :
  filepath_Join "/data" "../etc/passwd" = "/etc/passwd" ∧
  fs_Exists (H := chain_keys) (mkDatabase "/data" (mkFileInfo 0 VNil)) 0 (ChainKey "files" (vstr "../etc/passwd") None) = Ret true.
Proof. split; reflexivity. Qed.

(** A record whose error was set to nil has one. *)
Example SetError_nil r : fr_Exists (H := chain_keys) (fr_SetError (H := chain_keys) r None) = false.
Proof. reflexivity. Qed.

Example paths : filepath_Join "/home/me" "a//./b/../c" = "/home/me/a/c" ∧ Clean "" = "." ∧ Clean "../../x" = "../../x" ∧ Clean "/../x" = "/x" ∧
  Ext "a.b/c.tar.gz" = ".gz" ∧ Ext "a.b/c" = "".
Proof. repeat split. Qed.
End FsExamples.
