(* ===== verification/MemoryRows.v ===== *)
(** * Rows of the in-memory adapter: comparing values and matching conditions
    (src/adapters/dalgo2memory: database.go, group.go, engine.go)

    A row's fields are a Go map in key order (GoMaps.v). *)

From Stdlib Require Import String SpecFloat.
From stdpp Require Import base sets list strings.
From S2P Require Import Prelude StableSort GoValues GoMaps GoStrings GoJSON RecordKey DalQuery DalString.

Local Open Scope string_scope.
Local Open Scope nat_scope.
Local Open Scope list_scope.
Set Warnings "-register-all".

(** What the adapter's operations fail with. *)
Inductive mem_error :=
| not_supported
| read_after_write
| undefined_collection (name : string)
| record_already_exists
| not_found
| json_error
| unknown_field (name : string)
| field_path_not_map (segment : string)
| unknown_source (name src : string)
| column_not_field
| column_not_grouped
| unsupported_expression
| unsupported_aggregate (name : string)
| unsupported_having
| only_single_join (n : nat)
| unsupported_join_type
| engine_unusable
| other_error (text : string).

Definition row_map : Type := list (string * value).

(** [data[name]]: nil when the key is missing. *)
Definition get (data : row_map) (name : string) : value := default VNil (assoc name data).

Definition uncomparable_panic : string := "runtime error: comparing uncomparable type".

(** [a == b] on interfaces *)
Definition go_eq (a b : value) : res mem_error bool :=
  match iface_eq a b with Some r => Ret r | None => Panic uncomparable_panic end.

Definition number (v : value) : option spec_float :=
  match v with
  | VInt _ _ z => Some (float_of_Z z)
  | VUint _ KUintptr _ => None
  | VUint _ _ z => Some (float_of_Z z)
  | VFloat _ _ f => Some f
  | _ => None
  end.

(** [reflect.Type.Comparable] of a non-nil value's type *)
Definition type_comparable (v : value) : bool :=
  match v with
  | VSlice _ _ | VMap _ _ _ | VFunc _ _ => false
  | VArray _ c _ | VStruct _ c _ => c
  | _ => true
  end.

(** Boolean loops that stop at the first answer, error or panic. *)
Section BoolLoops.
Context {A : Type} (f : A → res mem_error bool).
Fixpoint all_match (l : list A) : res mem_error bool :=
  match l with
  | [] => Ret true
  | x :: l' => do ok <- f x; if ok then all_match l' else Ret false
  end.
Fixpoint any_match (l : list A) : res mem_error bool :=
  match l with
  | [] => Ret false
  | x :: l' => do ok <- f x; if ok then Ret true else any_match l'
  end.
End BoolLoops.

Section Rows.
Context `{GoFmt, GoJSON}.

(** Three-way comparison; Go's -1, 0 and 1 are [Lt], [Eq] and [Gt]. *)
Definition compare (a b : value) : comparison :=
  match number a, number b with
  | Some af, Some bf => if SFltb af bf then Lt else if SFltb bf af then Gt else Eq
  | _, _ => String.compare (sprint a) (sprint b)
  end.

Definition compareOp (op : Operator) (l r : value) : bool :=
  let c := compare l r in
  if String.eqb op Equal then match c with Eq => true | _ => false end
  else if String.eqb op GreaterThen then match c with Gt => true | _ => false end
  else if String.eqb op GreaterOrEqual then match c with Lt => false | _ => true end
  else if String.eqb op LessThen then match c with Lt => true | _ => false end
  else if String.eqb op LessOrEqual then match c with Gt => false | _ => true end
  else false.

(** A constant as a stored value would read back. *)
Definition normalizeConstant (v : value) : value :=
  match marshal v with Some j => unmarshal_any j | None => v end.

Definition elementEquals (a b : value) : res mem_error bool :=
  match number a with
  | Some af => Ret match number b with Some bf => SFeqb af bf | None => false end
  | None =>
      if negb (type_comparable a) || negb (type_comparable b) then Ret false else go_eq a b
  end.

(** The elements of a slice or an array. *)
Definition elements (v : value) : list value :=
  match v with
  | VSlice _ l => default [] l
  | VArray _ _ l => l
  | _ => []
  end.

Definition fieldContains (fieldValue v : value) : res mem_error bool :=
  any_match (λ x, elementEquals x v) (elements fieldValue).

Definition fieldContainsAny (fieldValue values : value) : res mem_error bool :=
  any_match (λ x, fieldContains fieldValue x) (elements values).

Definition is_order_operator (op : Operator) : bool :=
  String.eqb op GreaterThen || String.eqb op GreaterOrEqual || String.eqb op LessThen
  || String.eqb op LessOrEqual.

Definition matchesComparison (data : row_map) (op : Operator) (left_ right_ : Expression)
  : res mem_error bool :=
  match left_, right_ with
  | FieldRef _ name _, Constant v =>
      let norm := normalizeConstant v in
      if String.eqb op Equal then go_eq (get data name) norm
      else if is_order_operator op then
        match assoc name data with
        | None => Ret false
        | Some value => Ret (compareOp op value norm)
        end
      else Ret false
  | FieldRef _ name _, Array v => fieldContainsAny (get data name) v
  | Constant v, FieldRef _ name _ =>
      if String.eqb op In then fieldContains (get data name) (normalizeConstant v) else Ret false
  | _, _ => Ret false
  end.

Fixpoint matchesCondition (data : row_map) (condition : Condition) : res mem_error bool :=
  match condition with
  | NilExpr => Ret true
  | GroupCondition op cs =>
      if negb (String.eqb op And) then Ret false else all_match (matchesCondition data) cs
  | Comparison op l r => matchesComparison data op l r
  | _ => Ret false
  end.

Definition matchesWhere (data : row_map) (condition : option Condition) : res mem_error bool :=
  matchesCondition data (default NilExpr condition).

(** ** Conditions built with [Where] *)

Section Where.
Context `{RecordKeys}.

Lemma all_match_Ret {A} (f : A → res mem_error bool) l :
  (∀ x, x ∈ l → ∃ b, f x = Ret b) →
  ∃ b, all_match f l = Ret b ∧ (b = true ↔ ∀ x, x ∈ l → f x = Ret true).
Proof.
  induction l as [|x l IH]; intros Hl; simpl; [exists true; set_solver|].
  destruct (Hl x) as [[] Hx]; [set_solver|..]; rewrite Hx; simpl.
  - destruct IH as (b & -> & Hb); [set_solver|]. exists b. split; [done|].
    rewrite Hb. set_solver.
  - exists false. split; [done|]. split; [done|]. intros Hall.
    specialize (Hall x ltac:(set_solver)). congruence.
Qed.

(** The rows that match a query built with several [Where] calls are the
    rows that match every one of the conditions, in whatever way the builder
    groups them. *)
Theorem Where_conjunction data from (conditionss : list (list Condition))
    (Hreturns : ∀ c, c ∈ concat conditionss → ∃ b, matchesCondition data c = Ret b) :
  let qb := fold_left Where conditionss (NewQuery from) in
  let q := (newQuery qb).2 in
  ∃ b, matchesWhere data (q_where q) = Ret b ∧
       (b = true ↔ ∀ c, c ∈ concat conditionss → matchesCondition data c = Ret true).
Proof.
  simpl.
  assert (Hqb : ∀ cs0, b_conditions (fold_left Where conditionss (mkBuilder (empty_query (Some from)) cs0 []))
      = cs0 ++ concat conditionss ∧
      b_q (fold_left Where conditionss (mkBuilder (empty_query (Some from)) cs0 [])) = empty_query (Some from)).
  { clear Hreturns. induction conditionss as [|cs css IH]; intros cs0; simpl; [by rewrite app_nil_r|].
    unfold Where at 2 4. simpl. destruct (IH (cs0 ++ cs)) as [-> ->]. by rewrite app_assoc. }
  destruct (Hqb []) as [Hc Hq]. unfold NewQuery, NewQueryBuilder. rewrite Hc, Hq. simpl. clear Hc Hq Hqb.
  destruct (concat conditionss) as [|c [|c' cs]]; simpl.
  - exists true. set_solver.
  - destruct (Hreturns c) as [b Hb]; [set_solver|]. exists b. unfold matchesWhere.
    change (default NilExpr (Some c)) with c. split; [done|].
    split; [|intros Hall; rewrite Hall in Hb by set_solver; by injection Hb]. intros -> x Hx. apply list_elem_of_singleton in Hx as ->. done.
  - unfold matchesWhere. unfold default, from_option, id. cbn [matchesCondition].
    apply all_match_Ret. done.
Qed.
End Where.
End Rows.
