(* ===== verification/MemoryQuery.v ===== *)
(** * Queries of the in-memory adapter
    (src/adapters/dalgo2memory: database.go, join.go, group.go, project.go)

    The query pipeline on the rows that the storage engines enumerate: filter,
    group, order, limit, project.  Engines enumerate their rows in any order. *)

From Stdlib Require Import String SpecFloat.
From stdpp Require Import base sets list strings pretty.
From S2P Require Import Prelude StableSort GoValues GoMaps GoStrings GoJSON RecordKey DalQuery.
From S2P Require Import DalString MemoryRows.

Local Open Scope string_scope.
Local Open Scope nat_scope.
Local Open Scope list_scope.
Set Warnings "-register-all".

(** The data of each source by its name or alias; a nil map reads as [[]]. *)
Definition rowSources : Type := list (string * row_map).

Definition source_get (sources : rowSources) (source name : string) : value :=
  get (default [] (assoc source sources)) name.

(** Set of the source names that a query can refer to. *)
Definition known_sources : Type := list string.
Definition is_known (known : known_sources) (source : string) : bool := bool_decide (source ∈ known).

Section Query.
Context `{GoFmt, GoJSON, RecordKeys}.

(** Keys made for results: [record.NewKeyWithID]. *)
Context (NewKeyWithID : string → string → key).
(** [json.Unmarshal] of a text into a variable that holds a value. *)
Context (Unmarshal_into : json → value → res mem_error value).

(** A stored row: [row_text] is what [materialize] unmarshals. *)
Record memoryRow := mkRow {
  row_id : string;
  row_data : row_map;
  row_text : json;
  row_key : option key;
}.

(** A record of a result, without error; a record without data has nil. *)
Record result_record := mkResult { rec_key : key; rec_data : value }.

(** ** project.go *)

Fixpoint validateColumns (columns : list Column) (known : known_sources) : res mem_error unit :=
  match columns with
  | [] => Ret tt
  | col :: rest =>
      match col_Expression col with
      | FieldRef source name _ =>
          if negb (String.eqb source "") && negb (is_known known source)
          then Fail (unknown_source name source)
          else validateColumns rest known
      | _ => Fail column_not_field
      end
  end.

Definition baseSources (base : RecordsetSource) (data : row_map) : rowSources :=
  let src := map_of [("", data); (source_Name base, data)] in
  if negb (String.eqb (source_Alias base) "") then map_set (source_Alias base) data src else src.

Definition columnKey (col : Column) (name : string) : string :=
  if negb (String.eqb (Alias col) "") then Alias col else name.

Definition project_column (sources : rowSources) (out : row_map) (col : Column) : row_map :=
  match col_Expression col with
  | FieldRef source name _ => map_set (columnKey col name) (source_get sources source name) out
  | _ => out
  end.

(** The columns have passed [validateColumns]: each is a field reference. *)
Definition projectRow (columns : list Column) (sources : rowSources) : row_map :=
  fold_left (project_column sources) columns [].

(** ** Ordering (join.go) *)

Fixpoint validateOrderSources (orderBy : list OrderExpression) (known : known_sources)
  : res mem_error unit :=
  match orderBy with
  | [] => Ret tt
  | oe :: rest =>
      match ord_Expression oe with
      | FieldRef source name _ =>
          if negb (String.eqb source "") && negb (is_known known source)
          then Fail (unknown_source name source)
          else validateOrderSources rest known
      | _ => validateOrderSources rest known
      end
  end.

Definition directed (oe : OrderExpression) (c : comparison) : comparison :=
  if Descending oe then CompOpp c else c.

(** The comparison of two rows by the keys of ORDER BY; other expressions are
    skipped. *)
Fixpoint order_compare (orderBy : list OrderExpression) (si sj : rowSources) : comparison :=
  match orderBy with
  | [] => Eq
  | oe :: rest =>
      match ord_Expression oe with
      | FieldRef source name _ =>
          match directed oe (compare (source_get si source name) (source_get sj source name)) with
          | Eq => order_compare rest si sj
          | c => c
          end
      | _ => order_compare rest si sj
      end
  end.

Section OrderBy.
Context {T : Type} (orderBy : list OrderExpression) (sourcesOf : T → rowSources) (idOf : T → string).

Definition order_less (x y : T) : bool :=
  match order_compare orderBy (sourcesOf x) (sourcesOf y) with
  | Lt => true
  | Gt => false
  | Eq => String.ltb (idOf x) (idOf y)
  end.

Definition orderBySources (rows : list T) : list T := stable_sort order_less rows.
End OrderBy.

(** ** Expressions over sources (join.go) *)

(** The value and whether it is present. *)
Definition resolveJoinExpr (e : Expression) (sources : rowSources) (known : known_sources)
  : res mem_error (value * bool) :=
  match e with
  | FieldRef src name _ =>
      if negb (is_known known src) then Fail (unknown_source name src)
      else
        let data := default [] (assoc src sources) in
        Ret (get data name, has_key name data)
  | Constant v => Ret (v, true)
  | _ => Fail unsupported_expression
  end.

Definition valuesEqual (a b : value) : res mem_error bool :=
  match number a, number b with
  | Some af, Some bf => Ret (SFeqb af bf)
  | _, _ => go_eq a b
  end.

Definition matchesJoinCondition (cond : Condition) (sources : rowSources) (known : known_sources)
  : res mem_error bool :=
  match cond with
  | NilExpr => Ret true
  | Comparison op left_ right_ =>
      if negb (String.eqb op Equal) then Ret false
      else
        do l <- resolveJoinExpr left_ sources known;
        do r <- resolveJoinExpr right_ sources known;
        if l.2 && r.2 then valuesEqual l.1 r.1 else Ret false
  | _ => Ret false
  end.

Definition allConditionsMatch (conds : list Condition) (sources : rowSources) (known : known_sources)
  : res mem_error bool :=
  all_match (λ c, matchesJoinCondition c sources known) conds.

Definition mergeData (base join : row_map) : row_map := map_copy (map_of base) join.

Definition sortByID (rows : list memoryRow) : list memoryRow := stable_sort (key_less row_id) rows.

(** ** Grouping (group.go) *)

Record aggGroup := mkGroup { g_rows : list rowSources; g_out : option row_map }.

(** [fmt.Sprintf("%T:%v", v, v)] *)
Definition typed_text (v : value) : string :=
  (match v with VNil => "<nil>" | _ => type_name v end) +:+ ":" +:+ sprint v.

Definition nul : string := String (Ascii.ascii_of_N 0) "".

Definition groupKey (groupBy : list Expression) (r : rowSources) (known : known_sources)
  : res mem_error string :=
  do parts <- traverse (λ _ ge, do v <- resolveJoinExpr ge r known; Ret (typed_text v.1)) groupBy;
  Ret (join nul parts).

(** Appends a row to the group of its key; a new key's group comes last. *)
Fixpoint add_to_group (key : string) (r : rowSources) (groups : list (string * list rowSources))
  : list (string * list rowSources) :=
  match groups with
  | [] => [(key, [r])]
  | (k, rs) :: rest =>
      if String.eqb key k then (k, rs ++ [r]) :: rest else (k, rs) :: add_to_group key r rest
  end.

Definition partition (groupBy : list Expression) (rows : list rowSources) (known : known_sources)
  : res mem_error (list (string * list rowSources)) :=
  fold_res (λ r groups, do key <- groupKey groupBy r known; Ret (add_to_group key r groups)) rows [].

Section Aggregates.
(** The fold of an aggregate over the present, non-nil values of its argument. *)
Context {S : Type} (arg : Expression) (known : known_sources) (step : S → value → S).
Fixpoint fold_values (rows : list rowSources) (s : S) : res mem_error S :=
  match rows with
  | [] => Ret s
  | r :: rest =>
      do v <- resolveJoinExpr arg r known;
      fold_values rest match v with (VNil, _) | (_, false) => s | (x, true) => step s x end
  end.
End Aggregates.

Definition index_panic : string := "runtime error: index out of range [0] with length 0".

Definition first_arg (args : list Expression) : res mem_error Expression :=
  match args with [] => Panic index_panic | a :: _ => Ret a end.

Definition sum_step (s : spec_float * Z) (v : value) : spec_float * Z :=
  match number v with Some f => (float_add s.1 f, s.2 + 1)%Z | None => s end.

Definition best_step (min : bool) (best : option value) (v : value) : option value :=
  match best with
  | None => Some v
  | Some b =>
      match compare v b with
      | Lt => Some (if min then v else b)
      | Gt => Some (if min then b else v)
      | Eq => Some b
      end
  end.

Definition evalAggregate (name : string) (args : list Expression) (rows : list rowSources)
    (known : known_sources) : res mem_error value :=
  if String.eqb name COUNT then
    match args with
    | [FieldRef _ _ _] | _ :: _ :: _ | [] =>
        do arg <- first_arg args;
        do n <- fold_values arg known (λ n _, n + 1)%Z rows 0%Z;
        Ret (vint n)
    | _ => Ret (vint (Z.of_nat (length rows)))
    end
  else if String.eqb name SUM || String.eqb name AVERAGE then
    do arg <- first_arg args;
    do s <- fold_values arg known sum_step rows (S754_zero false, 0%Z);
    Ret (if (s.2 =? 0)%Z then VNil
         else if String.eqb name AVERAGE then vfloat (float_div s.1 (float_of_Z s.2))
         else vfloat s.1)
  else if String.eqb name MIN || String.eqb name MAX then
    do arg <- first_arg args;
    do best <- fold_values arg known (best_step (String.eqb name MIN)) rows None;
    Ret (default VNil best)
  else Fail (unsupported_aggregate name).

(** A group always has a row. *)
Definition resolveGroupValue (e : Expression) (g : aggGroup) (known : known_sources)
  : res mem_error value :=
  match e with
  | Function name args => evalAggregate name args (g_rows g) known
  | FieldRef source name isID =>
      let from_row :=
        match g_rows g with
        | [] => Panic index_panic
        | r :: _ => do v <- resolveJoinExpr (FieldRef source name isID) r known; Ret v.1
        end in
      match g_out g with
      | Some out =>
          if String.eqb source "" then
            match assoc name out with Some v => Ret v | None => from_row end
          else from_row
      | None => from_row
      end
  | Constant v => Ret (normalizeConstant v)
  | _ => Fail unsupported_expression
  end.

Fixpoint matchesHaving (cond : Condition) (g : aggGroup) (known : known_sources)
  : res mem_error bool :=
  match cond with
  | Comparison op left_ right_ =>
      do l <- resolveGroupValue left_ g known;
      do r <- resolveGroupValue right_ g known;
      Ret (compareOp op l r)
  | GroupCondition op conds =>
      if String.eqb op Or then any_match (λ c, matchesHaving c g known) conds
      else all_match (λ c, matchesHaving c g known) conds
  | _ => Fail unsupported_having
  end.

(** A nil expression, or a nil or non-slice array inside one, panics here. *)
Definition lift_text {A} (m : res unit A) : res mem_error A :=
  match m with Ret a => Ret a | Fail _ => Fail (other_error "") | Panic s => Panic s end.

Definition columnOutKey (col : Column) : res mem_error string :=
  if negb (String.eqb (Alias col) "") then Ret (Alias col)
  else match col_Expression col with
       | FieldRef _ name _ => Ret name
       | e => lift_text (Expression_String e)
       end.

Fixpoint validateGroupSources (groupBy : list Expression) (known : known_sources) : res mem_error unit :=
  match groupBy with
  | [] => Ret tt
  | FieldRef src name _ :: rest =>
      if negb (String.eqb src "") && negb (is_known known src) then Fail (unknown_source name src)
      else validateGroupSources rest known
  | _ :: rest => validateGroupSources rest known
  end.

Fixpoint validateGroupedColumns (groupKeys : list string) (columns : list Column) : res mem_error unit :=
  match columns with
  | [] => Ret tt
  | col :: rest =>
      match col_Expression col with
      | Function _ _ => validateGroupedColumns groupKeys rest
      | e =>
          do text <- lift_text (Expression_String e);
          if bool_decide (text ∈ groupKeys) then validateGroupedColumns groupKeys rest
          else
            do _ <- lift_text (Column_String col);
            Fail column_not_grouped
      end
  end.

(** The output row of a group. *)
Definition project_group (columns : list Column) (known : known_sources) (rows : list rowSources)
  : res mem_error aggGroup :=
  let g := mkGroup rows None in
  do out <- fold_res (λ col out,
      do val <- resolveGroupValue (col_Expression col) g known;
      do name <- columnOutKey col;
      Ret (map_set name val out)) columns [];
  Ret (mkGroup rows (Some out)).

Fixpoint filter_having (having : Condition) (known : known_sources) (groups : list aggGroup)
  : res mem_error (list aggGroup) :=
  match groups with
  | [] => Ret []
  | g :: rest =>
      do ok <- matchesHaving having g known;
      do kept <- filter_having having known rest;
      Ret (if ok then g :: kept else kept)
  end.

Fixpoint keys_compare (orderBy : list OrderExpression) (ki kj : list value) : comparison :=
  match orderBy, ki, kj with
  | oe :: rest, x :: xs, y :: ys =>
      match directed oe (compare x y) with Eq => keys_compare rest xs ys | c => c end
  | _, _, _ => Eq
  end.

Definition order_groups (orderBy : list OrderExpression) (known : known_sources) (groups : list aggGroup)
  : res mem_error (list aggGroup) :=
  match orderBy with
  | [] => Ret groups
  | _ =>
      do keyed <- traverse (λ _ g,
          do row <- traverse (λ _ oe, resolveGroupValue (ord_Expression oe) g known) orderBy;
          Ret (row, g)) groups;
      Ret (snd <$> stable_sort (λ a b, match keys_compare orderBy a.1 b.1 with Lt => true | _ => false end) keyed)
  end.

(** [groups[offset:]] and [groups[:limit]], when they are positive and in range. *)
Definition apply_offset {A} (offset : Z) (l : list A) : list A :=
  if (0 <? offset)%Z then drop (Z.to_nat offset) l else l.
Definition apply_limit {A} (limit : Z) (l : list A) : list A :=
  if (0 <? limit)%Z && (limit <? Z.of_nat (length l))%Z then take (Z.to_nat limit) l else l.

Definition executeGroupedReader (q : structuredQuery) (rows : list rowSources) (collection : string)
    (known : known_sources) : res mem_error (list result_record) :=
  do _ <- validateGroupSources (q_groupBy q) known;
  do groupKeys <- traverse (λ _ ge, lift_text (Expression_String ge)) (q_groupBy q);
  do _ <- validateGroupedColumns groupKeys (q_columns q);
  do parts <- partition (q_groupBy q) rows known;
  do groups <- traverse (λ _ p, project_group (q_columns q) known p.2) parts;
  do groups <- match q_having q with
               | None => Ret groups
               | Some having => filter_having having known groups
               end;
  do groups <- order_groups (q_orderBy q) known groups;
  let groups := apply_limit (q_limit q) (apply_offset (q_offset q) groups) in
  Ret (imap (λ i g, mkResult (NewKeyWithID collection (pretty (Z.of_nat i)))
                             (vmap (default [] (g_out g)))) groups).

(** ** The executors (database.go, join.go) *)

Definition isChildOf (k : option key) (parent : key) : bool :=
  match k with
  | None => false
  | Some k => match Parent k with
              | None => false
              | Some p => String.eqb (key_String p) (key_String parent)
              end
  end.

Definition resultKey (row : memoryRow) (collectionName : string) : key :=
  match row_key row with Some k => k | None => NewKeyWithID collectionName (row_id row) end.

(** The parent that a source given as a [CollectionRef] value is restricted to. *)
Definition base_parent (base : RecordsetSource) : option key :=
  match base with CollectionRef false _ _ parent => parent | _ => None end.

Definition in_parent (parent : option key) (row : memoryRow) : bool :=
  match parent with None => true | Some p => isChildOf (row_key row) p end.

(** The rows that match the condition and the parent. *)
Fixpoint select_rows (where_ : option Condition) (parent : option key) (rows : list memoryRow)
  : res mem_error (list memoryRow) :=
  match rows with
  | [] => Ret []
  | row :: rest =>
      do ok <- matchesWhere (row_data row) where_;
      do kept <- select_rows where_ parent rest;
      Ret (if ok && in_parent parent row then row :: kept else kept)
  end.

(** The record of a result row: projected, keys only, or decoded into the
    query's template or the collection's record type. *)
Definition result_of_row (q : structuredQuery) (factory : option value) (base : RecordsetSource)
    (row : memoryRow) : res mem_error result_record :=
  let key := resultKey row (source_Name base) in
  match q_columns q with
  | _ :: _ => Ret (mkResult key (vmap (projectRow (q_columns q) (baseSources base (row_data row)))))
  | [] =>
      match q_intoRecord q, factory with
      | None, None => Ret (mkResult key VNil)
      | Some target, _ | None, Some target =>
          do data <- Unmarshal_into (row_text row) target;
          Ret (mkResult key data)
      end
  end.

Definition known_base (base : RecordsetSource) : known_sources :=
  "" :: source_Name base ::
  (if negb (String.eqb (source_Alias base) "") then [source_Alias base] else []).

Definition grouped (q : structuredQuery) : bool := 0 <? length (q_groupBy q).

(** [ExecuteQueryToRecordsReader] without joins, on the collection's rows. *)
Definition executeQuery (q : structuredQuery) (base : RecordsetSource) (factory : option value)
    (allRows : list memoryRow) : res mem_error (list result_record) :=
  match allRows with
  | [] => Ret []
  | _ =>
      let known := known_base base in
      do _ <- validateOrderSources (q_orderBy q) known;
      do _ <- (if grouped q then Ret tt else validateColumns (q_columns q) known);
      do rows <- select_rows (q_where q) (base_parent base) allRows;
      if grouped q then
        executeGroupedReader q ((λ row, baseSources base (row_data row)) <$> rows) (source_Name base) known
      else
        let rows := orderBySources (q_orderBy q) (λ r, baseSources base (row_data r)) row_id rows in
        let rows := apply_limit (q_limit q) rows in
        traverse (λ _ row, result_of_row q factory base row) rows
  end.

(** ** Joins *)

Record joinedRow := mkJoined { j_baseID : string; j_sources : rowSources; j_merged : row_map }.

Definition sourceKey (rs : RecordsetSource) : string :=
  if negb (String.eqb (source_Alias rs) "") then source_Alias rs else source_Name rs.

Definition join_sources (baseKey joinKey : string) (br jr : row_map) : rowSources :=
  map_of [("", br); (baseKey, br); (joinKey, jr)].

Section Join.
Context (join : JoinedSource) (baseKey joinKey : string) (known : known_sources).

(** The matches of a base row among the joined rows. *)
Fixpoint join_matches (br : memoryRow) (joinRows : list memoryRow) : res mem_error (list joinedRow) :=
  match joinRows with
  | [] => Ret []
  | jr :: rest =>
      let sources := join_sources baseKey joinKey (row_data br) (row_data jr) in
      do ok <- allConditionsMatch (join_on join) sources known;
      do more <- join_matches br rest;
      Ret (if ok then mkJoined (row_id br) sources (mergeData (row_data br) (row_data jr)) :: more else more)
  end.

(** A LEFT join keeps a base row without a match, with nil joined data. *)
Definition join_row (joinRows : list memoryRow) (br : memoryRow) : res mem_error (list joinedRow) :=
  do matches <- join_matches br joinRows;
  Ret match matches, join_joinType join with
      | [], JoinLeft =>
          [mkJoined (row_id br) (join_sources baseKey joinKey (row_data br) []) (mergeData (row_data br) [])]
      | _, _ => matches
      end.

Definition join_rows (baseRows joinRows : list memoryRow) : res mem_error (list joinedRow) :=
  do parts <- traverse (λ _ br, join_row joinRows br) baseRows;
  Ret (List.concat parts).
End Join.

Fixpoint filter_joined (where_ : Condition) (known : known_sources) (rows : list joinedRow)
  : res mem_error (list joinedRow) :=
  match rows with
  | [] => Ret []
  | row :: rest =>
      do ok <- matchesJoinCondition where_ (j_sources row) known;
      do kept <- filter_joined where_ known rest;
      Ret (if ok then row :: kept else kept)
  end.

(** The data that a join query returns for a row. *)
Definition joined_data (q : structuredQuery) (row : joinedRow) : value :=
  match q_columns q, q_intoRecord q with
  | _ :: _, _ => vmap (projectRow (q_columns q) (j_sources row))
  | [], None => VNil
  | [], Some _ => vmap (j_merged row)
  end.

(** [executeJoinQuery], up to loading the rows: the join it supports. *)
Definition joinPlan (q : structuredQuery) (from : FromSource) : res mem_error JoinedSource :=
  match from_Joins from with
  | [join] =>
      match join_joinType join with
      | JoinInner | JoinLeft =>
          let known := [""; sourceKey (from_Base from); sourceKey (join_source join)] in
          do _ <- validateOrderSources (q_orderBy q) known;
          do _ <- (if grouped q then Ret tt else validateColumns (q_columns q) known);
          Ret join
      | _ => Fail unsupported_join_type
      end
  | joins => Fail (only_single_join (length joins))
  end.

(** [executeJoinQuery] on the rows of the two collections. *)
Definition executeJoin (q : structuredQuery) (base : RecordsetSource) (join : JoinedSource)
    (baseRows joinRows : list memoryRow) : res mem_error (list result_record) :=
  let baseKey := sourceKey base in
  let joinKey := sourceKey (join_source join) in
  let known := [""; baseKey; joinKey] in
  do combined <- join_rows join baseKey joinKey known (sortByID baseRows) (sortByID joinRows);
  do filtered <- filter_joined (default NilExpr (q_where q)) known combined;
  if grouped q then executeGroupedReader q (j_sources <$> filtered) (source_Name base) known
  else
    let filtered := orderBySources (q_orderBy q) j_sources j_baseID filtered in
    let filtered := apply_limit (q_limit q) filtered in
    Ret ((λ row, mkResult (NewKeyWithID (source_Name base) (j_baseID row)) (joined_data q row))
         <$> filtered).
End Query.
