(* ===== verification/MemoryOrder.v ===== *)
(** * Ordering of query results

    When is the comparator of ORDER BY an order, and what does the sort of a
    query then return? *)

From Stdlib Require Import String SpecFloat Sorted.
From stdpp Require Import base sets list strings pretty sorting.
From S2P Require Import Prelude StableSort GoValues GoMaps GoStrings GoJSON RecordKey DalQuery.
From S2P Require Import DalString MemoryRows MemoryQuery.

Local Open Scope string_scope.
Local Open Scope nat_scope.
Local Open Scope list_scope.

(** ** Floats *)

Definition not_nan (f : spec_float) : bool := match f with S754_nan => false | _ => true end.

(** Sign, exponent and mantissa, with the order of the floats. *)
Definition float_key (f : spec_float) : Z * Z * Z :=
  match f with
  | S754_zero _ | S754_nan => (0, 0, 0)
  | S754_infinity s => if s then (-2, 0, 0) else (2, 0, 0)
  | S754_finite s m e => if s then (-1, - e, - Z.pos m) else (1, e, Z.pos m)
  end%Z.

Definition float_compare : spec_float → spec_float → comparison :=
  lexc (cmp_on (λ f, (float_key f).1.1) Z.compare)
    (lexc (cmp_on (λ f, (float_key f).1.2) Z.compare) (cmp_on (λ f, (float_key f).2) Z.compare)).

#[export] Instance Z_comparator : Comparator (λ _, True) Z.compare.
Proof.
  split.
  - intros x y _ _. apply Z.compare_antisym.
  - intros x y z _ _ _. rewrite !Z.compare_gt_iff. lia.
Qed.

#[export] Instance float_comparator : Comparator (λ _, True) float_compare.
Proof. repeat apply lexc_comparator; apply cmp_on_comparator, _. Qed.

Lemma SFcompare_key f g : not_nan f = true → not_nan g = true → SFcompare f g = Some (float_compare f g).
Proof.
  unfold float_compare, lexc, cmp_on.
  destruct f as [| [] | | [] m e], g as [| [] | | [] m' e']; simpl; try done; intros _ _.
  - rewrite Z.compare_opp, (Z.compare_antisym e). by destruct (e ?= e')%Z.
Qed.

Lemma float_compare_outcome f g :
  not_nan f = true → not_nan g = true →
  (if SFltb f g then Lt else if SFltb g f then Gt else Eq) = float_compare f g.
Proof.
  intros Hf Hg. unfold SFltb. rewrite !SFcompare_key by done.
  pose proof (cmp_opp (c:=float_compare) f g I I) as ->. by destruct (float_compare f g).
Qed.

(** ** Comparable columns

    [compare] orders numbers by value and everything else by its text.  It is
    an order on values that are all numbers or all not. *)

Section Order.
Context `{GoFmt, GoJSON}.

Definition kind_ok (numeric : bool) (v : value) : Prop :=
  match number v with Some f => numeric = true ∧ not_nan f = true | None => numeric = false end.

Lemma comparator_on {A B} (D : A → Prop) (D' : B → Prop) (k : A → B) c c' :
  Comparator D' c' → (∀ x, D x → D' (k x)) → (∀ x y, D x → D y → c x y = c' (k x) (k y)) → Comparator D c.
Proof.
  intros C HD Hc. split.
  - intros x y Hx Hy. rewrite !Hc by done. by apply cmp_opp; auto.
  - intros x y z Hx Hy Hz. rewrite !Hc by done. apply (cmp_trans (k x) (k y) (k z)); auto.
Qed.

#[export] Instance compare_comparator numeric : Comparator (kind_ok numeric) compare.
Proof.
  destruct numeric.
  - apply (comparator_on _ (λ _, True) (λ v, default S754_nan (number v)) _ float_compare); [apply _|done|].
    unfold kind_ok, compare. intros x y Hx Hy.
    destruct (number x), (number y); simpl; try done. destruct Hx, Hy. by apply float_compare_outcome.
  - apply (comparator_on _ (λ _, True) sprint _ String.compare); [apply _|done|].
    unfold kind_ok, compare. intros x y Hx Hy. destruct (number x), (number y); naive_solver.
Qed.

(** [kinds source name] says whether a column holds numbers. *)
Context (kinds : string → string → bool).

Definition ordered_by (orderBy : list OrderExpression) (s : rowSources) : Prop :=
  Forall (λ oe, match ord_Expression oe with
                | FieldRef source name _ => kind_ok (kinds source name) (source_get s source name)
                | _ => True
                end) orderBy.

#[export] Instance order_compare_comparator orderBy :
  Comparator (ordered_by orderBy) (order_compare orderBy).
Proof.
  induction orderBy as [|oe rest IH]; [by split|].
  assert (Hrest : Comparator (ordered_by (oe :: rest)) (order_compare rest)).
  { apply (comparator_on _ _ id _ _ IH); [|done].
    by intros x [_ Hx]%Forall_cons_1. }
  destruct (ord_Expression oe) as [|source name isID| | | | | | |] eqn:E;
    try (apply (comparator_on _ _ id _ _ Hrest); [done|]; intros x y _ _; simpl; by rewrite E).
  set (c := λ si sj, compare (source_get si source name) (source_get sj source name)).
  assert (Hc : Comparator (ordered_by (oe :: rest)) c).
  { apply (comparator_on _ (kind_ok (kinds source name)) (λ s, source_get s source name) _ compare);
      [apply _| |done]. intros x [Hx _]%Forall_cons_1. by rewrite E in Hx. }
  assert (Hd : Comparator (ordered_by (oe :: rest)) (λ si sj, directed oe (c si sj))).
  { unfold directed. destruct (Descending oe); [|done].
    apply (comparator_on _ _ id _ _ (cmp_desc_comparator _ c Hc)); [done|].
    intros x y Hx Hy. unfold cmp_desc, id. by rewrite (cmp_opp x y). }
  apply (comparator_on _ _ id _ _ (lexc_comparator _ _ _ Hd Hrest)); [done|].
  intros x y _ _. simpl. rewrite E. unfold lexc, id, c. by destruct (directed _ _).
Qed.

Section Rows.
Context {T : Type} (orderBy : list OrderExpression) (sourcesOf : T → rowSources) (idOf : T → string).

Definition row_compare : T → T → comparison :=
  lexc (λ x y, order_compare orderBy (sourcesOf x) (sourcesOf y)) (cmp_on idOf String.compare).

Definition orderable (x : T) : Prop := ordered_by orderBy (sourcesOf x).

#[export] Instance row_compare_comparator : Comparator orderable row_compare.
Proof.
  apply lexc_comparator; [|apply cmp_on_comparator, _].
  by apply (comparator_on _ _ sourcesOf _ _ (order_compare_comparator orderBy)).
Qed.

Lemma order_less_strict_weak : StrictWeak orderable (order_less orderBy sourcesOf idOf).
Proof.
  apply (strict_weak_of_comparator _ row_compare); [apply _|].
  intros x y _ _. unfold order_less, row_compare, lexc, cmp_on, String.ltb.
  by destruct (order_compare orderBy (sourcesOf x) (sourcesOf y)), (String.compare (idOf x) (idOf y)).
Qed.

(** [x] comes before [y]: by the keys of ORDER BY, and by identifier when they
    are equal. *)
Definition precedes (x y : T) : Prop :=
  order_compare orderBy (sourcesOf x) (sourcesOf y) = Lt ∨
  order_compare orderBy (sourcesOf x) (sourcesOf y) = Eq ∧ string_lt (idOf x) (idOf y).

Lemma order_less_precedes x y : order_less orderBy sourcesOf idOf x y = true ↔ precedes x y.
Proof.
  unfold order_less, precedes, string_lt, String.ltb.
  destruct (order_compare orderBy (sourcesOf x) (sourcesOf y)),
    (String.compare (idOf x) (idOf y)); naive_solver.
Qed.

Lemma not_less_precedes x y :
  orderable x → orderable y → idOf x ≠ idOf y →
  order_less orderBy sourcesOf idOf y x = false → precedes x y.
Proof.
  intros Hx Hy Hne. unfold order_less, precedes, string_lt, String.ltb.
  pose proof (cmp_opp (c:=order_compare orderBy) (sourcesOf x) (sourcesOf y) Hx Hy) as ->.
  destruct (order_compare _ (sourcesOf x) (sourcesOf y)); simpl; intros Hless; [|by left|done].
  right. split; [done|]. rewrite (String.compare_antisym (idOf y)) in Hless.
  destruct (String.compare (idOf x) (idOf y)) eqn:E; simpl in Hless; [|done..].
  by apply string_compare_eq in E.
Qed.

Lemma orderBySources_spec rows :
  Forall orderable rows → NoDup (idOf <$> rows) →
  orderBySources orderBy sourcesOf idOf rows ≡ₚ rows ∧
  StronglySorted precedes (orderBySources orderBy sourcesOf idOf rows).
Proof.
  intros Hrows Hnd. split; [apply stable_sort_perm|]. pose proof order_less_strict_weak.
  assert (Hperm : stable_sort (order_less orderBy sourcesOf idOf) rows ≡ₚ rows) by apply stable_sort_perm.
  assert (Hs : StronglySorted (in_order (order_less orderBy sourcesOf idOf))
    (stable_sort (order_less orderBy sourcesOf idOf) rows)) by by apply (stable_sort_sorted _ orderable).
  assert (Hd : Forall orderable (stable_sort (order_less orderBy sourcesOf idOf) rows)) by by rewrite Hperm.
  assert (Hn : NoDup (idOf <$> stable_sort (order_less orderBy sourcesOf idOf) rows)) by by rewrite Hperm.
  unfold orderBySources. clear Hperm. induction Hs as [|x l Hs IH Hx]; [constructor|].
  apply Forall_cons in Hd as [Hdx Hd]. apply NoDup_cons in Hn as [Hnx Hn].
  constructor; [by apply IH|]. rewrite Forall_forall in *. intros y Hy.
  apply not_less_precedes; [done|by apply Hd| |by apply (Hx y)]. intros Heq. apply Hnx. rewrite Heq. by apply list_elem_of_fmap_2.
Qed.

Lemma orderBySources_perm rows rows' :
  Forall orderable rows → NoDup (idOf <$> rows) → rows ≡ₚ rows' →
  orderBySources orderBy sourcesOf idOf rows = orderBySources orderBy sourcesOf idOf rows'.
Proof.
  intros Hd Hnd Hperm. pose proof order_less_strict_weak.
  apply (stable_sort_unique _ orderable); [done| |done]. intros x y Hx Hy Hxy Hyx.
  rewrite Forall_forall in Hd. rewrite <- Hperm in Hy.
  assert (Heq : idOf x = idOf y).
  { destruct (decide (idOf x = idOf y)) as [|Hne]; [done|].
    apply not_less_precedes, order_less_precedes in Hyx; auto. congruence. }
  clear -Hnd Hx Hy Heq. induction rows as [|z rows IH]; [set_solver|].
  apply NoDup_cons in Hnd as [Hz Hnd].
  apply elem_of_cons in Hx as [->|Hx], Hy as [->|Hy]; auto; exfalso; apply Hz.
  - rewrite Heq. by apply list_elem_of_fmap_2.
  - rewrite <- Heq. by apply list_elem_of_fmap_2.
Qed.
End Rows.
End Order.
