(* ===== verification/MemoryResults.v ===== *)
(** * What queries of the in-memory adapter return *)

From Stdlib Require Import String SpecFloat Sorted.
From stdpp Require Import base sets list strings pretty sorting.
From S2P Require Import Prelude StableSort GoValues GoMaps GoStrings GoJSON RecordKey DalQuery.
From S2P Require Import DalString MemoryRows MemoryQuery MemoryOrder.

Local Open Scope string_scope.
Local Open Scope nat_scope.
Local Open Scope list_scope.

Lemma traverse_total {E A B} (f : nat → A → res E B) (P : A → B → Prop) l i :
  (∀ x j, x ∈ l → ∃ y, f j x = Ret y ∧ P x y) →
  ∃ ys, traverse_from f i l = Ret ys ∧ Forall2 P l ys.
Proof.
  revert i. induction l as [|x l IH]; intros i Hl; simpl; [exists []; by split|].
  destruct (Hl x i) as (y & -> & Hy); [set_solver|]. simpl.
  destruct (IH (S i)) as (ys & -> & Hys); [set_solver|]. exists (y :: ys). by split; [|constructor].
Qed.

Lemma filter_bool_elem {A} (f : A → bool) l x : x ∈ List.filter f l ↔ x ∈ l ∧ f x = true.
Proof. by rewrite !list_elem_of_In, filter_In. Qed.

Lemma filter_bool_perm {A} (f : A → bool) l l' : l ≡ₚ l' → List.filter f l ≡ₚ List.filter f l'.
Proof.
  induction 1 as [|x l l' _ IH|x y l|l l' l'' _ IH1 _ IH2]; simpl; [done| | |by etrans].
  - destruct (f x); by rewrite IH.
  - destruct (f x), (f y); try done. apply Permutation_swap.
Qed.

Lemma filter_bool_NoDup {A B} (k : A → B) (f : A → bool) l : NoDup (k <$> l) → NoDup (k <$> List.filter f l).
Proof.
  induction l as [|x l IH]; simpl; [done|]. intros [Hx Hl]%NoDup_cons.
  destruct (f x); [|by apply IH]. simpl. constructor; [|by apply IH]. intros Hin. apply Hx.
  apply list_elem_of_fmap in Hin as (y & -> & [Hy _]%filter_bool_elem). by apply list_elem_of_fmap_2.
Qed.

Section Results.
Context `{GoFmt, GoJSON, RecordKeys}.
Context (NewKeyWithID : string → string → key).
Context (Unmarshal_into : json → value → res mem_error value).

(** ** Selection *)

Definition row_matches (where_ : option Condition) (parent : option key) (row : memoryRow) : bool :=
  match matchesWhere (row_data row) where_ with Ret b => b && in_parent parent row | _ => false end.

(** The condition is evaluated on every row without a panic. *)
Definition evaluates (where_ : option Condition) (rows : list memoryRow) : Prop :=
  ∀ row, row ∈ rows → ∃ b, matchesWhere (row_data row) where_ = Ret b.

Lemma select_rows_filter where_ parent rows :
  evaluates where_ rows → select_rows where_ parent rows = Ret (List.filter (row_matches where_ parent) rows).
Proof.
  induction rows as [|row rows IH]; intros Hev; simpl; [done|].
  destruct (Hev row) as [b Hb]; [set_solver|]. unfold row_matches at 1. rewrite Hb. simpl.
  rewrite IH by (intros r Hr; apply Hev; set_solver). simpl. by destruct (b && in_parent parent row).
Qed.

Section Single.
Context (q : structuredQuery) (base : RecordsetSource) (factory : option value).
Context (kinds : string → string → bool).

Definition sources_of (row : memoryRow) : rowSources := baseSources base (row_data row).
Definition matching : memoryRow → bool := row_matches (q_where q) (base_parent base).
Definition row_precedes : memoryRow → memoryRow → Prop := precedes (q_orderBy q) sources_of row_id.
Definition result_of : memoryRow → res mem_error result_record :=
  result_of_row NewKeyWithID Unmarshal_into q factory base.

(** The rows of a collection: distinct identifiers, and ORDER BY columns that
    hold numbers only or no numbers. *)
Record orderable_rows (rows : list memoryRow) : Prop := {
  ids_distinct : NoDup (row_id <$> rows);
  columns_ordered : Forall (orderable kinds (q_orderBy q) sources_of) rows;
}.

Definition selected (rows : list memoryRow) : list memoryRow :=
  orderBySources (q_orderBy q) sources_of row_id (List.filter matching rows).

Lemma orderable_filter rows : orderable_rows rows → orderable_rows (List.filter matching rows).
Proof.
  intros [Hids Hcols]. split; [by apply filter_bool_NoDup|].
  rewrite Forall_forall in *. intros r [Hr _]%filter_bool_elem. by apply Hcols.
Qed.

(** What LIMIT keeps; zero and negative limits keep everything. *)
Definition limited {A} (limit : Z) (l : list A) : list A :=
  if (0 <? limit)%Z then take (Z.to_nat limit) l else l.

Lemma apply_limit_limited {A} limit (l : list A) : apply_limit limit l = limited limit l.
Proof.
  unfold apply_limit, limited. destruct (0 <? limit)%Z eqn:E; [|done]. simpl. case_match; [done|].
  symmetry. apply take_ge. lia.
Qed.

Lemma limited_elem {A} limit (l : list A) x : x ∈ limited limit l → x ∈ l.
Proof. unfold limited. case_match; [apply subseteq_take | done]. Qed.

Lemma executeQuery_selected rows :
  rows ≠ [] → grouped q = false → evaluates (q_where q) rows →
  validateOrderSources (q_orderBy q) (known_base base) = Ret tt →
  validateColumns (q_columns q) (known_base base) = Ret tt →
  executeQuery NewKeyWithID Unmarshal_into q base factory rows =
  traverse (λ _ row, result_of row) (apply_limit (q_limit q) (selected rows)).
Proof.
  intros Hne Hg Hev Ho Hc. unfold executeQuery. destruct rows as [|r rows]; [done|].
  rewrite Ho, Hg. cbn [rbind]. rewrite Hc. cbn [rbind]. by rewrite select_rows_filter.
Qed.

(** C8: a query without joins and grouping returns one record for each row of
    the collection that matches its condition (and lies under its parent, when
    it has one), in the order of ORDER BY with ties broken by identifier, cut
    to the limit. *)
Theorem executeQuery_selects rows
    (Hplain : grouped q = false)
    (Hsources : validateOrderSources (q_orderBy q) (known_base base) = Ret tt)
    (Hcolumns : validateColumns (q_columns q) (known_base base) = Ret tt)
    (Hwhere : evaluates (q_where q) rows)
    (Hdecode : ∀ row, row ∈ rows → ∃ r, result_of row = Ret r)
    (Horder : orderable_rows rows) :
  ∃ sel results,
    executeQuery NewKeyWithID Unmarshal_into q base factory rows = Ret results ∧
    sel ≡ₚ List.filter matching rows ∧
    StronglySorted row_precedes sel ∧
    Forall2 (λ row r, result_of row = Ret r) (limited (q_limit q) sel) results.
Proof.
  pose proof (orderable_filter rows Horder) as [Hids Hcols].
  destruct (orderBySources_spec kinds (q_orderBy q) sources_of row_id _ Hcols Hids) as [Hperm Hsorted].
  exists (selected rows).
  destruct (decide (rows = [])) as [->|Hne].
  { exists []. split_and!; [done..|]. change (selected []) with (@nil memoryRow). unfold limited.
    case_match; rewrite ?take_nil; constructor. }
  rewrite executeQuery_selected, apply_limit_limited by done.
  destruct (traverse_total (λ _, result_of) (λ row r, result_of row = Ret r)
    (limited (q_limit q) (selected rows)) 0) as (results & Hr & HF); [|by exists results].
  intros row _ Hrow%limited_elem. destruct (Hdecode row) as [r Hr]; [|by exists r].
  unfold selected in Hrow. rewrite Hperm, filter_bool_elem in Hrow. by destruct Hrow.
Qed.

(** C36: the result of a query of one collection without GROUP BY does not depend on
    the order in which the engine enumerates the rows, which for Go maps is
    random.  With GROUP BY it does ([groups_follow_the_map] in MemoryExamples.v). *)
Theorem executeQuery_deterministic rows rows'
    (Hplain : grouped q = false) (Hwhere : evaluates (q_where q) rows)
    (Horder : orderable_rows rows) (Hperm : rows ≡ₚ rows') :
  executeQuery NewKeyWithID Unmarshal_into q base factory rows
  = executeQuery NewKeyWithID Unmarshal_into q base factory rows'.
Proof.
  pose proof (orderable_filter rows Horder) as [Hids Hcols].
  assert (Hsel : orderBySources (q_orderBy q) sources_of row_id (List.filter matching rows)
    = orderBySources (q_orderBy q) sources_of row_id (List.filter matching rows')).
  { apply (orderBySources_perm kinds); [done|done|]. by apply filter_bool_perm. }
  assert (Hwhere' : evaluates (q_where q) rows') by (intros r; rewrite <- Hperm; apply Hwhere).
  unfold executeQuery. rewrite Hplain, !select_rows_filter by done. cbn [rbind].
  unfold sources_of, matching in Hsel. rewrite Hsel.
  destruct rows, rows'; try done; [by apply Permutation_nil_l in Hperm|by apply Permutation_nil_r in Hperm].
Qed.
End Single.
End Results.
