(* ===== verification/MemoryGroups.v ===== *)
(** * Grouping and joining in the in-memory adapter *)

From Stdlib Require Import String SpecFloat.
From stdpp Require Import base sets list strings pretty.
From S2P Require Import Prelude StableSort GoValues GoMaps GoStrings GoJSON RecordKey DalQuery.
From S2P Require Import DalString MemoryRows MemoryQuery MemoryOrder MemoryResults.

Local Open Scope string_scope.
Local Open Scope nat_scope.
Local Open Scope list_scope.

Section Groups.
Context `{GoFmt, GoJSON, RecordKeys}.

(** ** Partition *)

Section Partition.
Context (groupBy : list Expression) (known : known_sources).

Definition has_group_key (k : string) (r : rowSources) : bool :=
  match groupKey groupBy r known with Ret k' => String.eqb k' k | _ => false end.

(** The groups of the rows seen so far. *)
Record groups_of (rows : list rowSources) (groups : list (string * list rowSources)) : Prop := {
  groups_NoDup : NoDup groups.*1;
  groups_elem k rs : (k, rs) ∈ groups ↔ rs = List.filter (has_group_key k) rows ∧ rs ≠ [];
}.

Lemma add_to_group_keys k r groups :
  (add_to_group k r groups).*1 = if bool_decide (k ∈ groups.*1) then groups.*1 else groups.*1 ++ [k].
Proof.
  induction groups as [|[k' rs] groups IH]; [done|]. csimpl.
  destruct (String.eqb_spec k k') as [->|Hne]; csimpl; [by rewrite bool_decide_eq_true_2 by set_solver|].
  rewrite IH. repeat case_bool_decide; set_solver.
Qed.

Lemma add_to_group_elem k r groups k' rs' :
  NoDup groups.*1 →
  (k', rs') ∈ add_to_group k r groups ↔
  (k' ≠ k ∧ (k', rs') ∈ groups) ∨
  (k' = k ∧ ((∃ rs, (k, rs) ∈ groups ∧ rs' = rs ++ [r]) ∨ (k ∉ groups.*1 ∧ rs' = [r]))).
Proof.
  induction groups as [|[k0 rs0] groups IH]; csimpl; intros Hnd; [set_solver|].
  apply NoDup_cons in Hnd as [Hk0 Hnd]. specialize (IH Hnd).
  assert (Hin : ∀ rs, (k0, rs) ∉ groups)
    by (intros rs Hrs; apply Hk0; by apply (list_elem_of_fmap_2 fst _ (k0, rs))).
  destruct (String.eqb_spec k k0) as [->|Hne]; repeat setoid_rewrite elem_of_cons.
  - split.
    + intros [E|Hrest]; [simplify_eq; right; split; [done|]; left; exists rs0; set_solver|].
      left. split; [intros ->; by apply (Hin rs')|]. by right.
    + intros [[Hne' [E|Hrest]]|[-> [(rs & [E|Hrs] & ->)|[Hk _]]]]; simplify_eq; try done.
      * by right.
      * by left.
      * by apply Hin in Hrs.
      * set_solver.
  - rewrite IH. split.
    + intros [E|[[Hne' Hrest]|[-> [(rs & Hrs & ->)|[Hk ->]]]]]; simplify_eq.
      * left. split; [done|]. by left.
      * left. split; [done|]. by right.
      * right. split; [done|]. left. exists rs. split; [by right|done].
      * right. split; [done|]. right. split; [set_solver|done].
    + intros [[Hne' [E|Hrest]]|[-> [(rs & [E|Hrs] & ->)|[Hk ->]]]]; simplify_eq; try done.
      * by left.
      * right. by left.
      * right. right. split; [done|]. left. by exists rs.
      * right. right. split; [done|]. right. split; [set_solver|done].
Qed.

Lemma groups_of_key rows groups k :
  groups_of rows groups → k ∈ groups.*1 ↔ List.filter (has_group_key k) rows ≠ [].
Proof.
  intros [_ Hel]. split.
  - intros Hk. apply list_elem_of_fmap in Hk as ([k' rs] & -> & Hin). by apply Hel in Hin as [-> ?].
  - intros Hne. apply (list_elem_of_fmap_2 fst _ (k, List.filter (has_group_key k) rows)). by apply Hel.
Qed.

Lemma add_to_group_groups rows groups k r :
  groups_of rows groups → groupKey groupBy r known = Ret k →
  groups_of (rows ++ [r]) (add_to_group k r groups).
Proof.
  intros Hg Hk. pose proof (groups_of_key _ _ k Hg) as Hkey. destruct Hg as [Hnd Hel].
  assert (Hhas : ∀ k', has_group_key k' r = String.eqb k k') by (intros k'; unfold has_group_key; by rewrite Hk).
  split.
  - rewrite add_to_group_keys. case_bool_decide as Hin; [done|]. apply NoDup_app. split_and!; [done| |by repeat constructor; set_solver].
    set_solver.
  - intros k' rs'. rewrite add_to_group_elem by done. rewrite List.filter_app. simpl. rewrite Hhas.
    destruct (String.eqb_spec k k') as [<-|Hne].
    + split.
      * intros [[? _]|[_ [(rs & Hrs & ->)|[Hnone ->]]]]; [done| |].
        -- apply Hel in Hrs as [-> _]. split; [done|]. by destruct (List.filter _ rows).
        -- rewrite Hkey in Hnone.
           destruct (List.filter (has_group_key k) rows); [done|]. by destruct Hnone.
      * intros [-> _]. right. split; [done|].
        destruct (List.filter (has_group_key k) rows) as [|x l] eqn:E.
        -- right. split; [|done]. rewrite Hkey. by intros [].
        -- left. exists (x :: l). split; [|done]. by apply Hel; rewrite E.
    + rewrite app_nil_r, Hel. naive_solver.
Qed.

Lemma add_to_group_concat k r groups :
  List.concat (add_to_group k r groups).*2 ≡ₚ List.concat groups.*2 ++ [r].
Proof.
  induction groups as [|[k' rs] groups IH]; csimpl; [done|].
  destruct (String.eqb k k'); csimpl.
  - by rewrite <- !app_assoc, (Permutation_app_comm [r]), app_assoc.
  - by rewrite IH, app_assoc.
Qed.

Lemma partition_from seen rows groups :
  groups_of seen groups → List.concat groups.*2 ≡ₚ seen →
  (∀ r, r ∈ rows → ∃ k, groupKey groupBy r known = Ret k) →
  ∃ groups', fold_res (λ r groups, do key <- groupKey groupBy r known; Ret (add_to_group key r groups))
               rows groups = Ret groups' ∧
    groups_of (seen ++ rows) groups' ∧ List.concat groups'.*2 ≡ₚ seen ++ rows.
Proof.
  revert seen groups. induction rows as [|r rows IH]; intros seen groups Hg Hperm Hkeys; simpl.
  { exists groups. by rewrite app_nil_r. }
  destruct (Hkeys r) as [k Hk]; [set_solver|]. rewrite Hk. simpl.
  destruct (IH (seen ++ [r]) (add_to_group k r groups)) as (groups' & Hf & Hg' & Hp').
  - by apply add_to_group_groups.
  - by rewrite add_to_group_concat, Hperm.
  - intros x Hx. apply Hkeys. set_solver.
  - exists groups'. by rewrite <- app_assoc in Hg', Hp'.
Qed.

(** The keys of some rows in the order in which they are first seen. *)
Definition see (seen : list string) (k : string) : list string := if bool_decide (k ∈ seen) then seen else seen ++ [k].
Definition first_seen (keys : list string) : list string := fold_left see keys [].

Lemma partition_order rows groups groups' keys :
  Forall2 (λ r k, groupKey groupBy r known = Ret k) rows keys →
  fold_res (λ r groups, do key <- groupKey groupBy r known; Ret (add_to_group key r groups)) rows groups = Ret groups' →
  groups'.*1 = fold_left see keys groups.*1.
Proof.
  intros Hk. revert groups. induction Hk as [|r k rows keys Hr Hk IH]; intros groups Hf; simpl in *; [by simplify_eq|].
  rewrite Hr in Hf. simpl in Hf. rewrite (IH _ Hf). by rewrite add_to_group_keys.
Qed.

(** C25: GROUP BY partitions the rows: the groups have distinct keys, the group
    of a key lists exactly the rows with that key, in their order, the groups
    together are the rows, and they come in the order in which their keys are
    first seen. *)
Theorem partition_groups rows
    (Hkeys : ∀ r, r ∈ rows → ∃ k, groupKey groupBy r known = Ret k) :
  ∃ groups keys, partition groupBy rows known = Ret groups ∧ NoDup groups.*1 ∧
    (∀ k rs, (k, rs) ∈ groups ↔ rs = List.filter (has_group_key k) rows ∧ rs ≠ []) ∧
    List.concat groups.*2 ≡ₚ rows ∧
    Forall2 (λ r k, groupKey groupBy r known = Ret k) rows keys ∧ groups.*1 = first_seen keys.
Proof.
  destruct (partition_from [] rows []) as (groups & Hf & [Hnd Hel] & Hp); [|done..|].
  - split; [constructor|]. intros k rs. simpl. set_solver.
  - assert (∃ keys, Forall2 (λ r k, groupKey groupBy r known = Ret k) rows keys) as [keys Hk].
    { clear -Hkeys. induction rows as [|r rows IH]; [by exists []|]. destruct (Hkeys r) as [k Hk]; [by left|].
      destruct IH as [keys IH]; [intros x Hx; apply Hkeys; by right|]. exists (k :: keys). by constructor. }
    exists groups, keys. split_and!; try done. exact (partition_order rows [] groups keys Hk Hf).
Qed.
End Partition.

(** ** Aggregates *)

Section Aggregate.
Context (arg : Expression) (known : known_sources).

(** The non-null values of the argument in the rows. *)
Definition row_values (r : rowSources) : list value :=
  match resolveJoinExpr arg r known with
  | Ret (VNil, _) | Ret (_, false) => []
  | Ret (v, true) => [v]
  | _ => []
  end.
Definition values_of (rows : list rowSources) : list value := List.flat_map row_values rows.

Definition resolves (rows : list rowSources) : Prop :=
  ∀ r, r ∈ rows → ∃ v, resolveJoinExpr arg r known = Ret v.

Lemma fold_values_Ret {S} (step : S → value → S) rows s :
  resolves rows → fold_values arg known step rows s = Ret (fold_left step (values_of rows) s).
Proof.
  revert s. induction rows as [|r rows IH]; intros s Hr; simpl; [done|].
  destruct (Hr r) as [[v b] Hv]; [set_solver|]. unfold row_values. rewrite Hv. simpl.
  rewrite IH by (intros x Hx; apply Hr; set_solver). by destruct v, b.
Qed.

(** [v] is a least value ([min]) or a greatest one. *)
Definition is_best (min : bool) (v : value) (vals : list value) : Prop :=
  v ∈ vals ∧ ∀ w, w ∈ vals → compare w v ≠ if min then Lt else Gt.

Lemma best_step_is_best numeric min seen v rest :
  Forall (kind_ok numeric) (seen ++ rest) → is_best min v seen →
  ∃ w, fold_left (best_step min) rest (Some v) = Some w ∧ is_best min w (seen ++ rest).
Proof.
  revert seen v. induction rest as [|x rest IH]; intros seen v Hk Hv; simpl.
  { exists v. by rewrite app_nil_r. }
  rewrite Forall_app, Forall_cons in Hk. destruct Hk as (Hseen & Hx & Hrest).
  rewrite Forall_forall in Hseen. destruct Hv as [Hin Hbest]. pose proof (Hseen v Hin) as Hkv.
  assert (∃ w, match compare x v with Lt => Some (if min then x else v)
      | Gt => Some (if min then v else x) | Eq => Some v end = Some w ∧ is_best min w (seen ++ [x]))
    as (w & Hw & Hbw).
  { pose proof (cmp_opp (D:=kind_ok numeric) (c:=compare) v x Hkv Hx) as Hopp.
    pose proof (cmp_refl (kind_ok numeric) compare x Hx) as Hrefl.
    assert (Hkeep : compare x v ≠ (if min then Lt else Gt) → is_best min v (seen ++ [x])).
    { intros Hne. split; [set_solver|]. intros w [Hw| ->%list_elem_of_singleton]%elem_of_app; [|done].
      by apply Hbest. }
    assert (Htake : compare x v = (if min then Lt else Gt) → is_best min x (seen ++ [x])).
    { intros Hlt. split; [set_solver|]. intros w [Hw| ->%list_elem_of_singleton]%elem_of_app.
      - pose proof (Hbest w Hw) as Hb. pose proof (Hseen w Hw) as Hkw.
        pose proof (cmp_opp (D:=kind_ok numeric) (c:=compare) w v Hkw Hkv) as Hwv.
        pose proof (cmp_opp (D:=kind_ok numeric) (c:=compare) w x Hkw Hx) as Hwx.
        pose proof (cmp_trans (D:=kind_ok numeric) (c:=compare) v w x Hkv Hkw Hx).
        pose proof (cmp_trans (D:=kind_ok numeric) (c:=compare) x w v Hx Hkw Hkv).
        destruct min, (compare w v), (compare w x), (compare x v), (compare v x), (compare v w), (compare x w);
          naive_solver.
      - rewrite Hrefl. by destruct min. }
    destruct (compare x v) eqn:E, min; eexists; (split; [done|]); first [by apply Hkeep | by apply Htake]. }
  simpl. rewrite Hw. rewrite (cons_middle x seen rest), app_assoc. apply IH; [|done].
  rewrite !Forall_app. by split_and!; [apply Forall_forall|repeat constructor|].
Qed.

Lemma best_is_best numeric min vals :
  Forall (kind_ok numeric) vals → vals ≠ [] →
  ∃ w, fold_left (best_step min) vals None = Some w ∧ is_best min w vals.
Proof.
  destruct vals as [|v vals]; [done|]. intros Hk _. simpl.
  apply (best_step_is_best numeric min [v] v vals); [done|]. split; [set_solver|].
  intros w ->%list_elem_of_singleton. apply Forall_cons in Hk as [Hv _].
  rewrite (cmp_refl (kind_ok numeric) compare) by done. by destruct min.
Qed.

(** Aggregates skip nulls: COUNT of a field counts its non-null values,
    MIN and MAX return a least and a greatest of them (in the order of ORDER
    BY, on values that are all numbers or all not), and all but COUNT are null
    when every value is null. *)
Theorem evalAggregate_spec source name isID rows numeric
    (Harg : arg = FieldRef source name isID) (Hr : resolves rows)
    (Hk : Forall (kind_ok numeric) (values_of rows)) :
  evalAggregate COUNT [arg] rows known = Ret (vint (Z.of_nat (length (values_of rows)))) ∧
  (values_of rows = [] →
   Forall (λ f, evalAggregate f [arg] rows known = Ret VNil) [SUM; AVERAGE; MIN; MAX]) ∧
  (values_of rows ≠ [] → ∃ least greatest,
     evalAggregate MIN [arg] rows known = Ret least ∧ is_best true least (values_of rows) ∧
     evalAggregate MAX [arg] rows known = Ret greatest ∧ is_best false greatest (values_of rows)).
Proof.
  unfold evalAggregate. split_and!.
  - simpl. rewrite Harg. simpl. rewrite <- Harg. rewrite fold_values_Ret by done. simpl. do 2 f_equal.
    enough (∀ l n, fold_left (λ (n : Z) (_ : value), n + 1)%Z l n = (n + Z.of_nat (length l))%Z) as ->; [lia|].
    induction l as [|x l IH]; intros n; simpl; [lia|]. rewrite IH. lia.
  - intros Hnone. repeat constructor; simpl; rewrite fold_values_Ret, Hnone by done; done.
  - intros Hne. destruct (best_is_best numeric true _ Hk Hne) as (l & Hl & Hbl).
    destruct (best_is_best numeric false _ Hk Hne) as (g & Hg & Hbg). exists l, g.
    simpl. rewrite !fold_values_Ret by done. by rewrite Hl, Hg.
Qed.
End Aggregate.

(** ** Joins *)

Section Join.
Context (join : JoinedSource) (baseKey joinKey : string) (known : known_sources).

Definition joined (br jr : memoryRow) : joinedRow :=
  mkJoined (row_id br) (join_sources baseKey joinKey (row_data br) (row_data jr))
    (mergeData (row_data br) (row_data jr)).

Definition unmatched (br : memoryRow) : joinedRow :=
  mkJoined (row_id br) (join_sources baseKey joinKey (row_data br) []) (mergeData (row_data br) []).

Definition on_holds (br jr : memoryRow) : Prop :=
  allConditionsMatch (join_on join) (join_sources baseKey joinKey (row_data br) (row_data jr)) known = Ret true.

(** The ON conditions are evaluated on every pair without an error. *)
Definition on_evaluates (baseRows joinRows : list memoryRow) : Prop :=
  ∀ br jr, br ∈ baseRows → jr ∈ joinRows → ∃ b,
    allConditionsMatch (join_on join) (join_sources baseKey joinKey (row_data br) (row_data jr)) known = Ret b.

Lemma join_matches_spec br joinRows :
  on_evaluates [br] joinRows →
  ∃ ms, join_matches join baseKey joinKey known br joinRows = Ret ms ∧
        ∀ x, x ∈ ms ↔ ∃ jr, jr ∈ joinRows ∧ on_holds br jr ∧ x = joined br jr.
Proof.
  induction joinRows as [|jr rest IH]; intros Hev; simpl.
  { exists []. split; [done|]. intros x. split; [set_solver|]. intros (jr & ? & _). set_solver. }
  destruct (Hev br jr) as [b Hb]; [set_solver..|]. rewrite Hb. simpl.
  destruct IH as (ms & -> & Hms); [intros br' jr' ? ?; apply Hev; set_solver|]. simpl.
  eexists. split; [done|]. intros x.
  assert (on_holds br jr ↔ b = true) as Hon by (unfold on_holds; rewrite Hb; split; [by intros [=]|by intros ->]).
  destruct b; [rewrite elem_of_cons|]; rewrite Hms; split.
  - intros [->|(jr' & ? & ? & ?)]; [exists jr; split_and!; [set_solver|by apply Hon|done]|exists jr'; set_solver].
  - intros (jr' & [->|Hin]%elem_of_cons & Hh & ->); [by left|right; by exists jr'].
  - intros (jr' & ? & ? & ?). exists jr'. set_solver.
  - intros (jr' & [->|Hin]%elem_of_cons & Hh & ->); [by apply Hon in Hh|by exists jr'].
Qed.

Definition row_join_spec (joinRows : list memoryRow) (br : memoryRow) (x : joinedRow) : Prop :=
  (∃ jr, jr ∈ joinRows ∧ on_holds br jr ∧ x = joined br jr) ∨
  (join_joinType join = JoinLeft ∧ (∀ jr, jr ∈ joinRows → ¬ on_holds br jr) ∧ x = unmatched br).

Lemma join_row_spec br joinRows :
  on_evaluates [br] joinRows →
  ∃ xs, join_row join baseKey joinKey known joinRows br = Ret xs ∧
        ∀ x, x ∈ xs ↔ row_join_spec joinRows br x.
Proof.
  intros Hev. destruct (join_matches_spec br joinRows Hev) as (ms & Hms & Hel).
  unfold join_row, row_join_spec. rewrite Hms. simpl. eexists. split; [done|]. intros x.
  destruct ms as [|m ms].
  - assert (Hnone : ∀ jr, jr ∈ joinRows → ¬ on_holds br jr).
    { intros jr Hin Hh. specialize (Hel (joined br jr)). set_solver. }
    destruct (join_joinType join); set_solver.
  - assert (Hsome : ¬ ∀ jr, jr ∈ joinRows → ¬ on_holds br jr).
    { intros Hnone. destruct (Hel m) as [(jr & Hin & Hh & _) _]; [set_solver|]. by apply (Hnone jr). }
    rewrite <- (Hel x). destruct (join_joinType join); naive_solver.
Qed.

(** C24: an INNER join returns exactly the pairs of rows on which its ON
    conditions hold; a LEFT join returns these and, for each base row with no
    partner, that row with nil joined data. *)
Theorem join_rows_spec baseRows joinRows (Hev : on_evaluates baseRows joinRows) :
  ∃ rows, join_rows join baseKey joinKey known baseRows joinRows = Ret rows ∧
    ∀ x, x ∈ rows ↔ ∃ br, br ∈ baseRows ∧
      ((∃ jr, jr ∈ joinRows ∧ on_holds br jr ∧ x = joined br jr) ∨
       (join_joinType join = JoinLeft ∧ (∀ jr, jr ∈ joinRows → ¬ on_holds br jr) ∧ x = unmatched br)).
Proof.
  destruct (traverse_total (λ _ br, join_row join baseKey joinKey known joinRows br)
    (λ br xs, ∀ x, x ∈ xs ↔ row_join_spec joinRows br x) baseRows 0) as (parts & Hp & HF).
  { intros br _ Hbr. apply join_row_spec. intros br' jr ->%list_elem_of_singleton. by apply Hev. }
  exists (List.concat parts). unfold join_rows. unfold traverse. rewrite Hp. split; [done|]. intros x.
  clear Hp Hev. induction HF as [|br xs baseRows parts Hx _ IH]; simpl; [set_solver|].
  rewrite elem_of_app, IH, Hx. unfold row_join_spec. set_solver.
Qed.
End Join.
End Groups.
