(* ===== verification/MemoryUpdate.v ===== *)
(** * Field updates of the in-memory adapter (src/adapters/dalgo2memory/engine.go)

    [update.Update] comes from another module: an update has a field name or a
    field path, and a value, which may be the sentinel [update.DeleteField].
    The nested maps of a record are reached only through it, so that assigning
    into one is replacing it. *)

From Stdlib Require Import String.
From stdpp Require Import base sets list strings.
From S2P Require Import Prelude GoValues GoMaps GoStrings RecordKey MemoryRows.

Local Open Scope string_scope.
Local Open Scope nat_scope.
Local Open Scope list_scope.

(** [u_Value] is [None] for [update.DeleteField]. *)
Record Update := mkUpdate { u_FieldName : string; u_FieldPath : list string; u_Value : option value }.

Definition any_map_type : string := "map[string]interface {}".
Definition nil_map_panic : string := "assignment to entry in nil map".

(** What the type switch of [applyPathUpdate] finds under a key. *)
Inductive path_node :=
| NodeMap (kt : string) (m : option row_map)
| NodeNil
| NodeOther.

Definition node_at (data : row_map) (k : string) : path_node :=
  match get data k with
  | VNil => NodeNil
  | VMap ty kt m => if String.eqb ty any_map_type then NodeMap kt m else NodeOther
  | _ => NodeOther
  end.

(** [current[k] = v], which panics when [current] is a nil map. *)
Definition assign (current : option row_map) (k : string) (v : value) : res mem_error (option row_map) :=
  match current with Some m => Ret (Some (map_set k v m)) | None => Panic nil_map_panic end.

(** The map after the update; a nil map is [None].  The path is not empty. *)
Fixpoint applyPathUpdate (data : option row_map) (path : list string) (v : option value)
  : res mem_error (option row_map) :=
  match path with
  | [] => Panic "runtime error: slice bounds out of range [:-1]"
  | [leaf] =>
      match v with
      | None => Ret (map_delete leaf <$> data)
      | Some v => assign data leaf v
      end
  | k :: rest =>
      match node_at (default [] data) k with
      | NodeMap kt m =>
          do m' <- applyPathUpdate m rest v;
          Ret (map_set k (VMap any_map_type kt m') <$> data)
      | NodeNil =>
          do _ <- assign data k VNil;
          do m' <- applyPathUpdate (@Some row_map []) rest v;
          Ret (map_set k (VMap any_map_type "string" m') <$> data)
      | NodeOther => Fail (field_path_not_map k)
      end
  end.

Definition update_path (u : Update) : list string :=
  match u_FieldPath u with
  | [] => if negb (String.eqb (u_FieldName u) "") then [u_FieldName u] else []
  | path => path
  end.

Definition applyUpdatesToMap (data : option row_map) (updates : list Update)
  : res mem_error (option row_map) :=
  fold_res (λ upd data,
    match update_path upd with [] => Ret data | path => applyPathUpdate data path (u_Value upd) end)
    updates data.

(** ** Reading a path *)

Fixpoint get_path (data : row_map) (path : list string) : option value :=
  match path with
  | [] => None
  | [leaf] => assoc leaf data
  | k :: rest =>
      match node_at data k with
      | NodeMap _ (Some m) => get_path m rest
      | _ => None
      end
  end.

(** Every map on the way to the leaf exists or is missing. *)
Fixpoint walkable (data : row_map) (path : list string) : bool :=
  match path with
  | [] => false
  | [_] => true
  | k :: rest =>
      match node_at data k with
      | NodeMap _ (Some m) => walkable m rest
      | NodeNil => true
      | _ => false
      end
  end.

Lemma get_map_set k v m q : get (map_set k v m) q = if String.eqb q k then v else get m q.
Proof. unfold get. rewrite assoc_map_set. by destruct (String.eqb q k). Qed.

Lemma node_at_set k kt m data q :
  node_at (map_set k (VMap any_map_type kt m) data) q
  = if String.eqb q k then NodeMap kt m else node_at data q.
Proof. unfold node_at. rewrite get_map_set. by destruct (String.eqb q k). Qed.

(** The equation of [get_path] below the first key. *)
Lemma get_path_step data k k' rest :
  get_path data (k :: k' :: rest) =
  match node_at data k with NodeMap _ (Some m) => get_path m (k' :: rest) | _ => None end.
Proof. done. Qed.

Lemma applyPathUpdate_step data k k' rest v :
  applyPathUpdate (Some data) (k :: k' :: rest) v =
  match node_at data k with
  | NodeMap kt m =>
      do m' <- applyPathUpdate m (k' :: rest) v; Ret (Some (map_set k (VMap any_map_type kt m') data))
  | NodeNil =>
      do m' <- applyPathUpdate (@Some row_map []) (k' :: rest) v;
      Ret (Some (map_set k (VMap any_map_type "string" m') data))
  | NodeOther => Fail (field_path_not_map k)
  end.
Proof. done. Qed.

Lemma get_path_nil path : get_path [] path = None.
Proof. by destruct path as [|k [|k' path]]. Qed.

Lemma get_path_disjoint k kt m m' data rest q :
  (∀ q', ¬ rest `prefix_of` q' → ¬ q' `prefix_of` rest → get_path m' q' = get_path m q') →
  (∀ q', q' ≠ [] → match node_at data k with
         | NodeMap _ (Some m0) => get_path m0 q' = get_path m q'
         | _ => get_path m q' = None end) →
  ¬ (k :: rest) `prefix_of` q → ¬ q `prefix_of` (k :: rest) →
  get_path (map_set k (VMap any_map_type kt (Some m')) data) q = get_path data q.
Proof.
  intros Hsub Hnode Hp1 Hp2. destruct q as [|k0 [|k1 q]].
  - exfalso. apply Hp2. apply prefix_nil.
  - simpl. rewrite assoc_map_set. destruct (String.eqb_spec k0 k) as [->|]; [|done].
    exfalso. apply Hp2. apply prefix_cons, prefix_nil.
  - rewrite !get_path_step, node_at_set. destruct (String.eqb_spec k0 k) as [->|]; [|done].
    assert (get_path m' (k1 :: q) = get_path m (k1 :: q)) as ->.
    { apply Hsub; intros Hp; [apply Hp1|apply Hp2]; by apply prefix_cons. }
    specialize (Hnode (k1 :: q) ltac:(done)). by destruct (node_at data k) as [? [m0|]| |].
Qed.

Lemma applyPathUpdate_spec data path v :
  walkable data path = true →
  ∃ data', applyPathUpdate (Some data) path v = Ret (Some data') ∧
    get_path data' path = v ∧
    ∀ q, ¬ path `prefix_of` q → ¬ q `prefix_of` path → get_path data' q = get_path data q.
Proof.
  revert data. induction path as [|k [|k' rest] IH]; intros data Hw; [done| |].
  - exists (match v with Some v => map_set k v data | None => map_delete k data end).
    split; [by destruct v|]. split.
    { destruct v; simpl; rewrite ?assoc_map_set, ?assoc_map_delete; by rewrite String.eqb_refl. }
    intros q Hp1 Hp2. destruct q as [|k0 q]; [exfalso; apply Hp2, prefix_nil|].
    assert (Hne : k0 ≠ k) by (intros ->; apply Hp1; apply prefix_cons, prefix_nil).
    apply String.eqb_neq in Hne.
    assert (Hget : assoc k0 (match v with Some v => map_set k v data | None => map_delete k data end) = assoc k0 data).
    { destruct v; rewrite ?assoc_map_set, ?assoc_map_delete; by rewrite Hne. }
    destruct q; simpl; [done|]. unfold node_at, get. by rewrite Hget.
  - cbn [walkable] in Hw. rewrite applyPathUpdate_step.
    destruct (node_at data k) as [kt [m|]| |] eqn:Hn; try done.
    + destruct (IH m Hw) as (m' & Hm' & Hget & Hother). rewrite Hm'.
      eexists. split; [done|]. split.
      * by rewrite get_path_step, node_at_set, String.eqb_refl.
      * intros q. apply (get_path_disjoint _ _ m); [done|]. by rewrite Hn.
    + destruct (IH []) as (m' & Hm' & Hget & Hother); [by destruct rest|].
      rewrite Hm'. eexists. split; [done|]. split.
      * by rewrite get_path_step, node_at_set, String.eqb_refl.
      * intros q. apply (get_path_disjoint _ _ []); [done|]. rewrite Hn. intros. apply get_path_nil.
Qed.

(** Two paths of which neither begins with the other. *)
Definition disjoint_paths (p q : list string) : Prop := ¬ p `prefix_of` q ∧ ¬ q `prefix_of` p.

(** C26: an update of a field path whose intermediate values are maps or
    missing sets (or, with [DeleteField], removes) the value at that path,
    creating the missing maps, and changes no path that neither contains it
    nor lies below it. *)
Theorem applyUpdatesToMap_sets_path data upd
    (Hpath : update_path upd ≠ []) (Hw : walkable data (update_path upd) = true) :
  ∃ data', applyUpdatesToMap (Some data) [upd] = Ret (Some data') ∧
    get_path data' (update_path upd) = u_Value upd ∧
    ∀ q, disjoint_paths (update_path upd) q → get_path data' q = get_path data q.
Proof.
  destruct (applyPathUpdate_spec data (update_path upd) (u_Value upd) Hw) as (data' & Hd & Hget & Hother).
  exists data'. unfold applyUpdatesToMap. simpl. split_and!; [|done|].
  - destruct (update_path upd); [done|].
    change (rbind (applyPathUpdate (Some data) (s :: l) (u_Value upd)) Ret = Ret (Some data')). by rewrite Hd.
  - intros q [H1 H2]. by apply Hother.
Qed.

(** Updating the data of a record that was stored with nil data panics. *)
Lemma update_of_nil_map_panics k v : applyUpdatesToMap None [mkUpdate k [] (Some v)] =
  if String.eqb k "" then Ret None else Panic nil_map_panic.
Proof. unfold applyUpdatesToMap, update_path. simpl. by destruct (String.eqb k ""). Qed.

Module UpdateExamples.
Definition person : row_map := [("address", vmap [("city", vstr "Cork")]); ("name", vstr "Ann")].
Definition move : Update := mkUpdate "" ["address"; "zip"; "code"] (Some (vint 7)).

Lemma applyUpdatesToMap_sets_path_witness :
  ∃ data', applyUpdatesToMap (Some person) [move] = Ret (Some data') ∧
    get_path data' (update_path move) = u_Value move ∧
    ∀ q, disjoint_paths (update_path move) q → get_path data' q = get_path person q.
Proof. apply applyUpdatesToMap_sets_path; [discriminate | reflexivity]. Defined.
End UpdateExamples.
