(* ===== verification/MemoryEngine.v ===== *)
(** * Storage engines of the in-memory adapter
    (src/adapters/dalgo2memory: engine.go, serialized.go)

    [StorageEngine] is the interface of engine.go with the contract that both
    engines keep: an engine holds a finite map from identifiers to encoded
    records with their keys.  The serialized engine implements it here, the
    columnar engine in MemoryColumnar.v; MemorySession.v uses the contract.

    An engine keeps the pointer to a record's key that it is given
    ([e.keys[id] = record.Key()]), so what it holds of a key changes when the
    object is assigned to.  A [key] is such a pointer with what the object
    holds now, and [rekey] is what an assignment does to the keys that an engine
    keeps. *)

From Stdlib Require Import String.
From stdpp Require Import base gmap sets list strings.
From S2P Require Import Prelude GoValues GoMaps GoStrings GoJSON RecordKey DalQuery DalString.
From S2P Require Import MemoryRows MemoryQuery MemoryUpdate.

Local Open Scope string_scope.
Local Open Scope nat_scope.
Local Open Scope list_scope.

(** What the program relies on outside the repository: [json.Unmarshal] into a
    variable that holds a value, and a strict decoding into a collection's
    record type (with [DisallowUnknownFields]). *)
Class Decoders := {
  Unmarshal_into : json → value → res mem_error value;
  decode_strict : json → value → bool;
}.

Section Engines.
Context `{RecordKeys, GoJSON}.

Class StorageEngine (E : Type) := {
  exists_ : E → string → bool;
  store : E → string → key → value → bool → res mem_error E;
  load : E → string → value → res mem_error value;
  delete_ : E → string → E;
  update : E → string → list Update → res mem_error E;
  rows : E → res mem_error (list memoryRow);
  (** [candidateRowsEngine]: rows that are enough for a condition; [None] is
      no opinion, also of an engine that does not implement the interface *)
  candidate_rows : E → option Condition → res mem_error (option (list memoryRow));
  (** not a method: the keys that the engine points to, after an assignment to a
      key object somewhere in the program ([seen] in MemorySession.v) *)
  rekey : (key → key) → E → E;
}.

(** The contract.  [contents] is the map an engine stands for; [encode] is what
    a write of some data stores, [document] the JSON text of a stored record. *)
Class EngineModel (E R : Type) := {
  engine_ok : E → Prop;
  contents : E → gmap string (R * option key);
  encode : E → value → res mem_error R;
  document : E → R → res mem_error json;
  check_updates : E → list Update → res mem_error unit;
}.

(** [e'] is [e] with other contents. *)
Definition now_holds {E R} `{EngineModel E R} (e e' : E) (m : gmap string (R * option key)) : Prop :=
  engine_ok e' ∧ contents e' = m ∧ encode e' = encode e ∧ document e' = document e ∧
  check_updates e' = check_updates e.

(** What an update writes over a stored record. *)
Definition updated {E R} `{EngineModel E R} (e : E) (r : R) (updates : list Update) : res mem_error R :=
  do b <- document e r;
  match unmarshal_map b with
  | None => Fail json_error
  | Some data =>
      do _ <- check_updates e updates;
      do data' <- applyUpdatesToMap data updates;
      encode e (VMap any_map_type "string" data')
  end.

(** The row that stands for a stored record in a query. *)
Definition row_of {E R} `{EngineModel E R} (e : E) (id : string) (r : R * option key) : res mem_error memoryRow :=
  do b <- document e r.1;
  match unmarshal_map b with
  | None => Fail json_error
  | Some data => Ret (mkRow id (default [] data) b r.2)
  end.

(** The same records, with these keys. *)
Definition with_keys {R} (f : key → key) (r : R * option key) : R * option key := (r.1, f <$> r.2).

Class EngineLaws (E R : Type) `{StorageEngine E, EngineModel E R} `{Decoders} : Prop := {
  exists_spec e id : engine_ok e → exists_ e id = bool_decide (is_Some (contents e !! id));
  store_duplicate e id k data :
    engine_ok e → is_Some (contents e !! id) → store e id k data false = Fail record_already_exists;
  store_spec e id k data overwrite :
    engine_ok e → overwrite = true ∨ contents e !! id = None →
    match encode e data with
    | Ret r => ∃ e', store e id k data overwrite = Ret e' ∧ now_holds e e' (<[id := (r, Some k)]> (contents e))
    | Fail err => store e id k data overwrite = Fail err
    | Panic msg => store e id k data overwrite = Panic msg
    end;
  load_spec e id target :
    engine_ok e →
    load e id target =
      match contents e !! id with
      | None => Fail not_found
      | Some r => do b <- document e r.1; Unmarshal_into b target
      end;
  delete_spec e id : engine_ok e → now_holds e (delete_ e id) (delete id (contents e));
  update_missing e id us : engine_ok e → contents e !! id = None → update e id us = Fail not_found;
  update_spec e id us r :
    engine_ok e → contents e !! id = Some r →
    match updated e r.1 us with
    | Ret r' => ∃ e', update e id us = Ret e' ∧ now_holds e e' (<[id := (r', r.2)]> (contents e))
    | Fail err => update e id us = Fail err
    | Panic msg => update e id us = Panic msg
    end;
  (** the rows are those of the contents, in some order *)
  rows_spec e :
    engine_ok e → ∃ l, l ≡ₚ map_to_list (contents e) ∧ rows e = traverse (λ _ x, row_of e x.1 x.2) l;
  rekey_spec f e : engine_ok e → now_holds e (rekey f e) (with_keys f <$> contents e);
}.

(** ** The serialized engine *)

Context `{Decoders}.

Record serializedEngine := mkSerialized {
  s_collection : string;
  (** what the record type's factory returns; [None] for a nil factory *)
  s_factory : option value;
  s_records : gmap string json;
  s_keys : gmap string key;
}.

Definition newSerializedEngine (collection : string) (factory : option value) : serializedEngine :=
  mkSerialized collection factory ∅ ∅.

Definition checkUnknownFields (factory : option value) (b : json) : res mem_error unit :=
  match factory with
  | None => Ret tt
  | Some target => if decode_strict b target then Ret tt else Fail (unknown_field "")
  end.

Definition marshal_res (data : value) : res mem_error json :=
  match marshal data with Some b => Ret b | None => Fail json_error end.

Definition s_exists (e : serializedEngine) (id : string) : bool := bool_decide (is_Some (s_records e !! id)).

Definition s_store (e : serializedEngine) (id : string) (k : key) (data : value) (overwrite : bool)
  : res mem_error serializedEngine :=
  if negb overwrite && s_exists e id then Fail record_already_exists
  else
    do b <- marshal_res data;
    do _ <- checkUnknownFields (s_factory e) b;
    Ret (mkSerialized (s_collection e) (s_factory e) (<[id := b]> (s_records e)) (<[id := k]> (s_keys e))).

Definition s_load (e : serializedEngine) (id : string) (target : value) : res mem_error value :=
  match s_records e !! id with
  | None => Fail not_found
  | Some b => Unmarshal_into b target
  end.

Definition s_delete (e : serializedEngine) (id : string) : serializedEngine :=
  mkSerialized (s_collection e) (s_factory e) (delete id (s_records e)) (delete id (s_keys e)).

Definition s_update (e : serializedEngine) (id : string) (updates : list Update)
  : res mem_error serializedEngine :=
  match s_records e !! id with
  | None => Fail not_found
  | Some b =>
      match unmarshal_map b with
      | None => Fail json_error
      | Some data =>
          do data' <- applyUpdatesToMap data updates;
          do next <- marshal_res (VMap any_map_type "string" data');
          do _ <- checkUnknownFields (s_factory e) next;
          Ret (mkSerialized (s_collection e) (s_factory e) (<[id := next]> (s_records e)) (s_keys e))
      end
  end.

(** Go enumerates the map in a random order. *)
Definition s_rows (e : serializedEngine) : res mem_error (list memoryRow) :=
  traverse (λ _ x,
    match unmarshal_map x.2 with
    | None => Fail json_error
    | Some data => Ret (mkRow x.1 (default [] data) x.2 (s_keys e !! x.1))
    end) (map_to_list (s_records e)).

Definition s_rekey (f : key → key) (e : serializedEngine) : serializedEngine :=
  mkSerialized (s_collection e) (s_factory e) (s_records e) (f <$> s_keys e).

#[export] Instance serialized_engine : StorageEngine serializedEngine := {|
  exists_ := s_exists;
  store := s_store;
  load := s_load;
  delete_ := s_delete;
  update := s_update;
  rows := s_rows;
  candidate_rows _ _ := Ret None;
  rekey := s_rekey;
|}.

(** Every stored record has a key. *)
Definition s_contents (e : serializedEngine) : gmap string (json * option key) :=
  map_imap (λ id b, Some (b, s_keys e !! id)) (s_records e).

#[export] Instance serialized_model : EngineModel serializedEngine json := {|
  engine_ok e := True;
  contents := s_contents;
  encode e data := do b <- marshal_res data; do _ <- checkUnknownFields (s_factory e) b; Ret b;
  document _ b := Ret b;
  check_updates _ _ := Ret tt;
|}.

Lemma s_contents_lookup e id : s_contents e !! id = (λ b, (b, s_keys e !! id)) <$> s_records e !! id.
Proof. unfold s_contents. rewrite map_lookup_imap. by destruct (s_records e !! id). Qed.

Lemma s_contents_list e :
  map_to_list (s_contents e) ≡ₚ (λ x, (x.1, (x.2, s_keys e !! x.1))) <$> map_to_list (s_records e).
Proof.
  apply NoDup_Permutation; [apply NoDup_map_to_list| |].
  - apply NoDup_fmap_2_strong; [|apply NoDup_map_to_list].
    intros [i b] [i' b'] _ _ E. by simplify_eq/=.
  - intros [id [b k]]. rewrite elem_of_map_to_list, s_contents_lookup, list_elem_of_fmap. split.
    + intros (b' & Hb & E)%fmap_Some. simplify_eq. exists (id, b'). by rewrite elem_of_map_to_list.
    + intros ([id' b'] & E & Hin%elem_of_map_to_list). simplify_eq/=. by rewrite Hin.
Qed.

(** The serialized engine keeps the contract of a storage engine. *)
Lemma serialized_engine_laws : EngineLaws serializedEngine json.
Proof.
  split.
  - intros e id _. unfold exists_, contents. simpl. unfold s_exists. rewrite s_contents_lookup.
    apply bool_decide_ext. by rewrite fmap_is_Some.
  - intros e id k data _ Hid. unfold store, contents in *. simpl in *. unfold s_store, s_exists.
    rewrite s_contents_lookup, fmap_is_Some in Hid. by rewrite bool_decide_eq_true_2.
  - intros e id k data overwrite _ Hor. unfold store, contents, encode in *. simpl in *.
    assert (Hcond : negb overwrite && s_exists e id = false).
    { destruct Hor as [->|Hnone]; [done|]. rewrite s_contents_lookup, fmap_None in Hnone.
      unfold s_exists. rewrite Hnone. apply andb_false_r. }
    unfold s_store. rewrite Hcond.
    destruct (marshal_res data) as [b| |]; simpl; [|done..].
    destruct (checkUnknownFields (s_factory e) b) as [[]| |]; simpl; [|done..].
    eexists. split; [done|]. unfold now_holds. simpl. split_and!; [done| |done..].
    apply map_eq. intros i. rewrite s_contents_lookup. simpl. destruct (decide (i = id)) as [->|Hne].
    + by rewrite !lookup_insert_eq.
    + by rewrite !lookup_insert_ne, s_contents_lookup.
  - intros e id target _. unfold load, contents, document. simpl. unfold s_load.
    rewrite s_contents_lookup. by destruct (s_records e !! id).
  - intros e id _. unfold now_holds, contents. simpl. split_and!; [done| |done..].
    apply map_eq. intros i. rewrite s_contents_lookup. simpl. destruct (decide (i = id)) as [->|Hne].
    + by rewrite !lookup_delete_eq.
    + by rewrite !lookup_delete_ne, s_contents_lookup.
  - intros e id us _. unfold update, contents. simpl. unfold s_update. rewrite s_contents_lookup.
    by destruct (s_records e !! id).
  - intros e id us [b k] _. unfold update, contents, updated, document, encode. simpl. unfold s_update.
    rewrite s_contents_lookup. intros (b' & Hb & E)%fmap_Some. simplify_eq. rewrite Hb. simpl.
    destruct (unmarshal_map b') as [data|]; simpl; [|done].
    destruct (applyUpdatesToMap data us) as [data'| |]; simpl; [|done..].
    destruct (marshal_res _) as [next| |]; simpl; [|done..].
    destruct (checkUnknownFields (s_factory e) next) as [[]| |]; simpl; [|done..].
    eexists. split; [done|]. unfold now_holds. simpl. split_and!; [done| |done..].
    apply map_eq. intros i. rewrite s_contents_lookup. simpl. destruct (decide (i = id)) as [->|Hne].
    + by rewrite !lookup_insert_eq.
    + by rewrite !lookup_insert_ne, s_contents_lookup.
  - intros e _. unfold rows, contents. simpl.
    exists ((λ x, (x.1, (x.2, s_keys e !! x.1))) <$> map_to_list (s_records e)).
    split; [by rewrite s_contents_list|]. unfold s_rows, traverse, row_of, document. simpl. generalize 0.
    induction (map_to_list (s_records e)) as [|[id b] l IH]; intros i; simpl; [done|].
    destruct (unmarshal_map b); simpl; [|done]. by rewrite IH.
  - intros f e _. unfold now_holds. simpl. split_and!; [done| |done..].
    apply map_eq. intros i. rewrite lookup_fmap, !s_contents_lookup. simpl. rewrite lookup_fmap.
    by destruct (s_records e !! i).
Qed.
End Engines.
