(* ===== verification/MemoryColumnar.v ===== *)
(** * The columnar storage engine (src/adapters/dalgo2memory/columnar.go)

    Records live in typed columns indexed by slot; deleted slots are reused and
    compacted away.  Columns use the default strategy here (MemoryStrategies has
    those of callers); a cell that a collection
    without reference breaking shares with the caller's record is modelled by
    its value at the time of the write. *)

From Stdlib Require Import String.
From stdpp Require Import base gmap sets list strings.
From S2P Require Import Prelude GoValues GoTypes GoMaps GoStrings GoJSON RecordKey DalQuery DalString.
From S2P Require Import MemoryRows MemoryQuery MemoryUpdate MemoryEngine.

Local Open Scope string_scope.
Local Open Scope nat_scope.
Local Open Scope list_scope.

(** The type of a value, and [json.Unmarshal] into a new variable of a type. *)
Class Reflect := {
  TypeOf : value → gotype;
  Unmarshal_new : gotype → json → option value;
}.

(** A loop that collects the slots that pass a test. *)
Fixpoint filter_slots (f : nat → res mem_error bool) (l : list nat) : res mem_error (list nat) :=
  match l with
  | [] => Ret []
  | x :: l' =>
      do ok <- f x;
      do rest <- filter_slots f l';
      Ret (if ok then x :: rest else rest)
  end.

Section Columnar.
Context `{RecordKeys, GoJSON, Reflect, Decoders}.

(** What a column is made from: the JSON name, the name of the struct's field
    (empty for a declared column), the type of its cells, and whether they can
    share references with the caller's record.  The default strategy of a column
    points to the column it was made for; when a later declaration of the name
    is copied over the column, that is an object of which the engine keeps no
    cells ([d_indexed] is false). *)
Record column_decl := mkDecl {
  d_name : string;
  d_goField : string;
  d_elemType : gotype;
  d_refBearing : bool;
  d_indexed : bool;
}.

Record column := mkCol { c_decl : column_decl; c_values : list value }.
Definition c_name (c : column) : string := d_name (c_decl c).
Definition c_type (c : column) : gotype := d_elemType (c_decl c).

Record columnarEngine := mkColumnar {
  e_collection : string;
  e_columns : list column;
  e_idToSlot : gmap string nat;
  e_slotToID : list string;
  e_slotToKey : list (option key);
  e_live : list bool;
  e_freeList : list nat;
  e_deadCount : nat;
  e_refBreak : bool;
  e_mapBacked : bool;
  e_leftover : list (option row_map);
}.

(** A new engine, from the columns of the record type or the declared ones. *)
Definition new_columnar (collection : string) (columns : list column_decl) (refBreak mapBacked : bool)
  : columnarEngine :=
  mkColumnar collection ((λ d, mkCol d []) <$> columns) ∅ [] [] [] [] 0 refBreak mapBacked [].

(** The declarations of the columns. *)
Definition columns_schema : Type := list column_decl.
Definition e_schema (e : columnarEngine) : columns_schema := c_decl <$> e_columns e.

(** [byName] *)
Definition has_column (schema : columns_schema) (name : string) : bool :=
  existsb (λ d, String.eqb (d_name d) name) schema.

Definition is_live (e : columnarEngine) (slot : nat) : bool := default false (e_live e !! slot).

Definition c_exists (e : columnarEngine) (id : string) : bool :=
  match e_idToSlot e !! id with Some slot => is_live e slot | None => false end.

(** ** Decoding a record into cells *)

(** [assignInto] on a new cell; the nil value of an [any] cell stays. *)
Definition assignInto (ty : gotype) (raw : value) : option value :=
  if same_type ty any_type then Some raw
  else match marshal raw with Some b => Unmarshal_new ty b | None => None end.

Definition decode_column (asMap : row_map) (d : column_decl) : res mem_error value :=
  match assoc (d_name d) asMap with
  | None => Ret (zero_value (d_elemType d))
  | Some raw => match assignInto (d_elemType d) raw with Some v => Ret v | None => Fail json_error end
  end.

(** The struct below a record's pointers. *)
Fixpoint structValue (data : value) : option value :=
  match data with
  | VPtr _ _ (Some x) => structValue x
  | VStruct _ _ _ => Some data
  | _ => None
  end.

(** The field of a live struct that a column without reference breaking takes
    over as it is. *)
Definition live_field (src : option value) (d : column_decl) : option value :=
  match src with
  | Some (VStruct ty cmp fields) =>
      match find (λ f : string * bool * value, String.eqb f.1.1 (d_goField d)) fields,
            TypeOf (VStruct ty cmp fields) with
      | Some (_, _, v), TStruct _ types =>
          match find (λ f, String.eqb (field_Name f) (d_goField d)) types with
          | Some f => if same_type (field_Type f) (d_elemType d) then Some v else None
          | None => None
          end
      | _, _ => None
      end
  | _ => None
  end.

Definition decode_columns (schema : columns_schema) (asMap : row_map) : res mem_error (list value) :=
  traverse (λ _ d, decode_column asMap d) schema.

(** The cells of a struct collection. *)
Definition decode_field (refBreak : bool) (src : option value) (asMap : row_map) (d : column_decl)
  : res mem_error value :=
  match (if negb refBreak && d_refBearing d then live_field src d else None) with
  | Some v => Ret v
  | None => decode_column asMap d
  end.

Definition undeclared (schema : columns_schema) (asMap : row_map) : row_map :=
  List.filter (λ kv : string * value, negb (has_column schema kv.1)) asMap.

(** [decodeFields]: a struct's fields; [decodeMapFields]: declared columns and
    the leftover map, nil when there is nothing left. *)
Definition prepareWrite (schema : columns_schema) (refBreak mapBacked : bool) (data : value)
  : res mem_error (list value * option row_map) :=
  do b <- marshal_res data;
  match unmarshal_map b with
  | None => Fail json_error
  | Some asMap =>
      let asMap := default [] asMap in
      if mapBacked then
        do values <- decode_columns schema asMap;
        Ret (values, match undeclared schema asMap with [] => None | l => Some l end)
      else
        match undeclared schema asMap with
        | [] => do values <- traverse (λ _ d, decode_field refBreak (structValue data) asMap d) schema; Ret (values, None)
        | kv :: _ => Fail (unknown_field kv.1)
        end
  end.

(** ** Slots *)

(** [freeList[n-1]] and [freeList[:n-1]] *)
Definition pop_last {A} (l : list A) : option (list A * A) :=
  match last l with Some x => Some (take (length l - 1) l, x) | None => None end.

Definition append_cell (c : column) : column :=
  mkCol (c_decl c) (c_values c ++ [zero_value (c_type c)]).

(** [allocSlot]: the slot of a live identifier, else a free slot, else a new one. *)
Definition allocSlot (e : columnarEngine) (id : string) : columnarEngine * nat :=
  match (match e_idToSlot e !! id with Some slot => if is_live e slot then Some slot else None | None => None end) with
  | Some slot => (e, slot)
  | None =>
      match pop_last (e_freeList e) with
      | Some (freeList, slot) =>
          (mkColumnar (e_collection e) (e_columns e) (<[id := slot]> (e_idToSlot e))
             (<[slot := id]> (e_slotToID e)) (e_slotToKey e) (<[slot := true]> (e_live e))
             freeList (e_deadCount e - 1) (e_refBreak e) (e_mapBacked e) (e_leftover e), slot)
      | None =>
          let slot := length (e_live e) in
          (mkColumnar (e_collection e) (append_cell <$> e_columns e) (<[id := slot]> (e_idToSlot e))
             (e_slotToID e ++ [id]) (e_slotToKey e) (e_live e ++ [true])
             (e_freeList e) (e_deadCount e) (e_refBreak e) (e_mapBacked e)
             (if e_mapBacked e then e_leftover e ++ [None] else e_leftover e), slot)
      end
  end.

(** [setSlotKey]: grows the slice up to the slot. *)
Definition setSlotKey (e : columnarEngine) (slot : nat) (k : key) : columnarEngine :=
  let keys := e_slotToKey e ++ replicate (S slot - length (e_slotToKey e)) None in
  mkColumnar (e_collection e) (e_columns e) (e_idToSlot e) (e_slotToID e) (<[slot := Some k]> keys)
    (e_live e) (e_freeList e) (e_deadCount e) (e_refBreak e) (e_mapBacked e) (e_leftover e).

Definition write_cell (slot : nat) (c : column) (v : value) : column :=
  mkCol (c_decl c) (<[slot := v]> (c_values c)).

Definition writeSlot (e : columnarEngine) (slot : nat) (values : list value) (leftover : option row_map)
  : columnarEngine :=
  mkColumnar (e_collection e) (zip_with (write_cell slot) (e_columns e) values) (e_idToSlot e)
    (e_slotToID e) (e_slotToKey e) (e_live e) (e_freeList e) (e_deadCount e) (e_refBreak e) (e_mapBacked e)
    (if e_mapBacked e then <[slot := leftover]> (e_leftover e) else e_leftover e).

Definition freeSlot (e : columnarEngine) (slot : nat) : columnarEngine :=
  mkColumnar (e_collection e) ((λ c, write_cell slot c (zero_value (c_type c))) <$> e_columns e)
    (e_idToSlot e) (<[slot := ""]> (e_slotToID e)) (<[slot := None]> (e_slotToKey e))
    (<[slot := false]> (e_live e)) (e_freeList e ++ [slot]) (S (e_deadCount e)) (e_refBreak e) (e_mapBacked e)
    (if e_mapBacked e then <[slot := None]> (e_leftover e) else e_leftover e).

(** The live slots, in ascending order. *)
Definition liveSlots (e : columnarEngine) : list nat :=
  List.filter (is_live e) (seq 0 (length (e_live e))).

(** A slice rebuilt with the elements of some slots. *)
Definition gather {A} (d : A) (slots : list nat) (l : list A) : list A :=
  (λ s, default d (l !! s)) <$> slots.

Definition compact (e : columnarEngine) : columnarEngine :=
  let slots := liveSlots e in
  let ids := gather "" slots (e_slotToID e) in
  mkColumnar (e_collection e)
    ((λ c, mkCol (c_decl c) (gather (zero_value (c_type c)) slots (c_values c))) <$> e_columns e)
    (fold_left (λ m p, <[p.1 := p.2]> m) (zip ids (seq 0 (length slots))) (e_idToSlot e))
    ids (gather None slots (e_slotToKey e)) (gather false slots (e_live e)) [] 0 (e_refBreak e) (e_mapBacked e)
    (if e_mapBacked e then gather None slots (e_leftover e) else []).

(** Compacts when half of the slots or more are dead. *)
Definition maybeCompact (e : columnarEngine) : columnarEngine :=
  let total := length (e_live e) in
  if (total =? 0) || (e_deadCount e =? 0) then e
  else if 2 * e_deadCount e <? total then e
  else compact e.

(** ** The operations *)

Definition slot_cells (e : columnarEngine) (slot : nat) : list value :=
  (λ c, default (zero_value (c_type c)) (c_values c !! slot)) <$> e_columns e.

Definition leftoverAt (e : columnarEngine) (slot : nat) : option row_map :=
  if e_mapBacked e then default None (e_leftover e !! slot) else None.

(** The object that [rowData] and [materializeSlot] marshal. *)
Definition cells_object (names : list string) (cells : list value) (leftover : option row_map) : value :=
  vmap (map_copy (map_of (default [] leftover)) (zip names cells)).

Definition cells_document (schema : columns_schema) (r : list value * option row_map) : res mem_error json :=
  marshal_res (cells_object (d_name <$> schema) r.1 r.2).

Definition slot_document (e : columnarEngine) (slot : nat) : res mem_error json :=
  cells_document (e_schema e) (slot_cells e slot, leftoverAt e slot).

Definition live_slot (e : columnarEngine) (id : string) : option nat :=
  match e_idToSlot e !! id with
  | Some slot => if is_live e slot then Some slot else None
  | None => None
  end.

Definition c_store (e : columnarEngine) (id : string) (k : key) (data : value) (overwrite : bool)
  : res mem_error columnarEngine :=
  if negb overwrite && c_exists e id then Fail record_already_exists
  else
    do w <- prepareWrite (e_schema e) (e_refBreak e) (e_mapBacked e) data;
    let '(e, slot) := allocSlot e id in
    Ret (writeSlot (setSlotKey e slot k) slot w.1 w.2).

Definition c_load (e : columnarEngine) (id : string) (target : value) : res mem_error value :=
  match live_slot e id with
  | None => Fail not_found
  | Some slot => do b <- slot_document e slot; Unmarshal_into b target
  end.

Definition c_delete (e : columnarEngine) (id : string) : columnarEngine :=
  match live_slot e id with
  | None => e
  | Some slot =>
      let e := freeSlot e slot in
      maybeCompact (mkColumnar (e_collection e) (e_columns e) (delete id (e_idToSlot e)) (e_slotToID e)
        (e_slotToKey e) (e_live e) (e_freeList e) (e_deadCount e) (e_refBreak e) (e_mapBacked e) (e_leftover e))
  end.

(** The names of field updates must be columns, but on map-backed collections. *)
Fixpoint check_field_names (schema : columns_schema) (mapBacked : bool) (updates : list Update) : res mem_error unit :=
  match updates with
  | [] => Ret tt
  | u :: rest =>
      let name := u_FieldName u in
      if negb (String.eqb name "") && negb (has_column schema name) && negb (mapBacked)
      then Fail (unknown_field name)
      else check_field_names schema mapBacked rest
  end.

Definition c_update (e : columnarEngine) (id : string) (updates : list Update)
  : res mem_error columnarEngine :=
  match live_slot e id with
  | None => Fail not_found
  | Some slot =>
      do b <- slot_document e slot;
      match unmarshal_map b with
      | None => Fail json_error
      | Some current =>
          do _ <- check_field_names (e_schema e) (e_mapBacked e) updates;
          do current' <- applyUpdatesToMap current updates;
          do w <- prepareWrite (e_schema e) (e_refBreak e) (e_mapBacked e) (VMap any_map_type "string" current');
          Ret (writeSlot e slot w.1 w.2)
      end
  end.

Definition sorted_strings (l : list string) : list string :=
  StableSort.stable_sort (StableSort.key_less id) l.

Definition buildRows (e : columnarEngine) (ids : list string) : res mem_error (list memoryRow) :=
  traverse (λ _ id,
    let slot := default 0 (e_idToSlot e !! id) in
    do b <- slot_document e slot;
    match unmarshal_map b with
    | None => Fail json_error
    | Some data => Ret (mkRow id (default [] data) b (default None (e_slotToKey e !! slot)))
    end) ids.

Definition c_rows (e : columnarEngine) : res mem_error (list memoryRow) :=
  buildRows e (sorted_strings (map_to_list (e_idToSlot e)).*1).

(** ** The equality index (strategy.go) *)

(** [valuesEqualForStrategy]: Go's [==], false on a constant that cannot be
    compared. *)
Definition valuesEqualForStrategy (stored queried : value) : res mem_error bool :=
  match queried with
  | VNil => go_eq stored queried
  | _ => if type_comparable queried then go_eq stored queried else Ret false
  end.

(** The default strategy looks into columns of comparable types other than [any]. *)
Definition strategy_comparable (t : gotype) : bool := negb (same_type t any_type) && Comparable t.

(** The cells that the default strategy of a column scans. *)
Definition strategy_cells (c : column) : list value := if d_indexed (c_decl c) then c_values c else [].

(** The live slots of a column whose cell equals a value; [None] is no opinion,
    of a column whose type cannot be compared. *)
Definition EqualSlots (e : columnarEngine) (c : column) (v : value) : res mem_error (option (list nat)) :=
  if negb (strategy_comparable (c_type c)) then Ret None
  else
    do slots <- filter_slots (λ slot,
        if is_live e slot
        then valuesEqualForStrategy (default (zero_value (c_type c)) (strategy_cells c !! slot)) v
        else Ret false)
      (seq 0 (length (strategy_cells c)));
    Ret (Some slots).

(** [byName]: the last column of a name. *)
Definition column_named (columns : list column) (name : string) : option column :=
  last (List.filter (λ c, String.eqb (c_name c) name) columns).

(** Only a comparison [field == constant] is looked up in the index. *)
Definition candidateSlots (e : columnarEngine) (condition : option Condition)
  : res mem_error (option (list nat)) :=
  match condition with
  | Some (Comparison op (FieldRef _ name _) (Constant v)) =>
      if String.eqb op Equal then
        match column_named (e_columns e) name with
        | Some c => EqualSlots e c v
        | None => Ret None
        end
      else Ret None
  | _ => Ret None
  end.

Definition candidateRows (e : columnarEngine) (condition : option Condition)
  : res mem_error (option (list memoryRow)) :=
  do slots <- candidateSlots e condition;
  match slots with
  | None => Ret None
  | Some slots =>
      let ids := (λ slot, default "" (e_slotToID e !! slot)) <$> List.filter (is_live e) slots in
      do rs <- buildRows e (sorted_strings ids);
      Ret (Some rs)
  end.

Definition c_rekey (f : key → key) (e : columnarEngine) : columnarEngine :=
  mkColumnar (e_collection e) (e_columns e) (e_idToSlot e) (e_slotToID e) (option_map f <$> e_slotToKey e)
    (e_live e) (e_freeList e) (e_deadCount e) (e_refBreak e) (e_mapBacked e) (e_leftover e).

#[export] Instance columnar_engine : StorageEngine columnarEngine := {|
  exists_ := c_exists;
  store := c_store;
  load := c_load;
  delete_ := c_delete;
  update := c_update;
  rows := c_rows;
  candidate_rows := candidateRows;
  rekey := c_rekey;
|}.

(** ** The contract *)

(** The slices have one length; identifiers and live slots correspond; the
    free list holds the dead slots, once each. *)
Record columnar_ok (e : columnarEngine) : Prop := {
  ok_ids : length (e_slotToID e) = length (e_live e);
  ok_keys : length (e_slotToKey e) = length (e_live e);
  ok_cols : Forall (λ c, length (c_values c) = length (e_live e)) (e_columns e);
  ok_left : e_mapBacked e = true → length (e_leftover e) = length (e_live e);
  ok_slots id slot : e_idToSlot e !! id = Some slot ↔
    e_live e !! slot = Some true ∧ e_slotToID e !! slot = Some id;
  ok_free_NoDup : NoDup (e_freeList e);
  ok_free slot : slot ∈ e_freeList e ↔ e_live e !! slot = Some false;
  ok_dead : e_deadCount e = length (e_freeList e);
}.

Definition slot_record (e : columnarEngine) (slot : nat) : (list value * option row_map) * option key :=
  ((slot_cells e slot, leftoverAt e slot), default None (e_slotToKey e !! slot)).

Definition c_contents (e : columnarEngine) : gmap string ((list value * option row_map) * option key) :=
  slot_record e <$> e_idToSlot e.

#[export] Instance columnar_model : EngineModel columnarEngine (list value * option row_map) := {|
  engine_ok := columnar_ok;
  contents := c_contents;
  encode e := prepareWrite (e_schema e) (e_refBreak e) (e_mapBacked e);
  document e := cells_document (e_schema e);
  check_updates e := check_field_names (e_schema e) (e_mapBacked e);
|}.
End Columnar.
