(* ===== verification/MemoryColumnarLaws.v ===== *)
(** * The columnar engine keeps the contract of a storage engine

    Allocation, writing, tombstones and compaction keep [columnar_ok], and
    change the contents of the engine as a finite map would. *)

From Stdlib Require Import String.
From stdpp Require Import base gmap sets list strings.
From S2P Require Import Prelude StableSort GoValues GoTypes GoMaps GoStrings GoJSON RecordKey DalQuery DalString.
From S2P Require Import MemoryRows MemoryQuery MemoryUpdate MemoryEngine MemoryColumnar.

Local Open Scope string_scope.
Local Open Scope nat_scope.
Local Open Scope list_scope.

Lemma pop_last_Some {A} (l : list A) x l' : pop_last l = Some (l', x) ↔ l = l' ++ [x].
Proof.
  unfold pop_last. destruct l as [|y l _] using rev_ind; simpl; [split; [done|]; by destruct l'|].
  rewrite last_snoc, length_app. simpl. replace (length l + 1 - 1) with (length l) by lia.
  rewrite take_app_length. split; [by intros [= -> ->]|]. intros [-> E]%app_inj_2; [|done]. by simplify_eq.
Qed.

Lemma pop_last_None {A} (l : list A) : pop_last l = None ↔ l = [].
Proof.
  unfold pop_last. destruct l as [|y l _] using rev_ind; [done|]. rewrite last_snoc.
  split; [done|]. by destruct l.
Qed.

Section Laws.
Context `{RecordKeys, GoJSON, Reflect, Decoders}.
Implicit Types (e : columnarEngine) (id : string) (slot : nat).

Lemma is_live_Some e slot : is_live e slot = true ↔ e_live e !! slot = Some true.
Proof. unfold is_live. destruct (e_live e !! slot) as [[]|]; naive_solver. Qed.

(** Identifiers of the index are live. *)
Lemma live_slot_index e id : columnar_ok e → live_slot e id = e_idToSlot e !! id.
Proof.
  intros Hok. unfold live_slot. destruct (e_idToSlot e !! id) as [slot|] eqn:E; [|done].
  apply (ok_slots _ Hok) in E as [Hl _]. by rewrite (proj2 (is_live_Some e slot) Hl).
Qed.

Lemma index_inj e id id' slot :
  columnar_ok e → e_idToSlot e !! id = Some slot → e_idToSlot e !! id' = Some slot → id = id'.
Proof. intros Hok [_ ?]%(ok_slots _ Hok) [_ ?]%(ok_slots _ Hok). congruence. Qed.

Lemma index_bound e id slot : columnar_ok e → e_idToSlot e !! id = Some slot → slot < length (e_live e).
Proof. intros Hok [Hl _]%(ok_slots _ Hok). by apply lookup_lt_Some in Hl. Qed.

(** ** Allocation *)

(** What [allocSlot] returns: a live slot for the identifier, with the same
    cells everywhere else; only the slice of keys may be too short. *)
Record allocated (e : columnarEngine) (id : string) (e' : columnarEngine) (slot : nat) : Prop := {
  al_schema : e_schema e' = e_schema e;
  al_refBreak : e_refBreak e' = e_refBreak e;
  al_mapBacked : e_mapBacked e' = e_mapBacked e;
  al_slot : slot < length (e_live e');
  al_ids : length (e_slotToID e') = length (e_live e');
  al_keys : e_slotToKey e' = e_slotToKey e;
  al_keys_length : length (e_slotToKey e) ≤ length (e_live e') ≤ S (length (e_slotToKey e));
  al_fresh : length (e_live e') = S (length (e_slotToKey e)) → slot = length (e_slotToKey e);
  al_cols : Forall (λ c, length (c_values c) = length (e_live e')) (e_columns e');
  al_left : e_mapBacked e' = true → length (e_leftover e') = length (e_live e');
  al_slots i s : e_idToSlot e' !! i = Some s ↔ e_live e' !! s = Some true ∧ e_slotToID e' !! s = Some i;
  al_free_NoDup : NoDup (e_freeList e');
  al_free s : s ∈ e_freeList e' ↔ e_live e' !! s = Some false;
  al_dead : e_deadCount e' = length (e_freeList e');
  al_index : e_idToSlot e' = <[id := slot]> (e_idToSlot e);
  al_other i s : i ≠ id → e_idToSlot e !! i = Some s → s ≠ slot;
  al_cells s : s < length (e_live e) → slot_cells e' s = slot_cells e s ∧ leftoverAt e' s = leftoverAt e s;
}.

Lemma append_schema (cols : list column) :
  c_decl <$> (append_cell <$> cols) = c_decl <$> cols.
Proof. by rewrite <- list_fmap_compose. Qed.

Lemma alloc_reuse e id fl slot :
  columnar_ok e → e_idToSlot e !! id = None → e_freeList e = fl ++ [slot] →
  allocated e id
    (mkColumnar (e_collection e) (e_columns e) (<[id := slot]> (e_idToSlot e))
       (<[slot := id]> (e_slotToID e)) (e_slotToKey e) (<[slot := true]> (e_live e))
       fl (e_deadCount e - 1) (e_refBreak e) (e_mapBacked e) (e_leftover e)) slot.
Proof.
  intros Hok Hid Hfree. pose proof (ok_free_NoDup _ Hok) as Hnd. rewrite Hfree in Hnd.
  assert (Hdead : e_live e !! slot = Some false) by (apply (ok_free _ Hok); rewrite Hfree; set_solver).
  pose proof (lookup_lt_Some _ _ _ Hdead) as Hlt. apply NoDup_app in Hnd as (Hnd & Hnin & _).
  split; simpl; rewrite ?length_insert; try done.
  - apply Hok.
  - rewrite (ok_keys _ Hok). lia.
  - rewrite (ok_keys _ Hok). lia.
  - apply Hok.
  - apply Hok.
  - intros i s. rewrite !list_lookup_insert, (ok_ids _ Hok). destruct (decide (i = id)) as [->|Hne].
    + rewrite lookup_insert_eq. split.
      * intros [= <-]. by rewrite !decide_True.
      * destruct (decide (slot = s ∧ slot < length (e_live e))) as [[-> _]|Hn]; [done|].
        intros Hs%(ok_slots _ Hok). congruence.
    + rewrite lookup_insert_ne, (ok_slots _ Hok) by done.
      destruct (decide (slot = s ∧ slot < length (e_live e))) as [[-> _]|Hn]; [|done].
      rewrite Hdead. naive_solver.
  - intros s. rewrite list_lookup_insert. destruct (decide (slot = s ∧ slot < length (e_live e))) as [[-> _]|Hn].
    + split; [|done]. intros Hs. destruct (Hnin s Hs). set_solver.
    + rewrite <- (ok_free _ Hok), Hfree, elem_of_app, list_elem_of_singleton.
      split; [by left|]. intros [?| ->]; [done|]. by destruct Hn.
  - rewrite (ok_dead _ Hok), Hfree, length_app. simpl. lia.
  - intros i s Hne [Hl _]%(ok_slots _ Hok). congruence.
Qed.

Lemma alloc_append e id :
  columnar_ok e → e_idToSlot e !! id = None → e_freeList e = [] →
  allocated e id
    (mkColumnar (e_collection e) (append_cell <$> e_columns e) (<[id := length (e_live e)]> (e_idToSlot e))
       (e_slotToID e ++ [id]) (e_slotToKey e) (e_live e ++ [true]) (e_freeList e) (e_deadCount e) (e_refBreak e)
       (e_mapBacked e) (if e_mapBacked e then e_leftover e ++ [None] else e_leftover e)) (length (e_live e)).
Proof.
  intros Hok Hid Hfree.
  split; simpl; rewrite ?length_app; simpl; try done.
  - apply append_schema.
  - lia.
  - by rewrite (ok_ids _ Hok).
  - rewrite (ok_keys _ Hok). lia.
  - by rewrite (ok_keys _ Hok).
  - apply Forall_fmap. eapply Forall_impl; [apply (ok_cols _ Hok)|]. intros c Hc. simpl in *.
    rewrite length_app. simpl. lia.
  - intros Hm. rewrite Hm, length_app, (ok_left _ Hok Hm). done.
  - intros i s. destruct (decide (i = id)) as [->|Hne].
    + rewrite lookup_insert_eq. split.
      * intros [= <-]. split; [by rewrite list_lookup_middle|]. rewrite <- (ok_ids _ Hok). by rewrite list_lookup_middle.
      * intros [Hl Hi]. apply lookup_snoc_Some in Hl as [[Hs Hl]|[-> _]]; [|done].
        rewrite lookup_app_l in Hi by (rewrite (ok_ids _ Hok); done).
        assert (e_idToSlot e !! id = Some s) by by apply (ok_slots _ Hok). congruence.
    + rewrite lookup_insert_ne, (ok_slots _ Hok) by done. split.
      * intros [Hl Hi]. split; [by apply lookup_app_l_Some|]. by apply lookup_app_l_Some.
      * intros [Hl Hi]. apply lookup_snoc_Some in Hl as [[Hs Hl]|[-> _]].
        -- rewrite lookup_app_l in Hi by (rewrite (ok_ids _ Hok); done). done.
        -- rewrite <- (ok_ids _ Hok), list_lookup_middle in Hi by done. congruence.
  - apply Hok.
  - intros s. rewrite Hfree. split; [set_solver|]. intros [[Hs Hl]|[-> ?]]%lookup_snoc_Some; [|done].
    apply (ok_free _ Hok) in Hl. by rewrite Hfree in Hl.
  - apply Hok.
  - intros i s Hne Hs%(index_bound _ _ _ Hok). lia.
  - intros s Hs. split.
    + unfold slot_cells. simpl. rewrite <- list_fmap_compose. apply list_fmap_ext. intros j c Hc. simpl.
      rewrite lookup_app_l; [done|]. pose proof (ok_cols _ Hok) as Hcols. rewrite Forall_forall in Hcols.
      rewrite (Hcols c); [done|]. by apply list_elem_of_lookup_2 in Hc.
    + unfold leftoverAt. simpl. destruct (e_mapBacked e) eqn:Hm; [|done].
      rewrite lookup_app_l; [done|]. by rewrite (ok_left _ Hok Hm).
Qed.

Lemma alloc_existing e id slot :
  columnar_ok e → e_idToSlot e !! id = Some slot → allocated e id e slot.
Proof.
  intros Hok Hid. pose proof (index_bound _ _ _ Hok Hid).
  split; try done; try apply Hok; rewrite ?(ok_keys _ Hok); try lia; try done.
  - by rewrite insert_id.
  - intros i s Hne Hs ->. by apply Hne, (index_inj e i id slot).
Qed.

Lemma allocSlot_allocated e id :
  columnar_ok e → allocated e id (allocSlot e id).1 (allocSlot e id).2.
Proof.
  intros Hok. unfold allocSlot. fold (live_slot e id). rewrite (live_slot_index e id Hok).
  destruct (e_idToSlot e !! id) as [slot|] eqn:Hid; [by apply alloc_existing|].
  destruct (pop_last (e_freeList e)) as [[fl slot]|] eqn:Hp.
  - apply pop_last_Some in Hp. by apply alloc_reuse.
  - apply pop_last_None in Hp. by apply alloc_append.
Qed.

(** ** Writing *)

Lemma write_schema slot (cols : list column) values :
  length values = length cols →
  c_decl <$> zip_with (write_cell slot) cols values
  = c_decl <$> cols.
Proof.
  revert values. induction cols as [|c cols IH]; intros [|v values]; simpl; try done.
  intros [= Hl]. by rewrite IH.
Qed.

Lemma prepareWrite_length schema refBreak mapBacked data r :
  prepareWrite schema refBreak mapBacked data = Ret r →
  length r.1 = length schema ∧ (mapBacked = false → r.2 = None).
Proof.
  unfold prepareWrite. intros Hp. apply rbind_Ret_inv in Hp as (b & _ & Hp).
  destruct (unmarshal_map b) as [asMap|]; [|done].
  assert (Hlen : ∀ (f : column_decl → res mem_error value) values, traverse (λ _ (d : column_decl), f d) schema = Ret values →
    length values = length schema).
  { intros f values Hv%traverse_from_Forall2. by apply Forall2_length in Hv. }
  destruct mapBacked; [|destruct (undeclared schema (default [] asMap)); [|done]];
    apply rbind_Ret_inv in Hp as (values & Hv & Hr); simplify_eq; simpl; (split; [by eapply Hlen|done]).
Qed.

(** The cells of a slot after a write. *)
Lemma write_cells slot s (cols : list column) values n :
  length values = length cols → Forall (λ c, length (c_values c) = n) cols → slot < n →
  (λ c, default (zero_value (c_type c)) (c_values c !! s)) <$> zip_with (write_cell slot) cols values
  = if decide (s = slot) then values
    else (λ c, default (zero_value (c_type c)) (c_values c !! s)) <$> cols.
Proof.
  intros Hl Hn Hs. revert values Hl. induction Hn as [|c cols Hc _ IH]; intros [|v values]; simpl; try done.
  - intros _. by destruct (decide (s = slot)).
  - intros [= Hl]. rewrite IH by done. destruct (decide (s = slot)) as [->|Hne].
    + by rewrite list_lookup_insert_eq by (by rewrite Hc).
    + by rewrite list_lookup_insert_ne by done.
Qed.

Lemma write_lengths slot (cols : list column) values n :
  Forall (λ c, length (c_values c) = n) cols →
  Forall (λ c, length (c_values c) = n) (zip_with (write_cell slot) cols values).
Proof.
  intros Hn. revert values. induction Hn as [|c cols Hc _ IH]; intros [|v values]; simpl; constructor; auto.
  simpl. by rewrite length_insert.
Qed.

Lemma keys_grown (keys : list (option key)) slot k n :
  slot < n → length keys ≤ n ≤ S (length keys) → (n = S (length keys) → slot = length keys) →
  let keys' := <[slot := Some k]> (keys ++ replicate (S slot - length keys) None) in
  length keys' = n ∧ ∀ s, default None (keys' !! s) = if decide (s = slot) then Some k else default None (keys !! s).
Proof.
  intros Hs Hn Hfresh. simpl. rewrite length_insert, length_app, length_replicate. split.
  { destruct (decide (n = S (length keys))) as [E|]; [rewrite (Hfresh E)|]; lia. }
  intros s. destruct (decide (s = slot)) as [->|Hne].
  - rewrite list_lookup_insert_eq; [done|]. rewrite length_app, length_replicate. lia.
  - rewrite list_lookup_insert_ne by done. destruct (decide (s < length keys)) as [Hlt|Hge].
    + by rewrite lookup_app_l.
    + rewrite lookup_app_r, (lookup_ge_None_2 keys) by lia.
      destruct (replicate _ _ !! _) as [o|] eqn:E; [|done]. by apply lookup_replicate in E as [-> _].
Qed.

(** Writing a record at an allocated slot. *)
Lemma write_allocated e id e' slot k r :
  columnar_ok e → allocated e id e' slot →
  length r.1 = length (e_schema e) → (e_mapBacked e = false → r.2 = None) →
  now_holds e (writeSlot (setSlotKey e' slot k) slot r.1 r.2) (<[id := (r, Some k)]> (c_contents e)).
Proof.
  intros Hok [] Hlen Hleft.
  assert (Hcl : length r.1 = length (e_columns e')).
  { rewrite Hlen, <- al_schema0. unfold e_schema. by rewrite length_fmap. }
  destruct (keys_grown (e_slotToKey e) slot k (length (e_live e'))) as [Hkl Hkeys]; [done..|].
  assert (Hschema : e_schema (writeSlot (setSlotKey e' slot k) slot r.1 r.2) = e_schema e).
  { unfold e_schema, writeSlot. simpl. rewrite write_schema by done. exact al_schema0. }
  unfold now_holds. cbn [engine_ok contents encode document check_updates columnar_model].
  rewrite Hschema. cbn [writeSlot setSlotKey e_mapBacked e_refBreak]. rewrite al_refBreak0, al_mapBacked0. split_and!; try done.
  - split; simpl; try done.
    + by rewrite al_keys0.
    + by apply write_lengths.
    + intros Hm. rewrite Hm, length_insert. by apply al_left0.
  - apply map_eq. intros i. unfold c_contents. rewrite lookup_fmap. simpl. rewrite al_index0.
    destruct (decide (i = id)) as [->|Hne].
    + rewrite !lookup_insert_eq. simpl. f_equal. unfold slot_record, slot_cells, leftoverAt. simpl.
      rewrite (write_cells slot slot _ _ (length (e_live e'))) by done. rewrite al_keys0, Hkeys.
      rewrite !decide_True by done. destruct (e_mapBacked e') eqn:Hm.
      * rewrite list_lookup_insert_eq by (by rewrite al_left0). by destruct r.
      * rewrite al_mapBacked0 in Hm. destruct r as [cells leftover]. simpl in *. by rewrite Hleft.
    + rewrite !lookup_insert_ne, lookup_fmap by done. destruct (e_idToSlot e !! i) as [s|] eqn:Hi; [|done].
      simpl. f_equal. pose proof (al_other0 i s Hne Hi) as Hs.
      destruct (al_cells0 s (index_bound _ _ _ Hok Hi)) as [Hc Hl]. unfold slot_record.
      rewrite <- Hc, <- Hl. unfold slot_cells, leftoverAt. simpl.
      rewrite (write_cells slot s _ _ (length (e_live e'))), decide_False by done.
      rewrite al_keys0, Hkeys, decide_False by done. destruct (e_mapBacked e'); [|done].
      by rewrite list_lookup_insert_ne.
Qed.

(** Writing over a stored record keeps its key. *)
Lemma write_existing e id slot r :
  columnar_ok e → e_idToSlot e !! id = Some slot →
  length r.1 = length (e_schema e) → (e_mapBacked e = false → r.2 = None) →
  now_holds e (writeSlot e slot r.1 r.2) (<[id := (r, default None (e_slotToKey e !! slot))]> (c_contents e)).
Proof.
  intros Hok Hid Hlen Hleft. pose proof (index_bound _ _ _ Hok Hid) as Hs.
  assert (Hcl : length r.1 = length (e_columns e)) by (rewrite Hlen; apply length_fmap).
  pose proof (write_schema slot _ _ Hcl) as Hschema.
  unfold now_holds. cbn [engine_ok contents encode document check_updates columnar_model].
  change (e_schema (writeSlot e slot r.1 r.2))
    with (c_decl <$> zip_with (write_cell slot) (e_columns e) r.1).
  rewrite Hschema. split_and!; try done.
  - split; simpl; try apply Hok.
    + apply write_lengths, Hok.
    + intros Hm. rewrite Hm, length_insert. by apply (ok_left _ Hok).
  - apply map_eq. intros i. unfold c_contents. rewrite lookup_fmap. simpl.
    destruct (decide (i = id)) as [->|Hne].
    + rewrite Hid, lookup_insert_eq. simpl. f_equal. unfold slot_record, slot_cells, leftoverAt. simpl.
      rewrite (write_cells slot slot _ _ (length (e_live e))), decide_True by (try done; apply Hok).
      f_equal. destruct r as [cells leftover]. simpl in *. f_equal. destruct (e_mapBacked e) eqn:Hm.
      * rewrite list_lookup_insert_eq; [done|]. by rewrite (ok_left _ Hok Hm).
      * by rewrite Hleft.
    + rewrite lookup_insert_ne, lookup_fmap by done. destruct (e_idToSlot e !! i) as [s|] eqn:Hi; [|done].
      simpl. f_equal. assert (Hne' : s ≠ slot) by (intros ->; by apply Hne, (index_inj e i id slot)).
      unfold slot_record, slot_cells, leftoverAt. simpl.
      rewrite (write_cells slot s _ _ (length (e_live e))), decide_False by (try done; apply Hok).
      destruct (e_mapBacked e); [|done]. by rewrite list_lookup_insert_ne.
Qed.

Lemma c_exists_contents e id : columnar_ok e → c_exists e id = bool_decide (is_Some (c_contents e !! id)).
Proof.
  intros Hok. unfold c_contents. rewrite lookup_fmap. unfold c_exists.
  destruct (e_idToSlot e !! id) as [slot|] eqn:E; simpl; [|done].
  apply (ok_slots _ Hok) in E as [Hl _]. by rewrite (proj2 (is_live_Some e slot) Hl).
Qed.

(** ** Deletion *)

(** The engine after a slot has been freed and its identifier forgotten. *)
Definition forgotten (e : columnarEngine) (id : string) (slot : nat) : columnarEngine :=
  let e := freeSlot e slot in
  mkColumnar (e_collection e) (e_columns e) (delete id (e_idToSlot e)) (e_slotToID e)
    (e_slotToKey e) (e_live e) (e_freeList e) (e_deadCount e) (e_refBreak e) (e_mapBacked e) (e_leftover e).

Lemma free_schema slot (cols : list column) :
  c_decl <$> ((λ c, write_cell slot c (zero_value (c_type c))) <$> cols)
  = c_decl <$> cols.
Proof. by rewrite <- list_fmap_compose. Qed.

Lemma forgotten_holds e id slot :
  columnar_ok e → e_idToSlot e !! id = Some slot →
  now_holds e (forgotten e id slot) (delete id (c_contents e)).
Proof.
  intros Hok Hid. pose proof (proj1 (ok_slots _ Hok id slot) Hid) as [Hlive Hname].
  pose proof (index_bound _ _ _ Hok Hid) as Hlt.
  unfold now_holds. cbn [engine_ok contents encode document check_updates columnar_model].
  assert (Hschema : e_schema (forgotten e id slot) = e_schema e) by apply free_schema.
  rewrite Hschema. cbn [forgotten freeSlot e_mapBacked e_refBreak]. split_and!; try done.
  - split; simpl; rewrite ?length_insert.
    + apply Hok.
    + apply Hok.
    + apply Forall_fmap. eapply Forall_impl; [apply (ok_cols _ Hok)|]. intros c Hc. simpl in *.
      by rewrite length_insert.
    + intros Hm. rewrite Hm, length_insert. by apply (ok_left _ Hok).
    + intros i s. rewrite !list_lookup_insert, (ok_ids _ Hok).
      destruct (decide (slot = s ∧ slot < length (e_live e))) as [[<- _]|Hn].
      * split; [|naive_solver]. intros [Hne Hi]%lookup_delete_Some.
        exfalso. apply Hne. by apply (index_inj e id i slot).
      * rewrite lookup_delete_Some, (ok_slots _ Hok). split; [naive_solver|].
        intros [Hl Hi]. split; [|done]. intros <-. apply Hn. split; [|done].
        assert (e_idToSlot e !! id = Some s) by by apply (ok_slots _ Hok). congruence.
    + apply NoDup_app. split_and!; [apply Hok| |by repeat constructor; set_solver].
      intros s Hs ->%list_elem_of_singleton. apply (ok_free _ Hok) in Hs. congruence.
    + intros s. rewrite elem_of_app, list_elem_of_singleton, (ok_free _ Hok), list_lookup_insert.
      destruct (decide (slot = s ∧ slot < length (e_live e))) as [[<- _]|Hn]; naive_solver.
    + rewrite length_app, (ok_dead _ Hok). simpl. lia.
  - apply map_eq. intros i. unfold c_contents. rewrite lookup_fmap. simpl.
    destruct (decide (i = id)) as [->|Hne]; [by rewrite !lookup_delete_eq|].
    rewrite !lookup_delete_ne, lookup_fmap by done. destruct (e_idToSlot e !! i) as [s|] eqn:Hi; [|done].
    simpl. f_equal. assert (Hs : slot ≠ s) by (intros ->; by apply Hne, (index_inj e i id s)).
    unfold slot_record, slot_cells, leftoverAt. simpl. rewrite list_lookup_insert_ne by done.
    rewrite <- list_fmap_compose. do 2 f_equal.
    + apply list_fmap_ext. intros _ c _. simpl. by rewrite list_lookup_insert_ne.
    + destruct (e_mapBacked e); [|done]. by rewrite list_lookup_insert_ne.
Qed.

(** ** Compaction *)

Lemma fold_index (ids : list string) (m : gmap string nat) off i n :
  NoDup ids →
  fold_left (λ m p, <[p.1 := p.2]> m) (zip ids (seq off (length ids))) m !! i = Some n ↔
  (∃ j, n = off + j ∧ ids !! j = Some i) ∨ (i ∉ ids ∧ m !! i = Some n).
Proof.
  revert m off. induction ids as [|k ids IH]; intros m off Hnd; simpl.
  { split; [intros Hm; right; split; [set_solver|done]|]. by intros [(j & _ & ?)|[_ ?]]. }
  apply NoDup_cons in Hnd as [Hk Hnd]. rewrite IH by done. split.
  - intros [(j & -> & Hj)|[Hi Hm]]; [left; exists (S j); simpl; split; [lia|done]|].
    apply lookup_insert_Some in Hm as [[-> ->]|[Hne Hm]]; [left; exists 0; simpl; split; [lia|done]|].
    right. split; [set_solver|done].
  - intros [([|j] & -> & Hj)|[Hi Hm]]; simpl in *.
    + simplify_eq. right. split; [done|]. rewrite lookup_insert_eq. f_equal. lia.
    + left. exists j. split; [lia|done].
    + right. split; [set_solver|]. rewrite lookup_insert_ne; [done|set_solver].
Qed.

Lemma liveSlots_elem e s : s ∈ liveSlots e ↔ e_live e !! s = Some true.
Proof.
  unfold liveSlots. rewrite list_elem_of_In, filter_In, in_seq, is_live_Some. split; [by intros []|].
  intros Hs. pose proof (lookup_lt_Some _ _ _ Hs). split; [lia|done].
Qed.

Lemma liveSlots_NoDup e : NoDup (liveSlots e).
Proof.
  unfold liveSlots. generalize 0 as off. generalize (length (e_live e)) as n.
  induction n as [|n IH]; intros off; simpl; [constructor|].
  destruct (is_live e off); [|apply IH]. constructor; [|apply IH].
  rewrite list_elem_of_In, filter_In, in_seq. lia.
Qed.

Lemma gather_lookup {A} (d : A) slots (l : list A) n :
  gather d slots l !! n = (λ s, default d (l !! s)) <$> slots !! n.
Proof. unfold gather. by rewrite list_lookup_fmap. Qed.

Lemma gather_Some {A} (d : A) slots (l : list A) n s :
  slots !! n = Some s → gather d slots l !! n = Some (default d (l !! s)).
Proof. intros Hs. by rewrite gather_lookup, Hs. Qed.

Lemma live_ids_lookup e n i :
  columnar_ok e →
  gather "" (liveSlots e) (e_slotToID e) !! n = Some i ↔
  ∃ s, liveSlots e !! n = Some s ∧ e_idToSlot e !! i = Some s.
Proof.
  intros Hok. rewrite gather_lookup, fmap_Some. split.
  - intros (s & Hs & ->). exists s. split; [done|]. apply (ok_slots _ Hok).
    assert (Hl : e_live e !! s = Some true) by (apply liveSlots_elem; by apply list_elem_of_lookup_2 in Hs).
    split; [done|]. destruct (e_slotToID e !! s) eqn:E; [done|]. apply lookup_ge_None in E.
    apply lookup_lt_Some in Hl. rewrite (ok_ids _ Hok) in E. lia.
  - intros (s & Hs & [_ Hi]%(ok_slots _ Hok)). exists s. by rewrite Hi.
Qed.

Lemma live_ids_NoDup e : columnar_ok e → NoDup (gather "" (liveSlots e) (e_slotToID e)).
Proof.
  intros Hok. apply NoDup_alt. intros n n' i Hn Hn'.
  apply live_ids_lookup in Hn as (s & Hs & Hi), Hn' as (s' & Hs' & Hi'); [|done..].
  eapply NoDup_lookup; [apply liveSlots_NoDup|exact Hs|]. congruence.
Qed.

(** The index after a compaction. *)
Lemma compact_index e i n :
  columnar_ok e →
  e_idToSlot (compact e) !! i = Some n ↔
  ∃ s, liveSlots e !! n = Some s ∧ e_idToSlot e !! i = Some s.
Proof.
  intros Hok. unfold compact. simpl.
  pose proof (fold_index (gather "" (liveSlots e) (e_slotToID e)) (e_idToSlot e) 0 i n (live_ids_NoDup e Hok)) as Hf.
  unfold gather in Hf at 2. rewrite length_fmap in Hf. rewrite Hf, <- live_ids_lookup by done. split.
  - intros [(j & -> & Hj)|[Hn Hi]]; [done|]. exfalso. apply Hn.
    pose proof (proj1 (ok_slots _ Hok _ _) Hi) as [Hl _].
    apply liveSlots_elem, list_elem_of_lookup in Hl as (j & Hj).
    apply list_elem_of_lookup. exists j. apply live_ids_lookup; [done|]. by exists n.
  - intros Hn. left. by exists n.
Qed.

Lemma compact_holds e : columnar_ok e → now_holds e (compact e) (c_contents e).
Proof.
  intros Hok. unfold now_holds. cbn [engine_ok contents encode document check_updates columnar_model].
  assert (Hschema : e_schema (compact e) = e_schema e).
  { unfold e_schema, compact. simpl. by rewrite <- list_fmap_compose. }
  assert (Hlen : ∀ A (d : A) l, length (gather d (liveSlots e) l) = length (liveSlots e))
    by (intros; apply length_fmap).
  assert (Hlive : ∀ n, gather false (liveSlots e) (e_live e) !! n = (λ _, true) <$> liveSlots e !! n).
  { intros n. rewrite gather_lookup. destruct (liveSlots e !! n) as [s|] eqn:Hs; [|done]. simpl.
    apply list_elem_of_lookup_2, liveSlots_elem in Hs. by rewrite Hs. }
  rewrite Hschema. split_and!; try done.
  - split.
    + cbn. by rewrite !Hlen.
    + cbn. by rewrite !Hlen.
    + cbn. apply Forall_fmap, Forall_true. intros c. simpl. by rewrite !Hlen.
    + cbn. intros ->. by rewrite !Hlen.
    + intros i n. rewrite compact_index by done. rewrite <- live_ids_lookup by done. cbn.
      rewrite Hlive, live_ids_lookup by done. split; [|by intros []].
      intros (s & Hs & Hi). rewrite Hs. split; [done|by exists s].
    + constructor.
    + intros n. cbn. rewrite Hlive. split; [set_solver|]. by destruct (liveSlots e !! n).
    + done.
  - apply map_eq. intros i. unfold c_contents. rewrite !lookup_fmap.
    destruct (e_idToSlot e !! i) as [s|] eqn:Hi.
    + pose proof (proj1 (ok_slots _ Hok _ _) Hi) as [Hl _].
      apply liveSlots_elem, list_elem_of_lookup in Hl as (n & Hn).
      rewrite (proj2 (compact_index e i n Hok)) by (by exists s). simpl. f_equal.
      unfold slot_record, slot_cells, leftoverAt. cbn. rewrite (gather_Some _ _ _ n s) by done.
      simpl. do 2 f_equal.
      * rewrite <- list_fmap_compose. apply list_fmap_ext. intros _ c _. simpl. by rewrite (gather_Some _ _ _ n s).
      * destruct (e_mapBacked e); [|done]. by rewrite (gather_Some _ _ _ n s).
    + destruct (e_idToSlot (compact e) !! i) as [n|] eqn:Hn; [|done].
      apply compact_index in Hn as (s & _ & Hs); [congruence|done].
Qed.

Lemma now_holds_trans e e1 e2 m m2 :
  now_holds e e1 m → now_holds e1 e2 m2 → now_holds e e2 m2.
Proof.
  intros (? & ? & E1 & E2 & E3) (? & ? & F1 & F2 & F3). unfold now_holds.
  split_and!; [done|done|..]; congruence.
Qed.

Lemma maybeCompact_holds e : columnar_ok e → now_holds e (maybeCompact e) (c_contents e).
Proof.
  intros Hok. unfold maybeCompact. repeat case_match; try (by split_and!).
  by apply compact_holds.
Qed.

(** ** The contract *)

Lemma sorted_strings_perm l : sorted_strings l ≡ₚ l.
Proof. apply stable_sort_perm. Qed.

Lemma c_rows_spec e :
  columnar_ok e → ∃ l, l ≡ₚ map_to_list (c_contents e) ∧ c_rows e = traverse (λ _ x, row_of e x.1 x.2) l.
Proof.
  intros Hok. set (record_of id := (id, slot_record e (default 0 (e_idToSlot e !! id)))).
  exists (record_of <$> sorted_strings (map_to_list (e_idToSlot e)).*1). split.
  - rewrite sorted_strings_perm, <- list_fmap_compose. unfold c_contents. rewrite map_to_list_fmap.
    apply reflexive_eq, list_fmap_ext. intros j [id slot] Hj. simpl. unfold record_of.
    apply list_elem_of_lookup_2, elem_of_map_to_list in Hj. by rewrite Hj.
  - symmetry. apply traverse_from_map. intros j id _. done.
Qed.

Lemma rekey_holds f e : columnar_ok e → now_holds e (c_rekey f e) (with_keys f <$> c_contents e).
Proof.
  intros Hok. unfold now_holds. cbn. split_and!; [| |done..].
  - destruct Hok. split; try done. cbn. by rewrite length_fmap.
  - unfold c_contents. rewrite <- map_fmap_compose. apply map_fmap_ext. intros i slot _.
    unfold slot_record, with_keys. cbn. f_equal. rewrite list_lookup_fmap. by destruct (e_slotToKey e !! slot).
Qed.

(** The columnar engine keeps the contract of a storage engine: with its
    slots, free list and compaction it holds the same map of records that a
    plain map would. *)
Lemma columnar_engine_contract : EngineLaws columnarEngine (list value * option row_map).
Proof.
  split.
  - intros e id Hok. by apply c_exists_contents.
  - intros e id k data Hok Hid. cbn. unfold c_store. rewrite c_exists_contents by done.
    by rewrite bool_decide_eq_true_2.
  - intros e id k data overwrite Hok Hor. cbn. unfold c_store.
    assert (negb overwrite && c_exists e id = false) as ->.
    { destruct Hor as [->|Hnone]; [done|]. rewrite c_exists_contents, bool_decide_eq_false_2; [apply andb_false_r| |done].
      cbn in Hnone. rewrite Hnone. by intros []. }
    destruct (prepareWrite (e_schema e) (e_refBreak e) (e_mapBacked e) data) as [r| |] eqn:Hp; cbn; [|done..].
    apply prepareWrite_length in Hp as [Hlen Hleft]. pose proof (allocSlot_allocated e id Hok) as Hal.
    destruct (allocSlot e id) as [e' slot]. eexists. split; [done|]. by apply write_allocated.
  - intros e id target Hok. cbn. unfold c_load. rewrite live_slot_index by done. unfold c_contents.
    rewrite lookup_fmap. by destruct (e_idToSlot e !! id).
  - intros e id Hok. cbn. unfold c_delete. rewrite live_slot_index by done.
    destruct (e_idToSlot e !! id) as [slot|] eqn:Hid.
    + pose proof (forgotten_holds e id slot Hok Hid) as Hf. pose proof Hf as (Hok' & Hc & _).
      apply (now_holds_trans _ _ _ _ _ Hf). rewrite <- Hc. by apply maybeCompact_holds.
    + unfold now_holds. cbn. split_and!; try done. symmetry. apply delete_id. unfold c_contents.
      by rewrite lookup_fmap, Hid.
  - intros e id us Hok Hid. cbn in *. unfold c_update. rewrite live_slot_index by done.
    unfold c_contents in Hid. rewrite lookup_fmap, fmap_None in Hid. by rewrite Hid.
  - intros e id us r Hok Hr. cbn in *. unfold c_update, updated. cbn. rewrite live_slot_index by done.
    unfold c_contents in Hr. rewrite lookup_fmap in Hr.
    destruct (e_idToSlot e !! id) as [slot|] eqn:Hid; simpl in Hr; [|done]. injection Hr as <-. simpl.
    unfold slot_document. destruct (cells_document _ _) as [b| |]; cbn; [|done..].
    destruct (unmarshal_map b) as [current|]; [|done].
    destruct (check_field_names _ _ us) as [[]| |]; cbn; [|done..].
    destruct (applyUpdatesToMap current us) as [current'| |]; cbn; [|done..].
    destruct (prepareWrite _ _ _ _) as [w| |] eqn:Hp; cbn; [|done..].
    apply prepareWrite_length in Hp as [Hlen Hleft]. eexists. split; [done|]. by apply write_existing.
  - intros e Hok. by apply c_rows_spec.
  - intros f e. apply rekey_holds.
Qed.
End Laws.
