(* ===== verification/MemoryIndex.v ===== *)
(** * Queries through the equality index of columnar collections
    (src/adapters/dalgo2memory: strategy.go, columnar.go, join.go)

    A query [WHERE field == constant] reads only the rows whose cell equals the
    constant.  That gives the result of a full scan when the cells have the
    types that JSON values are read as; for other types the comparison of the
    index and that of the condition differ. *)

From Stdlib Require Import String SpecFloat Sorted.
From stdpp Require Import base gmap sets list strings sorting.
From S2P Require Import Prelude StableSort GoValues GoTypes GoMaps GoStrings GoJSON RecordKey DalQuery DalString.
From S2P Require Import MemoryRows MemoryQuery MemoryOrder MemoryResults MemoryUpdate MemoryEngine.
From S2P Require Import MemoryColumnar MemoryColumnarLaws.

Local Open Scope string_scope.
Local Open Scope nat_scope.
Local Open Scope list_scope.

(** Booleans, strings and float64 numbers as they are read from JSON. *)
Definition json_scalar (v : value) : bool :=
  match v with VBool _ _ | VString _ _ | VFloat _ _ _ => json_value v | _ => false end.

(** [==] on two of them, which never panics. *)
Definition scalar_eq (a b : value) : bool := default false (iface_eq a b).

Lemma scalar_go_eq a b : json_scalar a = true → json_scalar b = true → go_eq a b = Ret (scalar_eq a b).
Proof. unfold go_eq, scalar_eq. by destruct a, b. Qed.

Lemma scalar_comparable v : json_scalar v = true → type_comparable v = true.
Proof. by destruct v. Qed.

Lemma scalar_json_value v : json_scalar v = true → json_value v = true.
Proof. by destruct v. Qed.

(** ** Lists of slots and identifiers *)

Lemma filter_slots_Ret (f : nat → res mem_error bool) (g : nat → bool) l :
  (∀ s, s ∈ l → f s = Ret (g s)) → filter_slots f l = Ret (List.filter g l).
Proof.
  induction l as [|s l IH]; intros Hf; simpl; [done|]. rewrite Hf by set_solver. simpl.
  rewrite IH by set_solver. simpl. by destruct (g s).
Qed.

Lemma filter_bool_sorted {A} (R : relation A) (f : A → bool) l :
  StronglySorted R l → StronglySorted R (List.filter f l).
Proof.
  induction 1 as [|x l Hs IH Hx]; simpl; [constructor|]. destruct (f x); [|done].
  constructor; [done|]. rewrite Forall_forall in *. intros y [Hy _]%filter_bool_elem. by apply Hx.
Qed.

Lemma filtered_NoDup {A} (f : A → bool) l : NoDup l → NoDup (List.filter f l).
Proof.
  intros Hnd. rewrite <- (list_fmap_id (List.filter f l)). apply filter_bool_NoDup. by rewrite list_fmap_id.
Qed.

Lemma sorted_strings_filter P l sub :
  NoDup l → sub ≡ₚ List.filter P l → sorted_strings sub = List.filter P (sorted_strings l).
Proof.
  intros Hnd Hsub. unfold sorted_strings.
  assert (Hl : NoDup (id <$> l)) by by rewrite list_fmap_id.
  assert (Hs : NoDup (id <$> sub)).
  { rewrite Hsub. by apply (filter_bool_NoDup id). }
  apply (StronglySorted_unique_strong string_lt).
  - intros x y _ _ Hxy Hyx. exfalso. by eapply string_lt_asym.
  - by apply (stable_sort_keys id).
  - by apply filter_bool_sorted, (stable_sort_keys id).
  - rewrite stable_sort_perm, Hsub. apply filter_bool_perm. by rewrite stable_sort_perm.
Qed.

Lemma traverse_filter {A B} (f : A → res mem_error B) (P : A → bool) (m : B → bool) l i j ys :
  traverse_from (λ _, f) i l = Ret ys →
  (∀ x y, x ∈ l → f x = Ret y → m y = true → P x = true) →
  ∃ zs, traverse_from (λ _, f) j (List.filter P l) = Ret zs ∧ List.filter m zs = List.filter m ys ∧
        ∀ z, z ∈ zs → z ∈ ys.
Proof.
  revert i j ys. induction l as [|x l IH]; intros i j ys; simpl.
  { intros [= <-] _. by exists []. }
  intros (y & Hy & (ys' & Hys & [= <-])%rbind_Ret)%rbind_Ret HP.
  destruct (P x) eqn:Hx; simpl.
  - destruct (IH (S i) (S j) ys' Hys) as (zs & Hzs & Hm & Hin); [set_solver|].
    rewrite Hy. simpl. rewrite Hzs. simpl. eexists. split; [done|]. simpl. split; [by rewrite Hm|set_solver].
  - destruct (IH (S i) j ys' Hys) as (zs & Hzs & Hm & Hin); [set_solver|].
    exists zs. split; [done|]. split; [|set_solver]. rewrite Hm. simpl.
    destruct (m y) eqn:Hmy; [|done]. rewrite (HP x y) in Hx by (done || set_solver). done.
Qed.

Lemma assoc_map_snd {A B} (f : A → B) (l : list (string * A)) k :
  assoc k (map (λ kv, (kv.1, f kv.2)) l) = f <$> assoc k l.
Proof. induction l as [|[k' x] l IH]; simpl; [done|]. by destruct (String.eqb k k'). Qed.

Lemma opt_all_assoc {A B} (f : A → option B) (l : list (string * A)) js :
  opt_all (λ kv : string * A, pair kv.1 <$> f kv.2) l = Some js →
  js.*1 = l.*1 ∧ ∀ k, assoc k js = match assoc k l with Some x => f x | None => None end.
Proof.
  revert js. induction l as [|[k' x] l IH]; intros js; simpl; [by intros [= <-]|].
  destruct (f x) as [y|] eqn:Hy; simpl; [|done]. destruct (opt_all _ l) as [js'|]; [|done].
  intros [= <-]. destruct (IH js' eq_refl) as [Hk Ha]. split; [by csimpl; f_equal|]. simpl.
  intros k. rewrite Ha. by destruct (String.eqb k k').
Qed.

Lemma last_filter_app {A} (f : A → bool) l x :
  last (List.filter f (l ++ [x])) = if f x then Some x else last (List.filter f l).
Proof.
  rewrite List.filter_app. simpl. destruct (f x); [by rewrite last_snoc|by rewrite app_nil_r].
Qed.

Section Index.
Context `{GoFmt, RecordKeys, GoJSON, Reflect, Decoders}.
Context (e : columnarEngine) (c : column) (v : value).

Definition cell (slot : nat) : value := default (zero_value (c_type c)) (c_values c !! slot).

(** The slot of an identifier holds a cell that equals the constant. *)
Definition selects (id : string) : bool :=
  match e_idToSlot e !! id with Some slot => scalar_eq (cell slot) v | None => false end.

Context (Hok : columnar_ok e) (Hc : c ∈ e_columns e) (Hcmp : strategy_comparable (c_type c) = true).
Context (Hindexed : d_indexed (c_decl c) = true).
Context (Hcells : Forall (λ x, json_scalar x = true) (c_values c)) (Hv : json_scalar v = true).

Lemma cell_scalar slot : slot < length (c_values c) → json_scalar (cell slot) = true.
Proof.
  intros Hs. unfold cell. destruct (lookup_lt_is_Some_2 _ _ Hs) as [x Hx]. rewrite Hx. simpl.
  rewrite Forall_lookup in Hcells. by eapply Hcells.
Qed.

Lemma EqualSlots_Ret :
  EqualSlots e c v =
  Ret (Some (List.filter (λ s, is_live e s && scalar_eq (cell s) v) (seq 0 (length (c_values c))))).
Proof.
  unfold EqualSlots, strategy_cells. rewrite Hcmp, Hindexed. simpl.
  rewrite (filter_slots_Ret _ (λ s, is_live e s && scalar_eq (cell s) v)); [done|].
  intros s Hs. destruct (is_live e s); [|done]. simpl.
  assert (json_scalar (cell s) = true) as Hcell by (apply cell_scalar; apply elem_of_seq in Hs; lia).
  unfold valuesEqualForStrategy. fold (cell s). rewrite scalar_comparable, scalar_go_eq by done.
  by destruct v.
Qed.

Definition index_ids : list string :=
  (λ s, default "" (e_slotToID e !! s)) <$>
    List.filter (λ s, is_live e s && scalar_eq (cell s) v) (seq 0 (length (c_values c))).

Lemma index_ids_perm : index_ids ≡ₚ List.filter selects (map_to_list (e_idToSlot e)).*1.
Proof.
  assert (Hlen : length (c_values c) = length (e_live e)).
  { pose proof (ok_cols e Hok) as Hcols. rewrite Forall_forall in Hcols. by apply Hcols. }
  assert (Hslot : ∀ s, s ∈ List.filter (λ s, is_live e s && scalar_eq (cell s) v) (seq 0 (length (c_values c))) ↔
    ∃ id, e_idToSlot e !! id = Some s ∧ e_slotToID e !! s = Some id ∧ scalar_eq (cell s) v = true).
  { intros s. rewrite filter_bool_elem, andb_true_iff, is_live_Some. split.
    - intros (_ & Hl & Heq). pose proof (lookup_lt_Some _ _ _ Hl) as Hlt.
      rewrite <- (ok_ids e Hok) in Hlt. destruct (lookup_lt_is_Some_2 _ _ Hlt) as [id Hid].
      exists id. split; [|done]. by apply (ok_slots e Hok).
    - intros (id & Hid & _ & Heq). pose proof (proj1 (ok_slots e Hok id s) Hid) as [Hl _].
      split; [|done]. apply elem_of_seq. pose proof (lookup_lt_Some _ _ _ Hl). lia. }
  apply NoDup_Permutation.
  - unfold index_ids. apply NoDup_fmap_2_strong.
    + intros s s' (id & Hid & Hs & _)%Hslot (id' & Hid' & Hs' & _)%Hslot. rewrite Hs, Hs'. simpl.
      intros ->. congruence.
    + apply filtered_NoDup, NoDup_seq.
  - apply filtered_NoDup, NoDup_fst_map_to_list.
  - intros id. unfold index_ids. rewrite list_elem_of_fmap, filter_bool_elem.
    assert (id ∈ (map_to_list (e_idToSlot e)).*1 ↔ is_Some (e_idToSlot e !! id)) as ->.
    { rewrite list_elem_of_fmap. split.
      - intros ([i s] & -> & Hi%elem_of_map_to_list). by exists s.
      - intros [s Hs]. exists (id, s). split; [done|]. by apply elem_of_map_to_list. }
    unfold selects. split.
    + intros (s & -> & (i & Hi & Hs & Heq)%Hslot). rewrite Hs. simpl. rewrite Hi. split; [by eexists|done].
    + intros [[s Hs] Heq]. rewrite Hs in Heq. exists s.
      pose proof (proj1 (ok_slots e Hok id s) Hs) as [_ Hid]. rewrite Hid. split; [done|].
      apply Hslot. by exists id.
Qed.

Context (name : string) (Hnamed : column_named (e_columns e) name = Some c).
Context (source : string) (isID : bool).
Notation condition := (Comparison Equal (FieldRef source name isID) (Constant v)).

Lemma candidateRows_Ret :
  candidateRows e (Some condition) =
  (do rs <- buildRows e (List.filter selects (sorted_strings (map_to_list (e_idToSlot e)).*1)); Ret (Some rs)).
Proof.
  unfold candidateRows, candidateSlots. simpl. rewrite Hnamed, EqualSlots_Ret. simpl.
  assert (List.filter (is_live e) (List.filter (λ s, is_live e s && scalar_eq (cell s) v) (seq 0 (length (c_values c))))
    = List.filter (λ s, is_live e s && scalar_eq (cell s) v) (seq 0 (length (c_values c)))) as ->.
  { induction (seq _ _) as [|s l IH]; simpl; [done|]. destruct (is_live e s) eqn:Hl; simpl; [|done].
    destruct (scalar_eq (cell s) v); simpl; [rewrite Hl; by f_equal|done]. }
  fold index_ids. rewrite (sorted_strings_filter selects (map_to_list (e_idToSlot e)).*1); [done| |].
  - apply NoDup_fst_map_to_list.
  - apply index_ids_perm.
Qed.

(** ** The row of a slot shows its cell *)

Lemma assoc_last_named (f : column → value) (cols : list column) k :
  assoc k (rev (zip (c_name <$> cols) (f <$> cols))) = f <$> column_named cols k.
Proof.
  unfold column_named. induction cols as [|c' cols IH] using rev_ind; simpl; [done|].
  rewrite !fmap_app, zip_with_app, rev_app_distr, last_filter_app by by rewrite !length_fmap. simpl.
  rewrite String.eqb_sym. by destruct (String.eqb (c_name c') k).
Qed.

Definition row_at (id : string) : res mem_error memoryRow :=
  let slot := default 0 (e_idToSlot e !! id) in
  do b <- slot_document e slot;
  match unmarshal_map b with
  | None => Fail json_error
  | Some data => Ret (mkRow id (default [] data) b (default None (e_slotToKey e !! slot)))
  end.

(** JSON values have the methods of no type: neither the maps of the program. *)
Context (Hjson : no_json_methods) (Hmaps : ∀ l, method_MarshalJSON (vmap l) = None).

Lemma marshalled_field l b name' x :
  well_keyed l → marshal (vmap l) = Some b → assoc name' l = Some x → json_scalar x = true →
  ∃ data, unmarshal_map b = Some (Some data) ∧ assoc name' data = Some x.
Proof.
  intros Hwk Hb Hx Hsc. unfold vmap in Hb. simpl in Hb. fold (vmap l) in Hb. rewrite Hmaps in Hb.
  apply fmap_Some in Hb as (js & Hjs & ->). simpl.
  destruct (opt_all_assoc marshal l js Hjs) as [Hkeys Hassoc].
  eexists. split; [done|]. rewrite map_of_map, map_of_involutive, assoc_map_snd.
  unfold map_of. rewrite assoc_map_copy, assoc_rev by (rewrite Hkeys; by apply well_keyed_NoDup).
  rewrite Hassoc, Hx. destruct (json_roundtrip x Hjson) as (j & -> & Hj); [by apply scalar_json_value|].
  simpl. by rewrite Hj.
Qed.

Lemma row_field id slot row :
  e_idToSlot e !! id = Some slot → row_at id = Ret row → get (row_data row) name = cell slot.
Proof.
  intros Hid Hrow. unfold row_at in Hrow. rewrite Hid in Hrow. simpl in Hrow.
  apply rbind_Ret in Hrow as (b & Hb & Hrow). unfold slot_document, cells_document, marshal_res in Hb.
  destruct (marshal _) as [b'|] eqn:Hm in Hb; [|done]. injection Hb as ->.
  assert (Hlt : slot < length (c_values c)).
  { pose proof (ok_cols e Hok) as Hcols. rewrite Forall_forall in Hcols. rewrite (Hcols c Hc).
    pose proof (proj1 (ok_slots e Hok id slot) Hid) as [Hl _]. by eapply lookup_lt_Some. }
  destruct (marshalled_field _ b name (cell slot)
    (map_copy_well_keyed _ _ (map_of_well_keyed _)) Hm) as (data & Hd & Hx).
  - rewrite assoc_map_copy. unfold e_schema, slot_cells. rewrite <- list_fmap_compose. simpl.
    change ((d_name ∘ c_decl) <$> e_columns e) with (c_name <$> e_columns e).
    rewrite assoc_last_named, Hnamed. done.
  - by apply cell_scalar.
  - rewrite Hd in Hrow. injection Hrow as <-. simpl. unfold get. by rewrite Hx.
Qed.

(** ** The condition is the test of the index *)

Lemma normalize_scalar : normalizeConstant v = v.
Proof.
  unfold normalizeConstant. destruct (json_roundtrip v Hjson) as (j & -> & Hj); [by apply scalar_json_value|done].
Qed.

Lemma condition_selects id row :
  id ∈ sorted_strings (map_to_list (e_idToSlot e)).*1 → row_at id = Ret row →
  matchesWhere (row_data row) (Some condition) = Ret (selects id).
Proof.
  rewrite sorted_strings_perm, list_elem_of_fmap. intros ([id' slot] & -> & Hid%elem_of_map_to_list) Hrow. simpl in *.
  unfold matchesWhere. simpl. rewrite normalize_scalar, (row_field id' slot row Hid Hrow).
  unfold selects. rewrite Hid. apply scalar_go_eq; [|done]. apply cell_scalar.
  pose proof (ok_cols e Hok) as Hcols. rewrite Forall_forall in Hcols. rewrite (Hcols c Hc).
  pose proof (proj1 (ok_slots e Hok id' slot) Hid) as [Hl _]. by eapply lookup_lt_Some.
Qed.

Lemma index_rows parent all :
  c_rows e = Ret all →
  ∃ cand, candidateRows e (Some condition) = Ret (Some cand) ∧
    List.filter (row_matches (Some condition) parent) cand = List.filter (row_matches (Some condition) parent) all ∧
    evaluates (Some condition) all ∧ evaluates (Some condition) cand.
Proof.
  intros Hall. rewrite candidateRows_Ret. unfold c_rows, buildRows, traverse in *.
  set (ids := sorted_strings (map_to_list (e_idToSlot e)).*1) in *.
  assert (Hsel : ∀ id row, id ∈ ids → row_at id = Ret row →
    matchesWhere (row_data row) (Some condition) = Ret (selects id)) by apply condition_selects.
  destruct (traverse_filter row_at selects (row_matches (Some condition) parent) ids 0 0 all Hall)
    as (cand & Hcand & Hm & Hin).
  { intros id row Hid Hrow. unfold row_matches. rewrite (Hsel id row Hid Hrow).
    by destruct (selects id). }
  exists cand. unfold row_at in Hcand. rewrite Hcand. split; [done|]. split; [done|].
  assert (Hev : evaluates (Some condition) all).
  { intros row Hrow. pose proof (traverse_from_Forall2 _ _ _ _ Hall) as HF.
    apply list_elem_of_lookup in Hrow as [i Hi]. destruct (Forall2_lookup_r _ _ _ _ _ HF Hi) as (id & Hid & j & Hj).
    exists (selects id). apply (Hsel id row); [by apply list_elem_of_lookup_2 in Hid|exact Hj]. }
  split; [done|]. intros row Hrow. apply Hev. by apply Hin.
Qed.
End Index.

Lemma column_named_elem (cols : list column) name c : column_named cols name = Some c → c ∈ cols.
Proof.
  unfold column_named. intros Hl. apply last_Some in Hl as [l' Hl].
  assert (c ∈ List.filter (λ c0, String.eqb (c_name c0) name) cols) as [Hin _]%filter_bool_elem; [|done].
  rewrite Hl. set_solver.
Qed.

Section Queries.
Context `{GoFmt, RecordKeys, GoJSON, Reflect, Decoders}.
Context (NewKeyWithID : string → string → key).

(** A query without grouping only depends on the rows that match. *)
Lemma executeQuery_same_matches q base factory rows rows' :
  grouped q = false →
  validateOrderSources (q_orderBy q) (known_base base) = Ret tt →
  validateColumns (q_columns q) (known_base base) = Ret tt →
  evaluates (q_where q) rows → evaluates (q_where q) rows' →
  List.filter (row_matches (q_where q) (base_parent base)) rows
  = List.filter (row_matches (q_where q) (base_parent base)) rows' →
  executeQuery NewKeyWithID Unmarshal_into q base factory rows
  = executeQuery NewKeyWithID Unmarshal_into q base factory rows'.
Proof.
  intros Hg Hs Hcols Hev Hev' Hf.
  assert (Hgen : ∀ rs, evaluates (q_where q) rs →
    executeQuery NewKeyWithID Unmarshal_into q base factory rs
    = traverse (λ _ row, result_of NewKeyWithID Unmarshal_into q base factory row)
        (limited (q_limit q) (orderBySources (q_orderBy q) (sources_of base) row_id
           (List.filter (row_matches (q_where q) (base_parent base)) rs)))).
  { intros rs Hrs. destruct (decide (rs = [])) as [->|Hne].
    - simpl. unfold limited. change (orderBySources _ _ _ _) with (@nil memoryRow). by destruct (0 <? _)%Z; rewrite ?take_nil.
    - rewrite executeQuery_selected by done. by rewrite apply_limit_limited. }
  rewrite (Hgen rows), (Hgen rows') by done. by rewrite Hf.
Qed.

(** C16: a query [WHERE field == constant] on a columnar collection reads only
    the rows that the index of the column gives, and returns what a full scan
    would, when the column was declared once and holds strings, booleans or float64 numbers and the
    constant is one of those: in those types the index and the condition
    compare alike. *)
Theorem index_is_full_scan (e : columnarEngine) c name source isID v q base factory all
    (Hok : columnar_ok e) (Hnamed : column_named (e_columns e) name = Some c)
    (Hcmp : strategy_comparable (c_type c) = true) (Hindexed : d_indexed (c_decl c) = true)
    (Hcells : Forall (λ x, json_scalar x = true) (c_values c)) (Hv : json_scalar v = true)
    (Hjson : no_json_methods) (Hmaps : ∀ l, method_MarshalJSON (vmap l) = None)
    (Hwhere : q_where q = Some (Comparison Equal (FieldRef source name isID) (Constant v)))
    (Hplain : grouped q = false)
    (Hsources : validateOrderSources (q_orderBy q) (known_base base) = Ret tt)
    (Hcolumns : validateColumns (q_columns q) (known_base base) = Ret tt)
    (Hrows : c_rows e = Ret all) :
  ∃ candidates, candidateRows e (q_where q) = Ret (Some candidates) ∧
    executeQuery NewKeyWithID Unmarshal_into q base factory candidates
    = executeQuery NewKeyWithID Unmarshal_into q base factory all.
Proof.
  destruct (index_rows e c v Hok (column_named_elem _ _ _ Hnamed) Hcmp Hindexed Hcells Hv name Hnamed source isID
    Hjson Hmaps (base_parent base) all Hrows) as (cand & Hcand & Hf & Hev & Hev').
  rewrite <- Hwhere in *. exists cand. split; [done|]. by apply executeQuery_same_matches.
Qed.
End Queries.
