(* ===== verification/MemorySession.v ===== *)
(** * Sessions of the in-memory database
    (src/adapters/dalgo2memory: database.go, schema.go; src/dal/tx_inserter.go)

    The operations of a session, over any type of storage engine that keeps
    the contract of MemoryEngine.v.  A record is its key and the variable that
    its data is loaded into; an operation that fails has kept the changes it
    made before (there is no rollback).

    Keys are pointers, and engines keep the pointers that they are given, while
    an insert with an identifier generator assigns to [key.ID].  So a [key] is
    a pointer together with what its object holds now, and an assignment goes
    through everything that is kept: the stored keys ([rekey]) and the records
    that a batch has yet to insert. *)

From Stdlib Require Import String.
From stdpp Require Import base gmap sets list strings.
From S2P Require Import Prelude GoValues GoMaps GoStrings GoJSON RecordKey DalQuery DalString.
From S2P Require Import MemoryRows MemoryQuery MemoryUpdate MemoryEngine.

Local Open Scope string_scope.
Local Open Scope nat_scope.
Local Open Scope list_scope.

(** ** State and outcomes *)

Section SessionMonad.
Context {S : Type}.

(** An operation changes the state whether it fails or not. *)
Definition M (A : Type) : Type := S → S * res mem_error A.

Definition mret {A} (a : A) : M A := λ s, (s, Ret a).
Definition mfail {A} (e : mem_error) : M A := λ s, (s, Fail e).
Definition mbind {A B} (m : M A) (k : A → M B) : M B := λ s,
  match m s with
  | (s', Ret a) => k a s'
  | (s', Fail e) => (s', Fail e)
  | (s', Panic msg) => (s', Panic msg)
  end.
Definition mlift {A} (r : res mem_error A) : M A := λ s, (s, r).

(** [for _, x := range l { if err := f(x); err != nil { return err } }] *)
Fixpoint mseq {A} (f : A → M unit) (l : list A) : M unit :=
  match l with
  | [] => mret tt
  | x :: l' => mbind (f x) (λ _, mseq f l')
  end.
End SessionMonad.
Arguments M : clear implicits.

Notation "'mdo' x <- m ; k" := (mbind m (λ x, k))
  (at level 10, x binder, m at level 100, k at level 200) : dalgo_scope.

(** What [k.ID = id] does: the pointer [k] afterwards ([set_ID]), and any pointer
    [k'] afterwards ([seen]), which is [set_ID k id] if it points to the same
    object, a key under the new one if the object is among its parents, and
    [k'] itself otherwise. *)
Record key_objects `{RecordKeys} := mkObjects {
  set_ID : key → value → key;
  seen : key → value → key → key;
}.
Arguments mkObjects {_} _ _.

(** What a transaction remembers. *)
Record transactionState := mkTx { noReadsAfterWrites : bool; hasWritten : bool }.

Section Session.
Context `{GoFmt, RecordKeys, GoJSON, Decoders}.
Context {E : Type} `{StorageEngine E}.

(** The constructor of an engine: from the collection's name, what its record
    factory returns, and whether its reads must not share references. *)
Definition engineFactory : Type := string → option value → bool → E.

(** The registered collections: what their record factories return, and the
    constructors of their engines when one was chosen. *)
Record memorySchema := mkSchema {
  sc_collections : gmap string value;
  sc_engines : gmap string engineFactory;
  sc_allowUndefined : bool;
}.

(** The parts of the database that do not change. *)
Record config := mkConfig {
  db_schema : option memorySchema;
  db_noReadsAfterWritesInTransaction : bool;
  db_schemaRefBreaking : bool;
  serializedEngineFactory : engineFactory;
}.

Record state := mkState { db_collections : gmap string E; txState : option transactionState }.

Context (objects : key_objects).
Context (cfg : config).

(** ** schema.go *)

Definition recordFactory (collection : string) : res mem_error (option value) :=
  match db_schema cfg with
  | None => Ret None
  | Some schema =>
      match sc_collections schema !! collection with
      | Some factory => Ret (Some factory)
      | None => if sc_allowUndefined schema then Ret None else Fail (undefined_collection collection)
      end
  end.

Definition guardCollection (collection : string) : res mem_error unit :=
  do _ <- recordFactory collection; Ret tt.

Definition new_engine (collection : string) : E :=
  let factory := match recordFactory collection with Ret f => f | _ => None end in
  match db_schema cfg with
  | Some schema =>
      match sc_engines schema !! collection with
      | Some newEngine => newEngine collection factory (db_schemaRefBreaking cfg)
      | None => serializedEngineFactory cfg collection factory (db_schemaRefBreaking cfg)
      end
  | None => serializedEngineFactory cfg collection factory (db_schemaRefBreaking cfg)
  end.

(** The engine of a collection, created and registered on the first use. *)
Definition engine (collection : string) : M state E := λ s,
  match db_collections s !! collection with
  | Some e => (s, Ret e)
  | None =>
      let e := new_engine collection in
      (mkState (<[collection := e]> (db_collections s)) (txState s), Ret e)
  end.

(** An engine is an object: a change is visible in the database. *)
Definition put_engine (collection : string) (e : E) : M state unit := λ s,
  (mkState (<[collection := e]> (db_collections s)) (txState s), Ret tt).

(** ** database.go *)

Definition allowRead : M state unit := λ s,
  match txState s with
  | Some tx => if noReadsAfterWrites tx && hasWritten tx then (s, Fail read_after_write) else (s, Ret tt)
  | None => (s, Ret tt)
  end.

Definition markWrite : M state unit := λ s,
  (mkState (db_collections s) ((λ tx, mkTx (noReadsAfterWrites tx) true) <$> txState s), Ret tt).

(** The path of a key from its root; a key has [Level] ancestors. *)
Fixpoint keyPath_parts (fuel : nat) (k : key) : list string :=
  let part := Collection k +:+ "/" +:+ sprint (key_ID k) in
  match fuel, Parent k with
  | S fuel, Some p => keyPath_parts fuel p ++ [part]
  | _, _ => [part]
  end.
Definition keyPath (k : key) : string := join "/" (keyPath_parts (Level k) k).

Definition keyID (k : key) : string :=
  match Parent k with None => sprint (key_ID k) | Some _ => keyPath k end.

Definition Exists (k : key) : M state bool :=
  mdo _ <- allowRead;
  mdo e <- engine (Collection k);
  mret (exists_ e (keyID k)).

(** The value that the record's variable holds afterwards. *)
Definition Get (k : key) (target : value) : M state value :=
  mdo _ <- allowRead;
  mdo _ <- mlift (guardCollection (Collection k));
  mdo e <- engine (Collection k);
  mlift (load e (keyID k) target).

(** A record that is not found does not end the loop. *)
Definition get_or_missing (k : key) (target : value) : M state (option value) := λ s,
  match Get k target s with
  | (s', Ret v) => (s', Ret (Some v))
  | (s', Fail not_found) => (s', Ret None)
  | (s', Fail err) => (s', Fail err)
  | (s', Panic msg) => (s', Panic msg)
  end.

Fixpoint get_all (records : list (key * value)) : M state (list (option value)) :=
  match records with
  | [] => mret []
  | (k, target) :: rest =>
      mdo v <- get_or_missing k target;
      mdo vs <- get_all rest;
      mret (v :: vs)
  end.

Definition GetMulti (records : list (key * value)) : M state (list (option value)) :=
  mdo _ <- allowRead; get_all records.

(** Run an engine's fallible change; a failed one leaves the engine as it is. *)
Definition change (collection : string) (f : E → res mem_error E) : M state unit :=
  mdo e <- engine collection;
  mdo e' <- mlift (f e);
  put_engine collection e'.

Definition save (k : key) (data : value) (overwrite : bool) : M state unit :=
  mdo _ <- mlift (guardCollection (Collection k));
  change (Collection k) (λ e, store e (keyID k) k data overwrite).

Definition Set_ (k : key) (data : value) : M state unit :=
  mdo _ <- save k data true; markWrite.

Definition SetMulti (records : list (key * value)) : M state unit :=
  mseq (λ r, Set_ r.1 r.2) records.

(** [k.ID = id], as the engines see it. *)
Definition assign (k : key) (id : value) : M state unit := λ s,
  (mkState (rekey (seen objects k id) <$> db_collections s) (txState s), Ret tt).

(** [dal.InsertWithIdGenerator]: the [i]th call of the generator returns an
    identifier, which it assigns, or an error.  What is returned is the pointer
    [k] after the assignments, and what they did to every other pointer ([now]).
    The record's data has no [ValidateWithKey]. *)
Fixpoint generate_and_insert (generateID : nat → res mem_error value) (maxAttempts i : nat) (k : key)
    (now : key → key) (data : value) : M state (key * (key → key)) :=
  match maxAttempts with
  | 0 =>
      mdo _ <- assign k VNil;
      mfail (other_error "not able to generate unique id: exceeds maximum number of attempts")
  | S maxAttempts =>
      match generateID i with
      | Panic msg => mlift (Panic msg)
      | Fail err => mdo _ <- assign k VNil; mfail err
      | Ret id =>
          mdo _ <- assign k id;
          let k' := set_ID objects k id in
          let now' := λ k0, seen objects k id (now k0) in
          mdo e <- engine (Collection k');
          if exists_ e (keyID k') then generate_and_insert generateID maxAttempts (S i) k' now' data
          else mdo _ <- save k' data false; mret (k', now')
      end
  end.

Definition insertWithGeneratorMaxAttempts : nat := 100.

(** The options of an insert: an identifier generator, and whether one of the
    adapter's is preferred (the random generator is a parameter). *)
Record insertOptions := mkInsertOptions {
  o_idGenerator : option (nat → res mem_error value);
  o_preferAdapterGeneratedID : bool;
}.

(** The generator that the options ask for. *)
Definition generator (random_string_key : nat → res mem_error value) (options : insertOptions)
  : option (nat → res mem_error value) :=
  match o_idGenerator options with
  | Some g => Some g
  | None => if o_preferAdapterGeneratedID options then Some random_string_key else None
  end.

Definition insert_key (random_string_key : nat → res mem_error value) (k : key) (data : value)
    (options : insertOptions) : M state (key * (key → key)) :=
  match generator random_string_key options with
  | Some g =>
      mdo r <- generate_and_insert g insertWithGeneratorMaxAttempts 1 k (λ k0, k0) data; mdo _ <- markWrite; mret r
  | None => mdo _ <- save k data false; mdo _ <- markWrite; mret (k, λ k0, k0)
  end.

(** The key of the record as the insert leaves it. *)
Definition Insert (random_string_key : nat → res mem_error value) (k : key) (data : value)
    (options : insertOptions) : M state key :=
  mdo r <- insert_key random_string_key k data options; mret r.1.

(** The keys of the records that are left are what they are [now]. *)
Fixpoint insert_all (random_string_key : nat → res mem_error value) (now : key → key)
    (records : list (key * value)) (options : insertOptions) : M state unit :=
  match records with
  | [] => mret tt
  | (k, data) :: rest =>
      mdo r <- insert_key random_string_key (now k) data options;
      insert_all random_string_key (λ k0, r.2 (now k0)) rest options
  end.

Definition InsertMulti (random_string_key : nat → res mem_error value) (records : list (key * value))
    (options : insertOptions) : M state unit :=
  insert_all random_string_key (λ k0, k0) records options.

Definition Delete (k : key) : M state unit :=
  mdo _ <- change (Collection k) (λ e, Ret (delete_ e (keyID k)));
  markWrite.

Definition DeleteMulti (keys : list key) : M state unit := mseq Delete keys.

Definition UpdateRecord (k : key) (updates : list Update) : M state unit :=
  mdo _ <- mlift (guardCollection (Collection k));
  mdo _ <- change (Collection k) (λ e, update e (keyID k) updates);
  markWrite.

Definition Update_ (k : key) (updates : list Update) : M state unit := UpdateRecord k updates.

Definition UpdateMulti (keys : list key) (updates : list Update) : M state unit :=
  mseq (λ k, Update_ k updates) keys.

(** All rows of a collection, or those an index says are enough. *)
Definition loadCandidateRows (collection : string) (condition : option Condition) : M state (list memoryRow) :=
  mdo e <- engine collection;
  mdo candidates <- mlift (candidate_rows e condition);
  match candidates with
  | Some rs => mret rs
  | None => mlift (rows e)
  end.

Definition loadRows (collection : string) : M state (list memoryRow) :=
  mdo e <- engine collection; mlift (rows e).

Definition executeJoinQuery (NewKeyWithID : string → string → key) (q : structuredQuery) (from : FromSource)
  : M state (list result_record) :=
  mdo join <- mlift (joinPlan q from);
  mdo baseRows <- loadRows (source_Name (from_Base from));
  mdo joinRows <- loadRows (source_Name (join_source join));
  mlift (executeJoin NewKeyWithID q (from_Base from) join baseRows joinRows).

Definition ExecuteQueryToRecordsReader (NewKeyWithID : string → string → key) (query : Query)
  : M state (list result_record) :=
  mdo _ <- allowRead;
  match query with
  | StructuredQuery q =>
      match q_from q with
      | None => mlift (Panic nil_dereference)
      | Some from =>
          if 0 <? length (from_Joins from) then executeJoinQuery NewKeyWithID q from
          else
            let base := from_Base from in
            mdo factory <- mlift (recordFactory (source_Name base));
            mdo allRows <- loadCandidateRows (source_Name base) (q_where q);
            mlift (executeQuery NewKeyWithID Unmarshal_into q base factory allRows)
      end
  | _ => mfail not_supported
  end.

(** [RunReadwriteTransaction]: the worker runs in a session of its own, under
    the database's lock; its changes stay whatever it returns. *)
Definition RunReadwriteTransaction {A} (f : M state A) : M state A := λ s,
  let '(s', r) := f (mkState (db_collections s) (Some (mkTx (db_noReadsAfterWritesInTransaction cfg) false))) in
  (mkState (db_collections s') (txState s), r).

Definition RunReadonlyTransaction {A} (f : M state A) : M state A := λ s,
  let '(s', r) := f (mkState (db_collections s) None) in (mkState (db_collections s') (txState s), r).
End Session.
