(* ===== verification/MemoryPivot.v ===== *)
(** * Query results as recordsets (src/adapters/dalgo2memory/recordset.go)

    The records of a result are pivoted into the columns of a recordset: a
    column is typed when every row has a value of one predeclared type there,
    and untyped otherwise.  MemoryRecordset.v shows that the recordset has the
    rows of the result. *)

From Stdlib Require Import String SpecFloat.
From stdpp Require Import base gmap list strings.
From S2P Require Import Prelude StableSort GoValues GoTypes GoMaps GoStrings GoJSON RecordKey DalQuery DalString DalReader.
From S2P Require Import RecordsetColumns RecordsetColumnLaws RecordsetRows.
From S2P Require Import MemoryRows MemoryQuery MemoryUpdate MemoryEngine MemorySession.

Local Open Scope string_scope.
Local Open Scope nat_scope.
Local Open Scope list_scope.

(** The recordsets of the adapter have no computed columns. *)
Definition plain_column : Type := any_column unit.
Definition plain_recordset : Type := ColumnarRecordset unit.

(** ** Choosing the columns *)

(** The name of a value's dynamic type, which identifies it. *)
Definition type_of_value (v : value) : string :=
  match v with
  | VNil => ""
  | VBool ty _ | VInt ty _ _ | VUint ty _ _ | VFloat ty _ _ | VString ty _ | VSlice ty _ | VArray ty _ _
  | VMap ty _ _ | VStruct ty _ _ | VPtr ty _ _ | VFunc ty _ => ty
  end.

(** The loop of [inferColumn]: a value of the type that all rows have in the
    column, if they have one; [None] is the early return of an untyped column. *)
Fixpoint infer_from (name : string) (t : option value) (rows : list row_map) : option (option value) :=
  match rows with
  | [] => Some t
  | m :: rows =>
      match assoc name m with
      | None | Some VNil => None
      | Some v =>
          match t with
          | None => infer_from name (Some v) rows
          | Some t => if String.eqb (type_of_value t) (type_of_value v) then infer_from name (Some t) rows else None
          end
      end
  end.

Definition any_typed (name : string) : plain_column := Stored (stored (NewTypedColumn (T := value) name VNil [])).

Definition inferColumn (name : string) (rows : list row_map) : plain_column :=
  match infer_from name None rows with
  | Some (Some (VFloat _ KFloat64 _)) => Stored (stored (NewColumn (T := spec_float) name (S754_zero false) []))
  | Some (Some (VString _ _)) => Stored (stored (NewColumn (T := string) name "" []))
  | Some (Some (VBool _ _)) => Stored (stored (NewColumn (T := bool) name false []))
  | Some (Some (VInt _ KInt _)) => Stored (stored (NewColumn (T := Z) name 0%Z []))
  | _ => any_typed name
  end.

Section Recordset.
Context `{GoFmt, RecordKeys, GoJSON}.

Definition map_any : string := "map[string]interface {}".

Definition json_map (d : value) : res mem_error row_map :=
  match marshal d with
  | None => Fail json_error
  | Some j => match unmarshal_map j with None => Fail json_error | Some l => Ret (default [] l) end
  end.

Definition recordToMap (rec : result_record) : res mem_error row_map :=
  match rec_data rec with
  | VNil => Ret [("ID", vstr (sprint (key_ID (rec_key rec))))]
  | VMap ty kt l => if String.eqb ty map_any then Ret (default [] l) else json_map (VMap ty kt l)
  | VPtr ty addr target =>
      if String.eqb ty ("*" +:+ map_any) then
        Ret (match target with Some (VMap _ _ l) => default [] l | _ => [] end)
      else json_map (VPtr ty addr target)
  | d => json_map d
  end.

Definition recordsetColumnNames (q : structuredQuery) (rows : list row_map) : res mem_error (list string) :=
  match q_columns q with
  | [] => Ret (sort_strings (remove_dups (concat (map (λ m, m.*1) rows))))
  | cols => traverse (λ _, columnOutKey) cols
  end.

Definition recordsetName (q : structuredQuery) (options : list Option_) : res mem_error string :=
  if negb (String.eqb (NewOptions_Name options) "") then Ret (NewOptions_Name options)
  else match q_from q with
       | Some from => Ret (source_Name (from_Base from))
       | None => Panic nil_dereference
       end.

(** ** Filling the rows *)

(** [_ = row.SetValueByName(...)]: an error is dropped, a panic is not. *)
Fixpoint fill_row (names : list string) (m : row_map) (row : columnarRow) (rs : plain_recordset)
  : res column_error plain_recordset :=
  match names with
  | [] => Ret rs
  | name :: names =>
      match assoc name m with
      | None => fill_row names m row rs
      | Some v =>
          match SetValueByName row name v rs with
          | Ret rs => fill_row names m row rs
          | Fail _ => fill_row names m row rs
          | Panic msg => Panic msg
          end
      end
  end.

Definition add_row (names : list string) (m : row_map) (rs : plain_recordset) : res column_error plain_recordset :=
  do rs_row <- NewRow rs; fill_row names m rs_row.2 rs_row.1.

Definition pivot (nm : string) (names : list string) (rows : list row_map) : res column_error plain_recordset :=
  fold_res (add_row names) rows (NewColumnarRecordset nm (map (λ name, inferColumn name rows) names)).

(** ** The reader *)

Record columnarReader := mkColumnarReader { cr_rs : plain_recordset; cr_pos : Z }.

Definition columnar_Next (r : columnarReader) : columnarReader * (option columnarRow + reader_error) :=
  if (rs_rowsCount (cr_rs r) <=? cr_pos r)%Z then (r, inr ErrNoMoreRecords)
  else (mkColumnarReader (cr_rs r) (int64 (cr_pos r + 1)), inl (GetRow (cr_rs r) (cr_pos r))).

Definition columnar_reader : Reader columnarReader (option columnarRow) :=
  mkReader columnar_Next (λ _, inl "") (λ r, (r, None)).

(** The columns' methods have no error of their own here. *)
Definition column_failure {A} (m : res column_error A) : res mem_error A :=
  rmap_error (λ _, other_error "column") m.

Definition reader_failed (e : reader_error) : mem_error := other_error "reader".

(** [buildRecordsetReader] on a reader of records; [None] is a read that does
    not end within the fuel. *)
Definition buildRecordsetReader {S} (ctx : context) (q : structuredQuery) (reader : Reader S result_record) (s : S)
    (fuel : nat) (options : list Option_) : option (res mem_error columnarReader) :=
  match ReadAllToRecords true reader ctx fuel [] s with
  | None => None
  | Some (_, _, Some e) => Some (Fail (reader_failed e))
  | Some (_, records, None) =>
      Some (do rows <- traverse (λ _, recordToMap) records;
            do names <- recordsetColumnNames q rows;
            do nm <- recordsetName q options;
            do rs <- column_failure (pivot nm names rows);
            Ret (mkColumnarReader rs 0))
  end.

(** The reader of a result is that of a slice, so the read ends. *)
Definition ExecuteQueryToRecordsetReader {E} `{Decoders, !StorageEngine E} (cfg : config)
    (NewKeyWithID : string → string → key) (ctx : context) (query : Query) (options : list Option_)
  : M (state (E := E)) columnarReader :=
  mdo _ <- allowRead;
  match query with
  | StructuredQuery q =>
      mdo records <- ExecuteQueryToRecordsReader cfg NewKeyWithID query;
      mlift (default (Panic "out of fuel")
        (buildRecordsetReader ctx q slice_reader (NewRecordsReader (Some records)) (Datatypes.S (length records)) options))
  | _ => mfail not_supported
  end.
End Recordset.
