(* ===== verification/MemorySessionLaws.v ===== *)
(** * What sessions of the in-memory database guarantee *)

From Stdlib Require Import String.
From stdpp Require Import base gmap sets list strings.
From S2P Require Import Prelude GoValues GoMaps GoStrings GoJSON RecordKey DalQuery DalString DalReader.
From S2P Require Import RecordsetRows.
From S2P Require Import MemoryRows MemoryQuery MemoryUpdate MemoryEngine MemorySession MemoryPivot.

Local Open Scope string_scope.
Local Open Scope nat_scope.
Local Open Scope list_scope.

(** ** Invariants of operations *)

Section Keeps.
Context {S : Type} (R : relation S) `{!PreOrder R}.

(** The operation moves the state along [R], whatever its outcome. *)
Definition keeps {A} (m : M S A) : Prop := ∀ s, R s (m s).1.

Lemma keeps_ret {A} (a : A) : keeps (mret a).
Proof. intros s. simpl. reflexivity. Qed.
Lemma keeps_fail {A} e : keeps (mfail (A:=A) e).
Proof. intros s. simpl. reflexivity. Qed.
Lemma keeps_lift {A} (r : res mem_error A) : keeps (mlift r).
Proof. intros s. simpl. reflexivity. Qed.

Lemma keeps_bind {A B} (m : M S A) (k : A → M S B) : keeps m → (∀ a, keeps (k a)) → keeps (mbind m k).
Proof.
  intros Hm Hk s. unfold mbind. specialize (Hm s). destruct (m s) as [s' [a| |]]; simpl in *; [|done..].
  etrans; [exact Hm|]. apply Hk.
Qed.

(** The same, when what follows depends on the result. *)
Lemma keeps_bind_result {A B} (m : M S A) (k : A → M S B) :
  keeps m → (∀ s s' a, m s = (s', Ret a) → keeps (k a)) → keeps (mbind m k).
Proof.
  intros Hm Hk s. unfold mbind. specialize (Hm s). destruct (m s) as [s' [a| |]] eqn:Em; simpl in *; [|done..].
  etrans; [exact Hm|]. by eapply Hk.
Qed.

Lemma keeps_seq {A} (f : A → M S unit) l : (∀ x, keeps (f x)) → keeps (mseq f l).
Proof.
  intros Hf. induction l as [|x l IH]; simpl; [apply keeps_ret|]. apply keeps_bind; [apply Hf|done].
Qed.
End Keeps.

#[export] Hint Resolve keeps_ret keeps_fail keeps_lift keeps_bind keeps_seq : dalgo.

Section Laws.
Context `{GoFmt, RecordKeys, GoJSON, Decoders}.
Context {E R : Type} `{StorageEngine E} `{!EngineModel E R} `{!EngineLaws E R}.
Context (objects : key_objects) (cfg : config (E:=E)).
Context (NewKeyWithID : string → string → key) (random_string_key : nat → res mem_error value).

Notation state := (state (E:=E)).

(** ** Transactions that must not read after they wrote *)

Definition tx_le (s s' : state) : Prop :=
  match txState s, txState s' with
  | None, None => True
  | Some t, Some t' =>
      noReadsAfterWrites t = noReadsAfterWrites t' ∧ (hasWritten t = true → hasWritten t' = true)
  | _, _ => False
  end.

#[local] Instance tx_le_preorder : PreOrder tx_le.
Proof.
  split.
  - intros s. unfold tx_le. by destruct (txState s).
  - intros s1 s2 s3. unfold tx_le. destruct (txState s1), (txState s2), (txState s3); naive_solver.
Qed.

Lemma keeps_allowRead : keeps tx_le (allowRead (E:=E)).
Proof. intros s. unfold allowRead. repeat case_match; simpl; reflexivity. Qed.
Lemma keeps_markWrite : keeps tx_le (markWrite (E:=E)).
Proof. intros s. unfold tx_le, markWrite. simpl. by destruct (txState s). Qed.
Lemma keeps_engine c : keeps tx_le (engine cfg c).
Proof.
  intros s. unfold engine. case_match; simpl; [reflexivity|]. unfold tx_le. simpl. by destruct (txState s).
Qed.
Lemma keeps_put c e : keeps tx_le (put_engine (E:=E) c e).
Proof. intros s. unfold tx_le. simpl. by destruct (txState s). Qed.

#[local] Hint Resolve keeps_allowRead keeps_markWrite keeps_engine keeps_put : dalgo.
#[local] Hint Extern 1 (PreOrder tx_le) => exact tx_le_preorder : dalgo.

Lemma keeps_change c f : keeps tx_le (change cfg c f).
Proof. unfold change. auto 10 with dalgo. Qed.
#[local] Hint Resolve keeps_change : dalgo.
Lemma keeps_save k data b : keeps tx_le (save cfg k data b).
Proof. unfold save. auto 10 with dalgo. Qed.
#[local] Hint Resolve keeps_save : dalgo.
Lemma keeps_assign k id : keeps tx_le (assign (E:=E) objects k id).
Proof. intros s. unfold tx_le. simpl. by destruct (txState s). Qed.
#[local] Hint Resolve keeps_assign : dalgo.

(** What an insert keeps if its steps do; it assigns to the objects that
    satisfy [P] only. *)
Section Inserting.
Context (Q : state → state → Prop) `{!PreOrder Q} (Hengine : ∀ c, keeps Q (engine cfg c)) (Hmark : keeps Q (markWrite (E:=E))).
Context (Hsave : ∀ k data, keeps Q (save cfg k data false)).
Context (P : key → Prop) (Hset : ∀ k id, P k → P (set_ID objects k id)) (Hseen : ∀ k1 id k, P k → P (seen objects k1 id k)).
#[local] Hint Resolve Hengine Hmark Hsave : dalgo.
#[local] Hint Extern 1 (PreOrder Q) => assumption : dalgo.

Lemma keeps_generate g n i k now data :
  (∀ k id, P k → keeps Q (assign objects k id)) → P k → keeps Q (generate_and_insert objects cfg g n i k now data).
Proof.
  intros Ha. revert i k now. induction n as [|n IH]; intros i k now Hk; simpl; [auto with dalgo|].
  destruct (g i) as [id|e|msg]; [|auto with dalgo..].
  apply keeps_bind; [auto with dalgo..|]. intros _. apply keeps_bind; [auto with dalgo..|].
  intros e. case_match; auto with dalgo.
Qed.

Lemma keeps_insert_key k data options :
  (generator random_string_key options ≠ None → ∀ k id, P k → keeps Q (assign objects k id)) → P k →
  keeps Q (insert_key objects cfg random_string_key k data options).
Proof.
  intros Ha Hk. unfold insert_key. destruct (generator random_string_key options) as [g|].
  - apply keeps_bind; [done|by apply keeps_generate; [apply Ha|]|auto with dalgo].
  - auto with dalgo.
Qed.

Lemma keeps_Insert k data options :
  (generator random_string_key options ≠ None → ∀ k id, P k → keeps Q (assign objects k id)) → P k →
  keeps Q (Insert objects cfg random_string_key k data options).
Proof. intros Ha Hk. unfold Insert. apply keeps_bind; [done|by apply keeps_insert_key|auto with dalgo]. Qed.

(** The keys that are left satisfy [P] after an insert if they did before. *)
Lemma generated_now g n i k now data s s' r :
  (∀ k, P k → P (now k)) → generate_and_insert objects cfg g n i k now data s = (s', Ret r) → ∀ k, P k → P (r.2 k).
Proof.
  revert i k now s. induction n as [|n IH]; intros i k now s Hnow; simpl; [done|].
  destruct (g i) as [id|e|msg]; [|done..]. unfold mbind at 1. simpl. unfold mbind at 1.
  destruct (engine cfg _ _) as [s1 [e| |]]; [|done..]. case_match.
  - apply IH. auto.
  - unfold mbind. destruct (save _ _ _ _ _) as [s2 [[]| |]]; [|done..]. intros [= _ <-]. simpl. auto.
Qed.

Lemma inserted_now k data options s s' r :
  insert_key objects cfg random_string_key k data options s = (s', Ret r) → ∀ k, P k → P (r.2 k).
Proof.
  unfold insert_key. destruct (generator random_string_key options) as [g|]; unfold mbind.
  - destruct (generate_and_insert _ _ _ _ _ _ _ _ s) as [s1 [r1| |]] eqn:Hg; [|done..]. simpl.
    intros [= _ <-]. by eapply generated_now; [|exact Hg].
  - destruct (save _ _ _ _ _) as [s1 [[]| |]]; [|done..]. by intros [= _ <-].
Qed.

Lemma keeps_insert_all now records options :
  (generator random_string_key options ≠ None → ∀ k id, P k → keeps Q (assign objects k id)) →
  (∀ k, P k → P (now k)) → (∀ r, r ∈ records → P r.1) →
  keeps Q (insert_all objects cfg random_string_key now records options).
Proof.
  intros Ha. revert now. induction records as [|[k data] rest IH]; intros now Hnow Hrec; simpl; [auto with dalgo|].
  apply keeps_bind_result; [done|apply keeps_insert_key; [done|]|].
  - apply Hnow, (Hrec (k, data)). by left.
  - intros s s' r Hr. apply IH; [|intros x Hx; apply Hrec; by right].
    intros k0 Hk0. eapply inserted_now; [exact Hr|auto].
Qed.
End Inserting.

(** The operations of a session, with their arguments. *)
Inductive read_op :=
| OpExists (k : key)
| OpGet (k : key) (target : value)
| OpGetMulti (records : list (key * value))
| OpQuery (query : Query)
| OpRecordset (ctx : context) (query : Query) (options : list Option_).

Inductive write_op :=
| OpSet (k : key) (data : value)
| OpSetMulti (records : list (key * value))
| OpInsert (k : key) (data : value) (options : insertOptions)
| OpInsertMulti (records : list (key * value)) (options : insertOptions)
| OpDelete (k : key)
| OpDeleteMulti (keys : list key)
| OpUpdate (k : key) (updates : list Update)
| OpUpdateMulti (keys : list key) (updates : list Update).

Definition done_ {A} (m : M state A) : M state unit := mbind m (λ _, mret tt).

Definition run_read (op : read_op) : M state unit :=
  match op with
  | OpExists k => done_ (Exists cfg k)
  | OpGet k target => done_ (Get cfg k target)
  | OpGetMulti records => done_ (GetMulti cfg records)
  | OpQuery query => done_ (ExecuteQueryToRecordsReader cfg NewKeyWithID query)
  | OpRecordset ctx query options => done_ (ExecuteQueryToRecordsetReader cfg NewKeyWithID ctx query options)
  end.

Definition run_write (op : write_op) : M state unit :=
  match op with
  | OpSet k data => Set_ cfg k data
  | OpSetMulti records => SetMulti cfg records
  | OpInsert k data options => done_ (Insert objects cfg random_string_key k data options)
  | OpInsertMulti records options => InsertMulti objects cfg random_string_key records options
  | OpDelete k => Delete cfg k
  | OpDeleteMulti keys => DeleteMulti cfg keys
  | OpUpdate k updates => Update_ cfg k updates
  | OpUpdateMulti keys updates => UpdateMulti cfg keys updates
  end.

(** Operations one after another; a failed one does not stop the worker. *)
Definition run_op (op : read_op + write_op) : state → state := λ s,
  match op with inl r => (run_read r s).1 | inr w => (run_write w s).1 end.
Definition run (ops : list (read_op + write_op)) (s : state) : state := fold_left (λ s op, run_op op s) ops s.

Lemma keeps_write w : keeps tx_le (run_write w).
Proof.
  destruct w; simpl; unfold done_, Set_, SetMulti, Delete, DeleteMulti, Update_, UpdateMulti, UpdateRecord;
    auto 10 with dalgo.
  - apply keeps_seq; [apply _|]. intros x. unfold Set_. auto 10 with dalgo.
  - apply keeps_bind; [apply _| |auto with dalgo]. apply (keeps_Insert tx_le keeps_engine keeps_markWrite (λ k d, keeps_save k d false) (λ _, True)); auto with dalgo.
  - apply (keeps_insert_all tx_le keeps_engine keeps_markWrite (λ k d, keeps_save k d false) (λ _, True)); auto with dalgo.
  - apply keeps_seq; [apply _|]. intros x. unfold Delete. auto 10 with dalgo.
  - apply keeps_seq; [apply _|]. intros x. unfold Update_, UpdateRecord. auto 10 with dalgo.
Qed.

(** What reads keep: they look at the transaction and create engines. *)
Section Reads.
Context (Q : state → state → Prop) `{!PreOrder Q} (Hallow : keeps Q (allowRead (E:=E))) (Hengine : ∀ c, keeps Q (engine cfg c)).
#[local] Hint Resolve Hallow Hengine : dalgo.
#[local] Hint Extern 1 (PreOrder Q) => assumption : dalgo.

Lemma keeps_Exists k : keeps Q (Exists cfg k).
Proof. unfold Exists. auto 10 with dalgo. Qed.

Lemma keeps_Get k target : keeps Q (Get cfg k target).
Proof. unfold Get. auto 10 with dalgo. Qed.

Lemma keeps_get_or_missing k target : keeps Q (get_or_missing cfg k target).
Proof.
  intros s. unfold get_or_missing. pose proof (keeps_Get k target s) as Hk.
  destruct (Get cfg k target s) as [s' [v|e|]]; [done| |done]. by destruct e.
Qed.

Lemma keeps_get_all records : keeps Q (get_all cfg records).
Proof.
  induction records as [|[k target] records IH]; simpl; [auto with dalgo|].
  apply keeps_bind; [done|apply keeps_get_or_missing|intros v; apply keeps_bind; auto with dalgo].
Qed.

Lemma keeps_GetMulti records : keeps Q (GetMulti cfg records).
Proof. unfold GetMulti. apply keeps_bind; [done|auto with dalgo|]. intros _. apply keeps_get_all. Qed.

Lemma keeps_loadRows c : keeps Q (loadRows cfg c).
Proof. unfold loadRows. auto with dalgo. Qed.

Lemma keeps_loadCandidateRows c condition : keeps Q (loadCandidateRows cfg c condition).
Proof.
  unfold loadCandidateRows. apply keeps_bind; [done|auto with dalgo|]. intros e.
  apply keeps_bind; [done|auto with dalgo|]. intros [rs|]; auto with dalgo.
Qed.
#[local] Hint Resolve keeps_loadRows keeps_loadCandidateRows : dalgo.

Lemma keeps_ExecuteQuery query : keeps Q (ExecuteQueryToRecordsReader cfg NewKeyWithID query).
Proof.
  unfold ExecuteQueryToRecordsReader. apply keeps_bind; [done|auto with dalgo|]. intros _.
  destruct query as [q| |]; [|auto with dalgo..]. destruct (q_from q) as [from|]; [|auto with dalgo].
  case_match; [unfold executeJoinQuery; auto 20 with dalgo|]. auto 10 with dalgo.
Qed.

Lemma keeps_ExecuteQueryToRecordset ctx query options :
  keeps Q (ExecuteQueryToRecordsetReader cfg NewKeyWithID ctx query options).
Proof.
  unfold ExecuteQueryToRecordsetReader. apply keeps_bind; [done|auto with dalgo|]. intros _.
  destruct query as [q| |]; [|auto with dalgo..]. apply keeps_bind; [done|apply keeps_ExecuteQuery|auto with dalgo].
Qed.

Lemma keeps_read r : keeps Q (run_read r).
Proof.
  destruct r; simpl; unfold done_; (apply keeps_bind; [done| |auto with dalgo]);
    [apply keeps_Exists|apply keeps_Get|apply keeps_GetMulti|apply keeps_ExecuteQuery|apply keeps_ExecuteQueryToRecordset].
Qed.
End Reads.

Lemma run_le ops s : tx_le s (run ops s).
Proof.
  unfold run. revert s. induction ops as [|op ops IH]; intros s; simpl; [reflexivity|].
  etrans; [|apply IH]. destruct op as [r|w]; [apply (keeps_read tx_le); auto with dalgo|apply keeps_write].
Qed.

(** A sequence that succeeds marks the transaction, when it is not empty. *)
Definition marks {A} (m : M state A) : Prop := ∀ s s' a t,
  m s = (s', Ret a) → txState s = Some t → ∃ t', txState s' = Some t' ∧ hasWritten t' = true.

Lemma marks_then {A} (m : M state A) : keeps tx_le m → marks (mbind m (λ _, markWrite)).
Proof.
  intros Hm s s' b t. unfold mbind. specialize (Hm s). destruct (m s) as [s1 [a| |]]; [|done..].
  intros [= <- _] Ht. unfold tx_le in Hm. rewrite Ht in Hm. simpl in *.
  destruct (txState s1) as [t1|]; [|done]. by eexists.
Qed.

Lemma marks_then_ret {A B} (m : M state A) (f : A → B) :
  keeps tx_le m → marks (mbind m (λ a, mbind markWrite (λ _, mret (f a)))).
Proof.
  intros Hm s s' b t He Ht. destruct (m s) as [s1 [a| |]] eqn:Em; unfold mbind at 1 in He; rewrite Em in He; [|done..].
  destruct (marks_then m Hm s (markWrite s1).1 tt t) as (t' & Ht' & Hw); [by unfold mbind; rewrite Em|done|].
  injection He as <- _. by exists t'.
Qed.

(** What comes after does not take the mark back. *)
Lemma marks_bind {A B} (m : M state A) (k : A → M state B) :
  marks m → (∀ a, keeps tx_le (k a)) → marks (mbind m k).
Proof.
  intros Hm Hk s s' b t. unfold mbind. destruct (m s) as [s1 [a| |]] eqn:Em; [|done..].
  intros He Ht. destruct (Hm s s1 a t Em Ht) as (t1 & Ht1 & Hw).
  pose proof (Hk a s1) as Hle. rewrite He in Hle. unfold tx_le in Hle. simpl in Hle. rewrite Ht1 in Hle.
  destruct (txState s') as [t'|]; [|done]. exists t'. split; [done|]. by apply Hle.
Qed.

Lemma marks_done {A} (m : M state A) : marks m → marks (done_ m).
Proof. intros Hm. apply marks_bind; [done|auto with dalgo]. Qed.

Lemma marks_seq {A} (f : A → M state unit) l :
  l ≠ [] → (∀ x, keeps tx_le (f x)) → (∀ x, marks (f x)) → marks (mseq f l).
Proof.
  destruct l as [|x l]; [done|]. intros _ Hk Hf s s' a t. simpl. unfold mbind at 1.
  destruct (f x s) as [s1 [[]| |]] eqn:Hx; [|done..]. intros Hl Ht.
  destruct (Hf x s s1 tt t Hx Ht) as (t1 & Ht1 & Hw).
  pose proof (keeps_seq tx_le f l Hk s1) as Hle. rewrite Hl in Hle. unfold tx_le in Hle. simpl in Hle.
  rewrite Ht1 in Hle. destruct (txState s') as [t'|]; [|done]. exists t'. split; [done|]. by apply Hle.
Qed.

(** Does the operation have something to write? *)
Definition writes_something (w : write_op) : Prop :=
  match w with
  | OpSetMulti records | OpInsertMulti records _ => records ≠ []
  | OpDeleteMulti keys | OpUpdateMulti keys _ => keys ≠ []
  | _ => True
  end.

Lemma marks_write w : writes_something w → marks (run_write w).
Proof.
  assert (Hset : ∀ k data, marks (Set_ cfg k data)) by (intros; apply marks_then; auto with dalgo).
  assert (Hkey : ∀ k data options, marks (insert_key objects cfg random_string_key k data options)).
  { intros k data options. unfold insert_key. destruct (generator random_string_key options) as [g|];
      [apply (marks_then_ret _ (λ r, r))|apply (marks_then_ret _ (λ _, (k, λ k0, k0)))]; auto with dalgo.
    apply (keeps_generate tx_le keeps_engine (λ k d, keeps_save k d false) (λ _, True)); auto with dalgo. }
  assert (Hdel : ∀ k, marks (Delete cfg k)) by (intros; apply marks_then; auto with dalgo).
  assert (Hupd : ∀ k us, marks (Update_ cfg k us)).
  { intros k us s s' ? t. unfold Update_, UpdateRecord. unfold mbind at 1. simpl.
    destruct (guardCollection cfg (Collection k)); [|done..]. apply marks_then. auto with dalgo. }
  destruct w as [| |k data options|records options| | | |]; simpl; intros Hw; auto.
  - apply marks_seq; auto. intros x. apply (keeps_write (OpSet _ _)).
  - apply marks_done, marks_bind; [done|auto with dalgo].
  - unfold InsertMulti. destruct records as [|[k data] rest]; [done|]. simpl. apply marks_bind; [done|]. intros r.
    apply (keeps_insert_all tx_le keeps_engine keeps_markWrite (λ k d, keeps_save k d false) (λ _, True)); auto with dalgo.
  - apply marks_seq; auto. intros x. apply (keeps_write (OpDelete _)).
  - apply marks_seq; auto. intros x. apply (keeps_write (OpUpdate _ _)).
Qed.

(** C21: in a transaction of a database created with
    [WithNoReadsAfterWritesInTransaction], every read after the first
    successful write fails with the ordering error and does nothing, whatever
    operations came before and in between. *)
Theorem no_reads_after_writes before w after_ r s s1 t
    (Htx : txState s = Some t) (Hrule : noReadsAfterWrites t = true) (Hw : writes_something w)
    (Hwrite : run_write w (run before s) = (s1, Ret tt)) :
  run_read r (run after_ s1) = (run after_ s1, Fail read_after_write).
Proof.
  pose proof (run_le before s) as Hle. unfold tx_le in Hle. rewrite Htx in Hle.
  destruct (txState (run before s)) as [t0|] eqn:Ht0; [|done]. destruct Hle as [Hr0 _].
  destruct (marks_write w Hw _ _ _ _ Hwrite Ht0) as (t1 & Ht1 & Hw1).
  pose proof (keeps_write w (run before s)) as Hle1. rewrite Hwrite in Hle1. unfold tx_le in Hle1.
  simpl in Hle1. rewrite Ht0, Ht1 in Hle1. destruct Hle1 as [Hr1 _].
  pose proof (run_le after_ s1) as Hle2. unfold tx_le in Hle2. rewrite Ht1 in Hle2.
  destruct (txState (run after_ s1)) as [t2|] eqn:Ht2; [|done]. destruct Hle2 as [Hr2 Hw2].
  assert (Ha : allowRead (run after_ s1) = (run after_ s1, Fail read_after_write)).
  { unfold allowRead. rewrite Ht2, <- Hr2, <- Hr1, <- Hr0, Hrule, Hw2 by done. done. }
  by destruct r; simpl; unfold done_, Exists, Get, GetMulti, ExecuteQueryToRecordsReader, ExecuteQueryToRecordsetReader, mbind; rewrite Ha.
Qed.

(** ** Records *)

(** The engine constructors of the schema return empty engines. *)
Definition fresh_engines : Prop :=
  ∀ c, engine_ok (new_engine cfg c) ∧ contents (new_engine cfg c) = ∅.

(** They point to no keys: an assignment does not concern them. *)
Definition keyless_engines : Prop := ∀ f c, rekey f (new_engine cfg c) = new_engine cfg c.

Definition engine_of (s : state) (c : string) : E := default (new_engine cfg c) (db_collections s !! c).

Definition good (s : state) : Prop := ∀ c e, db_collections s !! c = Some e → engine_ok e.

(** The stored record of a collection, if any. *)
Definition stored (s : state) (c id : string) : option (R * option key) := contents (engine_of s c) !! id.

Lemma good_engine s c : fresh_engines → good s → engine_ok (engine_of s c).
Proof.
  intros Hnew Hg. unfold engine_of. destruct (db_collections s !! c) as [e|] eqn:E'; [by eapply Hg|]. apply Hnew.
Qed.

Lemma engine_run s c : ∃ s', engine cfg c s = (s', Ret (engine_of s c)) ∧ txState s' = txState s ∧
  (fresh_engines → good s → good s') ∧ ∀ c', engine_of s' c' = engine_of s c'.
Proof.
  unfold engine, engine_of. destruct (db_collections s !! c) as [e|] eqn:Hc.
  { exists s. by split_and!. }
  eexists. split; [done|]. split; [done|]. split.
  - intros Hnew Hg c' e'. simpl. intros [[-> <-]|[_ He]]%lookup_insert_Some; [apply Hnew|by eapply Hg].
  - intros c'. simpl. destruct (decide (c' = c)) as [->|Hne].
    + by rewrite lookup_insert_eq, Hc.
    + by rewrite lookup_insert_ne.
Qed.

(** What [change] does to the engines. *)
Lemma change_run s c f :
  ∃ s', (change cfg c f s).1 = s' ∧ txState s' = txState s ∧
    match f (engine_of s c) with
    | Ret e' => change cfg c f s = (s', Ret tt) ∧ (fresh_engines → good s → engine_ok e' → good s') ∧
        ∀ c', engine_of s' c' = if decide (c' = c) then e' else engine_of s c'
    | Fail err => change cfg c f s = (s', Fail err) ∧ (fresh_engines → good s → good s') ∧ ∀ c', engine_of s' c' = engine_of s c'
    | Panic msg => change cfg c f s = (s', Panic msg) ∧ (fresh_engines → good s → good s') ∧ ∀ c', engine_of s' c' = engine_of s c'
    end.
Proof.
  destruct (engine_run s c) as (s1 & He & Htx & Hg & Hsame).
  assert (Hrun : change cfg c f s = match f (engine_of s c) with
    | Ret e' => put_engine c e' s1 | Fail err => (s1, Fail err) | Panic msg => (s1, Panic msg) end).
  { unfold change, mbind, mlift. rewrite He. by destruct (f (engine_of s c)). }
  rewrite Hrun. destruct (f (engine_of s c)) as [e'| |]; simpl; eexists; (split; [done|]); (split; [done|]);
    (split; [done|]); [|by split..]. split.
  - intros Hnew Hgood Hok c' e''. simpl. intros [[-> <-]|[_ Hc']]%lookup_insert_Some; [done|].
    by eapply (Hg Hnew Hgood).
  - intros c'. unfold engine_of. simpl. destruct (decide (c' = c)) as [->|Hne].
    + by rewrite lookup_insert_eq.
    + rewrite lookup_insert_ne by done. apply Hsame.
Qed.

(** What a save that succeeds did: it encoded the data and changed one record of
    one engine. *)
Lemma save_effect k data overwrite s s'
    (Hnew : fresh_engines) (Hgood : good s) (Hsave : save cfg k data overwrite s = (s', Ret tt)) :
  ∃ r e', guardCollection cfg (Collection k) = Ret tt ∧
    encode (engine_of s (Collection k)) data = Ret r ∧
    now_holds (engine_of s (Collection k)) e' (<[keyID k := (r, Some k)]> (contents (engine_of s (Collection k)))) ∧
    good s' ∧ txState s' = txState s ∧
    ∀ c, engine_of s' c = if decide (c = Collection k) then e' else engine_of s c.
Proof.
  unfold save, mbind in Hsave. simpl in Hsave.
  destruct (guardCollection cfg (Collection k)) as [[]| |]; [|done..].
  set (f e := store e (keyID k) k data overwrite) in Hsave.
  destruct (change_run s (Collection k) f) as (s1 & _ & Htx & Hch).
  pose proof (good_engine s (Collection k) Hnew Hgood) as Hok.
  assert (Hst : match encode (engine_of s (Collection k)) data with
    | Ret r => overwrite = false ∧ is_Some (contents (engine_of s (Collection k)) !! keyID k) ∨
        ∃ e', f (engine_of s (Collection k)) = Ret e' ∧
          now_holds (engine_of s (Collection k)) e' (<[keyID k := (r, Some k)]> (contents (engine_of s (Collection k))))
    | _ => ∀ e', f (engine_of s (Collection k)) ≠ Ret e' end).
  { destruct overwrite; [|destruct (contents (engine_of s (Collection k)) !! keyID k) as [r0|] eqn:Hold].
    - pose proof (store_spec _ (keyID k) k data true Hok (or_introl eq_refl)) as Hs. fold (f (engine_of s (Collection k))) in Hs.
      destruct (encode _ data); [by right|by rewrite Hs..].
    - pose proof (store_duplicate _ (keyID k) k data Hok (mk_is_Some _ _ Hold)) as Hs. fold (f (engine_of s (Collection k))) in Hs.
      destruct (encode _ data); [left; eauto|by rewrite Hs..].
    - pose proof (store_spec _ (keyID k) k data false Hok (or_intror Hold)) as Hs. fold (f (engine_of s (Collection k))) in Hs.
      destruct (encode _ data); [by right|by rewrite Hs..]. }
  assert (Hret : ∃ e', f (engine_of s (Collection k)) = Ret e').
  { destruct (f (engine_of s (Collection k))) as [e'| |]; [by eexists|destruct Hch as [Hch _]; congruence..]. }
  destruct Hret as [e1 He1]. rewrite He1 in Hch. destruct Hch as (Hch & Hg & Heng). rewrite Hch in Hsave. injection Hsave as <-.
  destruct (encode (engine_of s (Collection k)) data) as [r|err|msg]; [|by destruct (Hst e1)..].
  destruct Hst as [[-> Hdup]|(e' & He' & Hholds)].
  { pose proof (store_duplicate _ (keyID k) k data Hok Hdup) as Hs. fold (f (engine_of s (Collection k))) in Hs. congruence. }
  rewrite He1 in He'. injection He' as <-.
  exists r, e1. split; [done|]. split; [done|]. split; [done|]. split; [|done].
  apply Hg; [done|done|apply Hholds].
Qed.

Lemma Get_stored k target s
    (Hnew : fresh_engines) (Hgood : good s) (Hread : allowRead s = (s, Ret tt))
    (Hguard : guardCollection cfg (Collection k) = Ret tt) :
  (Get cfg k target s).2 = match stored s (Collection k) (keyID k) with
                          | None => Fail not_found
                          | Some r => do b <- document (engine_of s (Collection k)) r.1; Unmarshal_into b target
                          end.
Proof.
  unfold Get, mbind. rewrite Hread. simpl. rewrite Hguard.
  destruct (engine_run s (Collection k)) as (s2 & -> & _). simpl. by rewrite load_spec by (by apply good_engine).
Qed.

Lemma engine_of_mark s c : engine_of (markWrite s).1 c = engine_of s c.
Proof. done. Qed.

Lemma good_mark s : good s → good (markWrite s).1.
Proof. done. Qed.

Lemma Set_effect k data s s'
    (Hnew : fresh_engines) (Hgood : good s) (Hset : Set_ cfg k data s = (s', Ret tt)) :
  ∃ r, guardCollection cfg (Collection k) = Ret tt ∧
    encode (engine_of s (Collection k)) data = Ret r ∧ good s' ∧
    document (engine_of s' (Collection k)) = document (engine_of s (Collection k)) ∧
    stored s' (Collection k) (keyID k) = Some (r, Some k) ∧
    ∀ c id, (c, id) ≠ (Collection k, keyID k) → stored s' c id = stored s c id.
Proof.
  unfold Set_, mbind in Hset. destruct (save cfg k data true s) as [s1 [[]| |]] eqn:Hsave; [|done..].
  destruct (save_effect k data true s s1 Hnew Hgood Hsave) as (r & e' & Hguard & Henc & Hholds & Hg1 & _ & Heng).
  injection Hset as <-. destruct Hholds as (_ & Hcont & _ & Hdoc & _).
  exists r. split; [done|]. split; [done|]. split; [by apply (good_mark s1)|].
  unfold stored. split; [|split].
  - pose proof (engine_of_mark s1 (Collection k)) as Em. simpl in Em. rewrite Em, Heng, decide_True by done. done.
  - pose proof (engine_of_mark s1 (Collection k)) as Em. simpl in Em. rewrite Em, Heng, decide_True, Hcont, lookup_insert_eq by done. done.
  - intros c id Hne. pose proof (engine_of_mark s1 c) as Em. simpl in Em. rewrite Em, Heng.
    destruct (decide (c = Collection k)) as [->|]; [|done]. rewrite Hcont, lookup_insert_ne; [done|congruence].
Qed.

Lemma Delete_effect k s (Hnew : fresh_engines) (Hgood : good s) :
  ∃ s', Delete cfg k s = (s', Ret tt) ∧ good s' ∧
    (txState s = None → txState s' = None) ∧ stored s' (Collection k) (keyID k) = None ∧
    ∀ c id, (c, id) ≠ (Collection k, keyID k) → stored s' c id = stored s c id.
Proof.
  destruct (change_run s (Collection k) (λ e, Ret (delete_ e (keyID k)))) as (s1 & _ & Htx & Hch & Hg & Heng).
  pose proof (delete_spec (engine_of s (Collection k)) (keyID k) (good_engine s _ Hnew Hgood)) as (Hok & Hcont & _).
  unfold Delete, mbind. rewrite Hch. eexists. split; [reflexivity|].
  split; [apply (good_mark s1); by apply Hg|]. split; [simpl; rewrite Htx; by intros ->|].
  unfold stored. split.
  - pose proof (engine_of_mark s1 (Collection k)) as Em. simpl in Em. rewrite Em, Heng, decide_True, Hcont, lookup_delete_eq by done. done.
  - intros c id Hne. pose proof (engine_of_mark s1 c) as Em. simpl in Em. rewrite Em, Heng.
    destruct (decide (c = Collection k)) as [->|]; [|done]. rewrite Hcont, lookup_delete_ne; [done|congruence].
Qed.

(** A record that [Set] has stored is the record that [Get] loads: what
    the engine encodes of its data, decoded into the caller's variable.  All
    other records stay. *)
Theorem Set_Get k data target s s'
    (Hnew : fresh_engines) (Hgood : good s) (Hset : Set_ cfg k data s = (s', Ret tt))
    (Hread : allowRead s' = (s', Ret tt)) :
  ∃ r, encode (engine_of s (Collection k)) data = Ret r ∧
    (Get cfg k target s').2 = (do b <- document (engine_of s (Collection k)) r; Unmarshal_into b target) ∧
    ∀ c id, (c, id) ≠ (Collection k, keyID k) → stored s' c id = stored s c id.
Proof.
  destruct (Set_effect k data s s' Hnew Hgood Hset) as (r & Hguard & Henc & Hg' & Hdoc & Hstored & Hother).
  exists r. split; [done|]. split; [|done]. by rewrite Get_stored, Hstored, Hdoc by done.
Qed.

(** ** What an insert does to stored records *)

(** What the pointer [k] may hold later: its object is assigned to, or another
    one that it may depend on. *)
Inductive later (k : key) : key → Prop :=
| later_now : later k k
| later_own k' id : later k k' → later k (set_ID objects k' id)
| later_seen k1 id k' : later k k' → later k (seen objects k1 id k').

(** What every pointer holds after assignments to objects that satisfy [P]. *)
Inductive assignments (P : key → Prop) : (key → key) → Prop :=
| no_assignment : assignments P (λ k, k)
| one_more k id f : P k → assignments P f → assignments P (λ k0, seen objects k id (f k0)).

Lemma assignments_then P f g : assignments P f → assignments P g → assignments P (λ k, g (f k)).
Proof. intros Hf Hg. induction Hg as [|k id g Hk _ IH]; [exact Hf|by apply (one_more P k id (λ k0, g (f k0)))]. Qed.

Lemma assignments_weaken (P P' : key → Prop) f : (∀ k, P k → P' k) → assignments P f → assignments P' f.
Proof. intros HP. induction 1; constructor; auto. Qed.

(** No assignment through a pointer that satisfies [P] changes the key. *)
Definition untouched (P : key → Prop) (k0 : key) : Prop := ∀ k id, P k → seen objects k id k0 = k0.

Lemma assignments_untouched P f k0 : assignments P f → untouched P k0 → f k0 = k0.
Proof. intros Hf Hu. induction Hf as [|k id f Hk _ IH]; [done|]. rewrite IH. by apply Hu. Qed.

Lemma with_keys_untouched P f (r : R * option key) :
  assignments P f → (∀ k0, r.2 = Some k0 → untouched P k0) → with_keys f r = r.
Proof.
  intros Hf Hu. destruct r as [b [k0|]]; unfold with_keys; simpl in *; [|done].
  by rewrite (assignments_untouched P f k0 Hf) by (by apply Hu).
Qed.

Lemma with_keys_with_keys f g (r : R * option key) : with_keys g (with_keys f r) = with_keys (λ k, g (f k)) r.
Proof. by destruct r as [b [k|]]. Qed.

Lemma with_keys_id (r : R * option key) : with_keys (λ k, k) r = r.
Proof. by destruct r as [b [k|]]. Qed.

Lemma assign_run k id s :
  ∃ s', assign objects k id s = (s', Ret tt) ∧ txState s' = txState s ∧
    (good s → good s') ∧
    (fresh_engines → good s → ∀ c id', stored s' c id' = with_keys (seen objects k id) <$> stored s c id').
Proof.
  eexists. split; [reflexivity|]. split; [done|]. split.
  - intros Hg c e. simpl. rewrite lookup_fmap. intros (e0 & He0 & ->)%fmap_Some. apply rekey_spec. by eapply Hg.
  - intros Hnew Hg c id'. unfold stored, engine_of. simpl. rewrite lookup_fmap.
    destruct (db_collections s !! c) as [e0|] eqn:He; simpl.
    + destruct (rekey_spec (seen objects k id) e0 (Hg c e0 He)) as (_ & -> & _). by rewrite lookup_fmap.
    + destruct (Hnew c) as [_ ->]. by rewrite !lookup_empty.
Qed.

(** The state keeps the data of every stored record; their keys see assignments
    to objects that satisfy [P]. *)
Definition keeps_records (P : key → Prop) (s s' : state) : Prop :=
  fresh_engines → good s → good s' ∧
  ∃ f, assignments P f ∧ ∀ c id r, stored s c id = Some r → stored s' c id = Some (with_keys f r).

#[export] Instance keeps_records_preorder P : PreOrder (keeps_records P).
Proof.
  split.
  - intros s Hnew Hg. split; [done|]. exists (λ k, k). split; [constructor|]. intros c id r. by rewrite with_keys_id.
  - intros s1 s2 s3 H12 H23 Hnew Hg. destruct (H12 Hnew Hg) as (Hg2 & f & Hf & Hr2).
    destruct (H23 Hnew Hg2) as (Hg3 & g & Hg' & Hr3). split; [done|]. exists (λ k, g (f k)).
    split; [by apply assignments_then|]. intros c id r Hr. rewrite <- with_keys_with_keys. auto.
Qed.

Lemma same_engines_keep P s s' :
  (fresh_engines → good s → good s') → (∀ c, engine_of s' c = engine_of s c) → keeps_records P s s'.
Proof.
  intros Hg He Hnew Hgood. split; [by apply Hg|]. exists (λ k, k). split; [constructor|].
  intros c id r. unfold stored. by rewrite He, with_keys_id.
Qed.

Lemma keeps_records_mark P : keeps (keeps_records P) (markWrite (E:=E)).
Proof. intros s. by apply same_engines_keep. Qed.
Lemma keeps_records_engine P c : keeps (keeps_records P) (engine cfg c).
Proof.
  intros s. destruct (engine_run s c) as (s' & -> & _ & Hg & He). by apply same_engines_keep.
Qed.

Lemma keeps_records_assign (P : key → Prop) k id : P k → keeps (keeps_records P) (assign objects k id).
Proof.
  intros Hk s Hnew Hgood. destruct (assign_run k id s) as (s' & -> & _ & Hg & Hs). split; [by apply Hg|].
  exists (seen objects k id). split; [by apply (one_more P k id (λ k, k)); [|constructor]|]. intros c id' r Hr. by rewrite Hs, Hr.
Qed.

Lemma keeps_records_save P k data : keeps (keeps_records P) (save cfg k data false).
Proof.
  unfold save. apply keeps_bind; [apply _|intros s; simpl; reflexivity|]. intros _ s.
  destruct (change_run s (Collection k) (λ e, store e (keyID k) k data false)) as (s' & Hs' & _ & Hch).
  rewrite Hs'. intros Hnew Hgood. pose proof (good_engine s (Collection k) Hnew Hgood) as Hok.
  destruct (contents (engine_of s (Collection k)) !! keyID k) as [r0|] eqn:Hold.
  { rewrite store_duplicate in Hch by (try done; by eexists).
    destruct Hch as (_ & Hg & He). by apply (same_engines_keep P s s'). }
  pose proof (store_spec (engine_of s (Collection k)) (keyID k) k data false Hok (or_intror Hold)) as Hst.
  destruct (encode (engine_of s (Collection k)) data) as [r|err|msg];
    [|rewrite Hst in Hch; destruct Hch as (_ & Hg & He); by apply (same_engines_keep P s s')..].
  destruct Hst as (e' & He' & Hok' & Hcont & _). rewrite He' in Hch. destruct Hch as (_ & Hg & Heng).
  split; [by apply Hg|]. exists (λ k, k). split; [constructor|]. intros c id r' Hr'. rewrite with_keys_id.
  unfold stored in *. rewrite Heng.
  destruct (decide (c = Collection k)) as [->|]; [|done]. rewrite Hcont, lookup_insert_ne; [done|].
  intros <-. congruence.
Qed.

(** With a generator the inserted key's object is assigned to, without one no
    object is. *)
Definition insert_assigns (k : key) (options : insertOptions) (k' : key) : Prop :=
  generator random_string_key options ≠ None ∧ later k k'.

Lemma keeps_records_Insert k data options :
  keeps (keeps_records (insert_assigns k options)) (Insert objects cfg random_string_key k data options).
Proof.
  apply (keeps_Insert _ (keeps_records_engine _) (keeps_records_mark _) (keeps_records_save _) (later k)).
  - intros k' id. apply later_own.
  - intros Hgen k' id Hk'. by apply keeps_records_assign.
  - constructor.
Qed.

(** C18: an insert never changes the data of a record that is already there,
    whatever its options: with or without an identifier generator, and whether
    it succeeds or fails.  The key that is stored with the record is a pointer: it
    sees what the generator assigns to the inserted record's key, and nothing
    else.  So a record whose key is another object stays as it is, and without a
    generator every record does. *)
Theorem Insert_never_overwrites k data options s c id r
    (Hnew : fresh_engines) (Hgood : good s) (Hr : stored s c id = Some r) :
  let s' := (Insert objects cfg random_string_key k data options s).1 in
  (∃ f, assignments (later k) f ∧ stored s' c id = Some (r.1, f <$> r.2)) ∧
  (generator random_string_key options = None ∨ (∀ k0, r.2 = Some k0 → untouched (later k) k0) → stored s' c id = Some r).
Proof.
  destruct (keeps_records_Insert k data options s Hnew Hgood) as (_ & f & Hf & Hs). specialize (Hs c id r Hr).
  simpl. split.
  - exists f. split; [|exact Hs]. eapply assignments_weaken; [|exact Hf]. by intros k' [_ ?].
  - rewrite Hs. intros Ho. f_equal. apply (with_keys_untouched (insert_assigns k options)); [done|].
    intros k0 Hk0 k' id' [Hgen Hl]. destruct Ho as [Ho|Ho]; [done|by apply (Ho k0)].
Qed.
End Laws.
