(* ===== verification/MemorySchema.v ===== *)
(** * The options of an in-memory database and the engines they choose
    (src/adapters/dalgo2memory: schema.go, columnar.go, database.go)

    Every collection of a database has the engine that its option chose: the
    serialized one, a columnar one whose columns come from the record type or
    from declared columns, or one that cannot be used and fails on every call.
    [memory_engine] is their sum, and it keeps the contract of MemoryEngine.v. *)

From Stdlib Require Import String Ascii.
From stdpp Require Import base gmap sets list strings.
From S2P Require Import Prelude GoValues GoTypes GoMaps GoStrings GoJSON RecordKey DalQuery DalString.
From S2P Require Import MemoryRows MemoryQuery MemoryUpdate MemoryEngine MemoryColumnar MemoryColumnarLaws MemorySession MemorySessionLaws.

Local Open Scope string_scope.
Local Open Scope nat_scope.
Local Open Scope list_scope.

(** ** Columns *)

(** The key that a field marshals to; [None] when it is not serialized. *)
Definition jsonFieldName (f : structField) : option string :=
  if negb (field_exported f) then None
  else
    match field_tag f with
    | None => Some (field_Name f)
    | Some tag =>
        let name := default "" (head (Split tag ","%char)) in
        if String.eqb name "-" then None
        else if String.eqb name "" then Some (field_Name f)
        else Some name
    end.

(** Can a cell of the type share references with the caller's value? *)
Fixpoint isRefBearing (t : gotype) : bool :=
  match t with
  | TSlice _ | TMap _ _ | TPointer _ | TInterface _ | TFunc _ => true
  | TArray _ elem _ => isRefBearing elem
  | TStruct _ fields => existsb (λ f : structField, f.1.1.2 && isRefBearing f.2) fields
  | _ => false
  end.

Definition column_elem (t : gotype) : gotype := if is_interface t then any_type else t.

(** The columns of a struct's fields. *)
Definition buildColumns (fields : list structField) : columns_schema :=
  omap (λ f, (λ name, mkDecl name (field_Name f) (column_elem (field_Type f)) (isRefBearing (field_Type f)) true)
             <$> jsonFieldName f) fields.

(** Declared columns: the last declaration of a name replaces the others at
    the place of the first, which is [*existing = *col]: the strategy that is
    copied with it still points to the new column. *)
Definition declare_column (columns : columns_schema) (dc : string * gotype) : columns_schema :=
  let col := mkDecl dc.1 "" (column_elem dc.2) (isRefBearing dc.2) in
  if has_column columns dc.1
  then (λ d, if String.eqb (d_name d) dc.1 then col false else d) <$> columns
  else columns ++ [col true].

Definition buildDeclaredColumns (declared : list (string * gotype)) : columns_schema :=
  fold_left declare_column declared [].

(** ** Engines *)

Inductive memory_engine `{RecordKeys} :=
| Serialized (e : serializedEngine)
| Columnar (e : columnarEngine)
| Unusable.

(** The type of a value, below its pointers. *)
Class PointerTypes := { deref_type : value → gotype }.

Section Schema.
Context `{RecordKeys, GoJSON, Reflect, Decoders, PointerTypes}.

Definition engine_exists (e : memory_engine) (id : string) : bool :=
  match e with Serialized e => s_exists e id | Columnar e => c_exists e id | Unusable => false end.

Definition engine_store (e : memory_engine) (id : string) (k : key) (data : value) (overwrite : bool)
  : res mem_error memory_engine :=
  match e with
  | Serialized e => rmap Serialized (s_store e id k data overwrite)
  | Columnar e => rmap Columnar (c_store e id k data overwrite)
  | Unusable => Fail engine_unusable
  end.

Definition engine_load (e : memory_engine) (id : string) (target : value) : res mem_error value :=
  match e with
  | Serialized e => s_load e id target
  | Columnar e => c_load e id target
  | Unusable => Fail engine_unusable
  end.

Definition engine_delete (e : memory_engine) (id : string) : memory_engine :=
  match e with
  | Serialized e => Serialized (s_delete e id)
  | Columnar e => Columnar (c_delete e id)
  | Unusable => Unusable
  end.

Definition engine_update (e : memory_engine) (id : string) (updates : list Update) : res mem_error memory_engine :=
  match e with
  | Serialized e => rmap Serialized (s_update e id updates)
  | Columnar e => rmap Columnar (c_update e id updates)
  | Unusable => Fail engine_unusable
  end.

Definition engine_rows (e : memory_engine) : res mem_error (list memoryRow) :=
  match e with
  | Serialized e => s_rows e
  | Columnar e => c_rows e
  | Unusable => Fail engine_unusable
  end.

Definition engine_candidateRows (e : memory_engine) (condition : option Condition)
  : res mem_error (option (list memoryRow)) :=
  match e with
  | Serialized _ => Ret None
  | Columnar e => candidateRows e condition
  | Unusable => Fail engine_unusable
  end.

Definition engine_rekey (f : key → key) (e : memory_engine) : memory_engine :=
  match e with
  | Serialized e => Serialized (s_rekey f e)
  | Columnar e => Columnar (c_rekey f e)
  | Unusable => Unusable
  end.

#[export] Instance memory_storage : StorageEngine memory_engine := {|
  exists_ := engine_exists;
  store := engine_store;
  load := engine_load;
  delete_ := engine_delete;
  update := engine_update;
  rows := engine_rows;
  candidate_rows := engine_candidateRows;
  rekey := engine_rekey;
|}.

(** ** Options *)

Record columnarConfig := mkColumnarConfig {
  cc_refBreakOver : option bool;
  cc_declared : list (string * gotype);
}.

Definition ColumnOption : Type := columnarConfig → columnarConfig.

Definition WithDeclaredColumn (T : gotype) (name : string) : ColumnOption := λ cfg,
  mkColumnarConfig (cc_refBreakOver cfg) (cc_declared cfg ++ [(name, T)]).

Definition WithColumnarRefBreaking (refBreaking : bool) : ColumnOption := λ cfg,
  mkColumnarConfig (Some refBreaking) (cc_declared cfg).

(** The fields of the record type, when it is a struct. *)
Definition structTypeOf (factory : option value) : option (list structField) :=
  match factory with
  | None => None
  | Some v => match deref_type v with TStruct _ fields => Some fields | _ => None end
  end.

Definition isMapBackedFactory (factory : option value) : bool :=
  match factory with
  | None => false
  | Some v => String.eqb (Type_Name (deref_type v)) any_map_type
  end.

Definition newMapBackedEngine (collection : string) (refBreak : bool) (cfg : columnarConfig) : memory_engine :=
  match cc_declared cfg with
  | [] => Unusable
  | declared => Columnar (new_columnar collection (buildDeclaredColumns declared) refBreak true)
  end.

Definition newColumnarEngineFactory (cfg : columnarConfig) : engineFactory (E:=memory_engine) :=
  λ collection factory schemaRefBreaking,
    let refBreak := default schemaRefBreaking (cc_refBreakOver cfg) in
    match structTypeOf factory with
    | Some fields => Columnar (new_columnar collection (buildColumns fields) refBreak false)
    | None =>
        if isMapBackedFactory factory then newMapBackedEngine collection refBreak cfg else Unusable
    end.

Definition newSerializedEngineFactory : engineFactory (E:=memory_engine) :=
  λ collection factory _, Serialized (newSerializedEngine collection factory).

Record collectionDef := mkCollectionDef {
  cd_name : string;
  cd_newRecord : value;
  cd_newEngine : option (engineFactory (E:=memory_engine));
}.

Definition CollectionOption : Type := collectionDef → collectionDef.

Definition WithSerializedStorage : CollectionOption := λ def,
  mkCollectionDef (cd_name def) (cd_newRecord def) (Some newSerializedEngineFactory).

Definition WithColumnarStorage (opts : list ColumnOption) : CollectionOption := λ def,
  let cfg := fold_left (λ cfg opt, opt cfg) opts (mkColumnarConfig None []) in
  mkCollectionDef (cd_name def) (cd_newRecord def) (Some (newColumnarEngineFactory cfg)).

(** [newRecord]: what the record factory returns, the new zero value when there
    is no factory. *)
Definition WithCollection (name : string) (newRecord : value) (opts : list CollectionOption) : collectionDef :=
  fold_left (λ def opt, opt def) opts (mkCollectionDef name newRecord None).

Notation config := (config (E:=memory_engine)).
Definition Option : Type := config → config.

Definition WithNoReadsAfterWritesInTransaction : Option := λ db,
  mkConfig (db_schema db) true (db_schemaRefBreaking db) (serializedEngineFactory db).

Definition WithoutSchemaRefBreaking : Option := λ db,
  mkConfig (db_schema db) (db_noReadsAfterWritesInTransaction db) false (serializedEngineFactory db).

(** A later definition of a collection replaces its record factory; its engine
    only when it chose one. *)
Definition WithSchema (allowUndefinedCollections : bool) (collections : list collectionDef) : Option := λ db,
  let factories := fold_left (λ m c, <[cd_name c := cd_newRecord c]> m) collections ∅ in
  let engines := fold_left (λ m c,
    match cd_newEngine c with Some f => <[cd_name c := f]> m | None => m end) collections ∅ in
  mkConfig (Some (mkSchema factories engines allowUndefinedCollections))
    (db_noReadsAfterWritesInTransaction db) (db_schemaRefBreaking db) (serializedEngineFactory db).

(** The database before its first operation; nil options are skipped. *)
Definition NewDB (options : list (option Option)) : config :=
  fold_left (λ db o, match o with Some option => option db | None => db end) options
    (mkConfig None false true newSerializedEngineFactory).

(** ** The contract *)

Definition memory_record : Type := json + list value * option row_map.

Definition marked {A B} (f : A → B) (r : A * option key) : B * option key := (f r.1, r.2).
Definition tagged {A B} (f : A → B) (m : gmap string (A * option key)) : gmap string (B * option key) :=
  marked f <$> m.

#[export] Instance memory_model : EngineModel memory_engine memory_record := {|
  engine_ok e := match e with Serialized e => engine_ok e | Columnar e => engine_ok e | Unusable => False end;
  contents e :=
    match e with
    | Serialized e => tagged inl (contents e)
    | Columnar e => tagged inr (contents e)
    | Unusable => ∅
    end;
  encode e data :=
    match e with
    | Serialized e => rmap inl (encode e data)
    | Columnar e => rmap inr (encode e data)
    | Unusable => Fail engine_unusable
    end;
  document e r :=
    match e, r with
    | Serialized e, inl r => document e r
    | Columnar e, inr r => document e r
    | _, _ => Fail engine_unusable
    end;
  check_updates e :=
    match e with
    | Serialized e => check_updates e
    | Columnar e => check_updates e
    | Unusable => λ _, Fail engine_unusable
    end;
|}.

(** One kind of engine inside the sum. *)
Section Tagged.
Context {E R : Type} `{!StorageEngine E} `{!EngineModel E R} `{!EngineLaws E R}.
Context (tag : E → memory_engine) (mark : R → memory_record).

Record embeds : Prop := {
  emb_exists e id : engine_exists (tag e) id = exists_ e id;
  emb_store e id k data ow : engine_store (tag e) id k data ow = rmap tag (store e id k data ow);
  emb_load e id target : engine_load (tag e) id target = load e id target;
  emb_delete e id : engine_delete (tag e) id = tag (delete_ e id);
  emb_update e id us : engine_update (tag e) id us = rmap tag (update e id us);
  emb_rows e : engine_rows (tag e) = rows e;
  emb_rekey f e : engine_rekey f (tag e) = tag (rekey f e);
  emb_ok e : engine_ok (tag e) = engine_ok e;
  emb_contents e : contents (tag e) = tagged mark (contents e);
  emb_encode e data : encode (tag e) data = rmap mark (encode e data);
  emb_document e r : document (tag e) (mark r) = document e r;
  emb_check e us : check_updates (tag e) us = check_updates e us;
  emb_same e e' : encode e' = encode e → document e' = document e → check_updates e' = check_updates e →
    encode (tag e') = encode (tag e) ∧ document (tag e') = document (tag e) ∧
    check_updates (tag e') = check_updates (tag e);
}.

Context (Hemb : embeds).

Lemma tag_lookup e id : contents (tag e) !! id = marked mark <$> contents e !! id.
Proof. rewrite (emb_contents Hemb). unfold tagged. by rewrite lookup_fmap. Qed.

Lemma tag_holds e e' m : now_holds e e' m → now_holds (tag e) (tag e') (tagged mark m).
Proof.
  intros (Hok & Hm & He & Hd & Hc). unfold now_holds. rewrite (emb_ok Hemb), (emb_contents Hemb), Hm.
  destruct (emb_same Hemb e e' He Hd Hc) as (? & ? & ?). by split_and!.
Qed.

Lemma tag_row e id r : row_of (tag e) id (marked mark r) = row_of e id r.
Proof. unfold row_of, marked. cbn [fst snd]. by rewrite (emb_document Hemb). Qed.

Lemma tagged_insert id r k (m : gmap string (R * option key)) :
  tagged mark (<[id := (r, k)]> m) = <[id := (mark r, k)]> (tagged mark m).
Proof. unfold tagged. by rewrite fmap_insert. Qed.

Lemma tag_exists_spec e id :
  engine_ok e → engine_exists (tag e) id = bool_decide (is_Some (contents (tag e) !! id)).
Proof.
  intros Hok. rewrite (emb_exists Hemb), (exists_spec e id Hok), tag_lookup.
  apply bool_decide_ext. by rewrite fmap_is_Some.
Qed.

Lemma tag_store_duplicate e id k data :
  engine_ok e → is_Some (contents (tag e) !! id) → engine_store (tag e) id k data false = Fail record_already_exists.
Proof.
  intros Hok Hid. rewrite tag_lookup, fmap_is_Some in Hid.
  by rewrite (emb_store Hemb), (store_duplicate e id k data Hok Hid).
Qed.

Lemma tag_store_spec e id k data ow :
  engine_ok e → ow = true ∨ contents (tag e) !! id = None →
  match encode (tag e) data with
  | Ret r => ∃ e', engine_store (tag e) id k data ow = Ret e' ∧
      now_holds (tag e) e' (<[id := (r, Some k)]> (contents (tag e)))
  | Fail err => engine_store (tag e) id k data ow = Fail err
  | Panic msg => engine_store (tag e) id k data ow = Panic msg
  end.
Proof.
  intros Hok Hor. rewrite tag_lookup, fmap_None in Hor.
  pose proof (store_spec e id k data ow Hok Hor) as Hs.
  rewrite (emb_encode Hemb), (emb_store Hemb), (emb_contents Hemb).
  destruct (encode e data) as [r| |]; simpl; [|by rewrite Hs..].
  destruct Hs as (e' & -> & Hh). exists (tag e'). split; [done|].
  apply tag_holds in Hh. by rewrite tagged_insert in Hh.
Qed.

Lemma tag_load_spec e id target :
  engine_ok e →
  engine_load (tag e) id target =
    match contents (tag e) !! id with
    | None => Fail not_found
    | Some r => do b <- document (tag e) r.1; Unmarshal_into b target
    end.
Proof.
  intros Hok. rewrite (emb_load Hemb), (load_spec e id target Hok), tag_lookup.
  destruct (contents e !! id) as [r|]; [|done]. cbn [fmap option_fmap option_map marked fst].
  by rewrite (emb_document Hemb).
Qed.

Lemma tag_delete_spec e id :
  engine_ok e → now_holds (tag e) (engine_delete (tag e) id) (delete id (contents (tag e))).
Proof.
  intros Hok. rewrite (emb_delete Hemb), (emb_contents Hemb). unfold tagged. rewrite <- fmap_delete.
  by apply tag_holds, delete_spec.
Qed.

Lemma tag_update_missing e id us :
  engine_ok e → contents (tag e) !! id = None → engine_update (tag e) id us = Fail not_found.
Proof.
  intros Hok Hid. rewrite tag_lookup, fmap_None in Hid.
  by rewrite (emb_update Hemb), (update_missing e id us Hok Hid).
Qed.

Lemma tag_updated e r us : updated (tag e) (mark r) us = rmap mark (updated e r us).
Proof.
  unfold updated. rewrite (emb_document Hemb). destruct (document e r) as [b| |]; cbn [rbind rmap]; [|done..].
  destruct (unmarshal_map b) as [data|]; [|done]. rewrite (emb_check Hemb).
  destruct (check_updates e us); cbn [rbind rmap]; [|done..].
  destruct (applyUpdatesToMap data us); cbn [rbind rmap]; [|done..]. apply (emb_encode Hemb).
Qed.

Lemma tag_update_spec e id us r :
  engine_ok e → contents (tag e) !! id = Some r →
  match updated (tag e) r.1 us with
  | Ret r' => ∃ e', engine_update (tag e) id us = Ret e' ∧
      now_holds (tag e) e' (<[id := (r', r.2)]> (contents (tag e)))
  | Fail err => engine_update (tag e) id us = Fail err
  | Panic msg => engine_update (tag e) id us = Panic msg
  end.
Proof.
  intros Hok Hid. rewrite tag_lookup in Hid. apply fmap_Some in Hid as ([r0 k] & Hid & ->). cbn [marked fst snd].
  pose proof (update_spec e id us (r0, k) Hok Hid) as Hs. simpl in Hs.
  rewrite tag_updated, (emb_update Hemb), (emb_contents Hemb).
  destruct (updated e r0 us) as [r'| |]; simpl; [|by rewrite Hs..].
  destruct Hs as (e' & -> & Hh). exists (tag e'). split; [done|].
  apply tag_holds in Hh. by rewrite tagged_insert in Hh.
Qed.

Lemma tag_rows_spec e :
  engine_ok e → ∃ l, l ≡ₚ map_to_list (contents (tag e)) ∧
    engine_rows (tag e) = traverse (λ _ x, row_of (tag e) x.1 x.2) l.
Proof.
  intros Hok. destruct (rows_spec e Hok) as (l & Hl & Hrows).
  exists ((λ x, (x.1, marked mark x.2)) <$> l). split.
  - rewrite Hl, (emb_contents Hemb). unfold tagged. by rewrite map_to_list_fmap.
  - rewrite (emb_rows Hemb), Hrows. symmetry. apply traverse_from_map. intros _ [id r] _. apply tag_row.
Qed.

Lemma tag_rekey_spec f e :
  engine_ok e → now_holds (tag e) (engine_rekey f (tag e)) (with_keys f <$> contents (tag e)).
Proof.
  intros Hok. rewrite (emb_rekey Hemb), (emb_contents Hemb).
  replace (with_keys f <$> tagged mark (contents e)) with (tagged mark (with_keys f <$> contents e)).
  - by apply tag_holds, rekey_spec.
  - unfold tagged. by rewrite <- !map_fmap_compose.
Qed.
End Tagged.

Existing Instance serialized_engine_laws.
Existing Instance columnar_engine_contract.

Lemma embeds_serialized : embeds Serialized inl.
Proof.
  split; try done. intros e e' He Hd Hc. split_and!; [|done|exact Hc].
  set (g (f : value → res mem_error json) (data : value) := rmap (@inl json (list value * option row_map)) (f data)).
  change (g (encode e') = g (encode e)). by rewrite He.
Qed.

Lemma embeds_columnar : embeds Columnar inr.
Proof.
  split; try done. intros e e' He Hd Hc. split_and!; [..|exact Hc].
  - set (g (f : value → res mem_error (list value * option row_map)) (data : value) := rmap (@inr json _) (f data)).
    change (g (encode e') = g (encode e)). by rewrite He.
  - set (g (f : list value * option row_map → res mem_error json) (r : memory_record) :=
      match r with inr r => f r | inl _ => Fail engine_unusable end).
    change (g (document e') = g (document e)). by rewrite Hd.
Qed.

(** C5: whatever engine a collection's options choose, serialized or columnar
    with its slots, free list, tombstones and compaction, it holds a finite map
    from identifiers to records: every operation answers as that map does and
    leaves the map with the change applied. *)
Theorem memory_engine_laws : EngineLaws memory_engine memory_record.
Proof.
  pose proof embeds_serialized as Hs. pose proof embeds_columnar as Hc. split.
  - intros [e|e|]; [apply (tag_exists_spec Serialized inl Hs)|apply (tag_exists_spec Columnar inr Hc)|done].
  - intros [e|e|]; [apply (tag_store_duplicate Serialized inl Hs)|apply (tag_store_duplicate Columnar inr Hc)|done].
  - intros [e|e|]; [apply (tag_store_spec Serialized inl Hs)|apply (tag_store_spec Columnar inr Hc)|done].
  - intros [e|e|]; [apply (tag_load_spec Serialized inl Hs)|apply (tag_load_spec Columnar inr Hc)|done].
  - intros [e|e|]; [apply (tag_delete_spec Serialized inl Hs)|apply (tag_delete_spec Columnar inr Hc)|done].
  - intros [e|e|]; [apply (tag_update_missing Serialized inl Hs)|apply (tag_update_missing Columnar inr Hc)|done].
  - intros [e|e|]; [apply (tag_update_spec Serialized inl Hs)|apply (tag_update_spec Columnar inr Hc)|done].
  - intros [e|e|]; [apply (tag_rows_spec Serialized inl Hs)|apply (tag_rows_spec Columnar inr Hc)|done].
  - intros f [e|e|]; [apply (tag_rekey_spec Serialized inl Hs)|apply (tag_rekey_spec Columnar inr Hc)|done].
Qed.

(** ** New databases *)

Lemma new_columnar_ok collection columns refBreak mapBacked :
  columnar_ok (new_columnar collection columns refBreak mapBacked) ∧
  c_contents (new_columnar collection columns refBreak mapBacked) = ∅.
Proof.
  split; [|apply fmap_empty]. split; simpl; try done.
  - apply Forall_fmap, Forall_true. done.
  - intros id slot. rewrite lookup_empty. split; [done|]. by intros [].
  - constructor.
  - intros slot. split; [|done]. by intros ?%not_elem_of_nil.
Qed.

(** An engine without records, and so without keys, that can be used. *)
Definition keyless (e : memory_engine) : Prop := ∀ f, rekey f e = e.
Definition fresh_engine (e : memory_engine) : Prop := engine_ok e ∧ contents e = ∅ ∧ keyless e.

Lemma newSerializedEngineFactory_fresh c factory b : fresh_engine (newSerializedEngineFactory c factory b).
Proof.
  split; [done|]. split; [by apply map_eq|]. intros f. simpl. unfold s_rekey. simpl. by rewrite fmap_empty.
Qed.

(** A columnar collection cannot be used when its record type is neither a
    struct nor a map with declared columns. *)
Lemma newColumnarEngineFactory_cases cfg c factory b :
  if decide (structTypeOf factory = None ∧ (isMapBackedFactory factory = false ∨ cc_declared cfg = []))
  then newColumnarEngineFactory cfg c factory b = Unusable
  else fresh_engine (newColumnarEngineFactory cfg c factory b).
Proof.
  unfold newColumnarEngineFactory, newMapBackedEngine.
  assert (Hcol : ∀ cols rb mb, fresh_engine (Columnar (new_columnar c cols rb mb))).
  { intros cols rb mb. destruct (new_columnar_ok c cols rb mb) as [Hok Hc]. split; [done|].
    split; [|done]. change (tagged (@inr json _) (c_contents (new_columnar c cols rb mb)) = ∅). by rewrite Hc. }
  destruct (structTypeOf factory); [by rewrite decide_False by naive_solver|].
  destruct (isMapBackedFactory factory); [|by rewrite decide_True by naive_solver].
  destruct (cc_declared cfg); [by rewrite decide_True by naive_solver|by rewrite decide_False by naive_solver].
Qed.

(** The options of the package as data. *)
Inductive storage_option := OptSerialized | OptColumnar (opts : list ColumnOption).
Definition run_storage_option (o : storage_option) : CollectionOption :=
  match o with OptSerialized => WithSerializedStorage | OptColumnar opts => WithColumnarStorage opts end.

Inductive db_option :=
| OptNoReadsAfterWrites
| OptNoRefBreaking
| OptSchema (allowUndefined : bool) (collections : list (string * value * list storage_option)).
Definition run_db_option (o : db_option) : Option :=
  match o with
  | OptNoReadsAfterWrites => WithNoReadsAfterWritesInTransaction
  | OptNoRefBreaking => WithoutSchemaRefBreaking
  | OptSchema allow cs =>
      WithSchema allow ((λ c, WithCollection c.1.1 c.1.2 (run_storage_option <$> c.2)) <$> cs)
  end.

Definition good_factory (f : engineFactory (E:=memory_engine)) : Prop :=
  ∀ c factory b, f c factory b = Unusable ∨ fresh_engine (f c factory b).

Lemma newColumnarEngineFactory_good cfg : good_factory (newColumnarEngineFactory cfg).
Proof.
  intros c factory b. pose proof (newColumnarEngineFactory_cases cfg c factory b). by case_decide; [left|right].
Qed.

Lemma WithCollection_good name v opts f :
  cd_newEngine (WithCollection name v (run_storage_option <$> opts)) = Some f → good_factory f.
Proof.
  unfold WithCollection. intros Hf.
  assert (Hgen : ∀ def, (∀ f, cd_newEngine def = Some f → good_factory f) →
    ∀ f, cd_newEngine (fold_left (λ def opt, opt def) (run_storage_option <$> opts) def) = Some f → good_factory f).
  { clear. induction opts as [|o opts IH]; intros def Hdef; [done|]. apply IH. intros f.
    destruct o; intros [= <-]; [intros c factory b; right; apply newSerializedEngineFactory_fresh|].
    apply newColumnarEngineFactory_good. }
  eapply Hgen; [|exact Hf]. by intros f' [=].
Qed.

Definition good_config (cfg : config) : Prop :=
  serializedEngineFactory cfg = newSerializedEngineFactory ∧
  ∀ schema c f, db_schema cfg = Some schema → sc_engines schema !! c = Some f → good_factory f.

Lemma run_db_option_good o cfg : good_config cfg → good_config (run_db_option o cfg).
Proof.
  intros [Hs Hf]. destruct o as [| |allow cs]; [by split..|]. split; [done|].
  intros schema c f. simpl. intros [= <-]. simpl.
  assert (Hgen : ∀ m : gmap string engineFactory, (∀ c f, m !! c = Some f → good_factory f) →
    ∀ c f, fold_left (λ m c, match cd_newEngine c with Some f => <[cd_name c := f]> m | None => m end)
      ((λ c, WithCollection c.1.1 c.1.2 (run_storage_option <$> c.2)) <$> cs) m !! c = Some f → good_factory f).
  { clear. induction cs as [|d cs IH]; intros m Hm; [done|]. apply IH. intros c f.
    destruct (cd_newEngine _) as [g|] eqn:Hg; [|apply Hm].
    intros [[_ <-]|[_ Hc]]%lookup_insert_Some; [by eapply WithCollection_good|by eapply Hm]. }
  apply Hgen. intros c' f'. by rewrite lookup_empty.
Qed.

(** Every engine that a new database creates is empty and usable, but those of
    columnar collections without columns. *)
Lemma NewDB_engines (options : list db_option) c :
  let cfg := NewDB ((λ o, Some (run_db_option o)) <$> options) in
  new_engine cfg c = Unusable ∨ fresh_engine (new_engine cfg c).
Proof.
  simpl. assert (Hgood : good_config (NewDB ((λ o, Some (run_db_option o)) <$> options))).
  { unfold NewDB. assert (Hgen : ∀ cfg, good_config cfg →
      good_config (fold_left (λ db o, match o with Some option => option db | None => db end)
        ((λ o, Some (run_db_option o)) <$> options) cfg)).
    { induction options as [|o options IH]; intros cfg Hcfg; [done|]. by apply IH, run_db_option_good. }
    apply Hgen. split; [done|]. intros schema c' f [=]. }
  destruct Hgood as [Hs Hf]. unfold new_engine. rewrite Hs.
  destruct (db_schema _) as [schema|]; [|right; apply newSerializedEngineFactory_fresh].
  destruct (sc_engines schema !! c) as [f|] eqn:Hc; [by eapply Hf|right; apply newSerializedEngineFactory_fresh].
Qed.

Lemma memory_engines_keyless (options : list db_option) :
  keyless_engines (NewDB ((λ o, Some (run_db_option o)) <$> options)).
Proof. intros f c. by destruct (NewDB_engines options c) as [->|(_ & _ & Hk)]. Qed.
End Schema.
