(* ===== verification/MemoryExamples.v ===== *)
(** * The in-memory adapter on concrete data

    Instances of the parameters, and the theorems of the adapter on them. *)

From Stdlib Require Import String SpecFloat Sorted.
From stdpp Require Import base gmap sets list strings.
From S2P Require Import Prelude StableSort GoValues GoTypes GoMaps GoStrings GoJSON RecordKey DalQuery DalString.
From S2P Require Import MemoryRows MemoryQuery MemoryOrder MemoryResults MemoryGroups MemoryUpdate MemoryEngine MemorySession.
From S2P Require Import MemorySessionLaws MemoryColumnar MemoryColumnarLaws MemoryIndex MemorySchema.

Local Open Scope string_scope.
Local Open Scope nat_scope.
Local Open Scope list_scope.

Definition plain_json : GoJSON := {|
  json_field _ name := Some (name, false);
  method_MarshalJSON _ := None;
  json_float _ _ := "0";
  reparse_float32 f := f;
|}.

Definition plain_decoders : Decoders := {|
  Unmarshal_into j _ := Ret (unmarshal_any (H:=plain_json) j);
  decode_strict _ _ := true;
|}.

(** The integer that a float64 holds. *)
Definition Z_of_float (f : spec_float) : option Z :=
  match f with
  | S754_zero _ => Some 0%Z
  | S754_finite s m e =>
      let n := if (0 <=? e)%Z then (Z.pos m * 2 ^ e)%Z else (Z.pos m / 2 ^ (- e))%Z in
      Some (if s then (- n)%Z else n)
  | _ => None
  end.

(** Columns of strings, floats and integers. *)
Definition plain_reflect : Reflect := {|
  TypeOf _ := any_type;
  Unmarshal_new t j :=
    match t, j with
    | TString n, JString s => Some (VString n s)
    | TFloat n k, JFloat _ f => Some (VFloat n k f)
    | TInt n k, JFloat _ f => VInt n k <$> Z_of_float f
    | _, _ => None
    end;
|}.

Module MemoryExamples.
#[local] Existing Instance plain_fmt.
#[local] Existing Instance plain_json.
#[local] Existing Instance plain_decoders.
#[local] Existing Instance plain_reflect.
#[local] Existing Instance chain_keys.

Definition new_key (collection id : string) : key (RecordKeys:=chain_keys) := ChainKey collection (vstr id) None.
Definition num (z : Z) : value := vfloat (float_of_Z z).

Definition ann : row_map := [("age", num 30); ("city", vstr "Cork"); ("name", vstr "Ann")].
Definition bob : row_map := [("age", num 25); ("city", vstr "Oslo"); ("name", vstr "Bob")].
Definition eve : row_map := [("age", num 41); ("city", vstr "Cork"); ("name", vstr "Eve")].

Definition row (id : string) (data : row_map) : memoryRow :=
  mkRow id data (JObject []) (Some (new_key "users" id)).
Definition users : list memoryRow := [row "a" ann; row "e" eve; row "b" bob].

Definition age : Expression := FieldRef "" "age" false.
Definition city : Expression := FieldRef "" "city" false.
Definition adults : Condition := Comparison GreaterThen age (Constant (vint 18)).
Definition in_cork : Condition := Comparison Equal city (Constant (vstr "Cork")).

Definition base : RecordsetSource := CollectionRef false "users" "" None.
Definition by_age : structuredQuery :=
  mkQuery (Some (From_ base)) (Some in_cork) [] None [mkOrder age true]
    [mkColumn "n" (FieldRef "" "name" false)] None [] 0 1 0 "".

Definition kinds (source name : string) : bool := String.eqb name "age".

Lemma Where_conjunction_witness :
  let qb := fold_left Where [[in_cork]; [adults]] (NewQuery (From_ base)) in
  let q := (newQuery qb).2 in
  ∃ b, matchesWhere ann (q_where q) = Ret b ∧
       (b = true ↔ ∀ c, c ∈ [in_cork; adults] → matchesCondition ann c = Ret true).
Proof.
  apply (Where_conjunction ann (From_ base) [[in_cork]; [adults]]).
  intros c Hc. apply elem_of_cons in Hc as [->|Hc]; [by eexists|].
  apply list_elem_of_singleton in Hc as ->. by eexists.
Defined.

Lemma users_evaluate : evaluates (q_where by_age) users.
Proof.
  intros r Hr. repeat (apply elem_of_cons in Hr as [->|Hr]; [eexists; vm_compute; reflexivity|]).
  by apply not_elem_of_nil in Hr.
Qed.

Lemma users_orderable : orderable_rows by_age base kinds users.
Proof.
  split.
  - apply (bool_decide_eq_true_1 (NoDup (row_id <$> users))). vm_compute. reflexivity.
  - repeat constructor.
Qed.

Lemma executeQuery_selects_witness :
  ∃ sel results,
    executeQuery new_key Unmarshal_into by_age base None users = Ret results ∧
    sel ≡ₚ List.filter (matching by_age base) users ∧
    StronglySorted (row_precedes by_age base) sel ∧
    Forall2 (λ r x, result_of new_key Unmarshal_into by_age base None r = Ret x)
      (limited (q_limit by_age) sel) results.
Proof.
  apply (executeQuery_selects new_key Unmarshal_into by_age base None kinds users);
    [reflexivity | reflexivity | reflexivity | exact users_evaluate | | exact users_orderable].
  intros r _. by eexists.
Defined.

Lemma executeQuery_deterministic_witness :
  executeQuery new_key Unmarshal_into by_age base None users
  = executeQuery new_key Unmarshal_into by_age base None (rev users).
Proof.
  apply (executeQuery_deterministic new_key Unmarshal_into by_age base None kinds);
    [reflexivity | exact users_evaluate | exact users_orderable | apply Permutation_rev].
Defined.

(** Groups without ORDER BY come in the order in which the map of the rows is
    enumerated, and get their keys by it. *)
Definition by_city : structuredQuery :=
  mkQuery (Some (From_ base)) None [city] None [] [mkColumn "" city] None [] 0 0 0 "".

Example groups_follow_the_map :
  let run rows := rmap (map (λ r, (rec_key r, rec_data r))) (executeQuery new_key Unmarshal_into by_city base None rows) in
  let group i c := (new_key "users" i, vmap [("city", vstr c)]) in
  run users = Ret [group "0" "Cork"; group "1" "Oslo"] ∧
  run (rev users) = Ret [group "0" "Oslo"; group "1" "Cork"].
Proof. vm_compute. done. Qed.

Definition sources : list rowSources := (λ r, baseSources base (row_data r)) <$> users.
Definition known : known_sources := known_base base.

Lemma partition_groups_witness :
  ∃ groups keys, partition [city] sources known = Ret groups ∧ NoDup groups.*1 ∧
    (∀ k rs, (k, rs) ∈ groups ↔ rs = List.filter (has_group_key [city] known k) sources ∧ rs ≠ []) ∧
    List.concat groups.*2 ≡ₚ sources ∧
    Forall2 (λ r k, groupKey [city] r known = Ret k) sources keys ∧ groups.*1 = first_seen keys.
Proof.
  apply (partition_groups [city] known sources). intros r Hr.
  repeat (apply elem_of_cons in Hr as [->|Hr]; [eexists; vm_compute; reflexivity|]).
  by apply not_elem_of_nil in Hr.
Defined.

Lemma evalAggregate_spec_witness :
  evalAggregate COUNT [age] sources known = Ret (vint 3) ∧
  ∃ least, evalAggregate MIN [age] sources known = Ret least ∧ is_best true least (values_of age known sources).
Proof.
  destruct (evalAggregate_spec age known "" "age" false sources true) as (Hcount & _ & Hbest).
  - reflexivity.
  - intros r Hr.
    repeat (apply elem_of_cons in Hr as [->|Hr]; [eexists; vm_compute; reflexivity|]).
    by apply not_elem_of_nil in Hr.
  - repeat constructor.
  - split; [exact Hcount|]. destruct Hbest as (least & _ & Hmin & Hleast & _); [discriminate|].
    by exists least.
Defined.

Definition orders : list memoryRow :=
  [mkRow "o1" [("total", num 7); ("user", vstr "Ann")] (JObject []) None].
Definition left_join : JoinedSource :=
  mkJoin (CollectionRef false "orders" "o" None) JoinLeft
    [Comparison Equal (FieldRef "" "name" false) (FieldRef "o" "user" false)].

Lemma join_rows_spec_witness :
  ∃ rows, join_rows left_join "users" "o" [""; "users"; "o"] users orders = Ret rows ∧
    ∀ x, x ∈ rows ↔ ∃ br, br ∈ users ∧
      ((∃ jr, jr ∈ orders ∧ on_holds left_join "users" "o" [""; "users"; "o"] br jr ∧ x = joined "users" "o" br jr) ∨
       (join_joinType left_join = JoinLeft ∧
        (∀ jr, jr ∈ orders → ¬ on_holds left_join "users" "o" [""; "users"; "o"] br jr) ∧ x = unmatched "users" "o" br)).
Proof.
  apply (join_rows_spec left_join "users" "o" [""; "users"; "o"] users orders). intros br jr Hbr Hjr.
  apply list_elem_of_singleton in Hjr as ->.
  repeat (apply elem_of_cons in Hbr as [->|Hbr]; [eexists; vm_compute; reflexivity|]).
  by apply not_elem_of_nil in Hbr.
Defined.

(** ** Sessions *)

Definition with_ID (k : key (RecordKeys:=chain_keys)) (id : value) : key (RecordKeys:=chain_keys) :=
  match k with ChainKey c _ p => ChainKey c id p end.
(** Every record has a key object of its own. *)
Definition own_objects : key_objects (H := chain_keys) := mkObjects with_ID (λ _ _ k', k').
Definition schemaless (rule : bool) : config (E:=serializedEngine) :=
  mkConfig None rule true (λ c factory _, newSerializedEngine c factory).
Definition empty_state (rule : bool) : state (E:=serializedEngine) := mkState ∅ (Some (mkTx rule false)).
Definition no_ids (_ : nat) : res mem_error value := Fail (other_error "").

#[local] Instance serialized_laws : EngineLaws serializedEngine json := serialized_engine_laws.

Lemma schemaless_fresh rule : fresh_engines (schemaless rule).
Proof. intros c. split; [done|]. by apply map_eq. Qed.

Lemma empty_good rule : good (empty_state rule).
Proof. intros c e Hc. cbn in Hc. by apply lookup_empty_Some in Hc. Qed.

Lemma no_reads_after_writes_witness :
  let s1 := (run_write own_objects (schemaless true) no_ids (OpSet (new_key "users" "a") (vmap ann)) (empty_state true)).1 in
  run_read (schemaless true) new_key (OpGet (new_key "users" "a") VNil) s1 = (s1, Fail read_after_write).
Proof.
  exact (no_reads_after_writes own_objects (schemaless true) new_key no_ids [] (OpSet (new_key "users" "a") (vmap ann)) []
    (OpGet (new_key "users" "a") VNil) (empty_state true) _ (mkTx true false) eq_refl eq_refl I eq_refl).
Defined.

Definition after_set : state (E:=serializedEngine) :=
  (Set_ (schemaless false) (new_key "users" "a") (vmap ann) (empty_state false)).1.

Lemma Set_Get_witness :
  ∃ r, encode (engine_of (schemaless false) (empty_state false) "users") (vmap ann) = Ret r ∧
    (Get (schemaless false) (new_key "users" "a") VNil after_set).2
    = (do b <- document (engine_of (schemaless false) (empty_state false) "users") r; Unmarshal_into b VNil) ∧
    ∀ c id, (c, id) ≠ ("users", "a") → stored (schemaless false) after_set c id
                                       = stored (schemaless false) (empty_state false) c id.
Proof.
  exact (Set_Get (schemaless false) (new_key "users" "a") (vmap ann) VNil (empty_state false) after_set
    (schemaless_fresh false) (empty_good false) eq_refl eq_refl).
Defined.

Lemma after_set_good : good after_set.
Proof. intros c e Hc. done. Qed.

(** ** Columnar collections *)

Definition person_columns : columns_schema :=
  [mkDecl "age" "Age" (TInt "int" KInt) false true; mkDecl "city" "City" (TString "string") false true].
Definition empty_people : columnarEngine := new_columnar "users" person_columns true false.

Definition people : columnarEngine :=
  match c_store empty_people "a" (new_key "users" "a") (vmap [("age", vint 30); ("city", vstr "Cork")]) true with
  | Ret e => e
  | _ => empty_people
  end.

Lemma people_ok : columnar_ok people.
Proof.
  destruct (new_columnar_ok "users" person_columns true false) as [Hok Hc].
  pose proof (store_spec (EngineLaws:=columnar_engine_contract) empty_people "a" (new_key "users" "a")
    (vmap [("age", vint 30); ("city", vstr "Cork")]) true Hok (or_introl eq_refl)) as Hs.
  assert (Hst : store empty_people "a" (new_key "users" "a") (vmap [("age", vint 30); ("city", vstr "Cork")]) true
    = Ret people) by (vm_compute; reflexivity).
  destruct (encode empty_people _) as [r|err|msg]; [|congruence..].
  destruct Hs as (e' & He' & Hok' & _). rewrite Hst in He'. by injection He' as <-.
Qed.

Definition only_city : structuredQuery :=
  mkQuery (Some (From_ base)) (Some in_cork) [] None [] [mkColumn "n" (FieldRef "" "age" false)] None [] 0 0 0 "".

Lemma people_rows : ∃ all, c_rows people = Ret all ∧ length all = 1.
Proof. eexists. split; [vm_compute; reflexivity|reflexivity]. Qed.

Lemma index_is_full_scan_witness :
  ∃ all candidates, c_rows people = Ret all ∧ length all = 1 ∧
    candidateRows people (q_where only_city) = Ret (Some candidates) ∧
    executeQuery new_key Unmarshal_into only_city base None candidates
    = executeQuery new_key Unmarshal_into only_city base None all.
Proof.
  destruct people_rows as (all & Hall & Hlen).
  destruct (index_is_full_scan new_key people (mkCol (mkDecl "city" "City" (TString "string") false true) [vstr "Cork"])
    "city" "" false (vstr "Cork") only_city base None all people_ok) as (candidates & Hc & He);
    [vm_compute; reflexivity | reflexivity | reflexivity | repeat constructor | reflexivity | intros v _; reflexivity
    | reflexivity | reflexivity | reflexivity | reflexivity | reflexivity | exact Hall |].
  exists all, candidates. split_and!; [exact Hall|exact Hlen|exact Hc|exact He].
Defined.

Definition aged_30 : structuredQuery :=
  mkQuery (Some (From_ base))
    (Some (Comparison Equal age (Constant (VInt "int64" KInt64 30)))) [] None [] [mkColumn "n" (FieldRef "" "city" false)]
    None [] 0 0 0 "".

(** Outside those types the index can miss rows: in a column of type int the
    query [age == int64(30)] finds nothing through the index, and the record on
    a full scan, because the condition compares values read from JSON and the
    index compares Go values with their types. *)
Theorem index_misses_other_types :
  candidateRows people (q_where aged_30) = Ret (Some []) ∧
  (do all <- c_rows people; rmap (@length _) (executeQuery new_key Unmarshal_into aged_30 base None all)) = Ret 1.
Proof. split; vm_compute; reflexivity. Qed.

(** A column of a map collection that is declared twice: the index of the copied
    column never holds a row, so an equality query finds nothing where a full
    scan finds the record. *)
Definition declared_twice : columnarEngine :=
  let e := new_columnar "users" (buildDeclaredColumns [("city", TString "string"); ("city", TString "string")]) true true in
  match c_store e "a" (new_key "users" "a") (vmap [("city", vstr "Cork")]) true with
  | Ret e => e
  | _ => e
  end.

Theorem redeclared_column_finds_nothing :
  candidateRows declared_twice (q_where only_city) = Ret (Some []) ∧
  (do all <- c_rows declared_twice; rmap (@length _) (executeQuery new_key Unmarshal_into only_city base None all)) = Ret 1.
Proof. split; vm_compute; reflexivity. Qed.
End MemoryExamples.

(** ** Key objects

    Keys with addresses: an assignment through one pointer is seen through all
    pointers to the object. *)

Module KeyObjectExamples.
Import MemoryExamples.

Inductive object_key := ObjectKey (address : nat) (collection : string) (id : value) (parent : option object_key).

Fixpoint object_level (k : object_key) : nat :=
  match k with ObjectKey _ _ _ None => 0 | ObjectKey _ _ _ (Some p) => S (object_level p) end.
Definition address (k : object_key) : nat := match k with ObjectKey a _ _ _ => a end.

#[local] Instance object_keys : RecordKeys := {|
  key := object_key;
  Collection k := match k with ObjectKey _ c _ _ => c end;
  key_ID k := match k with ObjectKey _ _ i _ => i end;
  Parent k := match k with ObjectKey _ _ _ p => p end;
  Level := object_level;
  EscapeID s := s;
  key_String k := "";
  key_eqb k k' := Nat.eqb (address k) (address k');
|}.

Fixpoint see_ID (a : nat) (id : value) (k : object_key) : object_key :=
  match k with
  | ObjectKey b c i p =>
      ObjectKey b c (if Nat.eqb a b then id else i) (match p with None => None | Some p => Some (see_ID a id p) end)
  end.
Definition pointers : key_objects := mkObjects (λ k id, see_ID (address k) id k) (λ k id k', see_ID (address k) id k').

#[local] Existing Instance plain_fmt.
#[local] Existing Instance plain_json.
#[local] Existing Instance plain_decoders.
#[local] Instance laws : EngineLaws serializedEngine json := serialized_engine_laws.

Definition cfg : config (E:=serializedEngine) := mkConfig None false true (λ c factory _, newSerializedEngine c factory).
Definition no_records : state (E:=serializedEngine) := mkState ∅ None.
Definition generating (id : string) : insertOptions := mkInsertOptions (Some (λ _, Ret (vstr id))) false.
Definition insert (k : key) (id : string) (s : state (E:=serializedEngine)) : state (E:=serializedEngine) * res mem_error key :=
  Insert pointers cfg no_ids k (vmap ann) (generating id) s.

Definition one : key := ObjectKey 1 "users" VNil None.
Definition other : key := ObjectKey 2 "users" VNil None.
Definition inserted : state (E:=serializedEngine) := (insert one "a" no_records).1.

Lemma inserted_ok : fresh_engines cfg ∧ good inserted.
Proof. split; [|by intros c e Hc]. intros c. split; [done|]. by apply map_eq. Qed.

Lemma later_address k k' : later pointers k k' → address k' = address k.
Proof. induction 1 as [|k' id _ IH|k1 id k' _ IH]; [done|rewrite <- IH; by destruct k'..]. Qed.

(** A record inserted with another key object leaves the stored one alone; the
    stored key sees what an insert of the same object assigns. *)
Lemma Insert_never_overwrites_witness :
  ∃ r, stored cfg inserted "users" "a" = Some r ∧
    stored cfg (insert other "b" inserted).1 "users" "a" = Some r ∧
    ∃ f, stored cfg (insert one "b" inserted).1 "users" "a" = Some (r.1, f <$> r.2).
Proof.
  eexists. split; [vm_compute; reflexivity|]. destruct inserted_ok as [Hnew Hgood]. split.
  - apply (Insert_never_overwrites pointers cfg no_ids other (vmap ann) (generating "b") inserted "users" "a");
      [exact Hnew | exact Hgood | vm_compute; reflexivity |].
    right. intros k0 [= <-] k' id Hl%later_address. simpl. by rewrite Hl.
  - destruct (Insert_never_overwrites pointers cfg no_ids one (vmap ann) (generating "b") inserted "users" "a" _
      Hnew Hgood ltac:(vm_compute; reflexivity)) as [(f & _ & Hf) _]. exists f. exact Hf.
Defined.

(** One record object inserted twice: the record that is stored first, as "a",
    carries the key "b" from then on, and a query of the collection returns the
    key "b" twice. *)
Example inserted_twice :
  let s := (insert one "b" inserted).1 in
  (snd <$> stored cfg inserted "users" "a") = Some (Some (ObjectKey 1 "users" (vstr "a") None)) ∧
  (snd <$> stored cfg s "users" "a") = Some (Some (ObjectKey 1 "users" (vstr "b") None)) ∧
  rmap (map (λ r, key_ID (rec_key r))) (ExecuteQueryToRecordsReader cfg (λ c id, ObjectKey 0 c (vstr id) None)
    (StructuredQuery (mkQuery (Some (From_ (CollectionRef false "users" "" None))) None [] None [] [] None [] 0 0 0 "")) s).2
    = Ret [vstr "b"; vstr "b"].
Proof. vm_compute. done. Qed.

(** A generator that fails clears the identifier of the key, that of the stored
    record included. *)
Example failed_generator_clears :
  let s := (Insert pointers cfg no_ids one (vmap ann) (mkInsertOptions (Some no_ids) false) inserted).1 in
  (snd <$> stored cfg s "users" "a") = Some (Some (ObjectKey 1 "users" VNil None)).
Proof. vm_compute. done. Qed.
End KeyObjectExamples.
