(* ===== verification/MemoryStrategies.v ===== *)
(** * Column strategies of callers
    (src/adapters/dalgo2memory: strategy.go, columnar.go, schema.go)

    A column can be indexed by an object of the caller's, a [ColumnStrategy],
    that the engine tells about every cell it writes, clears or moves and asks for
    the slots that hold a value.  Here an engine comes with such objects; when
    they do what the interface documents, queries read the rows that the default
    strategy selects, whatever was stored, updated, deleted and compacted. *)

From Stdlib Require Import String.
From stdpp Require Import base gmap sets list strings sorting.
From S2P Require Import Prelude StableSort GoValues GoTypes GoMaps GoStrings GoJSON RecordKey DalQuery DalString.
From S2P Require Import MemoryRows MemoryQuery MemoryOrder MemoryResults MemoryUpdate MemoryEngine.
From S2P Require Import MemoryColumnar MemoryColumnarLaws MemoryIndex MemorySchema MemoryExamples.

Local Open Scope string_scope.
Local Open Scope nat_scope.
Local Open Scope list_scope.

(** ** strategy.go *)

(** A set of slots, which are integers. *)
Definition SlotSet : Type := gset Z.

(** The interface, on objects with states [S]; [None] is no opinion. *)
Class ColumnStrategy (S : Type) := {
  SetValue : S → nat → value → S;
  ClearValue : S → nat → S;
  StrategySlots : S → value → option SlotSet;
}.

(** What it documents: the object holds the values it was told of, and answers
    with the slots whose value equals the one asked for. *)
Class StrategyLaws (S : Type) `{ColumnStrategy S} := {
  holds : S → gmap nat value;
  holds_SetValue s slot v : holds (SetValue s slot v) = <[slot := v]> (holds s);
  holds_ClearValue s slot : holds (ClearValue s slot) = delete slot (holds s);
  slots_equal s v X slot : StrategySlots s v = Some X →
    Z.of_nat slot ∈ X ↔ ∃ u, holds s !! slot = Some u ∧ valuesEqualForStrategy u v = Ret true;
}.

(** What the engine tells an object. *)
Inductive notice := NoticeSet (slot : nat) (v : value) | NoticeClear (slot : nat).

Section Strategies.
Context `{RecordKeys, GoJSON, Reflect, Decoders} {S : Type} `{!ColumnStrategy S}.

Definition tell (s : S) (n : notice) : S :=
  match n with NoticeSet slot v => SetValue s slot v | NoticeClear slot => ClearValue s slot end.

(** An engine, the objects that columns are given by name, and their states. *)
Record indexedEngine := mkIndexed {
  ix_engine : columnarEngine;
  ix_names : gmap string nat;
  ix_objects : gmap nat S;
}.

(** ** schema.go and the columns of a new engine *)

(** [cfg.strategies]; a nil strategy stays there and its column gets the default
    one. *)
Definition WithColumnStrategy (name : string) (strategy : option nat) (strategies : gmap string (option nat))
  : gmap string (option nat) :=
  <[name := strategy]> strategies.

Definition new_indexed (collection : string) (columns : list column_decl) (refBreak mapBacked : bool)
    (strategies : gmap string (option nat)) (objects : gmap nat S) : indexedEngine :=
  mkIndexed (new_columnar collection columns refBreak mapBacked) (omap id strategies) objects.

(** The notices for the columns, one column after another; a column without an
    object has the default strategy, which ignores them. *)
Definition tell_column (names : gmap string nat) (objects : gmap nat S) (x : string * list notice) : gmap nat S :=
  match names !! x.1 with
  | Some o => alter (λ s, fold_left tell x.2 s) o objects
  | None => objects
  end.
Definition tell_all (names : gmap string nat) (x : list (string * list notice)) (objects : gmap nat S) : gmap nat S :=
  fold_left (tell_column names) x objects.

(** ** columnar.go *)

Definition write_notices (columns : list column) (slot : nat) (values : list value) : list (string * list notice) :=
  zip_with (λ c v, (c_name c, [NoticeSet slot v])) columns values.

Definition free_notices (columns : list column) (slot : nat) : list (string * list notice) :=
  (λ c, (c_name c, [NoticeClear slot])) <$> columns.

Fixpoint set_from (slot : nat) (values : list value) : list notice :=
  match values with
  | [] => []
  | v :: values => NoticeSet slot v :: set_from (Datatypes.S slot) values
  end.

(** [rebuildStrategies] *)
Definition rebuild_notices (columns : list column) : list (string * list notice) :=
  (λ c, (c_name c, set_from 0 (c_values c))) <$> columns.

Definition x_writeSlot (ix : indexedEngine) (slot : nat) (values : list value) (leftover : option row_map) : indexedEngine :=
  mkIndexed (writeSlot (ix_engine ix) slot values leftover) (ix_names ix)
    (tell_all (ix_names ix) (write_notices (e_columns (ix_engine ix)) slot values) (ix_objects ix)).

Definition x_freeSlot (ix : indexedEngine) (slot : nat) : indexedEngine :=
  mkIndexed (freeSlot (ix_engine ix) slot) (ix_names ix)
    (tell_all (ix_names ix) (free_notices (e_columns (ix_engine ix)) slot) (ix_objects ix)).

Definition x_compact (ix : indexedEngine) : indexedEngine :=
  let e := compact (ix_engine ix) in
  mkIndexed e (ix_names ix) (tell_all (ix_names ix) (rebuild_notices (e_columns e)) (ix_objects ix)).

Definition x_maybeCompact (ix : indexedEngine) : indexedEngine :=
  let e := ix_engine ix in
  let total := length (e_live e) in
  if (total =? 0) || (e_deadCount e =? 0) then ix
  else if 2 * e_deadCount e <? total then ix
  else x_compact ix.

Definition with_engine (ix : indexedEngine) (e : columnarEngine) : indexedEngine :=
  mkIndexed e (ix_names ix) (ix_objects ix).

Definition x_store (ix : indexedEngine) (id : string) (k : key) (data : value) (overwrite : bool)
  : res mem_error indexedEngine :=
  let e := ix_engine ix in
  if negb overwrite && c_exists e id then Fail record_already_exists
  else
    do w <- prepareWrite (e_schema e) (e_refBreak e) (e_mapBacked e) data;
    let '(e, slot) := allocSlot e id in
    Ret (x_writeSlot (with_engine ix (setSlotKey e slot k)) slot w.1 w.2).

(** The identifier is forgotten after the slot is freed. *)
Definition forget (e : columnarEngine) (id : string) : columnarEngine :=
  mkColumnar (e_collection e) (e_columns e) (delete id (e_idToSlot e)) (e_slotToID e)
    (e_slotToKey e) (e_live e) (e_freeList e) (e_deadCount e) (e_refBreak e) (e_mapBacked e) (e_leftover e).

Definition x_delete (ix : indexedEngine) (id : string) : indexedEngine :=
  match live_slot (ix_engine ix) id with
  | None => ix
  | Some slot =>
      let ix := x_freeSlot ix slot in
      x_maybeCompact (with_engine ix (forget (ix_engine ix) id))
  end.

Definition x_update (ix : indexedEngine) (id : string) (updates : list Update) : res mem_error indexedEngine :=
  let e := ix_engine ix in
  match live_slot e id with
  | None => Fail not_found
  | Some slot =>
      do b <- slot_document e slot;
      match unmarshal_map b with
      | None => Fail json_error
      | Some current =>
          do _ <- check_field_names (e_schema e) (e_mapBacked e) updates;
          do current' <- applyUpdatesToMap current updates;
          do w <- prepareWrite (e_schema e) (e_refBreak e) (e_mapBacked e) (VMap any_map_type "string" current');
          Ret (x_writeSlot ix slot w.1 w.2)
      end
  end.

(** The slots that the strategy of a column gives: the caller's, or the default. *)
Definition strategy_slots (ix : indexedEngine) (c : column) (v : value) : res mem_error (option SlotSet) :=
  match ix_names ix !! c_name c ≫= λ o, ix_objects ix !! o with
  | Some s => Ret (StrategySlots s v)
  | None =>
      do slots <- EqualSlots (ix_engine ix) c v;
      Ret ((λ l : list nat, list_to_set (Z.of_nat <$> l)) <$> slots)
  end.

Definition x_candidateSlots (ix : indexedEngine) (condition : option Condition) : res mem_error (option SlotSet) :=
  match condition with
  | Some (Comparison op (FieldRef _ name _) (Constant v)) =>
      if String.eqb op Equal then
        match column_named (e_columns (ix_engine ix)) name with
        | Some c => strategy_slots ix c v
        | None => Ret None
        end
      else Ret None
  | _ => Ret None
  end.

(** The slots that the engine has, and their identifiers. *)
Definition live_in (e : columnarEngine) (slot : Z) : bool := (0 <=? slot)%Z && is_live e (Z.to_nat slot).
Definition slot_id (e : columnarEngine) (slot : Z) : string := default "" (e_slotToID e !! Z.to_nat slot).

Definition x_candidateRows (ix : indexedEngine) (condition : option Condition) : res mem_error (option (list memoryRow)) :=
  let e := ix_engine ix in
  do slots <- x_candidateSlots ix condition;
  match slots with
  | None => Ret None
  | Some slots =>
      let ids := slot_id e <$> List.filter (live_in e) (base.elements (slots : gset Z)) in
      do rs <- buildRows e (sorted_strings ids);
      Ret (Some rs)
  end.

Definition x_rekey (f : key → key) (ix : indexedEngine) : indexedEngine := mkIndexed (c_rekey f (ix_engine ix)) (ix_names ix) (ix_objects ix).

#[export] Instance indexed_engine : StorageEngine indexedEngine := {|
  exists_ ix := c_exists (ix_engine ix);
  store := x_store;
  load ix := c_load (ix_engine ix);
  delete_ := x_delete;
  update := x_update;
  rows ix := c_rows (ix_engine ix);
  candidate_rows := x_candidateRows;
  rekey := x_rekey;
|}.

#[export] Instance indexed_model : EngineModel indexedEngine (list value * option row_map) := {|
  engine_ok ix := columnar_ok (ix_engine ix);
  contents ix := c_contents (ix_engine ix);
  encode ix := encode (ix_engine ix);
  document ix := document (ix_engine ix);
  check_updates ix := check_updates (ix_engine ix);
|}.

(** ** Records do not depend on strategies *)

Lemma x_store_engine ix id k data overwrite :
  rmap ix_engine (x_store ix id k data overwrite) = c_store (ix_engine ix) id k data overwrite.
Proof.
  unfold x_store, c_store. destruct (negb overwrite && _); [done|]. destruct (prepareWrite _ _ _ _) as [w| |]; [|done..].
  simpl. by destruct (allocSlot _ _).
Qed.

Lemma x_maybeCompact_engine ix : ix_engine (x_maybeCompact ix) = maybeCompact (ix_engine ix).
Proof. unfold x_maybeCompact, maybeCompact. destruct (_ || _); [done|]. by destruct (_ <? _). Qed.

Lemma x_delete_engine ix id : ix_engine (x_delete ix id) = c_delete (ix_engine ix) id.
Proof. unfold x_delete, c_delete. destruct (live_slot _ _) as [slot|]; [apply x_maybeCompact_engine|done]. Qed.

Lemma x_update_engine ix id updates :
  rmap ix_engine (x_update ix id updates) = c_update (ix_engine ix) id updates.
Proof.
  unfold x_update, c_update. destruct (live_slot _ _); [|done]. destruct (slot_document _ _); [|done..]. simpl.
  destruct (unmarshal_map _); [|done]. destruct (check_field_names _ _ _); [|done..]. simpl.
  destruct (applyUpdatesToMap _ _); [|done..]. simpl. by destruct (prepareWrite _ _ _ _).
Qed.

Lemma rmap_Ret_inv {E A B} (f : A → B) (m : res E A) b : rmap f m = Ret b → ∃ a, m = Ret a ∧ f a = b.
Proof. destruct m; simpl; [|done..]. intros [= <-]. eauto. Qed.

Lemma now_holds_engine ix ix' m : now_holds (ix_engine ix) (ix_engine ix') m → now_holds ix ix' m.
Proof. done. Qed.

Lemma indexed_engine_laws : EngineLaws indexedEngine (list value * option row_map).
Proof.
  pose proof columnar_engine_contract as L. split.
  - intros ix id. apply (exists_spec (EngineLaws := L)).
  - intros ix id k data Hok Hid. pose proof (store_duplicate (EngineLaws := L) (ix_engine ix) id k data Hok Hid) as Hs.
    cbn in *. rewrite <- x_store_engine in Hs. by destruct (x_store _ _ _ _ _); simplify_eq/=.
  - intros ix id k data overwrite Hok Hor. pose proof (store_spec (EngineLaws := L) (ix_engine ix) id k data overwrite Hok Hor) as Hs.
    cbn in *. rewrite <- x_store_engine in Hs.
    destruct (prepareWrite _ _ _ _); [|by destruct (x_store _ _ _ _ _); simplify_eq/=..].
    destruct Hs as (e' & (ix' & Hx & <-)%rmap_Ret_inv & Hh). by exists ix'.
  - intros ix id target. apply (load_spec (EngineLaws := L)).
  - intros ix id Hok. apply now_holds_engine. cbn. rewrite x_delete_engine. by apply (delete_spec (EngineLaws := L)).
  - intros ix id us Hok Hid. pose proof (update_missing (EngineLaws := L) (ix_engine ix) id us Hok Hid) as Hs.
    cbn in *. rewrite <- x_update_engine in Hs. by destruct (x_update _ _ _); simplify_eq/=.
  - intros ix id us r Hok Hid. pose proof (update_spec (EngineLaws := L) (ix_engine ix) id us r Hok Hid) as Hs.
    change (updated ix r.1 us) with (updated (ix_engine ix) r.1 us). cbn in *. rewrite <- x_update_engine in Hs.
    destruct (updated _ _ _); [|by destruct (x_update _ _ _); simplify_eq/=..].
    destruct Hs as (e' & (ix' & Hx & <-)%rmap_Ret_inv & Hh). by exists ix'.
  - intros ix Hok. apply (rows_spec (EngineLaws := L) (ix_engine ix) Hok).
  - intros f ix. apply (rekey_spec (EngineLaws := L)).
Qed.

(** ** Objects that keep the contract hold the cells of the live slots *)

Context `{!StrategyLaws S}.

Definition tell_map (m : gmap nat value) (n : notice) : gmap nat value :=
  match n with NoticeSet slot v => <[slot := v]> m | NoticeClear slot => delete slot m end.

Lemma holds_tell ns s : holds (fold_left tell ns s) = fold_left tell_map ns (holds s).
Proof.
  revert s. induction ns as [|n ns IH]; intros s; simpl; [done|]. rewrite IH. f_equal.
  destruct n; simpl; [apply holds_SetValue|apply holds_ClearValue].
Qed.

Lemma set_from_lookup vs k m slot :
  fold_left tell_map (set_from k vs) m !! slot
  = if decide (k ≤ slot < k + length vs) then vs !! (slot - k) else m !! slot.
Proof.
  revert k m. induction vs as [|v vs IH]; intros k m; simpl; [rewrite decide_False by lia; done|].
  rewrite IH. destruct (decide (slot = k)) as [->|Hne].
  - rewrite decide_False, decide_True by lia. by rewrite Nat.sub_diag, lookup_insert_eq.
  - rewrite lookup_insert_ne by done. destruct (decide (k ≤ slot < k + Datatypes.S (length vs))).
    + rewrite decide_True by lia. replace (slot - k) with (Datatypes.S (slot - Datatypes.S k)) by lia. done.
    + by rewrite decide_False by lia.
Qed.

(** No two names are given one object. *)
Definition own_objects (names : gmap string nat) : Prop :=
  ∀ n n' o, names !! n = Some o → names !! n' = Some o → n = n'.

Lemma tell_all_other names x objects o :
  (∀ y, y ∈ x → names !! y.1 ≠ Some o) → tell_all names x objects !! o = objects !! o.
Proof.
  unfold tell_all. revert objects. induction x as [|y x IH]; intros objects Hx; simpl; [done|].
  rewrite IH by set_solver. unfold tell_column. destruct (names !! y.1) as [o'|] eqn:Hy; [|done].
  apply lookup_alter_ne. intros ->. by apply (Hx y); [set_solver|].
Qed.

Lemma tell_all_lookup names x objects o n ns :
  own_objects names → NoDup x.*1 → (n, ns) ∈ x → names !! n = Some o →
  tell_all names x objects !! o = (λ s, fold_left tell ns s) <$> objects !! o.
Proof.
  intros Hown Hnd Hin Ho. unfold tell_all. revert objects. induction x as [|y x IH]; intros objects; [by apply not_elem_of_nil in Hin|].
  csimpl in *. apply NoDup_cons in Hnd as [Hy Hnd]. apply elem_of_cons in Hin as [<-|Hin].
  - fold (tell_all names x (tell_column names objects (n, ns))). rewrite tell_all_other.
    + unfold tell_column. simpl. rewrite Ho. by rewrite lookup_alter_eq.
    + intros [n' ns'] Hx Hn'. simpl in *. apply Hy. rewrite (Hown n n' o Ho Hn').
      apply list_elem_of_fmap. by exists (n', ns').
  - rewrite (IH Hnd Hin). f_equal. unfold tell_column. destruct (names !! y.1) as [o'|] eqn:Ho'; [|done].
    apply lookup_alter_ne. intros ->. apply Hy. rewrite (Hown _ _ _ Ho' Ho).
    apply list_elem_of_fmap. by exists (n, ns).
Qed.

Record in_sync (ix : indexedEngine) : Prop := {
  sync_ok : columnar_ok (ix_engine ix);
  sync_columns : NoDup (d_name <$> e_schema (ix_engine ix));
  sync_own : own_objects (ix_names ix);
  sync_holds c o : c ∈ e_columns (ix_engine ix) → ix_names ix !! c_name c = Some o →
    ∃ s, ix_objects ix !! o = Some s ∧
      ∀ slot, is_live (ix_engine ix) slot = true → holds s !! slot = c_values c !! slot;
}.

Lemma schema_names (e : columnarEngine) : d_name <$> e_schema e = c_name <$> e_columns e.
Proof. unfold e_schema. by rewrite <- list_fmap_compose. Qed.

(** What the notices of a step must do: take the values of the old cells to
    those of the new ones. *)
Definition keeps_track (e e' : columnarEngine) (x : list (string * list notice)) : Prop :=
  ∀ i c c' n ns, e_columns e !! i = Some c → e_columns e' !! i = Some c' → x !! i = Some (n, ns) →
    ∀ m, (∀ slot, is_live e slot = true → m !! slot = c_values c !! slot) →
    ∀ slot, is_live e' slot = true → fold_left tell_map ns m !! slot = c_values c' !! slot.

Lemma sync_tell ix e' x :
  in_sync ix → columnar_ok e' → e_schema e' = e_schema (ix_engine ix) →
  x.*1 = d_name <$> e_schema e' → keeps_track (ix_engine ix) e' x →
  in_sync (mkIndexed e' (ix_names ix) (tell_all (ix_names ix) x (ix_objects ix))).
Proof.
  intros [Hok Hnd Hown Hh] Hok' Hschema Hx Htrack. split; simpl; [done|by rewrite Hschema|done|].
  intros c' o Hc' Ho. apply list_elem_of_lookup in Hc' as [i Hi].
  assert (Hname : (d_name <$> e_schema e') !! i = Some (c_name c')).
  { rewrite schema_names, list_lookup_fmap, Hi. done. }
  pose proof Hname as Hxi. rewrite <- Hx, list_lookup_fmap in Hxi. apply fmap_Some in Hxi as ([n ns] & Hxi & Hn).
  simpl in Hn. subst n. rewrite Hschema, schema_names, list_lookup_fmap in Hname. apply fmap_Some in Hname as (c & Hc & Hcn).
  destruct (Hh c o) as (s & Hs & Hhs); [by eapply list_elem_of_lookup_2|by rewrite <- Hcn|].
  exists (fold_left tell ns s). split.
  - rewrite (tell_all_lookup (ix_names ix) x (ix_objects ix) o (c_name c') ns); [by rewrite Hs|done| | |done].
    + by rewrite Hx, Hschema.
    + by eapply list_elem_of_lookup_2.
  - intros slot Hl. rewrite holds_tell. by eapply Htrack.
Qed.

(** ** Every operation keeps them so *)

Lemma column_length (e : columnarEngine) i c :
  columnar_ok e → e_columns e !! i = Some c → length (c_values c) = length (e_live e).
Proof.
  intros Hok Hi. pose proof (ok_cols e Hok) as Hcols. rewrite Forall_forall in Hcols.
  apply Hcols. by eapply list_elem_of_lookup_2.
Qed.

Lemma live_bound e slot : is_live e slot = true → slot < length (e_live e).
Proof. intros Hl%is_live_Some. by eapply lookup_lt_Some. Qed.

(** A cell of a column, from the cells of its slot. *)
Lemma column_cell (e : columnarEngine) i c slot :
  e_columns e !! i = Some c → slot < length (c_values c) → c_values c !! slot = slot_cells e slot !! i.
Proof.
  intros Hi Hs. unfold slot_cells. rewrite list_lookup_fmap, Hi. simpl.
  by destruct (lookup_lt_is_Some_2 _ _ Hs) as [u ->].
Qed.

Lemma write_notices_names columns slot (values : list value) :
  length values = length columns → (write_notices columns slot values).*1 = c_name <$> columns.
Proof.
  unfold write_notices. revert values. induction columns as [|c columns IH]; intros [|v values]; csimpl; try done.
  intros [= Hl]. by rewrite IH.
Qed.

(** A live slot after an allocation, but the allocated one, was live before. *)
Lemma allocated_live e id e1 slot s :
  columnar_ok e → allocated e id e1 slot → s ≠ slot → is_live e1 s = true → is_live e s = true.
Proof.
  intros Hok Hal Hne Hl%is_live_Some. pose proof (lookup_lt_Some _ _ _ Hl) as Hlt.
  rewrite <- (al_ids _ _ _ _ Hal) in Hlt. destruct (lookup_lt_is_Some_2 _ _ Hlt) as [i Hi].
  assert (Hs : e_idToSlot e1 !! i = Some s) by by apply (al_slots _ _ _ _ Hal).
  rewrite (al_index _ _ _ _ Hal), lookup_insert_Some in Hs. destruct Hs as [[_ ->]|[_ Hs]]; [done|].
  apply is_live_Some. by apply (ok_slots e Hok) in Hs as [? _].
Qed.

Lemma write_track e id e1 e' slot values :
  columnar_ok e → allocated e id e1 slot → length values = length (e_columns e1) →
  e_columns e' = zip_with (write_cell slot) (e_columns e1) values → e_live e' = e_live e1 →
  keeps_track e e' (write_notices (e_columns e1) slot values).
Proof.
  intros Hok Hal Hlen Hcols Hlive i c c' n ns Hi Hi' Hx m Hm s Hs. rewrite Hcols in Hi'.
  apply lookup_zip_with_Some in Hi' as (c1 & v & -> & Hc1 & Hv).
  unfold write_notices in Hx. apply lookup_zip_with_Some in Hx as (c2 & v' & [= -> ->] & Hc2 & Hv'). simplify_eq. simpl.
  assert (Hl1 : length (c_values c1) = length (e_live e1)).
  { pose proof (al_cols _ _ _ _ Hal) as Hall. rewrite Forall_forall in Hall. apply Hall. by eapply list_elem_of_lookup_2. }
  destruct (decide (s = slot)) as [->|Hne].
  - rewrite lookup_insert_eq, list_lookup_insert_eq; [done|]. rewrite Hl1. apply (al_slot _ _ _ _ Hal).
  - rewrite lookup_insert_ne, list_lookup_insert_ne by done.
    assert (Hs1 : is_live e1 s = true) by (unfold is_live in *; by rewrite <- Hlive).
    pose proof (allocated_live e id e1 slot s Hok Hal Hne Hs1) as Hs0. rewrite Hm by done.
    pose proof (live_bound e s Hs0) as Hb. destruct (al_cells _ _ _ _ Hal s Hb) as [Hcells _].
    rewrite (column_cell e i c s), (column_cell e1 i c1 s); [by rewrite Hcells|done| |done|].
    + rewrite Hl1. by apply live_bound.
    + by rewrite (column_length e i c).
Qed.

Lemma sync_write ix id e1 e2 slot w :
  in_sync ix → allocated (ix_engine ix) id e1 slot → length w.1 = length (e_schema (ix_engine ix)) →
  e_columns e2 = e_columns e1 → e_live e2 = e_live e1 → columnar_ok (writeSlot e2 slot w.1 w.2) →
  in_sync (x_writeSlot (with_engine ix e2) slot w.1 w.2).
Proof.
  intros Hix Hal Hlen Hcols Hlive Hok'. unfold x_writeSlot. simpl. rewrite Hcols.
  assert (Hlen' : length w.1 = length (e_columns e1)).
  { rewrite Hlen, <- (al_schema _ _ _ _ Hal). apply length_fmap. }
  assert (Hschema : e_schema (writeSlot e2 slot w.1 w.2) = e_schema e1).
  { unfold e_schema. simpl. rewrite Hcols. by apply write_schema. }
  apply sync_tell; [done|done| | |].
  - rewrite Hschema. apply (al_schema _ _ _ _ Hal).
  - rewrite Hschema, schema_names. by apply write_notices_names.
  - apply (write_track _ id e1); [apply Hix|done|done| |done]. simpl. by rewrite Hcols.
Qed.

Lemma store_sync ix id k data overwrite ix' :
  in_sync ix → x_store ix id k data overwrite = Ret ix' → in_sync ix'.
Proof.
  intros Hix. unfold x_store. destruct (negb overwrite && _); [done|]. intros Hs.
  apply rbind_Ret_inv in Hs as (w & Hp & Hs). apply prepareWrite_length in Hp as [Hlen Hleft].
  pose proof (allocSlot_allocated (ix_engine ix) id (sync_ok ix Hix)) as Hal.
  destruct (allocSlot (ix_engine ix) id) as [e1 slot]. injection Hs as <-. simpl in Hal.
  apply (sync_write ix id e1); [done|done|done|done|done|].
  by destruct (write_allocated (ix_engine ix) id e1 slot k w (sync_ok ix Hix) Hal Hlen Hleft) as [Hok _].
Qed.

Lemma update_sync ix id updates ix' :
  in_sync ix → x_update ix id updates = Ret ix' → in_sync ix'.
Proof.
  intros Hix. pose proof (sync_ok ix Hix) as Hok. unfold x_update. rewrite live_slot_index by done.
  destruct (e_idToSlot _ !! id) as [slot|] eqn:Hid; [|done]. intros Hs.
  apply rbind_Ret_inv in Hs as (b & _ & Hs). destruct (unmarshal_map b) as [current|]; [|done].
  apply rbind_Ret_inv in Hs as (_ & _ & Hs). apply rbind_Ret_inv in Hs as (current' & _ & Hs).
  apply rbind_Ret_inv in Hs as (w & Hp & [= <-]). apply prepareWrite_length in Hp as [Hlen Hleft].
  pose proof (write_existing (ix_engine ix) id slot w Hok Hid Hlen Hleft) as [Hok' _].
  replace ix with (with_engine ix (ix_engine ix)) at 1 by by destruct ix.
  by apply (sync_write ix id (ix_engine ix)); [|apply alloc_existing|..].
Qed.

Lemma free_sync ix id slot :
  in_sync ix → e_idToSlot (ix_engine ix) !! id = Some slot →
  in_sync (with_engine (x_freeSlot ix slot) (forget (freeSlot (ix_engine ix) slot) id)).
Proof.
  intros Hix Hid. pose proof (sync_ok ix Hix) as Hok.
  pose proof (forgotten_holds (ix_engine ix) id slot Hok Hid) as [Hok' _].
  assert (Hschema : e_schema (forget (freeSlot (ix_engine ix) slot) id) = e_schema (ix_engine ix)) by apply free_schema.
  apply (sync_tell ix (forget (freeSlot (ix_engine ix) slot) id)); [done|exact Hok'|done| |].
  - rewrite Hschema, schema_names. unfold free_notices. by rewrite <- list_fmap_compose.
  - intros i c c' n ns Hi Hi' Hx m Hm s Hs. simpl in Hi'. unfold free_notices in Hx.
    apply list_lookup_fmap_Some in Hi' as (c0 & -> & Hc0), Hx as (c1 & [= -> ->] & Hc1). simplify_eq. simpl.
    assert (s ≠ slot ∧ is_live (ix_engine ix) s = true) as [Hne Hl].
    { unfold is_live in Hs. simpl in Hs. rewrite list_lookup_insert in Hs. case_decide as Hd; [done|].
      split; [|done]. intros ->. apply Hd. split; [done|]. by eapply index_bound. }
    rewrite lookup_delete_ne, list_lookup_insert_ne by done. by apply Hm.
Qed.

Lemma compact_sync ix : in_sync ix → in_sync (x_compact ix).
Proof.
  intros Hix. pose proof (compact_holds _ (sync_ok ix Hix)) as [Hok' _].
  assert (Hschema : e_schema (compact (ix_engine ix)) = e_schema (ix_engine ix)).
  { unfold e_schema. simpl. by rewrite <- list_fmap_compose. }
  apply (sync_tell ix); [done|exact Hok'|exact Hschema| |].
  - rewrite schema_names. unfold rebuild_notices. by rewrite <- list_fmap_compose.
  - intros i c c' n ns _ Hi' Hx m _ s Hs. unfold rebuild_notices, x_compact in Hx.
    apply list_lookup_fmap_Some in Hx as (c0 & Hn & Hc0). simplify_eq.
    rewrite set_from_lookup, decide_True, Nat.sub_0_r; [done|].
    rewrite (column_length _ i c' Hok' Hi'). pose proof (live_bound _ s Hs). lia.
Qed.

Lemma delete_sync ix id : in_sync ix → in_sync (x_delete ix id).
Proof.
  intros Hix. unfold x_delete. rewrite (live_slot_index _ _ (sync_ok ix Hix)).
  destruct (e_idToSlot _ !! id) as [slot|] eqn:Hid; [|done]. pose proof (free_sync ix id slot Hix Hid) as Hf.
  unfold x_maybeCompact. repeat case_match; [exact Hf|exact Hf|by apply compact_sync].
Qed.

(** ** Equality queries read the rows of the default strategy *)

(** The operations of the engine; a call that fails leaves it as it was. *)
Inductive engine_call :=
  | CallStore (id : string) (k : key) (data : value) (overwrite : bool)
  | CallUpdate (id : string) (updates : list Update)
  | CallDelete (id : string).

Definition run_call (ix : indexedEngine) (call : engine_call) : indexedEngine :=
  match call with
  | CallStore id k data overwrite => match x_store ix id k data overwrite with Ret ix' => ix' | _ => ix end
  | CallUpdate id updates => match x_update ix id updates with Ret ix' => ix' | _ => ix end
  | CallDelete id => x_delete ix id
  end.

Lemma calls_sync calls ix : in_sync ix → in_sync (fold_left run_call calls ix).
Proof.
  revert ix. induction calls as [|call calls IH]; intros ix Hix; simpl; [done|]. apply IH.
  destruct call as [id k data overwrite|id updates|id]; simpl.
  - destruct (x_store _ _ _ _ _) eqn:E; [by eapply store_sync|done..].
  - destruct (x_update _ _ _) eqn:E; [by eapply update_sync|done..].
  - by apply delete_sync.
Qed.

(** A new engine, with an object of its own for each column that has one. *)
Record fresh (ix : indexedEngine) : Prop := {
  fresh_empty : e_live (ix_engine ix) = [];
  fresh_ok : columnar_ok (ix_engine ix);
  fresh_columns : NoDup (d_name <$> e_schema (ix_engine ix));
  fresh_own : own_objects (ix_names ix);
  fresh_objects name o : ix_names ix !! name = Some o → is_Some (ix_objects ix !! o);
}.

Lemma fresh_sync ix : fresh ix → in_sync ix.
Proof.
  intros [Hl Hok Hnd Hown Hobj]. split; [done..|]. intros c o _ [s Hs]%Hobj. exists s. split; [done|].
  intros slot. unfold is_live. by rewrite Hl.
Qed.

Lemma filter_slots_inv (f : nat → res mem_error bool) l r :
  filter_slots f l = Ret r → NoDup l → NoDup r ∧ ∀ s, s ∈ r ↔ s ∈ l ∧ f s = Ret true.
Proof.
  revert r. induction l as [|x l IH]; intros r; simpl; [intros [= <-] _; split; [constructor|set_solver]|].
  intros (ok & Hx & Hr)%rbind_Ret_inv [Hnin Hnd]%NoDup_cons. apply rbind_Ret_inv in Hr as (rest & Hrest & [= <-]).
  destruct (IH rest Hrest Hnd) as [Hr Hin]. split.
  - destruct ok; [|done]. constructor; [by intros [? _]%Hin|done].
  - intros s. assert (s ∈ (if ok then x :: rest else rest) ↔ (ok = true ∧ s = x) ∨ s ∈ rest) as ->.
    { destruct ok; [rewrite elem_of_cons|]; intuition congruence. }
    rewrite Hin, elem_of_cons. destruct (decide (s = x)) as [->|Hne]; [rewrite Hx|]; intuition congruence.
Qed.

(** Two collections of slots with the same live ones give the same rows. *)
Lemma same_live_rows e (l : list nat) (X : SlotSet) :
  columnar_ok e → NoDup l → (∀ s, is_live e s = true → s ∈ l ↔ Z.of_nat s ∈ X) →
  sorted_strings (slot_id e <$> List.filter (live_in e) (base.elements (X : gset Z)))
  = sorted_strings ((λ s, default "" (e_slotToID e !! s)) <$> List.filter (is_live e) l).
Proof.
  intros Hok Hnd Hsame. set (ids := (λ s, default "" (e_slotToID e !! s)) <$> List.filter (is_live e) l).
  assert (Hperm : slot_id e <$> List.filter (live_in e) (base.elements (X : gset Z)) ≡ₚ ids).
  { trans (slot_id e <$> (Z.of_nat <$> List.filter (is_live e) l)).
    - apply fmap_Permutation, NoDup_Permutation.
      + apply filtered_NoDup, NoDup_elements.
      + apply NoDup_fmap_2; [apply _|]. by apply filtered_NoDup.
      + intros z. rewrite filter_bool_elem, elem_of_elements, list_elem_of_fmap. unfold live_in. split.
        * intros [Hz [Hpos%Z.leb_le Hl]%andb_true_iff]. exists (Z.to_nat z). split; [lia|].
          apply filter_bool_elem. split; [|done]. apply Hsame; [done|]. by rewrite Z2Nat.id.
        * intros (s & -> & [Hs Hl]%filter_bool_elem). rewrite Nat2Z.id. split; [by apply Hsame|].
          apply andb_true_iff. split; [apply Z.leb_le; lia|done].
    - rewrite <- list_fmap_compose. unfold ids. apply reflexive_eq, list_fmap_ext. intros i s _.
      unfold slot_id. simpl. by rewrite Nat2Z.id. }
  rewrite (sorted_strings_filter (λ _, true) ids); [| |rewrite Hperm].
  - induction (sorted_strings ids) as [|i l' IH]; simpl; [done|]. by f_equal.
  - unfold ids. apply NoDup_fmap_2_strong.
    + intros s s' [_ Hs%is_live_Some]%filter_bool_elem [_ Hs'%is_live_Some]%filter_bool_elem Heq.
      pose proof (lookup_lt_Some _ _ _ Hs) as Hb. pose proof (lookup_lt_Some _ _ _ Hs') as Hb'.
      rewrite <- (ok_ids e Hok) in Hb, Hb'.
      destruct (lookup_lt_is_Some_2 _ _ Hb) as [i Hi], (lookup_lt_is_Some_2 _ _ Hb') as [i' Hi'].
      rewrite Hi, Hi' in Heq. simpl in Heq. subst i'.
      assert (e_idToSlot e !! i = Some s) by by apply (ok_slots e Hok).
      assert (e_idToSlot e !! i = Some s') by by apply (ok_slots e Hok). congruence.
    + by apply filtered_NoDup.
  - apply reflexive_eq. generalize ids as l'. induction l' as [|i l' IH]; simpl; [done|]. by f_equal.
Qed.

(** The slots of an object in sync, among the live ones. *)
Lemma object_slots ix c s v X l :
  in_sync ix → c ∈ e_columns (ix_engine ix) → d_indexed (c_decl c) = true →
  (∀ slot, is_live (ix_engine ix) slot = true → holds s !! slot = c_values c !! slot) →
  StrategySlots s v = Some X → EqualSlots (ix_engine ix) c v = Ret (Some l) →
  NoDup l ∧ ∀ slot, is_live (ix_engine ix) slot = true → slot ∈ l ↔ Z.of_nat slot ∈ X.
Proof.
  intros Hix Hc Hd Hholds HX. unfold EqualSlots, strategy_cells. rewrite Hd.
  destruct (negb _); [done|]. intros (r & Hr & [= <-])%rbind_Ret_inv.
  apply filter_slots_inv in Hr as [Hnd Hin]; [|apply NoDup_seq]. split; [done|]. intros slot Hl.
  rewrite Hin, (slots_equal s v X slot HX), Hl, Hholds by done.
  assert (Hlt : slot < length (c_values c)).
  { apply list_elem_of_lookup in Hc as [i Hi]. rewrite (column_length _ i c (sync_ok ix Hix) Hi). by apply live_bound. }
  destruct (lookup_lt_is_Some_2 _ _ Hlt) as [u Hu]. rewrite Hu, elem_of_seq. simpl. split.
  - intros [_ Heq]. by exists u.
  - intros (u' & [= <-] & Heq). split; [lia|done].
Qed.

(** C17: a column strategy of the caller's that does what the interface documents
    answers an equality query with the rows of the default strategy, or with no
    opinion, after any stores, updates and deletes on a new engine: the notices
    of writes, and those of the compactions that move records to other slots,
    keep its object in step with the cells. *)
Theorem strategies_agree ix calls source name isID v c rows
    (Hfresh : fresh ix)
    (Hc : column_named (e_columns (ix_engine (fold_left run_call calls ix))) name = Some c)
    (Hindexed : d_indexed (c_decl c) = true)
    (Hrows : candidateRows (ix_engine (fold_left run_call calls ix))
      (Some (Comparison Equal (FieldRef source name isID) (Constant v))) = Ret (Some rows)) :
  let found := x_candidateRows (fold_left run_call calls ix)
    (Some (Comparison Equal (FieldRef source name isID) (Constant v))) in
  found = Ret None ∨ found = Ret (Some rows).
Proof.
  pose proof (calls_sync calls ix (fresh_sync ix Hfresh)) as Hix. set (ix' := fold_left run_call calls ix) in *.
  pose proof (column_named_elem _ _ _ Hc) as Hin. unfold candidateRows, candidateSlots in Hrows.
  unfold x_candidateRows, x_candidateSlots, strategy_slots. simpl in *. rewrite Hc in *.
  apply rbind_Ret_inv in Hrows as (slots & Hslots & Hrows). destruct slots as [l|]; [|done]. rewrite Hslots.
  destruct (ix_names ix' !! c_name c) as [o|] eqn:Ho; simpl.
  - destruct (sync_holds ix' Hix c o Hin Ho) as (s & -> & Hh). simpl.
    destruct (StrategySlots s v) as [X|] eqn:HX; simpl; [right|by left].
    destruct (object_slots ix' c s v X l Hix Hin Hindexed Hh HX Hslots) as [Hnd Hsame].
    by rewrite (same_live_rows _ l X (sync_ok ix' Hix)).
  - right. rewrite (same_live_rows _ l _ (sync_ok ix' Hix)); [done| |].
    + unfold EqualSlots in Hslots. destruct (negb _); [done|].
      apply rbind_Ret_inv in Hslots as (r & Hr & [= <-]). by apply filter_slots_inv in Hr as [Hnd _]; [|apply NoDup_seq].
    + intros s Hs. rewrite elem_of_list_to_set, list_elem_of_fmap. naive_solver lia.
Qed.
End Strategies.

(** ** A strategy of a caller *)

Module StrategyExamples.
Import MemoryExamples.
#[local] Existing Instance plain_json.
#[local] Existing Instance plain_decoders.
#[local] Existing Instance plain_reflect.
#[local] Existing Instance chain_keys.

Definition equal_values (u v : value) : bool :=
  match valuesEqualForStrategy u v with Ret b => b | _ => false end.

(** An object that keeps the values by slot. *)
#[local] Instance copying : ColumnStrategy (gmap nat value) := {|
  SetValue s slot v := <[slot := v]> s;
  ClearValue s slot := delete slot s;
  StrategySlots s v :=
    Some (list_to_set ((λ x : nat * value, Z.of_nat x.1) <$> List.filter (λ x, equal_values x.2 v) (map_to_list s)));
|}.

#[local] Instance copying_laws : StrategyLaws (gmap nat value).
Proof.
  refine {| holds s := s |}; [done..|]. intros s v X slot [= <-].
  rewrite elem_of_list_to_set, list_elem_of_fmap. split.
  - intros ([n u] & Hn & [Hin Heq]%filter_bool_elem). simpl in *. exists u.
    apply elem_of_map_to_list in Hin. replace slot with n by lia. split; [done|].
    unfold equal_values in Heq. destruct (valuesEqualForStrategy u v) as [[]| |]; done.
  - intros (u & Hu & Heq). exists (slot, u). split; [done|]. apply filter_bool_elem.
    split; [by apply elem_of_map_to_list|]. unfold equal_values. simpl. by rewrite Heq.
Defined.

Definition people_by_city : indexedEngine :=
  new_indexed "users" person_columns true false (WithColumnStrategy "city" (Some 0) ∅) {[0 := (∅ : gmap nat value)]}.

Lemma people_by_city_names : ix_names people_by_city = {["city" := 0]}.
Proof. vm_compute. reflexivity. Qed.

Definition person (a : Z) (c : string) : value := vmap [("age", vint a); ("city", vstr c)].

(** The last delete moves the record of Eve to another slot. *)
Definition calls : list engine_call :=
  [CallStore "a" (new_key "users" "a") (person 30 "Cork") true;
   CallStore "b" (new_key "users" "b") (person 25 "Cork") true;
   CallUpdate "b" [mkUpdate "city" [] (Some (vstr "Oslo"))];
   CallStore "e" (new_key "users" "e") (person 41 "Cork") true;
   CallDelete "b"; CallDelete "a"].

Lemma people_by_city_fresh : fresh people_by_city.
Proof.
  destruct (new_columnar_ok "users" person_columns true false) as [Hok _]. split; [done|exact Hok|..].
  - apply (bool_decide_eq_true_1 (NoDup (d_name <$> e_schema empty_people))). vm_compute. reflexivity.
  - intros n n' o Hn Hn'. rewrite people_by_city_names in *. apply lookup_singleton_Some in Hn as [<- _], Hn' as [<- _]. done.
  - intros name o Hn. rewrite people_by_city_names in *. apply lookup_singleton_Some in Hn as [_ <-]. by exists ∅.
Qed.

Lemma strategies_agree_witness :
  ∃ rows, row_id <$> rows = ["e"] ∧
    candidateRows (ix_engine (fold_left run_call calls people_by_city)) (Some in_cork) = Ret (Some rows) ∧
    (x_candidateRows (fold_left run_call calls people_by_city) (Some in_cork) = Ret None ∨
     x_candidateRows (fold_left run_call calls people_by_city) (Some in_cork) = Ret (Some rows)).
Proof.
  eexists. split; [|split; [vm_compute; reflexivity|]]; [reflexivity|].
  eapply (strategies_agree people_by_city calls "" "city" false (vstr "Cork"));
    [exact people_by_city_fresh | vm_compute; reflexivity | reflexivity | vm_compute; reflexivity].
Defined.

(** The object gave the row itself.  A compaction tells it of the slots that
    are left, and of none that went: it keeps the value at Eve's old slot. *)
Example the_object_answers :
  rmap (option_map (map row_id)) (x_candidateRows (fold_left run_call calls people_by_city) (Some in_cork))
    = Ret (Some ["e"]) ∧
  ix_objects (fold_left run_call calls people_by_city) !! 0 = Some {[0 := vstr "Cork"; 2 := vstr "Cork"]}.
Proof. split; vm_compute; reflexivity. Qed.
End StrategyExamples.
