(* ===== verification/MemoryRecordset.v ===== *)
(** * The recordset of a query has the rows of its result
    (src/adapters/dalgo2memory/recordset.go)

    What the pivot of MemoryPivot.v makes of a list of rows, in every column. *)

From Stdlib Require Import String SpecFloat.
From stdpp Require Import base gmap list strings.
From S2P Require Import Prelude StableSort GoValues GoTypes GoMaps GoStrings GoJSON RecordKey DalQuery DalString DalReader.
From S2P Require Import RecordsetColumns RecordsetColumnLaws RecordsetRows.
From S2P Require Import MemoryRows MemoryQuery MemoryUpdate MemoryEngine MemorySession MemoryPivot MemoryExamples.

Local Open Scope string_scope.
Local Open Scope nat_scope.
Local Open Scope list_scope.

(** ** The recordset has the result's rows *)

(** Values whose types of the kinds float64, string, bool and int are the
    predeclared ones; what JSON decodes to is such a value. *)
Definition basic_types : list string := ["float64"; "string"; "bool"; "int"].

Definition predeclared (v : value) : Prop :=
  match v with
  | VFloat ty KFloat64 _ => ty = "float64"
  | VString ty _ => ty = "string"
  | VBool ty _ => ty = "bool"
  | VInt ty KInt _ => ty = "int"
  | _ => type_of_value v ∉ basic_types
  end.

(** A row's cell in a column: the value of its name, or the column's default. *)
Definition cell (m : row_map) (sc : sheet_column unit) : value := default (s_default sc) (assoc (s_name sc) m).

Definition fits (m : row_map) (sc : sheet_column unit) : Prop := ∀ v, assoc (s_name sc) m = Some v → s_ok sc v.

(** The cells of the rows [done] in each column of an empty sheet. *)
Definition filled (done : list row_map) (sheet : list (sheet_column unit)) : list (sheet_column unit) :=
  map (λ sc, with_cells sc (map (λ m, cell m sc) done)) sheet.

Definition stored_sheet (sheet : list (sheet_column unit)) : Prop :=
  NoDup (map s_name sheet) ∧ ∀ sc, sc ∈ sheet → s_computed sc = None.

Section Fill.
Context (N : nat).

Definition put (m : row_map) (i : nat) (name : string) (sc : sheet_column unit) : sheet_column unit :=
  if decide (s_name sc = name) then match assoc name m with Some v => set_cell i v sc | None => sc end else sc.

Definition put_all (m : row_map) (i : nat) (names : list string) (sc : sheet_column unit) : sheet_column unit :=
  fold_left (λ sc name, put m i name sc) names sc.

Lemma put_name m i name sc : s_name (put m i name sc) = s_name sc ∧ s_ok (put m i name sc) = s_ok sc ∧
  s_computed (put m i name sc) = s_computed sc ∧ s_default (put m i name sc) = s_default sc.
Proof. unfold put. case_decide; [|done]. by destruct (assoc name m). Qed.

Lemma named_NoDup (sheet : list (sheet_column unit)) j sc :
  NoDup (map s_name sheet) → sheet !! j = Some sc → named sheet (s_name sc) j sc.
Proof.
  intros Hnd Hj. split; [done|]. split; [done|]. intros j' sc' Hlt Hj' Hn.
  assert (E1 : map s_name sheet !! j = Some (s_name sc)) by (by apply list_lookup_fmap_Some; eauto).
  assert (E2 : map s_name sheet !! j' = Some (s_name sc)) by (apply list_lookup_fmap_Some; eauto).
  pose proof (NoDup_lookup _ _ _ _ Hnd E1 E2). lia.
Qed.

Lemma insert_put m i v (sheet : list (sheet_column unit)) j sc :
  NoDup (map s_name sheet) → sheet !! j = Some sc → assoc (s_name sc) m = Some v →
  <[j := set_cell i v sc]> sheet = map (put m i (s_name sc)) sheet.
Proof.
  intros Hnd Hj Hv. apply list_eq. intros j'. rewrite list_lookup_fmap.
  destruct (decide (j = j')) as [<-|Hne].
  - rewrite list_lookup_insert_eq by (by eapply lookup_lt_Some). rewrite Hj. simpl.
    unfold put. by rewrite decide_True, Hv.
  - rewrite list_lookup_insert_ne by done. destruct (sheet !! j') as [sc'|] eqn:Hj'; [|done]. simpl.
    unfold put. rewrite decide_False; [done|]. intros Hn.
    destruct (named_NoDup sheet j sc Hnd Hj) as (_ & _ & F). destruct (named_NoDup sheet j' sc' Hnd Hj') as (_ & _ & F').
    destruct (Nat.lt_total j j') as [|[|]]; [|done|]; [by eapply F'|by eapply F].
Qed.

Lemma put_other m i name (sheet : list (sheet_column unit)) : assoc name m = None → map (put m i name) sheet = sheet.
Proof.
  intros Hn. rewrite <- (list_fmap_id sheet) at 2. apply list_fmap_ext. intros j sc _. unfold put.
  case_decide; [by rewrite Hn|done].
Qed.

Lemma fill_row_shows names m i : ∀ (rs : plain_recordset) n sheet,
  rs_shows N rs n sheet → stored_sheet sheet → i < n →
  (∀ name, name ∈ names → ∃ sc, sc ∈ sheet ∧ s_name sc = name) → (∀ sc, sc ∈ sheet → fits m sc) →
  ∃ rs', fill_row names m (mkColumnarRow (Z.of_nat i) None) rs = Ret rs' ∧ rs_shows N rs' n (map (put_all m i names) sheet).
Proof.
  induction names as [|name names IH]; intros rs n sheet Hrs [Hnd Hst] Hi Hin Hfit.
  { exists rs. split; [done|]. by rewrite (list_fmap_id sheet : map (put_all m i []) sheet = sheet). }
  cbn [fill_row]. destruct (Hin name) as (sc & Hsc & Hn); [set_solver|].
  assert (Hstep : ∃ rs', match assoc name m with None => Ret rs | Some v => SetValueByName (mkColumnarRow (Z.of_nat i) None) name v rs end
      = Ret rs' ∧ rs_shows N rs' n (map (put m i name) sheet)).
  { destruct (assoc name m) as [v|] eqn:Ev; [|exists rs; by rewrite put_other].
    subst name. apply list_elem_of_lookup in Hsc as Hsc'. destruct Hsc' as [j Hj].
    destruct (SetValueByName_shows N rs n sheet (s_name sc) j sc i v) as (rs' & H1 & H2 & _);
      [done|by apply named_NoDup|auto|done|by apply Hfit|].
    exists rs'. by rewrite <- (insert_put m i v sheet j sc). }
  destruct Hstep as (rs1 & E1 & Hrs1).
  destruct (IH rs1 n (map (put m i name) sheet)) as (rs2 & E2 & Hrs2); [done| |done| | |].
  - split.
    + rewrite map_map. rewrite (map_ext _ s_name); [done|]. intros a. apply put_name.
    + intros sc' (a & -> & Ha)%list_elem_of_fmap. destruct (put_name m i name a) as (_ & _ & -> & _). auto.
  - intros nm Hnm. destruct (Hin nm) as (a & Ha & Ea); [set_solver|]. exists (put m i name a).
    split; [apply list_elem_of_fmap; eauto|]. by destruct (put_name m i name a) as (-> & _).
  - intros sc' (a & -> & Ha)%list_elem_of_fmap v. destruct (put_name m i name a) as (-> & -> & _). by apply Hfit.
  - exists rs2. rewrite map_map in Hrs2. split; [|done].
    destruct (assoc name m); [|by simplify_eq]. by rewrite E1.
Qed.
End Fill.

Lemma put_all_cells m i names : ∀ sc,
  s_cells sc !! i = Some (cell m sc) ∨ s_cells sc !! i = Some (s_default sc) →
  (s_name sc ∈ names ∨ s_cells sc !! i = Some (cell m sc)) →
  put_all m i names sc = set_cell i (cell m sc) sc.
Proof.
  induction names as [|name names IH]; intros sc Hi Hin.
  - destruct Hin as [Hin|Hin]; [set_solver|]. simpl. unfold set_cell, with_cells. rewrite list_insert_id by done. by destruct sc.
  - change (put_all m i (name :: names) sc) with (put_all m i names (put m i name sc)).
    unfold put. case_decide as En; [|apply IH; [done|]; destruct Hin as [[?|?]%elem_of_cons|?]; auto; done].
    assert (Hlt : i < length (s_cells sc)) by (destruct Hi; by eapply lookup_lt_Some).
    destruct (assoc name m) as [v|] eqn:Ev.
    + assert (Hc : cell m (set_cell i v sc) = v) by (unfold cell; simpl; by rewrite En, Ev).
      assert (Hv : s_cells (set_cell i v sc) !! i = Some v) by (by apply list_lookup_insert_eq).
      rewrite IH by (rewrite Hc; auto). rewrite Hc. unfold cell. rewrite En, Ev. unfold set_cell, with_cells. simpl.
      by rewrite list_insert_insert_eq.
    + assert (Hc : cell m sc = s_default sc) by (unfold cell; by rewrite En, Ev).
      apply IH; rewrite Hc in *; naive_solver.
Qed.

Lemma filled_stored done_ sheet : stored_sheet sheet → stored_sheet (filled done_ sheet).
Proof.
  intros [Hnd Hst]. split.
  - unfold filled. by rewrite map_map.
  - intros sc (a & -> & Ha)%list_elem_of_fmap. simpl. auto.
Qed.

Lemma add_row_shows N names m done_ (rs : plain_recordset) sheet :
  rs_shows N rs (length done_) (filled done_ sheet) → stored_sheet sheet →
  map s_name sheet = names → (∀ sc, sc ∈ sheet → fits m sc) → length done_ < N → (Z.of_nat N < 2 ^ 63)%Z →
  ∃ rs', add_row names m rs = Ret rs' ∧ rs_shows N rs' (length (done_ ++ [m])) (filled (done_ ++ [m]) sheet).
Proof.
  intros Hrs Hst Hn Hfit HN HB. unfold add_row.
  destruct (NewRow_shows N rs _ _ Hrs HN HB) as (rs1 & -> & Hrs1 & _). simpl.
  destruct (filled_stored done_ sheet Hst) as [Hnd' Hst'].
  destruct (fill_row_shows N names m (length done_) rs1 _ _ Hrs1) as (rs2 & E2 & Hrs2).
  - split.
    + by rewrite map_map.
    + intros sc (a & -> & Ha)%list_elem_of_fmap. simpl. auto.
  - lia.
  - intros name Hin. rewrite <- Hn in Hin. apply list_elem_of_fmap in Hin as (sc & -> & Hsc).
    exists (add_cell (with_cells sc (map (λ m, cell m sc) done_))). split; [|done].
    apply list_elem_of_fmap. eexists. split; [done|]. apply list_elem_of_fmap. eauto.
  - intros sc (a & -> & (b & -> & Hb)%list_elem_of_fmap)%list_elem_of_fmap. exact (Hfit b Hb).
  - exists rs2. split; [done|]. rewrite length_app, Nat.add_1_r.
    replace (filled (done_ ++ [m]) sheet) with (map (put_all m (length done_) names) (map add_cell (filled done_ sheet))); [done|].
    unfold filled. rewrite !map_map. apply map_ext_in. intros sc Hsc%list_elem_of_In.
    rewrite put_all_cells; simpl.
    + unfold set_cell, with_cells, cell. simpl. f_equal. rewrite map_app. simpl.
      rewrite insert_app_r_alt by (rewrite length_map; lia). by rewrite length_map, Nat.sub_diag.
    + right. rewrite lookup_app_r by (rewrite length_map; lia). by rewrite length_map, Nat.sub_diag.
    + left. rewrite <- Hn. apply list_elem_of_fmap. eauto.
Qed.

Lemma pivot_rows_show N names sheet : ∀ rows done_ (rs : plain_recordset),
  rs_shows N rs (length done_) (filled done_ sheet) → stored_sheet sheet →
  map s_name sheet = names → (∀ m sc, m ∈ rows → sc ∈ sheet → fits m sc) →
  length done_ + length rows ≤ N → (Z.of_nat N < 2 ^ 63)%Z →
  ∃ rs', fold_res (add_row names) rows rs = Ret rs' ∧ rs_shows N rs' (length (done_ ++ rows)) (filled (done_ ++ rows) sheet).
Proof.
  induction rows as [|m rows IH]; intros done_ rs Hrs Hst Hn Hfit HN HB; cbn [fold_res].
  - exists rs. by rewrite app_nil_r.
  - simpl in HN. destruct (add_row_shows N names m done_ rs sheet) as (rs1 & -> & Hrs1); [done..|set_solver|lia|done|]. simpl.
    destruct (IH (done_ ++ [m]) rs1 Hrs1 Hst Hn) as (rs2 & -> & Hrs2); [set_solver|rewrite length_app; simpl; lia|done|].
    exists rs2. by rewrite <- app_assoc in Hrs2.
Qed.

(** ** The inferred columns *)

Lemma infer_from_cons name t m rows t' :
  infer_from name t (m :: rows) = Some t' →
  ∃ v, assoc name m = Some v ∧ v ≠ VNil ∧
    ((t = None ∧ infer_from name (Some v) rows = Some t') ∨
     ∃ u, t = Some u ∧ type_of_value u = type_of_value v ∧ infer_from name (Some u) rows = Some t').
Proof.
  simpl. intros Hi. destruct (assoc name m) as [v|]; [|done]. exists v. split; [done|].
  destruct t as [u|].
  - destruct (String.eqb_spec (type_of_value u) (type_of_value v)) as [Et|]; [|by destruct v].
    destruct v; try done; (split; [done|]); right; exists u; auto.
  - destruct v; try done; (split; [done|]); by left.
Qed.

Lemma infer_from_all name rows : ∀ t t',
  infer_from name t rows = Some t' →
  (∀ m, m ∈ rows → ∃ v, assoc name m = Some v ∧ ∃ w, t' = Some w ∧ type_of_value w = type_of_value v) ∧
  (∀ w, t = Some w → ∃ w', t' = Some w' ∧ type_of_value w' = type_of_value w).
Proof.
  induction rows as [|m rows IH]; intros t t' Hi; [simpl in Hi; simplify_eq; split; [set_solver|eauto]|].
  apply infer_from_cons in Hi as (v & Ev & _ & [[-> Hi]|(u & -> & Eu & Hi)]);
    apply IH in Hi as [H1 H2]; destruct (H2 _ eq_refl) as (w' & -> & Ew);
    (split; [intros m' [->|Hm']%elem_of_cons; [exists v; split; [done|]; exists w'; split; [done|congruence]|by apply H1]|]).
  - done.
  - intros w [= <-]. eauto.
Qed.

Lemma infer_from_first name rows : ∀ t w,
  infer_from name t rows = Some (Some w) → t = Some w ∨ ∃ m, m ∈ rows ∧ assoc name m = Some w.
Proof.
  induction rows as [|m rows IH]; intros t w Hi; [simpl in Hi; simplify_eq; by left|].
  apply infer_from_cons in Hi as (v & Ev & _ & [[-> Hi]|(u & -> & Eu & Hi)]);
    apply IH in Hi as [Hi|(m' & Hm' & Hi)]; [| |by left|]; right.
  - exists m. split; [set_solver|]. by simplify_eq.
  - exists m'. split; [set_solver|done].
  - exists m'. split; [set_solver|done].
Qed.

(** The assertion of a basic type succeeds on a predeclared value of that type. *)
Lemma same_type_asserts v w :
  predeclared v → predeclared w → type_of_value v = type_of_value w →
  match w with
  | VFloat _ KFloat64 _ => ∃ f, v = vfloat f
  | VString _ _ => ∃ s, v = vstr s
  | VBool _ _ => ∃ b, v = vbool b
  | VInt _ KInt _ => ∃ z, v = vint z
  | _ => True
  end.
Proof.
  unfold basic_types.
  destruct w; simpl; try done; repeat case_match; try done; intros Hv Hw Ht; subst; destruct v; simpl in *;
    repeat case_match; subst; simpl in *; try done; try (by eexists); exfalso; set_solver.
Qed.

Definition column_of (N : nat) (name : string) (rows : list row_map) (sc : sheet_column unit) : Prop :=
  column_shows N (inferColumn name rows) sc ∧ s_name sc = name ∧ s_cells sc = [] ∧ s_computed sc = None ∧
  ∀ m, m ∈ rows → fits m sc ∧ cell m sc = get m name.

Lemma any_typed_column N name rows :
  inferColumn name rows = any_typed name → ∃ sc, column_of N name rows sc.
Proof.
  intros E. exists (mkSheetColumn name VNil (λ _, True) None []). unfold column_of. rewrite E.
  split; [|done]. split; [done|]. split; [done|]. split; [done|]. by exists (ColumnLaws_standard (T := value)).
Qed.

Lemma typed_column N name rows {T} `{GoTLaws T} (zero : T) :
  inferColumn name rows = Stored (stored (NewColumn name zero [])) →
  (∀ t, assert_T (to_any t) = Some t) →
  (∀ m, m ∈ rows → ∃ t, assoc name m = Some (to_any t)) →
  ∃ sc, column_of N name rows sc.
Proof.
  intros E Ha Hall. exists (mkSheetColumn name (to_any zero) (λ v, ∃ t, v = to_any t) None []). unfold column_of. rewrite E.
  split; [|split; [done|]; split; [done|]; split; [done|]].
  - split; [done|]. split; [done|]. split; [done|].
    exists (ColumnLaws_untyped (C := column T) (T := T)). split; [by exists []|].
    split; [intros v [t ->]; exists t; by rewrite Ha|]. split; [intros ? _; exact I|]. by exists zero.
  - intros m Hm. destruct (Hall m Hm) as [t Ht]. unfold fits, cell, get. simpl. rewrite Ht. split; [|done].
    intros v [= <-]. by exists t.
Qed.

Lemma inferColumn_column N name rows :
  (∀ m v, m ∈ rows → assoc name m = Some v → predeclared v) → ∃ sc, column_of N name rows sc.
Proof.
  intros Hp. destruct (infer_from name None rows) as [[w|]|] eqn:E;
    [|apply any_typed_column; unfold inferColumn; by rewrite E..].
  destruct (infer_from_all name rows _ _ E) as [Hall _].
  destruct (infer_from_first name rows _ _ E) as [?|(m0 & Hm0 & Hw0)]; [done|].
  pose proof (Hp m0 w Hm0 Hw0) as Hw.
  assert (Hv : ∀ m, m ∈ rows → ∃ v, assoc name m = Some v ∧ predeclared v ∧ type_of_value v = type_of_value w).
  { intros m Hm. destruct (Hall m Hm) as (v & Ev & w' & Ew & Et). simplify_eq. exists v. eauto. }
  assert (Ha : ∀ m, m ∈ rows → ∃ v, assoc name m = Some v ∧
    match w with VFloat _ KFloat64 _ => ∃ f, v = vfloat f | VString _ _ => ∃ s, v = vstr s | VBool _ _ => ∃ b, v = vbool b
    | VInt _ KInt _ => ∃ z, v = vint z | _ => True end).
  { intros m Hm. destruct (Hv m Hm) as (v & Ev & Pv & Et). exists v. split; [done|]. by apply same_type_asserts. }
  assert (Hi : inferColumn name rows = match infer_from name None rows with Some (Some w) => match w with
    | VFloat _ KFloat64 _ => Stored (stored (NewColumn (T := spec_float) name (S754_zero false) []))
    | VString _ _ => Stored (stored (NewColumn (T := string) name "" []))
    | VBool _ _ => Stored (stored (NewColumn (T := bool) name false []))
    | VInt _ KInt _ => Stored (stored (NewColumn (T := Z) name 0%Z [])) | _ => any_typed name end | _ => any_typed name end)
    by (unfold inferColumn; destruct (infer_from name None rows) as [[[]|]|]; done).
  rewrite E in Hi.
  destruct w as [|? b|? k ?|? k ?|? k ?|? ?| | | | | |];
    try (by apply any_typed_column); try (destruct k; try (by apply any_typed_column));
    [apply (typed_column N name rows (T := bool) _ Hi)|apply (typed_column N name rows (T := Z) _ Hi)
    |apply (typed_column N name rows (T := spec_float) _ Hi)|apply (typed_column N name rows (T := string) _ Hi)];
    try done; intros m Hm; destruct (Ha m Hm) as (v & Ev & t & ->); by exists t.
Qed.

Lemma inferColumns_sheet N rows names :
  (∀ name m v, name ∈ names → m ∈ rows → assoc name m = Some v → predeclared v) →
  ∃ sheet, Forall2 (column_shows N) (map (λ name, inferColumn name rows) names) sheet ∧
    map s_name sheet = names ∧ (∀ sc, sc ∈ sheet → column_of N (s_name sc) rows sc).
Proof.
  induction names as [|name names IH]; intros Hp; [exists []; split; [constructor|]; split; [done|]; set_solver|].
  destruct IH as (sheet & Hs & Hn & Hc); [set_solver|].
  destruct (inferColumn_column N name rows) as (sc & Hsc); [set_solver|].
  pose proof Hsc as (Hsh & En & _). exists (sc :: sheet). split; [by constructor|]. split; [simpl; by rewrite En, Hn|].
  intros sc' [->|Hsc']%elem_of_cons; [by rewrite En|auto].
Qed.

Lemma pivot_shows nm names rows :
  NoDup names → (Z.of_nat (length rows) < 2 ^ 63)%Z →
  (∀ name m v, name ∈ names → m ∈ rows → assoc name m = Some v → predeclared v) →
  ∃ rs, pivot nm names rows = Ret rs ∧ rs_rowsCount rs = Z.of_nat (length rows) ∧
    ∀ i m, rows !! i = Some m → ∃ row, Data tt (mkColumnarRow (Z.of_nat i) None) rs = (tt, row, (map (get m) names, Ret tt)).
Proof.
  intros Hnd HB Hp. set (N := length rows).
  destruct (inferColumns_sheet N rows names Hp) as (sheet & Hs & Hn & Hc).
  assert (He : filled [] sheet = sheet).
  { unfold filled. rewrite <- (list_fmap_id sheet) at 2. apply map_ext_in. intros sc Hsc%list_elem_of_In.
    destruct (Hc sc Hsc) as (_ & _ & Ec & _). destruct sc. simpl in *. by rewrite Ec. }
  assert (Hst : stored_sheet sheet).
  { split; [by rewrite Hn|]. intros sc Hsc. apply (Hc sc Hsc). }
  destruct (pivot_rows_show N names sheet rows [] (NewColumnarRecordset nm (map (λ name, inferColumn name rows) names)))
    as (rs & Hrs & Hshow); [|done|done| |done|done|].
  - rewrite He. split; [done|]. split; [done|]. apply Forall_forall. intros sc Hsc. by destruct (Hc sc Hsc) as (_ & _ & -> & _).
  - intros m sc Hm Hsc. by apply (Hc sc Hsc).
  - exists rs. simpl in Hshow. split; [done|]. split; [apply Hshow|]. intros i m Hi.
    pose proof (lookup_lt_Some _ _ _ Hi) as Hlt.
    destruct (Data_sheet N rs _ _ (λ _, VNil) i tt Hshow Hlt) as [row Hrow].
    { intros sc cc (a & -> & Ha)%list_elem_of_fmap. simpl. destruct (Hc a Ha) as (_ & _ & _ & -> & _). done. }
    exists row. rewrite Hrow. do 2 f_equal. unfold sheet_row, filled. rewrite map_map, <- Hn, map_map.
    apply map_ext_in. intros sc Hsc%list_elem_of_In. simpl. destruct (Hc sc Hsc) as (_ & En & _ & -> & Hm).
    rewrite list_lookup_fmap, Hi. simpl. apply Hm. by eapply list_elem_of_lookup_2.
Qed.

Section Build.
Context `{GoFmt, RecordKeys, GoJSON}.

Lemma recordsetColumnNames_all q rows names :
  q_columns q = [] → recordsetColumnNames q rows = Ret names → NoDup names.
Proof.
  unfold recordsetColumnNames. intros -> [= <-]. unfold sort_strings. apply stable_sort_NoDup, NoDup_remove_dups.
Qed.

(** The recordset of a query's result has one row per record, in order,
    and in each column the record's value of that name, or nil where the record
    has none, whatever types the columns were given; the read ends. *)
Theorem recordset_has_rows ctx q records rows names nm fuel options :
  never_done ctx → length records < fuel → (Z.of_nat (length records) < 2 ^ 63)%Z →
  traverse (λ _, recordToMap) records = Ret rows →
  recordsetColumnNames q rows = Ret names → NoDup names → recordsetName q options = Ret nm →
  (∀ name m v, name ∈ names → m ∈ rows → assoc name m = Some v → predeclared v) →
  ∃ rs, buildRecordsetReader ctx q slice_reader (NewRecordsReader (Some records)) fuel options
          = Some (Ret (mkColumnarReader rs 0)) ∧
    rs_rowsCount rs = Z.of_nat (length records) ∧
    ∀ i m, rows !! i = Some m →
      ∃ row, Data tt (mkColumnarRow (Z.of_nat i) None) rs = (tt, row, (map (get m) names, Ret tt)).
Proof.
  intros Hctx Hf HB Hrows Hnames Hnd Hnm Hp.
  assert (Hlen : length rows = length records) by (symmetry; by eapply Forall2_length, traverse_from_Forall2).
  destruct (pivot_shows nm names rows Hnd) as (rs & Hrs & Hcount & Hdata); [by rewrite Hlen|done|].
  destruct (ReadAllToRecords_slice ctx records fuel Hctx Hf) as [s Hread].
  exists rs. unfold buildRecordsetReader. rewrite Hread, Hrows. simpl. rewrite Hnames. simpl. rewrite Hnm. simpl.
  rewrite Hrs. simpl. by rewrite <- Hlen.
Qed.
End Build.

Module RecordsetExamples.
#[local] Existing Instance plain_fmt.
#[local] Existing Instance plain_json.
#[local] Existing Instance chain_keys.
Import MemoryExamples.MemoryExamples.

Definition nil_name : row_map := [("age", num 7); ("name", VNil)].
Definition rows : list row_map := [ann; nil_name].
Definition results : list result_record :=
  [mkResult (new_key "users" "a") (vmap ann); mkResult (new_key "users" "n") (vmap nil_name)].

Definition all_users : structuredQuery := mkQuery (Some (From_ base)) None [] None [] [] None [] 0 0 0 "".

Lemma rows_predeclared name m v : m ∈ rows → assoc name m = Some v → predeclared v.
Proof.
  intros Hm Hv. assert (Hin : (name, v) ∈ m).
  { revert Hv. clear. induction m as [|[k w] m IH]; simpl; [done|]. destruct (String.eqb_spec name k); [|set_solver].
    intros [= ->]. subst. set_solver. }
  unfold rows in Hm. repeat (apply elem_of_cons in Hm as [->|Hm];
    [repeat (apply elem_of_cons in Hin as [Hin|Hin]; [injection Hin as -> ->; simpl; first [done|unfold basic_types; set_solver]|]); by apply not_elem_of_nil in Hin|]).
  by apply not_elem_of_nil in Hm.
Qed.

Lemma recordset_has_rows_witness :
  ∃ rs, buildRecordsetReader None all_users slice_reader (NewRecordsReader (Some results)) 3 [WithName "people"]
          = Some (Ret (mkColumnarReader rs 0)) ∧
    rs_rowsCount rs = 2%Z ∧
    ∀ i m, rows !! i = Some m →
      ∃ row, Data tt (mkColumnarRow (Z.of_nat i) None) rs = (tt, row, (map (get m) ["age"; "city"; "name"], Ret tt)).
Proof.
  apply (recordset_has_rows None all_users results rows ["age"; "city"; "name"] "people" 3 [WithName "people"]).
  - done.
  - simpl. lia.
  - done.
  - reflexivity.
  - reflexivity.
  - apply (bool_decide_eq_true_1 (NoDup _)). vm_compute. reflexivity.
  - reflexivity.
  - intros name m v _. apply rows_predeclared.
Defined.

(** A name that is selected twice: the values are set in its first column, the
    second keeps the default of the type that its values have. *)
Example repeated_name :
  rmap (λ rs, (Data tt (mkColumnarRow 0 None) rs).2) (pivot "r" ["age"; "age"] [[("age", num 30)]])
  = Ret ([num 30; num 0], Ret tt).
Proof. vm_compute. reflexivity. Qed.

(** A value of a named type panics, though a comment says the set cannot fail. *)
Example named_type_panics :
  pivot "r" ["age"] [[("age", VInt "main.Age" KInt 30)]] = Panic "interface conversion".
Proof. reflexivity. Qed.

End RecordsetExamples.
