(* ===== verification/DalCollection.v ===== *)
(** * Typed collections (src/dal/collection.go)

    A collection handle builds keys and queries and calls a session.  The
    session is an interface, a class over its state: the theorems hold for
    every adapter; MemoryCollection.v gives the in-memory one.

    A record is its key and the value its data variable points to; the zero
    value of the data type is a field of the handle. *)

From Stdlib Require Import String.
From stdpp Require Import base list strings.
From S2P Require Import Prelude GoValues GoStrings RecordKey DalQuery DalString DalReader.

Local Open Scope string_scope.
Local Open Scope nat_scope.
Local Open Scope list_scope.
Set Warnings "-register-all".

Section Collection.
Context `{RecordKeys}.

(** What [record.NewKeyWithOptions] takes; [OtherOption] is a caller's. *)
Inductive KeyOption (O : Type) := WithKeyID (id : value) | WithParentKey (parent : key) | OtherOption (o : O).
Arguments WithKeyID {O}.
Arguments WithParentKey {O}.
Arguments OtherOption {O}.

(** Package record's constructors of keys. *)
Class KeyConstructors (O : Type) := {
  NewKeyWithOptions : string → list (KeyOption O) → res string key;
  NewIncompleteKey : string → Z → option key → key;
}.

(** ** Sessions *)

(** [F] is a session's error, [I] an insert option, [U] a field update, [C] a
    precondition, [R] a record of a result, as the reader gives it. *)
Class Session (S F I U C : Type) := {
  s_Get : key → value → S → S * res F value;
  s_Query : structuredQuery → S → S * res F (list (key * value));
  s_Insert : key → value → list I → S → S * res F key;
  s_InsertMulti : list (key * value) → S → S * res F unit;
  s_Set : key → value → S → S * res F unit;
  s_Update : key → list U → list C → S → S * res F unit;
  s_Delete : key → S → S * res F unit;
  (** [record.IsNotFound] *)
  IsNotFound : F → bool;
}.

Inductive collection_error (F : Type) :=
| key_option_failed (text : string)
| incomplete_parent (collection parent : string)
| ErrInsertOptionNotHonored (collection : string)
| session_failed (e : F).
Arguments key_option_failed {F}.
Arguments incomplete_parent {F}.
Arguments ErrInsertOptionNotHonored {F}.
Arguments session_failed {F}.

(** ** The handle *)

Record CollectionOptions (O : Type) := mkOptions { co_keyOptions : list (KeyOption O) }.
Arguments mkOptions {O}.
Arguments co_keyOptions {O}.
Definition CollectionOption (O : Type) : Type := CollectionOptions O → CollectionOptions O.

Definition WithKeyOptions {O} (keyOptions : list (KeyOption O)) : CollectionOption O := λ o, mkOptions (co_keyOptions o ++ keyOptions).
Definition newCollectionOptions {O} (opts : list (CollectionOption O)) : CollectionOptions O :=
  fold_left (λ o f, f o) opts (mkOptions []).

Record collection (O : Type) := mkCollection { c_ref : RecordsetSource; c_keyOptions : list (KeyOption O); c_zero : value }.
Arguments mkCollection {O}.
Arguments c_ref {O}.
Arguments c_keyOptions {O}.
Arguments c_zero {O}.

Definition CollectionAt {O} (name : string) (zero : value) (opts : list (CollectionOption O)) : res unit (collection O) :=
  do ref <- NewRootCollectionRef name ""; Ret (mkCollection ref (co_keyOptions (newCollectionOptions opts)) zero).

(** The name comes from the zero value's method. *)
Definition CollectionOf {O} (CollectionName : value → string) (zero : value) (opts : list (CollectionOption O))
  : res unit (collection O) := CollectionAt (CollectionName zero) zero opts.

Definition c_name {O} (c : collection O) : string := source_Name (c_ref c).
Definition c_parent {O} (c : collection O) : option key :=
  match c_ref c with CollectionRef _ _ _ parent => parent | _ => None end.

(** A handle under a parent; it has no key options of its own. *)
Definition In {O} (c : collection O) (parent : option key) : res unit (collection O) :=
  do ref <- newCollectionRef (c_name c) "" parent; Ret (mkCollection ref [] (c_zero c)).

(** ** Keys *)

(** The loop of [guardParent] from a key up; a key has [Level] ancestors. *)
Fixpoint incomplete_ancestor (fuel : nat) (k : key) : option key :=
  match fuel, Parent k with
  | Datatypes.S fuel, Some p => match key_ID p with VNil => Some p | _ => incomplete_ancestor fuel p end
  | _, _ => None
  end.

Section Terminals.
Context {S F I U C O : Type} `{!Session S F I U C, !KeyConstructors O}.
Context (default_generator : I).

Definition guardParent (c : collection O) (k : key) : option (collection_error F) :=
  (λ p, incomplete_parent (c_name c) (Collection p)) <$> incomplete_ancestor (Level k) k.

Definition key_options (c : collection O) (id : value) : list (KeyOption O) :=
  [WithKeyID id] ++ match c_parent c with Some p => [WithParentKey p] | None => [] end ++ c_keyOptions c.

Definition idToKey (c : collection O) (id : value) : res (collection_error F) key :=
  match NewKeyWithOptions (c_name c) (key_options c id) with
  | Ret k => match guardParent c k with Some e => Fail e | None => Ret k end
  | Fail text => Fail (key_option_failed text)
  | Panic msg => Panic msg
  end.

(** ** Calls *)

Definition A (X : Type) : Type := S → S * res (collection_error F) X.

Definition aret {X} (x : X) : A X := λ s, (s, Ret x).
Definition afail {X} (e : collection_error F) : A X := λ s, (s, Fail e).
Definition abind {X Y} (m : A X) (k : X → A Y) : A Y := λ s,
  match m s with
  | (s, Ret x) => k x s
  | (s, Fail e) => (s, Fail e)
  | (s, Panic msg) => (s, Panic msg)
  end.
Notation "'ado' x <- m ; k" := (abind m (λ x, k)) (at level 10, x binder, m at level 100, k at level 200).

Definition alift {X} (r : res (collection_error F) X) : A X := λ s, (s, r).
Definition call {X} (m : S → S * res F X) : A X := λ s, let '(s, r) := m s in (s, rmap_error session_failed r).
(** [if err := c.guardParent(k); err != nil { return err }] *)
Definition guarded_call {X} (c : collection O) (k : key) (m : S → S * res F X) : A X :=
  match guardParent c k with Some e => afail e | None => call m end.

Definition GetRecord (c : collection O) (id : value) : A (key * value) :=
  ado k <- alift (idToKey c id);
  ado v <- call (s_Get k (c_zero c));
  aret (k, v).

Definition GetData (c : collection O) (id : value) : A value := ado r <- GetRecord c id; aret r.2.
Definition coll_Get : collection O → value → A value := GetData.

Definition GetRecordWithID (c : collection O) (id : value) : A (value * key * value) :=
  ado r <- GetRecord c id; aret (id, r.1, r.2).
Definition GetRecordWithDataAndID (c : collection O) (id : value) : A (value * key * value) :=
  ado r <- GetRecord c id; aret (id, r.1, r.2).

(** [reflect.String] *)
Definition kind_String : Z := 24.

Definition ref_query (c : collection O) : QueryBuilder := NewQueryBuilder (From_ (c_ref c)).

Definition All (c : collection O) : A (list value) :=
  ado records <- call (s_Query (SelectIntoRecord (ref_query c) (c_zero c)).2);
  aret (map snd records).

Definition Count (c : collection O) : A nat :=
  ado records <- call (s_Query (SelectKeysOnly (ref_query c) kind_String).2);
  aret (length records).

Definition First (c : collection O) : A (value * bool) :=
  ado records <- call (s_Query (SelectIntoRecord (Limit (ref_query c) 1) (c_zero c)).2);
  match records with
  | [] => aret (c_zero c, false)
  | r :: _ => aret (r.2, true)
  end.

Definition coll_Exists (c : collection O) (id : value) : A bool := λ s,
  match idToKey c id with
  | Fail e => (s, Fail e)
  | Panic msg => (s, Panic msg)
  | Ret k =>
      match s_Get k (c_zero c) s with
      | (s, Ret _) => (s, Ret true)
      | (s, Fail e) => (s, if IsNotFound e then Ret false else Fail (session_failed e))
      | (s, Panic msg) => (s, Panic msg)
      end
  end.

Definition InsertRecord (c : collection O) (k : key) (data : value) (opts : list I) : A key :=
  guarded_call c k (s_Insert k data opts).

(** [id == nil || id == ""] *)
Definition no_id (id : value) : bool :=
  match id with VNil => true | VString ty s => String.eqb ty "string" && String.eqb s "" | _ => false end.

Definition coll_Insert (c : collection O) (data : value) (opts : list I) : A key :=
  ado k <- InsertRecord c (NewIncompleteKey (c_name c) kind_String (c_parent c)) data
             (match opts with [] => [default_generator] | _ => opts end);
  if no_id (key_ID k) then afail (ErrInsertOptionNotHonored (c_name c)) else aret k.

Definition InsertWithID (c : collection O) (id data : value) : A key :=
  ado k <- alift (idToKey c id); InsertRecord c k data [].

Definition SetRecord (c : collection O) (k : key) (data : value) : A unit := guarded_call c k (s_Set k data).
Definition SetByID (c : collection O) (id data : value) : A unit := ado k <- alift (idToKey c id); SetRecord c k data.
Definition coll_Set : collection O → value → value → A unit := SetByID.

Definition UpdateByKey (c : collection O) (k : key) (updates : list U) (preconditions : list C) : A unit :=
  guarded_call c k (s_Update k updates preconditions).
Definition UpdateByID (c : collection O) (id : value) (updates : list U) (preconditions : list C) : A unit :=
  ado k <- alift (idToKey c id); UpdateByKey c k updates preconditions.
Definition coll_Update : collection O → value → list U → list C → A unit := UpdateByID.

Definition DeleteByKey (c : collection O) (k : key) : A unit := guarded_call c k (s_Delete k).
Definition DeleteByID (c : collection O) (id : value) : A unit := ado k <- alift (idToKey c id); DeleteByKey c k.
Definition coll_Delete : collection O → value → A unit := DeleteByID.

(** The records are built before the session is called; the keys come back in
    the order of the items. *)
Definition InsertMany (c : collection O) (items : list (value * value)) : A (list key) :=
  ado keys <- alift (traverse (λ _ item, idToKey c item.1) items);
  ado _ <- call (s_InsertMulti (zip keys (map snd items)));
  aret keys.
End Terminals.
End Collection.
Arguments key_option_failed {F}.
Arguments incomplete_parent {F}.
Arguments ErrInsertOptionNotHonored {F}.
Arguments session_failed {F}.
Arguments WithKeyID {_ O}.
Arguments WithParentKey {_ O}.
Arguments OtherOption {_ O}.
Arguments mkOptions {_ O}.
Arguments mkCollection {_ O}.
Arguments c_zero {_ O}.
Arguments c_ref {_ O}.
Arguments c_keyOptions {_ O}.

(** ** Calls reach a session with complete paths only *)

Section Paths.
Context `{RecordKeysLaws} {S F I U C O : Type} `{!Session S F I U C, !KeyConstructors O}.
Context (default_generator : I).

(** The keys above a key. *)
Inductive ancestor : key → key → Prop :=
| ancestor_parent k p : Parent k = Some p → ancestor p k
| ancestor_step k p q : Parent k = Some p → ancestor q p → ancestor q k.

Definition complete_path (k : key) : bool :=
  match incomplete_ancestor (Level k) k with None => true | Some _ => false end.

Lemma incomplete_ancestor_spec n : ∀ k, Level k ≤ n →
  match incomplete_ancestor n k with
  | None => ∀ p, ancestor p k → key_ID p ≠ VNil
  | Some p => ancestor p k ∧ key_ID p = VNil
  end.
Proof.
  induction n as [|n IH]; intros k Hn; simpl.
  - intros p Hp. inversion Hp as [? ? E|? ? ? E]; subst; apply Level_Parent in E; lia.
  - destruct (Parent k) as [p|] eqn:Hp.
    2:{ intros p Hq. inversion Hq; congruence. }
    pose proof (Level_Parent _ _ Hp) as Hl. specialize (IH p ltac:(lia)).
    assert (Hstep : match incomplete_ancestor n p with None => key_ID p ≠ VNil → ∀ q, ancestor q k → key_ID q ≠ VNil
                    | Some q => ancestor q k ∧ key_ID q = VNil end).
    { revert IH. destruct (incomplete_ancestor n p) as [q|]; intros IH; [split; [eapply ancestor_step; [exact Hp|apply IH]|apply IH]|].
      intros Hne q Hq. inversion Hq as [? ? Hp'|? ? ? Hp' Hq']; subst; rewrite Hp in Hp'; injection Hp' as <-; [done|by apply IH]. }
    destruct (key_ID p) eqn:Ep; [split; [by apply ancestor_parent|done]|..];
      (destruct (incomplete_ancestor n p); [done|by apply Hstep]).
Qed.

Lemma complete_path_spec k : complete_path k = true ↔ ∀ p, ancestor p k → key_ID p ≠ VNil.
Proof.
  unfold complete_path. pose proof (incomplete_ancestor_spec (Level k) k (le_n _)) as Hs.
  destruct (incomplete_ancestor (Level k) k) as [p|]; [|done]. split; [done|]. intros Hk. by destruct (Hk p); [apply Hs|apply Hs].
Qed.

(** The collection of a source lies under a parent that has an identifier, and
    so do that parent's. *)
Definition complete_source (source : RecordsetSource) : bool :=
  match source with
  | CollectionRef _ _ _ (Some p) => match key_ID p with VNil => false | _ => complete_path p end
  | _ => true
  end.

Definition complete_sources (q : structuredQuery) : bool :=
  match q_from q with
  | None => true
  | Some from => complete_source (from_Base from) && forallb (λ j, complete_source (join_source j)) (from_Joins from)
  end.

Lemma complete_source_spec (c : collection O) :
  complete_source (c_ref c) = true ↔
  ∀ p, c_parent c = Some p → key_ID p ≠ VNil ∧ ∀ q, ancestor q p → key_ID q ≠ VNil.
Proof.
  unfold c_parent. destruct (c_ref c) as [? ? ? [p|]| |]; simpl; [|done..].
  trans (key_ID p ≠ VNil ∧ complete_path p = true); [by destruct (key_ID p); simpl; intuition|].
  rewrite complete_path_spec. split; [by intros Hp p' [= <-]|]. intros Hp. by apply Hp.
Qed.

(** The session that breaks down on a key, or the source of a query, under an
    incomplete parent. *)
Definition broken : string := "incomplete parent".
Definition only_complete {X} (k : key) (m : S → S * res F X) : S → S * res F X :=
  if complete_path k then m else λ s, (s, Panic broken).

Definition strict_session : Session S F I U C := {|
  s_Get k target := only_complete k (s_Get k target);
  s_Query q := if complete_sources q then s_Query q else λ s, (s, Panic broken);
  s_Insert k data opts := only_complete k (s_Insert k data opts);
  s_InsertMulti records :=
    if forallb (λ r, complete_path r.1) records then s_InsertMulti records else λ s, (s, Panic broken);
  s_Set k data := only_complete k (s_Set k data);
  s_Update k updates preconditions := only_complete k (s_Update k updates preconditions);
  s_Delete k := only_complete k (s_Delete k);
  IsNotFound := IsNotFound;
|}.

Inductive terminal :=
| TGetRecord (id : value) | TExists (id : value) | TAll | TCount | TFirst
| TInsert (data : value) (opts : list I) | TInsertWithID (id data : value)
| TInsertRecord (k : key) (data : value) (opts : list I) | TInsertMany (items : list (value * value))
| TSetByID (id data : value) | TSetRecord (k : key) (data : value)
| TUpdateByID (id : value) (updates : list U) (preconditions : list C)
| TUpdateByKey (k : key) (updates : list U) (preconditions : list C)
| TDeleteByID (id : value) | TDeleteByKey (k : key).

Inductive terminal_result :=
| RRecord (k : key) (v : value) | RBool (b : bool) | RValues (l : list value) | RCount (n : nat) | RFirst (v : value) (b : bool)
| RKey (k : key) | RKeys (l : list key) | RUnit.

Definition to {X} (f : X → terminal_result) (m : A (S := S) (F := F) X) : A (S := S) (F := F) terminal_result :=
  abind m (λ x, aret (f x)).

Definition run_terminal (s : Session S F I U C) (c : collection O) (t : terminal) : A (S := S) (F := F) terminal_result :=
  match t with
  | TGetRecord id => to (λ r, RRecord r.1 r.2) (GetRecord (Session0 := s) c id)
  | TExists id => to RBool (coll_Exists (Session0 := s) c id)
  | TAll => to RValues (All (Session0 := s) c)
  | TCount => to RCount (Count (Session0 := s) c)
  | TFirst => to (λ r, RFirst r.1 r.2) (First (Session0 := s) c)
  | TInsert data opts => to RKey (coll_Insert (Session0 := s) default_generator c data opts)
  | TInsertWithID id data => to RKey (InsertWithID (Session0 := s) c id data)
  | TInsertRecord k data opts => to RKey (InsertRecord (Session0 := s) c k data opts)
  | TInsertMany items => to RKeys (InsertMany (Session0 := s) c items)
  | TSetByID id data => to (λ _, RUnit) (SetByID (Session0 := s) c id data)
  | TSetRecord k data => to (λ _, RUnit) (SetRecord (Session0 := s) c k data)
  | TUpdateByID id us ps => to (λ _, RUnit) (UpdateByID (Session0 := s) c id us ps)
  | TUpdateByKey k us ps => to (λ _, RUnit) (UpdateByKey (Session0 := s) c k us ps)
  | TDeleteByID id => to (λ _, RUnit) (DeleteByID (Session0 := s) c id)
  | TDeleteByKey k => to (λ _, RUnit) (DeleteByKey (Session0 := s) c k)
  end.

(** The terminals that hand over the collection itself, in a query. *)
Definition queries_source (t : terminal) : bool :=
  match t with TAll | TCount | TFirst => true | _ => false end.

Lemma guardParent_complete (c : collection O) k :
  guardParent (F := F) c k = None ↔ complete_path k = true.
Proof. unfold guardParent, complete_path. by destruct (incomplete_ancestor (Level k) k). Qed.

Lemma idToKey_complete (c : collection O) id k : idToKey (F := F) c id = Ret k → complete_path k = true.
Proof.
  unfold idToKey. destruct (NewKeyWithOptions _ _) as [k'| |]; [|done..].
  destruct (guardParent c k') eqn:G; [done|]. intros [= <-]. by apply guardParent_complete in G.
Qed.

Lemma guarded_strict {X} (c : collection O) k (m : S → S * res F X) :
  guarded_call c k (only_complete k m) = guarded_call c k m.
Proof.
  unfold guarded_call, only_complete. destruct (guardParent c k) eqn:G; [done|].
  by rewrite (proj1 (guardParent_complete c k) G).
Qed.

Lemma abind_ext {X Y} (m : A (S := S) (F := F) X) (k k' : X → A (S := S) (F := F) Y) s :
  (∀ s1 x, m s = (s1, Ret x) → k x s1 = k' x s1) → abind m k s = abind m k' s.
Proof. unfold abind. destruct (m s) as [s1 [x| |]]; auto. Qed.

Lemma on_key_ext {X} (c : collection O) id (k k' : key → A (S := S) (F := F) X) s :
  (∀ x, complete_path x = true → k x s = k' x s) →
  abind (alift (idToKey c id)) k s = abind (alift (idToKey c id)) k' s.
Proof.
  intros Hk. unfold abind, alift. destruct (idToKey c id) as [x| |] eqn:Ex; [|done..]. apply Hk. by eapply idToKey_complete.
Qed.

Lemma keys_complete (c : collection O) (items : list (value * value)) keys :
  traverse (λ _ item, idToKey (F := F) c item.1) items = Ret keys →
  forallb (λ r : key * value, complete_path r.1) (zip keys (map snd items)) = true.
Proof.
  intros Ht. apply traverse_from_Forall2 in Ht. induction Ht as [|[id v] k items keys [j Hj] Ht IH]; [done|].
  simpl. by rewrite (idToKey_complete c id k Hj), IH.
Qed.

Lemma query_strict {X} (c : collection O) (q : structuredQuery) (k : list (key * value) → A (S := S) (F := F) X) st :
  q_from q = Some (From_ (c_ref c)) →
  abind (call (s_Query (Session := strict_session) q)) k st =
    if complete_source (c_ref c) then abind (call (s_Query q)) k st else (st, Panic broken).
Proof. intros Hq. simpl. unfold complete_sources. rewrite Hq. simpl. rewrite andb_true_r. by destruct (complete_source (c_ref c)). Qed.

(** C31: every terminal that addresses keys looks at their parents first: with a
    session that breaks down on a key, or on a source, under an incomplete
    parent it does what it does with the session itself, so it hands over no such
    key.  The three terminals that hand over the collection in a query ([All],
    [Count], [First]) do not look: under an incomplete parent, and only there,
    they reach the session with the malformed source. *)
Theorem terminals_guard_parents (c : collection O) t st :
  run_terminal strict_session c t st =
    (if queries_source t && negb (complete_source (c_ref c)) then (st, Panic broken) else run_terminal Session0 c t st) ∧
  (∀ k, complete_path k = true ↔ ∀ p, ancestor p k → key_ID p ≠ VNil) ∧
  (complete_source (c_ref c) = true ↔ ∀ p, c_parent c = Some p → key_ID p ≠ VNil ∧ ∀ q, ancestor q p → key_ID q ≠ VNil).
Proof.
  split; [|split; [intros k; apply complete_path_spec|apply complete_source_spec]].
  assert (Hto : ∀ X (f : X → terminal_result) (m m' : A (S := S) (F := F) X), m st = m' st → to f m st = to f m' st)
    by (intros X f m m' E; unfold to, abind; by rewrite E).
  assert (Hq : ∀ X (f : X → terminal_result) (m m' : A (S := S) (F := F) X),
    m st = (if complete_source (c_ref c) then m' st else (st, Panic broken)) →
    to f m st = if negb (complete_source (c_ref c)) then (st, Panic broken) else to f m' st)
    by (intros X f m m' E; unfold to, abind; rewrite E; by destruct (complete_source (c_ref c))).
  destruct t; simpl; try (apply Hq; by apply query_strict); apply Hto;
    unfold GetRecord, coll_Insert, InsertWithID, InsertRecord, SetByID, SetRecord, UpdateByID, UpdateByKey, DeleteByID, DeleteByKey; simpl;
    rewrite ?guarded_strict; try done;
    try (apply on_key_ext; intros k Hk; rewrite ?guarded_strict; try done; unfold only_complete; by rewrite Hk).
  - unfold coll_Exists. destruct (idToKey c id) as [k| |] eqn:Ek; [|done..].
    simpl. unfold only_complete. by rewrite (idToKey_complete c id k Ek).
  - unfold InsertMany. apply abind_ext. intros s1 keys [= <- Hk]. simpl. by rewrite (keys_complete c items keys Hk).
Qed.

(** [Insert] reports success only with a key that has an identifier: when
    the session succeeds and leaves the key without one, the insert fails with
    [ErrInsertOptionNotHonored]. *)
Theorem Insert_has_id (c : collection O) data opts st :
  match coll_Insert (Session0 := Session0) default_generator c data opts st with
  | (st', Ret k) =>
      no_id (key_ID k) = false ∧
      InsertRecord c (NewIncompleteKey (c_name c) kind_String (c_parent c)) data
        (match opts with [] => [default_generator] | _ => opts end) st = (st', Ret k)
  | (st', Fail (ErrInsertOptionNotHonored name)) =>
      name = c_name c ∧
      ∃ k, no_id (key_ID k) = true ∧
        InsertRecord c (NewIncompleteKey (c_name c) kind_String (c_parent c)) data
          (match opts with [] => [default_generator] | _ => opts end) st = (st', Ret k)
  | (st', r) =>
      rmap (λ k, key_ID k) r = rmap (λ k, key_ID k) (InsertRecord c (NewIncompleteKey (c_name c) kind_String (c_parent c)) data
        (match opts with [] => [default_generator] | _ => opts end) st).2
  end.
Proof.
  unfold coll_Insert, abind.
  set (o := match opts with [] => _ | _ => _ end).
  destruct (InsertRecord c _ data o st) as [st' [k|e|msg]] eqn:E; [|destruct e|]; simpl; try done.
  - destruct (no_id (key_ID k)) eqn:Ek; simpl; eauto.
  - exfalso. unfold InsertRecord, guarded_call, guardParent in E.
    destruct (incomplete_ancestor _ _); simpl in E; [done|]. unfold call in E.
    destruct (s_Insert _ _ _ _) as [s1 [| |]]; simplify_eq/=; done.
Qed.
End Paths.

(** A handle under a parent has lost the key options of its collection. *)
Lemma In_drops_key_options `{RecordKeys} {O} (c : collection O) parent c' : In c parent = Ret c' → c_keyOptions c' = [].
Proof. unfold In. destruct (newCollectionRef _ _ _); simpl; [|done..]. by intros [= <-]. Qed.
