(* ===== verification/MemoryCollection.v ===== *)
(** * Collections over the in-memory database
    (src/dal/collection.go over src/adapters/dalgo2memory)

    The sessions of MemorySession.v are sessions in the sense of
    DalCollection.v; a collection over them is the map that its operations
    suggest. *)

From Stdlib Require Import String.
From stdpp Require Import base gmap list strings.
From S2P Require Import Prelude GoValues GoMaps GoStrings GoJSON RecordKey DalQuery DalString DalReader DalCollection.
From S2P Require Import MemoryRows MemoryQuery MemoryUpdate MemoryEngine MemorySession MemorySessionLaws MemoryExamples.

Local Open Scope string_scope.
Local Open Scope nat_scope.
Local Open Scope list_scope.

Section MemoryCollection.
Context `{GoFmt, RecordKeys, GoJSON, Decoders}.
Context {E R : Type} `{StorageEngine E} `{!EngineModel E R} `{!EngineLaws E R}.
Context (objects : key_objects) (cfg : config (E:=E)).
Context (NewKeyWithID : string → string → key) (random_string_key : nat → res mem_error value).
Context {O : Type} `{!KeyConstructors O}.

Notation state := (state (E:=E)).

(** An insert option changes the options record. *)
Definition insert_options (opts : list (insertOptions → insertOptions)) : insertOptions :=
  fold_left (λ o f, f o) opts (mkInsertOptions None false).

(** The reader of a query's result is that of a slice: reading all of it gives
    the slice back ([DalReader.ReadAllToRecords_slice]). *)
Definition read_result (records : list result_record) : res mem_error (list (key * value)) :=
  match ReadAllToRecords true slice_reader None (Datatypes.S (length records)) [] (NewRecordsReader (Some records)) with
  | Some (_, l, None) => Ret (map (λ r, (rec_key r, rec_data r)) l)
  | _ => Fail (other_error "reader")
  end.

#[export] Instance memory_session : Session state mem_error (insertOptions → insertOptions) Update unit := {|
  s_Get k target := Get cfg k target;
  s_Query q := mdo records <- ExecuteQueryToRecordsReader cfg NewKeyWithID (StructuredQuery q); mlift (read_result records);
  s_Insert k data opts := Insert objects cfg random_string_key k data (insert_options opts);
  s_InsertMulti records := InsertMulti objects cfg random_string_key records (insert_options []);
  s_Set k data := Set_ cfg k data;
  s_Update k updates _ := Update_ cfg k updates;
  s_Delete k := Delete cfg k;
  IsNotFound e := match e with not_found => true | _ => false end;
|}.

Lemma read_result_all records : read_result records = Ret (map (λ r, (rec_key r, rec_data r)) records).
Proof.
  unfold read_result. destruct (ReadAllToRecords_slice None records (Datatypes.S (length records))) as [s ->]; [done|lia|done].
Qed.

Lemma allowRead_outside (s : state) : txState s = None → allowRead s = (s, Ret tt).
Proof. unfold allowRead. by intros ->. Qed.

Lemma alift_bind {X Y} (r : X) (k : X → A (S := state) (F := mem_error) Y) s : abind (alift (Ret r)) k s = k r s.
Proof. done. Qed.

Lemma guarded_ok (c : collection O) k {X} (m : M state X) :
  guardParent (F := mem_error) c k = None → guarded_call c k m = call m.
Proof. unfold guarded_call. by intros ->. Qed.

(** [Get] of a collection on the session's [Get]. *)
Lemma GetData_run (c : collection O) id k (s : state) :
  idToKey (F := mem_error) c id = Ret k →
  (GetData c id s).2 = rmap_error session_failed (Get cfg k (c_zero c) s).2.
Proof.
  intros Hk. unfold GetData, GetRecord, abind, alift, call. rewrite Hk. cbn [s_Get memory_session].
  by destruct (Get cfg k (c_zero c) s) as [s' [v| |]].
Qed.

Lemma Exists_run (c : collection O) id k (s : state) :
  idToKey (F := mem_error) c id = Ret k →
  (coll_Exists c id s).2 = match (Get cfg k (c_zero c) s).2 with
                           | Ret _ => Ret true
                           | Fail not_found => Ret false
                           | Fail e => Fail (session_failed e)
                           | Panic msg => Panic msg
                           end.
Proof.
  intros Hk. unfold coll_Exists. rewrite Hk. cbn [s_Get memory_session].
  destruct (Get cfg k (c_zero c) s) as [s' [v|e|msg]]; simpl; [done| |done]. by destruct e.
Qed.

Lemma on_key {X} (c : collection O) id k (f : key → A (S := state) (F := mem_error) X) s :
  idToKey (F := mem_error) c id = Ret k → abind (alift (idToKey c id)) f s = f k s.
Proof. by intros ->. Qed.

Lemma idToKey_guard (c : collection O) id k : idToKey (F := mem_error) c id = Ret k → guardParent (F := mem_error) c k = None.
Proof.
  unfold idToKey. destruct (NewKeyWithOptions _ _) as [k'| |]; [|done..].
  destruct (guardParent c k') eqn:G; [done|]. by intros [= <-].
Qed.

Lemma SetByID_run (c : collection O) id data (s s1 : state) :
  SetByID (U := Update) (C := unit) c id data s = (s1, Ret tt) →
  ∃ k, idToKey (F := mem_error) c id = Ret k ∧ Set_ cfg k data s = (s1, Ret tt).
Proof.
  unfold SetByID. destruct (idToKey c id) as [k| |] eqn:Ek; [|done..]. rewrite alift_bind.
  unfold SetRecord. rewrite (guarded_ok c k _ (idToKey_guard c id k Ek)). unfold call. cbn [s_Set memory_session].
  destruct (Set_ cfg k data s) as [s' [[]| |]] eqn:Es; [|done..]. intros [= <-]. eauto.
Qed.

(** Over the in-memory database, outside transactions, a collection is a
    map: what [SetByID] stored is what [GetData] loads, decoded into the data
    type; after [DeleteByID] the record is gone, [Exists] says so and [GetData]
    fails with not-found; no other record has changed. *)
Theorem collection_lifecycle (c : collection O) id data (s s1 : state) :
  fresh_engines cfg → good s → txState s = None → SetByID (U := Update) (C := unit) c id data s = (s1, Ret tt) →
  ∃ k r s2, idToKey (F := mem_error) c id = Ret k ∧ encode (engine_of cfg s (Collection k)) data = Ret r ∧
    (GetData c id s1).2 = rmap_error session_failed
      (do b <- document (engine_of cfg s (Collection k)) r; Unmarshal_into b (c_zero c)) ∧
    DeleteByID (U := Update) (C := unit) c id s1 = (s2, Ret tt) ∧
    (coll_Exists c id s2).2 = Ret false ∧ (GetData c id s2).2 = Fail (session_failed not_found) ∧
    ∀ name x, (name, x) ≠ (Collection k, keyID k) → stored cfg s2 name x = stored cfg s name x.
Proof.
  intros Hnew Hgood Htx Hset. destruct (SetByID_run c id data s s1 Hset) as (k & Hk & Hset').
  destruct (Set_effect cfg k data s s1 Hnew Hgood Hset') as (r & Hguard & Henc & Hg1 & Hdoc & Hst & Hother).
  assert (Htx1 : txState s1 = None).
  { pose proof (keeps_write objects cfg random_string_key (OpSet k data) s) as Hle. simpl in Hle. rewrite Hset' in Hle.
    unfold tx_le in Hle. rewrite Htx in Hle. simpl in Hle. by destruct (txState s1). }
  destruct (Delete_effect cfg k s1 Hnew Hg1) as (s2 & Hdel & Hg2 & Htx2 & Hgone & Hother2).
  assert (Hget2 : (Get cfg k (c_zero c) s2).2 = Fail not_found).
  { rewrite Get_stored; [by rewrite Hgone|done|done|by apply allowRead_outside, Htx2|done]. }
  exists k, r, s2. split; [done|]. split; [done|]. split; [|split; [|split; [|split]]].
  - rewrite (GetData_run c id k s1 Hk), Get_stored, Hst, Hdoc by (try done; by apply allowRead_outside). done.
  - unfold DeleteByID. rewrite (on_key c id k _ s1 Hk). unfold DeleteByKey.
    rewrite (guarded_ok c k _ (idToKey_guard c id k Hk)). unfold call. cbn [s_Delete memory_session]. by rewrite Hdel.
  - by rewrite (Exists_run c id k s2 Hk), Hget2.
  - by rewrite (GetData_run c id k s2 Hk), Hget2.
  - intros name x Hne. by rewrite Hother2, Hother by done.
Qed.
End MemoryCollection.

Module CollectionExamples.
#[local] Existing Instance plain_fmt.
#[local] Existing Instance plain_json.
#[local] Existing Instance plain_decoders.
#[local] Existing Instance chain_keys.
#[local] Existing Instance serialized_engine_laws.
Import MemoryExamples.MemoryExamples.

(** The options that give a key its identifier and its parent; a caller's
    option fails. *)
Fixpoint key_with_options (k : chain_key) (options : list (KeyOption unit)) : res string chain_key :=
  match options with
  | [] => Ret k
  | o :: options =>
      match o, k with
      | WithKeyID id, ChainKey c _ p => key_with_options (ChainKey c id p) options
      | WithParentKey p, ChainKey c id _ => key_with_options (ChainKey c id (Some p)) options
      | OtherOption _, _ => Fail "option failed"
      end
  end.

#[local] Instance chain_constructors : KeyConstructors unit := {|
  NewKeyWithOptions name options := key_with_options (ChainKey name VNil None) options;
  NewIncompleteKey name _ parent := ChainKey name VNil parent;
|}.

Definition users : collection unit := mkCollection (CollectionRef false "users" "" None) [] VNil.
Definition no_tx : state (E:=serializedEngine) := mkState ∅ None.

Definition stored_ann : state (E:=serializedEngine) := (Set_ (schemaless false) (new_key "users" "a") (vmap ann) no_tx).1.

Lemma collection_lifecycle_witness :
  ∃ k r s2, idToKey (F := mem_error) users (vstr "a") = Ret k ∧
    encode (engine_of (schemaless false) no_tx (Collection k)) (vmap ann) = Ret r ∧
    (GetData (Session0 := memory_session own_objects (schemaless false) new_key no_ids) users (vstr "a") stored_ann).2
      = rmap_error session_failed (do b <- document (engine_of (schemaless false) no_tx (Collection k)) r; Unmarshal_into b VNil) ∧
    DeleteByID (Session0 := memory_session own_objects (schemaless false) new_key no_ids) users (vstr "a") stored_ann = (s2, Ret tt) ∧
    (coll_Exists (Session0 := memory_session own_objects (schemaless false) new_key no_ids) users (vstr "a") s2).2 = Ret false ∧
    (GetData (Session0 := memory_session own_objects (schemaless false) new_key no_ids) users (vstr "a") s2).2
      = Fail (session_failed not_found) ∧
    ∀ name x, (name, x) ≠ (Collection k, keyID k) →
      stored (schemaless false) s2 name x = stored (schemaless false) no_tx name x.
Proof.
  apply (collection_lifecycle own_objects (schemaless false) new_key no_ids users (vstr "a") (vmap ann) no_tx stored_ann).
  - apply schemaless_fresh.
  - intros c e Hc. cbn in Hc. by apply lookup_empty_Some in Hc.
  - done.
  - reflexivity.
Defined.

Definition cities_in (country : option chain_key) : collection unit := mkCollection (CollectionRef false "cities" "" country) [] VNil.
Definition nameless : chain_key := ChainKey "countries" VNil None.

Lemma terminals_guard_parents_witness :
  let S0 := memory_session own_objects (schemaless false) new_key no_ids in
  let cities := cities_in (Some nameless) in
  run_terminal (λ o, o) (strict_session (Session0 := S0)) cities (TSetByID (vstr "cork") (vmap ann)) no_tx
    = run_terminal (λ o, o) S0 cities (TSetByID (vstr "cork") (vmap ann)) no_tx ∧
  run_terminal (λ o, o) (strict_session (Session0 := S0)) cities TCount no_tx = (no_tx, Panic broken).
Proof.
  pose proof (λ t, terminals_guard_parents (H0 := chain_keys_laws) (Session0 := memory_session own_objects (schemaless false) new_key no_ids)
    (λ o, o) (cities_in (Some nameless)) t no_tx) as Ht.
  split; [exact (proj1 (Ht (TSetByID (vstr "cork") (vmap ann))))|exact (proj1 (Ht TCount))].
Defined.

(** The terminals that query the collection report nothing under such a parent. *)
Example nameless_parent_counted :
  let S0 := memory_session own_objects (schemaless false) new_key no_ids in
  (run_terminal (λ o, o) S0 (cities_in (Some nameless)) TCount no_tx).2 = Ret (RCount 0) ∧
  (run_terminal (λ o, o) S0 (cities_in (Some nameless)) TAll no_tx).2 = Ret (RValues []).
Proof. vm_compute. done. Qed.

Example refused : (run_terminal (λ o, o) (memory_session own_objects (schemaless false) new_key no_ids)
    (cities_in (Some nameless)) (TSetByID (vstr "cork") (vmap ann)) no_tx).2 = Fail (incomplete_parent "cities" "countries").
Proof. reflexivity. Qed.

(** A generated insert on a session that ignores the generator is reported. *)
Example insert_without_generator :
  (coll_Insert (Session0 := memory_session own_objects (schemaless false) new_key no_ids) (λ o, o) users (vmap ann) [] no_tx).2
  = Fail (ErrInsertOptionNotHonored "users").
Proof. vm_compute. reflexivity. Qed.

Definition counter_ids (i : nat) : res mem_error value := Ret (vstr (pretty.pretty i)).

(** Insert, count, read all and the first. *)
Example insert_and_read :
  let S0 := memory_session own_objects (schemaless false) new_key no_ids in
  let gen o := mkInsertOptions (Some counter_ids) (o_preferAdapterGeneratedID o) in
  let '(s, k1) := coll_Insert (Session0 := S0) gen users (vmap ann) [] no_tx in
  let '(s, k2) := coll_Insert (Session0 := S0) gen users (vmap bob) [] s in
  (k1, k2, (Count (Session0 := S0) users s).2) = (Ret (new_key "users" "1"), Ret (new_key "users" "2"), Ret 2).
Proof. vm_compute. reflexivity. Qed.

End CollectionExamples.
