(* ===== verification/MemoryBranching.v ===== *)
(** * Checkpoints and branches of the in-memory database
    (src/adapters/dalgo2memory/branching.go, src/branching/branching.go)

    Maps, byte slices, keys and engines are objects that are shared by
    reference, so the model has a heap.  A checkpoint is a copy of the
    database's objects, a branch a copy of the checkpoint's; the theorem says
    that no write to the objects of one is seen by the others. *)

From Stdlib Require Import String Sorted.
From stdpp Require Import base gmap list strings pretty.
From S2P Require Import Prelude StableSort GoValues GoJSON.

Local Open Scope string_scope.
Local Open Scope nat_scope.
Local Open Scope list_scope.
Set Warnings "-register-all".

(** ** The heap *)

Definition loc : Type := nat.

(** [key.ID]: a value, or a slice of fields of a composite key. *)
Inductive id_cell := IdValue (v : value) | IdFields (l : loc).

(** What an identifier denotes: one that is still to be made has a kind only. *)
Inductive shown_id := Incomplete (kind : Z) | Plain (v : value) | Composite (fields : list (string * value)).

(** An entry of [database.collections]; a serialized engine is a pointer. *)
Inductive storage := SerializedAt (l : loc) | ColumnarStorage | CustomStorage.

(** A constructor of engines is known by its code pointer. *)
Inductive factory_pc := SerializedFactory | OtherFactory (pc : Z).

Inductive cell :=
| CBytes (b : json)
| CRecords (m : gmap string loc)
| CKeys (m : gmap string (option loc))
| CKey (collection : string) (id : id_cell) (kind : Z) (parent : option loc)
| CFields (fields : list (string * value))
| CEngine (collection : string) (factory : option value) (records keys : loc)
| CCollections (m : gmap string storage)
| CFactories (m : gmap string value)
| CEngineFactories (m : gmap string factory_pc).

Record heap := mkHeap { next : loc; cells : gmap loc cell }.

(** The texts of [UnsupportedError.Reason]. *)
Inductive reason := source_not_memory | collection_not_serialized (collection : string).

Inductive branching_error :=
| ErrNilSourceDB
| ErrReleased
| UnsupportedError (provider mode : string) (why : reason)
| ctx_error (text : string).

(** An operation may allocate and write whether it fails or not. *)
Definition HM (A : Type) : Type := heap → heap * res branching_error A.

Definition hret {A} (a : A) : HM A := λ h, (h, Ret a).
Definition hfail {A} (e : branching_error) : HM A := λ h, (h, Fail e).
Definition hpanic {A} (msg : string) : HM A := λ h, (h, Panic msg).
Definition hbind {A B} (m : HM A) (k : A → HM B) : HM B := λ h,
  match m h with
  | (h, Ret a) => k a h
  | (h, Fail e) => (h, Fail e)
  | (h, Panic msg) => (h, Panic msg)
  end.
Notation "'hdo' x <- m ; k" := (hbind m (λ x, k)) (at level 10, x binder, m at level 100, k at level 200) : dalgo_scope.

Definition alloc (c : cell) : HM loc := λ h, (mkHeap (Datatypes.S (next h)) (<[next h := c]> (cells h)), Ret (next h)).

Definition nil_panic : string := "runtime error: invalid memory address or nil pointer dereference".

(** Reading an object; the kinds are those of Go's static types. *)
Definition read {A} (as_ : cell → option A) (l : loc) : HM A := λ h,
  match cells h !! l with
  | Some c => match as_ c with Some a => (h, Ret a) | None => (h, Panic nil_panic) end
  | None => (h, Panic nil_panic)
  end.

Definition as_bytes c := match c with CBytes b => Some b | _ => None end.
Definition as_records c := match c with CRecords m => Some m | _ => None end.
Definition as_keys c := match c with CKeys m => Some m | _ => None end.
Definition as_key c := match c with CKey a b d e => Some (a, b, d, e) | _ => None end.
Definition as_fields c := match c with CFields l => Some l | _ => None end.
Definition as_engine c := match c with CEngine a b d e => Some (a, b, d, e) | _ => None end.
Definition as_collections c := match c with CCollections m => Some m | _ => None end.
Definition as_factories c := match c with CFactories m => Some m | _ => None end.
Definition as_engine_factories c := match c with CEngineFactories m => Some m | _ => None end.

(** [for k, v := range m] that fills a new map. *)
Fixpoint copy_entries {A B} (f : A → HM B) (l : list (string * A)) (acc : gmap string B) : HM (gmap string B) :=
  match l with
  | [] => hret acc
  | (k, a) :: l => hdo b <- f a; copy_entries f l (<[k := b]> acc)
  end.
Definition copy_map {A B} (f : A → HM B) (m : gmap string A) : HM (gmap string B) := copy_entries f (map_to_list m) ∅.

(** ** The database and its copies *)

Record schema_ref := mkSchemaRef { sr_collections : loc; sr_engines : loc; sr_allowUndefined : bool }.

Record database := mkDatabase {
  d_collections : loc;
  d_schema : option schema_ref;
  d_noReadsAfterWrites : bool;
  d_schemaRefBreaking : bool;
}.

Record serializedEngineSnapshot := mkEngineSnapshot {
  sn_collection : string; sn_factory : option value; sn_records : loc; sn_keys : loc }.

Record databaseSnapshot := mkSnapshot {
  ds_collections : gmap string serializedEngineSnapshot;
  ds_schema : option schema_ref;
  ds_noReadsAfterWrites : bool;
  ds_schemaRefBreaking : bool;
}.

Section Branching.
(** The constructors of keys of package record panic on some arguments. *)
Context (key_check : string → shown_id → option string).
(** [IDKind] of a key made from an identifier. *)
Context (kind_of_id : id_cell → Z).

Definition new_key (collection : string) (id : id_cell) (shown : shown_id) (kind : Z)
    (parent : option loc) : HM loc :=
  match key_check collection shown with
  | Some msg => hpanic msg
  | None => alloc (CKey collection id kind parent)
  end.

Definition cloneRecordKeyID (id : id_cell) : HM (id_cell * shown_id) :=
  match id with
  | IdValue v => hret (IdValue v, Plain v)
  | IdFields l => hdo fields <- read as_fields l; hdo l' <- alloc (CFields fields); hret (IdFields l', Composite fields)
  end.

Definition is_nil_id (id : id_cell) : bool := match id with IdValue VNil => true | _ => false end.

(** The recursion goes up the chain of parents; [fuel] bounds its length. *)
Fixpoint cloneRecordKey (fuel : nat) (key : option loc) : HM (option loc) :=
  match fuel, key with
  | _, None => hret None
  | 0, Some _ => hpanic "out of fuel"
  | Datatypes.S fuel, Some l =>
      hdo k <- read as_key l;
      let '(collection, id, kind, parent) := k in
      hdo parent' <- cloneRecordKey fuel parent;
      if is_nil_id id && negb (kind =? 0)%Z then
        hdo l' <- new_key collection (IdValue VNil) (Incomplete kind) kind parent'; hret (Some l')
      else
        hdo id' <- cloneRecordKeyID id;
        hdo l' <- new_key collection id'.1 id'.2 (kind_of_id id'.1) parent';
        hret (Some l')
  end.

Definition copy_bytes (l : loc) : HM loc := hdo b <- read as_bytes l; alloc (CBytes b).

(** [snapshotSerializedEngine] and [newEngine] copy the same two maps. *)
Definition copy_records (l : loc) : HM loc :=
  hdo m <- read as_records l; hdo m' <- copy_map copy_bytes m; alloc (CRecords m').
Definition copy_keys (fuel : nat) (l : loc) : HM loc :=
  hdo m <- read as_keys l; hdo m' <- copy_map (cloneRecordKey fuel) m; alloc (CKeys m').

Definition snapshotSerializedEngine (fuel : nat) (l : loc) : HM serializedEngineSnapshot :=
  hdo e <- read as_engine l;
  let '(collection, factory, records, keys) := e in
  hdo records' <- copy_records records;
  hdo keys' <- copy_keys fuel keys;
  hret (mkEngineSnapshot collection factory records' keys').

Definition newEngine (fuel : nat) (s : serializedEngineSnapshot) : HM storage :=
  hdo records <- copy_records (sn_records s);
  hdo keys <- copy_keys fuel (sn_keys s);
  hdo l <- alloc (CEngine (sn_collection s) (sn_factory s) records keys);
  hret (SerializedAt l).

Definition cloneMemorySchema (schema : option schema_ref) : HM (option schema_ref) :=
  match schema with
  | None => hret None
  | Some s =>
      hdo collections <- read as_factories (sr_collections s);
      hdo l1 <- alloc (CFactories collections);
      hdo engines <- read as_engine_factories (sr_engines s);
      hdo l2 <- alloc (CEngineFactories engines);
      hret (Some (mkSchemaRef l1 l2 (sr_allowUndefined s)))
  end.

(** The type assertion to [*serializedEngine] was validated before. *)
Definition snapshot_storage (fuel : nat) (s : storage) : HM serializedEngineSnapshot :=
  match s with
  | SerializedAt l => snapshotSerializedEngine fuel l
  | _ => hpanic "interface conversion"
  end.

Definition snapshotDatabase (fuel : nat) (db : database) : HM databaseSnapshot :=
  hdo m <- read as_collections (d_collections db);
  hdo collections <- copy_map (snapshot_storage fuel) m;
  hdo schema <- cloneMemorySchema (d_schema db);
  hret (mkSnapshot collections schema (d_noReadsAfterWrites db) (d_schemaRefBreaking db)).

Definition newDatabase (fuel : nat) (s : databaseSnapshot) : HM database :=
  hdo schema <- cloneMemorySchema (ds_schema s);
  hdo collections <- copy_map (newEngine fuel) (ds_collections s);
  hdo l <- alloc (CCollections collections);
  hret (mkDatabase l schema (ds_noReadsAfterWrites s) (ds_schemaRefBreaking s)).

(** ** Validation *)

Definition providerName : string := "dalgo2memory".

Definition unsupportedEngineMode (collection mode : string) : branching_error :=
  UnsupportedError providerName mode (collection_not_serialized collection).

Definition unsupportedEngine (collection : string) (s : storage) : branching_error :=
  unsupportedEngineMode collection (match s with ColumnarStorage => "columnar" | _ => "custom" end).

Definition sorted_names {A} (m : gmap string A) : list string := sort_strings (map_to_list m).*1.

Fixpoint check_engines (m : gmap string storage) (names : list string) : option branching_error :=
  match names with
  | [] => None
  | n :: names =>
      match m !! n with
      | Some (SerializedAt _) => check_engines m names
      | s => Some (unsupportedEngine n (default CustomStorage s))
      end
  end.

Fixpoint check_factories (m : gmap string factory_pc) (names : list string) : option branching_error :=
  match names with
  | [] => None
  | n :: names =>
      match m !! n with
      | Some SerializedFactory => check_factories m names
      | _ => Some (unsupportedEngineMode n "non-serialized")
      end
  end.

Definition fail_if (e : option branching_error) : HM () := match e with Some e => hfail e | None => hret tt end.

Definition validateSerializedConfiguration (db : database) : HM () :=
  hdo collections <- read as_collections (d_collections db);
  hdo _ <- fail_if (check_engines collections (sorted_names collections));
  match d_schema db with
  | None => hret tt
  | Some s =>
      hdo engines <- read as_engine_factories (sr_engines s);
      fail_if (check_factories engines (sorted_names engines))
  end.

(** ** The provider *)

(** [dal.DB] values that [Capture] tells apart; the type's name is that of [%T]. *)
Inductive source_db := NilInterface | OtherDB (type_ : string) | NilDatabase | MemoryDB (db : database).

(** [ctx.Err()] at its first and second call. *)
Definition ctx_errs : Type := nat → option string.
Definition ctx_Err (ctx : ctx_errs) (n : nat) : HM () := fail_if (ctx_error <$> ctx n).

Record serializedCheckpoint := mkCheckpoint { generation : string; cp_snapshot : option databaseSnapshot }.

(** [checkpointSequence] is a 64-bit counter that wraps. *)
Definition sequence_add (sequence : Z) : Z := ((sequence + 1) mod 2 ^ 64)%Z.

Definition generation_of (sequence : Z) : string := providerName +:+ "-" +:+ pretty sequence.

Definition Capture (fuel : nat) (ctx : ctx_errs) (sequence : Z) (source : source_db) : HM (serializedCheckpoint * Z) :=
  match source with
  | NilInterface | NilDatabase => hfail ErrNilSourceDB
  | OtherDB ty => hfail (UnsupportedError providerName ("source:" +:+ ty) source_not_memory)
  | MemoryDB db =>
      hdo _ <- ctx_Err ctx 0;
      hdo _ <- ctx_Err ctx 1;
      hdo _ <- validateSerializedConfiguration db;
      hdo snapshot <- snapshotDatabase fuel db;
      hret (mkCheckpoint (generation_of (sequence_add sequence)) (Some snapshot), sequence_add sequence)
  end.

Record serializedBranch := mkBranch { branch_DB : database; branch_closed : bool }.

Definition Branch (fuel : nat) (ctx : ctx_errs) (c : serializedCheckpoint) : HM serializedBranch :=
  hdo _ <- ctx_Err ctx 0;
  match cp_snapshot c with
  | None => hfail ErrReleased
  | Some snapshot => hdo _ <- ctx_Err ctx 1; hdo db <- newDatabase fuel snapshot; hret (mkBranch db false)
  end.

Definition Release (c : serializedCheckpoint) : serializedCheckpoint := mkCheckpoint (generation c) None.

(** A closed branch keeps its database. *)
Definition branch_Close (b : serializedBranch) : serializedBranch := mkBranch (branch_DB b) true.

Record Capability := mkCapability { cap_Provider : string; cap_Version : string; cap_Mode : string }.
Definition provider_Capability : Capability := mkCapability providerName "1" "serialized".
End Branching.

(** ** What the objects denote

    [P] is the region of the heap that the objects lie in. *)

Definition region : Type := loc → Prop.
Definition below (n : loc) : region := λ l, l < n.
Definition between (m n : loc) : region := λ l, m ≤ l < n.

(** A key from the leaf up to the root. *)
Definition key_view : Type := list (string * shown_id).

Record engine_view := mkEngineView {
  ev_collection : string; ev_factory : option value; ev_records : gmap string json; ev_keys : gmap string key_view }.

Record database_view := mkView {
  v_collections : gmap string engine_view;
  v_schema : option (gmap string value * gmap string factory_pc * bool);
  v_noReadsAfterWrites : bool;
  v_schemaRefBreaking : bool;
}.

Definition shows_map {A V} (R : region → heap → A → V → Prop) (P : region) (h : heap) (m : gmap string A) (v : gmap string V) : Prop :=
  ∀ k, option_Forall2 (R P h) (m !! k) (v !! k).

Definition shows_bytes (P : region) (h : heap) (l : loc) (b : json) : Prop := P l ∧ cells h !! l = Some (CBytes b).

Definition shows_id (P : region) (h : heap) (id : id_cell) (kind : Z) (i : shown_id) : Prop :=
  match i with
  | Incomplete k => id = IdValue VNil ∧ kind = k ∧ k ≠ 0%Z
  | Plain v => id = IdValue v ∧ v ≠ VNil
  | Composite fields => ∃ l, id = IdFields l ∧ P l ∧ cells h !! l = Some (CFields fields)
  end.

Fixpoint shows_key (P : region) (h : heap) (key : option loc) (t : key_view) : Prop :=
  match key, t with
  | None, [] => True
  | Some l, (collection, i) :: t =>
      P l ∧ ∃ id kind parent, cells h !! l = Some (CKey collection id kind parent) ∧
        shows_id P h id kind i ∧ shows_key P h parent t
  | _, _ => False
  end.

Definition shows_records (P : region) (h : heap) (l : loc) (v : gmap string json) : Prop :=
  P l ∧ ∃ m, cells h !! l = Some (CRecords m) ∧ shows_map shows_bytes P h m v.
Definition shows_keys (P : region) (h : heap) (l : loc) (v : gmap string key_view) : Prop :=
  P l ∧ ∃ m, cells h !! l = Some (CKeys m) ∧ shows_map shows_key P h m v.

Definition shows_snapshot (P : region) (h : heap) (s : serializedEngineSnapshot) (v : engine_view) : Prop :=
  sn_collection s = ev_collection v ∧ sn_factory s = ev_factory v ∧
  shows_records P h (sn_records s) (ev_records v) ∧ shows_keys P h (sn_keys s) (ev_keys v).

Definition shows_storage (P : region) (h : heap) (s : storage) (v : engine_view) : Prop :=
  ∃ l records keys, s = SerializedAt l ∧ P l ∧
    cells h !! l = Some (CEngine (ev_collection v) (ev_factory v) records keys) ∧
    shows_records P h records (ev_records v) ∧ shows_keys P h keys (ev_keys v).

Definition shows_schema (P : region) (h : heap) (s : option schema_ref)
    (v : option (gmap string value * gmap string factory_pc * bool)) : Prop :=
  match s, v with
  | None, None => True
  | Some s, Some (collections, engines, allow) =>
      P (sr_collections s) ∧ P (sr_engines s) ∧
      cells h !! sr_collections s = Some (CFactories collections) ∧
      cells h !! sr_engines s = Some (CEngineFactories engines) ∧ sr_allowUndefined s = allow
  | _, _ => False
  end.

Definition shows_database (P : region) (h : heap) (d : database) (v : database_view) : Prop :=
  P (d_collections d) ∧
  (∃ m, cells h !! d_collections d = Some (CCollections m) ∧ shows_map shows_storage P h m (v_collections v)) ∧
  shows_schema P h (d_schema d) (v_schema v) ∧
  d_noReadsAfterWrites d = v_noReadsAfterWrites v ∧ d_schemaRefBreaking d = v_schemaRefBreaking v.

Definition shows_checkpoint (P : region) (h : heap) (s : databaseSnapshot) (v : database_view) : Prop :=
  shows_map shows_snapshot P h (ds_collections s) (v_collections v) ∧
  shows_schema P h (ds_schema s) (v_schema v) ∧
  ds_noReadsAfterWrites s = v_noReadsAfterWrites v ∧ ds_schemaRefBreaking s = v_schemaRefBreaking v.

(** *** Frames: a view depends on its region only *)

Definition carries (P Q : region) (h h' : heap) : Prop := ∀ l, P l → Q l ∧ cells h' !! l = cells h !! l.

Class Framed {A V} (R : region → heap → A → V → Prop) : Prop :=
  frame : ∀ P Q h h' a v, carries P Q h h' → R P h a v → R Q h' a v.

#[export] Instance framed_map {A V} (R : region → heap → A → V → Prop) `{!Framed R} : Framed (shows_map R).
Proof. intros P Q h h' m v Hc Hm k. destruct (Hm k); constructor. by eapply frame. Qed.

#[export] Instance framed_bytes : Framed shows_bytes.
Proof. intros P Q h h' l b Hc [Hl Hb]. destruct (Hc l Hl) as [HQ Heq]. split; [done|]. by rewrite Heq. Qed.

Lemma framed_id P Q h h' id kind i : carries P Q h h' → shows_id P h id kind i → shows_id Q h' id kind i.
Proof.
  intros Hc. destruct i as [k|v|fields]; simpl; [done|done|]. intros (l & -> & Hl & Hf).
  destruct (Hc l Hl) as [HQ Heq]. exists l. by rewrite Heq.
Qed.

#[export] Instance framed_key : Framed shows_key.
Proof.
  intros P Q h h' key t Hc. revert key. induction t as [|[c i] t IH]; intros [l|]; simpl; try done.
  intros (Hl & id & kind & parent & Hk & Hi & Hp). destruct (Hc l Hl) as [HQ Heq]. split; [done|].
  exists id, kind, parent. rewrite Heq. split; [done|]. split; [by eapply framed_id|]. by apply IH.
Qed.

#[export] Instance framed_records : Framed shows_records.
Proof.
  intros P Q h h' l v Hc (Hl & m & Hm & Hv). destruct (Hc l Hl) as [HQ Heq]. split; [done|].
  exists m. rewrite Heq. split; [done|]. by eapply (frame (R := shows_map shows_bytes)).
Qed.

#[export] Instance framed_keys : Framed shows_keys.
Proof.
  intros P Q h h' l v Hc (Hl & m & Hm & Hv). destruct (Hc l Hl) as [HQ Heq]. split; [done|].
  exists m. rewrite Heq. split; [done|]. by eapply (frame (R := shows_map shows_key)).
Qed.

#[export] Instance framed_snapshot : Framed shows_snapshot.
Proof.
  intros P Q h h' s v Hc (H1 & H2 & H3 & H4). split; [done|]. split; [done|].
  split; [by eapply (frame (R := shows_records))|by eapply (frame (R := shows_keys))].
Qed.

#[export] Instance framed_storage : Framed shows_storage.
Proof.
  intros P Q h h' s v Hc (l & records & keys & -> & Hl & He & H1 & H2). destruct (Hc l Hl) as [HQ Heq].
  exists l, records, keys. rewrite Heq. do 3 (split; [done|]).
  split; [by eapply (frame (R := shows_records))|by eapply (frame (R := shows_keys))].
Qed.

#[export] Instance framed_schema : Framed shows_schema.
Proof.
  intros P Q h h' s v Hc. destruct s as [s|], v as [[[a b] c]|]; simpl; try done.
  intros (H1 & H2 & H3 & H4 & H5). destruct (Hc _ H1) as [HQ1 E1]. destruct (Hc _ H2) as [HQ2 E2].
  by rewrite E1, E2.
Qed.

#[export] Instance framed_database : Framed shows_database.
Proof.
  intros P Q h h' d v Hc (H1 & (m & Hm & Hv) & H2 & H3). destruct (Hc _ H1) as [HQ Heq].
  split; [done|]. split; [|split; [by eapply (frame (R := shows_schema))|done]].
  exists m. rewrite Heq. split; [done|]. by eapply (frame (R := shows_map shows_storage)).
Qed.

#[export] Instance framed_checkpoint : Framed shows_checkpoint.
Proof.
  intros P Q h h' s v Hc (H1 & H2 & H3).
  split; [by eapply (frame (R := shows_map shows_snapshot))|]. split; [by eapply (frame (R := shows_schema))|done].
Qed.

(** *** Copying *)

(** The heap only grew: what was allocated before is as it was. *)
Definition grows (h h' : heap) : Prop := next h ≤ next h' ∧ ∀ l, l < next h → cells h' !! l = cells h !! l.

#[export] Instance grows_preorder : PreOrder grows.
Proof.
  split; [by split|]. intros h1 h2 h3 [H1 E1] [H2 E2]. split; [lia|].
  intros l Hl. rewrite E2 by lia. by apply E1.
Qed.

Lemma grows_carries h h' : grows h h' → carries (below (next h)) (below (next h')) h h'.
Proof. intros [Hn He] l Hl. unfold below in *. split; [lia|auto]. Qed.

Lemma grows_fresh n h h' : grows h h' → carries (between n (next h)) (between n (next h')) h h'.
Proof. intros [Hn He] l Hl. unfold between in *. split; [lia|]. apply He. lia. Qed.

Lemma fresh_weaken m n h h' : grows h h' → n ≤ m → carries (between m (next h)) (between n (next h')) h h'.
Proof. intros [Hn He] Hm l Hl. unfold between in *. split; [lia|]. apply He. lia. Qed.

(** [f] copies an object that shows [v] into objects it allocates. *)
Definition copies {A B V} (f : A → HM B) (R : region → heap → A → V → Prop) (R' : region → heap → B → V → Prop) (ok : V → Prop) : Prop :=
  ∀ h a v, R (below (next h)) h a v → ok v →
    ∃ h' b, f a h = (h', Ret b) ∧ grows h h' ∧ R' (between (next h) (next h')) h' b v.

Lemma alloc_grows c h : grows h (alloc c h).1.
Proof.
  split; simpl; [lia|]. intros l Hl. by rewrite lookup_insert_ne by lia.
Qed.

Lemma alloc_cell c h : cells (alloc c h).1 !! next h = Some c.
Proof. apply lookup_insert_eq. Qed.

Lemma hbind_step {A B} (m : HM A) (k : A → HM B) h h1 a : m h = (h1, Ret a) → hbind m k h = k a h1.
Proof. intros E. unfold hbind. by rewrite E. Qed.

Lemma read_step {A B} (as_ : cell → option A) l (k : A → HM B) h c a :
  cells h !! l = Some c → as_ c = Some a → hbind (read as_ l) k h = k a h.
Proof. intros Hc Ha. apply hbind_step. unfold read. by rewrite Hc, Ha. Qed.

Section Copying.
Context {A B V : Type} (f : A → HM B) (R : region → heap → A → V → Prop) (R' : region → heap → B → V → Prop) (ok : V → Prop).
Context `{!Framed R, !Framed R'} (Hcopies : copies f R R' ok).

Lemma copy_entries_spec (vm : gmap string V) : ∀ (l : list (string * A)) h acc,
  NoDup l.*1 → (∀ k a, (k, a) ∈ l → ∃ v, vm !! k = Some v ∧ ok v ∧ R (below (next h)) h a v) →
  ∃ h' m', copy_entries f l acc h = (h', Ret m') ∧ grows h h' ∧
    ∀ k, (k ∉ l.*1 → m' !! k = acc !! k) ∧
         (k ∈ l.*1 → ∃ b v, m' !! k = Some b ∧ vm !! k = Some v ∧ R' (between (next h) (next h')) h' b v).
Proof.
  induction l as [|[k a] l IH]; intros h acc Hnd Hl; cbn [copy_entries].
  { exists h, acc. split; [done|]. split; [reflexivity|]. intros k. split; [done|set_solver]. }
  destruct (Hl k a) as (v & Hv & Hok & Ha); [set_solver|].
  destruct (Hcopies h a v Ha Hok) as (h1 & b & E1 & G1 & Hb). rewrite (hbind_step _ _ _ _ _ E1).
  apply NoDup_cons in Hnd as [Hk Hnd].
  destruct (IH h1 (<[k := b]> acc) Hnd) as (h2 & m' & E2 & G2 & Hm').
  { intros k' a' Hin. destruct (Hl k' a') as (v' & Hv' & Hok' & Ha'); [set_solver|].
    exists v'. split; [done|]. split; [done|]. eapply frame; [by apply grows_carries|done]. }
  exists h2, m'. split; [done|]. split; [by etransitivity|]. intros k'. destruct (Hm' k') as [Hout Hin]. simpl. split.
  - intros Hk'. rewrite Hout by set_solver. by rewrite lookup_insert_ne by set_solver.
  - intros [->|Hk']%elem_of_cons.
    + exists b, v. rewrite Hout, lookup_insert_eq by done. split; [done|]. split; [done|].
      eapply frame; [by apply grows_fresh|done].
    + destruct (Hin Hk') as (b' & v' & H1 & H2 & H3). exists b', v'. split; [done|]. split; [done|].
      eapply frame; [|exact H3]. intros l0 Hl0. split; [|done]. destruct G1. unfold between in *. lia.
Qed.

Lemma copy_map_copies : copies (copy_map f) (shows_map R) (shows_map R') (λ vm, ∀ k v, vm !! k = Some v → ok v).
Proof.
  intros h m vm Hm Hok.
  destruct (copy_entries_spec vm (map_to_list m) h ∅) as (h' & m' & E & G & Hm').
  { apply NoDup_fst_map_to_list. }
  { intros k a Hin%elem_of_map_to_list. specialize (Hm k). rewrite Hin in Hm. inversion Hm as [? v HR Ha Hv|]. subst.
    exists v. split; [done|]. split; [by eapply Hok|done]. }
  exists h', m'. split; [done|]. split; [done|]. intros k. destruct (Hm' k) as [Hout Hin].
  destruct (decide (k ∈ (map_to_list m).*1)) as [Hk|Hk].
  - destruct (Hin Hk) as (b & v & -> & -> & HR). by constructor.
  - rewrite (Hout Hk), lookup_empty.
    assert (Hn : m !! k = None).
    { destruct (m !! k) as [a|] eqn:Ea; [|done]. destruct Hk. apply list_elem_of_fmap. exists (k, a). split; [done|].
      by apply elem_of_map_to_list. }
    specialize (Hm k). rewrite Hn in Hm. inversion Hm. constructor.
Qed.
End Copying.

Lemma copy_bytes_copies : copies copy_bytes shows_bytes shows_bytes (λ _, True).
Proof.
  intros h l b [Hl Hb] _. unfold copy_bytes. rewrite (read_step _ _ _ _ _ b Hb eq_refl).
  eexists _, (next h). split; [done|]. split; [apply (alloc_grows (CBytes b))|].
  split; [unfold between; simpl; lia|apply (alloc_cell (CBytes b))].
Qed.

(** Copying a map and putting it in a new object. *)
Lemma copy_cell_copies {A B V} (f : A → HM B) R R' (ok : V → Prop) (as_ : cell → option (gmap string A)) (mk : gmap string B → cell)
    (S : region → heap → loc → gmap string V → Prop) (S' : region → heap → loc → gmap string V → Prop) :
  Framed R → Framed R' → copies f R R' ok →
  (∀ P h l v, S P h l v → P l ∧ ∃ c m, cells h !! l = Some c ∧ as_ c = Some m ∧ shows_map R P h m v) →
  (∀ (P : region) h l v m, P l → cells h !! l = Some (mk m) → shows_map R' P h m v → S' P h l v) →
  copies (λ l, hdo m <- read as_ l; hdo m' <- copy_map f m; alloc (mk m')) S S' (λ vm, ∀ k v, vm !! k = Some v → ok v).
Proof.
  intros FR FR' Hf HS HS' h l v Hl Hok. apply HS in Hl as (Hb & c & m & Hc & Hm & Hshow).
  rewrite (read_step _ _ _ _ _ _ Hc Hm).
  destruct (copy_map_copies f R R' ok Hf h m v Hshow Hok) as (h1 & m' & E1 & G1 & Hm1).
  rewrite (hbind_step _ _ _ _ _ E1).
  eexists _, (next h1). split; [reflexivity|]. pose proof (alloc_grows (mk m') h1) as G2.
  split; [by etransitivity|]. eapply HS'; [| |].
  - destruct G1. unfold between. simpl. lia.
  - apply (alloc_cell (mk m')).
  - eapply frame; [|exact Hm1]. by apply grows_fresh.
Qed.

Lemma copy_records_copies : copies copy_records shows_records shows_records (λ _, True).
Proof.
  intros h l v Hl _.
  apply (copy_cell_copies copy_bytes shows_bytes shows_bytes (λ _, True) as_records CRecords shows_records shows_records);
    [apply _|apply _|apply copy_bytes_copies| | |done|done].
  - intros P h' l' v' (Hp & m & Hm & Hs). split; [done|]. exists (CRecords m), m. done.
  - intros P h' l' v' m Hp Hm Hs. split; [done|]. exists m. done.
Qed.

(** *** Copies of keys, engines and databases *)

Section Copies.
Context (key_check : string → shown_id → option string) (kind_of_id : id_cell → Z) (fuel : nat).

(** Keys that the constructors accept, with at most [fuel] ancestors. *)
Definition valid_key (t : key_view) : Prop := length t ≤ fuel ∧ Forall (λ s, key_check s.1 s.2 = None) t.

Lemma clone_id_copies h id kind i :
  shows_id (below (next h)) h id kind i → (∀ k, i ≠ Incomplete k) →
  ∃ h' id', cloneRecordKeyID id h = (h', Ret (id', i)) ∧ grows h h' ∧
    ∀ kind', shows_id (between (next h) (next h')) h' id' kind' i.
Proof.
  intros Hi Hne. destruct i as [k|v|fields]; [by destruct (Hne k)| |].
  - destruct Hi as [-> Hv]. exists h, (IdValue v). split; [done|]. split; [reflexivity|]. done.
  - destruct Hi as (l & -> & Hl & Hf). simpl. rewrite (read_step _ _ _ _ _ fields Hf eq_refl).
    eexists _, (IdFields (next h)). split; [reflexivity|]. split; [apply (alloc_grows (CFields fields))|].
    intros kind'. exists (next h). split; [done|]. split; [unfold between; simpl; lia|apply (alloc_cell (CFields fields))].
Qed.

Lemma new_key_spec c id i kind parent h :
  key_check c i = None →
  new_key key_check c id i kind parent h = (fst (alloc (CKey c id kind parent) h), Ret (next h)).
Proof. intros Hk. unfold new_key. by rewrite Hk. Qed.

(** The cell of a key put over a copied parent and a copied identifier. *)
Lemma key_over_parent n h c id kind parent i t :
  n ≤ next h → (∀ h', grows h h' → shows_id (between n (next h')) h' id kind i) → shows_key (between n (next h)) h parent t →
  shows_key (between n (next (alloc (CKey c id kind parent) h).1)) (alloc (CKey c id kind parent) h).1 (Some (next h)) ((c, i) :: t).
Proof.
  intros Hn Hi Hp. pose proof (alloc_grows (CKey c id kind parent) h) as G.
  split; [unfold between; simpl; lia|]. exists id, kind, parent.
  split; [apply (alloc_cell (CKey c id kind parent))|]. split; [by apply Hi|].
  eapply frame; [by apply grows_fresh|done].
Qed.

Lemma cloneRecordKey_copies_at : ∀ t n, length t ≤ n → Forall (λ s, key_check s.1 s.2 = None) t →
  ∀ h key, shows_key (below (next h)) h key t →
  ∃ h' key', cloneRecordKey key_check kind_of_id n key h = (h', Ret key') ∧ grows h h' ∧
    shows_key (between (next h) (next h')) h' key' t.
Proof.
  induction t as [|[c i] t IH]; intros n Hn Hv h key Hk; destruct key as [l|]; try done.
  { exists h, None. split; [by destruct n|]. split; [reflexivity|done]. }
  destruct n as [|n]; simpl in Hn; [lia|]. apply Forall_cons in Hv as [Hck Hv]. simpl in Hck.
  destruct Hk as (Hl & id & kind & parent & Hcell & Hi & Hp). cbn [cloneRecordKey].
  rewrite (read_step _ _ _ _ _ (c, id, kind, parent) Hcell eq_refl).
  destruct (IH n ltac:(lia) Hv h parent Hp) as (h1 & parent' & E1 & G1 & Hp1).
  rewrite (hbind_step _ _ _ _ _ E1).
  assert (Hi1 : shows_id (below (next h1)) h1 id kind i) by (eapply framed_id; [by apply grows_carries|done]).
  destruct i as [k|v|fields].
  - destruct Hi as (-> & -> & Hk). apply Z.eqb_neq in Hk as Hkb. cbn [is_nil_id]. rewrite Hkb. cbn [negb andb].
    rewrite (hbind_step _ _ _ _ _ (new_key_spec c _ (Incomplete k) k parent' h1 Hck)).
    eexists _, (Some (next h1)). split; [reflexivity|].
    split; [etransitivity; [exact G1|apply (alloc_grows (CKey c (IdValue VNil) k parent'))]|].
    apply key_over_parent; [by destruct G1|done|done].
  - assert (Hb : is_nil_id id && negb (kind =? 0)%Z = false) by (destruct Hi as [-> Hne]; by destruct v).
    rewrite Hb. destruct (clone_id_copies h1 id kind (Plain v) Hi1) as (h2 & id' & E2 & G2 & Hi2); [done|].
    rewrite (hbind_step _ _ _ _ _ E2). cbn [fst snd].
    rewrite (hbind_step _ _ _ _ _ (new_key_spec c id' (Plain v) (kind_of_id id') parent' h2 Hck)).
    eexists _, (Some (next h2)). split; [reflexivity|].
    split; [etransitivity; [exact G1|]; etransitivity; [exact G2|apply (alloc_grows (CKey c id' (kind_of_id id') parent'))]|].
    apply key_over_parent; [destruct G1, G2; lia| |].
    + intros h' _. destruct (Hi2 0%Z) as [-> ?]. done.
    + eapply frame; [by apply grows_fresh|done].
  - assert (Hb : is_nil_id id && negb (kind =? 0)%Z = false) by (by destruct Hi as (? & -> & _)).
    rewrite Hb. destruct (clone_id_copies h1 id kind (Composite fields) Hi1) as (h2 & id' & E2 & G2 & Hi2); [done|].
    rewrite (hbind_step _ _ _ _ _ E2). cbn [fst snd].
    rewrite (hbind_step _ _ _ _ _ (new_key_spec c id' (Composite fields) (kind_of_id id') parent' h2 Hck)).
    eexists _, (Some (next h2)). split; [reflexivity|].
    split; [etransitivity; [exact G1|]; etransitivity; [exact G2|apply (alloc_grows (CKey c id' (kind_of_id id') parent'))]|].
    apply key_over_parent; [destruct G1, G2; lia| |].
    + intros h' G'. eapply framed_id; [eapply fresh_weaken; [exact G'|]|apply (Hi2 (kind_of_id id'))]. by destruct G1.
    + eapply frame; [by apply grows_fresh|done].
Qed.

Lemma cloneRecordKey_copies : copies (cloneRecordKey key_check kind_of_id fuel) shows_key shows_key valid_key.
Proof. intros h key t Hk [Hn Hv]. by apply cloneRecordKey_copies_at. Qed.

Lemma copy_keys_copies :
  copies (copy_keys key_check kind_of_id fuel) shows_keys shows_keys (λ vm, ∀ k t, vm !! k = Some t → valid_key t).
Proof.
  intros h l v Hl Hok.
  apply (copy_cell_copies (cloneRecordKey key_check kind_of_id fuel) shows_key shows_key valid_key as_keys CKeys shows_keys shows_keys);
    [apply _|apply _|apply cloneRecordKey_copies| | |done|done].
  - intros P h' l' v' (Hp & m & Hm & Hs). split; [done|]. exists (CKeys m), m. done.
  - intros P h' l' v' m Hp Hm Hs. split; [done|]. exists m. done.
Qed.

Definition valid_engine (v : engine_view) : Prop := ∀ id t, ev_keys v !! id = Some t → valid_key t.

(** The two maps of an engine, copied one after the other. *)
Lemma copy_maps_spec h records keys v :
  shows_records (below (next h)) h records (ev_records v) → shows_keys (below (next h)) h keys (ev_keys v) → valid_engine v →
  ∃ h1 h2 records' keys',
    copy_records records h = (h1, Ret records') ∧ copy_keys key_check kind_of_id fuel keys h1 = (h2, Ret keys') ∧ grows h h2 ∧
    shows_records (between (next h) (next h2)) h2 records' (ev_records v) ∧
    shows_keys (between (next h) (next h2)) h2 keys' (ev_keys v).
Proof.
  intros Hr Hk Hv. destruct (copy_records_copies h records _ Hr I) as (h1 & records' & E1 & G1 & Hr1).
  assert (Hk1 : shows_keys (below (next h1)) h1 keys (ev_keys v)) by (eapply frame; [by apply grows_carries|done]).
  destruct (copy_keys_copies h1 keys _ Hk1 Hv) as (h2 & keys' & E2 & G2 & Hk2).
  exists h1, h2, records', keys'. split; [done|]. split; [done|]. split; [by etransitivity|]. split.
  - eapply frame; [by apply grows_fresh|done].
  - eapply frame; [|exact Hk2]. apply (fresh_weaken _ _ h2 h2); [reflexivity|]. by destruct G1.
Qed.

Lemma snapshotEngine_copies : copies (snapshot_storage key_check kind_of_id fuel) shows_storage shows_snapshot valid_engine.
Proof.
  intros h s v (l & records & keys & -> & Hl & Hc & Hr & Hk) Hv. cbn [snapshot_storage]. unfold snapshotSerializedEngine.
  rewrite (read_step _ _ _ _ _ (ev_collection v, ev_factory v, records, keys) Hc eq_refl).
  destruct (copy_maps_spec h records keys v Hr Hk Hv) as (h1 & h2 & records' & keys' & E1 & E2 & G & Hr' & Hk').
  rewrite (hbind_step _ _ _ _ _ E1), (hbind_step _ _ _ _ _ E2).
  eexists h2, _. split; [reflexivity|]. by split.
Qed.

Lemma newEngine_copies : copies (newEngine key_check kind_of_id fuel) shows_snapshot shows_storage valid_engine.
Proof.
  intros h s v (Hc & Hf & Hr & Hk) Hv. unfold newEngine.
  destruct (copy_maps_spec h _ _ v Hr Hk Hv) as (h1 & h2 & records & keys & E1 & E2 & G & Hr' & Hk').
  rewrite (hbind_step _ _ _ _ _ E1), (hbind_step _ _ _ _ _ E2), Hc, Hf.
  pose proof (alloc_grows (CEngine (ev_collection v) (ev_factory v) records keys) h2) as G2.
  eexists _, (SerializedAt (next h2)). split; [reflexivity|]. split; [by etransitivity|].
  exists (next h2), records, keys. split; [done|]. split; [destruct G; unfold between; simpl; lia|].
  split; [apply alloc_cell|].
  split; (eapply frame; [by apply grows_fresh|done]).
Qed.

Lemma cloneMemorySchema_copies : copies cloneMemorySchema shows_schema shows_schema (λ _, True).
Proof.
  intros h s v Hs _. destruct s as [s|], v as [[[a b] c]|]; try done.
  - destruct Hs as (H1 & H2 & Ha & Hb & <-). cbn [cloneMemorySchema].
    rewrite (read_step _ _ _ _ _ a Ha eq_refl).
    pose proof (alloc_grows (CFactories a) h) as G1. set (h1 := (alloc (CFactories a) h).1) in *.
    rewrite (hbind_step _ _ h h1 (next h) eq_refl).
    assert (Hb1 : cells h1 !! sr_engines s = Some (CEngineFactories b)) by (destruct G1 as [_ ->]; done).
    rewrite (read_step _ _ _ _ _ b Hb1 eq_refl).
    pose proof (alloc_grows (CEngineFactories b) h1) as G2. set (h2 := (alloc (CEngineFactories b) h1).1) in *.
    rewrite (hbind_step _ _ h1 h2 (next h1) eq_refl).
    eexists h2, _. split; [reflexivity|]. split; [by etransitivity|]. simpl.
    split; [unfold between; simpl; lia|]. split; [unfold between; simpl; lia|].
    split; [|split; [apply lookup_insert_eq|done]].
    rewrite lookup_insert_ne by lia. apply lookup_insert_eq.
  - exists h, None. split; [done|]. split; [reflexivity|done].
Qed.

Definition valid_view (v : database_view) : Prop := ∀ name e, v_collections v !! name = Some e → valid_engine e.

Lemma snapshotDatabase_copies : copies (snapshotDatabase key_check kind_of_id fuel) shows_database shows_checkpoint valid_view.
Proof.
  intros h d v (Hd & (m & Hm & Hshow) & Hs & Hn & Hb) Hv. unfold snapshotDatabase.
  rewrite (read_step _ _ _ _ _ m Hm eq_refl).
  destruct (copy_map_copies _ _ _ _ snapshotEngine_copies h m _ Hshow Hv) as (h1 & m1 & E1 & G1 & Hm1).
  rewrite (hbind_step _ _ _ _ _ E1).
  assert (Hs1 : shows_schema (below (next h1)) h1 (d_schema d) (v_schema v)) by (eapply frame; [by apply grows_carries|done]).
  destruct (cloneMemorySchema_copies h1 _ _ Hs1 I) as (h2 & s2 & E2 & G2 & Hs2).
  rewrite (hbind_step _ _ _ _ _ E2).
  eexists h2, _. split; [reflexivity|]. split; [by etransitivity|]. split; [|split; [|by split]].
  - eapply (frame (R := shows_map shows_snapshot)); [by apply grows_fresh|done].
  - eapply frame; [|exact Hs2]. apply (fresh_weaken _ _ h2 h2); [reflexivity|]. by destruct G1.
Qed.

Lemma newDatabase_copies : copies (newDatabase key_check kind_of_id fuel) shows_checkpoint shows_database valid_view.
Proof.
  intros h s v (Hm & Hs & Hn & Hb) Hv. unfold newDatabase.
  destruct (cloneMemorySchema_copies h _ _ Hs I) as (h1 & s1 & E1 & G1 & Hs1).
  rewrite (hbind_step _ _ _ _ _ E1).
  assert (Hm1 : shows_map shows_snapshot (below (next h1)) h1 (ds_collections s) (v_collections v))
    by (eapply (frame (R := shows_map shows_snapshot)); [by apply grows_carries|done]).
  destruct (copy_map_copies _ _ _ _ newEngine_copies h1 _ _ Hm1 Hv) as (h2 & m2 & E2 & G2 & Hm2).
  rewrite (hbind_step _ _ _ _ _ E2).
  pose proof (alloc_grows (CCollections m2) h2) as G3. set (h3 := (alloc (CCollections m2) h2).1) in *.
  rewrite (hbind_step _ _ h2 h3 (next h2) eq_refl).
  eexists h3, _. split; [reflexivity|]. split; [do 2 (etransitivity; [eassumption|]); done|].
  split; [|split; [|split; [|by split]]].
  - destruct G1, G2. unfold between. simpl. lia.
  - exists m2. split; [apply (alloc_cell (CCollections m2))|].
    eapply (frame (R := shows_map shows_storage)); [|exact Hm2]. apply fresh_weaken; [done|]. by destruct G1.
  - eapply frame; [|exact Hs1]. apply grows_fresh. by etransitivity.
Qed.
End Copies.

(** ** What a checkpoint promises *)

Definition serialized_only (v : database_view) : Prop :=
  match v_schema v with
  | None => True
  | Some (_, engines, _) => ∀ name f, engines !! name = Some f → f = SerializedFactory
  end.

Lemma check_engines_ok (m : gmap string storage) names :
  (∀ n, n ∈ names → ∃ l, m !! n = Some (SerializedAt l)) → check_engines m names = None.
Proof.
  induction names as [|n names IH]; intros Hm; simpl; [done|].
  destruct (Hm n) as [l ->]; [set_solver|]. apply IH. set_solver.
Qed.

Lemma check_factories_ok (m : gmap string factory_pc) names :
  (∀ n, n ∈ names → m !! n = Some SerializedFactory) → check_factories m names = None.
Proof.
  induction names as [|n names IH]; intros Hm; simpl; [done|].
  rewrite (Hm n) by set_solver. apply IH. set_solver.
Qed.

Lemma sorted_names_elem {A} (m : gmap string A) n : n ∈ sorted_names m → is_Some (m !! n).
Proof.
  unfold sorted_names. rewrite sort_strings_elem. intros ([k a] & -> & Hin)%list_elem_of_fmap.
  apply elem_of_map_to_list in Hin. eauto.
Qed.

Lemma validate_ok P h db v :
  shows_database P h db v → serialized_only v → validateSerializedConfiguration db h = (h, Ret tt).
Proof.
  intros (_ & (m & Hm & Hshow) & Hs & _) Hser. unfold validateSerializedConfiguration.
  rewrite (read_step _ _ _ _ _ m Hm eq_refl), check_engines_ok.
  2:{ intros n [s Hn]%sorted_names_elem. specialize (Hshow n). rewrite Hn in Hshow. inversion Hshow as [? ? HR|]. subst.
      destruct HR as (l & ? & ? & -> & _). eauto. }
  unfold hbind at 1. simpl. destruct (d_schema db) as [s|]; [|done].
  unfold shows_schema in Hs. unfold serialized_only in Hser. destruct (v_schema v) as [[[a b] c]|]; [|done].
  destruct Hs as (_ & _ & _ & Hb & _). rewrite (read_step _ _ _ _ _ b Hb eq_refl), check_factories_ok; [done|].
  intros n [f Hn]%sorted_names_elem. by rewrite Hn, (Hser n f Hn).
Qed.

Definition ctx_alive (ctx : ctx_errs) : Prop := ∀ n, ctx n = None.

Section Isolation.
Context (key_check : string → shown_id → option string) (kind_of_id : id_cell → Z) (fuel : nat).

(** A checkpoint is isolated: whatever is written later to the objects of
    the source, of earlier branches or to new objects, as long as it is not to
    the checkpoint's own, every branch made from it is a database with the
    contents the source had when it was captured, made of new objects only. *)
Theorem branches_are_isolated ctx ctx' sequence db v h :
  shows_database (below (next h)) h db v → valid_view key_check fuel v → serialized_only v →
  ctx_alive ctx → ctx_alive ctx' →
  ∃ h1 c, Capture key_check kind_of_id fuel ctx sequence (MemoryDB db) h = (h1, Ret (c, sequence_add sequence)) ∧
    grows h h1 ∧
    ∀ h2, next h1 ≤ next h2 → (∀ l, next h ≤ l < next h1 → cells h2 !! l = cells h1 !! l) →
      ∃ h3 b, Branch key_check kind_of_id fuel ctx' c h2 = (h3, Ret b) ∧ grows h2 h3 ∧
        shows_database (between (next h2) (next h3)) h3 (branch_DB b) v.
Proof.
  intros Hdb Hv Hser Hctx Hctx'.
  destruct (snapshotDatabase_copies key_check kind_of_id fuel h db v Hdb Hv) as (h1 & s & E1 & G1 & Hs).
  exists h1, (mkCheckpoint (generation_of (sequence_add sequence)) (Some s)). split; [|split; [done|]].
  - unfold Capture, ctx_Err. rewrite !Hctx. simpl.
    rewrite (hbind_step _ _ h h tt eq_refl), (hbind_step _ _ h h tt eq_refl).
    rewrite (hbind_step _ _ h h tt (validate_ok _ _ _ _ Hdb Hser)). by rewrite (hbind_step _ _ _ _ _ E1).
  - intros h2 Hn He.
    assert (Hs2 : shows_checkpoint (below (next h2)) h2 s v).
    { eapply frame; [|exact Hs]. intros l Hl. split; [destruct Hl; unfold below; lia|by apply He]. }
    destruct (newDatabase_copies key_check kind_of_id fuel h2 s v Hs2 Hv) as (h3 & b & E3 & G3 & Hb).
    exists h3, (mkBranch b false). split; [|by split]. unfold Branch, ctx_Err. rewrite !Hctx'. simpl.
    rewrite (hbind_step _ _ h2 h2 tt eq_refl), (hbind_step _ _ h2 h2 tt eq_refl).
    by rewrite (hbind_step _ _ _ _ _ E3).
Qed.

(** A released checkpoint makes no branches; releasing it again changes nothing. *)
Lemma Branch_released ctx c h :
  ctx 0 = None → Branch key_check kind_of_id fuel ctx (Release c) h = (h, Fail ErrReleased) ∧ Release (Release c) = Release c.
Proof. intros Hc. split; [|done]. unfold Branch, ctx_Err. rewrite Hc. done. Qed.

(** The first collection in name order whose storage is not serialized. *)
Definition first_unsupported (m : gmap string storage) (name : string) (s : storage) : Prop :=
  m !! name = Some s ∧ (∀ l, s ≠ SerializedAt l) ∧
  ∀ n s', m !! n = Some s' → (∀ l, s' ≠ SerializedAt l) → ¬ string_lt n name.

Lemma check_engines_first (m : gmap string storage) name s names :
  StronglySorted string_lt names → (∀ n, n ∈ names → is_Some (m !! n)) → name ∈ names → first_unsupported m name s →
  check_engines m names = Some (unsupportedEngine name s).
Proof.
  intros Hsort Hm Hin (Hs & Hne & Hfirst). induction Hsort as [|n names Hsort IH Hall]; [set_solver|]. simpl.
  destruct (Hm n) as [s' Hn]; [set_solver|]. rewrite Hn.
  apply elem_of_cons in Hin as [->|Hin].
  - rewrite Hn in Hs. simplify_eq. destruct s; [by destruct (Hne l)|done|done].
  - assert (Hlt : string_lt n name) by (by eapply (proj1 (Forall_forall _ _) Hall)).
    destruct s' as [l| |]; [apply IH; [set_solver|done]|exfalso..]; by eapply Hfirst.
Qed.

(** A database with a collection that is not in serialized storage is
    refused before anything is copied, and the error names the first such
    collection, whatever the order in which the map is enumerated. *)
Theorem Capture_refuses ctx sequence db h m name s :
  ctx_alive ctx → cells h !! d_collections db = Some (CCollections m) → first_unsupported m name s →
  Capture key_check kind_of_id fuel ctx sequence (MemoryDB db) h = (h, Fail (unsupportedEngine name s)).
Proof.
  intros Hctx Hm Hf. unfold Capture, ctx_Err. rewrite !Hctx. simpl.
  rewrite (hbind_step _ _ h h tt eq_refl), (hbind_step _ _ h h tt eq_refl).
  unfold hbind at 1. unfold validateSerializedConfiguration.
  rewrite (read_step _ _ _ _ _ m Hm eq_refl), (check_engines_first m name s); [done| | | |done].
  - apply sort_strings_strict, NoDup_fst_map_to_list.
  - apply sorted_names_elem.
  - unfold sorted_names. apply sort_strings_elem, list_elem_of_fmap. exists (name, s). split; [done|].
    apply elem_of_map_to_list, Hf.
Qed.
End Isolation.

(** Two captures have different generations until the counter wraps. *)
Lemma generations_differ s s' :
  sequence_add s ≠ sequence_add s' → generation_of (sequence_add s) ≠ generation_of (sequence_add s').
Proof.
  unfold generation_of. intros Hne He. apply Hne. revert He. generalize (sequence_add s), (sequence_add s'). intros a b He.
  apply (inj (String.append _)), (inj (String.append _)) in He. by apply (inj pretty) in He.
Qed.

Module BranchExamples.

Definition any_key (_ : string) (_ : shown_id) : option string := None.
Definition no_kind (_ : id_cell) : Z := 0%Z.

(** One collection with a record under a composite key with a parent. *)
Definition country : (string * shown_id) := ("countries", Plain (vstr "ie")).
Definition city_fields : list (string * value) := [("city", vstr "cork"); ("year", vint 2024)].
Definition heap0 : heap := mkHeap 8 (list_to_map
  [(0, CBytes (JString "Cork")); (1, CRecords {["c1" := 0]}); (2, CKey "countries" (IdValue (vstr "ie")) 24 None);
   (3, CFields city_fields); (4, CKey "cities" (IdFields 3) 0 (Some 2)); (5, CKeys {["c1" := Some 4]});
   (6, CEngine "cities" None 1 5); (7, CCollections {["cities" := SerializedAt 6]})]).
Definition db0 : database := mkDatabase 7 None true false.

Definition engine0 : engine_view :=
  mkEngineView "cities" None {["c1" := JString "Cork"]} {["c1" := [("cities", Composite city_fields); country]]}.
Definition view0 : database_view := mkView {["cities" := engine0]} None true false.

Lemma shows_singleton {A V} (R : region → heap → A → V → Prop) P h k a v :
  R P h a v → shows_map R P h ({[k := a]} : gmap string A) ({[k := v]} : gmap string V).
Proof.
  intros HR k'. destruct (decide (k = k')) as [<-|Hne].
  - rewrite !lookup_singleton_eq. by constructor.
  - rewrite !lookup_singleton_ne by done. constructor.
Qed.

Lemma heap0_shows : shows_database (below 8) heap0 db0 view0.
Proof.
  split; [unfold below; simpl; lia|]. split; [|done].
  eexists. split; [reflexivity|]. apply shows_singleton.
  exists 6, 1, 5. split; [done|]. split; [unfold below; lia|]. split; [reflexivity|]. split.
  - split; [unfold below; lia|]. eexists. split; [reflexivity|]. apply shows_singleton. split; [unfold below; lia|reflexivity].
  - split; [unfold below; lia|]. eexists. split; [reflexivity|]. apply shows_singleton.
    split; [unfold below; lia|]. exists (IdFields 3), 0%Z, (Some 2). split; [reflexivity|].
    split; [exists 3; split; [done|]; split; [unfold below; lia|reflexivity]|].
    split; [unfold below; lia|]. exists (IdValue (vstr "ie")), 24%Z, None. split; [reflexivity|]. done.
Qed.

Lemma view0_valid : valid_view any_key 2 view0.
Proof.
  intros name e He. unfold view0 in He. simpl in He. apply lookup_singleton_Some in He as [<- <-].
  intros id t Ht. simpl in Ht. apply lookup_singleton_Some in Ht as [<- <-]. split; [simpl; lia|]. repeat constructor.
Qed.

Lemma branches_are_isolated_witness :
  ∃ h1 c, Capture any_key no_kind 2 (λ _, None) 41 (MemoryDB db0) heap0 = (h1, Ret (c, 42%Z)) ∧
    grows heap0 h1 ∧
    ∀ h2, next h1 ≤ next h2 → (∀ l, next heap0 ≤ l < next h1 → cells h2 !! l = cells h1 !! l) →
      ∃ h3 b, Branch any_key no_kind 2 (λ _, None) c h2 = (h3, Ret b) ∧ grows h2 h3 ∧
        shows_database (between (next h2) (next h3)) h3 (branch_DB b) view0.
Proof.
  exact (branches_are_isolated any_key no_kind 2 (λ _, None) (λ _, None) 41 db0 view0 heap0
    heap0_shows view0_valid I (λ _, eq_refl) (λ _, eq_refl)).
Defined.

Definition mixed : gmap string storage := {["a" := SerializedAt 0; "b" := ColumnarStorage; "c" := CustomStorage]}.

Lemma Capture_refuses_witness :
  Capture any_key no_kind 2 (λ _, None) 41 (MemoryDB (mkDatabase 0 None true false)) (mkHeap 1 {[0 := CCollections mixed]})
  = (mkHeap 1 {[0 := CCollections mixed]}, Fail (UnsupportedError "dalgo2memory" "columnar" (collection_not_serialized "b"))).
Proof.
  apply (Capture_refuses any_key no_kind 2 (λ _, None) 41 (mkDatabase 0 None true false)
    (mkHeap 1 {[0 := CCollections mixed]}) mixed "b" ColumnarStorage).
  - done.
  - reflexivity.
  - split; [reflexivity|]. split; [done|]. intros n s' Hn Hne. unfold mixed in Hn.
    apply lookup_insert_Some in Hn as [[<- <-]|[_ Hn]]; [by destruct (Hne 0)|].
    apply lookup_insert_Some in Hn as [[<- <-]|[_ Hn]]; [by apply string_lt_irrefl|].
    apply lookup_singleton_Some in Hn as [<- <-]. by vm_compute.
Defined.

End BranchExamples.
