(* ===== verification/MemoryHeap.v ===== *)
(** * The serialized engine on objects
    (src/adapters/dalgo2memory/serialized.go, schema.go)

    MemoryEngine.v has the serialized engine as a value that its operations
    replace.  Here its maps, byte slices and keys are the objects of
    MemoryBranching.v that the operations write to; every operation does to the
    objects what the other does to the value, and writes to the maps of its own
    engine only. *)

From Stdlib Require Import String.
From stdpp Require Import base gmap list strings.
From S2P Require Import Prelude GoValues GoMaps GoStrings GoJSON RecordKey.
From S2P Require Import MemoryRows MemoryUpdate MemoryEngine MemorySession MemoryBranching MemoryExamples.

Local Open Scope string_scope.
Local Open Scope nat_scope.
Local Open Scope list_scope.

(** Writing to an object. *)
Definition write (l : loc) (c : cell) : HM unit := λ h, (mkHeap (next h) (<[l := c]> (cells h)), Ret tt).

(** A computation that touches no object. *)
Definition hpure {A E} (r : res E A) : HM (res E A) := λ h,
  match r with Panic msg => (h, Panic msg) | r => (h, Ret r) end.

Section Objects.
Context `{GoFmt, RecordKeys, GoJSON, Decoders}.

(** ** serialized.go *)

Definition o_exists (l : loc) (id : string) : HM bool :=
  hdo e <- read as_engine l;
  let '(_, _, records, _) := e in
  hdo m <- read as_records records;
  hret (bool_decide (is_Some (m !! id))).

(** [json.Marshal] makes a new slice; the caller's key is stored itself. *)
Definition o_store (l : loc) (id : string) (key : option loc) (data : value) (overwrite : bool)
  : HM (res mem_error unit) :=
  hdo e <- read as_engine l;
  let '(_, factory, records, keys) := e in
  hdo m <- read as_records records;
  if negb overwrite && bool_decide (is_Some (m !! id)) then hret (Fail record_already_exists)
  else
    hdo r <- hpure (do b <- marshal_res data; do _ <- checkUnknownFields factory b; Ret b);
    match r with
    | Ret b =>
        hdo lb <- alloc (CBytes b);
        hdo _ <- write records (CRecords (<[id := lb]> m));
        hdo ks <- read as_keys keys;
        hdo _ <- write keys (CKeys (<[id := key]> ks));
        hret (Ret tt)
    | Fail e => hret (Fail e)
    | Panic msg => hpanic msg
    end.

Definition o_load (l : loc) (id : string) (target : value) : HM (res mem_error value) :=
  hdo e <- read as_engine l;
  let '(_, _, records, _) := e in
  hdo m <- read as_records records;
  match m !! id with
  | None => hret (Fail not_found)
  | Some lb => hdo b <- read as_bytes lb; hpure (Unmarshal_into b target)
  end.

Definition o_delete (l : loc) (id : string) : HM unit :=
  hdo e <- read as_engine l;
  let '(_, _, records, keys) := e in
  hdo m <- read as_records records;
  hdo _ <- write records (CRecords (delete id m));
  hdo ks <- read as_keys keys;
  write keys (CKeys (delete id ks)).

Definition o_update (l : loc) (id : string) (updates : list Update) : HM (res mem_error unit) :=
  hdo e <- read as_engine l;
  let '(_, factory, records, _) := e in
  hdo m <- read as_records records;
  match m !! id with
  | None => hret (Fail not_found)
  | Some lb =>
      hdo b <- read as_bytes lb;
      hdo r <- hpure (match unmarshal_map b with
                      | None => Fail json_error
                      | Some data =>
                          do data' <- applyUpdatesToMap data updates;
                          do next <- marshal_res (VMap any_map_type "string" data');
                          do _ <- checkUnknownFields factory next;
                          Ret next
                      end);
      match r with
      | Ret next => hdo l' <- alloc (CBytes next); hdo _ <- write records (CRecords (<[id := l']> m)); hret (Ret tt)
      | Fail e => hret (Fail e)
      | Panic msg => hpanic msg
      end
  end.

(** ** schema.go *)

Definition o_newSerializedEngine (collection : string) (factory : option value) : HM loc :=
  hdo records <- alloc (CRecords ∅);
  hdo keys <- alloc (CKeys ∅);
  alloc (CEngine collection factory records keys).

(** Engines of other constructors are not modelled here. *)
Context (construct : Z → string → option value → bool → HM storage).

Definition o_factory (db : database) (collection : string) : HM (option value * option factory_pc) :=
  match d_schema db with
  | None => hret (None, None)
  | Some s =>
      hdo factories <- read as_factories (sr_collections s);
      hdo engines <- read as_engine_factories (sr_engines s);
      hret (factories !! collection, engines !! collection)
  end.

(** [database.engine]: created and registered on the first use. *)
Definition o_engine (db : database) (collection : string) : HM storage :=
  hdo m <- read as_collections (d_collections db);
  match m !! collection with
  | Some s => hret s
  | None =>
      hdo chosen <- o_factory db collection;
      hdo s <- match chosen.2 with
               | Some (OtherFactory pc) => construct pc collection chosen.1 (d_schemaRefBreaking db)
               | _ => hdo l <- o_newSerializedEngine collection chosen.1; hret (SerializedAt l)
               end;
      hdo _ <- write (d_collections db) (CCollections (<[collection := s]> m));
      hret s
  end.

(** [guardCollection] and [session.save], for a key whose collection and storage
    identity are given. *)
Definition o_guardCollection (db : database) (collection : string) : HM (res mem_error unit) :=
  match d_schema db with
  | None => hret (Ret tt)
  | Some s =>
      hdo factories <- read as_factories (sr_collections s);
      hret (if bool_decide (is_Some (factories !! collection)) || sr_allowUndefined s then Ret tt
            else Fail (undefined_collection collection))
  end.

Definition o_save (db : database) (collection id : string) (key : option loc) (data : value) (overwrite : bool)
  : HM (res mem_error unit) :=
  hdo r <- o_guardCollection db collection;
  match r with
  | Ret _ =>
      hdo s <- o_engine db collection;
      match s with
      | SerializedAt l => o_store l id key data overwrite
      | _ => hpanic "not a serialized engine"
      end
  | Fail e => hret (Fail e)
  | Panic msg => hpanic msg
  end.
End Objects.

(** ** What a write leaves alone

    Only the maps of an engine and the map of collections are written to. *)

Definition mutable (c : cell) : bool :=
  match c with CRecords _ | CKeys _ => true | _ => false end.

(** The maps of one engine, at most, are other objects now or have other
    entries. *)
Record touches (P : region) (h h' : heap) : Prop := {
  touches_next : next h ≤ next h';
  touches_outside (l : loc) : l < next h → ¬ P l → cells h' !! l = cells h !! l;
  touches_fixed (l : loc) c : l < next h → cells h !! l = Some c → mutable c = false → cells h' !! l = Some c;
}.

#[export] Instance touches_preorder P : PreOrder (touches P).
Proof.
  split; [intros h; by split|]. intros h1 h2 h3 [N1 O1 F1] [N2 O2 F2]. split.
  - lia.
  - intros l Hl Hp. rewrite O2 by (done || lia). by apply O1.
  - intros l c Hl Hc Hm. apply F2; [lia| |done]. by apply F1.
Qed.

Lemma alloc_touches P c h : touches P h (alloc c h).1.
Proof.
  pose proof (alloc_grows c h) as [Hn He]. split; [done|auto|]. intros l c' Hl Hc _. by rewrite He.
Qed.

Lemma write_touches (P : region) l c c0 h : P l → cells h !! l = Some c0 → mutable c0 = true → touches P h (write l c h).1.
Proof.
  intros Hl Hc Hm. split; simpl; [done| |].
  - intros l' _ Hp. apply lookup_insert_ne. by intros ->.
  - intros l' c' _ Hc' Hm'. rewrite lookup_insert_ne; [done|]. intros ->. congruence.
Qed.

(** A region, and what was allocated since [h]. *)
Definition grown (P : region) (h h' : heap) : region := λ l, P l ∨ between (next h) (next h') l.

Definition bounded (P : region) (h : heap) : Prop := ∀ l, P l → l < next h.

(** Objects that are not written to: bytes and keys. *)
Definition stays (P Q : region) (h h' : heap) : Prop :=
  ∀ l, P l → Q l ∧ ∀ c, cells h !! l = Some c → mutable c = false → cells h' !! l = Some c.

Lemma touches_stays P Q h h' : touches P h h' → bounded Q h → stays Q (grown Q h h') h h'.
Proof. intros Ht Hb l Hl. split; [by left|]. intros c Hc Hm. by apply (touches_fixed _ _ _ Ht); [apply Hb|..]. Qed.

Lemma stays_bytes P Q h h' l b : stays P Q h h' → shows_bytes P h l b → shows_bytes Q h' l b.
Proof. intros Hs [Hl Hb]. destruct (Hs l Hl) as [HQ Hc]. split; [done|]. by apply Hc. Qed.

Lemma stays_key P Q h h' key t : stays P Q h h' → shows_key P h key t → shows_key Q h' key t.
Proof.
  intros Hs. revert key. induction t as [|[c i] t IH]; intros [l|]; simpl; try done.
  intros (Hl & id & kind & parent & Hk & Hi & Hp). destruct (Hs l Hl) as [HQ Hc]. split; [done|].
  exists id, kind, parent. split; [by apply Hc|]. split; [|by apply IH].
  destruct i as [k|v|fields]; simpl in *; [done|done|]. destruct Hi as (lf & -> & Hlf & Hf).
  destruct (Hs lf Hlf) as [HQf Hcf]. exists lf. split; [done|]. split; [done|]. by apply Hcf.
Qed.

Lemma shows_map_mono {A V} (R : region → heap → A → V → Prop) P Q h h' m v :
  (∀ a b, R P h a b → R Q h' a b) → shows_map R P h m v → shows_map R Q h' m v.
Proof. intros HR Hm k. destruct (Hm k); constructor. auto. Qed.

Lemma shows_map_insert {A V} (R : region → heap → A → V → Prop) P h (m : gmap string A) (v : gmap string V) k a b :
  R P h a b → shows_map R P h m v → shows_map R P h (<[k := a]> m) (<[k := b]> v).
Proof.
  intros HR Hm k'. destruct (decide (k = k')) as [<-|Hne].
  - rewrite !lookup_insert_eq. by constructor.
  - rewrite !lookup_insert_ne by done. apply Hm.
Qed.

Lemma shows_map_delete {A V} (R : region → heap → A → V → Prop) P h (m : gmap string A) (v : gmap string V) k :
  shows_map R P h m v → shows_map R P h (delete k m) (delete k v).
Proof.
  intros Hm k'. destruct (decide (k = k')) as [<-|Hne].
  - rewrite !lookup_delete_eq. constructor.
  - rewrite !lookup_delete_ne by done. apply Hm.
Qed.

Lemma shows_map_lookup {A V} (R : region → heap → A → V → Prop) P h (m : gmap string A) (v : gmap string V) k :
  shows_map R P h m v → is_Some (m !! k) ↔ is_Some (v !! k).
Proof. intros Hm. destruct (Hm k); split; by intros [? ?]; eauto. Qed.

(** ** The objects do what the value does *)

Section Refines.
Context `{GoFmt, RecordKeys, GoJSON, Decoders}.

(** The key that key objects denote. *)
Context (reads : key_view → key).

Definition value_of (v : engine_view) : serializedEngine :=
  mkSerialized (ev_collection v) (ev_factory v) (ev_records v) (reads <$> ev_keys v).

(** The objects [l] of an engine with contents [v], in the region [P]. *)
Definition engine_at (P : region) (h : heap) (l : loc) (v : engine_view) : Prop :=
  bounded P h ∧ shows_storage P h (SerializedAt l) v.

(** From [h] to [h'] the engine at [l] became [v'], by writes to its own maps and
    new objects. *)
Definition engine_step (P : region) (h h' : heap) (l : loc) (v' : engine_view) : Prop :=
  touches P h h' ∧ engine_at (grown P h h') h' l v'.

Definition with_records (v : engine_view) (records : gmap string json) : engine_view :=
  mkEngineView (ev_collection v) (ev_factory v) records (ev_keys v).
Definition with_keys (v : engine_view) (keys : gmap string key_view) : engine_view :=
  mkEngineView (ev_collection v) (ev_factory v) (ev_records v) keys.

Lemma grown_self P h l : grown P h h l → P l.
Proof. unfold grown, between. intros [?|?]; [done|lia]. Qed.

Lemma bounded_grown P h h' : next h ≤ next h' → bounded P h → bounded (grown P h h') h'.
Proof. intros Hn Hb l [Hl|Hl]; [specialize (Hb l Hl); lia|]. unfold between in Hl. lia. Qed.

Lemma engine_step_trans P h h1 h2 l v1 v2 :
  engine_step P h h1 l v1 → engine_step (grown P h h1) h1 h2 l v2 → engine_step P h h2 l v2.
Proof.
  intros [T1 [B1 S1]] [T2 [B2 S2]].
  pose proof (touches_next _ _ _ T1) as N1. pose proof (touches_next _ _ _ T2) as N2.
  assert (Hsub : ∀ x, grown (grown P h h1) h1 h2 x → grown P h h2 x) by (unfold grown, between; intros x; lia || naive_solver lia).
  split; [split|split].
  - lia.
  - intros x Hx Hp. rewrite (touches_outside _ _ _ T2); [by apply (touches_outside _ _ _ T1)|lia|].
    unfold grown, between. naive_solver lia.
  - intros x c Hx Hc Hm. apply (touches_fixed _ _ _ T2); [lia| |done]. by apply (touches_fixed _ _ _ T1).
  - intros x [Hx|Hx]; [|unfold between in Hx; lia]. specialize (B1 x (or_introl Hx)). lia.
  - eapply frame; [|exact S2]. intros x Hx. split; [by apply Hsub|done].
Qed.

(** Replacing the entries of one of the maps. *)
Lemma write_records P h l v records keys m rs :
  engine_at P h l v → cells h !! l = Some (CEngine (ev_collection v) (ev_factory v) records keys) →
  shows_map shows_bytes P h m rs →
  engine_step P h (write records (CRecords m) h).1 l (with_records v rs).
Proof.
  intros [Hb (l' & records' & keys' & [= <-] & Hl & He & (Hr & m0 & Hm0 & _) & (Hk & ks & Hks & Hkeys))] He' Hm.
  rewrite He' in He. injection He as <- <-.
  assert (Ht : touches P h (write records (CRecords m) h).1) by (by eapply write_touches).
  pose proof (touches_stays P P _ _ Ht Hb) as Hs. split; [done|]. split; [by apply bounded_grown|].
  exists l, records, keys. split; [done|]. split; [by left|]. split; [by apply (touches_fixed _ _ _ Ht); [apply Hb|..]|]. split.
  - split; [by left|]. exists m. split; [apply lookup_insert_eq|]. eapply shows_map_mono; [|exact Hm]. intros a b. by apply stays_bytes.
  - split; [by left|]. exists ks. split; [simpl; rewrite lookup_insert_ne by congruence; done|].
    eapply shows_map_mono; [|exact Hkeys]. intros a b. by apply stays_key.
Qed.

Lemma write_keys P h l v records keys ks ts :
  engine_at P h l v → cells h !! l = Some (CEngine (ev_collection v) (ev_factory v) records keys) →
  shows_map shows_key P h ks ts →
  engine_step P h (write keys (CKeys ks) h).1 l (with_keys v ts).
Proof.
  intros [Hb (l' & records' & keys' & [= <-] & Hl & He & (Hr & m & Hm & Hrecords) & (Hk & ks0 & Hks0 & _))] He' Hks.
  rewrite He' in He. injection He as <- <-.
  assert (Ht : touches P h (write keys (CKeys ks) h).1) by (by eapply write_touches).
  pose proof (touches_stays P P _ _ Ht Hb) as Hs. split; [done|]. split; [by apply bounded_grown|].
  exists l, records, keys. split; [done|]. split; [by left|]. split; [by apply (touches_fixed _ _ _ Ht); [apply Hb|..]|]. split.
  - split; [by left|]. exists m. split; [simpl; rewrite lookup_insert_ne by congruence; done|].
    eapply shows_map_mono; [|exact Hrecords]. intros a b. by apply stays_bytes.
  - split; [by left|]. exists ks. split; [apply lookup_insert_eq|]. eapply shows_map_mono; [|exact Hks]. intros a b. by apply stays_key.
Qed.

Lemma alloc_step P h l v c : engine_at P h l v → engine_step P h (alloc c h).1 l v.
Proof.
  intros [Hb Hs]. pose proof (alloc_touches P c h) as Ht. split; [done|]. split; [by apply bounded_grown; [destruct Ht|]|].
  eapply frame; [|exact Hs]. intros x Hx. split; [by left|]. destruct (alloc_grows c h) as [_ He]. apply He, Hb, Hx.
Qed.

(** What an operation on the objects does when the one on the value does [r]. *)
Definition does (P : region) (h : heap) (l : loc) (m : HM (res mem_error unit)) (r : res mem_error serializedEngine) : Prop :=
  match r with
  | Ret e' => ∃ h' v', m h = (h', Ret (Ret tt)) ∧ value_of v' = e' ∧ engine_step P h h' l v'
  | Fail e => m h = (h, Ret (Fail e))
  | Panic msg => m h = (h, Panic msg)
  end.

(** The parts of an engine. *)
Lemma engine_parts P h l v :
  engine_at P h l v → ∃ records keys m ks,
    cells h !! l = Some (CEngine (ev_collection v) (ev_factory v) records keys) ∧ P records ∧ P keys ∧
    cells h !! records = Some (CRecords m) ∧ shows_map shows_bytes P h m (ev_records v) ∧
    cells h !! keys = Some (CKeys ks) ∧ shows_map shows_key P h ks (ev_keys v).
Proof.
  intros [_ (l' & records & keys & [= <-] & _ & He & (Hr & m & Hm & Hrs) & (Hk & ks & Hks & Hts))].
  by exists records, keys, m, ks.
Qed.

(** Allocating bytes and putting them in the map of records. *)
Lemma put_bytes P h l v records keys m id b :
  engine_at P h l v → cells h !! l = Some (CEngine (ev_collection v) (ev_factory v) records keys) →
  cells h !! records = Some (CRecords m) → shows_map shows_bytes P h m (ev_records v) →
  let h1 := (alloc (CBytes b) h).1 in
  let h2 := (write records (CRecords (<[id := next h]> m)) h1).1 in
  engine_step P h h2 l (with_records v (<[id := b]> (ev_records v))).
Proof.
  intros Hat He Hm Hrs h1 h2. pose proof (alloc_step P h l v (CBytes b) Hat) as Hs. fold h1 in Hs.
  eapply engine_step_trans; [exact Hs|]. destruct Hs as [Ht Hat1].
  apply write_records with keys; [done| |].
  - apply (touches_fixed _ _ _ Ht); [|done|done]. destruct Hat as [Hb (l' & ? & ? & [= <-] & Hl & _)]. by apply Hb.
  - apply shows_map_insert.
    + split; [right; unfold between; simpl; lia|apply (alloc_cell (CBytes b))].
    + eapply shows_map_mono; [|exact Hrs]. intros x y. apply stays_bytes. eapply touches_stays; [done|by destruct Hat].
Qed.

Definition stored_view (v : engine_view) (id : string) (b : json) (t : key_view) : engine_view :=
  with_keys (with_records v (<[id := b]> (ev_records v))) (<[id := t]> (ev_keys v)).

Lemma o_store_runs P h l v id key t data overwrite :
  engine_at P h l v → shows_key P h key t →
  match s_store (value_of v) id (reads t) data overwrite with
  | Ret e' => ∃ h' b, o_store l id key data overwrite h = (h', Ret (Ret tt)) ∧
      value_of (stored_view v id b t) = e' ∧ engine_step P h h' l (stored_view v id b t)
  | Fail e => o_store l id key data overwrite h = (h, Ret (Fail e))
  | Panic msg => o_store l id key data overwrite h = (h, Panic msg)
  end.
Proof.
  intros Hat Hkey. destruct (engine_parts P h l v Hat) as (records & keys & m & ks & He & Hpr & Hpk & Hm & Hrs & Hks & Hts).
  unfold o_store, s_store. rewrite (read_step as_engine _ _ _ _ (ev_collection v, ev_factory v, records, keys) He eq_refl),
    (read_step as_records _ _ _ _ m Hm eq_refl).
  assert (Hex : s_exists (value_of v) id = bool_decide (is_Some (m !! id))).
  { unfold s_exists. apply bool_decide_ext. symmetry. by apply (shows_map_lookup shows_bytes P h). }
  rewrite Hex. destruct (negb overwrite && _); [done|]. cbn [value_of s_factory].
  destruct (marshal_res data) as [b|e|msg]; [|done..]. cbn [rbind].
  destruct (checkUnknownFields (ev_factory v) b) as [[]|e|msg]; [|done..]. cbn [rbind].
  unfold hpure. rewrite (hbind_step _ _ h h (Ret b) eq_refl).
  pose proof (put_bytes P h l v records keys m id b Hat He Hm Hrs) as Hs.
  set (h1 := (alloc (CBytes b) h).1) in *. set (h2 := (write records (CRecords (<[id:=next h]> m)) h1).1) in *.
  rewrite (hbind_step _ _ h h1 (next h) eq_refl), (hbind_step _ _ h1 h2 tt eq_refl).
  pose proof Hs as [Ht Hat2].
  assert (Hb : bounded P h) by (by destruct Hat).
  assert (Hks2 : cells h2 !! keys = Some (CKeys ks)).
  { simpl. rewrite !lookup_insert_ne; [done|intros E; specialize (Hb keys Hpk); lia|congruence]. }
  rewrite (read_step as_keys _ _ _ _ ks Hks2 eq_refl).
  set (h3 := (write keys (CKeys (<[id:=key]> ks)) h2).1). rewrite (hbind_step _ _ h2 h3 tt eq_refl).
  exists h3, b. split; [done|]. split; [unfold value_of; simpl; by rewrite fmap_insert|].
  eapply engine_step_trans; [exact Hs|]. apply write_keys with records; [done| |].
  - apply (touches_fixed _ _ _ Ht); [|done|done]. destruct Hat as [_ (l' & ? & ? & [= <-] & Hl & _)]. by apply Hb.
  - pose proof (touches_stays P P h h2 Ht Hb) as Hst. apply shows_map_insert; [by eapply stays_key|].
    eapply shows_map_mono; [|exact Hts]. intros x y. by apply stays_key.
Qed.

Lemma o_store_does P h l v id key t data overwrite :
  engine_at P h l v → shows_key P h key t →
  does P h l (o_store l id key data overwrite) (s_store (value_of v) id (reads t) data overwrite).
Proof.
  intros Hat Hkey. pose proof (o_store_runs P h l v id key t data overwrite Hat Hkey) as Hs. unfold does.
  destruct (s_store _ _ _ _ _); [|done..]. destruct Hs as (h' & b & Hs). by exists h', (stored_view v id b t).
Qed.

Lemma o_delete_does P h l v id :
  engine_at P h l v → does P h l (hdo _ <- o_delete l id; hret (Ret tt)) (Ret (s_delete (value_of v) id)).
Proof.
  intros Hat. destruct (engine_parts P h l v Hat) as (records & keys & m & ks & He & Hpr & Hpk & Hm & Hrs & Hks & Hts).
  assert (Hb : bounded P h) by (by destruct Hat).
  pose proof (write_records P h l v records keys (delete id m) (delete id (ev_records v)) Hat He (shows_map_delete _ _ _ _ _ _ Hrs)) as Hs.
  set (h1 := (write records (CRecords (delete id m)) h).1) in *. pose proof Hs as [Ht Hat1].
  assert (Hks1 : cells h1 !! keys = Some (CKeys ks)) by (simpl; rewrite lookup_insert_ne by congruence; done).
  set (h2 := (write keys (CKeys (delete id ks)) h1).1).
  assert (Hrun : o_delete l id h = (h2, Ret tt)).
  { unfold o_delete. rewrite (read_step as_engine _ _ _ _ (ev_collection v, ev_factory v, records, keys) He eq_refl),
      (read_step as_records _ _ _ _ m Hm eq_refl),
      (hbind_step (write records (CRecords (delete id m))) _ h h1 tt eq_refl),
      (read_step as_keys _ _ _ _ ks Hks1 eq_refl). done. }
  exists h2, (with_keys (with_records v (delete id (ev_records v))) (delete id (ev_keys v))).
  split; [by rewrite (hbind_step _ _ _ _ _ Hrun)|]. split; [unfold value_of; simpl; by rewrite fmap_delete|].
  eapply engine_step_trans; [exact Hs|]. apply write_keys with records; [done| |].
  - apply (touches_fixed _ _ _ Ht); [|done|done]. destruct Hat as [_ (l' & ? & ? & [= <-] & Hl & _)]. by apply Hb.
  - apply shows_map_delete. eapply shows_map_mono; [|exact Hts]. intros x y. apply stays_key. by eapply touches_stays.
Qed.

Lemma bytes_of P h m rs id : shows_map shows_bytes P h m rs →
  match rs !! id with
  | Some b => ∃ lb, m !! id = Some lb ∧ cells h !! lb = Some (CBytes b)
  | None => m !! id = None
  end.
Proof. intros Hm. destruct (Hm id) as [lb b [_ Hb]|]; [eauto|done]. Qed.

Lemma o_update_does P h l v id updates :
  engine_at P h l v → does P h l (o_update l id updates) (s_update (value_of v) id updates).
Proof.
  intros Hat. destruct (engine_parts P h l v Hat) as (records & keys & m & ks & He & Hpr & Hpk & Hm & Hrs & Hks & Hts).
  unfold does, o_update, s_update.
  rewrite (read_step as_engine _ _ _ _ (ev_collection v, ev_factory v, records, keys) He eq_refl),
    (read_step as_records _ _ _ _ m Hm eq_refl). cbn [value_of s_records s_factory].
  pose proof (bytes_of P h m (ev_records v) id Hrs) as Hid.
  destruct (ev_records v !! id) as [b|]; [|by rewrite Hid]. destruct Hid as (lb & -> & Hlb).
  rewrite (read_step as_bytes _ _ _ _ b Hlb eq_refl). unfold hpure.
  destruct (unmarshal_map b) as [data|]; [|done]. destruct (applyUpdatesToMap data updates) as [data'|e|msg]; [|done..].
  cbn [rbind]. destruct (marshal_res _) as [next_|e|msg]; [|done..]. cbn [rbind].
  destruct (checkUnknownFields _ _) as [[]|e|msg]; [|done..]. cbn [rbind].
  rewrite (hbind_step _ _ h h (Ret next_) eq_refl).
  pose proof (put_bytes P h l v records keys m id next_ Hat He Hm Hrs) as Hs.
  set (h1 := (alloc (CBytes next_) h).1) in *. set (h2 := (write records (CRecords (<[id:=next h]> m)) h1).1) in *.
  rewrite (hbind_step _ _ h h1 (next h) eq_refl), (hbind_step _ _ h1 h2 tt eq_refl).
  by exists h2, (with_records v (<[id := next_]> (ev_records v))).
Qed.

Lemma o_load_does P h l v id target :
  engine_at P h l v → o_load l id target h = hpure (s_load (value_of v) id target) h.
Proof.
  intros Hat. destruct (engine_parts P h l v Hat) as (records & keys & m & ks & He & Hpr & Hpk & Hm & Hrs & Hks & Hts).
  unfold o_load, s_load.
  rewrite (read_step as_engine _ _ _ _ (ev_collection v, ev_factory v, records, keys) He eq_refl),
    (read_step as_records _ _ _ _ m Hm eq_refl). cbn [value_of s_records].
  pose proof (bytes_of P h m (ev_records v) id Hrs) as Hid.
  destruct (ev_records v !! id) as [b|]; [|by rewrite Hid]. destruct Hid as (lb & -> & Hlb).
  by rewrite (read_step as_bytes _ _ _ _ b Hlb eq_refl).
Qed.

Lemma o_exists_does P h l v id : engine_at P h l v → o_exists l id h = (h, Ret (s_exists (value_of v) id)).
Proof.
  intros Hat. destruct (engine_parts P h l v Hat) as (records & keys & m & ks & He & Hpr & Hpk & Hm & Hrs & Hks & Hts).
  unfold o_exists, s_exists. rewrite (read_step as_engine _ _ _ _ (ev_collection v, ev_factory v, records, keys) He eq_refl),
    (read_step as_records _ _ _ _ m Hm eq_refl). unfold hret. do 2 f_equal. apply bool_decide_ext.
  by apply (shows_map_lookup shows_bytes P h).
Qed.

(** The writes of an engine, on the objects and on the value; the key of a
    store is an object [key] that shows [t]. *)
Inductive engine_op :=
| EStore (id : string) (key : option loc) (t : key_view) (data : value) (overwrite : bool)
| EDelete (id : string)
| EUpdate (id : string) (updates : list Update).

Definition run_objects (l : loc) (op : engine_op) : HM (res mem_error unit) :=
  match op with
  | EStore id key _ data overwrite => o_store l id key data overwrite
  | EDelete id => hdo _ <- o_delete l id; hret (Ret tt)
  | EUpdate id updates => o_update l id updates
  end.

Definition run_value (e : serializedEngine) (op : engine_op) : res mem_error serializedEngine :=
  match op with
  | EStore id _ t data overwrite => s_store e id (reads t) data overwrite
  | EDelete id => Ret (s_delete e id)
  | EUpdate id updates => s_update e id updates
  end.

Definition brings_key (P : region) (h : heap) (op : engine_op) : Prop :=
  match op with EStore _ key t _ _ => shows_key P h key t | _ => True end.

(** C29: the serialized engine on its objects, maps, byte slices and keys shared
    by reference, does what the engine as a value does: a write fails or panics
    alike and then leaves every object alone, or the objects show the new
    value; only the engine's own two maps and new objects are written to, and
    reads answer what the value answers. *)
Theorem objects_refine_engine P h l v op
    (Hat : engine_at P h l v) (Hkey : brings_key P h op) :
  does P h l (run_objects l op) (run_value (value_of v) op) ∧
  (∀ id, o_exists l id h = (h, Ret (s_exists (value_of v) id))) ∧
  (∀ id target, o_load l id target h = hpure (s_load (value_of v) id target) h).
Proof.
  split; [|split; [intros id; by apply o_exists_does with P|intros id target; by apply o_load_does with P]].
  destruct op; simpl in *; [by apply o_store_does|by apply o_delete_does|by apply o_update_does].
Qed.
End Refines.

(** ** Examples *)

Module HeapExamples.
Import BranchExamples.
#[local] Existing Instance plain_fmt.
#[local] Existing Instance plain_json.
#[local] Existing Instance plain_decoders.
#[local] Existing Instance chain_keys.

Fixpoint reads_chain (t : key_view) : key :=
  match t with
  | [] => ChainKey "" VNil None
  | (c, i) :: t =>
      ChainKey c (match i with Plain v => v | _ => VNil end) (match t with [] => None | _ => Some (reads_chain t) end)
  end.

Definition cork_key : key_view := [("cities", Composite city_fields); country].

Lemma cork_at : engine_at (below 8) heap0 6 engine0.
Proof.
  split; [by intros l Hl|]. destruct heap0_shows as (_ & (m & Hm & Hshow) & _).
  injection Hm as <-. specialize (Hshow "cities"). unfold view0 in Hshow. simpl in Hshow. rewrite !lookup_singleton_eq in Hshow. by inversion Hshow.
Qed.

(** A second record under the key of the first. *)
Lemma objects_refine_engine_witness :
  does reads_chain (below 8) heap0 6 (o_store 6 "c2" (Some 4) (vstr "Cobh") false)
    (s_store (value_of reads_chain engine0) "c2" (reads_chain cork_key) (vstr "Cobh") false) ∧
  o_exists 6 "c1" heap0 = (heap0, Ret true).
Proof.
  destruct (objects_refine_engine reads_chain (below 8) heap0 6 engine0 (EStore "c2" (Some 4) cork_key (vstr "Cobh") false) cork_at)
    as (Hdoes & Hex & _).
  - destruct (cork_at) as [_ (l & records & keys & [= <-] & _ & He & _ & (_ & ks & Hks & Hts))].
    injection He as <- <-. injection Hks as <-. specialize (Hts "c1"). unfold engine0 in Hts. simpl in Hts. rewrite !lookup_singleton_eq in Hts.
    by inversion Hts.
  - split; [exact Hdoes|]. rewrite Hex. reflexivity.
Defined.
End HeapExamples.
