(* ===== verification/BranchingConformance.v ===== *)
(** * The conformance suite of branching providers
    (src/branching/branching.go, src/branchingtest/conformance.go)

    The interfaces of package branching, the suite that a provider is tested
    with, and the contract behind it: a checkpoint keeps the contents that the
    source had, and every branch made from it starts with them, whatever is done
    to the source and to other branches.  A provider that keeps the contract
    passes the suite. *)

From Stdlib Require Import String.
From stdpp Require Import base gmap list strings.
From S2P Require Import Prelude.

Local Open Scope string_scope.
Local Open Scope nat_scope.
Local Open Scope list_scope.

Section Conformance.
(** The world that calls change, handles of databases, checkpoints and branches,
    errors, and [errors.Is(err, branching.ErrReleased)]. *)
Context {W DB CP BR error : Type} `{Countable DB} `{Countable CP} (is_ErrReleased : error → bool).

Definition call (A : Type) : Type := W → W * res error A.

(** A nil interface is [None]. *)
Record Provider := mkProvider {
  p_Capture : option DB → call (option CP);
  p_Generation : CP → string;
  p_Branch : CP → call (option BR);
  p_Release : CP → call unit;
  p_DB : BR → option DB;
  p_Close : BR → call unit;
}.

(** A nil function is [None]. *)
Record Callbacks := mkCallbacks {
  cb_New : option (W → W * (option DB * option Provider));
  cb_Seed : option (option DB → call unit);
  cb_Mutate : option (option DB → call unit);
  cb_Digest : option (option DB → call string);
}.

(** What [t.Fatal] reports. *)
Inductive failure :=
| CallbacksRequired
| FactoryReturnedNil
| CaptureFailed (e : error) | NilCheckpoint | EmptyGeneration
| BranchFailed (e : error) | NilBranch | LiveSourceHandle
| SeedFailed (e : error) | MutateFailed (e : error) | DigestFailed (e : error)
| CloseFailed (e : error) | ReleaseFailed (e : error)
| DigestDiffers (got want : string)
| MutationNotSeen (baseline : string)
| SiblingsShareHandle
| NotReleased (e : option error).

(** A part of a test: [t.Fatal] ends it. *)
Definition T (A : Type) : Type := W → W * res failure A.

Definition tret {A} (a : A) : T A := λ w, (w, Ret a).
Definition fatal {A} (f : failure) : T A := λ w, (w, Fail f).
Definition tbind {A B} (m : T A) (k : A → T B) : T B := λ w,
  match m w with
  | (w, Ret a) => k a w
  | (w, Fail f) => (w, Fail f)
  | (w, Panic msg) => (w, Panic msg)
  end.
Notation "'tdo' x <- m ; k" := (tbind m (λ x, k)) (at level 10, x binder, m at level 100, k at level 200).

Definition fatal_if (b : bool) (f : failure) : T unit := if b then fatal f else tret tt.

(** A call whose error is fatal. *)
Definition must {A} (c : call A) (f : error → failure) : T A := λ w,
  let '(w, r) := c w in (w, rmap_error f r).

(** [defer]: the deferred call runs however the rest ends. *)
Definition deferring {A} (later : T unit) (m : T A) : T A := λ w,
  let '(w, r) := m w in
  let '(w, r') := later w in
  (w, match r, r' with
      | Panic msg, _ => Panic msg
      | _, Panic msg => Panic msg
      | Fail f, _ => Fail f
      | Ret _, Fail f => Fail f
      | Ret a, Ret _ => Ret a
      end).

Definition nil_call : string := "runtime error: invalid memory address or nil pointer dereference".
Definition the {A B} (f : option A) (k : A → T B) : T B := match f with Some f => k f | None => λ w, (w, Panic nil_call) end.

(** ** The helpers *)

Definition validate (callbacks : Callbacks) : T unit :=
  fatal_if (negb (bool_decide (is_Some (cb_New callbacks)) && bool_decide (is_Some (cb_Seed callbacks)) &&
                  bool_decide (is_Some (cb_Mutate callbacks)) && bool_decide (is_Some (cb_Digest callbacks))))
    CallbacksRequired.

(** The provider and the checkpoint it returns. *)
Definition capture (provider : option Provider) (source : option DB) : T (Provider * CP) :=
  match provider, source with
  | Some p, Some _ =>
      tdo checkpoint <- must (p_Capture p source) CaptureFailed;
      match checkpoint with
      | None => fatal NilCheckpoint
      | Some cp => tdo _ <- fatal_if (String.eqb (p_Generation p cp) "") EmptyGeneration; tret (p, cp)
      end
  | _, _ => fatal FactoryReturnedNil
  end.

Definition startBranch (p : Provider) (cp : CP) (source : option DB) : T BR :=
  tdo branch <- must (p_Branch p cp) BranchFailed;
  match branch with
  | None => fatal NilBranch
  | Some b =>
      tdo _ <- fatal_if (bool_decide (p_DB p b = None)) NilBranch;
      tdo _ <- fatal_if (bool_decide (p_DB p b = source)) LiveSourceHandle;
      tret b
  end.

Definition new (callbacks : Callbacks) : T (option DB * option Provider) :=
  the (cb_New callbacks) (λ f w, let '(w, r) := f w in (w, Ret r)).
Definition seed (callbacks : Callbacks) (db : option DB) : T unit :=
  the (cb_Seed callbacks) (λ f, must (f db) SeedFailed).
Definition mutate (callbacks : Callbacks) (db : option DB) : T unit :=
  the (cb_Mutate callbacks) (λ f, must (f db) MutateFailed).
Definition digest (callbacks : Callbacks) (db : option DB) : T string :=
  the (cb_Digest callbacks) (λ f, must (f db) DigestFailed).
Definition closeBranch (p : Provider) (b : BR) : T unit := must (p_Close p b) CloseFailed.
Definition release (p : Provider) (cp : CP) : T unit := must (p_Release p cp) ReleaseFailed.

(** [if got := digest(...); got != want { t.Fatalf(...) }] *)
Definition expect_digest (callbacks : Callbacks) (db : option DB) (want : string) : T unit :=
  tdo got <- digest callbacks db;
  fatal_if (negb (String.eqb got want)) (DigestDiffers got want).

Definition expect_change (callbacks : Callbacks) (db : option DB) (baseline : string) : T unit :=
  tdo got <- digest callbacks db;
  fatal_if (String.eqb got baseline) (MutationNotSeen baseline).

(** ** The subtests *)

Definition empty_database (callbacks : Callbacks) : T unit :=
  tdo fixture <- new callbacks;
  let '(source, provider) := fixture in
  tdo captured <- capture provider source;
  let '(p, checkpoint) := captured in
  deferring (release p checkpoint) (
    tdo baseline <- digest callbacks source;
    tdo branch <- startBranch p checkpoint source;
    tdo _ <- expect_digest callbacks (p_DB p branch) baseline;
    tdo _ <- closeBranch p branch;
    closeBranch p branch).

Definition seed_fidelity (callbacks : Callbacks) : T unit :=
  tdo fixture <- new callbacks;
  let '(source, provider) := fixture in
  tdo _ <- seed callbacks source;
  tdo baseline <- digest callbacks source;
  tdo captured <- capture provider source;
  let '(p, checkpoint) := captured in
  deferring (release p checkpoint) (
    tdo branch <- startBranch p checkpoint source;
    deferring (closeBranch p branch) (expect_digest callbacks (p_DB p branch) baseline)).

Definition source_mutation (callbacks : Callbacks) : T unit :=
  tdo fixture <- new callbacks;
  let '(source, provider) := fixture in
  tdo _ <- seed callbacks source;
  tdo baseline <- digest callbacks source;
  tdo captured <- capture provider source;
  let '(p, checkpoint) := captured in
  deferring (release p checkpoint) (
    tdo _ <- mutate callbacks source;
    tdo _ <- expect_change callbacks source baseline;
    tdo branch <- startBranch p checkpoint source;
    deferring (closeBranch p branch) (expect_digest callbacks (p_DB p branch) baseline)).

Definition sibling_isolation (callbacks : Callbacks) : T unit :=
  tdo fixture <- new callbacks;
  let '(source, provider) := fixture in
  tdo _ <- seed callbacks source;
  tdo baseline <- digest callbacks source;
  tdo captured <- capture provider source;
  let '(p, checkpoint) := captured in
  deferring (release p checkpoint) (
    tdo first <- startBranch p checkpoint source;
    tdo _ <- mutate callbacks (p_DB p first);
    tdo _ <- expect_change callbacks (p_DB p first) baseline;
    tdo _ <- closeBranch p first;
    tdo second <- startBranch p checkpoint source;
    tdo _ <- fatal_if (bool_decide (p_DB p second = p_DB p first)) SiblingsShareHandle;
    tdo _ <- expect_digest callbacks (p_DB p second) baseline;
    tdo _ <- closeBranch p second;
    tdo third <- startBranch p checkpoint source;
    tdo _ <- expect_digest callbacks (p_DB p third) baseline;
    closeBranch p third).

Definition release_idempotent (callbacks : Callbacks) : T unit :=
  tdo fixture <- new callbacks;
  let '(source, provider) := fixture in
  tdo captured <- capture provider source;
  let '(p, checkpoint) := captured in
  tdo _ <- release p checkpoint;
  tdo _ <- release p checkpoint;
  λ w, match p_Branch p checkpoint w with
       | (w, Fail e) => if is_ErrReleased e then (w, Ret tt) else (w, Fail (NotReleased (Some e)))
       | (w, Ret _) => (w, Fail (NotReleased None))
       | (w, Panic msg) => (w, Panic msg)
       end.

(** [t.Run]: a failed subtest does not stop the others, a panic does. *)
Fixpoint run_all (subtests : list (string * T unit)) (w : W) : W * res failure (list (string * option failure)) :=
  match subtests with
  | [] => (w, Ret [])
  | (name, m) :: rest =>
      match m w with
      | (w, Panic msg) => (w, Panic msg)
      | (w, r) =>
          let '(w, results) := run_all rest w in
          (w, rmap (cons (name, match r with Fail f => Some f | _ => None end)) results)
      end
  end.

Definition subtests (callbacks : Callbacks) : list (string * T unit) :=
  [("empty database", empty_database callbacks);
   ("seed fidelity and fresh handle", seed_fidelity callbacks);
   ("source mutation does not change checkpoint", source_mutation callbacks);
   ("sibling isolation", sibling_isolation callbacks);
   ("release is idempotent", release_idempotent callbacks)].

(** The verdict of every subtest; a fatal error of its own ends the test. *)
Definition RunConformance (callbacks : Callbacks) (w : W) : W * res failure (list (string * option failure)) :=
  match validate callbacks w with
  | (w, Ret _) => run_all (subtests callbacks) w
  | (w, Fail f) => (w, Fail f)
  | (w, Panic msg) => (w, Panic msg)
  end.

(** ** The contract

    What a provider and a fixture promise, over the contents [V] of databases:
    an abstract world knows the contents of every live database, and what every
    checkpoint keeps, [None] once it is released. *)

Record world (V : Type) := mkWorld {
  live : gmap DB V;
  kept : gmap CP (option V);
}.
Arguments mkWorld {V} live kept.
Arguments live {V} w.
Arguments kept {V} w.

Section Contract.
Context {V : Type} (models : W → world V → Prop).

(** In a world that models [σ], the test part ends without a failure, in a world
    that models some [σ'] with [Q a σ']. *)
Definition passes {A} (σ : world V) (m : T A) (Q : A → world V → Prop) : Prop :=
  ∀ w, models w σ → ∃ w' a σ', m w = (w', Ret a) ∧ models w' σ' ∧ Q a σ'.

(** A call that succeeds with the next abstract world. *)
Definition succeeds {A} (σ : world V) (c : call A) (a : A) (σ' : world V) : Prop :=
  ∀ w, models w σ → ∃ w', c w = (w', Ret a) ∧ models w' σ'.

Class ProviderContract (P : Provider) (supported : V → Prop) : Prop := {
  capture_spec σ w db v :
    models w σ → live σ !! db = Some v → supported v →
    ∃ w' cp, p_Capture P (Some db) w = (w', Ret (Some cp)) ∧ p_Generation P cp ≠ "" ∧
      kept σ !! cp = None ∧ models w' (mkWorld (live σ) (<[cp := Some v]> (kept σ)));
  branch_spec σ w cp v :
    models w σ → kept σ !! cp = Some (Some v) →
    ∃ w' b db, p_Branch P cp w = (w', Ret (Some b)) ∧ p_DB P b = Some db ∧
      live σ !! db = None ∧ models w' (mkWorld (<[db := v]> (live σ)) (kept σ));
  branch_released σ w cp :
    models w σ → kept σ !! cp = Some None →
    ∃ w' e, p_Branch P cp w = (w', Fail e) ∧ is_ErrReleased e = true ∧ models w' σ;
  release_spec σ cp o :
    kept σ !! cp = Some o →
    succeeds σ (p_Release P cp) tt (mkWorld (live σ) (<[cp := None]> (kept σ)));
  close_spec σ b : succeeds σ (p_Close P b) tt σ;
}.

(** A fixture makes empty databases, fills them, changes them, and tells the
    changed contents from the others. *)
Class FixtureContract (P : Provider) (callbacks : Callbacks) (supported : V → Prop)
    (summary : V → string) (empty seeded mutated : V) : Prop := {
  all_given : is_Some (cb_New callbacks) ∧ is_Some (cb_Seed callbacks) ∧
              is_Some (cb_Mutate callbacks) ∧ is_Some (cb_Digest callbacks);
  supports : supported empty ∧ supported seeded;
  new_spec σ w f :
    cb_New callbacks = Some f → models w σ →
    ∃ w' db, f w = (w', (Some db, Some P)) ∧ live σ !! db = None ∧
      models w' (mkWorld (<[db := empty]> (live σ)) (kept σ));
  seed_spec σ db f :
    cb_Seed callbacks = Some f → live σ !! db = Some empty →
    succeeds σ (f (Some db)) tt (mkWorld (<[db := seeded]> (live σ)) (kept σ));
  mutate_spec σ db f :
    cb_Mutate callbacks = Some f → live σ !! db = Some seeded →
    succeeds σ (f (Some db)) tt (mkWorld (<[db := mutated]> (live σ)) (kept σ));
  digest_spec σ db f v :
    cb_Digest callbacks = Some f → live σ !! db = Some v → v ∈ [empty; seeded; mutated] →
    succeeds σ (f (Some db)) (summary v) σ;
  digest_tells : summary seeded ≠ summary mutated;
}.

(** ** Parts of tests that pass *)

Lemma passes_ret {A} σ (a : A) (Q : A → world V → Prop) : Q a σ → passes σ (tret a) Q.
Proof. intros HQ w Hw. by exists w, a, σ. Qed.

Lemma passes_bind {A B} σ (m : T A) (k : A → T B) (Q : A → world V → Prop) (Q' : B → world V → Prop) :
  passes σ m Q → (∀ a σ', Q a σ' → passes σ' (k a) Q') → passes σ (tbind m k) Q'.
Proof.
  intros Hm Hk w Hw. destruct (Hm w Hw) as (w1 & a & σ1 & E & Hw1 & HQ). unfold tbind. rewrite E. by apply (Hk a σ1).
Qed.

Lemma passes_must {A} σ (c : call A) f a σ' (Q : A → world V → Prop) :
  succeeds σ c a σ' → Q a σ' → passes σ (must c f) Q.
Proof.
  intros Hc HQ w Hw. destruct (Hc w Hw) as (w' & E & Hw'). exists w', a, σ'. unfold must. by rewrite E.
Qed.

Lemma passes_if σ b f (Q : unit → world V → Prop) : b = false → Q tt σ → passes σ (fatal_if b f) Q.
Proof. intros -> HQ. by apply passes_ret. Qed.

(** The deferred call is made in the world that the rest leaves. *)
Lemma passes_deferring {A} σ later (m : T A) (Q Q' : A → world V → Prop) :
  passes σ m Q → (∀ a σ', Q a σ' → passes σ' later (λ _, Q' a)) → passes σ (deferring later m) Q'.
Proof.
  intros Hm Hl w Hw. destruct (Hm w Hw) as (w1 & a & σ1 & E & Hw1 & HQ).
  destruct (Hl a σ1 HQ w1 Hw1) as (w2 & [] & σ2 & E2 & Hw2 & HQ'). exists w2, a, σ2. unfold deferring. by rewrite E, E2.
Qed.

Lemma passes_weaken {A} σ (m : T A) (Q Q' : A → world V → Prop) :
  passes σ m Q → (∀ a σ', Q a σ' → Q' a σ') → passes σ m Q'.
Proof.
  intros Hm HQ w Hw. destruct (Hm w Hw) as (w' & a & σ' & E & Hw' & Ha). exists w', a, σ'. auto.
Qed.

Section Suite.
Context (P : Provider) (callbacks : Callbacks) (supported : V → Prop) (summary : V → string) (empty seeded mutated : V).
Context `{!ProviderContract P supported} `{!FixtureContract P callbacks supported summary empty seeded mutated}.

Lemma passes_new σ :
  passes σ (new callbacks) (λ r σ', ∃ db, r = (Some db, Some P) ∧ live σ !! db = None ∧
    σ' = mkWorld (<[db := empty]> (live σ)) (kept σ)).
Proof.
  intros w Hw. unfold new. destruct all_given as [[f Hf] _]. rewrite Hf.
  destruct (new_spec σ w f Hf Hw) as (w' & db & E & Hdb & Hw'). simpl. rewrite E. eexists w', _, _. eauto 10.
Qed.

Lemma passes_seed σ db : live σ !! db = Some empty →
  passes σ (seed callbacks (Some db)) (λ _ σ', σ' = mkWorld (<[db := seeded]> (live σ)) (kept σ)).
Proof.
  intros Hdb. unfold seed. destruct all_given as (_ & [f Hf] & _). rewrite Hf.
  eapply passes_must; [by eapply seed_spec|done].
Qed.

Lemma passes_mutate σ db : live σ !! db = Some seeded →
  passes σ (mutate callbacks (Some db)) (λ _ σ', σ' = mkWorld (<[db := mutated]> (live σ)) (kept σ)).
Proof.
  intros Hdb. unfold mutate. destruct all_given as (_ & _ & [f Hf] & _). rewrite Hf.
  eapply passes_must; [by eapply mutate_spec|done].
Qed.

Lemma passes_digest σ db v : live σ !! db = Some v → v ∈ [empty; seeded; mutated] →
  passes σ (digest callbacks (Some db)) (λ d σ', d = summary v ∧ σ' = σ).
Proof.
  intros Hdb Hv. unfold digest. destruct all_given as (_ & _ & _ & [f Hf]). rewrite Hf.
  eapply passes_must; [by eapply digest_spec|done].
Qed.

Lemma passes_expect_digest σ db v : live σ !! db = Some v → v ∈ [empty; seeded; mutated] →
  passes σ (expect_digest callbacks (Some db) (summary v)) (λ _ σ', σ' = σ).
Proof.
  intros Hdb Hv. eapply passes_bind; [by apply (passes_digest σ db v)|]. intros d σ' [-> ->].
  apply passes_if; [|done]. by rewrite String.eqb_refl.
Qed.

Lemma passes_expect_change σ db : live σ !! db = Some mutated →
  passes σ (expect_change callbacks (Some db) (summary seeded)) (λ _ σ', σ' = σ).
Proof.
  intros Hdb. eapply passes_bind; [apply (passes_digest σ db mutated); [done|set_solver]|]. intros d σ' [-> ->].
  apply passes_if; [|done]. apply String.eqb_neq. intros E. by apply digest_tells.
Qed.

Lemma passes_capture σ db v : live σ !! db = Some v → supported v →
  passes σ (capture (Some P) (Some db)) (λ r σ', ∃ cp, r = (P, cp) ∧ kept σ !! cp = None ∧
    σ' = mkWorld (live σ) (<[cp := Some v]> (kept σ))).
Proof.
  intros Hdb Hv w Hw. destruct (capture_spec σ w db v Hw Hdb Hv) as (w' & cp & E & Hgen & Hcp & Hw').
  unfold capture, tbind, must. rewrite E. simpl. unfold fatal_if. apply String.eqb_neq in Hgen. rewrite Hgen.
  eexists w', _, _. eauto 10.
Qed.

(** The branch is a database of its own. *)
Lemma passes_startBranch σ cp v source : kept σ !! cp = Some (Some v) → is_Some (live σ !! source) →
  passes σ (startBranch P cp (Some source)) (λ b σ', ∃ db, p_DB P b = Some db ∧ live σ !! db = None ∧
    σ' = mkWorld (<[db := v]> (live σ)) (kept σ)).
Proof.
  intros Hcp [v0 Hsource] w Hw. destruct (branch_spec σ w cp v Hw Hcp) as (w' & b & db & E & Hdb & Hfresh & Hw').
  unfold startBranch, tbind, must. rewrite E. simpl. rewrite Hdb. unfold fatal_if.
  rewrite bool_decide_eq_false_2 by done. rewrite bool_decide_eq_false_2 by congruence.
  eexists w', _, _. eauto 10.
Qed.

Lemma passes_close σ b (Q : world V → Prop) : Q σ → passes σ (closeBranch P b) (λ _, Q).
Proof. intros HQ. eapply passes_must; [apply close_spec|done]. Qed.

Lemma passes_release σ cp o : kept σ !! cp = Some o →
  passes σ (release P cp) (λ _ σ', σ' = mkWorld (live σ) (<[cp := None]> (kept σ))).
Proof. intros Hcp. eapply passes_must; [by eapply release_spec|done]. Qed.

(** *** The subtests pass *)

Ltac lookups := simpl in *;
  repeat match goal with
  | Hf : <[_ := _]> _ !! _ = None |- _ => apply lookup_insert_None in Hf as [? Hf]
  end;
  first [ done | by simplify_map_eq | eexists; by simplify_map_eq | set_solver ].

(** The next part of a test, by the lemma of its helper. *)
Tactic Notation "part" uconstr(L) := eapply passes_bind; [eapply L; lookups|].

(** What is left when the checkpoint is released at the end. *)
Lemma releasing σ cp v (m : T unit) :
  passes σ m (λ _ σ', kept σ' !! cp = Some (Some v)) → passes σ (deferring (release P cp) m) (λ _ _, True).
Proof.
  intros Hm. eapply passes_deferring; [exact Hm|]. cbn beta. intros ? ? Hk. eapply passes_weaken; [by eapply passes_release|done].
Qed.

(** A seeded source with a checkpoint of it. *)
Lemma seeded_capture σ (k : option DB → string → Provider * CP → T unit) :
  (∀ db cp σ', live σ' !! db = Some seeded → kept σ' !! cp = Some (Some seeded) →
     passes σ' (k (Some db) (summary seeded) (P, cp)) (λ _ _, True)) →
  passes σ (tbind (new callbacks) (λ fixture, let '(source, provider) := fixture in
    tbind (seed callbacks source) (λ _, tbind (digest callbacks source) (λ baseline,
    tbind (capture provider source) (λ captured, k source baseline captured))))) (λ _ _, True).
Proof.
  destruct supports as [Hempty Hseeded]. intros Hk.
  part passes_new. intros ? ? (db & -> & Hdb & ->).
  part passes_seed. intros ? ? ->.
  part (passes_digest _ db seeded). intros ? ? [-> ->].
  part passes_capture. intros ? ? (cp & -> & Hcp & ->). apply Hk; lookups.
Qed.

Lemma empty_database_passes σ : passes σ (empty_database callbacks) (λ _ _, True).
Proof.
  destruct supports as [Hempty Hseeded].
  part passes_new. intros ? ? (db & -> & Hdb & ->).
  part passes_capture. intros ? ? (cp & -> & Hcp & ->). apply (releasing _ _ empty).
  part (passes_digest _ db empty). intros ? ? [-> ->].
  part (passes_startBranch _ cp empty). intros b ? (db1 & -> & Hdb1 & ->).
  part (passes_expect_digest _ db1 empty). intros ? ? ->.
  part (passes_close _ _ (eq _)). intros ? ? <-.
  apply passes_close. lookups.
Qed.

Lemma seed_fidelity_passes σ : passes σ (seed_fidelity callbacks) (λ _ _, True).
Proof.
  apply seeded_capture. intros db cp σ' Hdb Hcp. apply (releasing _ _ seeded).
  part (passes_startBranch _ cp seeded). intros b ? (db1 & -> & Hdb1 & ->).
  eapply passes_deferring; [apply (passes_expect_digest _ db1 seeded); lookups|]. intros ? ? ->. apply passes_close. lookups.
Qed.

Lemma source_mutation_passes σ : passes σ (source_mutation callbacks) (λ _ _, True).
Proof.
  apply seeded_capture. intros db cp σ' Hdb Hcp. apply (releasing _ _ seeded).
  part passes_mutate. intros ? ? ->.
  part (passes_expect_change _ db). intros ? ? ->.
  part (passes_startBranch _ cp seeded). intros b ? (db1 & -> & Hdb1 & ->).
  eapply passes_deferring; [apply (passes_expect_digest _ db1 seeded); lookups|]. intros ? ? ->. apply passes_close. lookups.
Qed.

Lemma sibling_isolation_passes σ : passes σ (sibling_isolation callbacks) (λ _ _, True).
Proof.
  apply seeded_capture. intros db cp σ' Hdb Hcp. apply (releasing _ _ seeded).
  part (passes_startBranch _ cp seeded). intros b1 ? (db1 & -> & Hdb1 & ->).
  part passes_mutate. intros ? ? ->.
  part (passes_expect_change _ db1). intros ? ? ->.
  part (passes_close _ _ (eq _)). intros ? ? <-.
  part (passes_startBranch _ cp seeded). intros b2 ? (db2 & Hb2 & Hdb2 & ->). rewrite Hb2.
  assert (Hne : db1 ≠ db2) by (intros ->; simpl in Hdb2; by rewrite lookup_insert_eq in Hdb2).
  eapply (passes_bind _ _ _ (λ _ σ1, σ1 = mkWorld _ _)); [apply passes_if; [apply bool_decide_eq_false_2; congruence|reflexivity]|]. intros ? ? ->.
  part (passes_expect_digest _ db2 seeded). intros ? ? ->.
  part (passes_close _ _ (eq _)). intros ? ? <-.
  part (passes_startBranch _ cp seeded). intros b3 ? (db3 & -> & Hdb3 & ->).
  part (passes_expect_digest _ db3 seeded). intros ? ? ->.
  apply passes_close. lookups.
Qed.

Lemma release_idempotent_passes σ : passes σ (release_idempotent callbacks) (λ _ _, True).
Proof.
  destruct supports as [Hempty Hseeded].
  part passes_new. intros ? ? (db & -> & Hdb & ->).
  part passes_capture. intros ? ? (cp & -> & Hcp & ->).
  part (passes_release _ cp (Some empty)). intros ? ? ->.
  part (passes_release _ cp None). intros ? ? ->.
  intros w Hw. destruct (branch_released _ w cp Hw) as (w' & e & E & He & Hw'); [lookups|].
  rewrite E, He. by eexists w', _, _.
Qed.

Lemma run_all_passes (tests : list (string * T unit)) :
  (∀ t σ, t ∈ tests → passes σ t.2 (λ _ _, True)) →
  ∀ w σ, models w σ → ∃ w' σ', run_all tests w = (w', Ret ((λ t, (t.1, None)) <$> tests)) ∧ models w' σ'.
Proof.
  induction tests as [|[name m] tests IH]; intros Hall w σ Hw; [by exists w, σ|].
  destruct (Hall (name, m) σ ltac:(by left) w Hw) as (w1 & [] & σ1 & E & Hw1 & _). simpl in E.
  destruct (IH ltac:(intros; apply Hall; by right) w1 σ1 Hw1) as (w2 & σ2 & E2 & Hw2).
  exists w2, σ2. simpl. rewrite E, E2. done.
Qed.

(** C20: a provider that keeps the contract of checkpoints and branches passes
    every subtest of the conformance suite, in any world that the contract
    describes and with any fixture that keeps its own. *)
Theorem conformance_passes w σ (Hw : models w σ) :
  ∃ w' σ', RunConformance callbacks w = (w', Ret ((λ t, (t.1, None)) <$> subtests callbacks)) ∧ models w' σ'.
Proof.
  destruct all_given as (H1 & H2 & H3 & H4). unfold RunConformance, validate, fatal_if.
  rewrite !bool_decide_eq_true_2 by done. apply (run_all_passes _) with σ; [|done]. intros t σ0 Ht.
  apply list_elem_of_In in Ht. destruct Ht as [<-|[<-|[<-|[<-|[<-|[]]]]]].
  - apply empty_database_passes.
  - apply seed_fidelity_passes.
  - apply source_mutation_passes.
  - apply sibling_isolation_passes.
  - apply release_idempotent_passes.
Qed.
End Suite.
End Contract.
End Conformance.

Arguments mkWorld {DB CP _ _ _ _ V} live kept.
Arguments live {DB CP _ _ _ _ V} w.
Arguments kept {DB CP _ _ _ _ V} w.
