(* ===== verification/MemoryConformance.v ===== *)
(** * The in-memory database keeps the contract of branching
    (src/adapters/dalgo2memory/branching.go, src/branchingtest/conformance.go)

    The provider of MemoryBranching.v on a world of databases, checkpoints and
    branches over one heap.  Every database and every checkpoint owns the objects
    it is made of, so that what is done to one leaves the others as they are;
    with that the provider keeps the contract of BranchingConformance.v and
    passes the conformance suite. *)

From Stdlib Require Import String.
From stdpp Require Import base gmap list strings pretty.
From S2P Require Import Prelude GoValues GoMaps GoStrings GoJSON RecordKey.
From S2P Require Import MemoryRows MemoryUpdate MemoryEngine MemorySession MemoryBranching MemoryHeap MemoryExamples.
From S2P Require Import BranchingConformance.

Local Open Scope string_scope.
Local Open Scope nat_scope.
Local Open Scope list_scope.

(** ** Databases whose collections share nothing *)

(** [m] is the map of collections, whose engines lie in parts of the region. *)
Record apart_in (part : string → region) (m : gmap string storage) (P : region) (h : heap) (d : database) (v : database_view) : Prop := {
  apart_bounded : bounded P h;
  apart_object : P (d_collections d);
  apart_cell : cells h !! d_collections d = Some (CCollections m);
  apart_inside n l : part n l → P l ∧ l ≠ d_collections d;
  apart_parts n n' l : part n l → part n' l → n = n';
  apart_engines n : option_Forall2 (shows_storage (part n) h) (m !! n) (v_collections v !! n);
  apart_schema : shows_schema P h (d_schema d) (v_schema v);
  apart_rule : d_noReadsAfterWrites d = v_noReadsAfterWrites v;
  apart_breaking : d_schemaRefBreaking d = v_schemaRefBreaking v;
}.

Definition apart (P : region) (h : heap) (d : database) (v : database_view) : Prop :=
  ∃ part m, apart_in part m P h d v.

Lemma apart_shows P h d v : apart P h d v → shows_database P h d v.
Proof.
  intros (part & m & [Hb Hd Hm Hsub _ Hshow Hs Hr Hk]). split; [done|]. split; [|done].
  exists m. split; [done|]. intros n. destruct (Hshow n) as [a b Hab|]; constructor.
  eapply frame; [|exact Hab]. intros l Hl. split; [by eapply Hsub|done].
Qed.

Lemma apart_mono P Q h d v : (∀ l, P l → Q l) → bounded Q h → apart P h d v → apart Q h d v.
Proof.
  intros HPQ HQ (part & m & [Hb Hd Hm Hsub Hdisj Hshow Hs Hr Hk]). exists part, m.
  split; [done|auto|done| |done|done| |done|done].
  - intros n l Hl. destruct (Hsub n l Hl). auto.
  - eapply frame; [|exact Hs]. intros l Hl. auto.
Qed.

(** What another region holds does not matter. *)
Lemma apart_frame P h h' d v :
  next h ≤ next h' → (∀ l, P l → cells h' !! l = cells h !! l) → apart P h d v → apart P h' d v.
Proof.
  intros Hn He (part & m & [Hb Hd Hm Hsub Hdisj Hshow Hs Hr Hk]).
  assert (Hc : carries P P h h') by (intros l Hl; auto). exists part, m. split; [|done|by rewrite He|done|done| | |done|done].
  - intros l Hl. specialize (Hb l Hl). lia.
  - intros n. destruct (Hshow n) as [a b Hab|]; constructor. eapply frame; [|exact Hab]. intros l Hl.
    split; [done|]. apply He. by apply (Hsub n).
  - by eapply frame.
Qed.

(** The copies of a map lie one after another. *)
Section Parts.
Context {A B V : Type} (f : A → HM B) (R : region → heap → A → V → Prop) (R' : region → heap → B → V → Prop) (ok : V → Prop).
Context `{!Framed R, !Framed R'} (Hcopies : copies f R R' ok).

Lemma copy_entries_apart (vm : gmap string V) : ∀ (l : list (string * A)) h acc,
  NoDup l.*1 → (∀ k a, (k, a) ∈ l → ∃ v, vm !! k = Some v ∧ ok v ∧ R (below (next h)) h a v) →
  ∃ h' m' (part : string → region), copy_entries f l acc h = (h', Ret m') ∧ grows h h' ∧
    (∀ k x, part k x → between (next h) (next h') x) ∧ (∀ k k' x, part k x → part k' x → k = k') ∧
    ∀ k, (k ∉ l.*1 → m' !! k = acc !! k) ∧
         (k ∈ l.*1 → ∃ b v, m' !! k = Some b ∧ vm !! k = Some v ∧ R' (part k) h' b v).
Proof.
  induction l as [|[k a] l IH]; intros h acc Hnd Hl; cbn [copy_entries].
  { exists h, acc, (λ _ _, False). split; [done|]. split; [reflexivity|]. split; [done|]. split; [done|]. intros k. split; [done|set_solver]. }
  destruct (Hl k a) as (v & Hv & Hok & Ha); [set_solver|].
  destruct (Hcopies h a v Ha Hok) as (h1 & b & E1 & G1 & Hb). rewrite (hbind_step _ _ _ _ _ E1).
  apply NoDup_cons in Hnd as [Hk Hnd].
  destruct (IH h1 (<[k := b]> acc) Hnd) as (h2 & m' & part & E2 & G2 & Hin & Hdisj & Hm').
  { intros k' a' Hin. destruct (Hl k' a') as (v' & Hv' & Hok' & Ha'); [set_solver|].
    exists v'. split; [done|]. split; [done|]. eapply frame; [by apply grows_carries|done]. }
  exists h2, m', (λ k' x, if decide (k' = k) then between (next h) (next h1) x else part k' x).
  destruct G1 as [N1 K1], G2 as [N2 K2].
  split; [done|]. split; [split; [lia|intros x Hx; rewrite K2 by lia; by apply K1]|]. split; [|split].
  - intros k' x. case_decide; unfold between; [lia|]. intros Hx%Hin. unfold between in Hx. lia.
  - intros k1 k2 x. do 2 case_decide; subst; try done; [intros Hx Hy%Hin|intros Hx%Hin Hy|apply Hdisj]; unfold between in *; lia.
  - intros k'. destruct (Hm' k') as [Hout Hin']. simpl. split.
    + intros Hk'. rewrite Hout by set_solver. by rewrite lookup_insert_ne by set_solver.
    + destruct (decide (k' = k)) as [->|Hne]; [|intros [->|Hk']%elem_of_cons; [done|]; by apply Hin'].
      intros _. exists b, v. rewrite Hout, lookup_insert_eq by done. split; [done|]. split; [done|].
      eapply frame; [|exact Hb]. intros x Hx. split; [done|]. apply K2. unfold between in Hx. lia.
Qed.

Lemma copy_map_apart h m vm :
  shows_map R (below (next h)) h m vm → (∀ k v, vm !! k = Some v → ok v) →
  ∃ h' m' (part : string → region), copy_map f m h = (h', Ret m') ∧ grows h h' ∧
    (∀ k x, part k x → between (next h) (next h') x) ∧ (∀ k k' x, part k x → part k' x → k = k') ∧
    ∀ k, option_Forall2 (R' (part k) h') (m' !! k) (vm !! k).
Proof.
  intros Hm Hok.
  destruct (copy_entries_apart vm (map_to_list m) h ∅) as (h' & m' & part & E & G & Hin & Hdisj & Hm').
  { apply NoDup_fst_map_to_list. }
  { intros k a Hin%elem_of_map_to_list. specialize (Hm k). rewrite Hin in Hm. inversion Hm as [? v HR Ha Hv|]. subst.
    exists v. split; [done|]. split; [by eapply Hok|done]. }
  exists h', m', part. do 4 (split; [done|]). intros k. destruct (Hm' k) as [Hout Hin'].
  destruct (decide (k ∈ (map_to_list m).*1)) as [Hk|Hk].
  - destruct (Hin' Hk) as (b & v & -> & -> & HR). by constructor.
  - rewrite (Hout Hk), lookup_empty. specialize (Hm k).
    destruct (m !! k) as [a|] eqn:Ea; [|inversion Hm; constructor]. destruct Hk. apply list_elem_of_fmap. exists (k, a).
    split; [done|]. by apply elem_of_map_to_list.
Qed.
End Parts.

(** A branch's database is apart in its new objects. *)
Lemma newDatabase_apart key_check kind_of_id fuel h s v :
  shows_checkpoint (below (next h)) h s v → valid_view key_check fuel v →
  ∃ h' d, newDatabase key_check kind_of_id fuel s h = (h', Ret d) ∧ grows h h' ∧ apart (between (next h) (next h')) h' d v.
Proof.
  intros (Hm & Hs & Hn & Hb) Hv. unfold newDatabase.
  destruct (cloneMemorySchema_copies h _ _ Hs I) as (h1 & s1 & E1 & G1 & Hs1). rewrite (hbind_step _ _ _ _ _ E1).
  assert (Hm1 : shows_map shows_snapshot (below (next h1)) h1 (ds_collections s) (v_collections v))
    by (eapply (frame (R := shows_map shows_snapshot)); [by apply grows_carries|done]).
  destruct (copy_map_apart _ _ _ _ (newEngine_copies key_check kind_of_id fuel) h1 _ _ Hm1 Hv)
    as (h2 & m2 & part & E2 & G2 & Hin & Hdisj & Hm2).
  rewrite (hbind_step _ _ _ _ _ E2).
  pose proof (alloc_grows (CCollections m2) h2) as G3. set (h3 := (alloc (CCollections m2) h2).1) in *.
  rewrite (hbind_step _ _ h2 h3 (next h2) eq_refl).
  eexists h3, _. split; [reflexivity|]. split; [do 2 (etransitivity; [eassumption|]); done|].
  destruct G1 as [N1 K1], G2 as [N2 K2]. exists part, m2.
  split; cbn [d_collections d_schema d_noReadsAfterWrites d_schemaRefBreaking]; [..|done|done].
  - intros x Hx. by destruct Hx.
  - unfold between. simpl. lia.
  - apply (alloc_cell (CCollections m2)).
  - intros n x Hx%Hin. unfold between in *. simpl. lia.
  - done.
  - intros n. destruct (Hm2 n) as [a b Hab|]; constructor. eapply frame; [|exact Hab]. intros x Hx. split; [done|].
    destruct G3 as [_ K3]. apply K3. apply Hin in Hx. unfold between in Hx. lia.
  - eapply frame; [|exact Hs1]. apply grows_fresh. etransitivity; [split; [exact N2|exact K2]|done].
Qed.

(** ** Saving a record in a database *)

(** The database's own region grows; the new objects belong to one collection. *)
Definition part_grown (part : string → region) (c : string) (h h' : heap) : string → region :=
  λ n l, part n l ∨ n = c ∧ between (next h) (next h') l.

(** Only objects of the region were written to. *)
Definition inside (P : region) (h h' : heap) : Prop :=
  next h ≤ next h' ∧ ∀ l, l < next h → ¬ P l → cells h' !! l = cells h !! l.

Lemma inside_trans P h h1 h2 : inside P h h1 → inside (grown P h h1) h1 h2 → inside P h h2.
Proof.
  intros [N1 E1] [N2 E2]. split; [lia|]. intros l Hl Hp. rewrite E2; [by apply E1|lia|].
  unfold grown, between. naive_solver lia.
Qed.

Definition with_collection (v : database_view) (c : string) (e : engine_view) : database_view :=
  mkView (<[c := e]> (v_collections v)) (v_schema v) (v_noReadsAfterWrites v) (v_schemaRefBreaking v).

Lemma with_collection_twice v c a b : with_collection (with_collection v c a) c b = with_collection v c b.
Proof. unfold with_collection. simpl. by rewrite insert_insert_eq. Qed.

(** A step that changes one collection's engine, or adds it. *)
Lemma collection_step part m P h h' d v c s e :
  apart_in part m P h d v → next h ≤ next h' →
  (∀ l : loc, l < next h → ¬ part c l → l ≠ d_collections d → cells h' !! l = cells h !! l) →
  (∀ (l : loc) c0, l < next h → l ≠ d_collections d → cells h !! l = Some c0 → mutable c0 = false → cells h' !! l = Some c0) →
  cells h' !! d_collections d = Some (CCollections (<[c := s]> m)) →
  shows_storage (part_grown part c h h' c) h' s e →
  apart_in (part_grown part c h h') (<[c := s]> m) (grown P h h') h' d (with_collection v c e).
Proof.
  intros [Hb Hd Hm Hsub Hdisj Hshow Hs Hr Hk] Hn Hout Hfix Hm' He.
  split; [by apply bounded_grown|by left|done| | | | |done|done].
  - intros n l [Hl|[-> Hl]]; [split; [left|]; by apply (Hsub n)|]. split; [by right|]. intros ->.
    specialize (Hb _ Hd). unfold between in Hl. lia.
  - intros n n' l [Hl|[-> Hl]] [Hl'|[-> Hl']]; [by eapply Hdisj|..|done];
      [apply Hsub, proj1, Hb in Hl|apply Hsub, proj1, Hb in Hl']; unfold between in *; lia.
  - intros n. simpl. destruct (decide (c = n)) as [<-|Hne]; [rewrite !lookup_insert_eq; by constructor|].
    rewrite !lookup_insert_ne by done. destruct (Hshow n) as [a b Hab|]; constructor.
    eapply frame; [|exact Hab]. intros l Hl. split; [by left|]. destruct (Hsub n l Hl) as [HP Hld].
    apply Hout; [by apply Hb|intros Hcl; apply Hne; by eapply Hdisj|done].
  - simpl. destruct (d_schema d) as [sc|], (v_schema v) as [[[a b] x]|]; simpl in *; try done.
    destruct Hs as (H1 & H2 & H3 & H4 & H5). split; [by left|]. split; [by left|].
    split; [|split; [|done]]; (apply Hfix; [by apply Hb|intros E; rewrite E in *; congruence|done|done]).
Qed.

Section Saving.
Context `{GoFmt, RecordKeys, GoJSON, Decoders}.
Context (reads : key_view → key) (construct : Z → string → option value → bool → HM storage).

(** What the database registers for a collection. *)
Definition view_factory (v : database_view) (c : string) : option value :=
  match v_schema v with Some (factories, _, _) => factories !! c | None => None end.

Definition view_engine (v : database_view) (c : string) : engine_view :=
  default (mkEngineView c (view_factory v c) ∅ ∅) (v_collections v !! c).

Lemma o_factory_does P h d v c :
  shows_schema P h (d_schema d) (v_schema v) → serialized_only v →
  ∃ f, o_factory d c h = (h, Ret (view_factory v c, f)) ∧ ∀ pc, f ≠ Some (OtherFactory pc).
Proof.
  unfold o_factory, view_factory, serialized_only. intros Hs Hser.
  destruct (d_schema d) as [sc|], (v_schema v) as [[[a b] x]|]; simpl in *; try done; [|by exists None].
  destruct Hs as (_ & _ & H3 & H4 & _). exists (b !! c).
  rewrite (read_step as_factories _ _ _ _ a H3 eq_refl), (read_step as_engine_factories _ _ _ _ b H4 eq_refl). split; [done|].
  intros pc Hc. by apply Hser in Hc.
Qed.

(** [database.engine], after the caller made the cell [kc] of a key. *)
Lemma o_engine_does part m P h d v c kc :
  apart_in part m P h d v → serialized_only v →
  let h1 := (alloc kc h).1 in
  ∃ h2 l, o_engine construct d c h1 = (h2, Ret (SerializedAt l)) ∧ next h < next h2 ∧ cells h2 !! next h = Some kc ∧
    inside P h h2 ∧
    apart_in (part_grown part c h h2) (<[c := SerializedAt l]> m) (grown P h h2) h2 d (with_collection v c (view_engine v c)).
Proof.
  intros Hap Hser h1. pose proof Hap as [Hb Hd Hm Hsub Hdisj Hshow Hs Hr Hk].
  pose proof (alloc_grows kc h) as [N1 K1]. fold h1 in N1, K1. assert (Hnx : next h1 = Datatypes.S (next h)) by done. pose proof (Hb _ Hd) as Hdb.
  assert (Hm1 : cells h1 !! d_collections d = Some (CCollections m)) by (by rewrite K1).
  unfold o_engine. rewrite (read_step as_collections _ _ _ _ m Hm1 eq_refl). unfold view_engine.
  pose proof (Hshow c) as Hc. destruct (m !! c) as [st|] eqn:Em; inversion Hc as [? e Hst Ee Ev|Ee Ev]; subst; simpl.
  - pose proof Hst as (l & records & keys & -> & _). exists h1, l. split; [done|]. split; [simpl; lia|].
    split; [apply (alloc_cell kc)|]. split; [split; [done|auto]|].
    apply collection_step; [done|done|auto|intros; by rewrite K1|by rewrite insert_id|].
    eapply frame; [|exact Hst]. intros x Hx. split; [by left|]. apply K1, Hb. by apply (Hsub c).
  - assert (Hs1 : shows_schema (below (next h1)) h1 (d_schema d) (v_schema v)).
    { eapply frame; [|exact Hs]. intros x Hx%Hb. unfold below. split; [lia|by apply K1]. }
    destruct (o_factory_does _ h1 d v c Hs1 Hser) as (f & Hf & Hne). rewrite (hbind_step _ _ _ _ _ Hf). cbn [fst snd].
    set (h4 := (alloc (CEngine c (view_factory v c) (next h1) (Datatypes.S (next h1)))
                 (alloc (CKeys ∅) (alloc (CRecords ∅) h1).1).1).1).
    assert (Hnew : (match f with
        | Some (OtherFactory pc) => construct pc c (view_factory v c) (d_schemaRefBreaking d)
        | _ => hdo l <- o_newSerializedEngine c (view_factory v c); hret (SerializedAt l) end) h1
      = (h4, Ret (SerializedAt (Datatypes.S (Datatypes.S (next h1)))))) by (destruct f as [[|pc]|]; [done|by destruct (Hne pc)|done]).
    rewrite (hbind_step _ _ _ _ _ Hnew). set (l := Datatypes.S (Datatypes.S (next h1))) in *.
    set (h5 := (write (d_collections d) (CCollections (<[c:=SerializedAt l]> m)) h4).1).
    exists h5, l. split; [done|].
    assert (Hcells : ∀ x : loc, x < next h → x ≠ d_collections d → cells h5 !! x = cells h !! x).
    { intros x Hx Hxd. simpl. rewrite !lookup_insert_ne by (simpl; lia || congruence). done. }
    split; [simpl; lia|]. split; [simpl; rewrite !lookup_insert_ne by (simpl; lia); apply (alloc_cell kc)|]. split.
    { split; [simpl; lia|]. intros x Hx Hp. apply Hcells; [done|]. by intros ->. }
    apply collection_step; [done|simpl; lia|auto|intros x c0 Hx Hxd Hc0 _; by rewrite Hcells|apply lookup_insert_eq|].
    exists l, (next h1), (Datatypes.S (next h1)). split; [done|]. simpl.
    assert (Hl : ∀ x, next h1 ≤ x ≤ l → part_grown part c h h5 c x) by (intros x Hx; right; split; [done|]; unfold between; simpl; unfold l in Hx; lia).
    split; [apply Hl; subst l; lia|]. subst l. simpl in *.
    split; [rewrite lookup_insert_ne by lia; apply lookup_insert_eq|]. split; (split; [apply Hl; lia|]; exists ∅; split; [|by intros k; rewrite !lookup_empty; constructor]).
    + simpl. rewrite !lookup_insert_ne by lia. apply lookup_insert_eq.
    + simpl. rewrite !lookup_insert_ne by lia. apply lookup_insert_eq.
Qed.

(** A caller makes the key of a root record, and saves the record under it. *)
Definition o_put (d : database) (c : string) (id : value) (kind : Z) (storage_id : string) (data : value) (overwrite : bool)
  : HM (res mem_error unit) :=
  hdo k <- alloc (CKey c (IdValue id) kind None);
  o_save construct d c storage_id (Some k) data overwrite.

Definition view_guard (v : database_view) (c : string) : bool :=
  match v_schema v with
  | None => true
  | Some (factories, _, allow) => bool_decide (is_Some (factories !! c)) || allow
  end.

Lemma o_guard_does P h d v c :
  shows_schema P h (d_schema d) (v_schema v) →
  o_guardCollection d c h = (h, Ret (if view_guard v c then Ret tt else Fail (undefined_collection c))).
Proof.
  unfold o_guardCollection, view_guard. destruct (d_schema d) as [sc|], (v_schema v) as [[[a b] x]|]; simpl; try done.
  intros (_ & _ & H3 & _ & <-). by rewrite (read_step as_factories _ _ _ _ a H3 eq_refl).
Qed.

Lemma o_put_does P h d v c id kind sid data overwrite e' :
  apart P h d v → serialized_only v → id ≠ VNil → view_guard v c = true →
  s_store (value_of reads (view_engine v c)) sid (reads [(c, Plain id)]) data overwrite = Ret e' →
  ∃ h' b, o_put d c id kind sid data overwrite h = (h', Ret (Ret tt)) ∧ inside P h h' ∧
    let e := stored_view (view_engine v c) sid b [(c, Plain id)] in
    value_of reads e = e' ∧ apart (grown P h h') h' d (with_collection v c e).
Proof.
  intros (part & m & Hap) Hser Hid Hguard Hst. unfold o_put.
  set (kc := CKey c (IdValue id) kind None). rewrite (hbind_step (alloc kc) _ h (alloc kc h).1 (next h) eq_refl). unfold o_save.
  pose proof (alloc_grows kc h) as [N1 K1].
  assert (Hs1 : shows_schema (below (next (alloc kc h).1)) (alloc kc h).1 (d_schema d) (v_schema v)).
  { eapply frame; [|by eapply apart_schema]. intros x Hx%(apart_bounded _ _ _ _ _ _ Hap). unfold below. split; [lia|by apply K1]. }
  rewrite (hbind_step _ _ _ _ _ (o_guard_does _ _ d v c Hs1)), Hguard.
  destruct (o_engine_does part m P h d v c kc Hap Hser) as (h2 & l & He & Hlt & Hkc & Hin & Hap2).
  rewrite (hbind_step _ _ _ _ _ He).
  set (part2 := part_grown part c h h2) in *. set (m2 := <[c:=SerializedAt l]> m) in *.
  pose proof (apart_engines _ _ _ _ _ _ Hap2 c) as Hc. unfold m2 in Hc at 1. simpl in Hc. rewrite !lookup_insert_eq in Hc.
  inversion Hc as [? ? Hshow|]; subst.
  assert (Hat : engine_at (part2 c) h2 l (view_engine v c)).
  { split; [|done]. intros x Hx. by eapply (apart_bounded _ _ _ _ _ _ Hap2), (apart_inside _ _ _ _ _ _ Hap2). }
  assert (Hkey : shows_key (part2 c) h2 (Some (next h)) [(c, Plain id)]).
  { split; [right; split; [done|unfold between; lia]|]. exists (IdValue id), kind, None. done. }
  pose proof (o_store_runs reads _ _ _ _ sid _ _ data overwrite Hat Hkey) as Hrun. rewrite Hst in Hrun.
  destruct Hrun as (h3 & b & Hrun & Hval & Ht & Hat3). exists h3, b. split; [exact Hrun|].
  pose proof (touches_next _ _ _ Ht) as N3. split; [|split; [done|]].
  - apply (inside_trans _ _ h2); [done|]. split; [done|]. intros x Hx Hp. apply (touches_outside _ _ _ Ht); [done|].
    intros Hx2. apply Hp. by eapply (apart_inside _ _ _ _ _ _ Hap2).
  - pose proof (apart_object _ _ _ _ _ _ Hap2) as Hd2. pose proof (apart_cell _ _ _ _ _ _ Hap2) as Hm2.
    pose proof (collection_step part2 m2 _ h2 h3 d _ c (SerializedAt l) (stored_view (view_engine v c) sid b [(c, Plain id)]) Hap2 N3) as Hstep.
    rewrite with_collection_twice in Hstep.
    apply (apart_mono (grown (grown P h h2) h2 h3)); [|apply bounded_grown; [destruct Hin; lia|by eapply apart_bounded]|].
    { intros x. unfold grown, between. destruct Hin. intuition lia. }
    eexists _, _. apply Hstep.
    + intros x Hx Hp _. by apply (touches_outside _ _ _ Ht).
    + intros x c0 Hx _ Hc0 Hmut. by apply (touches_fixed _ _ _ Ht).
    + unfold m2. rewrite insert_insert_eq. apply (touches_fixed _ _ _ Ht); [|done|done]. by apply (apart_bounded _ _ _ _ _ _ Hap2).
    + eapply frame; [|apply Hat3]. intros x Hx. split; [|done]. unfold grown in Hx. unfold part_grown. intuition.
Qed.
End Saving.

(** ** The world of databases, checkpoints and branches

    [context.Background()] is never done.  A database is known by the place of
    its pointer in the list, a checkpoint by its place and its generation, and a
    branch by its database. *)

Record memory_world := mkMemoryWorld {
  w_heap : heap;
  w_databases : list database;
  w_checkpoints : list serializedCheckpoint;
  w_closed : gset nat;
  w_sequence : Z;
}.

Definition background : ctx_errs := λ _, None.
Definition is_ErrReleased (e : branching_error) : bool := match e with ErrReleased => true | _ => false end.

Section World.
Context (key_check : string → shown_id → option string) (kind_of_id : id_cell → Z) (fuel : nat).

Definition w_Capture (source : option nat) : @call memory_world branching_error (option (nat * string)) := λ w,
  let db := match source with
            | None => NilInterface
            | Some i => match w_databases w !! i with Some d => MemoryDB d | None => NilDatabase end
            end in
  match Capture key_check kind_of_id fuel background (w_sequence w) db (w_heap w) with
  | (h, Ret (c, sequence)) =>
      (mkMemoryWorld h (w_databases w) (w_checkpoints w ++ [c]) (w_closed w) sequence,
       Ret (Some (length (w_checkpoints w), generation c)))
  | (h, Fail e) => (mkMemoryWorld h (w_databases w) (w_checkpoints w) (w_closed w) (w_sequence w), Fail e)
  | (h, Panic msg) => (mkMemoryWorld h (w_databases w) (w_checkpoints w) (w_closed w) (w_sequence w), Panic msg)
  end.

Definition w_Branch (cp : nat * string) : @call memory_world branching_error (option nat) := λ w,
  match w_checkpoints w !! cp.1 with
  | None => (w, Panic nil_panic)
  | Some c =>
      match Branch key_check kind_of_id fuel background c (w_heap w) with
      | (h, Ret b) =>
          (mkMemoryWorld h (w_databases w ++ [branch_DB b]) (w_checkpoints w) (w_closed w) (w_sequence w),
           Ret (Some (length (w_databases w))))
      | (h, Fail e) => (mkMemoryWorld h (w_databases w) (w_checkpoints w) (w_closed w) (w_sequence w), Fail e)
      | (h, Panic msg) => (mkMemoryWorld h (w_databases w) (w_checkpoints w) (w_closed w) (w_sequence w), Panic msg)
      end
  end.

Definition w_Release (cp : nat * string) : @call memory_world branching_error unit := λ w,
  (mkMemoryWorld (w_heap w) (w_databases w) (alter Release cp.1 (w_checkpoints w)) (w_closed w) (w_sequence w), Ret tt).

Definition w_Close (b : nat) : @call memory_world branching_error unit := λ w,
  (mkMemoryWorld (w_heap w) (w_databases w) (w_checkpoints w) ({[b]} ∪ w_closed w) (w_sequence w), Ret tt).

Definition memory_provider : @Provider memory_world nat (nat * string) nat branching_error :=
  mkProvider w_Capture snd w_Branch w_Release Some w_Close.

(** ** What a world models

    Every object belongs to one database or to one checkpoint, at most. *)
Context `{RecordKeys} (reads : key_view → key).

Definition owner : Type := nat + nat.
Definition owned (own : loc → option owner) (o : owner) : region := λ l, own l = Some o.

Definition schema_view : Type := option (gmap string value * gmap string factory_pc * bool).

(** The contents of a database: its schema, and the value of the engine that a
    use of a collection meets, created on first use. *)
Record contents := mkContents { x_schema : schema_view; x_engine : string → serializedEngine }.

Definition has_contents (v : database_view) (x : contents) : Prop :=
  v_schema v = x_schema x ∧ ∀ c, value_of reads (view_engine v c) = x_engine x c.

Definition good_view (v : database_view) : Prop := valid_view key_check fuel v ∧ serialized_only v.

Definition models_db (own : loc → option owner) (h : heap) (dbs : list database) (db : nat) (x : contents) : Prop :=
  ∃ d v, dbs !! db = Some d ∧ apart (owned own (inl db)) h d v ∧ good_view v ∧ has_contents v x.

Definition models_cp (own : loc → option owner) (h : heap) (cps : list serializedCheckpoint) (cp : nat * string) (o : option contents) : Prop :=
  ∃ c, cps !! cp.1 = Some c ∧ generation c = cp.2 ∧
    match o with
    | None => cp_snapshot c = None
    | Some x => ∃ s v, cp_snapshot c = Some s ∧ shows_checkpoint (owned own (inr cp.1)) h s v ∧ good_view v ∧ has_contents v x
    end.

Definition models_with (own : loc → option owner) (w : memory_world) (σ : @world nat (nat * string) _ _ _ _ contents) : Prop :=
  (∀ l o, own l = Some o → l < next (w_heap w)) ∧
  (∀ db x, live σ !! db = Some x → models_db own (w_heap w) (w_databases w) db x) ∧
  (∀ cp o, kept σ !! cp = Some o → models_cp own (w_heap w) (w_checkpoints w) cp o).

Definition models (w : memory_world) (σ : world contents) : Prop := ∃ own, models_with own w σ.

(** *** One owner's step leaves the others *)

Definition owner_grown (own : loc → option owner) (o : owner) (h h' : heap) : loc → option owner :=
  λ l, if decide (between (next h) (next h') l) then Some o else own l.

Lemma owner_grown_bounded own o h h' :
  next h ≤ next h' → (∀ l o', own l = Some o' → l < next h) → ∀ l o', owner_grown own o h h' l = Some o' → l < next h'.
Proof.
  intros Hn Hb l o'. unfold owner_grown, between. case_decide; [lia|]. intros Hl%Hb. lia.
Qed.

Lemma owned_grown own o h h' :
  (∀ l o', own l = Some o' → l < next h) → ∀ l, owned (owner_grown own o h h') o l ↔ grown (owned own o) h h' l.
Proof. intros Hb l. unfold owned, owner_grown, grown. case_decide; [by intuition|]. intuition. Qed.

(** Another owner's objects are the same objects. *)
Lemma others_carry own o o' h h' :
  (∀ l o1, own l = Some o1 → l < next h) → inside (owned own o) h h' → o' ≠ o →
  carries (owned own o') (owned (owner_grown own o h h') o') h h'.
Proof.
  intros Hb [Hn He] Hne l Hl. pose proof (Hb l o' Hl) as Hlt. split.
  - unfold owned, owner_grown. rewrite decide_False; [done|]. unfold between. lia.
  - apply He; [done|]. unfold owned in *. congruence.
Qed.

Lemma apart_carries P Q h h' d v : carries P Q h h' → bounded Q h' → next h ≤ next h' → apart P h d v → apart Q h' d v.
Proof.
  intros Hc HQ Hn Ha. apply (apart_mono P); [intros l Hl; by apply Hc|done|].
  apply (apart_frame _ h); [done|intros l Hl; by apply Hc|done].
Qed.

Lemma models_db_others own o h h' dbs dbs' db x :
  (∀ l o1, own l = Some o1 → l < next h) → inside (owned own o) h h' → inl db ≠ o → dbs `prefix_of` dbs' →
  models_db own h dbs db x → models_db (owner_grown own o h h') h' dbs' db x.
Proof.
  intros Hb Hin Hne Hpre (d & v & Hd & Ha & Hv). exists d, v. split; [by eapply prefix_lookup_Some|]. split; [|done].
  eapply apart_carries; [by apply others_carry| |by destruct Hin|done].
  intros l Hl. eapply owner_grown_bounded; [by destruct Hin|done|exact Hl].
Qed.

Lemma models_cp_others own o h h' cps cps' cp k :
  (∀ l o1, own l = Some o1 → l < next h) → inside (owned own o) h h' → inr cp.1 ≠ o → cps' !! cp.1 = cps !! cp.1 →
  models_cp own h cps cp k → models_cp (owner_grown own o h h') h' cps' cp k.
Proof.
  intros Hb Hin Hne Hcps (c & Hc & Hg & Hk). exists c. split; [by rewrite Hcps|]. split; [done|].
  destruct k as [x|]; [|done]. destruct Hk as (s & v & Hs & Hshow & Hv). exists s, v. split; [done|]. split; [|done].
  eapply frame; [|exact Hshow]. by apply others_carry.
Qed.

Lemma grows_inside P h h' : grows h h' → inside P h h'.
Proof. intros [Hn He]. split; auto. Qed.

(** *** The provider keeps the contract *)

Lemma w_Capture_spec σ w db x :
  models w σ → live σ !! db = Some x →
  ∃ w' cp, w_Capture (Some db) w = (w', Ret (Some cp)) ∧ cp.2 ≠ "" ∧ kept σ !! cp = None ∧
    models w' (mkWorld (live σ) (<[cp := Some x]> (kept σ))).
Proof.
  intros (own & Hb & Hdbs & Hcps) Hdb. destruct (Hdbs db x Hdb) as (d & v & Hd & Ha & [Hval Hser] & Hx).
  set (h := w_heap w) in *.
  assert (Hshow : shows_database (below (next h)) h d v).
  { eapply frame; [|by apply apart_shows]. intros l Hl. split; [by eapply Hb|done]. }
  destruct (snapshotDatabase_copies key_check kind_of_id fuel h d v Hshow Hval) as (h1 & s & E1 & G1 & Hs).
  set (c := mkCheckpoint (generation_of (sequence_add (w_sequence w))) (Some s)). set (i := length (w_checkpoints w)).
  assert (Hrun : Capture key_check kind_of_id fuel background (w_sequence w) (MemoryDB d) h = (h1, Ret (c, sequence_add (w_sequence w)))).
  { unfold Capture, ctx_Err. simpl. rewrite (hbind_step _ _ h h tt eq_refl), (hbind_step _ _ h h tt eq_refl).
    rewrite (hbind_step _ _ h h tt (validate_ok _ _ _ _ Hshow Hser)). by rewrite (hbind_step _ _ _ _ _ E1). }
  assert (Hfresh : ∀ o, kept σ !! (i, generation c) ≠ Some o).
  { intros o Ho. destruct (Hcps _ _ Ho) as (c' & Hc' & _). simpl in Hc'. apply lookup_lt_Some in Hc'. unfold i in Hc'. lia. }
  assert (Hin : inside (owned own (inr i)) h h1) by by apply grows_inside.
  eexists _, (i, generation c). unfold w_Capture. rewrite Hd. fold h. rewrite Hrun. split; [reflexivity|]. split; [done|].
  split; [by apply eq_None_ne_Some|]. exists (owner_grown own (inr i) h h1). split; [|split].
  - intros l o Hl. eapply owner_grown_bounded; [by destruct Hin|done|exact Hl].
  - intros db' x' Hdb'. simpl in Hdb'. eapply models_db_others; [done|done|done|done|by apply Hdbs].
  - intros cp o. simpl. intros [[<- <-]|[Hne Hcp]]%lookup_insert_Some.
    + exists c. simpl. unfold i. rewrite lookup_app_r, Nat.sub_diag by lia. split; [done|]. split; [done|].
      exists s, v. split; [done|]. split; [|done]. eapply frame; [|exact Hs]. intros l Hl. split; [|done].
      unfold owned, owner_grown. by rewrite decide_True.
    + pose proof (Hcps cp o Hcp) as (c' & Hc' & _). pose proof (lookup_lt_Some _ _ _ Hc') as Hlt.
      eapply models_cp_others; [done|done| | |by apply Hcps]; [intros [= E]; unfold i in E; lia|].
      simpl. by rewrite lookup_app_l.
Qed.

Lemma w_Branch_spec σ w cp x :
  models w σ → kept σ !! cp = Some (Some x) →
  ∃ w' b, w_Branch cp w = (w', Ret (Some b)) ∧ live σ !! b = None ∧ models w' (mkWorld (<[b := x]> (live σ)) (kept σ)).
Proof.
  intros (own & Hb & Hdbs & Hcps) Hcp. destruct (Hcps _ _ Hcp) as (c & Hc & Hg & s & v & Hs & Hshow & [Hval Hser] & Hx).
  set (h := w_heap w) in *. set (b := length (w_databases w)).
  assert (Hshow' : shows_checkpoint (below (next h)) h s v).
  { eapply frame; [|exact Hshow]. intros l Hl. split; [by eapply Hb|done]. }
  destruct (newDatabase_apart key_check kind_of_id fuel h s v Hshow' Hval) as (h1 & d & E1 & G1 & Ha).
  assert (Hrun : Branch key_check kind_of_id fuel background c h = (h1, Ret (mkBranch d false))).
  { unfold Branch, ctx_Err. simpl. rewrite (hbind_step _ _ h h tt eq_refl), Hs.
    rewrite (hbind_step _ _ h h tt eq_refl). by rewrite (hbind_step _ _ _ _ _ E1). }
  assert (Hin : inside (owned own (inl b)) h h1) by by apply grows_inside.
  eexists _, b. unfold w_Branch. rewrite Hc. fold h. rewrite Hrun. split; [reflexivity|].
  assert (Hfresh : live σ !! b = None).
  { apply eq_None_ne_Some. intros x' (d' & v' & Hd' & _)%Hdbs. apply lookup_lt_Some in Hd'. unfold b in Hd'. lia. }
  split; [done|]. exists (owner_grown own (inl b) h h1). split; [|split].
  - intros l o Hl. eapply owner_grown_bounded; [by destruct Hin|done|exact Hl].
  - intros db x'. simpl. intros [[<- <-]|[Hne Hdb]]%lookup_insert_Some.
    + exists d, v. unfold b. rewrite lookup_app_r, Nat.sub_diag by lia. split; [done|]. split; [|done].
      eapply apart_mono; [|intros l Hl; by eapply owner_grown_bounded; [destruct Hin|exact Hb|exact Hl]|exact Ha].
      intros l Hl. unfold owned, owner_grown. by rewrite decide_True.
    + eapply models_db_others; [done|done|congruence|by apply prefix_app_r|by apply Hdbs].
  - intros cp' o Ho. eapply models_cp_others; [done|done|done|done|by apply Hcps].
Qed.

Lemma w_Branch_released σ w cp :
  models w σ → kept σ !! cp = Some None →
  ∃ w' e, w_Branch cp w = (w', Fail e) ∧ is_ErrReleased e = true ∧ models w' σ.
Proof.
  intros (own & Hb & Hdbs & Hcps) Hcp. destruct (Hcps _ _ Hcp) as (c & Hc & Hg & Hs).
  eexists _, ErrReleased. unfold w_Branch. rewrite Hc. unfold Branch, ctx_Err. simpl.
  rewrite (hbind_step _ _ (w_heap w) (w_heap w) tt eq_refl), Hs. split; [reflexivity|]. split; [done|].
  exists own. by split_and!.
Qed.

Lemma w_Release_spec σ w cp o :
  models w σ → kept σ !! cp = Some o →
  ∃ w', w_Release cp w = (w', Ret tt) ∧ models w' (mkWorld (live σ) (<[cp := None]> (kept σ))).
Proof.
  intros (own & Hb & Hdbs & Hcps) Hcp. eexists. split; [reflexivity|]. exists own. split; [done|]. split; [done|].
  intros cp' o'. simpl. destruct (Hcps _ _ Hcp) as (c & Hc & Hg & _).
  intros [[<- <-]|[Hne Hcp']]%lookup_insert_Some.
  - exists (Release c). split; [by rewrite list_lookup_alter_eq, Hc|]. done.
  - destruct (Hcps _ _ Hcp') as (c' & Hc' & Hg' & Hk'). exists c'. rewrite list_lookup_alter_ne; [done|].
    intros E. apply Hne. rewrite E, Hc' in Hc. injection Hc as ->. destruct cp, cp'. simpl in *. congruence.
Qed.

Lemma memory_provider_contract : ProviderContract is_ErrReleased models memory_provider (λ _, True).
Proof.
  split.
  - intros σ w db x Hw Hdb _. by apply w_Capture_spec.
  - intros σ w cp x Hw Hcp. destruct (w_Branch_spec σ w cp x Hw Hcp) as (w' & b & E & Hb & Hw'). by exists w', b, b.
  - intros σ w cp Hw Hcp. by apply w_Branch_released.
  - intros σ cp o Hcp w Hw. by eapply w_Release_spec.
  - intros σ b w (own & Hw). eexists. split; [reflexivity|]. by exists own.
Qed.

(** C19: the branching provider of the in-memory database keeps the contract of
    branching, over a heap of shared objects: a checkpoint keeps what its source
    had, every branch starts with that in a database of its own, whatever the
    source and other branches became, and a released checkpoint makes no
    branches. *)
Theorem memory_keeps_contract :
  ProviderContract is_ErrReleased models memory_provider (λ _, True).
Proof. exact memory_provider_contract. Qed.

(** *** Clients

    A client that makes the key of a root record and saves or loads the record
    under it, in a schemaless database. *)
Section Clients.
Context `{!GoFmt, !GoJSON, !Decoders} (construct : Z → string → option value → bool → HM storage).
Context (c : string) (id : value) (kind : Z) (sid : string).

Definition on_database {A} (f : database → HM (res mem_error A)) (db : option nat) : @call memory_world branching_error A := λ w,
  match db with
  | None => (w, Panic nil_panic)
  | Some i =>
      match w_databases w !! i with
      | None => (w, Panic nil_panic)
      | Some d =>
          let '(h, r) := f d (w_heap w) in
          (mkMemoryWorld h (w_databases w) (w_checkpoints w) (w_closed w) (w_sequence w),
           match r with
           | Ret (Ret a) => Ret a
           | Ret (Fail _) => Fail (ctx_error "failed")
           | Ret (Panic msg) => Panic msg
           | Fail e => Fail e
           | Panic msg => Panic msg
           end)
      end
  end.

Definition w_put (data : value) : option nat → @call memory_world branching_error unit :=
  on_database (λ d, o_put construct d c id kind sid data true).

Definition o_get (d : database) (target : value) : HM (res mem_error value) :=
  hdo _ <- alloc (CKey c (IdValue id) kind None);
  hdo s <- o_engine construct d c;
  match s with SerializedAt l => o_load l sid target | _ => hpanic "not a serialized engine" end.

(** The text of what a load returns. *)
Definition o_digest (text : res mem_error value → string) (d : database) : HM (res mem_error string) :=
  hdo r <- o_get d VNil; hret (Ret (text r)).

Definition w_digest (text : res mem_error value → string) : option nat → @call memory_world branching_error string :=
  on_database (o_digest text).

(** [NewDB()]. *)
Definition w_NewDB : memory_world → memory_world * nat := λ w,
  let '(h, r) := alloc (CCollections ∅) (w_heap w) in
  (mkMemoryWorld h (w_databases w ++ [mkDatabase (next (w_heap w)) None false true]) (w_checkpoints w) (w_closed w) (w_sequence w),
   length (w_databases w)).

Definition with_engine (x : contents) (e : serializedEngine) : contents :=
  mkContents (x_schema x) (λ c', if decide (c' = c) then e else x_engine x c').

Definition new_contents : contents := mkContents None (λ c', newSerializedEngine c' None).

(** An operation of the owner of a database. *)
Lemma on_database_spec {A} (f : database → HM (res mem_error A)) σ w db x x' (a : A) :
  models w σ → live σ !! db = Some x →
  (∀ d v h P, apart P h d v → good_view v → has_contents v x →
     ∃ h' v', f d h = (h', Ret (Ret a)) ∧ inside P h h' ∧ apart (grown P h h') h' d v' ∧ good_view v' ∧ has_contents v' x') →
  ∃ w', on_database f (Some db) w = (w', Ret a) ∧ models w' (mkWorld (<[db := x']> (live σ)) (kept σ)).
Proof.
  intros (own & Hb & Hdbs & Hcps) Hdb Hf. destruct (Hdbs db x Hdb) as (d & v & Hd & Ha & Hgood & Hx).
  destruct (Hf d v (w_heap w) _ Ha Hgood Hx) as (h' & v' & E & Hin & Ha' & Hgood' & Hx').
  eexists. unfold on_database. rewrite Hd, E. split; [reflexivity|].
  exists (owner_grown own (inl db) (w_heap w) h'). split; [|split].
  - intros l o Hl. eapply owner_grown_bounded; [by destruct Hin|done|exact Hl].
  - intros db' y. simpl. intros [[<- <-]|[Hne Hdb']]%lookup_insert_Some.
    + exists d, v'. split; [done|]. split; [|done].
      eapply apart_mono; [|intros l Hl; by eapply owner_grown_bounded; [destruct Hin|exact Hb|exact Hl]|exact Ha'].
      intros l Hl. by apply owned_grown.
    + eapply models_db_others; [done|done|congruence|done|by apply Hdbs].
  - intros cp o Ho. eapply models_cp_others; [done|done|done|done|by apply Hcps].
Qed.

Lemma view_engine_with v c0 e c' : view_engine (with_collection v c0 e) c' = if decide (c' = c0) then e else view_engine v c'.
Proof.
  unfold view_engine, with_collection, view_factory. simpl. case_decide as Hc; [subst; by rewrite lookup_insert_eq|].
  by rewrite lookup_insert_ne.
Qed.

Lemma with_collection_good v e :
  good_view v → (∀ i t, ev_keys e !! i = Some t → valid_key key_check fuel t) → good_view (with_collection v c e).
Proof.
  intros [Hval Hser] He. split; [|done]. intros n e'. simpl. intros [[_ <-]|[_ Hn]]%lookup_insert_Some; [done|by eapply Hval].
Qed.

Lemma view_engine_keys v i t : good_view v → ev_keys (view_engine v c) !! i = Some t → valid_key key_check fuel t.
Proof.
  intros [Hval _]. unfold view_engine. destruct (v_collections v !! c) as [e|] eqn:He; simpl; [by eapply Hval|by rewrite lookup_empty].
Qed.

Context (Hid : id ≠ VNil) (Hkey : valid_key key_check fuel [(c, Plain id)]).

Lemma put_view P h d v x data e' :
  apart P h d v → good_view v → has_contents v x → x_schema x = None →
  s_store (x_engine x c) sid (reads [(c, Plain id)]) data true = Ret e' →
  ∃ h' v', o_put construct d c id kind sid data true h = (h', Ret (Ret tt)) ∧ inside P h h' ∧
    apart (grown P h h') h' d v' ∧ good_view v' ∧ has_contents v' (with_engine x e').
Proof.
  intros Ha Hgood [Hschema Hx] Hnone Hst. rewrite <- Hx in Hst.
  destruct (o_put_does reads construct P h d v c id kind sid data true e' Ha (proj2 Hgood) Hid) as (h' & b & Hrun & Hin & Hval & Ha');
    [unfold view_guard; by rewrite Hschema, Hnone|done|].
  eexists h', _. split; [done|]. split; [done|]. split; [exact Ha'|]. split.
  - apply with_collection_good; [done|]. intros i t. unfold stored_view. simpl.
    intros [[_ <-]|[_ Hi]]%lookup_insert_Some; [done|by eapply view_engine_keys].
  - split; [done|]. intros c'. rewrite view_engine_with. unfold with_engine. simpl. by case_decide.
Qed.

Lemma get_view P h d v x text :
  apart P h d v → good_view v → has_contents v x → (∀ msg, s_load (x_engine x c) sid VNil ≠ Panic msg) →
  ∃ h' v', o_digest text d h = (h', Ret (Ret (text (s_load (x_engine x c) sid VNil)))) ∧ inside P h h' ∧
    apart (grown P h h') h' d v' ∧ good_view v' ∧ has_contents v' x.
Proof.
  intros (part & m & Ha) Hgood [Hschema Hx] Hnp. unfold o_digest, o_get.
  set (kc := CKey c (IdValue id) kind None).
  destruct (o_engine_does construct part m P h d v c kc Ha (proj2 Hgood)) as (h2 & l & He & _ & _ & Hin & Ha2).
  pose proof (apart_engines _ _ _ _ _ _ Ha2 c) as Hc. simpl in Hc. rewrite !lookup_insert_eq in Hc.
  inversion Hc as [? ? Hshow|]; subst.
  assert (Hat : engine_at (part_grown part c h h2 c) h2 l (view_engine v c)).
  { split; [|done]. intros y Hy. by eapply (apart_bounded _ _ _ _ _ _ Ha2), (apart_inside _ _ _ _ _ _ Ha2). }
  exists h2, (with_collection v c (view_engine v c)). split; [|split; [done|split; [by eexists _, _|split]]].
  - assert (Hload : o_load l sid VNil h2 = (h2, Ret (s_load (x_engine x c) sid VNil))).
    { rewrite (o_load_does reads _ h2 l _ sid VNil Hat), Hx. unfold hpure. destruct (s_load _ _ _) as [| |msg] eqn:E; [done|done|by destruct (Hnp msg)]. }
    assert (Hget : (hdo _ <- alloc kc; hdo s <- o_engine construct d c;
        match s with SerializedAt l => o_load l sid VNil | _ => hpanic "not a serialized engine" end) h
      = (h2, Ret (s_load (x_engine x c) sid VNil))).
    { rewrite (hbind_step (alloc kc) _ h (alloc kc h).1 (next h) eq_refl), (hbind_step _ _ _ _ _ He). exact Hload. }
    by rewrite (hbind_step _ _ _ _ _ Hget).
  - apply with_collection_good; [done|]. intros i t Hi. by eapply view_engine_keys.
  - split; [done|]. intros c'. rewrite view_engine_with. case_decide as Hcc; [subst; apply Hx|apply Hx].
Qed.

(** *** The fixture of one record *)
Context (data1 data2 : value) (text : res mem_error value → string) (e1 e2 : serializedEngine).
Context (Hseed : s_store (newSerializedEngine c None) sid (reads [(c, Plain id)]) data1 true = Ret e1).
Context (Hmutate : s_store e1 sid (reads [(c, Plain id)]) data2 true = Ret e2).
Context (Hloads : ∀ e msg, e ∈ [newSerializedEngine c None; e1; e2] → s_load e sid VNil ≠ Panic msg).
Context (Htells : text (s_load e1 sid VNil) ≠ text (s_load e2 sid VNil)).

Definition record_fixture : @Callbacks memory_world nat (nat * string) nat branching_error :=
  mkCallbacks (Some (λ w, let '(w, db) := w_NewDB w in (w, (Some db, Some memory_provider))))
    (Some (w_put data1)) (Some (w_put data2)) (Some (w_digest text)).

Definition empty_contents : contents := new_contents.
Definition seeded_contents : contents := with_engine empty_contents e1.
Definition mutated_contents : contents := with_engine seeded_contents e2.

Lemma new_database_spec σ w :
  models w σ → ∃ w' db, w_NewDB w = (w', db) ∧ live σ !! db = None ∧ models w' (mkWorld (<[db := new_contents]> (live σ)) (kept σ)).
Proof.
  intros (own & Hb & Hdbs & Hcps). set (h := w_heap w) in *. set (db := length (w_databases w)).
  pose proof (alloc_grows (CCollections ∅) h) as G. set (h1 := (alloc (CCollections ∅) h).1) in *.
  assert (Hin : inside (owned own (inl db)) h h1) by by apply grows_inside.
  eexists _, db. split; [reflexivity|]. split.
  { apply eq_None_ne_Some. intros x (d & v & Hd & _)%Hdbs. apply lookup_lt_Some in Hd. unfold db in Hd. lia. }
  exists (owner_grown own (inl db) h h1). split; [|split].
  - intros l o Hl. eapply owner_grown_bounded; [by destruct Hin|done|exact Hl].
  - intros db' x. simpl. intros [[<- <-]|[Hne Hdb]]%lookup_insert_Some.
    + exists (mkDatabase (next h) None false true), (mkView ∅ None false true). unfold db.
      rewrite lookup_app_r, Nat.sub_diag by lia. split; [done|]. split; [|split; [split; [intros n e; simpl; by rewrite lookup_empty|done]|]].
      * exists (λ _ _, False), ∅. split; simpl; [| | |done|done| |done..].
        -- intros l Hl. eapply owner_grown_bounded; [by destruct Hin|exact Hb|exact Hl].
        -- unfold owned, owner_grown. rewrite decide_True; [done|]. unfold between. simpl. lia.
        -- apply lookup_insert_eq.
        -- intros n. rewrite !lookup_empty. constructor.
      * split; [done|]. intros c'. unfold view_engine. simpl. rewrite lookup_empty. simpl. unfold value_of. simpl. by rewrite fmap_empty.
    + eapply models_db_others; [done|done|congruence|by apply prefix_app_r|by apply Hdbs].
  - intros cp o Ho. eapply models_cp_others; [done|done|done|done|by apply Hcps].
Qed.

Lemma record_fixture_keeps_contract :
  FixtureContract (CP := nat * string) models memory_provider record_fixture (λ _, True)
    (λ x, text (s_load (x_engine x c) sid VNil)) empty_contents seeded_contents mutated_contents.
Proof.
  assert (He : ∀ y, x_engine (with_engine y e1) c = e1) by (intros y; simpl; by rewrite decide_True).
  assert (He2 : ∀ y, x_engine (with_engine y e2) c = e2) by (intros y; simpl; by rewrite decide_True).
  split; [by split_and!; eexists|done|..].
  - intros σ w f [= <-] Hw. destruct (new_database_spec σ w Hw) as (w' & db & E & Hdb & Hw'). exists w', db. split; [by injection E as <- <-|done].
  - intros σ db f [= <-] Hdb w Hw. eapply on_database_spec; [done|done|]. intros d v h P Ha Hg Hx.
    by eapply put_view.
  - intros σ db f [= <-] Hdb w Hw. eapply on_database_spec; [done|done|]. intros d v h P Ha Hg Hx.
    eapply put_view; [done|done|done|done|]. unfold seeded_contents. by rewrite He.
  - intros σ db f x [= <-] Hdb Hin w Hw.
    destruct (on_database_spec (o_digest text) σ w db x x (text (s_load (x_engine x c) sid VNil)) Hw Hdb) as (w' & E & Hw').
    + intros d v h P Ha Hg Hx. eapply get_view; [done|done|done|]. intros msg. apply Hloads.
      repeat (apply elem_of_cons in Hin as [->|Hin]); [left|unfold seeded_contents; rewrite He; set_solver|unfold mutated_contents; rewrite He2; set_solver|by apply not_elem_of_nil in Hin].
    + exists w'. split; [exact E|]. by rewrite insert_id in Hw'; [destruct σ|].
  - unfold seeded_contents, mutated_contents. by rewrite He, He2.
Qed.
End Clients.
End World.

(** ** Examples *)

Module ConformanceExamples.
Import BranchExamples HeapExamples.
#[local] Existing Instance plain_fmt.
#[local] Existing Instance plain_json.
#[local] Existing Instance plain_decoders.
#[local] Existing Instance chain_keys.

Definition no_construct (_ : Z) (_ : string) (_ : option value) (_ : bool) : HM storage := hpanic "custom".

(** A record of a string, and its value as the digest. *)
Definition text (r : res mem_error value) : string :=
  match r with Ret (VString _ s) => s | Ret _ => "other" | _ => "absent" end.

Definition provider : Provider := memory_provider any_key no_kind 1.
Definition fixture (p : @Provider memory_world nat (nat * string) nat branching_error) :=
  mkCallbacks (Some (λ w, let '(w, db) := w_NewDB w in (w, (Some db, Some p))))
    (Some (w_put no_construct "users" (vstr "1") 24 "1" (vstr "a")))
    (Some (w_put no_construct "users" (vstr "1") 24 "1" (vstr "b")))
    (Some (w_digest no_construct "users" (vstr "1") 24 "1" text)).

Definition nothing_yet : memory_world := mkMemoryWorld (mkHeap 0 ∅) [] [] ∅ 0.

Definition engine_with (s : string) : serializedEngine :=
  mkSerialized "users" None {["1" := JString s]} {["1" := reads_chain [("users", Plain (vstr "1"))]]}.

Lemma nothing_yet_models : models any_key 1 reads_chain nothing_yet (mkWorld ∅ ∅).
Proof. exists (λ _, None). split_and!; [done|..]; intros ? ?; simpl; by rewrite lookup_empty. Qed.

Lemma conformance_passes_witness :
  ∃ w', RunConformance is_ErrReleased (fixture provider) nothing_yet
    = (w', Ret [("empty database", None); ("seed fidelity and fresh handle", None);
                ("source mutation does not change checkpoint", None); ("sibling isolation", None); ("release is idempotent", None)]).
Proof.
  assert (Hc : FixtureContract (CP := nat * string) (models any_key 1 reads_chain) provider (fixture provider) (λ _, True)
    (λ x, text (s_load (x_engine x "users") "1" VNil)) empty_contents (seeded_contents "users" (engine_with "a"))
    (mutated_contents "users" (engine_with "a") (engine_with "b"))).
  { apply record_fixture_keeps_contract; [done|by split; [simpl; lia|repeat constructor]|by vm_compute|by vm_compute| |by vm_compute].
    intros e msg He. repeat (apply elem_of_cons in He as [->|He]; [by vm_compute|]). by apply not_elem_of_nil in He. }
  destruct (conformance_passes is_ErrReleased (models any_key 1 reads_chain) provider (fixture provider) (λ _, True) _ _ _ _
    (ProviderContract0 := memory_provider_contract any_key no_kind 1 reads_chain) (FixtureContract0 := Hc)
    nothing_yet (mkWorld ∅ ∅) nothing_yet_models) as (w' & σ' & E & _).
  exists w'. exact E.
Defined.

(** The suite tells: a provider whose branches are new handles of the source's
    own objects fails it. *)
Definition shallow_provider : @Provider memory_world nat (nat * string) nat branching_error := mkProvider
  (λ source w, (w, Ret ((λ i, (i, "g")) <$> source))) snd
  (λ cp w, match w_databases w !! cp.1 with
           | Some d => (mkMemoryWorld (w_heap w) (w_databases w ++ [d]) (w_checkpoints w) (w_closed w) (w_sequence w),
                        Ret (Some (length (w_databases w))))
           | None => (w, Panic nil_panic)
           end)
  (λ _ w, (w, Ret tt)) Some (λ _ w, (w, Ret tt)).

Example shallow_branches_fail :
  (RunConformance is_ErrReleased (fixture shallow_provider) nothing_yet).2
  = Ret [("empty database", None); ("seed fidelity and fresh handle", None);
         ("source mutation does not change checkpoint", Some (DigestDiffers "b" "a"));
         ("sibling isolation", Some (DigestDiffers "b" "a")); ("release is idempotent", Some (NotReleased None))].
Proof. vm_compute. reflexivity. Qed.
End ConformanceExamples.
