(* ===== verification/RWLock.v ===== *)
(** * Clients under a read-write lock

    Clients call operations on a shared state concurrently, each under the read
    or the write side of one [sync.RWMutex].  A program is the sequence of its
    atomic accesses to the state; the accesses of the clients that hold the
    lock interleave.  When readers change the state only up to an equivalence
    that no program can see, every execution amounts to the calls one after the
    other. *)

From stdpp Require Import base list sets relations.
From S2P Require Import Prelude.

Local Open Scope nat_scope.
Local Open Scope list_scope.

(** A program ends with a result, or accesses the state, changing it, and goes
    on with what it has read. *)
Inductive prog (S R : Type) : Type :=
| Done (r : R)
| Act (access : S → S) (next : S → prog S R).
Arguments Done {S R} r.
Arguments Act {S R} access next.

(** The program alone. *)
Fixpoint run_prog {S R} (p : prog S R) (s : S) : S * R :=
  match p with
  | Done r => (s, r)
  | Act access next => run_prog (next s) (access s)
  end.

Fixpoint prog_bind {S A B} (p : prog S A) (k : A → prog S B) : prog S B :=
  match p with
  | Done a => k a
  | Act access next => Act access (λ s, prog_bind (next s) k)
  end.

Lemma run_prog_bind {S A B} (p : prog S A) (k : A → prog S B) s :
  run_prog (prog_bind p k) s = (let '(s', a) := run_prog p s in run_prog (k a) s').
Proof. revert s. induction p as [a|access next IH]; intros s; simpl; [done|apply IH]. Qed.

Section Lock.
Context {S R : Type} (same : relation S) `{!Equivalence same}.

(** Equivalent states give the same result and equivalent states. *)
Inductive respectful {X : Type} : prog S X → Prop :=
| respectful_done r : respectful (Done r)
| respectful_act access next :
    (∀ s s', same s s' → same (access s) (access s') ∧ next s = next s') →
    (∀ s, respectful (next s)) → respectful (Act access next).

(** And every access leaves an equivalent state. *)
Inductive reading {X : Type} : prog S X → Prop :=
| reading_done r : reading (Done r)
| reading_act access next :
    (∀ s, same (access s) s) → (∀ s s', same s s' → next s = next s') →
    (∀ s, reading (next s)) → reading (Act access next).

Lemma reading_respectful {X} (p : prog S X) : reading p → respectful p.
Proof.
  induction 1 as [r|access next Hs He Hr IH]; constructor; [|done].
  intros s s' Hss. split; [|by apply He]. by rewrite !Hs.
Qed.

Lemma respectful_run {X} (p : prog S X) s s' : respectful p → same s s' →
  same (run_prog p s).1 (run_prog p s').1 ∧ (run_prog p s).2 = (run_prog p s').2.
Proof.
  intros Hp. revert s s'. induction Hp as [r|access next Ha Hr IH]; intros s s' Hs; simpl; [done|].
  destruct (Ha s s' Hs) as [H1 <-]. by apply IH.
Qed.

Lemma reading_run {X} (p : prog S X) s : reading p → same (run_prog p s).1 s.
Proof.
  intros Hp. revert s. induction Hp as [r|access next Hs He Hr IH]; intros s; simpl; [done|]. by rewrite IH.
Qed.

Lemma reading_bind {A B} (p : prog S A) (k : A → prog S B) :
  reading p → (∀ a, reading (k a)) → reading (prog_bind p k).
Proof.
  intros Hp Hk. induction Hp as [r|access next Hs He Hr IH]; simpl; [apply Hk|]. constructor; [done| |done].
  intros s s' Hss. by rewrite (He s s').
Qed.

(** ** Calls and clients *)

Record call := mkCall { c_writes : bool; c_body : prog S R }.

(** The side of the lock that a call takes allows what it does. *)
Definition fair_call (c : call) : Prop := if c_writes c then respectful (c_body c) else reading (c_body c).

(** The calls that a client still makes, and the one it is in, with what is
    left of it. *)
Record client := mkClient { cl_todo : list call; cl_current : option (call * prog S R) }.

Definition idle (t : client) : Prop := cl_current t = None.
Definition not_writing (t : client) : Prop := match cl_current t with Some (c, _) => c_writes c = false | None => True end.

(** The finished calls with their clients and results, in the order in which
    they released the lock. *)
Record system := mkSystem { sys_state : S; sys_clients : list client; sys_log : list (nat * call * R) }.

Inductive step : system → system → Prop :=
| step_lock s l log i c rest :
    l !! i = Some (mkClient (c :: rest) None) →
    (if c_writes c then Forall idle l else Forall not_writing l) →
    step (mkSystem s l log) (mkSystem s (<[i := mkClient rest (Some (c, c_body c))]> l) log)
| step_access s l log i rest c access next :
    l !! i = Some (mkClient rest (Some (c, Act access next))) →
    step (mkSystem s l log) (mkSystem (access s) (<[i := mkClient rest (Some (c, next s))]> l) log)
| step_unlock s l log i rest c r :
    l !! i = Some (mkClient rest (Some (c, Done r))) →
    step (mkSystem s l log) (mkSystem s (<[i := mkClient rest None]> l) (log ++ [(i, c, r)])).

(** The calls one after the other. *)
Fixpoint run_calls (cs : list call) (s : S) : S * list R :=
  match cs with
  | [] => (s, [])
  | c :: cs => let '(s, r) := run_prog (c_body c) s in let '(s, rs) := run_calls cs s in (s, r :: rs)
  end.

Lemma run_calls_snoc cs c s :
  run_calls (cs ++ [c]) s =
  (let '(s1, rs) := run_calls cs s in let '(s2, r) := run_prog (c_body c) s1 in (s2, rs ++ [r])).
Proof.
  revert s. induction cs as [|c' cs IH]; intros s; simpl; [by destruct (run_prog (c_body c) s)|].
  destruct (run_prog (c_body c') s) as [s1 r]. rewrite IH. destruct (run_calls cs s1) as [s2 rs].
  by destruct (run_prog (c_body c) s2).
Qed.

(** ** Serializability *)

Context (initial : list (list call)) (s0 : S).

Definition start : system := mkSystem s0 (map (λ cs, mkClient cs None) initial) [].

Definition logged_calls (log : list (nat * call * R)) : list call := map (λ x, x.1.2) log.
Definition results (log : list (nat * call * R)) : list R := map snd log.
Definition calls_of (i : nat) (log : list (nat * call * R)) : list call :=
  logged_calls (List.filter (λ x, x.1.1 =? i) log).

Definition current_call (t : client) : list call := match cl_current t with Some (c, _) => [c] | None => [] end.

(** What is left of a call, from the state as it is, ends as the call would from
    the state after the finished calls. *)
Definition on_course (s sl : S) (t : client) : Prop :=
  match cl_current t with
  | None => True
  | Some (c, p) =>
      fair_call c ∧ (if c_writes c then respectful p else reading p) ∧
      same (run_prog p s).1 (run_prog (c_body c) sl).1 ∧ (run_prog p s).2 = (run_prog (c_body c) sl).2
  end.

(** A writer is alone. *)
Definition exclusive (l : list client) : Prop :=
  ∀ i j t t', l !! i = Some t → l !! j = Some t' → ¬ not_writing t → i ≠ j → idle t'.

Record invariant (sys : system) : Prop := mkInvariant {
  inv_results : (run_calls (logged_calls (sys_log sys)) s0).2 = results (sys_log sys);
  inv_state : Forall not_writing (sys_clients sys) → same (sys_state sys) (run_calls (logged_calls (sys_log sys)) s0).1;
  inv_course : ∀ i t, sys_clients sys !! i = Some t →
    on_course (sys_state sys) (run_calls (logged_calls (sys_log sys)) s0).1 t;
  inv_exclusive : exclusive (sys_clients sys);
  inv_order : ∀ i t, sys_clients sys !! i = Some t →
    initial !! i = Some (calls_of i (sys_log sys) ++ current_call t ++ cl_todo t);
}.

(** *** The invariant holds *)

Lemma idle_not_writing t : idle t → not_writing t.
Proof. unfold idle, not_writing. by intros ->. Qed.

Lemma fair_respectful c : fair_call c → respectful (c_body c).
Proof. unfold fair_call. destruct (c_writes c); [done|apply reading_respectful]. Qed.

Lemma insert_lookup_cases {A} (l : list A) i j x t :
  <[i := x]> l !! j = Some t → (j = i ∧ t = x) ∨ (j ≠ i ∧ l !! j = Some t).
Proof. intros Ht. apply list_lookup_insert_Some in Ht as [(-> & -> & _)|[Hne Ht]]; [by left|right; by split]. Qed.

(** Replacing a client that does not write. *)
Lemma not_writing_before (l : list client) i t x : l !! i = Some t → not_writing t →
  Forall not_writing (<[i := x]> l) → Forall not_writing l.
Proof.
  intros Hi Ht. rewrite !Forall_lookup. intros Hall j t' Hj.
  destruct (decide (j = i)) as [->|Hne]; [by simplify_eq|]. apply (Hall j). by rewrite list_lookup_insert_ne.
Qed.

Lemma invariant_start : invariant start.
Proof.
  split; cbn [start sys_clients sys_state sys_log].
  - done.
  - done.
  - intros i t Ht. apply list_lookup_fmap_Some in Ht as (cs & -> & _). done.
  - intros i j t t' Hi Hj Hw. apply list_lookup_fmap_Some in Hi as (cs & -> & _). by exfalso; apply Hw.
  - intros i t Ht. apply list_lookup_fmap_Some in Ht as (cs & -> & Hcs). by rewrite Hcs.
Qed.

Hypothesis all_fair : Forall (Forall fair_call) initial.

Lemma fair_initial i cs c : initial !! i = Some cs → c ∈ cs → fair_call c.
Proof. intros Hi Hc. exact (proj1 (Forall_forall _ _) (proj1 (Forall_lookup _ _) all_fair i cs Hi) c Hc). Qed.

Lemma calls_of_snoc i j c r log :
  calls_of i (log ++ [(j, c, r)]) = calls_of i log ++ (if decide (i = j) then [c] else []).
Proof.
  unfold calls_of, logged_calls. rewrite List.filter_app, map_app. f_equal. simpl.
  destruct (decide (i = j)) as [->|Hne]; [by rewrite Nat.eqb_refl|]. by rewrite (proj2 (Nat.eqb_neq j i)) by done.
Qed.

Lemma invariant_lock s l log i c rest :
  l !! i = Some (mkClient (c :: rest) None) → (if c_writes c then Forall idle l else Forall not_writing l) →
  invariant (mkSystem s l log) → invariant (mkSystem s (<[i := mkClient rest (Some (c, c_body c))]> l) log).
Proof.
  intros Hi Hlock [Hres Hst Hco Hex Hord]; cbn [sys_clients sys_state sys_log] in *.
  assert (Hnw : Forall not_writing l).
  { destruct (c_writes c); [|done]. eapply Forall_impl; [exact Hlock|apply idle_not_writing]. }
  specialize (Hst Hnw).
  assert (Hc : fair_call c) by (eapply fair_initial; [exact (Hord i _ Hi)|set_solver]).
  split; cbn [sys_clients sys_state sys_log]; [done|by intros _| | |].
  - intros j t Hj. apply insert_lookup_cases in Hj as [[-> ->]|[_ Hj]]; [|by apply (Hco j)].
    unfold on_course. cbn [cl_current]. split_and!; [done|exact Hc|apply respectful_run; [by apply fair_respectful|done]..].
  - intros j k t t' Hj Hk Hw Hne. apply insert_lookup_cases in Hj as [[-> ->]|[Hj1 Hj]].
    + apply insert_lookup_cases in Hk as [[-> _]|[_ Hk]]; [done|].
      unfold not_writing in Hw. cbn [cl_current] in Hw. destruct (c_writes c); [|done].
      rewrite Forall_lookup in Hlock. by apply (Hlock k).
    + exfalso. apply Hw. rewrite Forall_lookup in Hnw. by apply (Hnw j).
  - intros j t Hj. apply insert_lookup_cases in Hj as [[-> ->]|[_ Hj]]; [|by apply Hord]. by rewrite (Hord i _ Hi).
Qed.

Lemma invariant_access s l log i rest c access next :
  l !! i = Some (mkClient rest (Some (c, Act access next))) →
  invariant (mkSystem s l log) → invariant (mkSystem (access s) (<[i := mkClient rest (Some (c, next s))]> l) log).
Proof.
  intros Hi [Hres Hst Hco Hex Hord]; cbn [sys_clients sys_state sys_log] in *.
  destruct (Hco i _ Hi) as (Hfair & Hp & Hrs & Hrr). cbn [run_prog] in Hrs, Hrr.
  split; cbn [sys_clients sys_state sys_log]; [done| | | |].
  - intros Hnw. assert (Hw : c_writes c = false).
    { rewrite Forall_lookup in Hnw. apply (Hnw i (mkClient rest (Some (c, next s)))).
      apply list_lookup_insert_eq. by eapply lookup_lt_Some. }
    rewrite Hw in Hp. inversion Hp as [|a n Hsame _ _]; subst. rewrite Hsame. apply Hst.
    eapply not_writing_before; [exact Hi|exact Hw|exact Hnw].
  - intros j t Hj. apply insert_lookup_cases in Hj as [[-> ->]|[Hne Hj]].
    + unfold on_course. cbn [cl_current]. split_and!; [done| |done|done].
      destruct (c_writes c); inversion Hp; subst; auto.
    + pose proof (Hco j t Hj) as Ht. unfold on_course in *. destruct (cl_current t) as [[c' p']|] eqn:Et; [|done].
      destruct Ht as (Hf' & Hp' & Hs' & Hr').
      destruct (c_writes c) eqn:Ec.
      { exfalso. assert (Hidle : idle t) by (eapply (Hex i j); [exact Hi|exact Hj|unfold not_writing; simpl; congruence|done]).
        unfold idle in Hidle. congruence. }
      inversion Hp as [|a n Hsame _ _]; subst.
      assert (Hq : respectful p') by (destruct (c_writes c'); [done|by apply reading_respectful]).
      destruct (respectful_run p' (access s) s Hq (Hsame s)) as [H1 H2].
      split_and!; [done|done|by rewrite H1|by rewrite H2].
  - intros j k t t' Hj Hk Hw Hne.
    apply insert_lookup_cases in Hj as [[-> ->]|[_ Hj]]; apply insert_lookup_cases in Hk as [[-> ->]|[_ Hk]]; [done| | |exact (Hex j k t t' Hj Hk Hw Hne)].
    + eapply (Hex i k); [exact Hi|exact Hk|exact Hw|done].
    + exfalso. assert (Hidle : idle (mkClient rest (Some (c, Act access next)))) by (by eapply (Hex j i)). done.
  - intros j t Hj. apply insert_lookup_cases in Hj as [[-> ->]|[_ Hj]]; [|by apply Hord]. exact (Hord i _ Hi).
Qed.

Lemma invariant_unlock s l log i rest c r :
  l !! i = Some (mkClient rest (Some (c, Done r))) →
  invariant (mkSystem s l log) → invariant (mkSystem s (<[i := mkClient rest None]> l) (log ++ [(i, c, r)])).
Proof.
  intros Hi [Hres Hst Hco Hex Hord]; cbn [sys_clients sys_state sys_log] in *.
  destruct (Hco i _ Hi) as (Hfair & Hp & Hrs & Hrr). cbn [run_prog fst snd] in Hrs, Hrr.
  assert (Hlog : run_calls (logged_calls (log ++ [(i, c, r)])) s0 =
    (let '(s1, rs) := run_calls (logged_calls log) s0 in let '(s2, r2) := run_prog (c_body c) s1 in (s2, rs ++ [r2]))).
  { unfold logged_calls. rewrite map_app. apply run_calls_snoc. }
  destruct (run_calls (logged_calls log) s0) as [sl rs] eqn:Esl. cbn [fst snd] in *.
  destruct (run_prog (c_body c) sl) as [sl' r'] eqn:Er. cbn [fst snd] in *. subst r'.
  split; cbn [sys_clients sys_state sys_log]; rewrite ?Hlog; cbn [fst snd].
  - unfold results in *. by rewrite map_app, Hres.
  - done.
  - intros j t Hj. apply insert_lookup_cases in Hj as [[-> ->]|[Hne Hj]]; [done|].
    pose proof (Hco j t Hj) as Ht. unfold on_course in *. destruct (cl_current t) as [[c' p']|] eqn:Et; [|done].
    destruct Ht as (Hf' & Hp' & Hs' & Hr').
    destruct (c_writes c) eqn:Ec.
    { exfalso. assert (Hidle : idle t) by (eapply (Hex i j); [exact Hi|exact Hj|unfold not_writing; simpl; congruence|done]).
      unfold idle in Hidle. congruence. }
    assert (Hsl : same sl' sl).
    { unfold fair_call in Hfair. rewrite Ec in Hfair. pose proof (reading_run (c_body c) sl Hfair) as Hrun. by rewrite Er in Hrun. }
    destruct (respectful_run (c_body c') sl' sl (fair_respectful _ Hf') Hsl) as [H1 H2].
    split_and!; [done|done|by rewrite H1|by rewrite H2].
  - intros j k t t' Hj Hk Hw Hne.
    apply insert_lookup_cases in Hj as [[-> ->]|[_ Hj]]; [by exfalso; apply Hw|].
    apply insert_lookup_cases in Hk as [[-> ->]|[_ Hk]]; [done|exact (Hex j k t t' Hj Hk Hw Hne)].
  - intros j t Hj. rewrite calls_of_snoc. apply insert_lookup_cases in Hj as [[-> ->]|[Hne Hj]].
    + rewrite decide_True by done. rewrite (Hord i _ Hi). cbn. by rewrite <- app_assoc.
    + rewrite decide_False by done. rewrite app_nil_r. by apply Hord.
Qed.

Lemma invariant_step sys sys' : step sys sys' → invariant sys → invariant sys'.
Proof.
  intros []; [by apply invariant_lock|by apply invariant_access|by apply invariant_unlock].
Qed.

Lemma invariant_reachable sys : rtc step start sys → invariant sys.
Proof.
  intros Hr. pose proof invariant_start as Hi. revert Hi. induction Hr as [sys|sys1 sys2 sys3 Hs _ IH]; [done|].
  intros Hi. apply IH. by eapply invariant_step.
Qed.

(** When no call is under way, the results are those of the finished calls one
    after the other, the state is equivalent to the one after them, and every
    client has made its calls in order. *)
Lemma serializable sys : rtc step start sys → Forall idle (sys_clients sys) →
  let '(s, rs) := run_calls (logged_calls (sys_log sys)) s0 in
  results (sys_log sys) = rs ∧ same (sys_state sys) s ∧
  ∀ i t, sys_clients sys !! i = Some t → initial !! i = Some (calls_of i (sys_log sys) ++ cl_todo t).
Proof.
  intros Hr Hidle. destruct (invariant_reachable sys Hr) as [Hres Hst _ _ Hord].
  destruct (run_calls (logged_calls (sys_log sys)) s0) as [s rs]. simpl in *. split_and!; [done| |].
  - apply Hst. eapply Forall_impl; [exact Hidle|apply idle_not_writing].
  - intros i t Ht. rewrite Forall_lookup in Hidle. specialize (Hidle i t Ht). specialize (Hord i t Ht).
    unfold current_call, idle in *. by rewrite Hidle in Hord.
Qed.

(** *** The clients never wait for each other forever *)

Definition finished (t : client) : Prop := cl_todo t = [] ∧ idle t.

Lemma progress sys : rtc step start sys → (∃ i t, sys_clients sys !! i = Some t ∧ ¬ finished t) → ∃ sys', step sys sys'.
Proof.
  intros _ (i & t & Hi & Hf). destruct sys as [s l log]. simpl in Hi.
  destruct (decide (Exists (λ t, is_Some (cl_current t)) l)) as [Hex|Hnone].
  - apply Exists_exists in Hex as (t' & Ht' & [[c p] Hc]). apply list_elem_of_lookup in Ht' as [j Hj].
    destruct t' as [todo cur]. simpl in Hc. subst cur.
    destruct p as [r|access next]; eexists; [by eapply step_unlock|by eapply step_access].
  - assert (Hidle : Forall idle l).
    { apply Forall_forall. intros t' Ht'. unfold idle. destruct (cl_current t') eqn:E; [|done].
      exfalso. apply Hnone. apply Exists_exists. exists t'. split; [done|by eexists]. }
    assert (Hit : idle t) by (rewrite Forall_lookup in Hidle; by apply (Hidle i)).
    destruct t as [[|c rest] cur]; unfold finished, idle in *; simpl in *; subst; [by exfalso; apply Hf|].
    eexists. eapply step_lock; [exact Hi|]. destruct (c_writes c); [done|].
    eapply Forall_impl; [exact Hidle|apply idle_not_writing].
Qed.
End Lock.
