(* ===== verification/MemoryConcurrency.v ===== *)
(** * The in-memory database under concurrent clients
    (src/adapters/dalgo2memory/database.go)

    Every method of the database locks [db.mu], for reading or for writing, and
    runs an operation of a session; a transaction holds the lock while its
    worker runs.  Readers still create engines, under a lock of their own, so
    several readers change the map of engines at the same time: they do it
    without any client being able to tell. *)

From Stdlib Require Import String.
From stdpp Require Import base gmap sets list strings relations.
From S2P Require Import Prelude GoValues GoMaps GoStrings GoJSON RecordKey DalQuery DalString DalReader.
From S2P Require Import RecordsetRows.
From S2P Require Import MemoryRows MemoryQuery MemoryUpdate MemoryEngine MemorySession MemoryPivot MemorySessionLaws RWLock MemoryExamples.

Local Open Scope string_scope.
Local Open Scope nat_scope.
Local Open Scope list_scope.
Set Warnings "-register-all".

(** ** Programs that may fail *)

Section Programs.
Context {S : Type}.
Notation P A := (prog S (res mem_error A)).

(** An operation as one access. *)
Definition p_lift {A} (m : M S A) : P A := Act (λ s, (m s).1) (λ s, Done (m s).2).
Definition p_ret {A} (a : A) : P A := Done (Ret a).
Definition p_bind {A B} (p : P A) (k : A → P B) : P B :=
  prog_bind p (λ r, match r with Ret a => k a | Fail e => Done (Fail e) | Panic msg => Done (Panic msg) end).

(** The program does what the operation does. *)
Definition runs {A} (p : P A) (m : M S A) : Prop := ∀ s, run_prog p s = m s.

Lemma runs_lift {A} (m : M S A) : runs (p_lift m) m.
Proof. intros s. simpl. by destruct (m s). Qed.
Lemma runs_ret {A} (a : A) : runs (p_ret a) (mret a).
Proof. done. Qed.
Lemma runs_bind {A B} (p : P A) (k : A → P B) m f : runs p m → (∀ a, runs (k a) (f a)) → runs (p_bind p k) (mbind m f).
Proof.
  intros Hp Hk s. unfold p_bind, mbind. rewrite run_prog_bind, (Hp s).
  destruct (m s) as [s' [a|e|msg]]; [apply Hk|done..].
Qed.
End Programs.
Notation "'pdo' x <- p ; k" := (p_bind p (λ x, k))
  (at level 10, x binder, p at level 100, k at level 200) : dalgo_scope.
#[export] Hint Resolve runs_lift runs_ret runs_bind : dalgo.

Section Database.
Context `{GoFmt, GoJSON, Decoders}.
Context {E : Type} `{StorageEngine E}.
Context (objects : key_objects) (cfg : config (E:=E)).
Context (NewKeyWithID : string → string → key) (random_string_key : nat → res mem_error value).

Notation state := (state (E:=E)).
Notation P A := (prog state (res mem_error A)).

(** ** Reads, access by access

    The state is accessed where a session looks at its transaction and where it
    looks up an engine. *)

Definition pExists (k : key) : P bool :=
  pdo _ <- p_lift allowRead; pdo e <- p_lift (engine cfg (Collection k)); p_ret (exists_ e (keyID k)).

Definition pGet (k : key) (target : value) : P value :=
  pdo _ <- p_lift allowRead;
  pdo _ <- p_lift (mlift (guardCollection cfg (Collection k)));
  pdo e <- p_lift (engine cfg (Collection k));
  p_lift (mlift (load e (keyID k) target)).

Definition p_get_or_missing (k : key) (target : value) : P (option value) :=
  prog_bind (pGet k target) (λ r, Done match r with
    | Ret v => Ret (Some v)
    | Fail not_found => Ret None
    | Fail err => Fail err
    | Panic msg => Panic msg
    end).

Fixpoint p_get_all (records : list (key * value)) : P (list (option value)) :=
  match records with
  | [] => p_ret []
  | (k, target) :: rest =>
      pdo v <- p_get_or_missing k target; pdo vs <- p_get_all rest; p_ret (v :: vs)
  end.

Definition pGetMulti (records : list (key * value)) : P (list (option value)) :=
  pdo _ <- p_lift allowRead; p_get_all records.

Definition p_loadRows (collection : string) : P (list memoryRow) :=
  pdo e <- p_lift (engine cfg collection); p_lift (mlift (rows e)).

Definition p_loadCandidateRows (collection : string) (condition : option Condition) : P (list memoryRow) :=
  pdo e <- p_lift (engine cfg collection);
  pdo candidates <- p_lift (mlift (candidate_rows e condition));
  match candidates with Some rs => p_ret rs | None => p_lift (mlift (rows e)) end.

Definition p_executeJoinQuery (q : structuredQuery) (from : FromSource) : P (list result_record) :=
  pdo join <- p_lift (mlift (joinPlan q from));
  pdo baseRows <- p_loadRows (source_Name (from_Base from));
  pdo joinRows <- p_loadRows (source_Name (join_source join));
  p_lift (mlift (executeJoin NewKeyWithID q (from_Base from) join baseRows joinRows)).

Definition pExecuteQueryToRecordsReader (query : Query) : P (list result_record) :=
  pdo _ <- p_lift allowRead;
  match query with
  | StructuredQuery q =>
      match q_from q with
      | None => p_lift (mlift (Panic nil_dereference))
      | Some from =>
          if 0 <? length (from_Joins from) then p_executeJoinQuery q from
          else
            let base := from_Base from in
            pdo factory <- p_lift (mlift (recordFactory cfg (source_Name base)));
            pdo allRows <- p_loadCandidateRows (source_Name base) (q_where q);
            p_lift (mlift (executeQuery NewKeyWithID Unmarshal_into q base factory allRows))
      end
  | _ => p_lift (mfail not_supported)
  end.

Definition pExecuteQueryToRecordsetReader (ctx : context) (query : Query) (options : list Option_) : P columnarReader :=
  pdo _ <- p_lift allowRead;
  match query with
  | StructuredQuery q =>
      pdo records <- pExecuteQueryToRecordsReader query;
      p_lift (mlift (default (Panic "out of fuel")
        (buildRecordsetReader ctx q slice_reader (NewRecordsReader (Some records)) (Datatypes.S (length records)) options)))
  | _ => p_lift (mfail not_supported)
  end.

Lemma runs_Exists k : runs (pExists k) (Exists cfg k).
Proof. unfold pExists, Exists. auto 10 with dalgo. Qed.

Lemma runs_Get k target : runs (pGet k target) (Get cfg k target).
Proof. unfold pGet, Get. auto 10 with dalgo. Qed.

Lemma runs_get_all records : runs (p_get_all records) (get_all cfg records).
Proof.
  induction records as [|[k target] rest IH]; simpl; [auto with dalgo|].
  apply runs_bind; [|auto with dalgo]. intros s. unfold p_get_or_missing, get_or_missing.
  rewrite run_prog_bind, (runs_Get k target s). destruct (Get cfg k target s) as [s' [v|e|msg]]; [done| |done]. by destruct e.
Qed.
#[local] Hint Resolve runs_get_all : dalgo.

Lemma runs_GetMulti records : runs (pGetMulti records) (GetMulti cfg records).
Proof. unfold pGetMulti, GetMulti. auto with dalgo. Qed.

Lemma runs_loadRows c : runs (p_loadRows c) (loadRows cfg c).
Proof. unfold p_loadRows, loadRows. auto with dalgo. Qed.

Lemma runs_loadCandidateRows c condition : runs (p_loadCandidateRows c condition) (loadCandidateRows cfg c condition).
Proof.
  unfold p_loadCandidateRows, loadCandidateRows. apply runs_bind; [auto with dalgo|]. intros e.
  apply runs_bind; [auto with dalgo|]. intros [rs|]; auto with dalgo.
Qed.
#[local] Hint Resolve runs_loadRows runs_loadCandidateRows : dalgo.

Lemma runs_ExecuteQuery query :
  runs (pExecuteQueryToRecordsReader query) (ExecuteQueryToRecordsReader cfg NewKeyWithID query).
Proof.
  unfold pExecuteQueryToRecordsReader, ExecuteQueryToRecordsReader. apply runs_bind; [auto with dalgo|]. intros _.
  destruct query as [q| |]; [|auto with dalgo..]. destruct (q_from q) as [from|]; [|auto with dalgo].
  destruct (0 <? length (from_Joins from)).
  - unfold p_executeJoinQuery, executeJoinQuery. auto 20 with dalgo.
  - apply runs_bind; [auto with dalgo|]. intros factory. apply runs_bind; auto with dalgo.
Qed.

Lemma runs_ExecuteQueryToRecordset ctx query options :
  runs (pExecuteQueryToRecordsetReader ctx query options) (ExecuteQueryToRecordsetReader cfg NewKeyWithID ctx query options).
Proof.
  unfold pExecuteQueryToRecordsetReader, ExecuteQueryToRecordsetReader. apply runs_bind; [auto with dalgo|]. intros _.
  destruct query as [q| |]; [|auto with dalgo..]. apply runs_bind; [apply runs_ExecuteQuery|auto with dalgo].
Qed.

(** ** The methods of the database *)

(** The result of a call, of whatever type it is. *)
Inductive answer :=
| AnBool (r : res mem_error bool)
| AnValue (r : res mem_error value)
| AnValues (r : res mem_error (list (option value)))
| AnRecords (r : res mem_error (list result_record))
| AnRecordset (r : res mem_error columnarReader)
| AnKey (r : res mem_error key)
| AnUnit (r : res mem_error unit).

Definition p_map {A B} (f : A → B) (p : prog state A) : prog state B := prog_bind p (λ a, Done (f a)).

Definition session_read (op : read_op) : prog state answer :=
  match op with
  | OpExists k => p_map AnBool (pExists k)
  | OpGet k target => p_map AnValue (pGet k target)
  | OpGetMulti records => p_map AnValues (pGetMulti records)
  | OpQuery query => p_map AnRecords (pExecuteQueryToRecordsReader query)
  | OpRecordset ctx query options => p_map AnRecordset (pExecuteQueryToRecordsetReader ctx query options)
  end.

(** A writer is alone: its operation is one access. *)
Definition session_write (op : write_op) : prog state answer :=
  match op with
  | OpSet k data => p_map AnUnit (p_lift (Set_ cfg k data))
  | OpSetMulti records => p_map AnUnit (p_lift (SetMulti cfg records))
  | OpInsert k data options => p_map AnKey (p_lift (Insert objects cfg random_string_key k data options))
  | OpInsertMulti records options => p_map AnUnit (p_lift (InsertMulti objects cfg random_string_key records options))
  | OpDelete k => p_map AnUnit (p_lift (Delete cfg k))
  | OpDeleteMulti keys => p_map AnUnit (p_lift (DeleteMulti cfg keys))
  | OpUpdate k updates => p_map AnUnit (p_lift (Update_ cfg k updates))
  | OpUpdateMulti keys updates => p_map AnUnit (p_lift (UpdateMulti cfg keys updates))
  end.

(** The worker of a transaction: its calls depend on the answers before. *)
Inductive worker (Op W : Type) :=
| w_return (w : W)
| w_call (op : Op) (next : answer → worker Op W).
Arguments w_return {Op W} w.
Arguments w_call {Op W} op next.

Fixpoint run_worker {Op W} (session : Op → prog state answer) (w : worker Op W) : prog state W :=
  match w with
  | w_return w => Done w
  | w_call op next => prog_bind (session op) (λ a, run_worker session (next a))
  end.

Definition session_op (op : read_op + write_op) : prog state answer :=
  match op with inl r => session_read r | inr w => session_write w end.

Context {W : Type}.

Inductive db_call :=
| DbRead (op : read_op)
| DbWrite (op : write_op)
| DbRunReadonlyTransaction (f : worker read_op W)
| DbRunReadwriteTransaction (f : worker (read_op + write_op) W).

(** A session of the transaction, with its state, and the end of it. *)
Definition begin_tx : state → state := λ s,
  mkState (db_collections s) (Some (mkTx (db_noReadsAfterWritesInTransaction cfg) false)).
Definition end_tx : state → state := λ s, mkState (db_collections s) None.

Definition in_tx {X} (p : prog state X) : prog state X :=
  Act begin_tx (λ _, prog_bind p (λ x, Act end_tx (λ _, Done x))).

Definition body_of (c : db_call) : prog state (answer + W) :=
  match c with
  | DbRead op => p_map inl (session_read op)
  | DbWrite op => p_map inl (session_write op)
  | DbRunReadonlyTransaction f => p_map inr (run_worker session_read f)
  | DbRunReadwriteTransaction f => p_map inr (in_tx (run_worker session_op f))
  end.

(** [db.mu.RLock] or [db.mu.Lock] *)
Definition takes_write_lock (c : db_call) : bool :=
  match c with DbRead _ | DbRunReadonlyTransaction _ => false | DbWrite _ | DbRunReadwriteTransaction _ => true end.

Definition locked_call (c : db_call) : call (S := state) (R := answer + W) := mkCall (takes_write_lock c) (body_of c).
End Database.
Arguments worker {_} Op W.
Arguments w_return {_ Op W} w.
Arguments w_call {_ Op W} op next.

(** ** What clients can tell apart *)

Section Serializable.
Context `{GoFmt, GoJSON, Decoders}.
Context {E : Type} `{StorageEngine E}.
Context (objects : key_objects) (cfg : config (E:=E)).
Context (NewKeyWithID : string → string → key) (random_string_key : nat → res mem_error value).

Notation state := (state (E:=E)).

(** An engine that was created is the one that would be. *)
Definition same_state (s s' : state) : Prop :=
  txState s = txState s' ∧ ∀ c, engine_of cfg s c = engine_of cfg s' c.

#[export] Instance same_state_equivalence : Equivalence same_state.
Proof.
  split.
  - by intros s.
  - intros s s' [Ht He]. by split.
  - intros s1 s2 s3 [Ht1 He1] [Ht2 He2]. split; [congruence|]. intros c. by rewrite He1.
Qed.

#[export] Instance engine_of_proper : Proper (same_state ==> eq ==> eq) (engine_of cfg).
Proof. intros s s' [_ He] c _ <-. apply He. Qed.

(** *** Writers cannot tell *)

Definition compatible {A} (m : M state A) : Prop :=
  ∀ s s', same_state s s' → same_state (m s).1 (m s').1 ∧ (m s).2 = (m s').2.

Lemma compatible_ret {A} (a : A) : compatible (mret a).
Proof. by intros s s' Hs. Qed.
Lemma compatible_fail {A} e : compatible (mfail (A := A) e).
Proof. by intros s s' Hs. Qed.
Lemma compatible_lift {A} (r : res mem_error A) : compatible (mlift r).
Proof. by intros s s' Hs. Qed.
Lemma compatible_bind {A B} (m : M state A) (k : A → M state B) :
  compatible m → (∀ a, compatible (k a)) → compatible (mbind m k).
Proof.
  intros Hm Hk s s' Hs. unfold mbind. destruct (Hm s s' Hs) as [Hq1 Hq2].
  destruct (m s) as [t r], (m s') as [t' r']. simpl in *. subst r'. destruct r as [a|e|msg]; [by apply Hk|done..].
Qed.
#[local] Hint Resolve compatible_ret compatible_fail compatible_lift compatible_bind : dalgo.

Lemma compatible_seq {A} (f : A → M state unit) l : (∀ x, compatible (f x)) → compatible (mseq f l).
Proof. intros Hf. induction l as [|x l IH]; simpl; auto with dalgo. Qed.
#[local] Hint Resolve compatible_seq : dalgo.

(** Looking up an engine changes nothing that can be told. *)
Lemma engine_same s c : same_state (engine cfg c s).1 s.
Proof.
  unfold engine, same_state, engine_of. destruct (db_collections s !! c) as [e|] eqn:Hc; [done|]. split; [done|].
  intros c'. simpl. destruct (decide (c' = c)) as [->|Hne]; [by rewrite lookup_insert_eq, Hc|by rewrite lookup_insert_ne].
Qed.

Lemma engine_answer s c : (engine cfg c s).2 = Ret (engine_of cfg s c).
Proof. unfold engine, engine_of. by destruct (db_collections s !! c). Qed.

Lemma compatible_engine c : compatible (engine cfg c).
Proof.
  intros s s' Hs. rewrite !engine_answer. split; [by rewrite !engine_same|by rewrite Hs].
Qed.

Lemma compatible_put c e : compatible (put_engine (E:=E) c e).
Proof.
  intros s s' [Ht He]. split; [|done]. split; [done|]. intros c'. unfold engine_of, put_engine. simpl.
  destruct (decide (c' = c)) as [->|Hne]; [by rewrite !lookup_insert_eq|]. rewrite !lookup_insert_ne by done. apply He.
Qed.

Lemma compatible_allowRead : compatible (allowRead (E:=E)).
Proof.
  intros s s' Hs. pose proof Hs as [Ht _]. unfold allowRead. rewrite <- Ht.
  destruct (txState s) as [tx|]; [by destruct (noReadsAfterWrites tx && hasWritten tx)|done].
Qed.

Lemma compatible_markWrite : compatible (markWrite (E:=E)).
Proof. intros s s' [Ht He]. split; [|done]. split; [simpl; by rewrite Ht|exact He]. Qed.
#[local] Hint Resolve compatible_engine compatible_put compatible_allowRead compatible_markWrite : dalgo.

Lemma compatible_change c f : compatible (change cfg c f).
Proof. unfold change. auto 10 with dalgo. Qed.
#[local] Hint Resolve compatible_change : dalgo.

Lemma compatible_save k data b : compatible (save cfg k data b).
Proof. unfold save. auto 10 with dalgo. Qed.
#[local] Hint Resolve compatible_save : dalgo.

(** New engines point to no keys: an engine that is created after an
    assignment is the one that was there before it. *)
Context (Hnew : keyless_engines cfg).

Lemma compatible_assign k id : compatible (assign (E:=E) objects k id).
Proof.
  intros s s' [Ht He]. split; [|done]. split; [exact Ht|]. intros c. unfold engine_of. simpl. rewrite !lookup_fmap.
  specialize (He c). unfold engine_of in He.
  destruct (db_collections s !! c) as [e|], (db_collections s' !! c) as [e'|]; simpl in *; subst;
    rewrite ?(Hnew _ c); done.
Qed.
#[local] Hint Resolve compatible_assign : dalgo.

Lemma compatible_generate g n i k now data : compatible (generate_and_insert objects cfg g n i k now data).
Proof.
  revert i k now. induction n as [|n IH]; intros i k now; simpl; [auto with dalgo|].
  destruct (g i) as [id|e|msg]; [|auto with dalgo..].
  apply compatible_bind; [auto with dalgo|]. intros _. apply compatible_bind; [auto with dalgo|].
  intros e. case_match; auto with dalgo.
Qed.
#[local] Hint Resolve compatible_generate : dalgo.

Lemma compatible_insert_key k data options : compatible (insert_key objects cfg random_string_key k data options).
Proof. unfold insert_key. destruct (generator random_string_key options); repeat (apply compatible_bind; [auto with dalgo|intros ?]); auto with dalgo. Qed.
#[local] Hint Resolve compatible_insert_key : dalgo.

Lemma compatible_Insert k data options : compatible (Insert objects cfg random_string_key k data options).
Proof. unfold Insert. auto with dalgo. Qed.
#[local] Hint Resolve compatible_Insert : dalgo.

Lemma compatible_insert_all now records options : compatible (insert_all objects cfg random_string_key now records options).
Proof. revert now. induction records as [|[k data] rest IH]; intros now; simpl; auto with dalgo. Qed.
#[local] Hint Resolve compatible_insert_all : dalgo.

(** *** Accesses *)

Lemma respectful_map {A B} (f : A → B) (p : prog state A) : respectful same_state p → respectful same_state (p_map f p).
Proof.
  intros Hp. unfold p_map. induction Hp as [r|access next Ha Hr IH]; simpl; constructor; [|done].
  intros s s' Hs. destruct (Ha s s' Hs) as [Hq1 Hq2]. by rewrite Hq2.
Qed.

Lemma respectful_bind {A B} (p : prog state A) (k : A → prog state B) :
  respectful same_state p → (∀ a, respectful same_state (k a)) → respectful same_state (prog_bind p k).
Proof.
  intros Hp Hk. induction Hp as [r|access next Ha Hr IH]; simpl; [apply Hk|]. constructor; [|done].
  intros s s' Hs. destruct (Ha s s' Hs) as [Hq1 Hq2]. by rewrite Hq2.
Qed.

Lemma respectful_lift {A} (m : M state A) : compatible m → respectful same_state (p_lift m).
Proof. intros Hm. constructor; [|by constructor]. intros s s' Hs. destruct (Hm s s' Hs) as [Hq1 Hq2]. by rewrite Hq2. Qed.

Lemma respectful_write op : respectful same_state (session_write objects cfg random_string_key op).
Proof.
  destruct op; apply respectful_map, respectful_lift;
    unfold Set_, SetMulti, InsertMulti, Delete, DeleteMulti, Update_, UpdateMulti, UpdateRecord; auto 10 with dalgo.
  - apply compatible_seq. intros x. unfold Set_. auto 10 with dalgo.
  - apply compatible_seq. intros x. unfold Delete. auto 10 with dalgo.
  - apply compatible_seq. intros x. unfold Update_, UpdateRecord. auto 10 with dalgo.
Qed.

(** *** Readers leave no trace *)

Lemma reading_lift {A} (m : M state A) : compatible m → (∀ s, same_state (m s).1 s) → reading same_state (p_lift m).
Proof. intros Hm Hs. constructor; [done| |by constructor]. intros s s' Hss. destruct (Hm s s' Hss) as [_ Hq2]. by rewrite Hq2. Qed.

Lemma reading_p_bind {A B} (p : prog state (res mem_error A)) (k : A → prog state (res mem_error B)) :
  reading same_state p → (∀ a, reading same_state (k a)) → reading same_state (p_bind p k).
Proof. intros Hp Hk. apply reading_bind; [done|]. intros [a|e|msg]; [apply Hk|constructor..]. Qed.

Lemma reading_p_ret {A} (a : A) : reading same_state (p_ret a).
Proof. constructor. Qed.
Lemma reading_engine c : reading same_state (p_lift (engine cfg c)).
Proof. apply reading_lift; [apply compatible_engine|]. intros s. apply engine_same. Qed.
Lemma reading_allowRead : reading same_state (p_lift (allowRead (E:=E))).
Proof.
  apply reading_lift; [apply compatible_allowRead|]. intros s. unfold allowRead.
  destruct (txState s) as [tx|]; [by destruct (noReadsAfterWrites tx && hasWritten tx)|done].
Qed.
Lemma reading_pure {A} (r : res mem_error A) : reading same_state (p_lift (mlift r)).
Proof. apply reading_lift; [apply compatible_lift|done]. Qed.
Lemma reading_fail {A} e : reading same_state (p_lift (mfail (A := A) e)).
Proof. apply reading_lift; [apply compatible_fail|done]. Qed.
#[local] Hint Resolve reading_p_bind reading_p_ret reading_engine reading_allowRead reading_pure reading_fail : dalgo.

Lemma reading_Get k target : reading same_state (pGet cfg k target).
Proof. unfold pGet. auto 10 with dalgo. Qed.
#[local] Hint Resolve reading_Get : dalgo.

Lemma reading_get_all records : reading same_state (p_get_all cfg records).
Proof.
  induction records as [|[k target] rest IH]; simpl; [auto with dalgo|]. apply reading_p_bind; [|auto with dalgo].
  unfold p_get_or_missing. apply reading_bind; [auto with dalgo|]. constructor.
Qed.

Lemma reading_loadRows c : reading same_state (p_loadRows cfg c).
Proof. unfold p_loadRows. auto with dalgo. Qed.
Lemma reading_loadCandidateRows c condition : reading same_state (p_loadCandidateRows cfg c condition).
Proof.
  unfold p_loadCandidateRows. apply reading_p_bind; [auto with dalgo|]. intros e.
  apply reading_p_bind; [auto with dalgo|]. intros [rs|]; auto with dalgo.
Qed.
#[local] Hint Resolve reading_loadRows reading_loadCandidateRows : dalgo.

Lemma reading_ExecuteQuery query : reading same_state (pExecuteQueryToRecordsReader cfg NewKeyWithID query).
Proof.
  unfold pExecuteQueryToRecordsReader. apply reading_p_bind; [auto with dalgo|]. intros _.
  destruct query as [q| |]; [|auto with dalgo..]. destruct (q_from q) as [from|]; [|auto with dalgo].
  destruct (0 <? length (from_Joins from)); [unfold p_executeJoinQuery; auto 20 with dalgo|auto 10 with dalgo].
Qed.

Lemma reading_ExecuteQueryToRecordset ctx query options :
  reading same_state (pExecuteQueryToRecordsetReader cfg NewKeyWithID ctx query options).
Proof.
  unfold pExecuteQueryToRecordsetReader. apply reading_p_bind; [auto with dalgo|]. intros _.
  destruct query as [q| |]; [|auto with dalgo..]. apply reading_p_bind; [apply reading_ExecuteQuery|auto with dalgo].
Qed.

Lemma reading_read op : reading same_state (session_read cfg NewKeyWithID op).
Proof.
  destruct op; simpl; unfold p_map; (apply reading_bind; [|constructor]).
  - unfold pExists. auto 10 with dalgo.
  - auto with dalgo.
  - unfold pGetMulti. apply reading_p_bind; [auto with dalgo|]. intros _. apply reading_get_all.
  - apply reading_ExecuteQuery.
  - apply reading_ExecuteQueryToRecordset.
Qed.

Lemma reading_worker {W} (f : worker read_op W) : reading same_state (run_worker (session_read cfg NewKeyWithID) f).
Proof.
  induction f as [w|op next IH]; simpl; [constructor|]. apply reading_bind; [apply reading_read|exact IH].
Qed.

Lemma respectful_worker {W} (f : worker (read_op + write_op) W) :
  respectful same_state (run_worker (session_op objects cfg NewKeyWithID random_string_key) f).
Proof.
  induction f as [w|op next IH]; simpl; [constructor|]. apply respectful_bind; [|exact IH].
  destruct op as [r|w]; [apply reading_respectful; [apply _|apply reading_read]|apply respectful_write].
Qed.

Lemma respectful_in_tx {X} (p : prog state X) : respectful same_state p → respectful same_state (in_tx cfg p).
Proof.
  intros Hp. constructor; [|intros _; apply respectful_bind; [done|]].
  - intros s s' [_ He]. split; [|done]. by split.
  - intros x. constructor; [|constructor]. intros s s' [_ He]. split; [|done]. by split.
Qed.

Lemma fair_locked {W} (c : db_call (W := W)) :
  fair_call same_state (locked_call objects cfg NewKeyWithID random_string_key c).
Proof.
  destruct c as [op|op|f|f]; unfold fair_call; simpl.
  - apply reading_bind; [apply reading_read|constructor].
  - apply respectful_map, respectful_write.
  - apply reading_bind; [apply reading_worker|constructor].
  - apply respectful_map, respectful_in_tx, respectful_worker.
Qed.

(** A read call alone is the session's operation. *)
Lemma session_read_runs op s :
  run_prog (session_read cfg NewKeyWithID op) s =
  match op with
  | OpExists k => let '(s', r) := Exists cfg k s in (s', AnBool r)
  | OpGet k target => let '(s', r) := Get cfg k target s in (s', AnValue r)
  | OpGetMulti records => let '(s', r) := GetMulti cfg records s in (s', AnValues r)
  | OpQuery query => let '(s', r) := ExecuteQueryToRecordsReader cfg NewKeyWithID query s in (s', AnRecords r)
  | OpRecordset ctx query options =>
      let '(s', r) := ExecuteQueryToRecordsetReader cfg NewKeyWithID ctx query options s in (s', AnRecordset r)
  end.
Proof.
  destruct op as [k|k target|records|query|ctx query options]; unfold session_read, p_map; rewrite run_prog_bind;
    [rewrite (runs_Exists cfg k s)|rewrite (runs_Get cfg k target s)|rewrite (runs_GetMulti cfg records s)
    |rewrite (runs_ExecuteQuery cfg NewKeyWithID query s)|rewrite (runs_ExecuteQueryToRecordset cfg NewKeyWithID ctx query options s)]; reflexivity.
Qed.
End Serializable.

(** C6: however the calls of concurrent clients interleave under the lock of
    the database, once none is under way the results are those of the same
    calls made one after the other, in the order in which they gave the lock
    back, which for every client is the order of its calls; and the engines,
    those that readers created included, are the ones after those calls.  New
    engines hold no keys, as those of the adapter ([memory_engines_keyless]). *)
Theorem database_serializes `{GoFmt, GoJSON, Decoders} {E} `{StorageEngine E} {W}
    objects (cfg : config (E:=E)) NewKeyWithID random_string_key
    (clients : list (list (db_call (W := W)))) (s0 : state (E:=E)) sys :
  let calls := map (map (locked_call objects cfg NewKeyWithID random_string_key)) clients in
  keyless_engines cfg → rtc step (start calls s0) sys → Forall idle (sys_clients sys) →
  let '(s, rs) := run_calls (logged_calls (sys_log sys)) s0 in
  results (sys_log sys) = rs ∧ (∀ c, engine_of cfg (sys_state sys) c = engine_of cfg s c) ∧
  ∀ i t, sys_clients sys !! i = Some t → calls !! i = Some (calls_of i (sys_log sys) ++ cl_todo t).
Proof.
  intros calls Hnew Hr Hidle.
  assert (Hfair : Forall (Forall (fair_call (same_state cfg))) calls).
  { apply Forall_forall. intros cs Hcs. apply list_elem_of_fmap in Hcs as (l & -> & _).
    apply Forall_forall. intros c Hc. apply list_elem_of_fmap in Hc as (d & -> & _). by apply fair_locked. }
  pose proof (serializable (same_state cfg) calls s0 Hfair sys Hr Hidle) as Hs.
  destruct (run_calls (logged_calls (sys_log sys)) s0) as [s rs]. destruct Hs as (Hres & [_ Hst] & Hord).
  by split_and!.
Qed.

(** No schedule gets stuck while a client has something to do. *)
Lemma database_progress `{GoFmt, GoJSON, Decoders} {E} `{StorageEngine E} {W}
    objects (cfg : config (E:=E)) NewKeyWithID random_string_key
    (clients : list (list (db_call (W := W)))) (s0 : state (E:=E)) sys :
  rtc step (start (map (map (locked_call objects cfg NewKeyWithID random_string_key)) clients) s0) sys →
  (∃ i t, sys_clients sys !! i = Some t ∧ ¬ finished t) → ∃ sys', step sys sys'.
Proof. apply progress. Qed.

Module ConcurrencyExamples.
#[local] Existing Instance plain_fmt.
#[local] Existing Instance plain_json.
#[local] Existing Instance plain_decoders.
#[local] Existing Instance chain_keys.
Import MemoryExamples.

Definition no_keys (collection id : string) : key (RecordKeys:=chain_keys) := ChainKey collection (vstr id) None.

(** A reader and a writer. *)
Definition two_clients : list (list (db_call (W := unit))) :=
  [[DbRead (OpExists (new_key "users" "a"))]; [DbWrite (OpSet (new_key "users" "a") (vmap ann))]].
Definition two_calls : list (list (call (S := state (E:=serializedEngine)) (R := answer + unit))) :=
  map (map (locked_call own_objects (schemaless false) no_keys no_ids)) two_clients.

Lemma schemaless_keyless rule : keyless_engines (schemaless rule).
Proof. intros f c. unfold new_engine. simpl. unfold s_rekey, newSerializedEngine. simpl. by rewrite fmap_empty. Qed.

Lemma two_clients_run : ∃ sys, rtc step (start two_calls (mkState ∅ None)) sys ∧ Forall idle (sys_clients sys) ∧ length (sys_log sys) = 2.
Proof.
  eexists. split.
  - eapply rtc_l; [eapply (step_lock _ _ _ 0); [reflexivity|repeat constructor]|].
    eapply rtc_l; [eapply (step_access _ _ _ 0); reflexivity|].
    eapply rtc_l; [eapply (step_access _ _ _ 0); reflexivity|].
    eapply rtc_l; [eapply (step_unlock _ _ _ 0); reflexivity|].
    eapply rtc_l; [eapply (step_lock _ _ _ 1); [reflexivity|repeat constructor]|].
    eapply rtc_l; [eapply (step_access _ _ _ 1); reflexivity|].
    eapply rtc_l; [eapply (step_unlock _ _ _ 1); reflexivity|]. apply rtc_refl.
  - split; [repeat constructor|reflexivity].
Qed.

Lemma database_serializes_witness : ∃ sys,
  rtc step (start two_calls (mkState ∅ None)) sys ∧ length (sys_log sys) = 2 ∧
  let '(s, rs) := run_calls (logged_calls (sys_log sys)) (mkState ∅ None) in
  results (sys_log sys) = rs ∧ (∀ c, engine_of (schemaless false) (sys_state sys) c = engine_of (schemaless false) s c) ∧
  ∀ i t, sys_clients sys !! i = Some t → two_calls !! i = Some (calls_of i (sys_log sys) ++ cl_todo t).
Proof.
  destruct two_clients_run as (sys & Hr & Hidle & Hl). exists sys. split; [exact Hr|]. split; [exact Hl|].
  exact (database_serializes own_objects (schemaless false) no_keys no_ids two_clients (mkState ∅ None) sys (schemaless_keyless false) Hr Hidle).
Defined.

End ConcurrencyExamples.
