(* ===== verification/AccessOperation.v ===== *)
(** * Operation sets of access policies (src/access/operation.go)

    [Operations] is a [uint16] bit set: an integer of [0, 2^16) with Go's
    wrapping subtraction; [&], [|] and [&^] are [Z.land], [Z.lor], [Z.ldiff]. *)

From Stdlib Require Import String.
From stdpp Require Import base sets list strings pretty.
From S2P Require Import Prelude GoValues GoStrings.

Local Open Scope string_scope.
Local Open Scope Z_scope.
Local Open Scope list_scope.

Abbreviation Operations := Z (only parsing).

Definition uint16 (z : Z) : Z := z mod 2 ^ 16.

Definition Get : Operations := 1.
Definition Exists : Operations := 2.
Definition Query : Operations := 4.
Definition Insert : Operations := 8.
Definition OpSet : Operations := 16.
Definition Update : Operations := 32.
Definition Delete : Operations := 64.
Definition Truncate : Operations := 128.

Definition Read : Operations := Z.lor (Z.lor Get Exists) Query.
Definition Write : Operations :=
  Z.lor (Z.lor (Z.lor (Z.lor Insert OpSet) Update) Delete) Truncate.
Definition ReadWrite : Operations := Z.lor Read Write.

Definition knownOperations : Operations := ReadWrite.

Definition operationNames : list (Operations * string) :=
  [(Get, "get"); (Exists, "exists"); (Query, "query"); (Insert, "insert");
   (OpSet, "set"); (Update, "update"); (Delete, "delete"); (Truncate, "truncate")].

Definition validLeaf (o : Operations) : bool :=
  negb (o =? 0) && (Z.land o knownOperations =? o) && (Z.land o (uint16 (o - 1)) =? 0).

Definition contains (o operation : Operations) : bool :=
  validLeaf operation && negb (Z.land o operation =? 0).

Definition validSet (o : Operations) : bool :=
  negb (o =? 0) && (Z.ldiff o knownOperations =? 0).

(** The names of the operations of a set, in the table's order. *)
Definition names_of (o : Operations) : list string :=
  snd <$> filter (λ item : Operations * string, Z.land o item.1 ≠ 0) operationNames.

Definition Operations_String (o : Operations) : string :=
  if o =? 0 then "none"
  else
    let unknown := Z.ldiff o knownOperations in
    join "," (names_of o ++
      (if unknown =? 0 then [] else ["unknown(" +:+ pretty unknown +:+ ")"])).

Inductive operations_error :=
| unknown_operation (rawName : string)
| operation_list_required
| invalid_operation_set (o : Operations).

(** The body of the loop of [parseOperations] for one name. *)
Definition parseOperation (rawName : string) : res operations_error Operations :=
  let name := ToLower (TrimSpace rawName) in
  if bool_decide (name = "read") then Ret Read
  else if bool_decide (name ∈ ["write"; "mutation"; "mutations"]) then Ret Write
  else if bool_decide (name ∈ ["readwrite"; "read-write"; "read_write"]) then Ret ReadWrite
  else
    match List.find (λ item, String.eqb name item.2) operationNames with
    | Some item => Ret item.1
    | None => Fail (unknown_operation rawName)
    end.

Definition parseOperations (names : list string) : res operations_error Operations :=
  do operations <- fold_res (λ rawName o, do o' <- parseOperation rawName; Ret (Z.lor o o')) names 0;
  if validSet operations then Ret operations else Fail operation_list_required.

Definition operationNamesForDocument (operations : Operations)
  : res operations_error (list string) :=
  if negb (validSet operations) then Fail (invalid_operation_set operations)
  else if operations =? Read then Ret ["read"]
  else if operations =? Write then Ret ["write"]
  else if operations =? ReadWrite then Ret ["readwrite"]
  else Ret (names_of operations).

(** ** Properties *)

(** The leaf operations. *)
Definition leaves : list Operations := operationNames.*1.

(** Statements about all 8-bit sets, decided one by one. *)
Lemma all_sets_decided (P : Z → bool) :
  forallb P (Z.of_nat <$> seq 0 256) = true → ∀ o, 0 ≤ o < 256 → P o = true.
Proof.
  rewrite forallb_forall. intros H o Ho. apply H. apply list_elem_of_In.
  apply list_elem_of_fmap. exists (Z.to_nat o). rewrite elem_of_seq. lia.
Qed.

Lemma ldiff_known o : 0 ≤ o → Z.ldiff o knownOperations = 0 ↔ o < 256.
Proof.
  intros Ho. change knownOperations with (Z.ones 8).
  rewrite Z.ldiff_ones_r by lia. change (2 ^ 8) with 256.
  rewrite Z.shiftl_mul_pow2, Z.shiftr_div_pow2 by lia. change (2 ^ 8) with 256.
  pose proof (Z.div_mod o 256). pose proof (Z.mod_pos_bound o 256). lia.
Qed.

Lemma validSet_range o : 0 ≤ o → validSet o = true ↔ 0 < o < 256.
Proof.
  intros Ho. unfold validSet.
  rewrite andb_true_iff, negb_true_iff, Z.eqb_eq, Z.eqb_neq, ldiff_known by done. lia.
Qed.

Lemma land_known o : 0 ≤ o → Z.land o knownOperations = o ↔ o < 256.
Proof.
  intros Ho. change knownOperations with (Z.ones 8).
  rewrite Z.land_ones by lia. change (2 ^ 8) with 256.
  rewrite Z.mod_small_iff by lia. lia.
Qed.

Lemma validLeaf_validSet o : 0 ≤ o → validLeaf o = true → validSet o = true.
Proof.
  intros Ho H. apply validSet_range; [done|]. unfold validLeaf in H. to_prop.
  rewrite Z.eqb_eq, land_known in * by done.
  match goal with H : (o =? 0) = false |- _ => apply Z.eqb_neq in H end. lia.
Qed.

Lemma contains_validLeaf o op : contains o op = true → validLeaf op = true.
Proof. unfold contains. intros H. by to_prop. Qed.

Lemma operationNames_parse o :
  0 ≤ o → validSet o = true →
  ∃ names, operationNamesForDocument o = Ret names ∧ parseOperations names = Ret o.
Proof.
  intros Ho Hv. pose proof Hv as Hr. apply validSet_range in Hr; [|done].
  pose (P := λ o, if validSet o then
    match operationNamesForDocument o with
    | Ret names => match parseOperations names with Ret o' => o' =? o | _ => false end
    | _ => false
    end else true).
  assert (P o = true) as HP by (apply all_sets_decided; [by vm_compute | lia]).
  unfold P in HP. rewrite Hv in HP.
  destruct (operationNamesForDocument o) as [names| |]; try done.
  exists names. split; [done|].
  destruct (parseOperations names) as [o'| |]; try done. by apply Z.eqb_eq in HP as ->.
Qed.

Lemma validLeaf_leaves o : 0 ≤ o → validLeaf o = true ↔ o ∈ leaves.
Proof.
  intros Ho. split.
  - intros H. pose proof (validLeaf_validSet o Ho H) as Hv.
    apply validSet_range in Hv; [|done].
    pose (P := λ o, implb (validLeaf o) (bool_decide (o ∈ leaves))).
    assert (P o = true) as HP by (apply all_sets_decided; [by vm_compute | lia]).
    unfold P in HP. rewrite H in HP. by apply bool_decide_eq_true in HP.
  - revert o Ho. cut (forallb validLeaf leaves = true); [|by vm_compute].
    rewrite forallb_forall. intros H o _ Ho. apply H. by apply list_elem_of_In.
Qed.

(** ** Properties *)

(** The names written into a policy document for an operation set parse
    back to the same set, for every set of known operations; any other value of
    the [uint16] is rejected. *)
Theorem operations_document_roundtrip o (Ho : 0 ≤ o < 2 ^ 16) :
  if validSet o
  then ∃ names, operationNamesForDocument o = Ret names ∧ parseOperations names = Ret o
  else operationNamesForDocument o = Fail (invalid_operation_set o).
Proof.
  destruct (validSet o) eqn:Hv.
  - apply operationNames_parse; [lia|done].
  - unfold operationNamesForDocument. by rewrite Hv.
Qed.

Lemma operations_document_roundtrip_witness :
  ∃ names, operationNamesForDocument (Z.lor Get Delete) = Ret names ∧
           parseOperations names = Ret (Z.lor Get Delete).
Proof. apply (operations_document_roundtrip (Z.lor Get Delete)). vm_compute. split; discriminate || reflexivity. Defined.
