(* ===== verification/AccessResource.v ===== *)
(** * Resources and path patterns (src/access/resource.go) *)

From Stdlib Require Import String.
From stdpp Require Import base sets list strings.
From S2P Require Import Prelude GoValues GoStrings RecordKey.

Local Open Scope string_scope.
Local Open Scope nat_scope.
Local Open Scope list_scope.

(** A [ResourceKind] is a string; a zero [Resource] has the empty kind. *)
Definition PathResource : string := "path".
Definition CollectionGroupResource : string := "collection-group".
Definition OpaqueQueryResource : string := "opaque-query".

Inductive segmentKind := collectionSegment | idSegment.

#[export] Instance segmentKind_eq_dec : EqDecision segmentKind.
Proof. solve_decision. Defined.

Record pathSegment := PathSegment {
  seg_kind : segmentKind;
  seg_value : value;
  anyID : bool;
}.

Record Resource := mkResource {
  res_kind : string;
  res_path : list pathSegment;
  res_name : string;
}.

(** [Resource{}] *)
Definition no_resource : Resource := mkResource "" [] "".

Record PathPattern := mkPathPattern { segments : list pathSegment }.

(** [anyIDValue{}] as a value of type [any]. *)
Definition AnyID : value := VStruct "access.anyIDValue" true [].

Definition is_anyIDValue (part : value) : bool :=
  match part with
  | VStruct ty _ _ => String.eqb ty "access.anyIDValue"
  | _ => false
  end.

Definition is_nil (v : value) : bool := match v with VNil => true | _ => false end.

Inductive path_error :=
| collection_name_required (i : nat)
| path_id_nil (i : nat).

(** The loop body of [NewPath] for part [i]. *)
Definition NewPath_segment (i : nat) (part : value) : res path_error pathSegment :=
  if i mod 2 =? 0 then
    match assert_string part with
    | Some collection =>
        if bool_decide (TrimSpace collection = "") then Fail (collection_name_required i)
        else Ret (PathSegment collectionSegment (vstr collection) false)
    | None => Fail (collection_name_required i)
    end
  else if is_anyIDValue part then Ret (PathSegment idSegment VNil true)
  else if is_nil part then Fail (path_id_nil i)
  else Ret (PathSegment idSegment part false).

Definition NewPath (parts : list value) : res path_error PathPattern :=
  do segs <- traverse NewPath_segment parts; Ret (mkPathPattern segs).

(** [Path] panics where [NewPath] fails. *)
Definition Path (parts : list value) : res path_error PathPattern :=
  match NewPath parts with
  | Fail _ => Panic "access: malformed path"
  | r => r
  end.

Definition append (p other : PathPattern) : PathPattern :=
  mkPathPattern (segments p ++ segments other).

(** ** Comparing segments *)

(** The kind tests of [reflect], and the accessors [Value.String], [Value.Int]
    and [Value.Uint] on values of the kind. *)
Definition isStringKind (v : value) : bool := match v with VString _ _ => true | _ => false end.
Definition isSignedInteger (v : value) : bool := match v with VInt _ _ _ => true | _ => false end.
Definition isUnsignedInteger (v : value) : bool := match v with VUint _ _ _ => true | _ => false end.
Definition value_String (v : value) : string := match v with VString _ s => s | _ => "" end.
Definition value_Int (v : value) : Z := match v with VInt _ _ z => z | _ => 0%Z end.
Definition value_Uint (v : value) : Z := match v with VUint _ _ z => z | _ => 0%Z end.

Definition equalID (expected actual : value) : bool :=
  if deep_equal expected actual then true
  else if is_nil expected || is_nil actual then false
  else if isStringKind expected && isStringKind actual
  then String.eqb (value_String expected) (value_String actual)
  else if isSignedInteger expected && isSignedInteger actual
  then Z.eqb (value_Int expected) (value_Int actual)
  else if isUnsignedInteger expected && isUnsignedInteger actual
  then Z.eqb (value_Uint expected) (value_Uint actual)
  else false.

Section Resources.
Context `{GoFmt, RecordKeys}.

Definition segment_matches (expected actual : pathSegment) : bool :=
  if negb (bool_decide (seg_kind expected = seg_kind actual)) then false
  else if anyID expected then true
  else if bool_decide (seg_kind expected = collectionSegment)
  then String.eqb (sprint (seg_value expected)) (sprint (seg_value actual))
  else equalID (seg_value expected) (seg_value actual).

(** The loop over the pattern's segments; [res_path] is at least as long. *)
Fixpoint segments_match (pattern path : list pathSegment) : bool :=
  match pattern, path with
  | [], _ => true
  | e :: pattern', a :: path' => segment_matches e a && segments_match pattern' path'
  | _ :: _, [] => false
  end.

Definition patternsMatch (pattern : PathPattern) (resource : Resource) : bool :=
  if negb (String.eqb (res_kind resource) PathResource)
     || (length (res_path resource) <? length (segments pattern))
  then false
  else segments_match (segments pattern) (res_path resource).

(** ** Resources of keys and collections *)

(** [key] and its ancestors, the key first. *)
Fixpoint keys_up (fuel : nat) (current : key) : list key :=
  match fuel with
  | O => []
  | S fuel => current :: match Parent current with Some p => keys_up fuel p | None => [] end
  end.

Definition segmentsForKey (k : option key) : list pathSegment :=
  match k with
  | None => []
  | Some k =>
      flat_map (λ current,
        [PathSegment collectionSegment (vstr (Collection current)) false;
         PathSegment idSegment (key_ID current) false])
        (rev (keys_up (Level k + 1) k))
  end.

Definition RecordResourceForKey (k : option key) : Resource :=
  mkResource PathResource (segmentsForKey k) "".

Definition CollectionResourceFor (parent : option key) (collection : string) : Resource :=
  mkResource PathResource
    (segmentsForKey parent ++ [PathSegment collectionSegment (vstr collection) false]) "".

Definition CollectionGroup (name : string) : Resource :=
  mkResource CollectionGroupResource [] name.

Definition OpaqueQuery (description : string) : Resource :=
  mkResource OpaqueQueryResource [] description.

(** ** Printing *)

Definition segment_String (segment : pathSegment) : string :=
  if anyID segment then "*"
  else
    let text := sprint (seg_value segment) in
    if bool_decide (seg_kind segment = idSegment) then EscapeID text else text.

Definition Resource_String (r : Resource) : string :=
  if String.eqb (res_kind r) CollectionGroupResource then "collection-group:" +:+ res_name r
  else if String.eqb (res_kind r) OpaqueQueryResource then
    if String.eqb (res_name r) "" then "opaque-query" else "opaque-query:" +:+ res_name r
  else
    match res_path r with
    | [] => "/"
    | path => "/" +:+ join "/" (segment_String <$> path)
    end.

Definition PathPattern_String (p : PathPattern) : string :=
  Resource_String (mkResource PathResource (segments p) "").

(** ** Matching is a prefix match *)

Lemma segments_match_Forall2 pattern path :
  segments_match pattern path = true ↔
  Forall2 (λ e a, segment_matches e a = true) pattern (take (length pattern) path).
Proof.
  revert path. induction pattern as [|e pattern IH]; intros [|a path]; simpl;
    rewrite ?Forall2_nil, ?andb_true_iff, ?IH; split; try done; try by inversion 1.
  intros [? ?]. by constructor.
Qed.

Lemma segments_match_app p q path :
  segments_match (p ++ q) path = segments_match p path && segments_match q (drop (length p) path).
Proof.
  revert path. induction p as [|e p IH]; intros [|a path]; simpl; try done.
  by rewrite IH, andb_assoc.
Qed.

Lemma segments_match_extend p path rest :
  segments_match p path = true → segments_match p (path ++ rest) = true.
Proof.
  revert path. induction p as [|e p IH]; intros [|a path]; simpl; try done.
  intros Hm. to_prop; auto.
Qed.

Lemma segments_match_length p path : segments_match p path = true → length p ≤ length path.
Proof.
  revert path. induction p as [|e p IH]; intros [|a path]; simpl; try done; try lia.
  intros Hm. to_prop. apply le_n_S. auto.
Qed.

Lemma patternsMatch_iff p r :
  patternsMatch p r = true ↔
  res_kind r = PathResource ∧ segments_match (segments p) (res_path r) = true.
Proof.
  unfold patternsMatch. destruct (String.eqb_spec (res_kind r) PathResource) as [->|Hk]; simpl.
  - destruct (Nat.ltb_spec (length (res_path r)) (length (segments p))) as [Hl|Hl].
    + split; [done|]. intros [_ Hm%segments_match_length]. lia.
    + naive_solver.
  - naive_solver.
Qed.

Lemma patternsMatch_append p q r :
  patternsMatch (append p q) r = true → patternsMatch p r = true.
Proof.
  rewrite !patternsMatch_iff. simpl. rewrite segments_match_app, andb_true_iff. naive_solver.
Qed.

Context `{!RecordKeysLaws _}.

(** ** Paths of keys *)

Lemma keys_up_fuel fuel k : Level k < fuel → keys_up fuel k = keys_up (Level k + 1) k.
Proof.
  revert k. induction fuel as [|fuel IH]; intros k Hk; [lia|].
  rewrite Nat.add_1_r. simpl. f_equal.
  destruct (Parent k) as [p|] eqn:E; [|done]. pose proof (Level_Parent k p E) as Hl.
  rewrite IH by lia. by rewrite Hl, Nat.add_1_r.
Qed.

Lemma segmentsForKey_Parent k :
  segmentsForKey (Some k) = segmentsForKey (Parent k) ++
    [PathSegment collectionSegment (vstr (Collection k)) false;
     PathSegment idSegment (key_ID k) false].
Proof.
  unfold segmentsForKey. rewrite Nat.add_1_r. simpl.
  rewrite flat_map_app. simpl. f_equal.
  destruct (Parent k) as [p|] eqn:E; [|done].
  by rewrite (Level_Parent k p E), <- Nat.add_1_r.
Qed.


(** What matches a resource matches everything below it. *)
Lemma patternsMatch_below p r rest :
  patternsMatch p r = true →
  patternsMatch p (mkResource PathResource (res_path r ++ rest) "") = true.
Proof.
  rewrite !patternsMatch_iff. intros [_ Hm]. split; [done|]. by apply segments_match_extend.
Qed.
End Resources.

(** ** Patterns built by NewPath

    Segments alternate between a collection name that is not blank and an ID. *)

Definition good_segment (i : nat) (s : pathSegment) : Prop :=
  if i mod 2 =? 0 then
    ∃ c, s = PathSegment collectionSegment (vstr c) false ∧ TrimSpace c ≠ ""
  else
    s = PathSegment idSegment VNil true ∨
    ∃ v, s = PathSegment idSegment v false ∧ v ≠ VNil ∧ is_anyIDValue v = false.

Definition good_pattern (p : PathPattern) : Prop :=
  ∀ i s, segments p !! i = Some s → good_segment i s.

(** The argument of [NewPath] that a segment stands for. *)
Definition part_of (s : pathSegment) : value := if anyID s then AnyID else seg_value s.

Lemma traverse_from_lookup {E A B} (f : nat → A → res E B) l k ys i y :
  traverse_from f k l = Ret ys → ys !! i = Some y →
  ∃ x, l !! i = Some x ∧ f (k + i) x = Ret y.
Proof.
  revert k ys i. induction l as [|x l IH]; intros k ys i Ht Hy; simpl in Ht; inv_res.
  destruct i as [|i]; simpl in *; simplify_eq.
  - exists x. by rewrite Nat.add_0_r.
  - destruct (IH _ _ _ ltac:(eassumption) Hy) as (x' & ? & ?). exists x'. split; [done|].
    by rewrite Nat.add_succ_r.
Qed.

Lemma NewPath_segment_good i v s : NewPath_segment i v = Ret s → good_segment i s.
Proof.
  unfold NewPath_segment, good_segment. destruct (i mod 2 =? 0).
  - destruct (assert_string v) as [c|] eqn:Ev; [|done]. case_bool_decide; [done|].
    intros [= <-]. eauto.
  - destruct (is_anyIDValue v) eqn:Ea; [intros [= <-]; by left|].
    destruct v; try done; intros [= <-]; right; eauto.
Qed.

Lemma NewPath_good parts p : NewPath parts = Ret p → good_pattern p.
Proof.
  unfold NewPath. intros E. inv_res. intros i s Hs. simpl in Hs.
  destruct (traverse_from_lookup _ _ _ _ _ _ Hm Hs) as (v & _ & Hv).
  by apply NewPath_segment_good in Hv.
Qed.

Lemma NewPath_segment_part i s : good_segment i s → NewPath_segment i (part_of s) = Ret s.
Proof.
  unfold good_segment, NewPath_segment. destruct (i mod 2 =? 0).
  - intros (c & -> & Hc). simpl. by rewrite bool_decide_eq_false_2.
  - intros [->|(v & -> & Hv & Ha)]; [done|]. cbn [part_of anyID seg_value].
    rewrite Ha. by destruct v.
Qed.

Lemma traverse_from_inverse {E A B} (f : nat → A → res E B) (g : B → A) ys k :
  (∀ i y, ys !! i = Some y → f (k + i) (g y) = Ret y) →
  traverse_from f k (g <$> ys) = Ret ys.
Proof.
  revert k. induction ys as [|y ys IH]; intros k Hf; simpl; [done|].
  pose proof (Hf 0 y eq_refl) as H0. rewrite Nat.add_0_r in H0. rewrite H0. simpl.
  rewrite IH; [done|]. intros i y' Hy. rewrite Nat.add_succ_comm. by apply (Hf (S i)).
Qed.

Lemma NewPath_parts p : good_pattern p → NewPath (part_of <$> segments p) = Ret p.
Proof.
  intros Hg. unfold NewPath, traverse. rewrite traverse_from_inverse.
  - by destruct p.
  - intros i s Hs. by apply NewPath_segment_part, Hg.
Qed.

(** ** IDs *)

(** What [equalID] compares on scalar values: text, a signed or an unsigned
    number whatever its width and type name, or the value itself. *)
Inductive id_class :=
| IdNil
| IdText (s : string)
| IdSigned (z : Z)
| IdUnsigned (z : Z)
| IdBool (ty : string) (b : bool).

Definition classify (v : value) : option id_class :=
  match v with
  | VNil => Some IdNil
  | VString _ s => Some (IdText s)
  | VInt _ _ z => Some (IdSigned z)
  | VUint _ _ z => Some (IdUnsigned z)
  | VBool ty b => Some (IdBool ty b)
  | _ => None
  end.

(** ** Properties *)

(** Record IDs match by content: two scalar IDs are equal for a policy
    exactly when both are the same text, the same signed number or the same
    unsigned number, whatever their widths and type names, or equal booleans. *)
Theorem equalID_scalars v w c d (Hc : classify v = Some c) (Hd : classify w = Some d) :
  equalID v w = true ↔ c = d.
Proof.
  unfold equalID.
  destruct v, w; simpl in Hc, Hd |- *; try discriminate Hc; try discriminate Hd;
    injection Hc as <-; injection Hd as <-; try (split; congruence).
  - destruct (String.eqb_spec ty ty0), (Bool.eqb_spec b b0); naive_solver.
  - destruct (Z.eqb_spec z z0); rewrite ?andb_false_r; simpl;
      try (destruct (_ && _)); split; naive_solver.
  - destruct (Z.eqb_spec z z0); rewrite ?andb_false_r; simpl;
      try (destruct (_ && _)); split; naive_solver.
  - destruct (String.eqb_spec s s0); rewrite ?andb_false_r; simpl;
      try (destruct (_ && _)); split; naive_solver.
Qed.

Lemma equalID_scalars_witness : equalID (vint 7) (VInt "int64" KInt64 7) = true.
Proof.
  apply (equalID_scalars (vint 7) (VInt "int64" KInt64 7) (IdSigned 7) (IdSigned 7)); reflexivity.
Defined.

(** A pattern is a path prefix: when it matches a record it matches every
    collection under that record and every record in such a collection. *)
Theorem patternsMatch_descendants `{GoFmt} (RK : RecordKeys) (Hlaws : RecordKeysLaws RK)
    p k parent (Hk : Parent k = Some parent)
    (Hm : patternsMatch p (RecordResourceForKey (Some parent)) = true) :
  patternsMatch p (CollectionResourceFor (Some parent) (Collection k)) = true ∧
  patternsMatch p (RecordResourceForKey (Some k)) = true.
Proof.
  pose proof (patternsMatch_below p _
    [PathSegment collectionSegment (vstr (Collection k)) false] Hm) as Hcoll.
  split; [exact Hcoll|].
  unfold RecordResourceForKey. rewrite segmentsForKey_Parent, Hk.
  apply (patternsMatch_below p (RecordResourceForKey (Some parent)) _ Hm).
Qed.

Lemma patternsMatch_descendants_witness :
  let p := mkPathPattern [PathSegment collectionSegment (vstr "a") false;
                          PathSegment idSegment VNil true] in
  let parent := ChainKey "a" (vint 1) None in
  @patternsMatch plain_fmt p
    (@RecordResourceForKey chain_keys (Some (ChainKey "b" (vint 2) (Some parent)))) = true.
Proof.
  intros p parent.
  exact (proj2 (@patternsMatch_descendants plain_fmt chain_keys chain_keys_laws p
    (ChainKey "b" (vint 2) (Some parent)) parent eq_refl eq_refl)).
Defined.
