(* ===== verification/AccessRule.v ===== *)
(** * Policy rules and their compilation (src/access/rule.go)

    A [Rule] is a tree; compiling it gives the list of directives with the
    path prefix of the scopes around each. *)

From Stdlib Require Import String.
From stdpp Require Import base gmap sets list strings.
From S2P Require Import Prelude GoValues GoStrings RecordKey AccessOperation AccessResource.

Local Open Scope string_scope.
Local Open Scope nat_scope.
Local Open Scope list_scope.
Set Warnings "-register-all".

(** [noEffect] and [noRuleKind] are the zero values of the two [uint8] types. *)
Inductive effect := noEffect | effectAllow | effectDeny | effectAudit | effectIgnoreAudit.

#[export] Instance effect_eq_dec : EqDecision effect.
Proof. solve_decision. Defined.

Definition effect_String (e : effect) : string :=
  match e with
  | effectAllow => "allow"
  | effectDeny => "deny"
  | effectAudit => "audit"
  | effectIgnoreAudit => "ignore-audit"
  | noEffect => "unknown"
  end.

Inductive ruleKind :=
| noRuleKind | directiveRule | scopeRule | collectionGroupRule | opaqueQueryRule.

#[export] Instance ruleKind_eq_dec : EqDecision ruleKind.
Proof. solve_decision. Defined.

Inductive Rule := mkRule {
  r_kind : ruleKind;
  r_pattern : PathPattern;
  r_name : string;
  r_operations : Operations;
  r_effect : effect;
  r_resource : string;
  r_children : list Rule;
}.

Definition no_pattern : PathPattern := mkPathPattern [].

(** ** Constructors *)

Definition directive (ruleEffect : effect) (operations : Operations) (names : list string) : Rule :=
  let name := match names with n :: _ => TrimSpace n | [] => "" end in
  mkRule directiveRule no_pattern name operations ruleEffect "" [].

Definition Allow (operations : Operations) (name : list string) : Rule :=
  directive effectAllow operations name.
Definition Deny (operations : Operations) (name : list string) : Rule :=
  directive effectDeny operations name.
Definition Audit (operations : Operations) (name : list string) : Rule :=
  directive effectAudit operations name.
Definition IgnoreAudit (operations : Operations) (name : list string) : Rule :=
  directive effectIgnoreAudit operations name.

Definition Under (pattern : PathPattern) (rules : list Rule) : Rule :=
  mkRule scopeRule pattern "" 0%Z noEffect "" rules.

Definition Scope (collection : string) (id : value) (rules : list Rule) : res path_error Rule :=
  do pattern <- Path [vstr collection; id]; Ret (Under pattern rules).

Definition CollectionScope (collection : string) (rules : list Rule) : res path_error Rule :=
  do pattern <- Path [vstr collection]; Ret (Under pattern rules).

Definition Root (rules : list Rule) : Rule := Under no_pattern rules.

Definition CollectionGroupScope (name : string) (rules : list Rule) : Rule :=
  mkRule collectionGroupRule no_pattern "" 0%Z noEffect name rules.

Definition OpaqueQueryScope (rules : list Rule) : Rule :=
  mkRule opaqueQueryRule no_pattern "" 0%Z noEffect "" rules.

(** ** Compilation *)

Record compiledRule := mkCompiledRule {
  c_kind : string;
  c_pattern : PathPattern;
  c_resource : string;
  c_name : string;
  c_operations : Operations;
  c_effect : effect;
  c_depth : nat;
  c_literals : nat;
}.

Inductive rule_error :=
| effect_not_valid (e : effect)
| rule_operations_invalid (name : string)
| path_scope_nested (kind : string)
| collection_group_not_top_level
| collection_group_name_required
| opaque_query_not_top_level
| unknown_rule_kind
| duplicate_rule_name (name : string).

Definition literalCount (pattern : PathPattern) : nat :=
  length (filter (λ s, anyID s = false) (segments pattern)).

(** [map[effect]bool] literals of the two policy kinds. *)
Definition access_effects (e : effect) : bool :=
  bool_decide (e = effectAllow ∨ e = effectDeny).
Definition audit_effects (e : effect) : bool :=
  bool_decide (e = effectAudit ∨ e = effectIgnoreAudit).

Section Compile.
Context `{GoFmt, RecordKeys}.

Definition resourceDescription (kind name : string) (pattern : PathPattern) : string :=
  if String.eqb kind CollectionGroupResource then "collection-group:" +:+ name
  else if String.eqb kind OpaqueQueryResource then "opaque-query"
  else PathPattern_String pattern.

(** The name of a directive: its own, or one made from what it does. *)
Definition directive_name (rule : Rule) (kind name : string) (prefix : PathPattern) : string :=
  if String.eqb (r_name rule) "" then
    effect_String (r_effect rule) +:+ " " +:+ Operations_String (r_operations rule)
      +:+ " at " +:+ resourceDescription kind name prefix
  else r_name rule.

(** The rules appended to [compiled], or the error. *)
Fixpoint compileRule (allowedEffects : effect → bool) (rule : Rule) (prefix : PathPattern)
    (resourceKind resourceName : string) (compiled : list compiledRule)
  : res rule_error (list compiledRule) :=
  match r_kind rule with
  | directiveRule =>
      if negb (allowedEffects (r_effect rule)) then Fail (effect_not_valid (r_effect rule))
      else if negb (validSet (r_operations rule)) then Fail (rule_operations_invalid (r_name rule))
      else Ret (compiled ++
        [mkCompiledRule resourceKind prefix resourceName
           (directive_name rule resourceKind resourceName prefix)
           (r_operations rule) (r_effect rule)
           (length (segments prefix)) (literalCount prefix)])
  | scopeRule =>
      if negb (String.eqb resourceKind PathResource) then Fail (path_scope_nested resourceKind)
      else
        let joined := append prefix (r_pattern rule) in
        fold_res (λ child acc, compileRule allowedEffects child joined PathResource "" acc)
          (r_children rule) compiled
  | collectionGroupRule =>
      if negb (String.eqb resourceKind PathResource) || negb (length (segments prefix) =? 0)
      then Fail collection_group_not_top_level
      else if String.eqb (TrimSpace (r_resource rule)) "" then Fail collection_group_name_required
      else
        fold_res (λ child acc, compileRule allowedEffects child no_pattern
                                 CollectionGroupResource (r_resource rule) acc)
          (r_children rule) compiled
  | opaqueQueryRule =>
      if negb (String.eqb resourceKind PathResource) || negb (length (segments prefix) =? 0)
      then Fail opaque_query_not_top_level
      else
        fold_res (λ child acc, compileRule allowedEffects child no_pattern
                                 OpaqueQueryResource "" acc)
          (r_children rule) compiled
  | noRuleKind => Fail unknown_rule_kind
  end.

(** The first name already seen among the rules before it. *)
Fixpoint duplicate_name (names : gset string) (compiled : list compiledRule) : option string :=
  match compiled with
  | [] => None
  | rule :: rest =>
      if bool_decide (c_name rule ∈ names) then Some (c_name rule)
      else duplicate_name ({[c_name rule]} ∪ names) rest
  end.

Definition compileRules (allowedEffects : effect → bool) (rules : list Rule)
  : res rule_error (list compiledRule) :=
  do compiled <- fold_res (λ rule acc, compileRule allowedEffects rule no_pattern PathResource "" acc)
                   rules [];
  match duplicate_name ∅ compiled with
  | Some name => Fail (duplicate_rule_name name)
  | None => Ret compiled
  end.

(** ** What compilation computes

    [directives] lists the directives under a rule with their contexts, and
    [rule_ok] says that no check fails: compilation is their combination. *)

Definition compiled_directive (rule : Rule) (prefix : PathPattern) (kind name : string)
  : compiledRule :=
  mkCompiledRule kind prefix name (directive_name rule kind name prefix)
    (r_operations rule) (r_effect rule) (length (segments prefix)) (literalCount prefix).

Fixpoint directives (rule : Rule) (prefix : PathPattern) (kind name : string)
  : list compiledRule :=
  match r_kind rule with
  | directiveRule => [compiled_directive rule prefix kind name]
  | scopeRule =>
      flat_map (λ c, directives c (append prefix (r_pattern rule)) PathResource "")
        (r_children rule)
  | collectionGroupRule =>
      flat_map (λ c, directives c no_pattern CollectionGroupResource (r_resource rule))
        (r_children rule)
  | opaqueQueryRule =>
      flat_map (λ c, directives c no_pattern OpaqueQueryResource "") (r_children rule)
  | noRuleKind => []
  end.

Fixpoint rule_ok (allowed : effect → bool) (rule : Rule) (prefix : PathPattern) (kind : string)
  : bool :=
  let top_level := String.eqb kind PathResource && (length (segments prefix) =? 0) in
  match r_kind rule with
  | directiveRule => allowed (r_effect rule) && validSet (r_operations rule)
  | scopeRule =>
      String.eqb kind PathResource &&
      forallb (λ c, rule_ok allowed c (append prefix (r_pattern rule)) PathResource)
        (r_children rule)
  | collectionGroupRule =>
      top_level && negb (String.eqb (TrimSpace (r_resource rule)) "") &&
      forallb (λ c, rule_ok allowed c no_pattern CollectionGroupResource) (r_children rule)
  | opaqueQueryRule =>
      top_level && forallb (λ c, rule_ok allowed c no_pattern OpaqueQueryResource) (r_children rule)
  | noRuleKind => false
  end.

(** Induction on a rule and the rules below it. *)
Section RuleInd.
Context (P : Rule → Prop).
Context (Hrule : ∀ rule, Forall P (r_children rule) → P rule).

Fixpoint Rule_nested_ind (rule : Rule) : P rule :=
  match rule with
  | mkRule k p n o e r cs =>
      Hrule (mkRule k p n o e r cs)
        ((fix go (l : list Rule) : Forall P l :=
           match l with
           | [] => List.Forall_nil _
           | c :: l' => @List.Forall_cons _ P c l' (Rule_nested_ind c) (go l')
           end) cs)
  end.
End RuleInd.

(** [m] is success with [out], or an error when [ok] is false. *)
Definition checks {E A} (ok : bool) (m : res E A) (out : A) : Prop :=
  if ok then m = Ret out else ∃ e, m = Fail e.

Lemma fold_res_checks {E A B} (f : A → list B → res E (list B)) (ok : A → bool)
    (g : A → list B) l acc :
  Forall (λ x, ∀ acc, checks (ok x) (f x acc) (acc ++ g x)) l →
  checks (forallb ok l) (fold_res f l acc) (acc ++ flat_map g l).
Proof.
  intros Hl. revert acc. induction Hl as [|x l Hx _ IH]; intros acc; simpl.
  - by rewrite app_nil_r.
  - specialize (Hx acc). destruct (ok x); simpl in *.
    + rewrite Hx. simpl. rewrite app_assoc. apply IH.
    + destruct Hx as [e ->]. by exists e.
Qed.

Lemma compileRule_checks allowed rule prefix kind name compiled :
  checks (rule_ok allowed rule prefix kind)
    (compileRule allowed rule prefix kind name compiled)
    (compiled ++ directives rule prefix kind name).
Proof.
  revert prefix kind name compiled.
  induction rule as [[k p n o e r cs] IH] using Rule_nested_ind; intros prefix kind name compiled.
  destruct k; cbn [compileRule directives rule_ok r_kind r_children r_effect r_operations] in *.
  - by exists unknown_rule_kind.
  - destruct (allowed e); simpl; [|by eexists]. destruct (validSet o); simpl; [done|by eexists].
  - destruct (kind =? PathResource)%string; simpl; [|by eexists].
    apply fold_res_checks. eapply Forall_impl; [exact IH|]. simpl. auto.
  - destruct (kind =? PathResource)%string, (length (segments prefix) =? 0); simpl; try by eexists.
    destruct (String.eqb _ _); simpl; [by eexists|].
    apply fold_res_checks. eapply Forall_impl; [exact IH|]. simpl. auto.
  - destruct (kind =? PathResource)%string, (length (segments prefix) =? 0); simpl; try by eexists.
    apply fold_res_checks. eapply Forall_impl; [exact IH|]. simpl. auto.
Qed.

(** All directives of a policy, in order. *)
Definition all_directives (rules : list Rule) : list compiledRule :=
  flat_map (λ rule, directives rule no_pattern PathResource "") rules.

Lemma duplicate_name_None names compiled :
  duplicate_name names compiled = None ↔
  NoDup (c_name <$> compiled) ∧ ∀ c, c ∈ compiled → c_name c ∉ names.
Proof.
  revert names. induction compiled as [|c l IH]; intros names; simpl.
  - split; [|done]. intros _. split; [constructor|set_solver].
  - case_bool_decide as Hc; [split; [done|]; set_solver|].
    rewrite IH, NoDup_cons. fold (fmap c_name l). rewrite list_elem_of_fmap. split.
    + intros [Hn Hl]. split_and!; [|done|set_solver].
      intros (d & Hd & Hin). specialize (Hl d Hin). set_solver.
    + intros [[Hn Hnd] Hl]. split; [done|]. intros d Hd [Heq%elem_of_singleton|]%elem_of_union;
        [|set_solver].
      apply Hn. exists d. split; [by rewrite Heq|done].
Qed.

Lemma compileRules_Ret allowed rules compiled :
  compileRules allowed rules = Ret compiled ↔
  forallb (λ rule, rule_ok allowed rule no_pattern PathResource) rules = true ∧
  compiled = all_directives rules ∧ NoDup (c_name <$> compiled).
Proof.
  unfold compileRules.
  pose proof (fold_res_checks
    (λ rule acc, compileRule allowed rule no_pattern PathResource "" acc)
    (λ rule, rule_ok allowed rule no_pattern PathResource)
    (λ rule, directives rule no_pattern PathResource "") rules []
    ltac:(apply Forall_true; intros rule acc; apply compileRule_checks)) as Hc.
  unfold checks in Hc. destruct (forallb _ rules); simpl in *.
  - rewrite Hc. simpl. fold (all_directives rules).
    destruct (duplicate_name ∅ (all_directives rules)) as [n|] eqn:E.
    + split; [done|]. intros (_ & -> & Hnd).
      assert (duplicate_name ∅ (all_directives rules) = None); [|congruence].
      apply duplicate_name_None. set_solver.
    + apply duplicate_name_None in E as [Hnd _]. split; [|naive_solver].
      by intros [= <-].
  - destruct Hc as [e ->]. simpl. naive_solver.
Qed.

(** ** Well-formed compiled rules *)

Definition well_formed (allowed : effect → bool) (c : compiledRule) : Prop :=
  c_depth c = length (segments (c_pattern c)) ∧
  c_literals c = literalCount (c_pattern c) ∧
  c_literals c ≤ c_depth c ∧
  c_name c ≠ "" ∧
  validSet (c_operations c) = true ∧
  allowed (c_effect c) = true ∧
  (c_kind c = PathResource ∨
   (c_kind c = CollectionGroupResource ∧ TrimSpace (c_resource c) ≠ "" ∨
    c_kind c = OpaqueQueryResource) ∧ segments (c_pattern c) = []).

Lemma literalCount_depth p : literalCount p ≤ length (segments p).
Proof. apply length_filter. Qed.

Lemma directive_name_nonempty rule kind name prefix : directive_name rule kind name prefix ≠ "".
Proof.
  unfold directive_name. destruct (String.eqb_spec (r_name rule) ""); [|done].
  by destruct (r_effect rule).
Qed.

(** A context in which [compileRule] is called. *)
Definition good_context (prefix : PathPattern) (kind name : string) : Prop :=
  kind = PathResource ∨
  (kind = CollectionGroupResource ∧ TrimSpace name ≠ "" ∨ kind = OpaqueQueryResource) ∧
  segments prefix = [].

Lemma directives_well_formed allowed rule prefix kind name :
  good_context prefix kind name → rule_ok allowed rule prefix kind = true →
  Forall (well_formed allowed) (directives rule prefix kind name).
Proof.
  assert (∀ (P : Rule → Prop) cs (ok : Rule → bool) g, Forall P cs → forallb ok cs = true →
    (∀ c, P c → ok c = true → Forall (well_formed allowed) (g c)) →
    Forall (well_formed allowed) (flat_map g cs)) as Hflat.
  { intros P cs ok g Hcs. induction Hcs; simpl; intros Hok Hg; [constructor|]. to_prop.
    apply Forall_app. split; auto. }
  revert prefix kind name.
  induction rule as [[k p n o e r cs] IH] using Rule_nested_ind; intros prefix kind name Hctx Hok.
  destruct k; cbn [directives rule_ok r_kind r_children] in *; to_prop; [done| | | |].
  - constructor; [|constructor]. unfold well_formed. simpl.
    split_and!; try done; [apply literalCount_depth | apply directive_name_nonempty].
  - eapply Hflat; [exact IH|eassumption|]. simpl. intros c Hc. apply Hc. by left.
  - eapply Hflat; [exact IH|eassumption|]. simpl. intros c Hc. apply Hc. right.
    split; [left; split; [done|]|done].
    match goal with H : (_ =? "")%string = false |- _ => by apply String.eqb_neq in H end.
  - eapply Hflat; [exact IH|eassumption|]. simpl. intros c Hc. apply Hc. right.
    split; [by right|done].
Qed.

Lemma compileRules_well_formed allowed rules compiled :
  compileRules allowed rules = Ret compiled → Forall (well_formed allowed) compiled.
Proof.
  intros (Hok & -> & _)%compileRules_Ret. unfold all_directives.
  rewrite forallb_forall in Hok. apply Forall_forall. intros c Hc.
  apply list_elem_of_In, in_flat_map in Hc as (rule & Hin & Hc).
  assert (Forall (well_formed allowed) (directives rule no_pattern PathResource "")) as Hf.
  { apply directives_well_formed; [by left|]. by apply Hok. }
  rewrite Forall_forall in Hf. apply Hf. by apply list_elem_of_In.
Qed.
End Compile.
