(* ===== verification/AccessPolicy.v ===== *)
(** * Access and audit policies (src/access/policy.go)

    Explanation texts are data: one constructor per message of the code, with
    the values it prints. *)

From Stdlib Require Import String.
From stdpp Require Import base gmap sets list strings.
From S2P Require Import Prelude StableSort GoValues GoStrings RecordKey DalQuery.
From S2P Require Import AccessOperation AccessResource AccessRule.

Local Open Scope string_scope.
Local Open Scope nat_scope.
Local Open Scope list_scope.

Inductive explanation :=
| NoExplanation
| OperationUnknown
| RequestHasNoResources
| NoMatchingAllowRule
| MatchedRule (name : string) (e : effect)
| ContextPolicyRequired
| InvalidOperationOrNoResources
| NoMatchingAuditRule
| OtherExplanation (text : string).

Record Request `{RecordKeys} := mkRequest {
  req_Operation : Operations;
  req_Resources : list Resource;
  req_Query : option DalQuery.Query;
}.

Record Decision := mkDecision {
  Allowed : bool;
  dec_Operation : Operations;
  dec_Resource : Resource;
  dec_Policy : string;
  dec_PolicySource : string;
  dec_Rule : string;
  dec_Effect : string;
  dec_Explanation : explanation;
}.

Record AccessPolicy := mkAccessPolicy {
  ap_name : string;
  ap_source : string;
  ap_rules : list Rule;
  ap_compiled : list compiledRule;
}.

Inductive policy_error :=
| policy_name_required
| policy_rule_error (e : rule_error).

Definition effectIsRestrictive (e : effect) : bool :=
  bool_decide (e = effectDeny ∨ e = effectIgnoreAudit).

(** The order in which matching rules are tried. *)
Definition rule_less (left right : compiledRule) : bool :=
  if negb (c_depth left =? c_depth right) then c_depth right <? c_depth left
  else if negb (c_literals left =? c_literals right) then c_literals right <? c_literals left
  else if negb (bool_decide (c_effect left = c_effect right))
  then effectIsRestrictive (c_effect left)
  else String.ltb (c_name left) (c_name right).

Section Policies.
Context `{GoFmt, RecordKeys}.

Definition NewPolicy (name : string) (rules : list Rule) : res policy_error AccessPolicy :=
  if String.eqb name "" then Fail policy_name_required
  else
    do compiled <- rmap_error policy_rule_error (compileRules access_effects rules);
    Ret (mkAccessPolicy name "" rules compiled).

Definition ruleMatchesResource (rule : compiledRule) (resource : Resource) : bool :=
  if negb (String.eqb (c_kind rule) (res_kind resource)) then false
  else if String.eqb (c_kind rule) PathResource then patternsMatch (c_pattern rule) resource
  else if String.eqb (c_kind rule) CollectionGroupResource
  then String.eqb (c_resource rule) (res_name resource)
  else String.eqb (c_kind rule) OpaqueQueryResource.

(** Whether a rule is about an operation on a resource. *)
Definition rule_applies (operation : Operations) (resource : Resource) (rule : compiledRule)
  : bool :=
  contains (c_operations rule) operation && ruleMatchesResource rule resource.

Definition matchingRules (rules : list compiledRule) (operation : Operations)
    (resource : Resource) : list compiledRule :=
  stable_sort rule_less (List.filter (rule_applies operation resource) rules).

Definition decideResource (p : AccessPolicy) (operation : Operations) (resource : Resource)
  : Decision :=
  match matchingRules (ap_compiled p) operation resource with
  | [] =>
      mkDecision false operation resource (ap_name p) (ap_source p) ""
        (effect_String effectDeny) NoMatchingAllowRule
  | winner :: _ =>
      mkDecision (bool_decide (c_effect winner = effectAllow)) operation resource
        (ap_name p) (ap_source p) (c_name winner) (effect_String (c_effect winner))
        (MatchedRule (c_name winner) (c_effect winner))
  end.

(** The loop over the request's resources; [last] is the decision so far. *)
Fixpoint decide_resources (p : AccessPolicy) (operation : Operations) (last : Decision)
    (resources : list Resource) : Decision :=
  match resources with
  | [] => last
  | resource :: rest =>
      let last := decideResource p operation resource in
      if Allowed last then decide_resources p operation last rest else last
  end.

Definition no_decision : Decision := mkDecision false 0%Z no_resource "" "" "" "" NoExplanation.

Definition Decide (p : AccessPolicy) (request : Request) : Decision :=
  if negb (validLeaf (req_Operation request)) then
    mkDecision false (req_Operation request) no_resource (ap_name p) (ap_source p) ""
      (effect_String effectDeny) OperationUnknown
  else
    match req_Resources request with
    | [] =>
        mkDecision false (req_Operation request) no_resource (ap_name p) (ap_source p) ""
          (effect_String effectDeny) RequestHasNoResources
    | resources => decide_resources p (req_Operation request) no_decision resources
    end.

(** [nil], or the [DeniedError] of a decision. *)
Definition Authorize (p : AccessPolicy) (request : Request) : option Decision :=
  let decision := Decide p request in
  if Allowed decision then None else Some decision.

(** ** Audit policies *)

Record AuditDecision := mkAuditDecision {
  aud_Audit : bool;
  aud_Operation : Operations;
  aud_Resource : Resource;
  aud_Policy : string;
  aud_PolicySource : string;
  aud_Rule : string;
  aud_Effect : string;
  aud_Explanation : explanation;
}.

Record AuditPolicy := mkAuditPolicy {
  up_name : string;
  up_source : string;
  up_rules : list Rule;
  up_compiled : list compiledRule;
}.

Definition NewAuditPolicy (name : string) (rules : list Rule) : res policy_error AuditPolicy :=
  if String.eqb name "" then Fail policy_name_required
  else
    do compiled <- rmap_error policy_rule_error (compileRules audit_effects rules);
    Ret (mkAuditPolicy name "" rules compiled).

(** [MustPolicy] and [MustAuditPolicy] panic with the error. *)
Definition or_panic {A} (r : res policy_error A) : res policy_error A :=
  match r with Fail _ => Panic "access: invalid policy" | r => r end.
Definition MustPolicy (name : string) (rules : list Rule) : res policy_error AccessPolicy := or_panic (NewPolicy name rules).
Definition MustAuditPolicy (name : string) (rules : list Rule) : res policy_error AuditPolicy := or_panic (NewAuditPolicy name rules).

(** The decision on one resource. *)
Definition classify_resource (p : AuditPolicy) (operation : Operations) (resource : Resource)
  : AuditDecision :=
  match matchingRules (up_compiled p) operation resource with
  | [] =>
      mkAuditDecision false operation resource (up_name p) (up_source p) ""
        (effect_String effectIgnoreAudit) NoMatchingAuditRule
  | winner :: _ =>
      mkAuditDecision (bool_decide (c_effect winner = effectAudit)) operation resource
        (up_name p) (up_source p) (c_name winner) (effect_String (c_effect winner))
        (MatchedRule (c_name winner) (c_effect winner))
  end.

Fixpoint classify_resources (p : AuditPolicy) (operation : Operations) (last : AuditDecision)
    (resources : list Resource) : AuditDecision :=
  match resources with
  | [] => last
  | resource :: rest =>
      let last := classify_resource p operation resource in
      if aud_Audit last then last else classify_resources p operation last rest
  end.

Definition no_audit_decision : AuditDecision :=
  mkAuditDecision false 0%Z no_resource "" "" "" "" NoExplanation.

Definition Classify (p : AuditPolicy) (request : Request) : AuditDecision :=
  if negb (validLeaf (req_Operation request)) || (length (req_Resources request) =? 0) then
    mkAuditDecision false (req_Operation request) no_resource (up_name p) (up_source p) ""
      (effect_String effectIgnoreAudit) InvalidOperationOrNoResources
  else
    classify_resources p (req_Operation request) no_audit_decision (req_Resources request).

(** ** Precedence

    [precedes x y]: [x] is deeper, or as deep with more literal segments, or as
    specific and restrictive where [y] is not, or else first by name. *)

Definition precedes (x y : compiledRule) : Prop :=
  c_depth y < c_depth x ∨
  c_depth x = c_depth y ∧
    (c_literals y < c_literals x ∨
     c_literals x = c_literals y ∧
       (effectIsRestrictive (c_effect x) = true ∧ effectIsRestrictive (c_effect y) = false ∨
        c_effect x = c_effect y ∧ string_lt (c_name x) (c_name y))).

(** Rules of one kind of policy: of two different effects one is restrictive. *)
Definition two_effects (allowed : effect → bool) : Prop :=
  ∀ e e', allowed e = true → allowed e' = true → e ≠ e' →
    effectIsRestrictive e' = negb (effectIsRestrictive e).

Lemma access_two_effects : two_effects access_effects.
Proof. by intros [] []. Qed.

Lemma audit_two_effects : two_effects audit_effects.
Proof. by intros [] []. Qed.

Definition effect_rank (e : effect) : nat := if effectIsRestrictive e then 0 else 1.

Definition rule_compare : compiledRule → compiledRule → comparison :=
  lexc (cmp_desc (cmp_on c_depth Nat.compare))
    (lexc (cmp_desc (cmp_on c_literals Nat.compare))
       (lexc (cmp_on (λ c, effect_rank (c_effect c)) Nat.compare)
          (cmp_on c_name String.compare))).

#[export] Instance rule_compare_comparator (D : compiledRule → Prop) :
  Comparator D rule_compare.
Proof.
  apply lexc_comparator; [apply cmp_desc_comparator, cmp_on_comparator, _|].
  apply lexc_comparator; [apply cmp_desc_comparator, cmp_on_comparator, _|].
  apply lexc_comparator; apply cmp_on_comparator; apply _.
Qed.

Section Order.
Context (allowed : effect → bool) (Hallowed : two_effects allowed).

Definition has_effect (c : compiledRule) : Prop := allowed (c_effect c) = true.

Lemma rule_less_compare x y :
  has_effect x → has_effect y →
  rule_less x y = match rule_compare x y with Lt => true | _ => false end.
Proof.
  unfold has_effect, rule_less, rule_compare, lexc, cmp_desc, cmp_on. intros Hx Hy.
  destruct (Nat.eqb_spec (c_depth x) (c_depth y)) as [->|Hd]; simpl.
  2: { destruct (Nat.compare_spec (c_depth y) (c_depth x)), (Nat.ltb_spec (c_depth y) (c_depth x));
       try done; lia. }
  rewrite Nat.compare_refl.
  destruct (Nat.eqb_spec (c_literals x) (c_literals y)) as [->|Hl]; simpl.
  2: { destruct (Nat.compare_spec (c_literals y) (c_literals x)),
         (Nat.ltb_spec (c_literals y) (c_literals x)); try done; lia. }
  rewrite Nat.compare_refl. unfold effect_rank.
  case_bool_decide as He; simpl.
  - rewrite He, Nat.compare_refl. reflexivity.
  - rewrite (Hallowed _ _ Hx Hy He). by destruct (effectIsRestrictive (c_effect x)).
Qed.

Lemma rule_less_strict_weak : StrictWeak has_effect rule_less.
Proof.
  apply (strict_weak_of_comparator _ rule_compare); [apply _|]. apply rule_less_compare.
Qed.

Lemma rule_less_precedes x y :
  has_effect x → has_effect y → rule_less x y = true ↔ precedes x y.
Proof.
  unfold has_effect, rule_less, precedes. intros Hx Hy.
  destruct (Nat.eqb_spec (c_depth x) (c_depth y)) as [->|Hd]; simpl;
    [|rewrite Nat.ltb_lt; lia].
  destruct (Nat.eqb_spec (c_literals x) (c_literals y)) as [->|Hl]; simpl;
    [|rewrite Nat.ltb_lt; lia].
  case_bool_decide as He; simpl.
  - rewrite string_ltb_lt, He. split; [intros; right; split; [done|]; right; naive_solver|].
    intros [?|[_ [?|[_ [[? ?]|[_ ?]]]]]]; try lia; congruence.
  - pose proof (Hallowed _ _ Hx Hy He) as Hneg.
    destruct (effectIsRestrictive (c_effect x)); simpl in Hneg; split; try done.
    + intros _. right. split; [done|]. right. split; [done|]. by left.
    + intros [?|[_ [?|[_ [[? ?]|[? ?]]]]]]; try lia; congruence.
Qed.

(** Rules with distinct names are never tied. *)
Lemma rule_less_tie x y :
  has_effect x → has_effect y →
  rule_less x y = false → rule_less y x = false → c_name x = c_name y.
Proof.
  intros Hx Hy H1 H2. rewrite !rule_less_compare in * by done.
  assert (rule_compare x y = Eq) as E.
  { rewrite (cmp_opp (D:=λ _, True) (c:=rule_compare) x y) in H2 by done.
    by destruct (rule_compare x y). }
  apply string_compare_eq. unfold rule_compare, lexc, cmp_on in E.
  repeat (case_match; [|discriminate E..]). exact E.
Qed.

(** ** The winning rule

    The rule that decides an operation on a resource, as a property of the set
    of rules: it applies, and it precedes all others that apply. *)

Definition wins (operation : Operations) (resource : Resource) (rules : list compiledRule)
    (c : compiledRule) : Prop :=
  c ∈ rules ∧ rule_applies operation resource c = true ∧
  ∀ d, d ∈ rules → rule_applies operation resource d = true → d ≠ c → precedes c d.

Context (rules : list compiledRule).
Context (Heffects : Forall has_effect rules) (Hnames : NoDup (c_name <$> rules)).

Lemma rules_name_inj x y : x ∈ rules → y ∈ rules → c_name x = c_name y → x = y.
Proof.
  clear Heffects. induction rules as [|c l IH]; [set_solver|].
  apply NoDup_cons in Hnames as [Hc Hl].
  intros [->|Hx]%elem_of_cons [->|Hy]%elem_of_cons E; auto.
  - exfalso. apply Hc. rewrite E. by apply list_elem_of_fmap_2.
  - exfalso. apply Hc. rewrite <- E. by apply list_elem_of_fmap_2.
Qed.

Lemma applies_elem operation resource c :
  c ∈ List.filter (rule_applies operation resource) rules ↔
  c ∈ rules ∧ rule_applies operation resource c = true.
Proof. by rewrite !list_elem_of_In, filter_In. Qed.

Lemma applies_effects operation resource :
  Forall has_effect (List.filter (rule_applies operation resource) rules).
Proof.
  rewrite Forall_forall in *. intros c [Hc _]%applies_elem. by apply Heffects.
Qed.

Lemma matchingRules_head operation resource c :
  head (matchingRules rules operation resource) = Some c ↔ wins operation resource rules c.
Proof.
  unfold matchingRules, wins. pose proof rule_less_strict_weak as SW.
  pose proof (applies_effects operation resource) as Hap.
  set (l := List.filter _ rules) in *.
  assert (∀ c', head (stable_sort rule_less l) = Some c' →
    c' ∈ rules ∧ rule_applies operation resource c' = true ∧
    ∀ d, d ∈ rules → rule_applies operation resource d = true → d ≠ c' → precedes c' d) as Hwin.
  { intros c' Hc'. apply (stable_sort_head rule_less has_effect) in Hc' as [Hc Hmin]; [|done].
    pose proof Hc as [Hcr Hca]%applies_elem. split_and!; [done..|].
    intros d Hd Hda Hne. rewrite Forall_forall in Hap.
    assert (d ∈ l) as Hdl by by apply applies_elem.
    apply rule_less_precedes; [by apply Hap..|].
    destruct (rule_less c' d) eqn:E; [done|]. exfalso. apply Hne.
    apply rules_name_inj; [done..|].
    apply rule_less_tie; [by apply Hap..| |done]. by apply Hmin. }
  split; [apply Hwin|]. intros (Hc & Ha & Hpre).
  destruct (head (stable_sort rule_less l)) as [c'|] eqn:E.
  - destruct (Hwin c' eq_refl) as (Hc' & Ha' & Hpre'). f_equal.
    destruct (decide (c_name c' = c_name c)) as [En|Hne]; [by apply rules_name_inj|].
    rewrite Forall_forall in Hap.
    assert (precedes c c') as H1 by (apply Hpre; [done..|congruence]).
    assert (precedes c' c) as H2 by (apply Hpre'; [done..|congruence]).
    apply rule_less_precedes in H1, H2; [|by apply Hap; apply applies_elem..].
    pose proof (sw_asym (D:=has_effect) (less:=rule_less) c c') as Hasym.
    rewrite Hasym in H2; [done| | |done]; by apply Hap; apply applies_elem.
  - apply stable_sort_head_None in E.
    assert (c ∈ l) as Hcl by by apply applies_elem. rewrite E in Hcl. set_solver.
Qed.

Lemma matchingRules_nil operation resource :
  matchingRules rules operation resource = [] ↔
  ∀ c, c ∈ rules → rule_applies operation resource c = false.
Proof.
  unfold matchingRules. split.
  - intros E c Hc. apply not_true_is_false. intros Ha.
    assert (c ∈ stable_sort rule_less (List.filter (rule_applies operation resource) rules)) as Hin.
    { rewrite stable_sort_elem. by apply applies_elem. }
    rewrite E in Hin. set_solver.
  - intros Hnone. destruct (List.filter _ rules) as [|c l] eqn:E; [done|].
    assert (c ∈ List.filter (rule_applies operation resource) rules) as [Hc Ha]%applies_elem
      by (rewrite E; set_solver).
    by rewrite Hnone in Ha.
Qed.
End Order.

(** ** Decisions of compiled policies *)

Lemma NewPolicy_Ret name rules p :
  NewPolicy name rules = Ret p ↔
  name ≠ "" ∧ compileRules access_effects rules = Ret (ap_compiled p) ∧
  p = mkAccessPolicy name "" rules (ap_compiled p).
Proof.
  unfold NewPolicy. destruct (String.eqb_spec name "") as [->|Hn]; [naive_solver|].
  split.
  - intros E. inv_res. naive_solver.
  - intros (_ & -> & E). simpl. by rewrite <- E.
Qed.

Lemma well_formed_effects allowed rules :
  Forall (well_formed allowed) rules → Forall (has_effect allowed) rules.
Proof.
  intros Hwf. eapply Forall_impl; [exact Hwf|]. intros c Hc. unfold well_formed in Hc.
  unfold has_effect. naive_solver.
Qed.

(** What the constructors guarantee of the rules of a policy. *)
Definition good_rules (allowed : effect → bool) (rules : list compiledRule) : Prop :=
  Forall (well_formed allowed) rules ∧ NoDup (c_name <$> rules).

Lemma compileRules_good allowed rules compiled :
  compileRules allowed rules = Ret compiled → good_rules allowed compiled.
Proof.
  intros E. split; [by eapply compileRules_well_formed|]. by apply compileRules_Ret in E as (_ & -> & ?).
Qed.

Lemma NewPolicy_good name rules p :
  NewPolicy name rules = Ret p → good_rules access_effects (ap_compiled p).
Proof. intros (_ & E & _)%NewPolicy_Ret. by eapply compileRules_good. Qed.

(** The decision on one resource, by its winner. *)
Lemma decideResource_cases p operation resource :
  good_rules access_effects (ap_compiled p) →
  (∀ c, wins operation resource (ap_compiled p) c →
    decideResource p operation resource =
    mkDecision (bool_decide (c_effect c = effectAllow)) operation resource
      (ap_name p) (ap_source p) (c_name c) (effect_String (c_effect c))
      (MatchedRule (c_name c) (c_effect c))) ∧
  ((∀ c, c ∈ ap_compiled p → rule_applies operation resource c = false) →
    decideResource p operation resource =
    mkDecision false operation resource (ap_name p) (ap_source p) "" "deny"
      NoMatchingAllowRule).
Proof.
  intros [Hwf Hnd]. pose proof (well_formed_effects _ _ Hwf) as Heff.
  unfold decideResource. split.
  - intros c Hc. eapply matchingRules_head in Hc; [|apply access_two_effects|done|done].
    destruct (matchingRules _ _ _) as [|w l]; [done|]. by injection Hc as ->.
  - intros Hnone.
    by rewrite (proj2 (matchingRules_nil _ access_two_effects _ Heff Hnd _ _)).
Qed.

(** Some rule wins, or none applies. *)
Lemma winner_or_none allowed rules operation resource :
  two_effects allowed → good_rules allowed rules →
  (∃ c, wins operation resource rules c) ∨
  (∀ c, c ∈ rules → rule_applies operation resource c = false).
Proof.
  intros Htwo [Hwf Hnd]. pose proof (well_formed_effects _ _ Hwf) as Heff.
  destruct (matchingRules rules operation resource) as [|c l] eqn:E.
  - right. by eapply matchingRules_nil.
  - left. exists c. eapply matchingRules_head; [done..|]. by rewrite E.
Qed.

Lemma decideResource_allowed p operation resource :
  good_rules access_effects (ap_compiled p) →
  Allowed (decideResource p operation resource) = true ↔
  ∃ c, wins operation resource (ap_compiled p) c ∧ c_effect c = effectAllow.
Proof.
  intros Hg. destruct (decideResource_cases p operation resource Hg) as [Hwin Hnone].
  split.
  - intros Ha. destruct (winner_or_none _ _ operation resource access_two_effects Hg) as [[c Hc]|Hn].
    + rewrite (Hwin c Hc) in Ha. simpl in Ha. apply bool_decide_eq_true in Ha. eauto.
    + by rewrite Hnone in Ha.
  - intros (c & Hc & He). rewrite (Hwin c Hc). simpl. by apply bool_decide_eq_true.
Qed.

(** A denied resource: no rule applies to it, or a Deny rule wins. *)
Lemma denied_resource p operation resource :
  good_rules access_effects (ap_compiled p) →
  let d := decideResource p operation resource in
  Allowed d = false →
  dec_Resource d = resource ∧
  ((dec_Rule d = "" ∧ dec_Explanation d = NoMatchingAllowRule ∧
    ∀ c, c ∈ ap_compiled p → rule_applies operation resource c = false) ∨
   ∃ c, wins operation resource (ap_compiled p) c ∧ c_effect c = effectDeny ∧
     dec_Rule d = c_name c ∧ dec_Effect d = "deny").
Proof.
  intros Hg d Hd. destruct (decideResource_cases p operation resource Hg) as [Hwin Hnone].
  destruct (winner_or_none _ _ operation resource access_two_effects Hg) as [[c Hc]|Hn];
    unfold d in *.
  - rewrite (Hwin c Hc) in *. simpl in *. split; [done|]. right. exists c.
    apply bool_decide_eq_false in Hd. destruct Hg as [Hwf _]. rewrite Forall_forall in Hwf.
    destruct (Hwf c) as (_ & _ & _ & _ & _ & Heff & _); [by destruct Hc|].
    by destruct (c_effect c).
  - rewrite (Hnone Hn). simpl. split; [done|]. by left.
Qed.

(** Permuting the rules permutes the compiled rules. *)
Lemma compileRules_perm allowed rules rules' compiled :
  compileRules allowed rules = Ret compiled → rules ≡ₚ rules' →
  ∃ compiled', compileRules allowed rules' = Ret compiled' ∧ compiled ≡ₚ compiled'.
Proof.
  intros (Hok & -> & Hnd)%compileRules_Ret Hperm.
  assert (all_directives rules ≡ₚ all_directives rules') as Hd.
  { unfold all_directives. clear Hok Hnd.
    induction Hperm as [|x l l' _ IH|x y l|l l' l'' _ IH1 _ IH2]; simpl; [done| | |by etrans].
    - by rewrite IH.
    - by rewrite !app_assoc, (Permutation_app_comm (directives y _ _ _)). }
  exists (all_directives rules'). split; [|done]. apply compileRules_Ret.
  split_and!; [|done|by rewrite <- Hd].
  rewrite forallb_forall in *. intros rule Hin. apply Hok.
  apply list_elem_of_In. rewrite Hperm. by apply list_elem_of_In.
Qed.

(** What [Classify] audits, resource by resource. *)
Lemma classify_resource_audits p operation resource :
  good_rules audit_effects (up_compiled p) →
  aud_Audit (classify_resource p operation resource) = true ↔
  ∃ c, wins operation resource (up_compiled p) c ∧ c_effect c = effectAudit.
Proof.
  intros [Hwf Hnd]. pose proof (well_formed_effects _ _ Hwf) as Heff.
  pose proof (λ c, matchingRules_head audit_effects audit_two_effects _ Heff Hnd operation resource c)
    as Hhead.
  setoid_rewrite <- Hhead. unfold classify_resource.
  destruct (matchingRules _ _ _) as [|w l]; simpl.
  - split; [done|]. intros (c & ? & _). done.
  - rewrite bool_decide_eq_true. naive_solver.
Qed.

Lemma classify_resources_audits p operation last resources :
  good_rules audit_effects (up_compiled p) → aud_Audit last = false →
  aud_Audit (classify_resources p operation last resources) = true ↔
  ∃ r c, r ∈ resources ∧ wins operation r (up_compiled p) c ∧ c_effect c = effectAudit.
Proof.
  intros Hg. revert last. induction resources as [|r rs IH]; intros last Hlast; simpl.
  { rewrite Hlast. split; [done|]. set_solver. }
  pose proof (classify_resource_audits p operation r Hg) as Hr.
  destruct (aud_Audit (classify_resource p operation r)) eqn:E.
  - rewrite E. split; [|done]. intros _. destruct (proj1 Hr eq_refl) as (c & Hc & He).
    exists r, c. set_solver.
  - rewrite IH by done. split.
    + intros (r' & c & Hin & Hc & He). exists r', c. set_solver.
    + intros (r' & c & [->|Hin]%elem_of_cons & Hc & He); [|by eauto].
      exfalso. assert (false = true) as Habs; [apply Hr; eauto|done].
Qed.

Lemma decide_resources_allowed p operation last resources :
  Allowed (decide_resources p operation last resources) = true ↔
  (resources = [] → Allowed last = true) ∧
  ∀ r, r ∈ resources → Allowed (decideResource p operation r) = true.
Proof.
  revert last. induction resources as [|r rest IH]; intros last; simpl; [set_solver|].
  destruct (Allowed (decideResource p operation r)) eqn:E.
  - rewrite IH. set_solver.
  - rewrite E. split; [done|]. intros [_ Hall]. rewrite <- E. apply Hall. set_solver.
Qed.

Lemma Decide_allowed p request :
  Allowed (Decide p request) = true ↔
  validLeaf (req_Operation request) = true ∧ req_Resources request ≠ [] ∧
  ∀ r, r ∈ req_Resources request →
    Allowed (decideResource p (req_Operation request) r) = true.
Proof.
  unfold Decide. destruct (validLeaf _); cbn [negb]; [|naive_solver].
  destruct (req_Resources request) as [|r rest]; [naive_solver|].
  rewrite decide_resources_allowed. naive_solver.
Qed.

(** The decision depends on the set of compiled rules only. *)
Lemma decideResource_perm p p' operation resource :
  ap_name p = ap_name p' → ap_source p = ap_source p' →
  good_rules access_effects (ap_compiled p) → ap_compiled p ≡ₚ ap_compiled p' →
  decideResource p operation resource = decideResource p' operation resource.
Proof.
  intros Hname Hsource Hg Hperm.
  assert (good_rules access_effects (ap_compiled p')) as Hg'.
  { destruct Hg as [Hwf Hnd]. split; [by rewrite <- Hperm|]. by rewrite <- Hperm. }
  destruct (decideResource_cases p operation resource Hg) as [Hwin Hnone].
  destruct (decideResource_cases p' operation resource Hg') as [Hwin' Hnone'].
  destruct (winner_or_none _ _ operation resource access_two_effects Hg) as [[c Hc]|Hn].
  - rewrite (Hwin c Hc), (Hwin' c), Hname, Hsource; [done|].
    unfold wins in *. by setoid_rewrite <- Hperm.
  - rewrite (Hnone Hn), Hnone', Hname, Hsource; [done|].
    intros c. rewrite <- Hperm. apply Hn.
Qed.

Lemma Decide_perm p p' request :
  ap_name p = ap_name p' → ap_source p = ap_source p' →
  good_rules access_effects (ap_compiled p) → ap_compiled p ≡ₚ ap_compiled p' →
  Decide p request = Decide p' request.
Proof.
  intros Hname Hsource Hg Hperm. unfold Decide. rewrite Hname, Hsource.
  destruct (validLeaf _); cbn [negb]; [|done].
  assert (∀ last rs, decide_resources p (req_Operation request) last rs =
                     decide_resources p' (req_Operation request) last rs) as Heq.
  { intros last rs. revert last. induction rs as [|r rs IH]; intros last; simpl; [done|].
    rewrite (decideResource_perm p p') by done. by rewrite IH. }
  by destruct (req_Resources request).
Qed.
End Policies.

(** ** Properties *)

Section Properties.
Context `{GoFmt, RecordKeys}.

(** C1: [AccessPolicy.Decide] allows a request exactly when the operation is a
    single leaf, there is at least one resource, and on every resource the
    winning rule exists and is an Allow: everything else is denied by default. *)
Theorem Decide_allows name rules p request (Hp : NewPolicy name rules = Ret p) :
  Allowed (Decide p request) = true ↔
  validLeaf (req_Operation request) = true ∧ req_Resources request ≠ [] ∧
  ∀ r, r ∈ req_Resources request →
    ∃ c, wins (req_Operation request) r (ap_compiled p) c ∧ c_effect c = effectAllow.
Proof.
  rewrite Decide_allowed. apply NewPolicy_good in Hp.
  setoid_rewrite decideResource_allowed; done.
Qed.

(** A request for a valid operation that is not allowed is denied at the
    first resource without a winning Allow, and the decision names that
    resource and the Deny rule that won, or says that no rule matched. *)
Theorem Decide_denial name rules p request (Hp : NewPolicy name rules = Ret p)
    (Hleaf : validLeaf (req_Operation request) = true)
    (Hres : req_Resources request ≠ [])
    (Hdenied : Allowed (Decide p request) = false) :
  ∃ before r after, req_Resources request = before ++ r :: after ∧
    (∀ r', r' ∈ before → ∃ c, wins (req_Operation request) r' (ap_compiled p) c ∧
                              c_effect c = effectAllow) ∧
    dec_Resource (Decide p request) = r ∧
    ((dec_Rule (Decide p request) = "" ∧
      dec_Explanation (Decide p request) = NoMatchingAllowRule ∧
      ∀ c, c ∈ ap_compiled p → rule_applies (req_Operation request) r c = false) ∨
     ∃ c, wins (req_Operation request) r (ap_compiled p) c ∧ c_effect c = effectDeny ∧
       dec_Rule (Decide p request) = c_name c ∧ dec_Effect (Decide p request) = "deny").
Proof.
  apply NewPolicy_good in Hp as Hg. unfold Decide in *. rewrite Hleaf in *. cbn [negb] in *.
  destruct (req_Resources request) as [|r0 rs]; [done|].
  generalize dependent no_decision. clear Hres. revert r0.
  induction rs as [|r1 rs IH]; intros r0 last; cbn [decide_resources];
    destruct (Allowed (decideResource p (req_Operation request) r0)) eqn:E; intros Hd;
    try congruence.
  2: { destruct (IH r1 last Hd) as (b & r & a & Eq & Hb & Hr & Hcase).
       exists (r0 :: b), r, a. split; [by rewrite Eq|]. split; [|by split].
       intros r' [->|Hr']%elem_of_cons; [by apply decideResource_allowed|by apply Hb]. }
  all: eexists [], r0, _; split; [reflexivity|]; split; [set_solver|].
  all: by apply denied_resource.
Qed.

(** C14: a Deny rule overrides every Allow rule that is not more specific: if it
    applies to one of the resources, and each applying Allow rule is less deep,
    or as deep with no more literal segments, the request is denied. *)
Theorem deny_overrides name rules p request d r (Hp : NewPolicy name rules = Ret p)
    (Hr : r ∈ req_Resources request)
    (Hd : d ∈ ap_compiled p) (Hdeny : c_effect d = effectDeny)
    (Happ : rule_applies (req_Operation request) r d = true)
    (Hspec : ∀ a, a ∈ ap_compiled p → c_effect a = effectAllow →
      rule_applies (req_Operation request) r a = true →
      c_depth a < c_depth d ∨ c_depth a = c_depth d ∧ c_literals a ≤ c_literals d) :
  Allowed (Decide p request) = false.
Proof.
  apply not_true_is_false. intros Ha. apply Decide_allowed in Ha as (_ & _ & Ha).
  apply NewPolicy_good in Hp. specialize (Ha r Hr).
  apply decideResource_allowed in Ha as (c & (Hc & Hca & Hwin) & He); [|done].
  assert (d ≠ c) as Hne by congruence.
  pose proof (Hwin d Hd Happ Hne) as Hpre. specialize (Hspec c Hc He Hca).
  unfold precedes in Hpre. rewrite He, Hdeny in Hpre. naive_solver lia.
Qed.

(** C35: the order in which rules are declared does not matter: a permutation of
    the rules compiles to a policy with the same decision on every request. *)
Theorem NewPolicy_permutation name rules rules' p (Hp : NewPolicy name rules = Ret p)
    (Hperm : rules ≡ₚ rules') :
  ∃ p', NewPolicy name rules' = Ret p' ∧ ∀ request, Decide p' request = Decide p request.
Proof.
  apply NewPolicy_good in Hp as Hg. apply NewPolicy_Ret in Hp as (Hn & Hc & Hp).
  destruct (compileRules_perm access_effects rules rules' (ap_compiled p)) as (l & Hl & Hll); [done..|].
  exists (mkAccessPolicy name "" rules' l). split.
  - apply NewPolicy_Ret. done.
  - intros request. symmetry. apply Decide_perm; [by rewrite Hp..|done|done].
Qed.

(** Adding rules whose directives are all Deny never allows a request that
    was denied. *)
Theorem adding_denies_narrows name rules extra p p' request
    (Hp : NewPolicy name rules = Ret p) (Hp' : NewPolicy name (rules ++ extra) = Ret p')
    (Hextra : Forall (λ c, c_effect c = effectDeny) (all_directives extra))
    (Hallowed : Allowed (Decide p' request) = true) :
  Allowed (Decide p request) = true.
Proof.
  apply Decide_allowed in Hallowed as (Hl & Hne & Hall).
  apply Decide_allowed. split_and!; [done..|]. intros r Hr. specialize (Hall r Hr).
  apply NewPolicy_good in Hp as Hg. apply NewPolicy_good in Hp' as Hg'.
  apply decideResource_allowed in Hall as (c & (Hc & Hca & Hwin) & He); [|done].
  apply decideResource_allowed; [done|].
  apply NewPolicy_Ret in Hp as (_ & (_ & Hcomp & _)%compileRules_Ret & _).
  apply NewPolicy_Ret in Hp' as (_ & (_ & Hcomp' & _)%compileRules_Ret & _).
  assert (ap_compiled p' = ap_compiled p ++ all_directives extra) as Happ.
  { rewrite Hcomp, Hcomp'. unfold all_directives. by rewrite flat_map_app. }
  rewrite Happ in Hc. rewrite Forall_forall in Hextra.
  apply elem_of_app in Hc as [Hc|Hc]; [|specialize (Hextra c Hc); congruence].
  exists c. split; [|done]. split_and!; [done..|]. intros d Hd. apply Hwin. rewrite Happ. set_solver.
Qed.

(** [AuditPolicy.Classify] selects a request for auditing exactly when the
    operation is a single leaf and on some resource the winning rule is an
    Audit rule. *)
Theorem Classify_audits name rules p request (Hp : NewAuditPolicy name rules = Ret p) :
  aud_Audit (Classify p request) = true ↔
  validLeaf (req_Operation request) = true ∧
  ∃ r c, r ∈ req_Resources request ∧ wins (req_Operation request) r (up_compiled p) c ∧
         c_effect c = effectAudit.
Proof.
  assert (good_rules audit_effects (up_compiled p)) as Hg.
  { unfold NewAuditPolicy in Hp. destruct (String.eqb _ _); [done|]. inv_res.
    by eapply compileRules_good. }
  unfold Classify. destruct (validLeaf _); simpl; [|naive_solver].
  destruct (req_Resources request) as [|r0 rs]; [simpl; set_solver|]. cbn [length Nat.eqb].
  rewrite classify_resources_audits by done. set_solver.
Qed.
End Properties.

(** ** Examples *)

Module Examples.

#[local] Existing Instance plain_fmt.
#[local] Existing Instance chain_keys.

(** Reading is allowed everywhere, except below the collection "secret"; the
    public notes of any secret stay readable. *)
Definition collection_segment (c : string) : pathSegment :=
  PathSegment collectionSegment (vstr c) false.
Definition any_segment : pathSegment := PathSegment idSegment VNil true.

Definition rules : list Rule :=
  [Root [Allow Read ["read-all"]];
   Under (mkPathPattern [collection_segment "secret"])
     [Deny ReadWrite ["no-secret"];
      Under (mkPathPattern [any_segment; collection_segment "public"]) [Allow Get ["public"]]]].

Definition policy : AccessPolicy :=
  mkAccessPolicy "p" "" rules (all_directives rules).

Lemma policy_ok : NewPolicy "p" rules = Ret policy.
Proof. vm_compute. reflexivity. Defined.

Definition city : Resource := RecordResourceForKey (Some (ChainKey "cities" (vstr "LON") None)).
Definition secret : Resource := RecordResourceForKey (Some (ChainKey "secret" (vint 7) None)).

Definition get (r : list Resource) : Request := mkRequest _ Get r None.

Lemma Decide_allows_witness :
  ∃ c, wins Get city (ap_compiled policy) c ∧ c_effect c = effectAllow.
Proof.
  apply (proj1 (Decide_allows "p" rules policy (get [city]) policy_ok) eq_refl). by left.
Defined.

Lemma Decide_denial_witness : dec_Resource (Decide policy (get [city; secret])) = secret.
Proof.
  destruct (Decide_denial "p" rules policy (get [city; secret]) policy_ok)
    as (b & r & a & E & Hb & Hr & Hcase); [reflexivity|discriminate|reflexivity|reflexivity].
Defined.

Definition deny_rule : compiledRule :=
  mkCompiledRule PathResource (mkPathPattern [collection_segment "secret"]) "" "no-secret"
    ReadWrite effectDeny 1 1.

Lemma deny_overrides_witness : Allowed (Decide policy (get [secret])) = false.
Proof.
  apply (deny_overrides "p" rules policy (get [secret]) deny_rule secret policy_ok).
  - by left.
  - right. by left.
  - reflexivity.
  - reflexivity.
  - intros a Hin%list_elem_of_In He Ha. vm_compute in Hin.
    destruct Hin as [<-|[<-|[<-|[]]]];
      [left; simpl; lia|discriminate He|vm_compute in Ha; discriminate Ha].
Defined.

Lemma NewPolicy_permutation_witness :
  ∃ p', NewPolicy "p" (rev rules) = Ret p' ∧
        ∀ request, Decide p' request = Decide policy request.
Proof.
  apply (NewPolicy_permutation "p" rules (rev rules) policy policy_ok).
  apply Permutation_rev.
Defined.

Definition all_denied : list Rule := [Root [Deny Query ["no-query"]]].

Lemma adding_denies_narrows_witness : Allowed (Decide policy (get [city])) = true.
Proof.
  apply (adding_denies_narrows "p" rules all_denied policy
    (mkAccessPolicy "p" "" (rules ++ all_denied) (all_directives (rules ++ all_denied)))
    (get [city]) policy_ok).
  - vm_compute. reflexivity.
  - repeat constructor.
  - vm_compute. reflexivity.
Defined.

Definition audit_rules : list Rule := [Root [Audit Write ["writes"]; IgnoreAudit Insert ["inserts"]]].

Lemma Classify_audits_witness :
  aud_Audit (Classify (mkAuditPolicy "a" "" audit_rules (all_directives audit_rules))
    (mkRequest _ Insert [city] None)) = true ↔
  validLeaf Insert = true ∧
  ∃ r c, r ∈ [city] ∧ wins Insert r (all_directives audit_rules) c ∧ c_effect c = effectAudit.
Proof.
  apply (Classify_audits "a" audit_rules
    (mkAuditPolicy "a" "" audit_rules (all_directives audit_rules))
    (mkRequest _ Insert [city] None)).
  vm_compute. reflexivity.
Defined.
End Examples.
