(* ===== verification/AccessSession.v ===== *)
(** * Policies in contexts, secured sessions and databases
    (src/access/context.go, session.go, database.go)

    A session method is an [action]: a function of the context and of the
    state behind the session, which returns Go's result and the new state.  The
    state is whatever an adapter keeps, the records it fills included.  The
    adapters are arguments: any record of methods. *)

From Stdlib Require Import String.
From stdpp Require Import base gmap sets list strings pretty.
From S2P Require Import Prelude GoValues GoStrings RecordKey DalQuery.
From S2P Require Import AccessOperation AccessResource AccessRule AccessPolicy.

Local Open Scope string_scope.
Local Open Scope nat_scope.
Local Open Scope list_scope.

(** Types of the modules [record] and [record/update], and opaque option types. *)
Class SessionTypes `{RecordKeys} := {
  record : Type;
  record_Key : record → option key;
  update : Type;
  precondition : Type;
  insertOption : Type;
  recordsetOption : Type;
  recordsReader : Type;
  recordsetReader : Type;
  transactionOption : Type;
}.

(** An error of a session: a [DeniedError], or what an adapter or a custom
    policy returns. *)
Inductive error :=
| DeniedError (d : Decision)
| OtherError (text : string).

(** ** Contexts

    [OtherContext] is a context made by any other package: it has a parent. *)

Inductive context (P : Type) :=
| Background
| PolicyContext (parent : context P) (combined : list P)
| OtherContext (parent : context P).
Arguments Background {P}.
Arguments PolicyContext {P} parent combined.
Arguments OtherContext {P} parent.

(** The interface [Policy], as a class of the types that implement it. *)
Class Policy `{RecordKeys} (P : Type) := {
  Name : P → string;
  policy_Decide : P → context P → Request → Decision;
  policy_Authorize : P → context P → Request → option error;
}.

(** [AccessPolicy] implements it. *)
#[export] Instance AccessPolicy_Policy `{GoFmt, RecordKeys} : Policy AccessPolicy := {
  Name := ap_name;
  policy_Decide p _ request := Decide p request;
  policy_Authorize p _ request := DeniedError <$> Authorize p request;
}.

Section Contexts.
Context {P : Type}.

(** [ctx.Value(contextPoliciesKey{})]: the nearest value wins. *)
Fixpoint context_policies (ctx : context P) : list P :=
  match ctx with
  | Background => []
  | PolicyContext _ combined => combined
  | OtherContext parent => context_policies parent
  end.

(** [None] is the nil context. *)
Definition policiesFromContext (ctx : option (context P)) : list P :=
  match ctx with
  | None => []
  | Some ctx => context_policies ctx
  end.

(** A nil policy is [None]. *)
Definition WithPolicy (ctx : option (context P)) (policies : list (option P))
  : res unit (context P) :=
  match ctx with
  | None => Panic "access: nil context"
  | Some parent =>
      let combined := (Some <$> policiesFromContext ctx) ++ policies in
      match mapM id combined with
      | Some combined => Ret (PolicyContext parent combined)
      | None => Panic "access: nil context policy"
      end
  end.

(** ** The guard *)

Record guard := mkGuard {
  databasePolicies : list P;
  boundPolicies : list P;
  requireContext : bool;
}.

Definition bind (g : guard) (ctx : option (context P)) : guard :=
  mkGuard (databasePolicies g) (boundPolicies g ++ policiesFromContext ctx) (requireContext g).

Definition requireContextPolicy (g : guard) (operation : Operations) (contextPolicyCount : nat)
  : option error :=
  if negb (requireContext g) || (0 <? contextPolicyCount) then None
  else Some (DeniedError (mkDecision false operation no_resource "context" "" ""
               (effect_String effectDeny) ContextPolicyRequired)).

Context `{RecordKeys} `{!Policy P}.

(** The loop over the policies: the first error ends it. *)
Fixpoint authorize_all (policies : list P) (ctx : context P) (request : Request) : option error :=
  match policies with
  | [] => None
  | policy :: rest =>
      match policy_Authorize policy ctx request with
      | Some err => Some err
      | None => authorize_all rest ctx request
      end
  end.

Definition authorizeRequest (g : guard) (ctx : context P) (request : Request) : option error :=
  let dynamicPolicies := policiesFromContext (Some ctx) in
  let contextPolicyCount := length (boundPolicies g) + length dynamicPolicies in
  match requireContextPolicy g (req_Operation request) contextPolicyCount with
  | Some err => Some err
  | None =>
      authorize_all (databasePolicies g ++ boundPolicies g ++ dynamicPolicies) ctx request
  end.

Definition authorize (g : guard) (ctx : context P) (operation : Operations)
    (resources : list Resource) : option error :=
  authorizeRequest g ctx (mkRequest _ operation resources None).

Definition checkContext (g : guard) (ctx : context P) : option error :=
  requireContextPolicy g 0%Z
    (length (boundPolicies g) + length (policiesFromContext (Some ctx))).
End Contexts.
Arguments guard : clear implicits.

(** ** Resources of queries and records *)

Section Resources.
Context `{ST : SessionTypes}.

Definition resourceForRecordsetSource (source : RecordsetSource) : Resource :=
  match source with
  | CollectionRef _ name _ parent => CollectionResourceFor parent name
  | CollectionGroupRef _ name _ => CollectionGroup name
  | OtherSource _ _ text => OpaqueQuery text
  end.

(** A structured query without a source panics. *)
Definition resourcesForQuery (query : DalQuery.Query) : res error (list Resource) :=
  match query with
  | StructuredQuery q =>
      match q_from q with
      | None => Panic "nil pointer dereference"
      | Some from =>
          Ret (resourceForRecordsetSource (from_Base from)
                 :: ((λ join, resourceForRecordsetSource (join_source join)) <$> from_Joins from))
      end
  | TextQuery text _ _ _ | OtherQuery text => Ret [OpaqueQuery text]
  end.

Definition resourcesForRecords (records : list record) : list Resource :=
  (λ r, RecordResourceForKey (record_Key r)) <$> records.

Definition resourcesForKeys (keys : list (option key)) : list Resource :=
  RecordResourceForKey <$> keys.
End Resources.

(** ** Sessions *)

Section Sessions.
Context `{ST : SessionTypes} {P : Type} `{!Policy P} {S : Type}.

Definition action (A : Type) : Type := context P → S → res error A * S.

(** The methods of [dal.ReadSession] and [dal.WriteSession]. *)
Record ReadSession := mkReadSession {
  rs_Exists : option key → action bool;
  rs_Get : record → action unit;
  rs_GetMulti : list record → action unit;
  rs_ExecuteQueryToRecordsReader : DalQuery.Query → action recordsReader;
  rs_ExecuteQueryToRecordsetReader :
    DalQuery.Query → list recordsetOption → action recordsetReader;
}.

Record WriteSession := mkWriteSession {
  ws_Set : record → action unit;
  ws_SetMulti : list record → action unit;
  ws_Insert : record → list insertOption → action unit;
  ws_InsertMulti : list record → list insertOption → action unit;
  ws_Update : option key → list update → list precondition → action unit;
  ws_UpdateRecord : record → list update → list precondition → action unit;
  ws_UpdateMulti : list (option key) → list update → list precondition → action unit;
  ws_Delete : option key → action unit;
  ws_DeleteMulti : list (option key) → action unit;
}.

Record ReadwriteSession := mkReadwriteSession {
  rw_read : ReadSession;
  rw_write : WriteSession;
}.

(** [if err := guard...; err != nil { return err }; return session...] *)
Definition guarded {A} (check : context P → option error) (k : action A) : action A :=
  λ ctx s,
    match check ctx with
    | Some err => (Fail err, s)
    | None => k ctx s
    end.

Section Secured.
Context (session : ReadSession) (wsession : WriteSession) (g : guard P).

Definition secured_Exists (k : option key) : action bool :=
  guarded (λ ctx, authorize g ctx AccessOperation.Exists [RecordResourceForKey k])
    (rs_Exists session k).

Definition secured_Get (r : record) : action unit :=
  guarded (λ ctx, authorize g ctx Get [RecordResourceForKey (record_Key r)]) (rs_Get session r).

Definition secured_GetMulti (records : list record) : action unit :=
  guarded (λ ctx, authorize g ctx Get (resourcesForRecords records)) (rs_GetMulti session records).

(** The resources of the query come first: that can panic. *)
Definition guarded_query {A} (query : DalQuery.Query) (k : action A) : action A :=
  λ ctx s,
    match resourcesForQuery query with
    | Ret resources =>
        guarded (λ ctx, authorizeRequest g ctx
                          (mkRequest _ AccessOperation.Query resources (Some query))) k ctx s
    | Fail err => (Fail err, s)
    | Panic msg => (Panic msg, s)
    end.

Definition secured_ExecuteQueryToRecordsReader (query : DalQuery.Query) : action recordsReader :=
  guarded_query query (rs_ExecuteQueryToRecordsReader session query).

Definition secured_ExecuteQueryToRecordsetReader (query : DalQuery.Query)
    (options : list recordsetOption) : action recordsetReader :=
  guarded_query query (rs_ExecuteQueryToRecordsetReader session query options).

Definition securedReadSession : ReadSession :=
  mkReadSession secured_Exists secured_Get secured_GetMulti
    secured_ExecuteQueryToRecordsReader secured_ExecuteQueryToRecordsetReader.

Definition secured_Set (r : record) : action unit :=
  guarded (λ ctx, authorize g ctx OpSet [RecordResourceForKey (record_Key r)]) (ws_Set wsession r).

Definition secured_SetMulti (records : list record) : action unit :=
  guarded (λ ctx, authorize g ctx OpSet (resourcesForRecords records)) (ws_SetMulti wsession records).

Definition secured_Insert (r : record) (options : list insertOption) : action unit :=
  guarded (λ ctx, authorize g ctx AccessOperation.Insert [RecordResourceForKey (record_Key r)])
    (ws_Insert wsession r options).

Definition secured_InsertMulti (records : list record) (options : list insertOption) : action unit :=
  guarded (λ ctx, authorize g ctx AccessOperation.Insert (resourcesForRecords records))
    (ws_InsertMulti wsession records options).

Definition secured_Update (k : option key) (updates : list update)
    (preconditions : list precondition) : action unit :=
  guarded (λ ctx, authorize g ctx AccessOperation.Update [RecordResourceForKey k])
    (ws_Update wsession k updates preconditions).

Definition secured_UpdateRecord (r : record) (updates : list update)
    (preconditions : list precondition) : action unit :=
  guarded (λ ctx, authorize g ctx AccessOperation.Update [RecordResourceForKey (record_Key r)])
    (ws_UpdateRecord wsession r updates preconditions).

Definition secured_UpdateMulti (keys : list (option key)) (updates : list update)
    (preconditions : list precondition) : action unit :=
  guarded (λ ctx, authorize g ctx AccessOperation.Update (resourcesForKeys keys))
    (ws_UpdateMulti wsession keys updates preconditions).

Definition secured_Delete (k : option key) : action unit :=
  guarded (λ ctx, authorize g ctx AccessOperation.Delete [RecordResourceForKey k])
    (ws_Delete wsession k).

Definition secured_DeleteMulti (keys : list (option key)) : action unit :=
  guarded (λ ctx, authorize g ctx AccessOperation.Delete (resourcesForKeys keys))
    (ws_DeleteMulti wsession keys).

Definition securedWriteSession : WriteSession :=
  mkWriteSession secured_Set secured_SetMulti secured_Insert secured_InsertMulti
    secured_Update secured_UpdateRecord secured_UpdateMulti secured_Delete secured_DeleteMulti.
End Secured.

Definition securedReadwriteSession (session : ReadwriteSession) (g : guard P) : ReadwriteSession :=
  mkReadwriteSession (securedReadSession (rw_read session) g)
    (securedWriteSession (rw_write session) g).

Definition SecureReadSession (session : ReadSession) (policies : list P) : ReadSession :=
  securedReadSession session (mkGuard policies [] false).
Definition SecureWriteSession (session : WriteSession) (policies : list P) : WriteSession :=
  securedWriteSession session (mkGuard policies [] false).
Definition SecureReadwriteSession (session : ReadwriteSession) (policies : list P)
  : ReadwriteSession :=
  securedReadwriteSession session (mkGuard policies [] false).

(** ** Databases *)

(** [dal.DB]: descriptive methods, the read methods, and transactions that run
    a worker. *)
Record DB := mkDB {
  db_ID : string;
  db_SupportsConcurrentConnections : bool;
  db_read : ReadSession;
  db_RunReadonlyTransaction :
    (ReadSession → action unit) → list transactionOption → action unit;
  db_RunReadwriteTransaction :
    (ReadwriteSession → action unit) → list transactionOption → action unit;
}.

(** A database handle: an adapter's, or a [*securedDB] around a handle. *)
Inductive dal_DB :=
| AdapterDB (d : DB)
| securedDB (db : dal_DB) (g : guard P).

(** The worker runs in a context that also carries the secured transaction. *)
Definition in_transaction (worker : action unit) : action unit :=
  λ workerCtx, worker (OtherContext workerCtx).

(** The methods of [securedDB] over those of the handle it wraps. *)
Definition secured_RunReadonlyTransaction (db : DB) (g : guard P)
    (worker : ReadSession → action unit) (options : list transactionOption) : action unit :=
  guarded (λ ctx, checkContext g ctx)
    (λ ctx, let captured := bind g (Some ctx) in
       db_RunReadonlyTransaction db
         (λ tx, in_transaction (worker (securedReadSession tx captured))) options ctx).

Definition secured_RunReadwriteTransaction (db : DB) (g : guard P)
    (worker : ReadwriteSession → action unit) (options : list transactionOption) : action unit :=
  guarded (λ ctx, checkContext g ctx)
    (λ ctx, let captured := bind g (Some ctx) in
       db_RunReadwriteTransaction db
         (λ tx, in_transaction (worker (securedReadwriteSession tx captured))) options ctx).

Fixpoint methods (db : dal_DB) : DB :=
  match db with
  | AdapterDB d => d
  | securedDB db g =>
      let d := methods db in
      mkDB (db_ID d) (db_SupportsConcurrentConnections d) (securedReadSession (db_read d) g)
        (secured_RunReadonlyTransaction d g) (secured_RunReadwriteTransaction d g)
  end.

(** ** Securing a database *)

Record secureDBOptions := mkSecureDBOptions {
  opt_databasePolicies : list P;
  opt_requireContext : bool;
}.

Inductive secure_error :=
| nil_database_policy (i : nat)
| db_required
| nil_db_option.

Definition DBOption : Type := secureDBOptions → res secure_error secureDBOptions.

(** The first nil policy's index, or the policies. *)
Definition non_nil_policies (policies : list (option P)) : res secure_error (list P) :=
  traverse (λ i p, match p with Some p => Ret p | None => Fail (nil_database_policy i) end) policies.

Definition WithDatabasePolicies (policies : list (option P)) : DBOption := λ options,
  do ps <- non_nil_policies policies;
  Ret (mkSecureDBOptions (opt_databasePolicies options ++ ps) (opt_requireContext options)).

Definition RequireContextPolicy : DBOption := λ options,
  Ret (mkSecureDBOptions (opt_databasePolicies options) true).

Definition SecureDB (db : option dal_DB) (options : list (option DBOption))
  : res secure_error dal_DB :=
  match db with
  | None => Fail db_required
  | Some db =>
      do settings <-
        fold_res (λ option settings,
          match option with None => Fail nil_db_option | Some option => option settings end)
          options (mkSecureDBOptions [] false);
      Ret (securedDB db
             (mkGuard (opt_databasePolicies settings) [] (opt_requireContext settings)))
  end.

Definition secure_error_Error (e : secure_error) : string :=
  match e with
  | nil_database_policy i => "access: nil database policy at index " +:+ pretty i
  | db_required => "access: db is required"
  | nil_db_option => "access: nil DB option"
  end.

Definition MustSecureDB (db : option dal_DB) (options : list (option DBOption)) : res secure_error dal_DB :=
  match SecureDB db options with Fail err => Panic (secure_error_Error err) | r => r end.

(** A secured handle gets a copy with more bound policies. *)
Definition BindDB (db : dal_DB) (ctx : option (context P)) : dal_DB :=
  match db with
  | securedDB inner g => securedDB inner (bind g ctx)
  | AdapterDB _ => securedDB db (bind (mkGuard [] [] false) ctx)
  end.
End Sessions.

(** ** What a secured session promises

    A call as data, the request it stands for, and what a session does with
    it: the promise is about every method at once. *)

Section Promise.
Context `{ST : SessionTypes} {P : Type} `{!Policy P} {S : Type}.

Inductive call :=
| CallExists (k : option key)
| CallGet (r : record)
| CallGetMulti (rs : list record)
| CallRecordsReader (q : DalQuery.Query)
| CallRecordsetReader (q : DalQuery.Query) (options : list recordsetOption)
| CallSet (r : record)
| CallSetMulti (rs : list record)
| CallInsert (r : record) (options : list insertOption)
| CallInsertMulti (rs : list record) (options : list insertOption)
| CallUpdate (k : option key) (updates : list update) (pre : list precondition)
| CallUpdateRecord (r : record) (updates : list update) (pre : list precondition)
| CallUpdateMulti (ks : list (option key)) (updates : list update) (pre : list precondition)
| CallDelete (k : option key)
| CallDeleteMulti (ks : list (option key)).

Inductive answer :=
| NoAnswer
| BoolAnswer (b : bool)
| RecordsAnswer (r : recordsReader)
| RecordsetAnswer (r : recordsetReader).

Definition answered {A} (f : A → answer) (m : res error A * S) : res error answer * S :=
  (rmap f m.1, m.2).

Definition exec (s : @ReadwriteSession _ ST P S) (c : call) (ctx : context P) (st : S)
  : res error answer * S :=
  let none {A} (_ : A) := NoAnswer in
  match c with
  | CallExists k => answered BoolAnswer (rs_Exists (rw_read s) k ctx st)
  | CallGet r => answered none (rs_Get (rw_read s) r ctx st)
  | CallGetMulti rs => answered none (rs_GetMulti (rw_read s) rs ctx st)
  | CallRecordsReader q =>
      answered RecordsAnswer (rs_ExecuteQueryToRecordsReader (rw_read s) q ctx st)
  | CallRecordsetReader q o =>
      answered RecordsetAnswer (rs_ExecuteQueryToRecordsetReader (rw_read s) q o ctx st)
  | CallSet r => answered none (ws_Set (rw_write s) r ctx st)
  | CallSetMulti rs => answered none (ws_SetMulti (rw_write s) rs ctx st)
  | CallInsert r o => answered none (ws_Insert (rw_write s) r o ctx st)
  | CallInsertMulti rs o => answered none (ws_InsertMulti (rw_write s) rs o ctx st)
  | CallUpdate k u p => answered none (ws_Update (rw_write s) k u p ctx st)
  | CallUpdateRecord r u p => answered none (ws_UpdateRecord (rw_write s) r u p ctx st)
  | CallUpdateMulti ks u p => answered none (ws_UpdateMulti (rw_write s) ks u p ctx st)
  | CallDelete k => answered none (ws_Delete (rw_write s) k ctx st)
  | CallDeleteMulti ks => answered none (ws_DeleteMulti (rw_write s) ks ctx st)
  end.

(** Operation and resources of a call; a query without a source panics. *)
Definition call_request (c : call) : res error Request :=
  let on_key op k := Ret (mkRequest _ op [RecordResourceForKey k] None) in
  let on_record op r := on_key op (record_Key r) in
  let on_keys op ks := Ret (mkRequest _ op (RecordResourceForKey <$> ks) None) in
  let on_records op rs := on_keys op (record_Key <$> rs) in
  let on_query q := rmap (λ rs, mkRequest _ AccessOperation.Query rs (Some q)) (resourcesForQuery q) in
  match c with
  | CallExists k => on_key AccessOperation.Exists k
  | CallGet r => on_record Get r
  | CallGetMulti rs => on_records Get rs
  | CallRecordsReader q => on_query q
  | CallRecordsetReader q _ => on_query q
  | CallSet r => on_record OpSet r
  | CallSetMulti rs => on_records OpSet rs
  | CallInsert r _ => on_record AccessOperation.Insert r
  | CallInsertMulti rs _ => on_records AccessOperation.Insert rs
  | CallUpdate k _ _ => on_key AccessOperation.Update k
  | CallUpdateRecord r _ _ => on_record AccessOperation.Update r
  | CallUpdateMulti ks _ _ => on_keys AccessOperation.Update ks
  | CallDelete k => on_key AccessOperation.Delete k
  | CallDeleteMulti ks => on_keys AccessOperation.Delete ks
  end.

Lemma exec_secured (s : ReadwriteSession) g c ctx (st : S) req :
  call_request c = Ret req →
  exec (securedReadwriteSession s g) c ctx st =
  match authorizeRequest g ctx req with
  | Some err => (Fail err, st)
  | None => exec s c ctx st
  end.
Proof.
  intros Hreq. destruct c; simpl in Hreq; try (injection Hreq as <-);
    unfold exec, answered; simpl;
    unfold secured_Exists, secured_Get, secured_GetMulti, secured_Set, secured_SetMulti,
      secured_Insert, secured_InsertMulti, secured_Update, secured_UpdateRecord,
      secured_UpdateMulti, secured_Delete, secured_DeleteMulti,
      secured_ExecuteQueryToRecordsReader, secured_ExecuteQueryToRecordsetReader,
      guarded_query, guarded, authorize, resourcesForRecords, resourcesForKeys;
    rewrite <- ?list_fmap_compose; unfold compose;
    try (destruct (authorizeRequest _ _ _); done).
  all: destruct (resourcesForQuery q) as [rs| |]; simplify_eq/=; by destruct (authorizeRequest _ _ _).
Qed.

(** A query without a source panics before anything is asked of the session. *)
Lemma exec_secured_panic (s : ReadwriteSession) g c ctx (st : S) :
  (∀ req, call_request c ≠ Ret req) → (exec (securedReadwriteSession s g) c ctx st).2 = st.
Proof.
  intros Hno. destruct c; simpl in Hno; try (by destruct (Hno _ eq_refl));
    unfold exec, answered; simpl;
    unfold secured_ExecuteQueryToRecordsReader, secured_ExecuteQueryToRecordsetReader, guarded_query;
    destruct (resourcesForQuery q) as [rs| |]; try done; by destruct (Hno _ eq_refl).
Qed.

(** The policies a guard applies in a context. *)
Definition guard_policies (g : guard P) (ctx : context P) : list P :=
  databasePolicies g ++ boundPolicies g ++ policiesFromContext (Some ctx).

Lemma authorize_all_None policies ctx req :
  authorize_all policies ctx req = None ↔
  ∀ p, p ∈ policies → policy_Authorize p ctx req = None.
Proof.
  induction policies as [|p ps IH]; simpl; [set_solver|].
  destruct (policy_Authorize p ctx req) eqn:E.
  - split; [done|]. intros Hall. rewrite <- E. apply Hall. set_solver.
  - rewrite IH. set_solver.
Qed.

Lemma authorizeRequest_None g ctx req :
  authorizeRequest g ctx req = None ↔
  (requireContext g = true → boundPolicies g ++ policiesFromContext (Some ctx) ≠ []) ∧
  ∀ p, p ∈ guard_policies g ctx → policy_Authorize p ctx req = None.
Proof.
  unfold authorizeRequest, requireContextPolicy, guard_policies. rewrite <- length_app.
  destruct (requireContext g); simpl.
  - destruct (boundPolicies g ++ context_policies ctx) as [|p ps]; simpl;
      [naive_solver|]. rewrite authorize_all_None. naive_solver.
  - rewrite authorize_all_None. naive_solver.
Qed.

(** A session is confined by a policy when no call that the policy rejects
    reaches the adapter: it fails and leaves the state alone. *)
Definition confined (p : P) (s : @ReadwriteSession _ ST P S) : Prop :=
  ∀ c ctx st req, call_request c = Ret req → policy_Authorize p ctx req ≠ None →
    ∃ err, exec s c ctx st = (Fail err, st).

Lemma secured_confined (s : ReadwriteSession) g p :
  p ∈ databasePolicies g ++ boundPolicies g → confined p (securedReadwriteSession s g).
Proof.
  intros Hp c ctx st req Hreq Hdeny. rewrite (exec_secured s g c ctx st req Hreq).
  destruct (authorizeRequest g ctx req) as [err|] eqn:E; [by exists err|].
  apply authorizeRequest_None in E as [_ Hall]. exfalso. apply Hdeny, Hall.
  unfold guard_policies. set_solver.
Qed.
End Promise.

(** ** Properties *)

Section Properties.
Context `{ST : SessionTypes} {P : Type} `{!Policy P} {S : Type}.

(** Every policy in force lets the request pass. *)
Definition authorized (g : guard P) (ctx : context P) (req : Request) : Prop :=
  (requireContext g = true → boundPolicies g ++ policiesFromContext (Some ctx) ≠ []) ∧
  ∀ p, p ∈ guard_policies g ctx → policy_Authorize p ctx req = None.

(** C2: a secured session is the session it wraps as far as all policies in
    force allow, and nothing beyond: a call whose request every database, bound
    and context policy authorizes behaves as on the wrapped session, and any
    other call fails without reaching the adapter. *)
Theorem secured_session_mediates (s : @ReadwriteSession _ ST P S) g c ctx st req
    (Hreq : call_request c = Ret req) :
  (authorized g ctx req ∧ exec (securedReadwriteSession s g) c ctx st = exec s c ctx st) ∨
  (¬ authorized g ctx req ∧
   ∃ err, exec (securedReadwriteSession s g) c ctx st = (Fail err, st)).
Proof.
  rewrite (exec_secured s g c ctx st req Hreq). unfold authorized.
  rewrite <- authorizeRequest_None.
  destruct (authorizeRequest g ctx req) as [err|]; [right|by left]. split; [done|by exists err].
Qed.

(** Reading through a database handle, as a call on a session. *)
Definition exec_db (db : dal_DB) (w : WriteSession) (c : call) (ctx : context P) (st : S)
  : res error answer * S :=
  exec (mkReadwriteSession (db_read (methods db)) w) c ctx st.

Definition reads (c : call) : bool :=
  match c with
  | CallExists _ | CallGet _ | CallGetMulti _ | CallRecordsReader _
  | CallRecordsetReader _ _ => true
  | _ => false
  end.

Lemma exec_secured_read (s s' : ReadwriteSession) g c ctx (st : S) :
  reads c = true → rw_read s' = securedReadSession (rw_read s) g →
  exec s' c ctx st = exec (securedReadwriteSession s g) c ctx st.
Proof. intros Hc Hs. by destruct c; simpl in *; rewrite ?Hs. Qed.

(** The policies that a handle has whatever the context, and the handle it
    calls. *)
Definition handle_policies (db : @dal_DB _ ST P S) : list P :=
  match db with AdapterDB _ => [] | securedDB _ g => databasePolicies g ++ boundPolicies g end.
Definition wrapped (db : @dal_DB _ ST P S) : dal_DB :=
  match db with AdapterDB _ => db | securedDB inner _ => inner end.

(** The same of a session that only reads. *)
Definition confined_read (p : P) (s : @ReadSession _ ST P S) : Prop :=
  ∀ w c ctx st req, reads c = true → call_request c = Ret req → policy_Authorize p ctx req ≠ None →
    ∃ err, exec (mkReadwriteSession s w) c ctx st = (Fail err, st).

Lemma secured_confined_read (s : @ReadSession _ ST P S) g p :
  p ∈ databasePolicies g ++ boundPolicies g → confined_read p (securedReadSession s g).
Proof.
  intros Hp w c ctx st req Hc Hreq Hdeny.
  rewrite (exec_secured_read (mkReadwriteSession s w) _ g) by done. by eapply secured_confined.
Qed.

Lemma BindDB_secured (db : @dal_DB _ ST P S) ctx :
  ∃ g, BindDB db ctx = securedDB (wrapped db) g ∧
    ∀ p, p ∈ handle_policies db ∨ p ∈ policiesFromContext ctx → p ∈ databasePolicies g ++ boundPolicies g.
Proof. destruct db as [d|inner g]; eexists; (split; [reflexivity|]); intros p Hp; simpl in *; set_solver. Qed.

Lemma readonly_transaction_confined db g worker options ctx (st : S) :
  (∃ err, db_RunReadonlyTransaction (methods (securedDB db g)) worker options ctx st = (Fail err, st)) ∨
  ∃ secure, db_RunReadonlyTransaction (methods (securedDB db g)) worker options ctx st =
      db_RunReadonlyTransaction (methods db) (λ tx, in_transaction (worker (secure tx))) options ctx st ∧
    ∀ tx p, p ∈ guard_policies g ctx → confined_read p (secure tx).
Proof.
  simpl. unfold secured_RunReadonlyTransaction, guarded.
  destruct (checkContext g ctx) as [err|]; [left; by exists err|right].
  exists (λ tx, securedReadSession tx (bind g (Some ctx))). split; [done|].
  intros tx p Hp. by apply secured_confined_read.
Qed.

Lemma readwrite_transaction_confined db g worker options ctx (st : S) :
  (∃ err, db_RunReadwriteTransaction (methods (securedDB db g)) worker options ctx st = (Fail err, st)) ∨
  ∃ secure, db_RunReadwriteTransaction (methods (securedDB db g)) worker options ctx st =
      db_RunReadwriteTransaction (methods db) (λ tx, in_transaction (worker (secure tx))) options ctx st ∧
    ∀ tx p, p ∈ guard_policies g ctx → confined p (secure tx).
Proof.
  simpl. unfold secured_RunReadwriteTransaction, guarded.
  destruct (checkContext g ctx) as [err|]; [left; by exists err|right].
  exists (λ tx, securedReadwriteSession tx (bind g (Some ctx))). split; [done|].
  intros tx p Hp. by apply secured_confined.
Qed.

(** C23: a handle bound to a context keeps that context's policies, and those it
    had, for good, through reads and both kinds of transactions, over any adapter.
    Whatever context a call brings, a read that such a policy rejects fails
    without reaching the adapter; and a transaction fails before the adapter
    is asked, or is the adapter's own on a worker that only ever gets sessions
    on which no call that the policy rejects, read or write, reaches the adapter. *)
Theorem BindDB_confines (db : @dal_DB _ ST P S) bound :
  let h := methods (BindDB db (Some bound)) in
  let adapter := methods (wrapped db) in
  let kept p := p ∈ handle_policies db ∨ p ∈ policiesFromContext (Some bound) in
  (∀ p, kept p → p ∈ handle_policies (BindDB db (Some bound))) ∧
  (∀ p, kept p → confined_read p (db_read h)) ∧
  (∀ worker options ctx st,
     (∃ err, db_RunReadonlyTransaction h worker options ctx st = (Fail err, st)) ∨
     ∃ secure, db_RunReadonlyTransaction h worker options ctx st =
         db_RunReadonlyTransaction adapter (λ tx, in_transaction (worker (secure tx))) options ctx st ∧
       ∀ tx p, kept p → confined_read p (secure tx)) ∧
  (∀ worker options ctx st,
     (∃ err, db_RunReadwriteTransaction h worker options ctx st = (Fail err, st)) ∨
     ∃ secure, db_RunReadwriteTransaction h worker options ctx st =
         db_RunReadwriteTransaction adapter (λ tx, in_transaction (worker (secure tx))) options ctx st ∧
       ∀ tx p, kept p → confined p (secure tx)).
Proof.
  destruct (BindDB_secured db (Some bound)) as (g & -> & Hg).
  assert (∀ p ctx, p ∈ handle_policies db ∨ p ∈ policiesFromContext (Some bound) → p ∈ guard_policies g ctx) as Hg'.
  { intros p ctx Hp. specialize (Hg p Hp). unfold guard_policies. set_solver. }
  split_and!.
  - exact Hg.
  - intros p Hp. by apply secured_confined_read, Hg.
  - intros worker options ctx st.
    destruct (readonly_transaction_confined (wrapped db) g worker options ctx st) as [Herr|(secure & Heq & Hs)]; [by left|right].
    exists secure. split; [done|]. intros tx p Hp. by apply Hs, Hg'.
  - intros worker options ctx st.
    destruct (readwrite_transaction_confined (wrapped db) g worker options ctx st) as [Herr|(secure & Heq & Hs)]; [by left|right].
    exists secure. split; [done|]. intros tx p Hp. by apply Hs, Hg'.
Qed.

(** A transaction on a secured database hands its worker only sessions
    confined by the database's policies, the bound ones and those of the context
    that started it, whatever context the worker then uses; or it fails before
    the adapter is asked. *)
Theorem transactions_are_confined (db : @dal_DB _ ST P S) g worker options ctx st :
  (∃ err, db_RunReadwriteTransaction (methods (securedDB db g)) worker options ctx st
          = (Fail err, st)) ∨
  ∃ secure,
    db_RunReadwriteTransaction (methods (securedDB db g)) worker options ctx st =
    db_RunReadwriteTransaction (methods db)
      (λ tx, in_transaction (worker (secure tx))) options ctx st ∧
    ∀ tx p, p ∈ guard_policies g ctx → confined p (secure tx).
Proof. by apply readwrite_transaction_confined. Qed.

(** The options this package makes. *)
Definition known_option (o : option (@DBOption P)) : Prop :=
  o = Some RequireContextPolicy ∨ ∃ ps, o = Some (WithDatabasePolicies ps).

Lemma fold_options_requires (options : list (option (@DBOption P))) settings settings' :
  Forall known_option options →
  fold_res (λ o s, match o with None => Fail nil_db_option | Some o => o s end) options settings
    = Ret settings' →
  opt_requireContext settings = true → opt_requireContext settings' = true.
Proof.
  intros Ho Hf Hs. revert Hs Hf. apply (fold_res_invariant (λ s, opt_requireContext s = true)).
  intros o s s' Hin Hs E. rewrite Forall_forall in Ho.
  destruct (Ho o Hin) as [->|[ps ->]]; simpl in E;
    unfold RequireContextPolicy, WithDatabasePolicies in E; inv_res; done.
Qed.

Lemma SecureDB_requires (db : @dal_DB _ ST P S) options h :
  Forall known_option options → Some RequireContextPolicy ∈ options →
  SecureDB (Some db) options = Ret h →
  ∃ g, h = securedDB db g ∧ requireContext g = true ∧ boundPolicies g = [].
Proof.
  intros Ho (before & after & ->)%list_elem_of_split E. unfold SecureDB in E. inv_res.
  eexists. split; [reflexivity|]. split; [|done]. simpl.
  rewrite fold_res_app in Hm. inv_res. apply Forall_app in Ho as [_ [_ Ho]%Forall_cons].
  by eapply fold_options_requires.
Qed.

(** With [RequireContextPolicy] among its options a secured database fails
    closed: without a context policy no read and no transaction reaches the
    adapter. *)
Theorem RequireContextPolicy_fails_closed (db : @dal_DB _ ST P S) options h w c ctx st req worker txo
    (Hknown : Forall known_option options) (Hopt : Some RequireContextPolicy ∈ options)
    (Hh : SecureDB (Some db) options = Ret h)
    (Hctx : policiesFromContext (Some ctx) = [])
    (Hc : reads c = true) (Hreq : call_request c = Ret req) :
  (∃ err, exec_db h w c ctx st = (Fail err, st)) ∧
  ∃ err, db_RunReadwriteTransaction (methods h) worker txo ctx st = (Fail err, st).
Proof.
  destruct (SecureDB_requires db options h Hknown Hopt Hh) as (g & -> & Hreqc & Hb).
  split.
  - unfold exec_db.
    rewrite (exec_secured_read (mkReadwriteSession (db_read (methods db)) w) _ g) by done.
    rewrite (exec_secured _ g c ctx st req Hreq).
    destruct (authorizeRequest g ctx req) as [err|] eqn:E; [by exists err|].
    apply authorizeRequest_None in E as [Hne _]. exfalso. apply Hne; [done|].
    by rewrite Hb, Hctx.
  - simpl. unfold secured_RunReadwriteTransaction, guarded, checkContext, requireContextPolicy.
    rewrite Hctx, Hb, Hreqc. simpl. by eexists.
Qed.
End Properties.

(** Default deny end to end: over a policy that compiles, a write of a
    record for which no rule applies fails with the policy's decision and
    leaves the adapter untouched. *)
Theorem secured_write_default_deny `{GoFmt, ST : SessionTypes} {S : Type}
    (s : @ReadwriteSession _ ST AccessPolicy S) name rules p r ctx st
    (Hp : NewPolicy name rules = Ret p)
    (Hnone : ∀ c, c ∈ ap_compiled p →
       rule_applies OpSet (RecordResourceForKey (record_Key r)) c = false) :
  ws_Set (rw_write (SecureReadwriteSession s [p])) r ctx st =
  (Fail (DeniedError (mkDecision false OpSet (RecordResourceForKey (record_Key r)) name "" ""
     "deny" NoMatchingAllowRule)), st).
Proof.
  simpl. unfold secured_Set, guarded, authorize, authorizeRequest. simpl.
  unfold Authorize, Decide. simpl.
  apply NewPolicy_good in Hp as Hg. apply NewPolicy_Ret in Hp as (_ & _ & Hp).
  destruct (decideResource_cases p OpSet (RecordResourceForKey (record_Key r)) Hg) as [_ Hd].
  rewrite (Hd Hnone). simpl. rewrite Hp. done.
Qed.

(** ** Examples: an adapter that appends every written key to a log *)

Module SessionExamples.

#[local] Existing Instance plain_fmt.
#[local] Existing Instance chain_keys.

#[local] Instance types : SessionTypes := {|
  record := chain_key; record_Key r := Some r; update := unit; precondition := unit;
  insertOption := unit; recordsetOption := unit; recordsReader := unit;
  recordsetReader := unit; transactionOption := unit;
|}.

Definition log : Type := list chain_key.

Definition read_session : @ReadSession _ types AccessPolicy log :=
  mkReadSession (λ _ _ s, (Ret true, s)) (λ _ _ s, (Ret tt, s)) (λ _ _ s, (Ret tt, s))
    (λ _ _ s, (Ret tt, s)) (λ _ _ _ s, (Ret tt, s)).

Definition write_session : @WriteSession _ types AccessPolicy log :=
  mkWriteSession (λ r _ s, (Ret tt, r :: s)) (λ rs _ s, (Ret tt, rs ++ s))
    (λ r _ _ s, (Ret tt, r :: s)) (λ rs _ _ s, (Ret tt, rs ++ s))
    (λ _ _ _ _ s, (Ret tt, s)) (λ r _ _ _ s, (Ret tt, r :: s)) (λ _ _ _ _ s, (Ret tt, s))
    (λ _ _ s, (Ret tt, s)) (λ _ _ s, (Ret tt, s)).

Definition session : @ReadwriteSession _ types AccessPolicy log :=
  mkReadwriteSession read_session write_session.

Definition database : @dal_DB _ types AccessPolicy log :=
  AdapterDB (mkDB "mem" false read_session
    (λ worker _ ctx s, worker read_session ctx s)
    (λ worker _ ctx s, worker session ctx s)).

Definition policy : AccessPolicy := AccessPolicy.Examples.policy.
Definition LON : @record _ types := ChainKey "cities" (vstr "LON") None.
Definition hidden : @record _ types := ChainKey "secret" (vint 7) None.
Definition req_hidden : Request := mkRequest _ Get [RecordResourceForKey (record_Key hidden)] None.
Definition bound : context AccessPolicy := PolicyContext Background [policy].

Lemma secured_session_mediates_witness :
  exec (securedReadwriteSession session (mkGuard [policy] [] false)) (CallGet LON) Background []
  = (Ret NoAnswer, []).
Proof.
  destruct (secured_session_mediates session (mkGuard [policy] [] false) (CallGet LON) Background []
    (mkRequest _ Get [RecordResourceForKey (record_Key LON)] None) eq_refl) as [[_ E]|[Hno _]].
  - exact E.
  - exfalso. apply Hno. split; [discriminate|]. intros p Hp%list_elem_of_In.
    simpl in Hp. destruct Hp as [<-|[]]. vm_compute. reflexivity.
Defined.

(** A worker of the bound handle cannot read what the bound policy hides, nor
    write it, in a context without policies. *)
Definition peek : @ReadwriteSession _ types AccessPolicy log → @action AccessPolicy log unit := λ tx ctx s,
  match rs_Get (rw_read tx) hidden Background s with
  | (Ret _, s) => (Ret tt, s)
  | (_, s) => ws_Set (rw_write tx) hidden Background s
  end.

Lemma BindDB_confines_witness :
  (∃ err, exec_db (BindDB database (Some bound)) write_session (CallGet hidden) Background [] = (Fail err, [])) ∧
  ∃ secure : @ReadwriteSession _ types AccessPolicy log → ReadwriteSession,
    db_RunReadwriteTransaction (methods (BindDB database (Some bound))) peek [] Background []
      = peek (secure session) (OtherContext Background) [] ∧
    confined policy (secure session).
Proof.
  destruct (BindDB_confines database bound) as (_ & Hreads & _ & Hrw).
  assert (policy ∈ handle_policies database ∨ policy ∈ policiesFromContext (Some bound)) as Hp by (right; by left).
  split.
  - apply (Hreads policy Hp write_session (CallGet hidden) Background [] req_hidden); [reflexivity|reflexivity|vm_compute; discriminate].
  - destruct (Hrw peek [] Background []) as [[err Herr]|(secure & Heq & Hconf)].
    + exists (λ s, securedReadwriteSession s (mkGuard [policy] [] false)). split; [vm_compute; reflexivity|].
      apply secured_confined. by left.
    + exists secure. split; [exact Heq|by apply Hconf].
Defined.

Example peek_is_denied :
  (db_RunReadwriteTransaction (methods (BindDB database (Some bound))) peek [] Background []).2 = [].
Proof. vm_compute. reflexivity. Qed.

Lemma RequireContextPolicy_fails_closed_witness :
  ∃ err, exec_db (securedDB database (mkGuard [] [] true)) write_session (CallGet LON) Background []
         = (Fail err, []).
Proof.
  apply (RequireContextPolicy_fails_closed database [Some RequireContextPolicy]
    (securedDB database (mkGuard [] [] true)) write_session (CallGet LON) Background []
    (mkRequest _ Get [RecordResourceForKey (record_Key LON)] None) (λ _ _ s, (Ret tt, s)) []).
  - repeat constructor.
  - by left.
  - reflexivity.
  - reflexivity.
  - reflexivity.
  - reflexivity.
Defined.

Lemma secured_write_default_deny_witness :
  (ws_Set (rw_write (SecureReadwriteSession session [policy])) LON Background []).2 = [].
Proof.
  rewrite (secured_write_default_deny session "p" AccessPolicy.Examples.rules policy LON
    Background [] AccessPolicy.Examples.policy_ok); [reflexivity|].
  intros c Hc%list_elem_of_In. vm_compute in Hc.
  destruct Hc as [<-|[<-|[<-|[]]]]; vm_compute; reflexivity.
Defined.
End SessionExamples.
