(* ===== verification/AccessDocument.v ===== *)
(** * Portable policy documents (src/access/document.go)

    A codec is a parameter: YAML and JSON encoders are not part of the program.
    A stream is a value of the codec's type [B]. *)

From Stdlib Require Import String Ascii.
From stdpp Require Import base gmap sets list strings.
From S2P Require Import Prelude GoValues GoStrings RecordKey.
From S2P Require Import AccessOperation AccessResource AccessRule AccessPolicy.

Local Open Scope string_scope.
Local Open Scope nat_scope.
Local Open Scope list_scope.
Set Warnings "-register-all".

Definition DocumentAPIVersion : string := "dalgo.io/access/v1".
Definition AccessPolicyKind : string := "AccessPolicy".
Definition AuditPolicyKind : string := "AuditPolicy".

Record DocumentRule := mkDocumentRule {
  dr_ID : string;
  dr_Effect : string;
  dr_Operations : list string;
}.

Inductive DocumentScope := mkDocumentScope {
  ds_Path : string;
  ds_CollectionGroup : string;
  ds_OpaqueQuery : bool;
  ds_Rules : list DocumentRule;
  ds_Scopes : list DocumentScope;
}.

Record Document := mkDocument {
  doc_APIVersion : string;
  doc_Kind : string;
  doc_Metadata_Name : string;
  doc_Default : string;
  doc_Scopes : list DocumentScope;
}.

Inductive document_error :=
| codec_error (text : string)
| reader_and_codec_required
| unsupported_apiVersion (v : string)
| metadata_name_required
| scope_required
| unexpected_kind (kind : string)
| unexpected_default (value : string)
| at_scopes (i : nat) (e : document_error)
| at_rules (i : nat) (e : document_error)
| one_selector_required
| scope_contains_no_rules
| rule_id_required
| document_operations (e : operations_error)
| unknown_effect (value : string)
| effect_not_valid_for_kind (e : effect)
| path_must_start_with_slash (value : string)
| path_empty_segment (value : string)
| path_invalid_escaping (value : string)
| path_star_collection (value : string)
| document_path (e : path_error)
| document_policy (e : policy_error)
| policy_required
| not_serializable_rule_kind
| not_serializable_name
| not_serializable_operations (e : operations_error)
| not_serializable_id (v : value).

Record Codec (B : Type) := mkCodec {
  codec_Decode : B → res document_error Document;
  codec_Encode : Document → res document_error B;
}.
Arguments mkCodec {B} _ _.
Arguments codec_Decode {B} _ _.
Arguments codec_Encode {B} _ _.

(** ** Reading *)

Definition parseEffect (v : string) : res document_error effect :=
  let text := ToLower (TrimSpace v) in
  if String.eqb text (effect_String effectAllow) then Ret effectAllow
  else if String.eqb text (effect_String effectDeny) then Ret effectDeny
  else if String.eqb text (effect_String effectAudit) then Ret effectAudit
  else if String.eqb text (effect_String effectIgnoreAudit) then Ret effectIgnoreAudit
  else Fail (unknown_effect v).

(** One part of a path, at index [i]. *)
Definition parse_path_part (v : string) (i : nat) (part : string) : res document_error value :=
  if String.eqb part "" then Fail (path_empty_segment v)
  else
    match PathUnescape part with
    | None => Fail (path_invalid_escaping v)
    | Some decoded =>
        if (i mod 2 =? 1) && String.eqb decoded "*" then Ret AnyID
        else if String.eqb decoded "*" then Fail (path_star_collection v)
        else Ret (vstr decoded)
    end.

Definition parseDocumentPath (v : string) : res document_error PathPattern :=
  let path := TrimSpace v in
  if negb (HasPrefix path "/") then Fail (path_must_start_with_slash v)
  else if String.eqb path "/" || String.eqb path "/**" then Ret (mkPathPattern [])
  else
    let path := TrimSuffix path "/**" in
    let parts := Split (TrimPrefix path "/") "/" in
    do patternParts <- traverse (parse_path_part v) parts;
    rmap_error document_path (NewPath patternParts).

Definition ruleFromDocumentRule (allowedEffects : effect → bool) (documentRule : DocumentRule)
  : res document_error Rule :=
  let id := TrimSpace (dr_ID documentRule) in
  if String.eqb id "" then Fail rule_id_required
  else
    do operations <- rmap_error document_operations (parseOperations (dr_Operations documentRule));
    do ruleEffect <- parseEffect (dr_Effect documentRule);
    if allowedEffects ruleEffect then Ret (directive ruleEffect operations [id])
    else Fail (effect_not_valid_for_kind ruleEffect).

Definition selector_count (scope : DocumentScope) : nat :=
  (if String.eqb (ds_Path scope) "" then 0 else 1)
  + (if String.eqb (ds_CollectionGroup scope) "" then 0 else 1)
  + (if ds_OpaqueQuery scope then 1 else 0).

Fixpoint ruleFromDocumentScope (allowedEffects : effect → bool) (scope : DocumentScope)
  : res document_error Rule :=
  if negb (selector_count scope =? 1) then Fail one_selector_required
  else
    do rules <- traverse (λ i r, rmap_error (at_rules i) (ruleFromDocumentRule allowedEffects r))
                  (ds_Rules scope);
    do scopes <- traverse_from (λ i s, rmap_error (at_scopes i) (ruleFromDocumentScope allowedEffects s))
                  0 (ds_Scopes scope);
    match rules ++ scopes with
    | [] => Fail scope_contains_no_rules
    | children =>
        if negb (String.eqb (ds_Path scope) "") then
          do pattern <- parseDocumentPath (ds_Path scope); Ret (Under pattern children)
        else if negb (String.eqb (ds_CollectionGroup scope) "")
        then Ret (CollectionGroupScope (ds_CollectionGroup scope) children)
        else Ret (OpaqueQueryScope children)
    end.

Definition rulesFromDocument (document : Document) (allowedEffects : effect → bool)
  : res document_error (list Rule) :=
  traverse (λ i scope, rmap_error (at_scopes i) (ruleFromDocumentScope allowedEffects scope))
    (doc_Scopes document).

(** An option sets the source; nil options are skipped. *)
Definition DecodeOption : Type := string → string.
Definition WithSource (reference : string) : DecodeOption := λ _, TrimSpace reference.

Definition apply_options (options : list (option DecodeOption)) : string :=
  fold_left (λ source option, match option with Some f => f source | None => source end) options "".

Definition decodeDocument {B} (reader : option B) (codec : option (Codec B))
    (options : list (option DecodeOption)) : res document_error (Document * string) :=
  let settings := apply_options options in
  match reader, codec with
  | Some reader, Some codec =>
      do document <- codec_Decode codec reader;
      if negb (String.eqb (doc_APIVersion document) DocumentAPIVersion)
      then Fail (unsupported_apiVersion (doc_APIVersion document))
      else if String.eqb (TrimSpace (doc_Metadata_Name document)) "" then Fail metadata_name_required
      else
        match doc_Scopes document with
        | [] => Fail scope_required
        | _ => Ret (document, settings)
        end
  | _, _ => Fail reader_and_codec_required
  end.

Section Policies.
Context `{GoFmt, RecordKeys} {B : Type}.

Definition DecodeAccessPolicy (reader : option B) (codec : option (Codec B))
    (options : list (option DecodeOption)) : res document_error AccessPolicy :=
  do decoded <- decodeDocument reader codec options;
  let '(document, source) := decoded in
  if negb (String.eqb (doc_Kind document) AccessPolicyKind)
  then Fail (unexpected_kind (doc_Kind document))
  else if negb (String.eqb (doc_Default document) (effect_String effectDeny))
  then Fail (unexpected_default (doc_Default document))
  else
    do rules <- rulesFromDocument document access_effects;
    do policy <- rmap_error document_policy (NewPolicy (doc_Metadata_Name document) rules);
    Ret (mkAccessPolicy (ap_name policy) source (ap_rules policy) (ap_compiled policy)).

Definition DecodeAuditPolicy (reader : option B) (codec : option (Codec B))
    (options : list (option DecodeOption)) : res document_error AuditPolicy :=
  do decoded <- decodeDocument reader codec options;
  let '(document, source) := decoded in
  if negb (String.eqb (doc_Kind document) AuditPolicyKind)
  then Fail (unexpected_kind (doc_Kind document))
  else if negb (String.eqb (doc_Default document) (effect_String effectIgnoreAudit))
  then Fail (unexpected_default (doc_Default document))
  else
    do rules <- rulesFromDocument document audit_effects;
    do policy <- rmap_error document_policy (NewAuditPolicy (doc_Metadata_Name document) rules);
    Ret (mkAuditPolicy (up_name policy) source (up_rules policy) (up_compiled policy)).
End Policies.

(** ** Writing *)

Definition document_segment (segment : pathSegment) : res document_error string :=
  if anyID segment then Ret "*"
  else
    match assert_string (seg_value segment) with
    | Some text => Ret (PathEscape text)
    | None => Fail (not_serializable_id (seg_value segment))
    end.

Definition documentPath (pattern : PathPattern) : res document_error string :=
  match segments pattern with
  | [] => Ret "/"
  | segs => do parts <- traverse (λ _ s, document_segment s) segs; Ret ("/" +:+ join "/" parts)
  end.

Definition documentRuleFromRule (rule : Rule) : res document_error DocumentRule :=
  if negb (bool_decide (r_kind rule = directiveRule)) || String.eqb (TrimSpace (r_name rule)) ""
  then Fail not_serializable_name
  else
    do operations <- rmap_error not_serializable_operations
                       (operationNamesForDocument (r_operations rule));
    Ret (mkDocumentRule (r_name rule) (effect_String (r_effect rule)) operations).

(** A child adds a rule or a nested scope to the scope under construction. *)
Definition add_child (scope : DocumentScope) (child : DocumentRule + DocumentScope) : DocumentScope :=
  match child with
  | inl r => mkDocumentScope (ds_Path scope) (ds_CollectionGroup scope) (ds_OpaqueQuery scope)
               (ds_Rules scope ++ [r]) (ds_Scopes scope)
  | inr s => mkDocumentScope (ds_Path scope) (ds_CollectionGroup scope) (ds_OpaqueQuery scope)
               (ds_Rules scope) (ds_Scopes scope ++ [s])
  end.

Fixpoint documentScopeFromRule (rule : Rule) : res document_error DocumentScope :=
  let with_children scope :=
    fold_res (λ child scope,
      match r_kind child with
      | directiveRule => do r <- documentRuleFromRule child; Ret (add_child scope (inl r))
      | _ => do s <- documentScopeFromRule child; Ret (add_child scope (inr s))
      end) (r_children rule) scope in
  match r_kind rule with
  | directiveRule =>
      do r <- documentRuleFromRule rule; Ret (mkDocumentScope "/" "" false [r] [])
  | scopeRule =>
      do path <- documentPath (r_pattern rule); with_children (mkDocumentScope path "" false [] [])
  | collectionGroupRule => with_children (mkDocumentScope "" (r_resource rule) false [] [])
  | opaqueQueryRule => with_children (mkDocumentScope "" "" true [] [])
  | noRuleKind => Fail not_serializable_rule_kind
  end.

Definition documentFromRules (kind name : string) (defaultEffect : effect) (rules : list Rule)
  : res document_error Document :=
  do scopes <- traverse (λ _ rule, documentScopeFromRule rule) rules;
  Ret (mkDocument DocumentAPIVersion kind name (effect_String defaultEffect) scopes).

Definition encodeDocument {B} (codec : option (Codec B)) (document : Document)
  : res document_error B :=
  match codec with
  | None => Fail reader_and_codec_required
  | Some codec => codec_Encode codec document
  end.

Definition EncodeAccessPolicy {B} (codec : option (Codec B)) (policy : option AccessPolicy)
  : res document_error B :=
  match policy with
  | None => Fail policy_required
  | Some policy =>
      do document <- documentFromRules AccessPolicyKind (ap_name policy) effectDeny (ap_rules policy);
      encodeDocument codec document
  end.

Definition EncodeAuditPolicy {B} (codec : option (Codec B)) (policy : option AuditPolicy)
  : res document_error B :=
  match policy with
  | None => Fail policy_required
  | Some policy =>
      do document <- documentFromRules AuditPolicyKind (up_name policy) effectIgnoreAudit
                       (up_rules policy);
      encodeDocument codec document
  end.

(** ** Paths survive the round trip *)

Lemma traverse_from_fmap {E A C D} (f : nat → C → res E D) (g : A → C) (h : A → D) l k :
  (∀ i x, l !! i = Some x → f (k + i) (g x) = Ret (h x)) →
  traverse_from f k (g <$> l) = Ret (h <$> l).
Proof.
  revert k. induction l as [|x l IH]; intros k Hf; simpl; [done|].
  pose proof (Hf 0 x eq_refl) as H0. rewrite Nat.add_0_r in H0. rewrite H0. simpl.
  rewrite IH; [done|]. intros i x' Hx. rewrite Nat.add_succ_comm. by apply (Hf (S i)).
Qed.

(** The text of a segment. *)
Definition segment_text (s : pathSegment) : string :=
  if anyID s then "*" else PathEscape (value_String (seg_value s)).

(** A segment that a document can hold: an ID is text, and no text is empty or a
    star. *)
Definition portable_segment (s : pathSegment) : Prop :=
  anyID s = true ∨
  ∃ t, seg_value s = vstr t ∧ anyID s = false ∧ t ≠ "" ∧ t ≠ "*".

Lemma documentPath_Ret p path :
  documentPath p = Ret path →
  (segments p = [] ∧ path = "/" ∨
   segments p ≠ [] ∧ path = "/" +:+ join "/" (segment_text <$> segments p)) ∧
  ∀ s, s ∈ segments p → anyID s = false → ∃ t, seg_value s = vstr t.
Proof.
  unfold documentPath. destruct (segments p) as [|s0 segs] eqn:Es; [intros [= <-]; set_solver|].
  rewrite <- Es. intros E. inv_res.
  assert (∀ s text, document_segment s = Ret text →
    text = segment_text s ∧ (anyID s = false → ∃ t, seg_value s = vstr t)) as Hseg.
  { intros s text. unfold document_segment, segment_text.
    destruct (anyID s); [by intros [= <-]|].
    destruct (assert_string (seg_value s)) as [t|] eqn:Et; [|done]. intros [= <-].
    apply assert_string_Some in Et as ->. eauto. }
  apply traverse_from_Forall2 in Hm. split.
  - right. split; [by rewrite Es|]. do 2 f_equal. clear Es.
    induction Hm as [|s text l l' (j & Hs) _ IH]; [done|].
    simpl. apply Hseg in Hs as [-> _]. by f_equal.
  - intros s Hs. apply list_elem_of_lookup_1 in Hs as [i Hi].
    destruct (Forall2_lookup_l _ _ _ _ _ Hm Hi) as (text & _ & j & Ht). by apply Hseg in Ht as [_ ?].
Qed.

Lemma segment_text_facts s :
  portable_segment s →
  segment_text s ≠ "" ∧ segment_text s ≠ "**" ∧
  "/"%char ∉ list_ascii_of_string (segment_text s) ∧
  Forall (λ c, not_space_end c = true) (list_ascii_of_string (segment_text s)).
Proof.
  unfold segment_text. intros [->|(t & -> & -> & Hne & Hstar)].
  - split_and!; [done..|set_solver|by repeat constructor].
  - simpl. destruct (PathEscape_safe t) as [Hslash Hs]. split_and!.
    + intros E%PathEscape_nil. done.
    + intros E. apply Hs. rewrite E. set_solver.
    + done.
    + apply PathEscape_visible.
Qed.

Lemma parse_segment v i s :
  good_segment i s → portable_segment s →
  parse_path_part v i (segment_text s) = Ret (part_of s).
Proof.
  intros Hg Hp. destruct (segment_text_facts s Hp) as (Hne & _ & _ & _).
  unfold parse_path_part. destruct (String.eqb_spec (segment_text s) "") as [|_]; [done|].
  unfold segment_text, part_of, good_segment in *. destruct Hp as [Ha|(t & Ht & Ha & Hte & Hts)].
  - rewrite Ha. destruct (i mod 2 =? 0) eqn:Ei; [by destruct Hg as (c & -> & _)|].
    replace (i mod 2 =? 1) with true; [done|]. apply Nat.eqb_neq in Ei.
    symmetry. apply Nat.eqb_eq. pose proof (Nat.mod_upper_bound i 2). lia.
  - rewrite Ha, Ht. simpl. rewrite PathUnescape_PathEscape.
    destruct (String.eqb_spec t "*"); [done|]. by rewrite andb_false_r.
Qed.

Lemma not_in_Split_last a b sep :
  b ∉ Split (a +:+ String sep b) sep → sep ∉ list_ascii_of_string b → False.
Proof. intros Hn Hb. apply Hn. rewrite Split_app, (Split_single b) by done. set_solver. Qed.

Lemma parseDocumentPath_join p :
  good_pattern p → Forall portable_segment (segments p) → segments p ≠ [] →
  parseDocumentPath ("/" +:+ join "/" (segment_text <$> segments p)) = Ret p.
Proof.
  intros Hg Hp Hne. set (parts := segment_text <$> segments p).
  assert (Split (join "/" parts) "/" = parts) as Hsplit.
  { apply Split_join; [by destruct (segments p)|]. unfold parts.
    apply Forall_fmap. eapply Forall_impl; [exact Hp|]. intros s Hs. by apply segment_text_facts. }
  assert (∀ t, t ∈ parts → t ≠ "" ∧ t ≠ "**") as Hparts.
  { intros t (s & -> & Hs)%list_elem_of_fmap. rewrite Forall_forall in Hp.
    destruct (segment_text_facts s (Hp s Hs)) as (? & ? & _). done. }
  set (path := "/" +:+ join "/" parts).
  assert (Split path "/" = "" :: parts) as Hpath.
  { change (Split path "/") with ("" :: Split (join "/" parts) "/"). by rewrite Hsplit. }
  assert (TrimSpace path = path) as Htrim.
  { apply TrimSpace_visible. unfold path. rewrite list_ascii_app. constructor; [done|].
    apply join_visible; [done|]. unfold parts. apply Forall_fmap.
    eapply Forall_impl; [exact Hp|]. intros s Hs. by apply segment_text_facts. }
  assert ("**" ∉ Split path "/") as Hstars.
  { rewrite Hpath. intros [?|Hin]%elem_of_cons; [done|]. by apply Hparts in Hin as [_ ?]. }
  assert (path ≠ "/" ∧ path ≠ "/**") as [Hroot Hall].
  { split; intros E; rewrite E in Hpath; simpl in Hpath; injection Hpath as E'.
    - destruct (Hparts "") as [? _]; [rewrite <- E'; set_solver|done].
    - destruct (Hparts "**") as [_ ?]; [rewrite <- E'; set_solver|done]. }
  assert (TrimSuffix path "/**" = path) as Hsuffix.
  { unfold TrimSuffix. destruct (strip_suffix "/**" path) as [t|] eqn:E; [|done].
    apply strip_suffix_Some in E. exfalso. rewrite E in Hstars.
    apply (not_in_Split_last t "**" "/"); [exact Hstars|set_solver]. }
  unfold parseDocumentPath. rewrite Htrim, Hsuffix. simpl (HasPrefix path "/").
  cbn [negb]. destruct (String.eqb_spec path "/"), (String.eqb_spec path "/**"); try done.
  cbn [orb]. change (TrimPrefix path "/") with (join "/" parts). rewrite Hsplit.
  unfold parts, traverse.
  rewrite (traverse_from_fmap _ segment_text part_of).
  - simpl. by rewrite NewPath_parts.
  - intros i s Hs. apply parse_segment; [by apply Hg|]. by eapply Forall_lookup_1.
Qed.

(** A pattern that a document can hold. *)
Definition portable_pattern (p : PathPattern) : Prop :=
  good_pattern p ∧
  ∀ s t, s ∈ segments p → anyID s = false → seg_value s = vstr t → t ≠ "" ∧ t ≠ "*".

Lemma documentPath_parse p path :
  portable_pattern p → documentPath p = Ret path →
  path ≠ "" ∧ parseDocumentPath path = Ret p.
Proof.
  intros [Hg Ht] [Hpath Hval]%documentPath_Ret. destruct Hpath as [[Hs ->]|[Hs ->]].
  - split; [done|]. destruct p as [segs]. simpl in Hs. by rewrite Hs.
  - split; [done|]. apply parseDocumentPath_join; [done| |done].
    apply Forall_forall. intros s Hin. unfold portable_segment.
    destruct (anyID s) eqn:Ha; [by left|right].
    destruct (Hval s Hin Ha) as [t E]. exists t. split_and!; [done..| |]; by eapply Ht.
Qed.

(** ** Rules survive the round trip

    A rule that a document can hold: made by the constructors of the package,
    with portable patterns and no scope without rules. *)

Definition is_directive (rule : Rule) : bool := bool_decide (r_kind rule = directiveRule).

Fixpoint portable (rule : Rule) : Prop :=
  let all := fix all (l : list Rule) : Prop :=
    match l with [] => True | c :: l => portable c ∧ all l end in
  match r_kind rule with
  | directiveRule =>
      rule = directive (r_effect rule) (r_operations rule) [r_name rule] ∧ (0 ≤ r_operations rule)%Z
  | scopeRule =>
      rule = Under (r_pattern rule) (r_children rule) ∧ portable_pattern (r_pattern rule) ∧
      r_children rule ≠ [] ∧ all (r_children rule)
  | collectionGroupRule =>
      rule = CollectionGroupScope (r_resource rule) (r_children rule) ∧
      r_children rule ≠ [] ∧ all (r_children rule)
  | opaqueQueryRule =>
      rule = OpaqueQueryScope (r_children rule) ∧ r_children rule ≠ [] ∧ all (r_children rule)
  | noRuleKind => False
  end.

(** What reading a written rule gives: directives first, then nested scopes. *)
Fixpoint normalize (rule : Rule) : Rule :=
  mkRule (r_kind rule) (r_pattern rule) (r_name rule) (r_operations rule) (r_effect rule)
    (r_resource rule)
    (List.filter is_directive (r_children rule) ++
     flat_map (λ c, if is_directive c then [] else [normalize c]) (r_children rule)).

Definition read_back (rule : Rule) : Rule :=
  if is_directive rule then Root [rule] else normalize rule.

Lemma traverse_from_read {E A C} (f : nat → A → res E C) xs ys k :
  Forall2 (λ x y, ∀ j, f j x = Ret y) xs ys → traverse_from f k xs = Ret ys.
Proof.
  intros Hf. revert k. induction Hf as [|x y xs ys Hx _ IH]; intros k; simpl; [done|].
  rewrite Hx. simpl. by rewrite IH.
Qed.

Lemma Forall2_impl_elem_r {A C} (R Q : A → C → Prop) xs ys :
  Forall2 R xs ys → (∀ x y, y ∈ ys → R x y → Q x y) → Forall2 Q xs ys.
Proof. induction 1; constructor; set_solver. Qed.

Lemma parseEffect_String e : e ≠ noEffect → parseEffect (effect_String e) = Ret e.
Proof. by destruct e. Qed.

Lemma document_rule_read allowed rule r j :
  allowed noEffect = false → allowed (r_effect rule) = true →
  is_directive rule = true → portable rule → documentRuleFromRule rule = Ret r →
  rmap_error (at_rules j) (ruleFromDocumentRule allowed r) = Ret rule.
Proof.
  intros Hno Hall Hd Hp E. apply bool_decide_eq_true in Hd.
  unfold documentRuleFromRule in E. rewrite bool_decide_eq_true_2 in E by done. cbn [negb orb] in E.
  destruct (String.eqb_spec (TrimSpace (r_name rule)) "") as [|Hn]; [done|]. inv_res.
  assert (rule = directive (r_effect rule) (r_operations rule) [r_name rule] ∧
          (0 ≤ r_operations rule)%Z) as [Hrule Hpos].
  { destruct rule. simpl in *. by subst. }
  unfold ruleFromDocumentRule. simpl.
  destruct (String.eqb_spec (TrimSpace (r_name rule)) "") as [|_]; [done|].
  destruct (operationNames_parse (r_operations rule)) as (names & Hnames & Hparse); [done| |].
  { unfold operationNamesForDocument in Hm. by destruct (validSet (r_operations rule)). }
  rewrite Hnames in Hm. injection Hm as <-. rewrite Hparse. simpl.
  rewrite parseEffect_String by congruence. simpl. rewrite Hall. simpl.
  f_equal. rewrite Hrule at 4. unfold directive. by rewrite TrimSpace_idempotent.
Qed.

(** The scope that [documentScopeFromRule] builds from the children. *)
Lemma with_children_shape cs scope scope' :
  fold_res (λ child scope,
    match r_kind child with
    | directiveRule => do r <- documentRuleFromRule child; Ret (add_child scope (inl r))
    | _ => do s <- documentScopeFromRule child; Ret (add_child scope (inr s))
    end) cs scope = Ret scope' →
  ∃ rs ss,
    scope' = mkDocumentScope (ds_Path scope) (ds_CollectionGroup scope) (ds_OpaqueQuery scope)
               (ds_Rules scope ++ rs) (ds_Scopes scope ++ ss) ∧
    Forall2 (λ r c, documentRuleFromRule c = Ret r) rs (List.filter is_directive cs) ∧
    Forall2 (λ s c, documentScopeFromRule c = Ret s) ss
      (List.filter (λ c, negb (is_directive c)) cs).
Proof.
  revert scope. induction cs as [|c cs IH]; intros scope E; simpl in E.
  - injection E as <-. exists [], []. rewrite !app_nil_r. destruct scope. split_and!; constructor.
  - inv_res. destruct (IH _ E) as (rs & ss & -> & Hrs & Hss).
    assert (is_directive c = bool_decide (r_kind c = directiveRule)) as Hd by done.
    clear IH E. cbn [List.filter]. rewrite Hd. clear Hd. rename Hm into E.
    destruct (r_kind c) eqn:Ek; inv_res; cbn.
    2: { eexists (_ :: rs), ss. rewrite <- (assoc_L (++)). split_and!; [reflexivity| |exact Hss].
         by constructor. }
    all: eexists rs, (_ :: ss); rewrite <- (assoc_L (++)); split_and!;
      [reflexivity|exact Hrs|by constructor].
Qed.

Fixpoint all_portable (l : list Rule) : Prop :=
  match l with [] => True | c :: l => portable c ∧ all_portable l end.

Lemma all_portable_Forall l : all_portable l ↔ Forall portable l.
Proof. induction l as [|c l IH]; simpl; rewrite ?Forall_cons, ?IH; split; try done; naive_solver. Qed.

(** What a portable rule is, with its children's portability as [Forall]. *)
Lemma portable_cases rule :
  portable rule →
  match r_kind rule with
  | directiveRule => True
  | scopeRule => rule = Under (r_pattern rule) (r_children rule) ∧ portable_pattern (r_pattern rule)
  | collectionGroupRule => rule = CollectionGroupScope (r_resource rule) (r_children rule)
  | opaqueQueryRule => rule = OpaqueQueryScope (r_children rule)
  | noRuleKind => False
  end ∧
  (is_directive rule = false → r_children rule ≠ [] ∧ Forall portable (r_children rule)).
Proof.
  assert (is_directive rule = bool_decide (r_kind rule = directiveRule)) as Hd by done.
  rewrite Hd. clear Hd. intros Hp. destruct rule as [k p n o e r cs].
  pose proof (all_portable_Forall cs) as Hall.
  destruct k; simpl in *; try done; naive_solver.
Qed.

(** Nested scopes read back, given that each does. *)
Lemma children_read (allowed : effect → bool) cs rs ss :
  allowed noEffect = false → Forall portable cs →
  Forall (λ c, ∀ scope, is_directive c = false → documentScopeFromRule c = Ret scope →
            ruleFromDocumentScope allowed scope = Ret (normalize c)) cs →
  Forall (λ c, is_directive c = true → allowed (r_effect c) = true) cs →
  Forall2 (λ r c, documentRuleFromRule c = Ret r) rs (List.filter is_directive cs) →
  Forall2 (λ s c, documentScopeFromRule c = Ret s) ss (List.filter (λ c, negb (is_directive c)) cs) →
  traverse (λ i r, rmap_error (at_rules i) (ruleFromDocumentRule allowed r)) rs
    = Ret (List.filter is_directive cs) ∧
  traverse_from (λ i s, rmap_error (at_scopes i) (ruleFromDocumentScope allowed s)) 0 ss
    = Ret (flat_map (λ c, if is_directive c then [] else [normalize c]) cs).
Proof.
  intros Hno Hp IH Heff Hrs Hss. split.
  - apply traverse_from_read. eapply Forall2_impl_elem_r; [exact Hrs|].
    intros r c Hc Hr j. apply list_elem_of_In, filter_In in Hc as [Hc Hd].
    apply list_elem_of_In in Hc. rewrite Forall_forall in Hp, Heff.
    apply document_rule_read; auto.
  - replace (flat_map _ cs) with (normalize <$> List.filter (λ c, negb (is_directive c)) cs).
    2: { clear. induction cs as [|c cs IH]; [done|]. cbn [List.filter flat_map].
         destruct (is_directive c); simpl; by rewrite <- IH. }
    apply traverse_from_read. apply Forall2_fmap_r. eapply Forall2_impl_elem_r; [exact Hss|].
    intros s c Hc Hs j. simpl. apply list_elem_of_In, filter_In in Hc as [Hc Hd%negb_true_iff].
    apply list_elem_of_In in Hc. rewrite Forall_forall in IH. by rewrite (IH c Hc s Hd Hs).
Qed.

Lemma normalized_children_nonempty cs :
  cs ≠ [] →
  List.filter is_directive cs ++ flat_map (λ c, if is_directive c then [] else [normalize c]) cs ≠ [].
Proof.
  destruct cs as [|c cs]; [done|]. cbn [List.filter flat_map].
  destruct (is_directive c); simpl; [done|]. intros _ E. apply app_eq_nil in E as [_ E]. done.
Qed.

(** A scope with the given selector reads back to the rule it was written from. *)
Lemma read_scope allowed scope rules scopes children rule :
  traverse (λ i r, rmap_error (at_rules i) (ruleFromDocumentRule allowed r)) (ds_Rules scope)
    = Ret rules →
  traverse_from (λ i s, rmap_error (at_scopes i) (ruleFromDocumentScope allowed s)) 0
    (ds_Scopes scope) = Ret scopes →
  rules ++ scopes = children → children ≠ [] → selector_count scope = 1 →
  (if negb (String.eqb (ds_Path scope) "") then
     do pattern <- parseDocumentPath (ds_Path scope); Ret (Under pattern children)
   else if negb (String.eqb (ds_CollectionGroup scope) "")
   then Ret (CollectionGroupScope (ds_CollectionGroup scope) children)
   else Ret (OpaqueQueryScope children)) = Ret rule →
  ruleFromDocumentScope allowed scope = Ret rule.
Proof.
  destruct scope as [p g o rs ss]. cbn. intros -> -> <- Hne Hsel Hrule.
  unfold selector_count in *. cbn in *. rewrite Hsel. cbn [negb Nat.eqb rbind].
  by destruct (rules ++ scopes).
Qed.

Lemma ok_children_effects `{GoFmt, RecordKeys} allowed cs prefix kind :
  forallb (λ c, rule_ok allowed c prefix kind) cs = true →
  Forall (λ c, is_directive c = true → allowed (r_effect c) = true) cs.
Proof.
  rewrite forallb_forall. intros Hok. apply Forall_forall. intros c Hc%list_elem_of_In Hd.
  specialize (Hok c Hc). apply bool_decide_eq_true in Hd. destruct c; simpl in *; subst.
  by to_prop.
Qed.

Section ReadBack.
Context `{GoFmt, RecordKeys} (allowed : effect → bool) (Hno : allowed noEffect = false).

(** The induction hypothesis of [scope_read] for the children in a context. *)
Lemma ok_children_read cs prefix kind :
  Forall (λ c, ∀ prefix kind scope, portable c → rule_ok allowed c prefix kind = true →
    is_directive c = false → documentScopeFromRule c = Ret scope →
    ruleFromDocumentScope allowed scope = Ret (normalize c)) cs →
  Forall portable cs → forallb (λ c, rule_ok allowed c prefix kind) cs = true →
  Forall (λ c, ∀ scope, is_directive c = false → documentScopeFromRule c = Ret scope →
    ruleFromDocumentScope allowed scope = Ret (normalize c)) cs.
Proof.
  rewrite forallb_forall, !Forall_forall. intros IH Hp Hok c Hc scope.
  apply (IH c Hc prefix kind); [by apply Hp|]. apply Hok. by apply list_elem_of_In.
Qed.

Lemma scope_read rule prefix kind scope :
  portable rule → rule_ok allowed rule prefix kind = true → is_directive rule = false →
  documentScopeFromRule rule = Ret scope →
  ruleFromDocumentScope allowed scope = Ret (normalize rule).
Proof.
  revert prefix kind scope.
  induction rule as [rule IH] using Rule_nested_ind; intros prefix kind scope Hp Hok Hd E.
  destruct (portable_cases rule Hp) as [Hcase Hcs]. destruct (Hcs Hd) as [Hne Hpcs]. clear Hp Hcs.
  destruct rule as [k p n o e r cs]. cbn [r_kind r_children r_pattern r_resource] in *.
  destruct k; cbn [rule_ok documentScopeFromRule r_kind r_children r_pattern r_resource] in *;
    to_prop; try done; inv_res.
  - destruct Hcase as [Hrule Hpat]. apply with_children_shape in E as (rs & ss & -> & Hrs & Hss).
    destruct (documentPath_parse p a Hpat Hm) as [Hpath Hparse].
    destruct (children_read allowed cs rs ss) as [Hr Hs];
      [done|done|by eapply ok_children_read|by eapply ok_children_effects|done|done|].
    eapply read_scope; [exact Hr|exact Hs|reflexivity|by apply normalized_children_nonempty| |];
      unfold selector_count; cbn; destruct (String.eqb_spec a ""); try done.
    rewrite Hparse. cbn. injection Hrule as -> -> -> ->. reflexivity.
  - apply with_children_shape in E as (rs & ss & -> & Hrs & Hss).
    destruct (children_read allowed cs rs ss) as [Hr Hs];
      [done|done|by eapply ok_children_read|by eapply ok_children_effects|done|done|].
    assert (r ≠ "") as Hr0 by by intros ->.
    eapply read_scope; [exact Hr|exact Hs|reflexivity|by apply normalized_children_nonempty| |];
      unfold selector_count; cbn; destruct (String.eqb_spec r ""); try done.
    injection Hcase as -> -> -> ->. reflexivity.
  - apply with_children_shape in E as (rs & ss & -> & Hrs & Hss).
    destruct (children_read allowed cs rs ss) as [Hr Hs];
      [done|done|by eapply ok_children_read|by eapply ok_children_effects|done|done|].
    eapply read_scope; [exact Hr|exact Hs|reflexivity|by apply normalized_children_nonempty| |];
      unfold selector_count; cbn; try done.
    injection Hcase as -> -> -> -> ->. reflexivity.
Qed.

(** A top-level rule of either form reads back. *)
Lemma rule_read rule scope :
  portable rule → rule_ok allowed rule no_pattern PathResource = true →
  documentScopeFromRule rule = Ret scope →
  ruleFromDocumentScope allowed scope = Ret (read_back rule).
Proof.
  intros Hp Hok E. unfold read_back. destruct (is_directive rule) eqn:Hd.
  - pose proof Hd as Hk. apply bool_decide_eq_true in Hk.
    assert (allowed (r_effect rule) = true) as Heff.
    { destruct rule; simpl in *; subst. by to_prop. }
    assert (∃ r, documentRuleFromRule rule = Ret r ∧ scope = mkDocumentScope "/" "" false [r] [])
      as (r & Hr & ->).
    { destruct rule; simpl in *; subst. inv_res. eauto. }
    eapply read_scope; cbn [ds_Rules ds_Scopes ds_Path ds_CollectionGroup].
    + apply traverse_from_read. constructor; [|constructor]. intros j.
      by apply document_rule_read.
    + reflexivity.
    + reflexivity.
    + done.
    + reflexivity.
    + reflexivity.
  - by eapply scope_read.
Qed.
End ReadBack.

(** ** Reading back changes the order of directives only *)

Section Normal.
Context `{GoFmt, RecordKeys}.

Lemma flat_map_normalized (g : Rule → list compiledRule) cs :
  Forall (λ c, is_directive c = false → g (normalize c) ≡ₚ g c) cs →
  flat_map g (List.filter is_directive cs ++
              flat_map (λ c, if is_directive c then [] else [normalize c]) cs)
  ≡ₚ flat_map g cs.
Proof.
  induction 1 as [|c cs Hc _ IH]; [done|]. cbn [List.filter flat_map].
  destruct (is_directive c) eqn:Hd; cbn [flat_map app].
  - by rewrite IH.
  - rewrite <- IH, !flat_map_app. cbn [flat_map].
    rewrite Hc by done. rewrite Permutation_app_swap_app. done.
Qed.

Lemma normalize_directives rule prefix kind name :
  directives (normalize rule) prefix kind name ≡ₚ directives rule prefix kind name.
Proof.
  revert prefix kind name. induction rule as [[k p n o e r cs] IH] using Rule_nested_ind.
  intros prefix kind name.
  destruct k; cbn [normalize directives r_kind r_children r_pattern r_resource] in *; try done;
    apply flat_map_normalized; eapply Forall_impl; try exact IH; simpl; auto.
Qed.

(** Checking a normalized rule finds no new error. *)
Lemma normalize_ok allowed rule prefix kind :
  rule_ok allowed rule prefix kind = true → rule_ok allowed (normalize rule) prefix kind = true.
Proof.
  revert prefix kind. induction rule as [[k p n o e r cs] IH] using Rule_nested_ind.
  intros prefix kind Hok.
  assert (∀ prefix kind, forallb (λ c, rule_ok allowed c prefix kind) cs = true →
    forallb (λ c, rule_ok allowed c prefix kind)
      (List.filter is_directive cs ++
       flat_map (λ c, if is_directive c then [] else [normalize c]) cs) = true) as Hcs.
  { clear Hok prefix kind. intros prefix kind. cbn [r_children] in IH.
    induction IH as [|c cs Hc _ IHcs]; [done|]. cbn [List.filter flat_map forallb].
    rewrite forallb_app, !andb_true_iff in *. intros [Hok1 Hok2].
    destruct (IHcs Hok2) as [H1 H2].
    destruct (is_directive c); cbn [forallb app]; rewrite ?andb_true_iff; auto. }
  destruct k; cbn [normalize rule_ok r_kind r_children r_pattern r_resource r_effect r_operations] in *;
    to_prop; auto using negb_true_iff.
Qed.

Lemma read_back_directives rules :
  all_directives (read_back <$> rules) ≡ₚ all_directives rules.
Proof.
  unfold all_directives. induction rules as [|rule rules IH]; [done|]. cbn [fmap list_fmap flat_map].
  rewrite IH. apply Permutation_app_tail. unfold read_back.
  destruct (is_directive rule); [|apply normalize_directives].
  cbn. by rewrite app_nil_r.
Qed.

Lemma read_back_ok allowed rules :
  forallb (λ rule, rule_ok allowed rule no_pattern PathResource) rules = true →
  forallb (λ rule, rule_ok allowed rule no_pattern PathResource) (read_back <$> rules) = true.
Proof.
  induction rules as [|rule rules IH]; [done|]. cbn [fmap list_fmap forallb]. intros Hok. to_prop; auto.
  unfold read_back. destruct (is_directive rule) eqn:Hd; [|by apply normalize_ok].
  cbn. by rewrite andb_true_r.
Qed.

Lemma rules_read allowed kind name e rules document :
  allowed noEffect = false → Forall portable rules →
  forallb (λ rule, rule_ok allowed rule no_pattern PathResource) rules = true →
  documentFromRules kind name e rules = Ret document →
  document = mkDocument DocumentAPIVersion kind name (effect_String e) (doc_Scopes document) ∧
  length (doc_Scopes document) = length rules ∧
  rulesFromDocument document allowed = Ret (read_back <$> rules).
Proof.
  intros Hno Hp Hok E. unfold documentFromRules in E. inv_res. split; [done|].
  apply traverse_from_Forall2 in Hm. split; [symmetry; by eapply Forall2_length|].
  unfold rulesFromDocument. simpl. apply traverse_from_read.
  revert Hok. induction Hm as [|rule scope rules scopes (j & Hs) _ IH]; [constructor|].
  cbn [forallb fmap list_fmap]. intros Hok. to_prop. apply Forall_cons in Hp as [Hp Hps].
  constructor; [|by apply IH]. intros i. erewrite rule_read by done. done.
Qed.
End Normal.

(** ** Properties *)

(** C10: an access policy survives a portable document: written through any
    codec that reads back what it writes, and read again, it decides every
    request as before.  The policy must be made by the package's constructors,
    with patterns whose texts are neither empty nor a star, and no scope without
    rules. *)
Theorem access_document_roundtrip `{GoFmt, RecordKeys} {B} (codec : Codec B) name rules p data
    (Hcodec : ∀ d b, codec_Encode codec d = Ret b → codec_Decode codec b = Ret d)
    (Hp : NewPolicy name rules = Ret p)
    (Hportable : Forall portable rules) (Hne : rules ≠ []) (Hname : TrimSpace name ≠ "")
    (Hdata : EncodeAccessPolicy (Some codec) (Some p) = Ret data) :
  ∃ p', DecodeAccessPolicy (Some data) (Some codec) [] = Ret p' ∧
        ∀ request, Decide p' request = Decide p request.
Proof.
  apply NewPolicy_good in Hp as Hg. apply NewPolicy_Ret in Hp as (Hn & Hc & Hp).
  apply compileRules_Ret in Hc as (Hok & Hcomp & Hnd).
  rewrite Hp in Hdata. unfold EncodeAccessPolicy in Hdata. cbn [ap_name ap_rules] in Hdata. inv_res.
  destruct (rules_read access_effects _ _ _ _ _ eq_refl Hportable Hok Hm) as (Hdoc & Hlen & Hrules).
  pose proof (read_back_directives rules) as Hperm.
  assert (compileRules access_effects (read_back <$> rules)
          = Ret (all_directives (read_back <$> rules))) as Hcompile.
  { apply compileRules_Ret. split_and!; [by apply read_back_ok|done|].
    rewrite Hperm. by rewrite <- Hcomp. }
  pose (p' := mkAccessPolicy name "" (read_back <$> rules) (all_directives (read_back <$> rules))).
  exists p'. split.
  - destruct a as [av dk dn dd ss]. cbn [doc_Scopes] in *. injection Hdoc as -> -> -> ->.
    unfold DecodeAccessPolicy, decodeDocument. rewrite (Hcodec _ data Hdata).
    cbn [rbind doc_APIVersion doc_Metadata_Name doc_Scopes].
    destruct (String.eqb_spec (TrimSpace name) ""); [done|].
    destruct ss as [|s ss]; [by destruct rules|]. cbn [rbind String.eqb Ascii.eqb Bool.eqb negb].
    cbn -[rulesFromDocument NewPolicy]. rewrite Hrules. cbn [rbind].
    unfold NewPolicy. destruct (String.eqb_spec name ""); [done|]. by rewrite Hcompile.
  - intros request. symmetry. apply Decide_perm; [by rewrite Hp..|done|].
    simpl. by rewrite Hcomp, Hperm.
Qed.

(** A collection name and an ID make a portable pattern. *)
Lemma portable_pair c s :
  TrimSpace c ≠ "" → c ≠ "*" →
  s = PathSegment idSegment VNil true ∨
    (∃ t, s = PathSegment idSegment (vstr t) false ∧ t ≠ "" ∧ t ≠ "*") →
  portable_pattern (mkPathPattern [PathSegment collectionSegment (vstr c) false; s]).
Proof.
  intros Hc Hstar Hs. split.
  - intros [|[|i]] x; simpl; intros E; simplify_eq.
    + exists c. done.
    + unfold good_segment. simpl. destruct Hs as [->|(t & -> & _)]; [by left|right].
      exists (vstr t). done.
  - intros x t [->|[->|[]%elem_of_nil]%elem_of_cons]%elem_of_cons Ha E; simpl in *; simplify_eq.
    + split; [by intros ->|done].
    + destruct Hs as [->|(t' & -> & ? & ?)]; simplify_eq/=. done.
Qed.

Module DocumentExamples.

#[local] Existing Instance plain_fmt.
#[local] Existing Instance chain_keys.

(** A codec whose streams are the documents themselves. *)
Definition identity_codec : Codec Document := mkCodec Ret Ret.

Definition rules : list Rule :=
  [Allow Read ["all reads"];
   Under (mkPathPattern [PathSegment collectionSegment (vstr "users") false;
                         PathSegment idSegment (vstr "a/b c") false])
     [Under (mkPathPattern [PathSegment collectionSegment (vstr "notes") false;
                            PathSegment idSegment VNil true]) [Deny Query ["no query"]];
      Allow (Z.lor AccessOperation.Insert AccessOperation.Delete) ["edit"]];
   CollectionGroupScope "notes" [Deny ReadWrite ["no groups"]]].

Definition policy : AccessPolicy := mkAccessPolicy "p" "" rules (all_directives rules).

Definition data : Document :=
  match EncodeAccessPolicy (Some identity_codec) (Some policy) with
  | Ret d => d
  | _ => mkDocument "" "" "" "" []
  end.

Lemma access_document_roundtrip_witness :
  ∃ p', DecodeAccessPolicy (Some data) (Some identity_codec) [] = Ret p' ∧
        ∀ request, Decide p' request = Decide policy request.
Proof.
  apply (access_document_roundtrip identity_codec "p" rules policy data).
  - intros d b [= ->]. reflexivity.
  - vm_compute. reflexivity.
  - assert (portable_pattern (mkPathPattern [PathSegment collectionSegment (vstr "users") false;
      PathSegment idSegment (vstr "a/b c") false])) as H1.
    { apply portable_pair; [by vm_compute..|]. right. exists "a/b c". done. }
    assert (portable_pattern (mkPathPattern [PathSegment collectionSegment (vstr "notes") false;
      PathSegment idSegment VNil true])) as H2.
    { apply portable_pair; [by vm_compute..|]. by left. }
    repeat first [exact H1 | exact H2 | discriminate | constructor].
  - discriminate.
  - vm_compute. discriminate.
  - vm_compute. reflexivity.
Defined.

(** A record whose ID is the text "*": the policy is about that record only. *)
Definition star_rules : list Rule :=
  [Under (mkPathPattern [PathSegment collectionSegment (vstr "users") false;
                         PathSegment idSegment (vstr "*") false]) [Allow Get ["star"]]].

Definition star_policy : AccessPolicy := mkAccessPolicy "p" "" star_rules (all_directives star_rules).

Definition get_bob : Request :=
  mkRequest _ Get [RecordResourceForKey (Some (ChainKey "users" (vstr "bob") None))] None.
End DocumentExamples.

(** A policy for the record whose ID is the text "*" is widened by the round
    trip: [documentPath] escapes the ID to "%2A", and [parseDocumentPath]
    unescapes it before it looks for the wildcard, so the policy read back
    allows every record of the collection. *)
Theorem star_id_widens :
  NewPolicy (H:=plain_fmt) (H0:=chain_keys) "p" DocumentExamples.star_rules
    = Ret DocumentExamples.star_policy ∧
  Allowed (Decide (H:=plain_fmt) (H0:=chain_keys) DocumentExamples.star_policy
             DocumentExamples.get_bob) = false ∧
  ∃ data p',
    EncodeAccessPolicy (Some DocumentExamples.identity_codec) (Some DocumentExamples.star_policy)
      = Ret data ∧
    DecodeAccessPolicy (H:=plain_fmt) (H0:=chain_keys) (Some data)
      (Some DocumentExamples.identity_codec) [] = Ret p' ∧
    Allowed (Decide (H:=plain_fmt) (H0:=chain_keys) p' DocumentExamples.get_bob) = true.
Proof.
  split; [vm_compute; reflexivity|]. split; [vm_compute; reflexivity|].
  assert (match EncodeAccessPolicy (Some DocumentExamples.identity_codec) (Some DocumentExamples.star_policy) with
    | Ret data => match DecodeAccessPolicy (H:=plain_fmt) (H0:=chain_keys) (Some data) (Some DocumentExamples.identity_codec) [] with
        | Ret p' => Allowed (Decide (H:=plain_fmt) (H0:=chain_keys) p' DocumentExamples.get_bob)
        | _ => false end
    | _ => false end = true) as Hread by (vm_compute; reflexivity).
  destruct (EncodeAccessPolicy _ _) as [data|e|msg]; [|done..]. exists data.
  destruct (DecodeAccessPolicy _ _ _) as [p'|e|msg]; [|done..]. by exists p'.
Qed.
