(* ===== verification/AccessCodec.v ===== *)
(** * The codecs of policy documents (src/access/document.go)

    The YAML and JSON codecs on the decoders and encoders of their libraries,
    which are arguments: a decoder reads one value of a stream after the other.
    A stream must hold exactly one document. *)

From Stdlib Require Import String.
From stdpp Require Import base list strings.
From S2P Require Import Prelude GoValues GoStrings RecordKey AccessOperation AccessResource AccessRule AccessPolicy AccessDocument.

Local Open Scope string_scope.
Local Open Scope nat_scope.
Local Open Scope list_scope.

(** The result of [decoder.Decode]: a value, the end of the stream, or another
    error with its text. *)
Inductive read_result (X : Type) := Value (x : X) | EOF | Bad (text : string).
Arguments Value {X} x.
Arguments EOF {X}.
Arguments Bad {X} text.

(** [yaml.NewDecoder] and [json.NewDecoder], strict about unknown fields;
    [dec_Any] decodes into a variable of type [any]. *)
Record Decoder (B D : Type) := mkDecoder {
  dec_New : B → D;
  dec_Decode : D → D * read_result Document;
  dec_Any : D → D * read_result unit;
}.
Arguments mkDecoder {B D}.
Arguments dec_New {B D}.
Arguments dec_Decode {B D}.
Arguments dec_Any {B D}.

(** An encoder on a buffer; an error is its text. *)
Record Encoder (B W : Type) := mkEncoder {
  enc_New : W;
  enc_Encode : W → Document → W * option string;
  enc_Close : W → W * option string;
  enc_Bytes : W → B;
}.
Arguments mkEncoder {B W}.
Arguments enc_New {B W}.
Arguments enc_Encode {B W}.
Arguments enc_Close {B W}.
Arguments enc_Bytes {B W}.

Definition ensureSingleDocument (next : read_result unit) : option document_error :=
  match next with
  | EOF => None
  | Bad text => Some (codec_error text)
  | Value _ => Some (codec_error "access: a policy stream must contain exactly one document")
  end.

(** [errors.Join] of two errors: the texts, one per line. *)
Definition errors_Join (a b : option string) : option string :=
  match a, b with
  | Some a, Some b => Some (a +:+ String (Ascii.ascii_of_nat 10) b)
  | Some e, None | None, Some e => Some e
  | None, None => None
  end.

Section Codecs.
Context {B D W : Type} (yaml_decoder json_decoder : Decoder B D) (yaml_encoder json_encoder : Encoder B W).

Definition decode_single (failed : string) (dec : Decoder B D) (reader : B) : res document_error Document :=
  match dec_Decode dec (dec_New dec reader) with
  | (d, Value document) =>
      match ensureSingleDocument (dec_Any dec d).2 with None => Ret document | Some e => Fail e end
  | (_, EOF) => Fail (codec_error (failed +:+ "EOF"))
  | (_, Bad text) => Fail (codec_error (failed +:+ text))
  end.

Definition YAMLCodec_Decode : B → res document_error Document := decode_single "access: decode YAML policy: " yaml_decoder.
Definition JSONCodec_Decode : B → res document_error Document := decode_single "access: decode JSON policy: " json_decoder.

(** The encoder is closed whether it failed or not. *)
Definition YAMLCodec_Encode (document : Document) : res document_error B :=
  let '(w, err) := enc_Encode yaml_encoder (enc_New yaml_encoder) document in
  let '(w, close_err) := enc_Close yaml_encoder w in
  match errors_Join (String.append "access: encode YAML policy: " <$> err) close_err with
  | Some text => Fail (codec_error text)
  | None => Ret (enc_Bytes yaml_encoder w)
  end.

Definition JSONCodec_Encode (document : Document) : res document_error B :=
  let '(w, err) := enc_Encode json_encoder (enc_New json_encoder) document in
  match err with
  | Some text => Fail (codec_error ("access: encode JSON policy: " +:+ text))
  | None => Ret (enc_Bytes json_encoder w)
  end.

Definition YAMLCodec : Codec B := mkCodec YAMLCodec_Decode YAMLCodec_Encode.
Definition JSONCodec : Codec B := mkCodec JSONCodec_Decode JSONCodec_Encode.

Section Policies.
Context `{GoFmt, RecordKeys}.

Definition marshalAccessPolicy (policy : option AccessPolicy) (codec : Codec B) : res document_error B :=
  EncodeAccessPolicy (Some codec) policy.
Definition MarshalAccessPolicyYAML (policy : option AccessPolicy) := marshalAccessPolicy policy YAMLCodec.
Definition MarshalAccessPolicyJSON (policy : option AccessPolicy) := marshalAccessPolicy policy JSONCodec.

Definition marshalAuditPolicy (policy : option AuditPolicy) (codec : Codec B) : res document_error B :=
  EncodeAuditPolicy (Some codec) policy.
Definition MarshalAuditPolicyYAML (policy : option AuditPolicy) := marshalAuditPolicy policy YAMLCodec.
Definition MarshalAuditPolicyJSON (policy : option AuditPolicy) := marshalAuditPolicy policy JSONCodec.

Definition UnmarshalAccessPolicyYAML (data : B) options := DecodeAccessPolicy (Some data) (Some YAMLCodec) options.
Definition UnmarshalAccessPolicyJSON (data : B) options := DecodeAccessPolicy (Some data) (Some JSONCodec) options.
Definition UnmarshalAuditPolicyYAML (data : B) options := DecodeAuditPolicy (Some data) (Some YAMLCodec) options.
Definition UnmarshalAuditPolicyJSON (data : B) options := DecodeAuditPolicy (Some data) (Some JSONCodec) options.
End Policies.

(** What the libraries promise together: a document that is encoded without
    error is the only one of its stream. *)
Definition faithful (dec : Decoder B D) (b : B) (document : Document) : Prop :=
  ∃ d d', dec_Decode dec (dec_New dec b) = (d, Value document) ∧ dec_Any dec d = (d', EOF).

Lemma YAMLCodec_reads_back :
  (∀ d w w', enc_Encode yaml_encoder (enc_New yaml_encoder) d = (w, None) → enc_Close yaml_encoder w = (w', None) →
    faithful yaml_decoder (enc_Bytes yaml_encoder w') d) →
  ∀ d b, codec_Encode YAMLCodec d = Ret b → codec_Decode YAMLCodec b = Ret d.
Proof.
  intros Hlib d b. simpl. unfold YAMLCodec_Encode, YAMLCodec_Decode, decode_single.
  destruct (enc_Encode yaml_encoder (enc_New yaml_encoder) d) as [w [e|]] eqn:Ee;
    destruct (enc_Close yaml_encoder w) as [w' [ce|]] eqn:Ec; try done. intros [= <-].
  destruct (Hlib d w w' Ee Ec) as (d1 & d2 & -> & Ha). by rewrite Ha.
Qed.

Lemma JSONCodec_reads_back :
  (∀ d w, enc_Encode json_encoder (enc_New json_encoder) d = (w, None) → faithful json_decoder (enc_Bytes json_encoder w) d) →
  ∀ d b, codec_Encode JSONCodec d = Ret b → codec_Decode JSONCodec b = Ret d.
Proof.
  intros Hlib d b. simpl. unfold JSONCodec_Encode, JSONCodec_Decode, decode_single.
  destruct (enc_Encode json_encoder (enc_New json_encoder) d) as [w [e|]] eqn:Ee; [done|]. intros [= <-].
  destruct (Hlib d w Ee) as (d1 & d2 & -> & Ha). by rewrite Ha.
Qed.
End Codecs.

(** ** Streams of documents *)

(** A decoder of streams that are the lists of their documents, of which some
    may be malformed. *)
Definition list_next {X} (f : Document → X) (l : list (Document + string)) : list (Document + string) * read_result X :=
  match l with
  | [] => ([], EOF)
  | inl d :: l => (l, Value (f d))
  | inr text :: l => (l, Bad text)
  end.
Definition list_decoder : Decoder (list (Document + string)) (list (Document + string)) :=
  mkDecoder id (list_next id) (list_next (λ _, tt)).

(** A stream is accepted when it is one document. *)
Lemma decode_single_only l document : YAMLCodec_Decode list_decoder l = Ret document ↔ l = [inl document].
Proof.
  unfold YAMLCodec_Decode, decode_single. destruct l as [|[d|text] [|[d'|text'] l]]; simpl; split; intros Hl; by simplify_eq.
Qed.
