(* ===== verification/SecuredMemory.v ===== *)
(** * Access policies over the in-memory database
    (src/access/session.go over src/adapters/dalgo2memory/database.go)

    A session of the in-memory database as the session that AccessSession.v
    secures, and what the two guarantee together: the data of a record stay as
    they are while a policy in force denies the writes of every key that is
    stored in its place, and so does its key, unless its object is inserted
    again. *)

From Stdlib Require Import String.
From stdpp Require Import base gmap sets list strings.
From S2P Require Import Prelude GoValues GoMaps GoStrings GoJSON RecordKey DalQuery DalString.
From S2P Require Import AccessOperation AccessResource AccessRule AccessPolicy AccessSession.
From S2P Require DalReader RecordsetRows.
From S2P Require Import MemoryRows MemoryQuery MemoryUpdate MemoryEngine MemorySession MemorySessionLaws.
From S2P Require Import MemoryPivot MemoryRecordset MemoryExamples.

Local Open Scope string_scope.
Local Open Scope nat_scope.
Local Open Scope list_scope.

Section SecuredMemory.
Context `{GoFmt, GoJSON, Decoders}.
Context {E R : Type} `{StorageEngine E} `{!EngineModel E R} `{!EngineLaws E R}.
Context (objects : key_objects) (cfg : config (E:=E)).
Context (NewKeyWithID : string → string → key) (random_string_key : nat → res mem_error value).
Context (error_text : mem_error → string).

Notation state := (MemorySession.state (E:=E)).

(** A record is its key and the value of its data variable. *)
#[local] Instance memory_types : SessionTypes := {|
  record := option key * value;
  record_Key r := r.1;
  AccessSession.update := Update;
  precondition := unit;
  insertOption := insertOptions → insertOptions;
  recordsetOption := RecordsetRows.Option_;
  recordsReader := list result_record;
  recordsetReader := columnarReader;
  transactionOption := unit;
|}.

Context {P : Type} `{!Policy P}.

(** A context as the readers see it, which ask it whether it is cancelled. *)
Context (read_context : AccessSession.context P → DalReader.context).

(** Behind a session: the database, and what the reads loaded into the data
    variables of records, last first. *)
Definition behind : Type := state * list value.

Definition in_db {A} (m : M state A) : M behind A := λ st,
  let '(s, r) := m st.1 in ((s, st.2), r).

Definition load_into (v : value) : M behind unit := λ st, ((st.1, v :: st.2), Ret tt).

Definition perform {A} (m : M behind A) : action (P := P) (S := behind) A := λ _ st,
  let '(st', r) := m st in (rmap_error (λ e, OtherError (error_text e)) r, st').

(** A method of a nil key panics. *)
Definition on_key {A} (k : option key) (f : key → M behind A) : M behind A :=
  match k with Some k => f k | None => mlift (Panic nil_dereference) end.

Definition read_record (r : record) : M behind unit :=
  on_key r.1 (λ k, mdo v <- in_db (MemorySession.Get cfg k r.2); load_into v).

(** The step of [GetMulti]: a record that is not found is skipped. *)
Definition read_if_found (r : record) : M behind unit :=
  on_key r.1 (λ k,
    mdo v <- in_db (get_or_missing cfg k r.2);
    match v with Some v => load_into v | None => mret tt end).

Definition options_of (opts : list (insertOptions → insertOptions)) : insertOptions :=
  fold_left (λ o f, f o) opts (mkInsertOptions None false).

(** The records are inserted one after another; [now] is what the assignments
    so far did to the keys of those that are left. *)
Fixpoint insert_records (opts : list (insertOptions → insertOptions)) (now : key → key) (rs : list record) : M behind unit :=
  match rs with
  | [] => mret tt
  | r :: rest =>
      on_key r.1 (λ k,
        mdo x <- in_db (insert_key objects cfg random_string_key (now k) r.2 (options_of opts));
        insert_records opts (λ k0, x.2 (now k0)) rest)
  end.

Definition memory_read : ReadSession (P := P) (S := behind) := {|
  rs_Exists k := perform (on_key k (λ k, in_db (MemorySession.Exists cfg k)));
  rs_Get r := perform (read_record r);
  rs_GetMulti rs := perform (mdo _ <- in_db allowRead; mseq read_if_found rs);
  rs_ExecuteQueryToRecordsReader q := perform (in_db (ExecuteQueryToRecordsReader cfg NewKeyWithID q));
  rs_ExecuteQueryToRecordsetReader q opts := λ ctx,
    perform (in_db (ExecuteQueryToRecordsetReader cfg NewKeyWithID (read_context ctx) q opts)) ctx;
|}.

Definition memory_write : WriteSession (P := P) (S := behind) := {|
  ws_Set r := perform (on_key r.1 (λ k, in_db (Set_ cfg k r.2)));
  ws_SetMulti rs := perform (mseq (λ r : record, on_key r.1 (λ k, in_db (Set_ cfg k r.2))) rs);
  ws_Insert r opts := perform (insert_records opts (λ k, k) [r]);
  ws_InsertMulti rs opts := perform (insert_records opts (λ k, k) rs);
  ws_Update k us _ := perform (on_key k (λ k, in_db (Update_ cfg k us)));
  ws_UpdateRecord r us _ := perform (on_key r.1 (λ k, in_db (UpdateRecord cfg k us)));
  ws_UpdateMulti ks us _ := perform (mseq (λ k, on_key k (λ k, in_db (Update_ cfg k us))) ks);
  ws_Delete k := perform (on_key k (λ k, in_db (MemorySession.Delete cfg k)));
  ws_DeleteMulti ks := perform (mseq (λ k, on_key k (λ k, in_db (MemorySession.Delete cfg k))) ks);
|}.

Definition memory_rw : ReadwriteSession (P := P) (S := behind) := mkReadwriteSession memory_read memory_write.

(** Calls one after another, each with its context. *)
Definition exec_all (s : ReadwriteSession (P := P) (S := behind)) (calls : list (call * AccessSession.context P)) (st : behind) : behind :=
  fold_left (λ st c, (exec s c.1 c.2 st).2) calls st.

(** ** What it keeps

    The place of a key in the database, and the policies that deny every write
    of the keys of a place. *)
Definition place (k : key) : string * string := (Collection k, keyID k).

Definition overwrites (op : Operations) : Prop :=
  op ∈ [AccessOperation.OpSet; AccessOperation.Update; AccessOperation.Delete].

Definition protects (p : P) (at_ : string * string) : Prop :=
  ∀ ctx op k resources, overwrites op → place k = at_ → RecordResourceForKey (Some k) ∈ resources →
    policy_Authorize p ctx (mkRequest _ op resources None) ≠ None.

(** The call inserts the record of this key with an identifier generator. *)
Definition generates (c : call) (k : key) : Prop :=
  match c with
  | CallInsert r opts => generator random_string_key (options_of opts) ≠ None ∧ r.1 = Some k
  | CallInsertMulti rs opts => generator random_string_key (options_of opts) ≠ None ∧ ∃ r, r ∈ rs ∧ r.1 = Some k
  | _ => False
  end.

Section Kept.
Context (at_ : string * string).

(** The key objects that the calls may assign to. *)
Context (Q : key → Prop) (Hset : ∀ k id, Q k → Q (set_ID objects k id)) (Hseen : ∀ k1 id k, Q k → Q (seen objects k1 id k)).

(** What is stored at the place stays; its key sees assignments to those
    objects. *)
Definition kept (s s' : state) : Prop :=
  fresh_engines cfg → good s → good s' ∧
  ∃ f, assignments objects Q f ∧
    ∀ r, stored cfg s at_.1 at_.2 = Some r → stored cfg s' at_.1 at_.2 = Some (with_keys f r).

#[local] Instance kept_preorder : PreOrder kept.
Proof.
  split.
  - intros s _ Hg. split; [done|]. exists (λ k, k). split; [constructor|]. intros r. by rewrite with_keys_id.
  - intros s1 s2 s3 H12 H23 Hnew Hg. destruct (H12 Hnew Hg) as (Hg2 & f & Hf & Hr2).
    destruct (H23 Hnew Hg2) as (Hg3 & h & Hh & Hr3). split; [done|]. exists (λ k, h (f k)).
    split; [by apply assignments_then|]. intros r Hr. rewrite <- with_keys_with_keys. auto.
Qed.

(** A step without assignments. *)
Lemma kept_unassigned s s' :
  (fresh_engines cfg → good s → good s' ∧ ∀ r, stored cfg s at_.1 at_.2 = Some r → stored cfg s' at_.1 at_.2 = Some r) →
  kept s s'.
Proof.
  intros Hs Hnew Hg. destruct (Hs Hnew Hg) as [Hg' Hr]. split; [done|]. exists (λ k, k). split; [constructor|].
  intros r. rewrite with_keys_id. apply Hr.
Qed.

Lemma keeps_records_kept {A} (m : M state A) : keeps (keeps_records objects cfg Q) m → keeps kept m.
Proof. intros Hm s Hnew Hg. destruct (Hm s Hnew Hg) as (Hg' & f & Hf & Hr). eauto. Qed.

Lemma kept_mark : keeps kept (markWrite (E:=E)).
Proof. apply keeps_records_kept, keeps_records_mark. Qed.
Lemma kept_engine c : keeps kept (engine cfg c).
Proof. apply keeps_records_kept, keeps_records_engine. Qed.
Lemma kept_allowRead : keeps kept (allowRead (E:=E)).
Proof. intros s. unfold allowRead. repeat case_match; simpl; reflexivity. Qed.

(** A change of another place, or one that fails. *)
Lemma kept_change k (f : E → res mem_error E) :
  place k ≠ at_ →
  (∀ e e', engine_ok e → f e = Ret e' →
     engine_ok e' ∧ ∀ id, id ≠ keyID k → contents e' !! id = contents e !! id) →
  keeps kept (change cfg (Collection k) f).
Proof.
  intros Hk Hf s. apply kept_unassigned. intros Hnew Hg. destruct (change_run cfg s (Collection k) f) as (s' & -> & _ & Hch).
  pose proof (good_engine cfg s (Collection k) Hnew Hg) as Hok.
  destruct (f (engine_of cfg s (Collection k))) as [e'| |] eqn:He;
    destruct Hch as (_ & Hgood & Heng); [|split; [by apply Hgood|intros r; unfold stored; by rewrite Heng]..].
  destruct (Hf _ _ Hok He) as [Hok' Hsame]. split; [by apply Hgood|]. intros r. unfold stored. rewrite Heng.
  destruct (decide (at_.1 = Collection k)) as [Hc|]; [|done]. rewrite Hsame, Hc; [done|].
  intros Hid. apply Hk. unfold place. rewrite <- Hc, <- Hid. by destruct at_.
Qed.

Lemma kept_Set k data : place k ≠ at_ → keeps kept (Set_ cfg k data).
Proof.
  intros Hk. unfold Set_, save. apply keeps_bind; [apply _| |intros _; apply kept_mark].
  apply keeps_bind; [apply _|apply keeps_lift, _|intros _]. apply kept_change; [done|]. intros e e' Hok He'.
  pose proof (store_spec e (keyID k) k data true Hok (or_introl eq_refl)) as Hs.
  destruct (encode e data); [|congruence..]. destruct Hs as (e1 & He1 & Hok1 & Hc & _).
  rewrite He' in He1. injection He1 as <-. split; [done|]. intros id Hid. by rewrite Hc, lookup_insert_ne.
Qed.

Lemma kept_Delete k : place k ≠ at_ → keeps kept (MemorySession.Delete cfg k).
Proof.
  intros Hk. unfold MemorySession.Delete. apply keeps_bind; [apply _| |intros _; apply kept_mark].
  apply kept_change; [done|]. intros e e' Hok [= <-].
  destruct (delete_spec e (keyID k) Hok) as (Hok' & Hc & _). split; [done|]. intros id Hid.
  by rewrite Hc, lookup_delete_ne.
Qed.

Lemma kept_UpdateRecord k us : place k ≠ at_ → keeps kept (UpdateRecord cfg k us).
Proof.
  intros Hk. unfold UpdateRecord. apply keeps_bind; [apply _|apply keeps_lift, _|intros _].
  apply keeps_bind; [apply _| |intros _; apply kept_mark]. apply kept_change; [done|]. intros e e' Hok He'.
  destruct (contents e !! keyID k) as [r|] eqn:Hr; [|by rewrite update_missing in He'].
  pose proof (update_spec e (keyID k) us r Hok Hr) as Hs. destruct (updated e r.1 us); [|congruence..].
  destruct Hs as (e1 & He1 & Hok1 & Hc & _). rewrite He' in He1. injection He1 as <-.
  split; [done|]. intros id Hid. by rewrite Hc, lookup_insert_ne.
Qed.

(** Behind a session, with what was loaded. *)
Definition kept_behind (st st' : behind) : Prop := kept st.1 st'.1.

#[local] Instance kept_behind_preorder : PreOrder kept_behind.
Proof.
  split; [intros st; unfold kept_behind; reflexivity|]. intros st1 st2 st3. unfold kept_behind. apply transitivity.
Qed.

#[local] Hint Extern 1 (PreOrder kept) => exact kept_preorder : dalgo.
#[local] Hint Extern 1 (PreOrder kept_behind) => exact kept_behind_preorder : dalgo.
#[local] Hint Resolve kept_allowRead kept_engine kept_Set kept_Delete kept_UpdateRecord : dalgo.

Lemma kept_in_db {A} (m : M state A) : keeps kept m → keeps kept_behind (in_db m).
Proof. intros Hm [s loads]. specialize (Hm s). unfold kept_behind, in_db. simpl. by destruct (m s). Qed.

Lemma kept_load_into v : keeps kept_behind (load_into v).
Proof. intros [s loads]. unfold kept_behind. simpl. reflexivity. Qed.

Lemma kept_on_key {A} (k : option key) (f : key → M behind A) :
  (∀ k', k = Some k' → keeps kept_behind (f k')) → keeps kept_behind (on_key k f).
Proof. destruct k; simpl; auto with dalgo. Qed.

Lemma kept_each {A} (f : A → M behind unit) l :
  (∀ x, x ∈ l → keeps kept_behind (f x)) → keeps kept_behind (mseq f l).
Proof.
  induction l as [|x l IH]; intros Hf; simpl; [auto with dalgo|].
  apply keeps_bind; [apply _|apply Hf; set_solver|]. intros _. apply IH. set_solver.
Qed.

Lemma kept_perform {A} (m : M behind A) ctx st : keeps kept_behind m → kept_behind st (perform m ctx st).2.
Proof. intros Hm. specialize (Hm st). unfold perform. by destruct (m st). Qed.

#[local] Hint Resolve kept_in_db kept_load_into : dalgo.

Lemma kept_read r : keeps kept_behind (read_record r).
Proof.
  apply kept_on_key. intros k _. apply keeps_bind; [apply _| |auto with dalgo].
  apply kept_in_db, keeps_Get; auto with dalgo.
Qed.

Lemma kept_read_if_found r : keeps kept_behind (read_if_found r).
Proof.
  apply kept_on_key. intros k _. apply keeps_bind; [apply _| |intros [v|]; auto with dalgo].
  apply kept_in_db, keeps_get_or_missing; auto with dalgo.
Qed.

Lemma kept_query q : keeps kept (ExecuteQueryToRecordsReader cfg NewKeyWithID q).
Proof. apply keeps_ExecuteQuery; auto with dalgo. Qed.

Lemma kept_recordset_query rctx q opts : keeps kept (ExecuteQueryToRecordsetReader cfg NewKeyWithID rctx q opts).
Proof. apply keeps_ExecuteQueryToRecordset; auto with dalgo. Qed.

Lemma kept_insert_records opts now rs :
  (generator random_string_key (options_of opts) ≠ None → ∀ k, Q k → Q (now k)) →
  (generator random_string_key (options_of opts) ≠ None → ∀ r k, r ∈ rs → r.1 = Some k → Q k) →
  keeps kept_behind (insert_records opts now rs).
Proof.
  revert now. induction rs as [|r rest IH]; intros now Hnow Hrs; simpl; [auto with dalgo|].
  apply kept_on_key. intros k Hk. apply keeps_bind_result; [apply _| |].
  - apply kept_in_db, keeps_records_kept.
    destruct (generator random_string_key (options_of opts)) as [g|] eqn:Hg.
    + apply (keeps_insert_key objects cfg random_string_key _ (keeps_records_engine objects cfg Q) (keeps_records_mark objects cfg Q)
        (keeps_records_save objects cfg Q) Q Hset).
      * intros _ k' id Hk'. by apply keeps_records_assign.
      * apply Hnow; [done|]. apply (Hrs ltac:(done) r); [by left|done].
    + apply (keeps_insert_key objects cfg random_string_key _ (keeps_records_engine objects cfg Q) (keeps_records_mark objects cfg Q)
        (keeps_records_save objects cfg Q) (λ _, True)); [done..|congruence|done].
  - intros st st' x Hx. apply IH; [|intros Hg r' k' Hr'; apply Hrs; [done|by right]].
    intros Hg k' Hk'. unfold in_db in Hx. destruct (insert_key _ _ _ _ _ _ st.1) as [s' res_] eqn:Hins. simplify_eq.
    by eapply inserted_now; [exact Hseen|exact Hins|apply Hnow].
Qed.

(** A method of a key among those of a call that overwrites none of the place. *)
Lemma kept_key_of {A} op (ks : list (option key)) k (f : key → M state A) :
  (∀ k, overwrites op → RecordResourceForKey (Some k) ∈ RecordResourceForKey <$> ks → place k ≠ at_) →
  overwrites op → k ∈ ks → (∀ k, place k ≠ at_ → keeps kept (f k)) →
  keeps kept_behind (on_key k (λ k, in_db (f k))).
Proof.
  intros Hks Hop Hk Hf. apply kept_on_key. intros k' ->. apply kept_in_db, Hf, Hks; [done|].
  by apply list_elem_of_fmap_2.
Qed.

#[local] Hint Extern 1 (overwrites _) => unfold overwrites; set_solver : dalgo.
#[local] Hint Extern 1 (_ ∈ [_]) => by apply list_elem_of_singleton : dalgo.
#[local] Hint Extern 1 (fst _ ∈ fst <$> _) => by apply list_elem_of_fmap_2 : dalgo.

Ltac by_keys ks Hks :=
  eapply (kept_key_of _ ks); [exact Hks|auto with dalgo|auto with dalgo|unfold Update_; auto with dalgo].

(** A call that overwrites no key of the place, and generates no identifier but
    for those objects. *)
Lemma kept_call (c : call) ctx st req :
  call_request c = Ret req → (∀ k, generates c k → Q k) →
  (∀ k, overwrites (req_Operation req) → RecordResourceForKey (Some k) ∈ req_Resources req → place k ≠ at_) →
  kept_behind st (exec memory_rw c ctx st).2.
Proof.
  intros Hreq Hgen Hk. destruct c; simpl in Hreq; try (injection Hreq as <-); unfold exec, answered; cbn [snd rw_read rw_write memory_rw
    memory_read memory_write rs_Exists rs_Get rs_GetMulti rs_ExecuteQueryToRecordsReader rs_ExecuteQueryToRecordsetReader ws_Set ws_SetMulti
    ws_Insert ws_InsertMulti ws_Update ws_UpdateRecord ws_UpdateMulti ws_Delete ws_DeleteMulti]; apply kept_perform.
  all: cbn [req_Operation req_Resources] in Hk.
  - apply kept_on_key. intros k' ->. apply kept_in_db, keeps_Exists; auto with dalgo.
  - apply kept_read.
  - apply keeps_bind; [apply _|auto with dalgo|]. intros _. apply kept_each. intros r _. apply kept_read_if_found.
  - apply kept_in_db, kept_query.
  - apply kept_in_db, kept_recordset_query.
  - by_keys [r.1] Hk.
  - apply kept_each. intros r Hr. by_keys (fst <$> rs) Hk.
  - apply kept_insert_records; [done|]. intros Hg r' k ->%list_elem_of_singleton Hk'. by apply Hgen.
  - apply kept_insert_records; [done|]. intros Hg r k Hr Hk'. apply Hgen. split; [done|by exists r].
  - by_keys [k] Hk.
  - by_keys [r.1] Hk.
  - apply kept_each. intros k Hin. by_keys ks Hk.
  - by_keys [k] Hk.
  - apply kept_each. intros k Hin. by_keys ks Hk.
Qed.

Lemma overwrites_no_query (c : call) req :
  call_request c = Ret req → overwrites (req_Operation req) → req_Query req = None.
Proof.
  unfold overwrites. destruct c; simpl; try (by intros [= <-]);
    destruct (resourcesForQuery q); simpl; try done; intros [= <-]; cbn; rewrite !elem_of_cons, elem_of_nil;
    unfold AccessOperation.Query, AccessOperation.OpSet, AccessOperation.Update, AccessOperation.Delete; lia.
Qed.

Lemma kept_secured_call g p (c : call) ctx st :
  p ∈ databasePolicies g ++ boundPolicies g → protects p at_ → (∀ k, generates c k → Q k) →
  kept_behind st (exec (securedReadwriteSession memory_rw g) c ctx st).2.
Proof.
  intros Hp Hprot Hgen. destruct (call_request c) as [req| |] eqn:Hreq; [|rewrite exec_secured_panic by congruence; reflexivity..].
  rewrite (exec_secured _ _ _ _ _ req Hreq). destruct (authorizeRequest g ctx req) as [err|] eqn:Hauth; [simpl; reflexivity|].
  apply (kept_call c ctx st req Hreq Hgen). intros k Hop Hin Hk.
  apply authorizeRequest_None in Hauth as [_ Hall]. apply (Hprot ctx _ k (req_Resources req) Hop Hk Hin).
  pose proof (overwrites_no_query c req Hreq Hop) as Hq. destruct req as [op rs q]. simpl in *. subst q.
  apply Hall. unfold guard_policies. set_solver.
Qed.
End Kept.

(** A policy whose rules allow no overwriting operation on the keys of a place
    protects it. *)
Lemma AccessPolicy_protects name rules p c id :
  NewPolicy name rules = Ret p →
  (∀ op k rule, overwrites op → (Collection k, keyID k) = (c, id) → rule ∈ ap_compiled p →
     c_effect rule = effectAllow → rule_applies op (RecordResourceForKey (Some k)) rule = false) →
  ∀ op k resources, overwrites op → (Collection k, keyID k) = (c, id) → RecordResourceForKey (Some k) ∈ resources →
    Authorize p (mkRequest _ op resources None) ≠ None.
Proof.
  intros Hp Hrules op k resources Hop Hk Hin. unfold Authorize.
  destruct (Allowed (Decide p _)) eqn:Ha; [|done]. apply Decide_allowed in Ha as (_ & _ & Hall).
  specialize (Hall _ Hin). apply (decideResource_allowed p _ _ (NewPolicy_good _ _ _ Hp)) in Hall as (rule & Hwin & Heff).
  destruct Hwin as (Hrule & Happ & _). simpl in Happ. by rewrite (Hrules op k rule) in Happ.
Qed.

(** The key objects of the records that the calls insert with a generator. *)
Definition generated_objects (calls : list (call * AccessSession.context P)) (k' : key) : Prop :=
  ∃ c ctx k, (c, ctx) ∈ calls ∧ generates c k ∧ later objects k k'.

End SecuredMemory.

(** ** Examples *)

Module SecuredExamples.
Import MemoryExamples.
#[local] Existing Instance plain_fmt.
#[local] Existing Instance plain_json.
#[local] Existing Instance plain_decoders.
#[local] Existing Instance chain_keys.
#[local] Existing Instance serialized_laws.
#[local] Existing Instance memory_types.

(** Reads are allowed, and nothing else. *)
Definition read_only : AccessPolicy := AccessPolicy.Examples.policy.

Lemma read_only_protects : protects read_only ("users", "a").
Proof.
  intros ctx op k resources Hop Hk Hin Hauth.
  destruct (Authorize read_only (mkRequest _ op resources None)) as [d|] eqn:Ha; [by cbn in Hauth; rewrite Ha in Hauth|].
  refine (AccessPolicy_protects "p" AccessPolicy.Examples.rules read_only "users" "a" AccessPolicy.Examples.policy_ok _ op k resources Hop Hk Hin Ha).
  clear. intros op k rule Hop _ Hrule Heff. unfold rule_applies.
  assert (Hno : contains (c_operations rule) op = false); [|by rewrite Hno].
  unfold overwrites in Hop. repeat (apply elem_of_cons in Hop as [->|Hop]); [..|by apply not_elem_of_nil in Hop];
    apply list_elem_of_In in Hrule; vm_compute in Hrule; destruct Hrule as [<-|[<-|[<-|[]]]]; try reflexivity; discriminate Heff.
Qed.

Definition text (_ : mem_error) : string := "error".
Definition never (_ : AccessSession.context AccessPolicy) : DalReader.context := None.

Definition database : ReadwriteSession (P := AccessPolicy) (S := behind) :=
  memory_rw own_objects (schemaless false) new_key no_ids text never.
Definition secured (p : AccessPolicy) : ReadwriteSession (P := AccessPolicy) (S := behind) :=
  securedReadwriteSession database (mkGuard [p] [] false).

Definition user_a : option (RecordKey.key (RecordKeys := chain_keys)) := Some (new_key "users" "a").
Definition attack : list (call * AccessSession.context AccessPolicy) :=
  (λ c, (c, Background)) <$>
  [CallSet (user_a, vmap bob); CallInsert (user_a, vmap bob) []; CallDelete user_a; CallGet (user_a, VNil);
   CallDeleteMulti [Some (new_key "users" "e"); user_a]].


(** ** Two keys of one place

    A policy distinguishes keys that the database does not: the database knows
    a key by the text of its identifier, or of its path when it has a parent. *)
Definition under (path : list value) : list Rule :=
  [Root [Allow ReadWrite ["all"]];
   Under (match NewPath path with Ret p => p | _ => no_pattern end) [Deny Write ["read-only"]]].

Definition guarded_by (path : list value) : AccessPolicy :=
  match NewPolicy "p" (under path) with Ret p => p | _ => read_only end.

Definition string_one : chain_key := ChainKey "users" (vstr "1") None.
Definition int_one : chain_key := ChainKey "users" (vint 1) None.
Definition nested : chain_key := ChainKey "items" (vstr "i") (Some (ChainKey "spaces" (vstr "A") None)).
Definition flat : chain_key := ChainKey "items" (vstr "spaces/A/items/i") None.

Definition set_to (k : chain_key) (data : row_map) : call := CallSet (Some k : option (RecordKey.key (RecordKeys := chain_keys)), vmap data).

(** [k] is protected by the rule on [path], [k'] is not, and overwrites it. *)
Definition overwritten_through (path : list value) (k k' : chain_key) : Prop :=
  let st := (exec database (set_to k ann) Background (empty_state false, [])).2 in
  let at_ := (RecordKey.Collection (RecordKeys := chain_keys) k, keyID (H3 := chain_keys) k) in
  ∃ old new d,
    stored (schemaless false) st.1 at_.1 at_.2 = Some old ∧
    exec (secured (guarded_by path)) (set_to k bob) Background st = (Fail (DeniedError d), st) ∧
    stored (schemaless false) (exec (secured (guarded_by path)) (set_to k' bob) Background st).2.1 at_.1 at_.2 = Some new ∧
    new ≠ old.

Theorem other_keys_of_a_place :
  overwritten_through [vstr "users"; vstr "1"] string_one int_one ∧
  overwritten_through [vstr "spaces"; vstr "A"] nested flat.
Proof. split; do 3 eexists; split_and!; try (vm_compute; reflexivity); discriminate. Qed.
End SecuredExamples.
