(* ===== verification/MemorySecrecy.v ===== *)
(** * What policies keep secret in the in-memory database
    (src/access/session.go over src/adapters/dalgo2memory/database.go)

    Two databases that differ in one collection only, and the same calls on
    both through a secured session: a policy that denies the calls which name
    the collection hides it, answers, errors and loaded data alike.  A policy
    that denies the paths of nested records does not: a query of the root
    collection of that name returns them. *)

From Stdlib Require Import String.
From stdpp Require Import base gmap sets list strings.
From S2P Require Import Prelude GoValues GoMaps GoStrings GoJSON RecordKey DalQuery DalString.
From S2P Require Import AccessOperation AccessResource AccessRule AccessPolicy AccessSession.
From S2P Require DalReader RecordsetRows.
From S2P Require Import MemoryRows MemoryQuery MemoryUpdate MemoryEngine MemorySession MemorySessionLaws.
From S2P Require Import MemoryPivot MemoryRecordset MemoryExamples SecuredMemory.

Local Open Scope string_scope.
Local Open Scope nat_scope.
Local Open Scope list_scope.

(** ** Operations on two states *)

Section Alike.
Context {S : Type} (R : relation S).

(** From related states the operation has the same outcome, and it leaves
    related states. *)
Definition alike {A} (m : M S A) : Prop := ∀ s s', R s s' → (m s).2 = (m s').2 ∧ R (m s).1 (m s').1.

Lemma alike_lift {A} (r : res mem_error A) : alike (mlift r).
Proof. by intros s s' Hs. Qed.
Lemma alike_ret {A} (a : A) : alike (mret a).
Proof. apply alike_lift. Qed.
Lemma alike_fail {A} e : alike (mfail (A:=A) e).
Proof. by intros s s' Hs. Qed.

Lemma alike_bind {A B} (m : M S A) (k : A → M S B) : alike m → (∀ a, alike (k a)) → alike (mbind m k).
Proof.
  intros Hm Hk s s' Hs. unfold mbind. destruct (Hm s s' Hs) as [Hr HR].
  destruct (m s) as [s1 r], (m s') as [s2 r']. simpl in *. subst r'. destruct r; [by apply Hk|done..].
Qed.

(** The rest may depend on how the result came about. *)
Lemma alike_bind_result {A B} (m : M S A) (k : A → M S B) :
  alike m → (∀ s s' a, m s = (s', Ret a) → alike (k a)) → alike (mbind m k).
Proof.
  intros Hm Hk s s' Hs. unfold mbind. destruct (Hm s s' Hs) as [Hr HR]. specialize (Hk s).
  destruct (m s) as [s1 r], (m s') as [s2 r']. simpl in *. subst r'. destruct r as [a| |]; [|done..].
  by apply (Hk s1 a).
Qed.

Lemma alike_seq {A} (f : A → M S unit) l : (∀ x, x ∈ l → alike (f x)) → alike (mseq f l).
Proof.
  induction l as [|x l IH]; intros Hf; simpl; [apply alike_ret|].
  apply alike_bind; [apply Hf; by left|]. intros _. apply IH. intros y Hy. apply Hf. by right.
Qed.
End Alike.

#[export] Hint Resolve alike_lift alike_ret alike_fail alike_bind alike_seq : dalgo.

(** ** What the calls of a session name *)

Section Names.
Context `{ST : SessionTypes}.

Definition key_collections (k : option key) : list string :=
  match k with Some k => [Collection k] | None => [] end.

Definition query_collections (query : DalQuery.Query) : list string :=
  match query with
  | StructuredQuery q =>
      match q_from q with
      | Some from => source_Name (from_Base from) :: ((λ j, source_Name (join_source j)) <$> from_Joins from)
      | None => []
      end
  | _ => []
  end.

Definition collections (c : call) : list string :=
  match c with
  | CallExists k | CallUpdate k _ _ | CallDelete k => key_collections k
  | CallGet r | CallSet r | CallInsert r _ | CallUpdateRecord r _ _ => key_collections (record_Key r)
  | CallGetMulti rs | CallSetMulti rs | CallInsertMulti rs _ => rs ≫= λ r, key_collections (record_Key r)
  | CallRecordsReader q | CallRecordsetReader q _ => query_collections q
  | CallUpdateMulti ks _ _ | CallDeleteMulti ks => ks ≫= key_collections
  end.

(** A client chooses each call from the answers and the data of those before
    it, last first; [None] ends the session. *)
Context {P : Type} `{!Policy P}.

Definition client : Type := list (res error answer) → list value → option (call * AccessSession.context P).

(** The policy rejects every call of the client that names the collection. *)
Definition hides (p : P) (c : string) (who : client) : Prop :=
  ∀ seen loads x ctx req, who seen loads = Some (x, ctx) → c ∈ collections x → call_request x = Ret req →
    policy_Authorize p ctx req ≠ None.
End Names.
Arguments client {_ _} P.

Section Secrecy.
Context `{GoFmt, GoJSON, Decoders}.
Context {E : Type} `{StorageEngine E}.
Context (objects : key_objects) (cfg : config (E:=E)).
Context (NewKeyWithID : string → string → key) (random_string_key : nat → res mem_error value).
Context (error_text : mem_error → string).
#[local] Existing Instance memory_types.
Context {P : Type} `{!Policy P}.
Context (read_context : AccessSession.context P → DalReader.context).

Notation state := (MemorySession.state (E:=E)).
Notation behind := (behind (E:=E)).
Notation memory_rw := (memory_rw objects cfg NewKeyWithID random_string_key error_text read_context).

(** An assignment to [key.ID] moves no key. *)
Context (set_ID_Collection : ∀ k id, Collection (set_ID objects k id) = Collection k).
Context (seen_Collection : ∀ k1 id k, Collection (seen objects k1 id k) = Collection k).

Section Agree.
Context (secret : string).

(** The states of two databases that differ in one collection. *)
Definition agree (s s' : state) : Prop :=
  txState s = txState s' ∧ ∀ c, c ≠ secret → db_collections s !! c = db_collections s' !! c.

(** ... and the same data was loaded. *)
Definition agree_behind (st st' : behind) : Prop := agree st.1 st'.1 ∧ st.2 = st'.2.

Lemma alike_allowRead : alike agree (allowRead (E:=E)).
Proof. intros s s' Hs. unfold allowRead. rewrite (proj1 Hs). by repeat case_match. Qed.

Lemma alike_markWrite : alike agree (markWrite (E:=E)).
Proof. intros s s' [Htx Hc]. split; [done|]. split; simpl; [by rewrite Htx|done]. Qed.

Lemma agree_put c e s s' : agree s s' → agree (put_engine c e s).1 (put_engine c e s').1.
Proof.
  intros [Htx Hc]. split; [done|]. intros c' Hc'. simpl. destruct (decide (c = c')) as [->|Hne].
  - by rewrite !lookup_insert_eq.
  - rewrite !lookup_insert_ne by done. by apply Hc.
Qed.

Lemma alike_put c e : alike agree (put_engine (E:=E) c e).
Proof. intros s s' Hs. split; [done|]. by apply agree_put. Qed.

Lemma alike_engine c : c ≠ secret → alike agree (engine cfg c).
Proof.
  intros Hne s s' Hs. unfold engine. rewrite <- (proj2 Hs c Hne).
  destruct (db_collections s !! c); simpl; [done|]. split; [done|]. by apply (agree_put c).
Qed.

#[local] Hint Resolve alike_allowRead alike_markWrite alike_put alike_engine : dalgo.

Lemma alike_change c f : c ≠ secret → alike agree (change cfg c f).
Proof. intros Hc. unfold change. auto 10 with dalgo. Qed.
#[local] Hint Resolve alike_change : dalgo.

Lemma alike_save k data b : Collection k ≠ secret → alike agree (save cfg k data b).
Proof. intros Hc. unfold save. auto 10 with dalgo. Qed.
#[local] Hint Resolve alike_save : dalgo.

Lemma alike_assign k id : alike agree (assign objects k id).
Proof.
  intros s s' [Htx Hc]. split; [done|]. split; [done|]. intros c Hne. simpl. by rewrite !lookup_fmap, Hc.
Qed.
#[local] Hint Resolve alike_assign : dalgo.

Lemma alike_generate g n i k now data : Collection k ≠ secret →
  alike agree (generate_and_insert objects cfg g n i k now data).
Proof.
  revert i k now. induction n as [|n IH]; intros i k now Hk; simpl; [auto with dalgo|].
  destruct (g i) as [id| |]; [|auto with dalgo..]. apply alike_bind; [auto with dalgo|]. intros _.
  assert (Collection (set_ID objects k id) ≠ secret) by (by rewrite set_ID_Collection).
  apply alike_bind; [auto with dalgo|]. intros e. case_match; auto with dalgo.
Qed.
#[local] Hint Resolve alike_generate : dalgo.

Lemma alike_insert_key k data o : Collection k ≠ secret →
  alike agree (insert_key objects cfg random_string_key k data o).
Proof. intros Hk. unfold insert_key. case_match; auto 10 with dalgo. Qed.

Lemma alike_Get k target : Collection k ≠ secret → alike agree (MemorySession.Get cfg k target).
Proof. intros Hk. unfold MemorySession.Get. auto 10 with dalgo. Qed.

Lemma alike_get_or_missing k target : Collection k ≠ secret → alike agree (get_or_missing cfg k target).
Proof.
  intros Hk s s' Hs. unfold get_or_missing. destruct (alike_Get k target Hk s s' Hs) as [Hr HR].
  destruct (MemorySession.Get cfg k target s) as [s1 r], (MemorySession.Get cfg k target s') as [s2 r'].
  simpl in *. subst r'. by repeat case_match.
Qed.

Lemma alike_rows c : c ≠ secret → alike agree (loadRows cfg c).
Proof. intros Hc. unfold loadRows. auto with dalgo. Qed.

Lemma alike_candidates c w : c ≠ secret → alike agree (loadCandidateRows cfg c w).
Proof.
  intros Hc. unfold loadCandidateRows. apply alike_bind; [auto with dalgo|]. intros e.
  apply alike_bind; [auto with dalgo|]. intros [rs|]; auto with dalgo.
Qed.
#[local] Hint Resolve alike_rows alike_candidates : dalgo.

Lemma joinPlan_source q from j : joinPlan q from = Ret j → j ∈ from_Joins from.
Proof.
  unfold joinPlan. intros Hj. destruct (from_Joins from) as [|join [|]]; [done| |done].
  assert (join = j) as ->; [|by left].
  destruct (join_joinType join); try done; destruct (validateOrderSources _ _); try done; simpl in Hj;
    destruct (if grouped q then _ else _); by simplify_eq/=.
Qed.

Lemma alike_query q : secret ∉ query_collections q → alike agree (ExecuteQueryToRecordsReader cfg NewKeyWithID q).
Proof.
  intros Hq. unfold ExecuteQueryToRecordsReader. apply alike_bind; [auto with dalgo|]. intros _.
  destruct q as [q| |]; [|auto with dalgo..]. simpl in Hq. destruct (q_from q) as [from|]; [|auto with dalgo].
  apply not_elem_of_cons in Hq as [Hbase Hjoins]. case_match.
  - unfold executeJoinQuery. intros s s' Hs. destruct (joinPlan q from) as [j| |] eqn:Hj; [|done..].
    assert (source_Name (join_source j) ≠ secret).
    { intros <-. apply Hjoins. apply (list_elem_of_fmap_2 (λ j, source_Name (join_source j))). by eapply joinPlan_source. }
    revert s s' Hs. change (alike agree (mdo baseRows <- loadRows cfg (source_Name (from_Base from));
      mdo joinRows <- loadRows cfg (source_Name (join_source j));
      mlift (executeJoin NewKeyWithID q (from_Base from) j baseRows joinRows))). auto 10 with dalgo.
  - apply alike_bind; [auto with dalgo|]. intros f. auto with dalgo.
Qed.
#[local] Hint Resolve alike_query alike_change alike_save alike_insert_key alike_Get alike_get_or_missing : dalgo.

Lemma alike_recordset_query rctx q opts : secret ∉ query_collections q →
  alike agree (ExecuteQueryToRecordsetReader cfg NewKeyWithID rctx q opts).
Proof.
  intros Hq. unfold ExecuteQueryToRecordsetReader. apply alike_bind; [auto with dalgo|]. intros _.
  destruct q; auto with dalgo.
Qed.

Lemma alike_in_db {A} (m : M state A) : alike agree m → alike agree_behind (in_db m).
Proof.
  intros Hm [s loads] [s' loads'] [Hs Hl]. simpl in *. subst loads'. unfold in_db, agree_behind. simpl.
  destruct (Hm s s' Hs) as [Hr HR]. destruct (m s), (m s'). simpl in *. by subst.
Qed.

Lemma alike_load_into v : alike agree_behind (load_into v).
Proof. intros st st' [Hs Hl]. split; [done|]. split; simpl; [done|]. by rewrite Hl. Qed.

Lemma alike_on_key {A} k (f : key → M behind A) :
  (∀ k', k = Some k' → alike agree_behind (f k')) → alike agree_behind (on_key k f).
Proof. destruct k; simpl; auto with dalgo. Qed.

#[local] Hint Resolve alike_in_db alike_load_into : dalgo.

(** The methods of a key that is not in the collection. *)
Lemma alike_key {A} k (f : key → M state A) : secret ∉ key_collections k →
  (∀ k', Collection k' ≠ secret → alike agree (f k')) → alike agree_behind (on_key k (λ k, in_db (f k))).
Proof. intros Hk Hf. apply alike_on_key. intros k' ->. apply alike_in_db, Hf. set_solver. Qed.

Lemma alike_read r : secret ∉ key_collections r.1 → alike agree_behind (read_record cfg r).
Proof.
  intros Hr. apply alike_on_key. intros k Hk. rewrite Hk in Hr.
  assert (Collection k ≠ secret) by set_solver. auto with dalgo.
Qed.

Lemma alike_read_if_found r : secret ∉ key_collections r.1 → alike agree_behind (read_if_found cfg r).
Proof.
  intros Hr. apply alike_on_key. intros k Hk. rewrite Hk in Hr.
  assert (Collection k ≠ secret) by set_solver. apply alike_bind; [auto with dalgo|]. intros [v|]; auto with dalgo.
Qed.

Lemma alike_each {A B} (names : A → list B) (f : A → M behind unit) (c : B) l :
  c ∉ l ≫= names → (∀ x, c ∉ names x → alike agree_behind (f x)) → alike agree_behind (mseq f l).
Proof. intros Hl Hf. apply alike_seq. intros x Hx. apply Hf. intros Hc. apply Hl, list_elem_of_bind. eauto. Qed.

(** Assignments to earlier records of the batch move none of the later ones. *)
Lemma alike_insert opts now rs :
  (∀ k, Collection (now k) = Collection k) → secret ∉ (rs ≫= λ r, key_collections r.1) →
  alike agree_behind (insert_records objects cfg random_string_key opts now rs).
Proof.
  revert now. induction rs as [|r rest IH]; intros now Hnow Hrs; simpl; [auto with dalgo|].
  simpl in Hrs. apply not_elem_of_app in Hrs as [Hr Hrest].
  apply alike_on_key. intros k Hk. rewrite Hk in Hr.
  assert (Collection (now k) ≠ secret) by (rewrite Hnow; set_solver).
  apply alike_bind_result; [auto with dalgo|]. intros st st' x Hx. apply IH; [|done]. intros k'. rewrite <- (Hnow k').
  unfold in_db in Hx. destruct (insert_key _ _ _ _ _ _ st.1) as [s' res_] eqn:Hins. simplify_eq.
  by eapply (inserted_now (E:=E) objects cfg random_string_key (λ k0, Collection k0 = Collection (now k')));
    [intros ???; by rewrite seen_Collection|exact Hins|].
Qed.

(** What is observed of a call: its answer or error, and what it loaded. *)
Lemma alike_answered {A} (f : A → answer) (m : M behind A) ctx st st' :
  alike agree_behind m → agree_behind st st' →
  (answered f (perform (P:=P) error_text m ctx st)).1 = (answered f (perform (P:=P) error_text m ctx st')).1 ∧
  agree_behind (answered f (perform (P:=P) error_text m ctx st)).2 (answered f (perform (P:=P) error_text m ctx st')).2.
Proof.
  intros Hm Hst. destruct (Hm st st' Hst) as [Hr HR]. unfold answered, perform.
  destruct (m st), (m st'). simpl in *. by subst.
Qed.

Lemma alike_call c ctx st st' : secret ∉ collections c → agree_behind st st' →
  (exec memory_rw c ctx st).1 = (exec memory_rw c ctx st').1 ∧
  agree_behind (exec memory_rw c ctx st).2 (exec memory_rw c ctx st').2.
Proof.
  intros Hc Hst. destruct c; cbn [collections] in Hc; apply alike_answered; try done.
  - apply alike_key; [done|]. intros k' Hk. unfold MemorySession.Exists. auto 10 with dalgo.
  - by apply alike_read.
  - apply alike_bind; [auto with dalgo|]. intros _. by eapply alike_each, alike_read_if_found.
  - auto with dalgo.
  - by apply alike_in_db, alike_recordset_query.
  - apply alike_key; [done|]. intros k Hk. unfold Set_. auto with dalgo.
  - eapply alike_each; [done|]. intros r Hr. apply alike_key; [done|]. intros k Hk. unfold Set_. auto with dalgo.
  - apply alike_insert; [done|]. simpl. by rewrite app_nil_r.
  - by apply alike_insert.
  - apply alike_key; [done|]. intros k' Hk. unfold Update_, UpdateRecord. auto with dalgo.
  - apply alike_key; [done|]. intros k' Hk. unfold UpdateRecord. auto with dalgo.
  - eapply alike_each; [done|]. intros r Hr. apply alike_key; [done|]. intros k Hk.
    unfold Update_, UpdateRecord. auto with dalgo.
  - apply alike_key; [done|]. intros k' Hk. unfold MemorySession.Delete. auto with dalgo.
  - eapply alike_each; [done|]. intros r Hr. apply alike_key; [done|]. intros k Hk.
    unfold MemorySession.Delete. auto with dalgo.
Qed.
(** A query without a source panics alike. *)
Lemma exec_secured_panics g c ctx : (∀ req, call_request c ≠ Ret req) →
  ∃ r, ∀ st, exec (securedReadwriteSession memory_rw g) c ctx st = (r, st).
Proof.
  intros Hno. destruct c; cbn [call_request] in Hno; try (by destruct (Hno _ eq_refl));
    unfold exec, answered; cbn [rw_read securedReadwriteSession securedReadSession rs_ExecuteQueryToRecordsReader
      rs_ExecuteQueryToRecordsetReader];
    unfold secured_ExecuteQueryToRecordsReader, secured_ExecuteQueryToRecordsetReader, guarded_query;
    destruct (resourcesForQuery q) as [rs| |]; try (by destruct (Hno _ eq_refl));
    eexists; intros st; cbn; reflexivity.
Qed.

Lemma alike_secured g p c ctx st st' :
  p ∈ databasePolicies g ++ boundPolicies g →
  (∀ req, secret ∈ collections c → call_request c = Ret req → policy_Authorize p ctx req ≠ None) →
  agree_behind st st' →
  (exec (securedReadwriteSession memory_rw g) c ctx st).1 = (exec (securedReadwriteSession memory_rw g) c ctx st').1 ∧
  agree_behind (exec (securedReadwriteSession memory_rw g) c ctx st).2 (exec (securedReadwriteSession memory_rw g) c ctx st').2.
Proof.
  intros Hp Hdeny Hst. destruct (call_request c) as [req| |] eqn:Hreq.
  2-3: destruct (exec_secured_panics g c ctx) as [r Hr]; [congruence|]; by rewrite !Hr.
  rewrite !(exec_secured _ _ _ _ _ req Hreq). destruct (authorizeRequest g ctx req) as [err|] eqn:Ha; [done|].
  apply alike_call; [|done]. intros Hc. apply (Hdeny req Hc eq_refl).
  apply authorizeRequest_None in Ha as [_ Hall]. apply Hall. unfold guard_policies. set_solver.
Qed.
End Agree.

(** [n] calls of a client at most. *)
Fixpoint converse (s : ReadwriteSession (P := P) (S := behind)) (who : client P) (n : nat) (seen : list (res error answer))
    (st : behind) : list (res error answer) * behind :=
  match n with
  | 0 => (seen, st)
  | S n =>
      match who seen st.2 with
      | None => (seen, st)
      | Some (x, ctx) => let '(r, st') := exec s x ctx st in converse s who n (r :: seen) st'
      end
  end.

(** C4: a policy in force that rejects the calls of a client which name a
    collection keeps the collection secret: on two in-memory databases that
    differ in that collection only, the client gets the same answers, the same
    errors and the same data, however it chooses its calls from what it saw
    before, and the databases still agree on the rest. *)
Theorem denied_collection_is_secret g p (who : client P) secret n seen (st st' : behind)
    (Hp : p ∈ databasePolicies g ++ boundPolicies g) (Hhides : hides p secret who)
    (Hagree : agree_behind secret st st') :
  (converse (securedReadwriteSession memory_rw g) who n seen st).1 =
    (converse (securedReadwriteSession memory_rw g) who n seen st').1 ∧
  agree_behind secret (converse (securedReadwriteSession memory_rw g) who n seen st).2
    (converse (securedReadwriteSession memory_rw g) who n seen st').2.
Proof.
  revert seen st st' Hagree. induction n as [|n IH]; intros seen st st' Hagree; cbn [converse]; [done|].
  rewrite <- (proj2 Hagree). destruct (who seen st.2) as [[x ctx]|] eqn:Hx; [|done].
  destruct (alike_secured secret g p x ctx st st' Hp) as [Hr HR]; [intros req Hc Hreq; by eapply Hhides|done|].
  destruct (exec _ x ctx st) as [r st1], (exec _ x ctx st') as [r' st1']. simpl in Hr, HR. subst r'. by apply IH.
Qed.
End Secrecy.

(** ** Policies that keep to other root collections *)

Section Scoped.
Context `{GoFmt, ST : SessionTypes, !RecordKeysLaws _}.

(** A client that uses no nested keys, groups and embedded sources. *)
Definition rooted_key (k : option key) : bool :=
  match k with Some k => bool_decide (Parent k = None) | None => true end.

Definition rooted_source (s : RecordsetSource) : bool :=
  match s with CollectionRef _ _ _ None => true | _ => false end.

Definition rooted_query (query : DalQuery.Query) : bool :=
  match query with
  | StructuredQuery q =>
      match q_from q with
      | Some from => forallb rooted_source (from_Base from :: (join_source <$> from_Joins from))
      | None => true
      end
  | _ => true
  end.

Definition rooted (c : call) : bool :=
  match c with
  | CallExists k | CallUpdate k _ _ | CallDelete k => rooted_key k
  | CallGet r | CallSet r | CallInsert r _ | CallUpdateRecord r _ _ => rooted_key (record_Key r)
  | CallGetMulti rs | CallSetMulti rs | CallInsertMulti rs _ => forallb (λ r, rooted_key (record_Key r)) rs
  | CallRecordsReader q | CallRecordsetReader q _ => rooted_query q
  | CallUpdateMulti ks _ _ | CallDeleteMulti ks => forallb rooted_key ks
  end.

(** A resource at or below a root collection. *)
Definition below_root (c : string) (r : Resource) : Prop :=
  res_kind r = PathResource ∧ ∃ rest, res_path r = PathSegment collectionSegment (vstr c) false :: rest.

Lemma rooted_key_below k c : rooted_key k = true → c ∈ key_collections k → below_root c (RecordResourceForKey k).
Proof.
  destruct k as [k|]; simpl; [|set_solver]. intros Hk%bool_decide_eq_true Hc%list_elem_of_singleton. subst c.
  split; [done|]. simpl. eexists. change (flat_map _ _) with (segmentsForKey (Some k)).
  by rewrite segmentsForKey_Parent, Hk.
Qed.

Lemma rooted_source_below s : rooted_source s = true → below_root (source_Name s) (resourceForRecordsetSource s).
Proof. destruct s as [? n a [p|]| |]; try done. intros _. split; [done|]. by eexists. Qed.

Lemma rooted_keys_below {A} (f : A → option key) l c :
  forallb (λ x, rooted_key (f x)) l = true → c ∈ l ≫= (λ x, key_collections (f x)) →
  ∃ r, r ∈ RecordResourceForKey <$> (f <$> l) ∧ below_root c r.
Proof.
  intros Hl (x & Hc & Hx)%list_elem_of_bind. exists (RecordResourceForKey (f x)). split.
  - by do 2 apply list_elem_of_fmap_2.
  - apply rooted_key_below; [|done]. rewrite forallb_forall in Hl. by apply Hl, list_elem_of_In.
Qed.

Lemma rooted_query_below q rs c : rooted_query q = true → c ∈ query_collections q → resourcesForQuery q = Ret rs →
  ∃ r, r ∈ rs ∧ below_root c r.
Proof.
  destruct q as [q| |]; simpl; [|set_solver..]. destruct (q_from q) as [from|]; [|set_solver].
  intros Hl Hc [= <-]. change (forallb rooted_source (from_Base from :: (join_source <$> from_Joins from)) = true) in Hl.
  rewrite forallb_forall in Hl.
  assert (∃ s, s ∈ from_Base from :: (join_source <$> from_Joins from) ∧ c = source_Name s) as (s & Hs & ->).
  { apply elem_of_cons in Hc as [->|(j & -> & Hj)%list_elem_of_fmap]; [exists (from_Base from)|exists (join_source j)]; split; try done.
    - by left.
    - right. by apply list_elem_of_fmap_2. }
  exists (resourceForRecordsetSource s). split.
  - apply elem_of_cons in Hs as [->|(j & -> & Hj)%list_elem_of_fmap]; [by left|right].
    by apply (list_elem_of_fmap_2 (λ join, resourceForRecordsetSource (join_source join))).
  - apply rooted_source_below, Hl, list_elem_of_In, Hs.
Qed.

(** A rooted call that names a collection asks for something below it. *)
Lemma rooted_call_below x c req : rooted x = true → c ∈ collections x → call_request x = Ret req →
  ∃ r, r ∈ req_Resources req ∧ below_root c r.
Proof.
  intros Hx Hc Hreq.
  assert (Hkey : ∀ k, rooted_key k = true → c ∈ key_collections k →
    ∃ r, r ∈ [RecordResourceForKey k] ∧ below_root c r).
  { intros k Hk Hin. eexists. split; [by left|]. by apply rooted_key_below. }
  destruct x; cbn [rooted collections call_request] in *.
  all: try (injection Hreq as <-; cbn [req_Resources]; by apply Hkey).
  all: try (injection Hreq as <-; cbn [req_Resources]; by apply (rooted_keys_below record_Key)).
  1-2: destruct (resourcesForQuery q) as [rs| |] eqn:Hq; [|done..]; injection Hreq as <-; cbn [req_Resources];
    by eapply rooted_query_below.
  all: injection Hreq as <-; cbn [req_Resources].
  all: destruct (rooted_keys_below id ks c Hx Hc) as (r & Hr & Hb); exists r; by rewrite list_fmap_id in Hr.
Qed.

(** Every Allow rule is about something else than the root collection. *)
Definition scoped_away (p : AccessPolicy) (c : string) : Prop :=
  ∀ rule, rule ∈ ap_compiled p → c_effect rule = effectAllow → c_kind rule = PathResource →
    ∃ s rest, segments (c_pattern rule) = s :: rest ∧ seg_kind s = collectionSegment ∧ anyID s = false ∧
      sprint (seg_value s) ≠ sprint (vstr c).

Lemma scoped_away_hides name rules p c (who : client AccessPolicy) :
  NewPolicy name rules = Ret p → scoped_away p c →
  (∀ seen loads x ctx, who seen loads = Some (x, ctx) → rooted x = true) →
  hides p c who.
Proof.
  intros Hp Haway Hrooted seen loads x ctx req Hx Hc Hreq. specialize (Hrooted _ _ _ _ Hx).
  destruct (rooted_call_below x c req Hrooted Hc Hreq) as (r & Hr & Hkind & rest & Hpath).
  simpl. unfold Authorize. destruct (Allowed (Decide p req)) eqn:Ha; [|done].
  apply Decide_allowed in Ha as (_ & _ & Hall). specialize (Hall r Hr).
  apply (decideResource_allowed p _ _ (NewPolicy_good _ _ _ Hp)) in Hall as (rule & (Hrule & Happ & _) & Heff).
  unfold rule_applies in Happ. apply andb_true_iff in Happ as [_ Hm].
  unfold ruleMatchesResource in Hm. rewrite Hkind in Hm.
  destruct (String.eqb_spec (c_kind rule) PathResource) as [Hk|]; [|done]. simpl in Hm. 
  destruct (Haway rule Hrule Heff Hk) as (s & srest & Hs & Hsk & Hany & Hne).
  apply patternsMatch_iff in Hm as [_ Hm]. rewrite Hs, Hpath in Hm. simpl in Hm.
  unfold segment_matches in Hm. rewrite Hsk, Hany in Hm. simpl in Hm.
  apply andb_true_iff in Hm as [Hm%String.eqb_eq _]. by destruct Hne.
Qed.
End Scoped.

(** ** Examples *)

Module SecrecyExamples.
Import MemoryExamples SecuredExamples.
#[local] Existing Instance plain_fmt.
#[local] Existing Instance plain_json.
#[local] Existing Instance plain_decoders.
#[local] Existing Instance chain_keys.
#[local] Existing Instance serialized_laws.
#[local] Existing Instance memory_types.

Notation key := (RecordKey.key (RecordKeys := chain_keys)).

Definition compiled (rules : list Rule) : AccessPolicy :=
  match NewPolicy "p" rules with Ret p => p | _ => read_only end.
Definition below (path : list value) : PathPattern := match NewPath path with Ret p => p | _ => no_pattern end.

(** Everything is allowed on the collection "users", and nothing elsewhere. *)
Definition users_rules : list Rule := [Under (below [vstr "users"]) [Allow ReadWrite ["users"]]].
Definition users_only : AccessPolicy := compiled users_rules.

Lemma users_only_ok : NewPolicy "p" users_rules = Ret users_only.
Proof. vm_compute. reflexivity. Qed.

Lemma users_only_away : scoped_away users_only "secrets".
Proof.
  intros rule Hrule%list_elem_of_In _ _. vm_compute in Hrule. destruct Hrule as [<-|[]].
  eexists _, _. split_and!; [reflexivity..|]. discriminate.
Qed.

Definition stores (calls : list call) : behind :=
  exec_all database ((λ c, (c, Background)) <$> calls) (empty_state false, []).

(** The secret is Ann or Bob. *)
Definition secret_key : chain_key := new_key "secrets" "s".
Definition world (secret : row_map) : behind := stores [set_to (new_key "users" "a") ann; set_to secret_key secret].

Definition all_of (source : RecordsetSource) (joins : list JoinedSource) : DalQuery.Query :=
  StructuredQuery (mkQuery (Some (mkFrom source joins)) None [] None [] [] (Some VNil) [] 0 0 0 "").

Lemma worlds_agree : agree_behind "secrets" (world ann) (world bob).
Proof.
  split; [|vm_compute; reflexivity]. split; [vm_compute; reflexivity|]. intros c Hc.
  assert (∃ e, db_collections (world bob).1 = <["secrets" := e]> (db_collections (world ann).1)) as [e ->].
  { exists (engine_of (schemaless false) (world bob).1 "secrets"). vm_compute. reflexivity. }
  by rewrite lookup_insert_ne.
Qed.

(** It asks for the secret when it has loaded a user, and lists the secrets or
    the users then, depending on the last answer. *)
Definition curious : client AccessPolicy := λ seen loads,
  Some (match loads, seen with
        | [], _ => CallGet (Some (new_key "users" "a") : option key, VNil)
        | _, Ret NoAnswer :: _ => CallGet (Some secret_key : option key, VNil)
        | _, [_; _] => CallRecordsReader (all_of (CollectionRef false "secrets" "" None) [])
        | _, _ => CallRecordsReader (all_of (CollectionRef false "users" "" None)
                    [mkJoin (CollectionRef false "secrets" "s" None) JoinInner []])
        end, Background).

Lemma curious_rooted seen loads x ctx : curious seen loads = Some (x, ctx) → rooted x = true.
Proof. unfold curious. intros [= <- _]. by repeat case_match. Qed.

Lemma denied_collection_is_secret_witness :
  world ann ≠ world bob ∧ hides users_only "secrets" curious ∧
  (converse (secured users_only) curious 5 [] (world ann)).1 = (converse (secured users_only) curious 5 [] (world bob)).1 ∧
  agree_behind "secrets" (converse (secured users_only) curious 5 [] (world ann)).2
    (converse (secured users_only) curious 5 [] (world bob)).2.
Proof.
  split; [vm_compute; discriminate|].
  assert (Hh : hides users_only "secrets" curious).
  { apply (scoped_away_hides (RecordKeysLaws0 := chain_keys_laws) "p" users_rules); [exact users_only_ok|exact users_only_away|exact curious_rooted]. }
  split; [exact Hh|].
  apply (denied_collection_is_secret own_objects (schemaless false) new_key no_ids text never ltac:(by intros [] ?) ltac:(done)
    (mkGuard [users_only] [] false) users_only curious "secrets" 5 [] (world ann) (world bob)); [by left|exact Hh|].
  apply worlds_agree.
Defined.
(** ** Parents

    The database keeps nested records with the root collection of their name. *)

(** The record of Ann is in "items" under [spaces/A]; the tag is under [spaces/B]. *)
Definition space (name : string) : chain_key := new_key "spaces" name.
Definition nested_world : behind :=
  stores [set_to nested ann; set_to (ChainKey "tags" (vstr "t") (Some (space "B"))) bob].

(** The policy denies reading the record, and lets the query through that
    returns it under the key [k]. *)
Definition leaks (allowed : list value) (query : DalQuery.Query) (k : chain_key) : Prop :=
  let p := compiled [Under (below allowed) [Allow ReadWrite ["allowed"]]] in
  ∃ d data,
    (exec (secured p) (CallGet (Some nested : option key, VNil)) Background nested_world).1 = Fail (DeniedError d) ∧
    (exec database (CallGet (Some nested : option key, VNil)) Background nested_world).2.2 = [data] ∧
    (exec (secured p) (CallRecordsReader query) Background nested_world).1 = Ret (RecordsAnswer [mkResult k data]).

(** Who may read the root collection "items" reads the items of every space;
    who may read the space B reads the items of the space A with a join, which
    does not look at the parent of its source; without the join he does not. *)
Theorem nested_records_leak :
  let items := CollectionRef false "items" "" (Some (space "B")) in
  let tags := CollectionRef false "tags" "t" (Some (space "B")) in
  leaks [vstr "items"] (all_of (CollectionRef false "items" "" None) []) nested ∧
  leaks [vstr "spaces"; vstr "B"]
    (all_of items [mkJoin tags JoinLeft [Comparison Equal (FieldRef "items" "name" false) (FieldRef "t" "age" false)]])
    (new_key "items" "spaces/A/items/i") ∧
  (exec (secured (compiled [Under (below [vstr "spaces"; vstr "B"]) [Allow ReadWrite ["allowed"]]]))
     (CallRecordsReader (all_of items [])) Background nested_world).1 = Ret (RecordsAnswer []).
Proof. split_and!; [do 2 eexists; split_and!; vm_compute; reflexivity..|vm_compute; reflexivity]. Qed.
End SecrecyExamples.
