(* ===== verification/End2End.v ===== *)
(** * The end-to-end suite for adapters (src/end2end: end2end.go, models.go,
    test_single.go, test_multi.go, test_query.go, test_query_aggregation.go,
    models/cities.go)

    [TestDalgoDB], with which an adapter tests its database, as a program over
    any database: the calls it makes and the expectations it states.  The
    assertions on values are those of another module ([Testify]). *)

From Stdlib Require Import String.
From stdpp Require Import base gmap list strings pretty.
From S2P Require Import Prelude StableSort GoValues GoMaps GoStrings GoJSON RecordKey DalQuery DalReader MemoryRows MemoryQuery MemoryUpdate.

Local Open Scope string_scope.
Local Open Scope nat_scope.
Local Open Scope list_scope.
Set Warnings "-register-all".

(** The assertions on values: [Equal], [EqualValues], and [NotEmpty] and
    [NotZero] negated. *)
Class Testify := {
  ObjectsAreEqual : value → value → bool;
  ObjectsAreEqualValues : value → value → bool;
  isEmpty : value → bool;
  isZero : value → bool;
}.

(** ** models.go *)

Definition TestEntitiesNamePrefix : string := "DalgoE2E_".
Definition E2ETestKind1 : string := TestEntitiesNamePrefix +:+ "E2ETest1".
Definition E2ETestKind2 : string := TestEntitiesNamePrefix +:+ "E2ETest2".

(** A pointer to a [TestData]; no test compares addresses. *)
Definition TestData (StringProp : string) (IntegerProp : Z) : value :=
  VPtr "*end2end.TestData" 0 (Some (VStruct "end2end.TestData" true
    [("StringProp", true, vstr StringProp); ("IntegerProp", true, vint IntegerProp)])).

Inductive validation_error := MissingRequiredField (name : string) | BadFieldValue (name message : string).

Definition TestData_Validate (StringProp : string) (IntegerProp : Z) : option validation_error :=
  if String.eqb (TrimSpace StringProp) "" then Some (MissingRequiredField "StringProp")
  else if (IntegerProp <? 0)%Z then Some (BadFieldValue "IntegerProp" ("should be > 0, got: " +:+ pretty IntegerProp))
  else None.

(** The field of the struct that a pointer of a static type points to. *)
Definition field_of (name : string) (data : value) : value :=
  match data with
  | VPtr _ _ (Some (VStruct _ _ fields)) =>
      match find (λ f : string * bool * value, String.eqb f.1.1 name) fields with Some f => f.2 | None => VNil end
  | _ => VNil
  end.

Definition empty_struct : value := VPtr "*struct {}" 0 (Some (VStruct "struct {}" true [])).

(** ** models/cities.go *)

Definition CitiesCollection : string := "DalgoTest_Cities".

(** A [time.Time], by its text in RFC 3339. *)
Definition Time (text : string) : value := VStruct "time.Time" false [("text", false, vstr text)].

Record City := mkCity {
  Name : string; State : string; Country : string;
  Population : Z; AreaSqKm : Z;
  IsCapital : bool; HasAirport : bool;
  Founded : value; LastUpdatedAt : value;
}.

Definition Year (year : Z) : value :=
  Time (String.substring 0 (4 - String.length (pretty year)) "0000" +:+ pretty year +:+ "-01-01T00:00:00Z").

Definition city_value (c : City) : value :=
  VPtr "*models.City" 0 (Some (VStruct "models.City" false
    [("Name", true, vstr (Name c)); ("State", true, vstr (State c)); ("Country", true, vstr (Country c));
     ("Population", true, vint (Population c)); ("AreaSqKm", true, vint (AreaSqKm c));
     ("IsCapital", true, vbool (IsCapital c)); ("HasAirport", true, vbool (HasAirport c));
     ("Founded", true, Founded c); ("LastUpdatedAt", true, LastUpdatedAt c)])).

(** The zero value of a time is the first of January of the year 1. *)
Definition new_city : value := city_value (mkCity "" "" "" 0 0 false false (Year 1) (Year 1)).

Definition CityID (city : City) : string := State city +:+ "_" +:+ Name city.

Section Cities.
Context (now : value).

Definition Cities : list City := [
  mkCity "Tokyo" "Tokyo" "JP" 37400068 2187 true true (Year 1457) now;
  mkCity "Delhi" "Delhi" "IN" 30290936 1484 true true (Year 1911) now;
  mkCity "Shanghai" "Shanghai" "CN" 27058480 6340 false true (Year 1291) now;
  mkCity "São Paulo" "São Paulo" "BR" 22046000 1521 false true (Year 1554) now;
  mkCity "Mumbai" "Maharashtra" "IN" 21344117 603 false true (Year 1661) now;
  mkCity "Beijing" "Beijing" "CN" 21051600 16410 true true (Year 1045) now;
  mkCity "Cairo" "Cairo" "EG" 20474100 214 true true (Year 969) now;
  mkCity "Dhaka" "Dhaka" "BD" 20183500 306 true true (Year 1608) now;
  mkCity "Karachi" "Sindh" "PK" 15741000 3780 false true (Year 1729) now;
  mkCity "Istanbul" "Istanbul" "TR" 15029231 5343 false true (Year 660) now].

(** [init] *)
Definition SortedCityIDs `{RecordKeys} : list string :=
  stable_sort (key_less id) ((λ city, EscapeID (CityID city)) <$> Cities).

Definition CityIDsSortedByPopulation : list string :=
  CityID <$> stable_sort (λ a b, (Population a <? Population b)%Z) Cities.
End Cities.

(** ** Tests

    [t.Run] makes a tree of events; [require] and [t.Skip] end the test they are
    called in, a panic ends everything. *)

Section Suite.
Context `{GoFmt, RecordKeys, Testify}.
Context {W Err RS QS Row : Type}.

Inductive failure :=
| HasError (e : Err)
| Differs (want got : value)
| Broken (what : string).

Inductive event := Failed (f : failure) | Skipped | Sub (name : string) (events : list event).

(** No part of a test failed. *)
Fixpoint passed (e : event) : bool :=
  match e with
  | Failed _ => false
  | Skipped => true
  | Sub _ events => forallb passed events
  end.

(** No part was skipped either. *)
Fixpoint ran (e : event) : bool :=
  match e with
  | Failed _ | Skipped => false
  | Sub _ events => forallb ran events
  end.

Inductive stop := FailNow | SkipNow.

Definition T (A : Type) : Type := W → W * list event * res stop A.

Definition tret {A} (a : A) : T A := λ w, (w, [], Ret a).
Definition tbind {A B} (m : T A) (k : A → T B) : T B := λ w,
  match m w with
  | (w, events, Ret a) => let '(w, events', r) := k a w in (w, events ++ events', r)
  | (w, events, Fail s) => (w, events, Fail s)
  | (w, events, Panic msg) => (w, events, Panic msg)
  end.
Notation "'tdo' x <- m ; k" := (tbind m (λ x, k)) (at level 10, x binder, m at level 100, k at level 200).

Definition require (ok : bool) (f : failure) : T unit := λ w, if ok then (w, [], Ret tt) else (w, [Failed f], Fail FailNow).
Definition assert (ok : bool) (f : failure) : T unit := λ w, (w, if ok then [] else [Failed f], Ret tt).
Definition skip : T unit := λ w, (w, [Skipped], Fail SkipNow).
Definition throw {A} (msg : string) : T A := λ w, (w, [], Panic msg).

Definition require_NoError (err : option Err) : T unit :=
  match err with None => tret tt | Some e => require false (HasError e) end.
Definition require_Equal (want got : value) : T unit := require (ObjectsAreEqual want got) (Differs want got).
Definition require_EqualValues (want got : value) : T unit := require (ObjectsAreEqualValues want got) (Differs want got).
Definition assert_Nil (err : option Err) : T unit :=
  match err with None => tret tt | Some e => assert false (HasError e) end.
Definition assert_Equal (want got : value) : T unit := assert (ObjectsAreEqual want got) (Differs want got).

Definition Run (name : string) (test : T unit) : T unit := λ w,
  let '(w, events, r) := test w in
  (w, [Sub name events], match r with Panic msg => Panic msg | _ => Ret tt end).

(** [defer]: the deferred call runs however the rest ends. *)
Definition deferring (later m : T unit) : T unit := λ w,
  let '(w, events, r) := m w in
  let '(w, events', r') := later w in
  (w, events ++ events', match r, r' with
      | Panic msg, _ => Panic msg
      | _, Panic msg => Panic msg
      | Fail s, _ => Fail s
      | Ret _, r' => r'
      end).

Fixpoint for_each {A} (f : A → T unit) (l : list A) : T unit :=
  match l with [] => tret tt | x :: l => tdo _ <- f x; for_each f l end.

(** Go's calls of packages that may panic, and never fail otherwise. *)
Definition lift {A} (r : res unit A) : T A :=
  match r with Ret a => tret a | Fail _ => throw "error" | Panic msg => throw msg end.

(** ** The database under test *)

Definition call (A : Type) : Type := W → W * res Err A.

(** A transaction begins, and ends with the error that its worker returned; it
    is unwound when the worker ends the test.  A record that was read is the
    value of its data, or [None] when there is no such record. *)
Record DB := mkDB {
  db_begin : bool → string → W → W * option Err;
  db_end : bool → option Err → W → W * option Err;
  db_unwind : bool → W → W;
  db_Exists : key → call bool;
  db_Get : key → value → call value;
  tx_GetMulti : list (key * value) → call (list (option value));
  tx_Insert : key → value → call unit;
  tx_SetMulti : list (key * value) → call unit;
  tx_UpdateMulti : list key → list Update → call unit;
  tx_Delete : key → call unit;
  tx_DeleteMulti : list key → call unit;
  tx_ExecuteQueryToRecordsReader : structuredQuery → call RS;
  tx_ExecuteQueryToRecordsetReader : structuredQuery → call QS;
  db_records : Reader RS result_record;
  db_recordset : Reader QS Row;
  RowsCount : QS → Z;
}.

(** Errors: [record.IsNotFound], [errors.Is(err, dal.ErrNotSupported)], wrapping
    with a text, and errors of readers.  [record.NewKeyWithID] and its kin. *)
Context (IsNotFound is_ErrNotSupported : Err → bool) (wrap : string → Err → Err) (of_reader : reader_error → Err).
Context (NewKeyWithID : string → string → key).
Context (fuel : nat) (call_first : bool) (now : value).

Definition attempt {A} (c : call A) : T (A + Err) := λ w,
  match c w with
  | (w, Ret a) => (w, [], Ret (inl a))
  | (w, Fail e) => (w, [], Ret (inr e))
  | (w, Panic msg) => (w, [], Panic msg)
  end.

(** The error of a call without other results. *)
Definition error_of {A} (r : A + Err) : option Err := match r with inl _ => None | inr e => Some e end.
Definition try (c : call unit) : T (option Err) := tdo r <- attempt c; tret (error_of r).

(** [RunReadwriteTransaction] and [RunReadonlyTransaction], with the values that
    the worker assigns to variables of its caller. *)
Definition RunTransaction {A} (db : DB) (readwrite : bool) (message : string) (unassigned : A)
    (worker : T (A * option Err)) : T (A * option Err) := λ w,
  match db_begin db readwrite message w with
  | (w, Some e) => (w, [], Ret (unassigned, Some e))
  | (w, None) =>
      match worker w with
      | (w, events, Ret (a, err)) => let '(w, err) := db_end db readwrite err w in (w, events, Ret (a, err))
      | (w, events, Fail s) => (db_unwind db readwrite w, events, Fail s)
      | (w, events, Panic msg) => (db_unwind db readwrite w, events, Panic msg)
      end
  end.

(** A worker that assigns nothing. *)
Definition tx_error (db : DB) (readwrite : bool) (message : string) (worker : T (option Err)) : T (option Err) :=
  tdo r <- RunTransaction db readwrite message tt (tdo err <- worker; tret (tt, err)); tret r.2.

(** ** test_single.go *)

Definition singleDeleteTest (db : DB) (k : key) : T unit :=
  tdo err <- tx_error db true "singleDeleteTest" (try (tx_Delete db k));
  require_NoError err.

Definition singleExistsTest (db : DB) (k : key) (expectedToExist : bool) : T unit :=
  tdo exists_ <- attempt (db_Exists db k);
  match exists_ with
  | inl exists_ => require_Equal (vbool expectedToExist) (vbool exists_)
  | inr e => require_NoError (Some e)
  end.

Definition singleGetTest (db : DB) (k : key) (mustExists : bool) : T unit :=
  tdo r <- attempt (db_Get db k (TestData "" 0));
  match r with
  | inl data =>
      tdo _ <- require (negb (isEmpty (field_of "StringProp" data))) (Broken "StringProp is empty");
      tdo _ <- require (negb (isZero (field_of "IntegerProp" data))) (Broken "IntegerProp is zero");
      require mustExists (Broken "record unexpectedly found")
  | inr e =>
      if IsNotFound e then require (negb mustExists) (Broken "record expected to exist")
      else require_NoError (Some e)
  end.

Definition singleCreateWithPredefinedIDTest (db : DB) (k : key) : T unit :=
  tdo err <- tx_error db true "singleCreateWithPredefinedIDTest" (try (tx_Insert db k (TestData "str1" 1)));
  require_NoError err.

Definition singleOperationsTest (db : DB) : T unit :=
  Run "single" (
    let k := NewKeyWithID E2ETestKind1 "r0" in
    tdo _ <- Run "delete1" (singleDeleteTest db k);
    tdo _ <- Run "get1" (singleGetTest db k false);
    tdo _ <- Run "exists1" (singleExistsTest db k false);
    tdo _ <- Run "create" (Run "with_predefined_id" (singleCreateWithPredefinedIDTest db k));
    tdo _ <- Run "exists2" (singleExistsTest db k true);
    tdo _ <- Run "get2" (singleGetTest db k true);
    tdo _ <- Run "delete2" (singleDeleteTest db k);
    Run "exists3" (singleExistsTest db k false)).

(** ** test_multi.go *)

Definition deleteAllRecords (db : DB) (keys : list key) : T unit :=
  tdo err <- tx_error db true "deleteAllRecords" (try (tx_DeleteMulti db keys));
  require_NoError err.

(** [tx.GetMulti] in a transaction of its own, which must not fail: what the
    records then hold. *)
Definition get_multi (db : DB) (message : string) (records : list (key * value)) : T (list (option value)) :=
  tdo r <- RunTransaction db false message [] (
    tdo r <- attempt (tx_GetMulti db records);
    tret (match r with inl found => found | inr _ => [] end, error_of r));
  tdo _ <- require_NoError r.2;
  tret r.1.

(** The data of a record that was not found is the new value it was made with. *)
Definition data_of (records : list (option value)) (i : nat) : value :=
  default (TestData "" 0) (default None (records !! i)).

Definition recordsMustExist (records : list (option value)) : T unit :=
  for_each (λ r : option value, require (bool_decide (is_Some r)) (Broken "record was expected to exist")) records.

Definition recordsMustNotExist (records : list (option value)) : T unit :=
  for_each (λ r : option value, require (bool_decide (r = None)) (Broken "record unexpectedly exists")) records.

Definition new_records (keys : list key) : list (key * value) := (λ k, (k, TestData "" 0)) <$> keys.

Definition get3NonExistingRecords (db : DB) : T unit :=
  tdo records <- get_multi db "get3NonExistingRecords"
    (new_records ((λ i : nat, NewKeyWithID "NonExistingKind" ("non_existing_id_" +:+ pretty i)) <$> seq 0 3));
  recordsMustNotExist records.

Definition setMulti (db : DB) (k1r1Key k1r2Key k2r1Key : key) : T unit :=
  let newRecord k := (k, TestData (sprint (key_ID k) +:+ "str") 0) in
  tdo err <- tx_error db true "setMulti" (try (tx_SetMulti db [newRecord k1r1Key; newRecord k1r2Key; newRecord k2r1Key]));
  require_NoError err.

Definition getMulti3existingRecords (db : DB) (allKeys : list key) : T unit :=
  Run "using_records_with_data" (
    tdo records <- get_multi db "using_records_with_data" (new_records allKeys);
    tdo _ <- recordsMustExist records;
    for_each (λ x : nat * key,
      match assert_string (key_ID x.2) with
      | None => throw "interface conversion"
      | Some id_ => require_Equal (vstr (id_ +:+ "str")) (field_of "StringProp" (data_of records x.1))
      end) (imap pair allKeys)).

Definition getMulti2existing2missingRecords (db : DB) (k1r1Key k1r2Key : key) : T unit :=
  tdo records <- get_multi db "getMulti2existing2missingRecords"
    (new_records [k1r1Key; k1r2Key; NewKeyWithID E2ETestKind1 "k1r9"; NewKeyWithID E2ETestKind2 "k2r9"]);
  tdo _ <- recordsMustExist (take 2 records);
  tdo _ <- recordsMustNotExist (drop 2 records);
  tdo _ <- require_Equal (vstr "k1r1str") (field_of "StringProp" (data_of records 0));
  tdo _ <- require_Equal (vstr "k1r2str") (field_of "StringProp" (data_of records 1));
  for_each (λ i : nat, require (bool_decide (default None (records !! i) = None)) (Broken "record unexpectedly showing as existing")) [2; 3].

Definition update2records (db : DB) (k1r1Key k1r2Key k2r1Key : key) : T unit :=
  let newValue := "UpdateD" in
  tdo err <- tx_error db true "update2records"
    (try (tx_UpdateMulti db [k1r1Key; k1r2Key] [mkUpdate "StringProp" [] (Some (vstr newValue))]));
  if match err with Some e => is_ErrNotSupported e | None => false end then tret tt
  else
    tdo _ <- require_NoError err;
    tdo records <- get_multi db "getMultiNewRecords" (new_records [k1r1Key; k1r2Key; k2r1Key]);
    tdo _ <- recordsMustExist records;
    for_each (λ x : nat * string, require_Equal (vstr x.2) (field_of "StringProp" (data_of records x.1)))
      [(0, newValue); (1, newValue); (2, "k2r1str")].

Definition cleanupDelete (db : DB) (allKeys : list key) : T unit :=
  tdo _ <- deleteAllRecords db allKeys;
  tdo records <- get_multi db "verify_cleanupDelete" ((λ k, (k, empty_struct)) <$> allKeys);
  recordsMustNotExist records.

Definition multiOperationsTest (db : DB) : T unit :=
  let k1r1Key := NewKeyWithID E2ETestKind1 "k1r1" in
  let k1r2Key := NewKeyWithID E2ETestKind1 "k1r2" in
  let k2r1Key := NewKeyWithID E2ETestKind2 "k2r1" in
  let allKeys := [k1r1Key; k1r2Key; k2r1Key] in
  tdo _ <- Run "1st_initial_delete" (deleteAllRecords db allKeys);
  tdo _ <- Run "2nd_initial_delete" (deleteAllRecords db allKeys);
  tdo _ <- Run "get_3_non_existing_records" (get3NonExistingRecords db);
  tdo _ <- Run "SetMulti" (setMulti db k1r1Key k1r2Key k2r1Key);
  tdo _ <- Run "GetMulti" (
    tdo _ <- Run "3_existing_records" (getMulti3existingRecords db allKeys);
    Run "2_existing_2_missing_records" (getMulti2existing2missingRecords db k1r1Key k1r2Key));
  tdo _ <- Run "update_2_records" (update2records db k1r1Key k1r2Key k2r1Key);
  Run "cleanup_delete" (cleanupDelete db allKeys).

(** ** Reading results (src/dal: reader_read_all.go) *)

Definition background : context := Some (λ _, None).
Definition timed_out : string := "panic: test timed out".

(** The record's identifier must be a string; the reader is closed anyway. *)
Definition SelectAllIDs (reader : Reader RS result_record) (options : list ReaderOption) (s : RS)
  : T (list string * option Err) :=
  let addItem (r : result_record) (ids : res unit (list string)) :=
    do ids <- ids;
    match assert_string (key_ID (rec_key r)) with
    | Some id_ => Ret (ids ++ [id_])
    | None => Panic "interface conversion"
    end in
  match SelectAll reader background addItem fuel options s (Ret []) with
  | None => throw timed_out
  | Some (_, ids, err) => tdo ids <- lift ids; tret (if call_first then ids else [], of_reader <$> err)
  end.

Definition ExecuteQueryAndReadAllToRecords (db : DB) (q : structuredQuery)
  : T (list result_record * option Err) :=
  tdo r <- attempt (tx_ExecuteQueryToRecordsReader db q);
  match r with
  | inr e => tret ([], Some e)
  | inl s =>
      match ReadAllToRecords call_first (db_records db) background fuel [] s with
      | None => throw timed_out
      | Some (_, records, err) => tret (records, of_reader <$> err)
      end
  end.

Definition ExecuteQueryAndReadAllToRecordset (db : DB) (q : structuredQuery) : T (option QS * option Err) :=
  tdo r <- attempt (tx_ExecuteQueryToRecordsetReader db q);
  match r with
  | inr e => tret (None, Some (wrap "failed to get the recordset reader" e))
  | inl s =>
      match DalReader.ExecuteQueryAndReadAllToRecordset (db_recordset db) background fuel [] (inl s) with
      | None => throw timed_out
      | Some (rs, err) => tret (rs, of_reader <$> err)
      end
  end.

(** ** test_query.go *)

Definition kind_String : Z := 24.
Definition vids (ids : list string) : value := VSlice "[]string" (Some (vstr <$> ids)).

Definition from_cities : T FromSource :=
  tdo source <- lift (NewRootCollectionRef CitiesCollection ""); tret (From_ source).

Definition selectAllCities (db : DB) : T (list result_record * option Err) :=
  tdo from <- from_cities;
  let '(_, q) := SelectIntoRecord (NewQuery from) new_city in
  RunTransaction db false "selectAllCities" [] (ExecuteQueryAndReadAllToRecords db q).

(** The query for keys of most tests, what is expected of the identifiers, and
    whether they are sorted first. *)
Definition sort_Strings (l : list string) : list string := stable_sort (key_less id) l.

Definition expect_ids (db : DB) (message : string) (q : structuredQuery) (check : list string → T unit) : T unit :=
  tdo err <- tx_error db false message (
    tdo r <- attempt (tx_ExecuteQueryToRecordsReader db q);
    match r with
    | inr e => tdo _ <- require_NoError (Some e); tret None
    | inl reader =>
        tdo ids <- SelectAllIDs (db_records db) [WithLimit (q_limit q)] reader;
        tdo _ <- require_NoError ids.2;
        tdo _ <- check ids.1;
        tret None
    end);
  assert_Nil err.

Definition expect_count (db : DB) (message : string) (q : structuredQuery) (want : Z) : T unit :=
  tdo err <- tx_error db true message (
    tdo records <- ExecuteQueryAndReadAllToRecords db q;
    tdo _ <- require_NoError records.2;
    tdo _ <- assert_Equal (vint want) (vint (Z.of_nat (length records.1)));
    tret None);
  assert_Nil err.

Definition deleteAllCities (db : DB) : T (option Err) :=
  tdo err <- tx_error db true "deleteAllCities" (
    tdo from <- from_cities;
    let '(_, q) := SelectKeysOnly (Limit (NewQuery from) 1000) kind_String in
    tdo r <- attempt (tx_ExecuteQueryToRecordsReader db q);
    match r with
    | inr e => tret (Some (wrap "failed to query all cities" e))
    | inl reader =>
        tdo ids <- SelectAllIDs (db_records db) [WithLimit (q_limit q)] reader;
        match ids with
        | (_, Some e) => tret (Some (wrap "failed to query all cities" e))
        | ([], None) => tret None
        | (ids, None) => try (tx_DeleteMulti db (NewKeyWithID CitiesCollection <$> ids))
        end
    end);
  tret (wrap "failed to delete all cities" <$> err).

Definition setupDataForQueryTests (db : DB) : T (option Err) :=
  tdo err <- deleteAllCities db;
  match err with
  | Some e => tret (Some e)
  | None =>
      tx_error db true "setupDataForQueryTests"
        (try (tx_SetMulti db ((λ city, (NewKeyWithID CitiesCollection (CityID city), city_value city)) <$> Cities now)))
  end.

(** ** test_query_aggregation.go *)

(** A record whose data is not a map panics. *)
Definition readMapRecords (db : DB) (q : structuredQuery) (txMsg : string) : T (list row_map * option Err) :=
  RunTransaction db false txMsg [] (
    tdo records <- ExecuteQueryAndReadAllToRecords db q;
    match records with
    | (_, Some e) => tret ([], Some e)
    | (records, None) =>
        match opt_all (λ r, match rec_data r with
                            | VMap ty _ m => if String.eqb ty "map[string]interface {}" then Some (default [] m) else None
                            | _ => None end) records with
        | Some rows => tret (rows, None)
        | None => throw "interface conversion"
        end
    end).

Definition readRecordset (db : DB) (q : structuredQuery) (txMsg : string) : T (option QS * option Err) :=
  RunTransaction db false txMsg None (ExecuteQueryAndReadAllToRecordset db q).

Fixpoint indexByString (rows : list row_map) (name : string) (out : list (string * row_map)) : T (list (string * row_map)) :=
  match rows with
  | [] => tret out
  | r :: rows =>
      match assoc name r ≫= assert_string with
      | None => tdo _ <- require false (Broken "row missing string key"); tret out
      | Some k => indexByString rows name (map_set k r out)
      end
  end.

Definition not_supported_error (err : option Err) : bool :=
  match err with Some e => is_ErrNotSupported e | None => false end.

Definition assertRecordsetRowCount (db : DB) (q : structuredQuery) (txMsg : string) (wantRows : Z) : T unit :=
  tdo r <- readRecordset db q txMsg;
  if not_supported_error r.2 then skip
  else
    tdo _ <- require_NoError r.2;
    match r.1 with
    | None => require false (Broken "no recordset")
    | Some rs => require_Equal (vint wantRows) (vint (RowsCount db rs))
    end.

Definition require_Len {A} (l : list A) (n : nat) (what : string) : T unit := require (length l =? n) (Broken what).

(** The queries that the tests read are made anew for every read. *)
Definition column_query : T structuredQuery :=
  tdo from <- from_cities;
  tret (SelectColumns (NewQuery from) [mkColumn "city" (Field "Name"); mkColumn "" (Field "Country")]).2.

Definition queryColumnProjectionTest (db : DB) : T unit :=
  let txMsg := "SELECT Name AS city, Country FROM Cities" in
  tdo _ <- Run "records reader" (
    tdo q <- column_query;
    tdo r <- readMapRecords db q txMsg;
    if not_supported_error r.2 then skip
    else
      tdo _ <- require_NoError r.2;
      tdo _ <- require_Len r.1 (length (Cities now)) "number of rows";
      for_each (λ row : row_map,
        tdo _ <- require_Len row 2 "exactly the two selected columns";
        tdo _ <- require (has_key "city" row) (Broken "aliased Name column");
        tdo _ <- require (has_key "Country" row) (Broken "Country");
        tdo _ <- require (negb (has_key "Name" row)) (Broken "unaliased original field must not appear");
        require (negb (has_key "Population" row)) (Broken "unselected field must not appear")) r.1);
  Run "recordset reader" (
    tdo q <- column_query;
    assertRecordsetRowCount db q txMsg (Z.of_nat (length (Cities now)))).

Definition count_as (alias : string) : Column := mkColumn alias (col_Expression Count).

Definition group_query : T structuredQuery :=
  tdo from <- from_cities;
  tret (SelectColumns (GroupBy (NewQuery from) [Field "Country"])
    [mkColumn "" (Field "Country"); count_as "cities"; SumAs (Field "Population") "population"]).2.

Definition having_query : T structuredQuery :=
  tdo from <- from_cities;
  tdo one <- lift (NewConstant (ArgValue (vint 1)));
  tret (SelectColumns (Having (GroupBy (NewQuery from) [Field "Country"])
      [NewComparison (col_Expression Count) GreaterThen one])
    [mkColumn "" (Field "Country"); count_as "cities"]).2.

(** [byCountry[country][column]], nil when it is not there *)
Definition group_cell (byCountry : list (string * row_map)) (country column : string) : value :=
  default VNil (assoc column (default [] (assoc country byCountry))).

Definition queryGroupByTest (db : DB) : T unit :=
  tdo _ <- Run "COUNT and SUM per Country" (
    let txMsg := "SELECT Country, COUNT(*), SUM(Population) GROUP BY Country" in
    tdo _ <- Run "records reader" (
      tdo q <- group_query;
      tdo r <- readMapRecords db q txMsg;
      if not_supported_error r.2 then skip
      else
        tdo _ <- require_NoError r.2;
        tdo _ <- require_Len r.1 8 "eight distinct countries";
        tdo byCountry <- indexByString r.1 "Country" [];
        tdo _ <- require_EqualValues (vint 2) (group_cell byCountry "IN" "cities");
        tdo _ <- require_EqualValues (vint 2) (group_cell byCountry "CN" "cities");
        tdo _ <- require_EqualValues (vint 1) (group_cell byCountry "JP" "cities");
        require_EqualValues (vint 51635053) (group_cell byCountry "IN" "population"));
    Run "recordset reader" (tdo q <- group_query; assertRecordsetRowCount db q txMsg 8));
  Run "HAVING COUNT(*) > 1" (
    let txMsg := "SELECT Country, COUNT(*) GROUP BY Country HAVING COUNT(*) > 1" in
    tdo _ <- Run "records reader" (
      tdo q <- having_query;
      tdo r <- readMapRecords db q txMsg;
      if not_supported_error r.2 then skip
      else
        tdo _ <- require_NoError r.2;
        tdo _ <- require_Len r.1 2 "only IN and CN have more than one city";
        tdo byCountry <- indexByString r.1 "Country" [];
        tdo _ <- require (has_key "IN" byCountry) (Broken "IN");
        tdo _ <- require (has_key "CN" byCountry) (Broken "CN");
        tdo _ <- require_EqualValues (vint 2) (group_cell byCountry "IN" "cities");
        require_EqualValues (vint 2) (group_cell byCountry "CN" "cities"));
    Run "recordset reader" (tdo q <- having_query; assertRecordsetRowCount db q txMsg 2)).

(** The selections of the tests, on builders that they share or make. *)
Definition select_ids_test (db : DB) : T unit :=
  tdo from <- from_cities;
  let '(qb, all) := SelectKeysOnly (NewQuery from) kind_String in
  tdo _ <- Run "no_limit" (
    expect_ids db "SELECT ID FROM Cities; limit=0" all (λ ids, assert_Equal (vids (SortedCityIDs now)) (vids ids)));
  let '(_, three) := SelectKeysOnly (Limit qb 3) kind_String in
  Run "limit=3" (
    expect_ids db "SELECT ID FROM Cities; limit=3" three (λ ids,
      tdo _ <- assert_Equal (vint (q_limit three)) (vint (Z.of_nat (length ids)));
      assert_Equal (vids (take (Z.to_nat (q_limit three)) (SortedCityIDs now))) (vids (sort_Strings ids)))).

Definition select_all_test (db : DB) : T unit :=
  tdo from <- from_cities;
  let '(qb, all) := SelectIntoRecord (NewQuery from) new_city in
  tdo _ <- Run "no_limit" (
    expect_count db "SELECT * FROM Cities: no_limit" all (Z.of_nat (length (Cities now))));
  let '(_, three) := SelectIntoRecord (Limit qb 3) new_city in
  Run "limit=3" (expect_count db "SELECT * FROM Cities: limit=3" three (q_limit three)).

Definition order_test (db : DB) (name message : string) (order : OrderExpression) (want : list string) : T unit :=
  Run name (
    tdo from <- from_cities;
    let '(_, q) := SelectKeysOnly (Limit (OrderBy (NewQuery from) [order]) 3) kind_String in
    expect_ids db message q (λ ids, assert_Equal (vids (EscapeID <$> want)) (vids ids))).

Definition where_test (db : DB) : T unit :=
  tdo from <- from_cities;
  Run "no_limit" (
    tdo qb <- lift (builder_WhereField (NewQuery from) "Country" Equal (ArgValue (vstr "IN")));
    let '(_, q) := SelectKeysOnly qb kind_String in
    expect_ids db "SELECT ID FROM Cities WHERE Country = 'IN'" q (λ ids,
      assert_Equal (vids (EscapeID <$> ["Delhi_Delhi"; "Maharashtra_Mumbai"])) (vids (sort_Strings ids)))).

(** Sleeping before a database that is eventually consistent changes nothing
    here. *)
Definition queryOperationsTest (db : DB) (eventuallyConsistent : bool) : T unit :=
  deferring (tdo err <- deleteAllCities db; require_NoError err) (
    tdo err <- setupDataForQueryTests db;
    tdo _ <- require_NoError err;
    tdo _ <- (if eventuallyConsistent then tdo r <- selectAllCities db; require_NoError r.2 else tret tt);
    tdo _ <- Run "SELECT ID FROM Cities" (select_ids_test db);
    tdo _ <- Run "SELECT * FROM Cities" (select_all_test db);
    tdo _ <- Run "SELECT ID FROM Cities ORDER BY Population" (
      tdo _ <- order_test db "ascending" "SELECT ID FROM Cities ORDER BY Population; limit=3" (AscendingField "Population")
                 ["Istanbul_Istanbul"; "Sindh_Karachi"; "Dhaka_Dhaka"];
      order_test db "descending" "SELECT ID FROM Cities ORDER BY Population DESCENDING; limit=3" (DescendingField "Population")
        ["Tokyo_Tokyo"; "Delhi_Delhi"; "Shanghai_Shanghai"]);
    tdo _ <- Run "SELECT_ID_FROM_Cities_WHERE_Country_=_'IN'" (where_test db);
    tdo _ <- Run "SELECT Name AS city, Country FROM Cities" (queryColumnProjectionTest db);
    Run "SELECT Country, aggregates FROM Cities GROUP BY Country" (queryGroupByTest db)).

(** ** end2end.go *)

Context (runSingleAndMulti : bool).

Definition TestDalgoDB (db : option DB) (errQuerySupport : option Err) (eventuallyConsistent : bool) : T unit :=
  match db with
  | None => throw "db == nil"
  | Some db =>
      tdo _ <- (if runSingleAndMulti then
                  tdo _ <- Run "single" (singleOperationsTest db);
                  Run "multi" (multiOperationsTest db)
                else tret tt);
      Run "query" (match errQuerySupport with
                   | None => queryOperationsTest db eventuallyConsistent
                   | Some _ => skip
                   end)
  end.

(** ** The contract of an adapter

    Without its queries, a database is a map of records by collection and
    identifier.  Of a record that a test did not write nothing is known. *)

Notation contents := (gmap (string * string) (option (string * Z))).

(** The data that the tests write, in the collections they use. *)
Definition sample (d : string * Z) : Prop := d.1 ≠ "" ∧ (d.2 = 0%Z ∨ d.2 = 1%Z).
Definition test_collections : list string := [E2ETestKind1; E2ETestKind2; "NonExistingKind"].
Definition test_place (p : string * string) : Prop := p.1 ∈ test_collections.

Definition key_at (p : string * string) : key := NewKeyWithID p.1 p.2.

(** What a read into new data finds. *)
Definition found (m : contents) (p : string * string) : option value :=
  match m !! p with Some (Some d) => Some (TestData d.1 d.2) | _ => None end.

(** Whether a record can be read into a variable: known data into new test
    data, and nothing into anything. *)
Definition readable (m : contents) (x : (string * string) * value) : Prop :=
  test_place x.1 ∧ match m !! x.1 with None => True | Some (Some _) => x.2 = TestData "" 0 | Some None => False end.

Definition renamed (s : string) (m : contents) (p : string * string) : contents :=
  alter (λ d, (λ d : string * Z, (s, d.2)) <$> d) p m.

(** [models]: the world stands for a map, outside of transactions or in a
    readonly or readwrite one. *)
Class AdapterContract (db : DB) (models : option bool → W → contents → Prop) : Prop := {
  contract_begin rw message w m :
    models None w m → ∃ w', db_begin db rw message w = (w', None) ∧ models (Some rw) w' m;
  contract_end rw w m :
    models (Some rw) w m → ∃ w', db_end db rw None w = (w', None) ∧ models None w' m;
  contract_Exists w m p :
    models None w m → test_place p →
    ∃ w', db_Exists db (key_at p) w = (w', Ret (bool_decide (is_Some (m !! p)))) ∧ models None w' m;
  contract_Get w m p :
    models None w m → readable m (p, TestData "" 0) →
    ∃ w', models None w' m ∧
      match found m p with
      | Some v => db_Get db (key_at p) (TestData "" 0) w = (w', Ret v)
      | None => ∃ e, db_Get db (key_at p) (TestData "" 0) w = (w', Fail e) ∧ IsNotFound e = true
      end;
  contract_GetMulti w m l :
    models (Some false) w m → Forall (readable m) l →
    ∃ w', tx_GetMulti db (prod_map key_at id <$> l) w = (w', Ret ((λ x, found m x.1) <$> l)) ∧ models (Some false) w' m;
  contract_Insert w m p d :
    models (Some true) w m → test_place p → sample d → m !! p = None →
    ∃ w', tx_Insert db (key_at p) (TestData d.1 d.2) w = (w', Ret tt) ∧ models (Some true) w' (<[p := Some d]> m);
  contract_SetMulti w m l :
    models (Some true) w m → Forall (λ x, test_place x.1 ∧ sample x.2) l →
    ∃ w', tx_SetMulti db ((λ x, (key_at x.1, TestData x.2.1 x.2.2)) <$> l) w = (w', Ret tt) ∧
      models (Some true) w' (fold_left (λ m x, <[x.1 := Some x.2]> m) l m);
  contract_UpdateMulti w m l s :
    models (Some true) w m → s ≠ "" → Forall (λ p, test_place p ∧ ∃ d, m !! p = Some (Some d)) l →
    ∃ w', tx_UpdateMulti db (key_at <$> l) [mkUpdate "StringProp" [] (Some (vstr s))] w = (w', Ret tt) ∧
      models (Some true) w' (fold_left (renamed s) l m);
  contract_Delete w m p :
    models (Some true) w m → test_place p →
    ∃ w', tx_Delete db (key_at p) w = (w', Ret tt) ∧ models (Some true) w' (delete p m);
  contract_DeleteMulti w m l :
    models (Some true) w m → Forall test_place l →
    ∃ w', tx_DeleteMulti db (key_at <$> l) w = (w', Ret tt) ∧ models (Some true) w' (fold_left (λ m p, delete p m) l m);
}.

(** The laws of the assertions that a passing test relies on. *)
Class TestifyLaws : Prop := {
  equal_text s : ObjectsAreEqual (vstr s) (vstr s) = true;
  equal_bool b : ObjectsAreEqual (vbool b) (vbool b) = true;
  text_not_empty s : s ≠ "" → isEmpty (vstr s) = false;
  int_not_zero z : z ≠ 0%Z → isZero (vint z) = false;
}.

(** ** Tests that pass *)

Section Passing.
Context (db : DB) (models : option bool → W → contents → Prop) `{!AdapterContract db models} `{!TestifyLaws}.
Context (key_at_ID : ∀ c i, key_ID (NewKeyWithID c i) = vstr i) (string_methods : ∀ s, method_String (vstr s) = None).

(** From a world in [P] the test ends without a failure of any part, with a
    result and a world in [Q]. *)
Definition passes {A} (P : W → Prop) (t : T A) (Q : A → W → Prop) : Prop :=
  ∀ w, P w → ∃ w' events a, t w = (w', events, Ret a) ∧ forallb passed events = true ∧ Q a w'.

Lemma test_ret {A} (a : A) (P : W → Prop) (Q : A → W → Prop) : (∀ w, P w → Q a w) → passes P (tret a) Q.
Proof. intros HQ w Hw. exists w, [], a. auto. Qed.

Lemma test_bind {A B} P (t : T A) (k : A → T B) Q R :
  passes P t Q → (∀ a, passes (Q a) (k a) R) → passes P (tbind t k) R.
Proof.
  intros Ht Hk w Hw. destruct (Ht w Hw) as (w1 & ev1 & a & E1 & Hv1 & HQ). destruct (Hk a w1 HQ) as (w2 & ev2 & b & E2 & Hv2 & HR).
  exists w2, (ev1 ++ ev2), b. unfold tbind. rewrite E1, E2. by rewrite forallb_app, Hv1, Hv2.
Qed.

Lemma test_weaken {A} (P P' : W → Prop) (t : T A) (Q Q' : A → W → Prop) :
  (∀ w, P' w → P w) → (∀ a w, Q a w → Q' a w) → passes P t Q → passes P' t Q'.
Proof. intros HP HQ Ht w Hw. destruct (Ht w (HP w Hw)) as (w' & ev & a & ? & ? & ?). exists w', ev, a. auto. Qed.

Lemma passes_require P ok f : ok = true → passes P (require ok f) (λ _, P).
Proof. intros -> w Hw. by exists w, [], tt. Qed.

Lemma passes_Run P name t Q : passes P t Q → passes P (Run name t) Q.
Proof.
  intros Ht w Hw. destruct (Ht w Hw) as (w' & ev & [] & E & Hev & HQ). exists w', [Sub name ev], tt.
  unfold Run. rewrite E. simpl. by rewrite Hev.
Qed.

Lemma passes_for_each {A} P (f : A → T unit) l : (∀ x, x ∈ l → passes P (f x) (λ _, P)) → passes P (for_each f l) (λ _, P).
Proof.
  induction l as [|x l IH]; intros Hf; simpl; [by apply test_ret|].
  eapply test_bind; [apply Hf, elem_of_cons; by left|]. intros []. apply IH. intros y Hy. apply Hf, elem_of_cons. by right.
Qed.

Lemma passes_attempt {A} (P : W → Prop) (c : call A) (Q : A + Err → W → Prop) :
  (∀ w, P w → ∃ w', (∃ a, c w = (w', Ret a) ∧ Q (inl a) w') ∨ (∃ e, c w = (w', Fail e) ∧ Q (inr e) w')) →
  passes P (attempt c) Q.
Proof.
  intros Hc w Hw. unfold attempt. destruct (Hc w Hw) as (w' & [(a & -> & HQ)|(e & -> & HQ)]); by eexists w', [], _.
Qed.

(** A transaction whose worker returns no error. *)
Lemma passes_tx {A} (rw : bool) (message : string) (a0 : A) (worker : T (A * option Err)) (m : contents) (Q : A → contents → Prop) :
  passes (λ w, models (Some rw) w m) worker (λ r w, r.2 = None ∧ ∃ m', models (Some rw) w m' ∧ Q r.1 m') →
  passes (λ w, models None w m) (RunTransaction db rw message a0 worker)
    (λ r w, r.2 = None ∧ ∃ m', models None w m' ∧ Q r.1 m').
Proof.
  intros Hworker w Hw. destruct (contract_begin rw message w m Hw) as (w1 & E1 & Hv1).
  destruct (Hworker w1 Hv1) as (w2 & ev & [a err] & E2 & Hev & Herr & m' & Hv2 & HQ). simpl in *. subst err.
  destruct (contract_end rw w2 m' Hv2) as (w3 & E3 & Hv3). exists w3, ev, (a, None).
  unfold RunTransaction. rewrite E1, E2, E3. split_and!; [done..|]. simpl. eauto.
Qed.

(** A write in a transaction of its own. *)
Lemma passes_tx_error (message : string) (c : call unit) (m m' : contents) :
  (∀ w, models (Some true) w m → ∃ w', c w = (w', Ret tt) ∧ models (Some true) w' m') →
  passes (λ w, models None w m) (tx_error db true message (try c)) (λ err w, err = None ∧ models None w m').
Proof.
  intros Hc. unfold tx_error. eapply test_bind.
  - apply (passes_tx true message tt _ m (λ _ (m1 : contents), m1 = m')). eapply test_bind with (Q := λ err w, err = None ∧ models (Some true) w m').
    + unfold try. eapply test_bind with (Q := λ r w, error_of r = None ∧ models (Some true) w m'); [|intros r; by apply test_ret].
      apply passes_attempt. intros w Hw. destruct (Hc w Hw) as (w' & E & Hm). exists w'. left. by exists tt.
    + intros err. apply test_ret. intros w [-> Hm]. simpl. eauto.
  - intros [[] err]. apply test_ret. intros w (-> & m1 & Hm & ->). done.
Qed.

Lemma passes_write (message : string) (c : call unit) (m m' : contents) :
  (∀ w, models (Some true) w m → ∃ w', c w = (w', Ret tt) ∧ models (Some true) w' m') →
  passes (λ w, models None w m) (tdo err <- tx_error db true message (try c); require_NoError err) (λ _ w, models None w m').
Proof.
  intros Hc. eapply test_bind; [by apply passes_tx_error|].
  intros err w [-> Hm]. by exists w, [], tt.
Qed.

Lemma passes_read (message : string) (m : contents) (l : list ((string * string) * value)) (Q : list (option value) → W → Prop) :
  Forall (readable m) l →
  (∀ w, models None w m → Q ((λ x, found m x.1) <$> l) w) →
  passes (λ w, models None w m) (get_multi db message (prod_map key_at id <$> l)) Q.
Proof.
  intros Hl HQ. unfold get_multi. eapply test_bind.
  - apply (passes_tx false message [] _ m (λ r (m' : contents), r = ((λ x, found m x.1) <$> l) ∧ m' = m)).
    eapply test_bind with (Q := λ r w, r = inl ((λ x, found m x.1) <$> l) ∧ models (Some false) w m).
    + apply passes_attempt. intros w Hw. destruct (contract_GetMulti w m l Hw Hl) as (w' & E & Hm). exists w'. left. eauto.
    + intros r. apply test_ret. intros w [-> Hm]. simpl. eauto 10.
  - intros [records err] w (-> & m' & Hm & -> & ->). simpl. eexists w, [], _. split; [done|]. split; [done|]. by apply HQ.
Qed.

(** *** test_single.go *)

Lemma passes_singleDelete (m : contents) (p : string * string) : test_place p →
  passes (λ w, models None w m) (singleDeleteTest db (key_at p)) (λ _ w, models None w (delete p m)).
Proof. intros Hp. apply passes_write. intros w Hw. by apply contract_Delete. Qed.

Lemma passes_singleExists (m : contents) (p : string * string) (b : bool) : test_place p → b = bool_decide (is_Some (m !! p)) →
  passes (λ w, models None w m) (singleExistsTest db (key_at p) b) (λ _ w, models None w m).
Proof.
  intros Hp ->. eapply test_bind with (Q := λ r w, r = inl (bool_decide (is_Some (m !! p))) ∧ models None w m).
  - apply passes_attempt. intros w Hw. destruct (contract_Exists w m p Hw Hp) as (w' & E & Hm). exists w'. left. eauto.
  - intros r w [-> Hm]. by apply (passes_require (λ w, models None w m)); [apply equal_bool|].
Qed.

Lemma passes_singleGet (m : contents) (p : string * string) (b : bool) : test_place p →
  (if b then ∃ d, m !! p = Some (Some d) ∧ d.1 ≠ "" ∧ d.2 ≠ 0%Z else m !! p = None) →
  passes (λ w, models None w m) (singleGetTest db (key_at p) b) (λ _ w, models None w m).
Proof.
  intros Hp Hb w Hw. destruct (contract_Get w m p Hw) as (w' & Hm & Hget).
  { split; [done|]. simpl. destruct b; [destruct Hb as (d & -> & _)|rewrite Hb]; done. }
  unfold singleGetTest, tbind, attempt. unfold found in Hget. destruct b.
  - destruct Hb as (d & Hd & Hs & Hz). rewrite Hd in Hget. rewrite Hget.
    unfold require. cbn [field_of TestData find String.eqb Ascii.eqb Bool.eqb fst snd].
    rewrite text_not_empty, int_not_zero by done. simpl. by eexists w', _, tt.
  - rewrite Hb in Hget. destruct Hget as (e & -> & He). rewrite He. by eexists w', _, tt.
Qed.

Lemma passes_singleCreate (m : contents) (p : string * string) : test_place p → m !! p = None →
  passes (λ w, models None w m) (singleCreateWithPredefinedIDTest db (key_at p))
    (λ _ w, models None w (<[p := Some ("str1", 1%Z)]> m)).
Proof.
  intros Hp Hm. apply passes_write. intros w Hw. apply (contract_Insert w m p ("str1", 1%Z)); [done|done| |done].
  split; [done|]. by right.
Qed.

Lemma test_place_1 i : test_place (E2ETestKind1, i).
Proof. unfold test_place, test_collections. set_solver. Qed.
Lemma test_place_2 i : test_place (E2ETestKind2, i).
Proof. unfold test_place, test_collections. set_solver. Qed.
Lemma test_place_3 i : test_place ("NonExistingKind", i).
Proof. unfold test_place, test_collections. set_solver. Qed.
Ltac places := first [apply test_place_1 | apply test_place_2 | apply test_place_3].

Lemma passes_single (m : contents) :
  passes (λ w, models None w m) (singleOperationsTest db) (λ _ w, models None w (delete (E2ETestKind1, "r0") m)).
Proof.
  set (p := (E2ETestKind1, "r0")). assert (Hp : test_place p) by apply test_place_1.
  unfold singleOperationsTest. change (NewKeyWithID E2ETestKind1 "r0") with (key_at p). apply passes_Run.
  eapply test_bind; [by apply passes_Run, passes_singleDelete|intros []].
  eapply test_bind; [apply passes_Run, passes_singleGet; [done|apply lookup_delete_eq]|intros []].
  eapply test_bind; [apply passes_Run, passes_singleExists; [done|by rewrite lookup_delete_eq]|intros []].
  eapply test_bind; [apply passes_Run, passes_Run, passes_singleCreate; [done|apply lookup_delete_eq]|intros []].
  eapply test_bind; [apply passes_Run, passes_singleExists; [done|by rewrite lookup_insert_eq]|intros []].
  eapply test_bind; [apply passes_Run, passes_singleGet; [done|]|intros []].
  { eexists. rewrite lookup_insert_eq. split; [done|]. by split. }
  eapply test_bind; [by apply passes_Run, passes_singleDelete|intros []].
  rewrite delete_insert_eq, delete_delete_eq.
  apply passes_Run, passes_singleExists; [done|by rewrite lookup_delete_eq].
Qed.

(** *** test_multi.go *)

Lemma passes_deleteAll (m : contents) (l : list (string * string)) : Forall test_place l →
  passes (λ w, models None w m) (deleteAllRecords db (key_at <$> l)) (λ _ w, models None w (fold_left (λ m p, delete p m) l m)).
Proof. intros Hl. apply passes_write. intros w Hw. by apply contract_DeleteMulti. Qed.

(** The expectations on records that were read. *)
Lemma passes_exist (P : W → Prop) (l : list (option value)) : Forall is_Some l → passes P (recordsMustExist l) (λ _, P).
Proof.
  intros Hl. apply passes_for_each. intros r Hr. apply passes_require. rewrite Forall_forall in Hl.
  by apply bool_decide_eq_true_2, Hl.
Qed.

Lemma passes_absent (P : W → Prop) (l : list (option value)) : Forall (λ r, r = None) l → passes P (recordsMustNotExist l) (λ _, P).
Proof.
  intros Hl. apply passes_for_each. intros r Hr. apply passes_require. rewrite Forall_forall in Hl.
  by apply bool_decide_eq_true_2, Hl.
Qed.

Lemma passes_Equal (P : W → Prop) s v : v = vstr s → passes P (require_Equal (vstr s) v) (λ _, P).
Proof. intros ->. apply passes_require, equal_text. Qed.

Lemma found_known (m : contents) (p : string * string) d : m !! p = Some (Some d) → found m p = Some (TestData d.1 d.2).
Proof. unfold found. by intros ->. Qed.
Lemma found_none (m : contents) (p : string * string) : m !! p = None → found m p = None.
Proof. unfold found. by intros ->. Qed.

Notation k1r1 := (E2ETestKind1, "k1r1").
Notation k1r2 := (E2ETestKind1, "k1r2").
Notation k2r1 := (E2ETestKind2, "k2r1").
Definition all_places : list (string * string) := [k1r1; k1r2; k2r1].

(** The places that must have no record before. *)
Definition non_existing (i : nat) : string * string := ("NonExistingKind", "non_existing_id_" +:+ pretty i).
Definition absent_places : list (string * string) :=
  (non_existing <$> seq 0 3) ++ [(E2ETestKind1, "k1r9"); (E2ETestKind2, "k2r9")].

Ltac listed := match goal with |- ?P => exact (bool_decide_eq_true_1 P eq_refl) end.

(** Reading test data at some places. *)
Lemma passes_read_new (message : string) (m : contents) (l : list (string * string)) keys (Q : list (option value) → W → Prop) :
  keys = key_at <$> l → Forall (λ p, test_place p ∧ m !! p ≠ Some None) l →
  (∀ w, models None w m → Q (found m <$> l) w) →
  passes (λ w, models None w m) (get_multi db message (new_records keys)) Q.
Proof.
  intros -> Hl HQ. unfold new_records.
  replace ((λ k, (k, TestData "" 0)) <$> (key_at <$> l)) with (prod_map key_at id <$> ((λ p, (p, TestData "" 0)) <$> l))
    by by rewrite <- !list_fmap_compose.
  apply passes_read.
  - apply Forall_fmap. eapply Forall_impl; [exact Hl|]. intros p [Hp Hm]. split; [done|]. simpl.
    by destruct (m !! p) as [[d|]|].
  - intros w Hw. rewrite <- list_fmap_compose. by apply HQ.
Qed.

Lemma passes_get3 (m : contents) : (∀ p, p ∈ absent_places → m !! p = None) →
  passes (λ w, models None w m) (get3NonExistingRecords db) (λ _ w, models None w m).
Proof.
  intros Hm. eapply test_bind with (Q := λ r w, Forall (λ r, r = None) r ∧ models None w m).
  - apply (passes_read_new _ m (non_existing <$> seq 0 3)); [done| |].
    + apply Forall_forall. intros p Hp. rewrite Hm by (unfold absent_places; set_solver).
      apply list_elem_of_fmap in Hp as (i & -> & _). split; [apply test_place_3|done].
    + intros w Hw. split; [|done]. apply Forall_fmap, Forall_forall. intros p Hp.
      apply found_none, Hm. unfold absent_places. set_solver.
  - intros r w [Hr Hw]. by apply (passes_absent (λ w, models None w m)).
Qed.

Definition first_data (p : string * string) : string * Z := (p.2 +:+ "str", 0%Z).
Definition with_data (data : string * string → string * Z) (l : list (string * string)) (m : contents) : contents :=
  fold_left (λ m x, <[x.1 := Some x.2]> m) ((λ p, (p, data p)) <$> l) m.

Lemma passes_setMulti (m : contents) :
  passes (λ w, models None w m) (setMulti db (key_at k1r1) (key_at k1r2) (key_at k2r1))
    (λ _ w, models None w (with_data first_data all_places m)).
Proof.
  unfold setMulti. unfold key_at at 2 4 6. rewrite !key_at_ID, !sprint_string by done. apply passes_write. intros w Hw.
  destruct (contract_SetMulti w m ((λ p, (p, first_data p)) <$> all_places) Hw) as (w' & E & Hm).
  { unfold all_places. csimpl. rewrite !Forall_cons, Forall_nil. unfold sample. split_and!; first [places | done | by left]. }
  exists w'. split; [exact E|exact Hm].
Qed.

Lemma passes_getMulti3 (m : contents) : (∀ p, p ∈ all_places → m !! p = Some (Some (first_data p))) →
  passes (λ w, models None w m) (getMulti3existingRecords db (key_at <$> all_places)) (λ _ w, models None w m).
Proof.
  intros Hm. assert (Hfound : found m <$> all_places = (λ p, Some (TestData (first_data p).1 0)) <$> all_places).
  { apply list_fmap_ext. intros i p Hp. apply (found_known m p (first_data p)), Hm. by apply list_elem_of_lookup_2 in Hp. }
  apply passes_Run. eapply test_bind with (Q := λ r w, r = ((λ p, Some (TestData (first_data p).1 0)) <$> all_places) ∧ models None w m).
  - apply (passes_read_new _ m all_places); [done| |by rewrite Hfound].
    apply Forall_forall. intros p Hp. rewrite Hm by done. split; [|done].
    unfold all_places in Hp. set_solver.
  - intros r w [-> Hw]. revert w Hw. eapply test_bind; [|intros []].
    + apply passes_exist. apply Forall_fmap, Forall_forall. intros p _. by eexists.
    + apply passes_for_each. intros x Hx. simpl in Hx. unfold key_at in Hx.
      repeat (apply elem_of_cons in Hx as [->|Hx]; [simpl; rewrite key_at_ID; by apply passes_Equal|]).
      by apply not_elem_of_nil in Hx.
Qed.

Lemma passes_getMulti2 (m : contents) :
  (∀ p, p ∈ all_places → m !! p = Some (Some (first_data p))) → (∀ p, p ∈ absent_places → m !! p = None) →
  passes (λ w, models None w m) (getMulti2existing2missingRecords db (key_at k1r1) (key_at k1r2)) (λ _ w, models None w m).
Proof.
  intros Hm Habsent. set (l := [k1r1; k1r2; (E2ETestKind1, "k1r9"); (E2ETestKind2, "k2r9")]).
  assert (Hfound : found m <$> l = [Some (TestData "k1r1str" 0); Some (TestData "k1r2str" 0); None; None]).
  { unfold l. csimpl. rewrite (found_known m k1r1 (first_data k1r1)), (found_known m k1r2 (first_data k1r2))
      by (apply Hm; listed).
    rewrite !found_none by (apply Habsent; listed). done. }
  eapply test_bind with (Q := λ r w, r = [Some (TestData "k1r1str" 0); Some (TestData "k1r2str" 0); None; None] ∧ models None w m).
  - apply (passes_read_new _ m l); [done| |by rewrite Hfound].
    unfold l. rewrite !Forall_cons, Forall_nil. split_and!; first [places | by rewrite Hm by listed | by rewrite Habsent by listed | done].
  - intros r w [-> Hw]. revert w Hw. cbn [take drop].
    eapply test_bind; [apply passes_exist; repeat constructor; by eexists|intros []].
    eapply test_bind; [apply passes_absent; by repeat constructor|intros []].
    eapply test_bind; [by apply passes_Equal|intros []]. eapply test_bind; [by apply passes_Equal|intros []].
    apply passes_for_each. intros i Hi. apply passes_require, bool_decide_eq_true_2.
    repeat (apply elem_of_cons in Hi as [->|Hi]; [done|]). by apply not_elem_of_nil in Hi.
Qed.

Definition updated_data (p : string * string) : string * Z :=
  if decide (p = k2r1) then first_data p else ("UpdateD", 0%Z).

Lemma passes_update2 (m : contents) : (∀ p, p ∈ all_places → m !! p = Some (Some (first_data p))) →
  passes (λ w, models None w m) (update2records db (key_at k1r1) (key_at k1r2) (key_at k2r1))
    (λ _ w, models None w (fold_left (renamed "UpdateD") [k1r1; k1r2] m)).
Proof.
  intros Hm. set (m' := fold_left (renamed "UpdateD") [k1r1; k1r2] m).
  assert (Hm' : ∀ p, p ∈ all_places → m' !! p = Some (Some (updated_data p))).
  { intros p Hp. unfold all_places in Hp. unfold m'. simpl. unfold renamed.
    repeat (apply elem_of_cons in Hp as [->|Hp];
      [repeat (rewrite lookup_alter_eq || rewrite lookup_alter_ne by done); rewrite Hm by listed; done|]).
    by apply not_elem_of_nil in Hp. }
  assert (Hfound : found m' <$> all_places = [Some (TestData "UpdateD" 0); Some (TestData "UpdateD" 0); Some (TestData "k2r1str" 0)]).
  { unfold all_places. csimpl. by rewrite !(found_known m' _ (updated_data _)) by (apply Hm'; listed). }
  unfold update2records. eapply test_bind with (Q := λ err w, err = None ∧ models None w m').
  - apply (passes_tx_error "update2records" _ m m'). intros w Hw.
    destruct (contract_UpdateMulti w m [k1r1; k1r2] "UpdateD" Hw) as (w' & E & Hw'); [done| |by exists w'].
    rewrite !Forall_cons, Forall_nil. split_and!; first [places | eexists; apply Hm; listed | done].
  - intros err w [-> Hw]. revert w Hw. cbn [require_NoError].
    eapply test_bind; [by apply test_ret with (Q := λ _ w, models None w m')|intros []].
    eapply test_bind with (Q := λ r w, r = [Some (TestData "UpdateD" 0); Some (TestData "UpdateD" 0); Some (TestData "k2r1str" 0)] ∧ models None w m').
    + apply (passes_read_new _ m' all_places); [done| |by rewrite Hfound].
      apply Forall_forall. intros p Hp. rewrite Hm' by done. split; [|done]. unfold all_places in Hp. set_solver.
    + intros r w [-> Hw]. revert w Hw. eapply test_bind; [apply passes_exist; repeat constructor; by eexists|intros []].
      apply passes_for_each. intros x Hx.
      repeat (apply elem_of_cons in Hx as [->|Hx]; [by apply passes_Equal|]). by apply not_elem_of_nil in Hx.
Qed.

Definition removed (l : list (string * string)) (m : contents) : contents := fold_left (λ m p, delete p m) l m.

Lemma removed_lookup (l : list (string * string)) (m : contents) (p : string * string) : removed l m !! p = if decide (p ∈ l) then None else m !! p.
Proof.
  unfold removed. revert m. induction l as [|p' l IH]; intros m; simpl; [done|]. rewrite IH.
  destruct (decide (p ∈ l)) as [Hl|Hl]; [rewrite decide_True by set_solver; done|].
  destruct (decide (p = p')) as [->|Hne]; [rewrite decide_True by set_solver; by rewrite lookup_delete_eq|].
  rewrite decide_False by set_solver. by rewrite lookup_delete_ne.
Qed.

Lemma all_test_places : Forall test_place all_places.
Proof. unfold all_places. rewrite !Forall_cons, Forall_nil. split_and!; first [places | done]. Qed.

Lemma absent_not_all (p : string * string) : p ∈ absent_places → p ∉ all_places.
Proof.
  assert (Hall : Forall (λ p, p ∉ all_places) absent_places) by listed. rewrite Forall_forall in Hall. apply Hall.
Qed.

Lemma passes_cleanup (m : contents) :
  passes (λ w, models None w m) (cleanupDelete db (key_at <$> all_places)) (λ _ w, models None w (removed all_places m)).
Proof.
  eapply test_bind; [apply passes_deleteAll, all_test_places|intros []].
  fold (removed all_places m). eapply test_bind with (Q := λ r w, Forall (λ r, r = None) r ∧ models None w (removed all_places m)).
  - replace ((λ k, (k, empty_struct)) <$> (key_at <$> all_places)) with (prod_map key_at id <$> ((λ p, (p, empty_struct)) <$> all_places))
      by reflexivity.
    apply (passes_read "verify_cleanupDelete" (removed all_places m) ((λ p, (p, empty_struct)) <$> all_places)).
    + apply Forall_fmap, Forall_forall. intros p Hp. split; cbn [fst snd compose]; [|by rewrite removed_lookup, decide_True].
      pose proof all_test_places as Hall. rewrite Forall_forall in Hall. by apply Hall.
    + intros w Hw. split; [|done]. rewrite <- list_fmap_compose. apply Forall_fmap, Forall_forall. intros p Hp.
      apply found_none. by rewrite removed_lookup, decide_True.
  - intros r w [Hr Hw]. by apply (passes_absent (λ w, models None w (removed all_places m))).
Qed.

(** The map after the writes of the test. *)
Definition updated_contents (m : contents) : contents :=
  fold_left (renamed "UpdateD") [k1r1; k1r2] (with_data first_data all_places m).

Lemma removed_updated (m : contents) : removed all_places (updated_contents m) = removed all_places m.
Proof.
  apply map_eq. intros p. rewrite !removed_lookup. destruct (decide (p ∈ all_places)) as [|Hp]; [done|].
  unfold all_places in Hp. rewrite !not_elem_of_cons in Hp. destruct Hp as (Hn1 & Hn2 & Hn3 & _).
  unfold updated_contents, with_data, renamed. simpl. rewrite !lookup_alter_ne by done. by rewrite !lookup_insert_ne by done.
Qed.

Lemma passes_multi (m : contents) : (∀ p, p ∈ absent_places → m !! p = None) →
  passes (λ w, models None w m) (multiOperationsTest db) (λ _ w, models None w (removed all_places m)).
Proof.
  intros Habsent. set (m1 := removed all_places m).
  assert (Habsent1 : ∀ p, p ∈ absent_places → m1 !! p = None).
  { intros p Hp. unfold m1. rewrite removed_lookup. destruct (decide _); [done|by apply Habsent]. }
  set (m2 := with_data first_data all_places m1).
  assert (Hm2 : ∀ p, p ∈ all_places → m2 !! p = Some (Some (first_data p))).
  { intros p Hp. unfold all_places in Hp.
    repeat (apply elem_of_cons in Hp as [->|Hp]; [unfold m2, with_data; simpl;
      repeat (rewrite lookup_insert_eq || rewrite lookup_insert_ne by done); done|]). by apply not_elem_of_nil in Hp. }
  assert (Habsent2 : ∀ p, p ∈ absent_places → m2 !! p = None).
  { intros p Hp. pose proof (absent_not_all p Hp) as Hn. unfold all_places in Hn. rewrite !not_elem_of_cons in Hn.
    destruct Hn as (? & ? & ? & _). rewrite <- (Habsent1 p Hp). unfold m2, with_data. simpl. by rewrite !lookup_insert_ne. }
  assert (Hidem : removed all_places m1 = m1).
  { apply map_eq. intros p. unfold m1. rewrite !removed_lookup. by destruct (decide _). }
  unfold multiOperationsTest. change [NewKeyWithID E2ETestKind1 "k1r1"; _; _] with (key_at <$> all_places).
  eapply test_bind; [apply passes_Run, passes_deleteAll, all_test_places|intros []].
  eapply test_bind; [apply passes_Run, passes_deleteAll, all_test_places|intros []].
  fold (removed all_places m). fold m1. fold (removed all_places m1). rewrite Hidem.
  eapply test_bind; [by apply passes_Run, passes_get3|intros []].
  eapply test_bind; [apply passes_Run, passes_setMulti|intros []].
  eapply test_bind; [apply passes_Run; eapply test_bind; [by apply passes_Run, passes_getMulti3|intros []; by apply passes_Run, passes_getMulti2]|intros []].
  eapply test_bind; [by apply passes_Run, passes_update2|intros []].
  change (fold_left (renamed "UpdateD") [k1r1; k1r2] (with_data first_data all_places m1)) with (updated_contents m1).
  eapply test_weaken; [intros w Hw; exact Hw| |apply passes_Run, passes_cleanup].
  intros [] w. cbn beta. by rewrite removed_updated, Hidem.
Qed.

(** C22: an adapter whose database implements a map of records, with
    transactions around its writes and reads, passes the parts of the suite that
    do not query: whatever the database held, if it has none of the records that
    the suite expects to miss, no expectation fails, nothing panics, and the four
    records that the suite writes are gone afterwards. *)
Theorem adapters_pass (e : Err) (eventuallyConsistent : bool) (w : W) (m : contents)
    (Hrun : runSingleAndMulti = true) (Hw : models None w m)
    (Habsent : ∀ p, p ∈ absent_places → m !! p = None) :
  ∃ w' events, TestDalgoDB (Some db) (Some e) eventuallyConsistent w = (w', events, Ret tt) ∧
    forallb passed events = true ∧
    models None w' (removed ((E2ETestKind1, "r0") :: all_places) m).
Proof.
  assert (Hp : passes (λ w, models None w m) (TestDalgoDB (Some db) (Some e) eventuallyConsistent)
    (λ _ w, models None w (removed ((E2ETestKind1, "r0") :: all_places) m))).
  { unfold TestDalgoDB. rewrite Hrun. eapply test_bind; [|intros []].
    - eapply test_bind; [apply passes_Run, passes_single|intros []]. apply passes_Run, passes_multi.
      intros p Hp. apply lookup_delete_None. right. by apply Habsent.
    - intros w1 Hw1. by eexists w1, _, tt. }
  destruct (Hp w Hw) as (w' & events & [] & E & Hev & Hw'). by exists w', events.
Qed.
End Passing.
End Suite.
