(* ===== verification/MemoryEnd2End.v ===== *)
(** * The in-memory database under the end-to-end suite
    (src/end2end, src/adapters/dalgo2memory)

    The in-memory database, with any engine that keeps the contract of engines,
    is an adapter that implements a map of records; on concrete data it passes
    the whole suite, queries included. *)

From Stdlib Require Import String.
From stdpp Require Import base gmap sets list strings.
From S2P Require Import Prelude StableSort GoValues GoTypes GoMaps GoStrings GoJSON RecordKey DalQuery DalString DalReader.
From S2P Require Import RecordsetColumns RecordsetRows MemoryRows MemoryQuery MemoryUpdate MemoryEngine MemorySession MemorySessionLaws.
From S2P Require Import MemorySchema MemoryExamples MemoryPivot MemoryRecordset End2End.

Local Open Scope string_scope.
Local Open Scope nat_scope.
Local Open Scope list_scope.

Section MemoryAdapter.
Context `{GoFmt, RecordKeys, GoJSON, Decoders}.
Context {E R : Type} `{!StorageEngine E} `{!EngineModel E R} `{!EngineLaws E R}.
Context (objects : key_objects) (cfg : config (E:=E)).
Context (NewKeyWithID : string → string → key) (random_string_key : nat → res mem_error value).

Notation state := (state (E:=E)).

(** Transactions are sessions under the database's lock: nothing is rolled
    back, and the error of the worker is the error of the transaction. *)
Definition memory_begin (readwrite : bool) (message : string) (s : state) : state * option mem_error :=
  (mkState (db_collections s)
     (if readwrite then Some (mkTx (db_noReadsAfterWritesInTransaction cfg) false) else None), None).
Definition memory_unwind (readwrite : bool) (s : state) : state := mkState (db_collections s) None.
Definition memory_end (readwrite : bool) (err : option mem_error) (s : state) : state * option mem_error :=
  (memory_unwind readwrite s, err).

Definition memory_db : DB (W := state) (Err := mem_error) (RS := recordsReader result_record) (QS := columnarReader) (Row := option columnarRow) := {|
  db_begin := memory_begin;
  db_end := memory_end;
  db_unwind := memory_unwind;
  db_Exists := Exists cfg;
  db_Get := Get cfg;
  tx_GetMulti := GetMulti cfg;
  tx_Insert k data := mdo _ <- Insert objects cfg random_string_key k data (mkInsertOptions None false); mret tt;
  tx_SetMulti := SetMulti cfg;
  tx_UpdateMulti := UpdateMulti cfg;
  tx_Delete := Delete cfg;
  tx_DeleteMulti := DeleteMulti cfg;
  tx_ExecuteQueryToRecordsReader q :=
    mdo records <- ExecuteQueryToRecordsReader cfg NewKeyWithID (StructuredQuery q);
    mret (NewRecordsReader (Some records));
  tx_ExecuteQueryToRecordsetReader q := ExecuteQueryToRecordsetReader cfg NewKeyWithID background (StructuredQuery q) [];
  db_records := slice_reader;
  db_recordset := columnar_reader;
  RowsCount r := rs_rowsCount (cr_rs r);
|}.

(** These are the transactions of MemorySession. *)
Lemma memory_transactions {A} (f : M state A) (s : state) : txState s = None →
  (let '(s1, r) := f (memory_begin true "" s).1 in (memory_unwind true s1, r)) = RunReadwriteTransaction cfg f s ∧
  (let '(s1, r) := f (memory_begin false "" s).1 in (memory_unwind false s1, r)) = RunReadonlyTransaction f s.
Proof. intros Hs. unfold memory_unwind, RunReadwriteTransaction, RunReadonlyTransaction. rewrite Hs. done. Qed.

(** ** It implements a map of records *)

Section Contract.
Context (Hnew : fresh_engines cfg) (string_methods : ∀ s, method_String (vstr s) = None).
Context (keys : ∀ c i, Collection (NewKeyWithID c i) = c ∧ key_ID (NewKeyWithID c i) = vstr i ∧ Parent (NewKeyWithID c i) = None).
Context (defined : ∀ c, c ∈ test_collections → guardCollection cfg c = Ret tt).

Definition engine0 (c : string) : E := new_engine cfg c.

(** A stored record of test data: its document, which the engine keeps, is the
    object of the two fields, and is read back. *)
Definition is_doc (c : string) (r : R) (d : string * Z) : Prop :=
  ∃ b, document (engine0 c) r = Ret b ∧
    unmarshal_map b = Some (Some [("IntegerProp", vfloat (float_of_Z d.2)); ("StringProp", vstr d.1)]) ∧
    Unmarshal_into b (TestData "" 0) = Ret (TestData d.1 d.2).

(** Test data is encoded to such records, from the struct and from the map of
    an update. *)
Context (codec_struct : ∀ c d, c ∈ test_collections → sample d →
  ∃ r, encode (engine0 c) (TestData d.1 d.2) = Ret r ∧ is_doc c r d).
Context (codec_map : ∀ c d, c ∈ test_collections → sample d →
  ∃ r, encode (engine0 c) (VMap any_map_type "string"
      (Some [("IntegerProp", vfloat (float_of_Z d.2)); ("StringProp", vstr d.1)])) = Ret r ∧ is_doc c r d).
Context (codec_updates : ∀ c s, c ∈ test_collections →
  check_updates (engine0 c) [mkUpdate "StringProp" [] (Some (vstr s))] = Ret tt).

Definition same_codec (e e' : E) : Prop :=
  encode e' = encode e ∧ document e' = document e ∧ check_updates e' = check_updates e.

Definition shows (c : string) (o : option (R * option key)) (v : option (option (string * Z))) : Prop :=
  match v with
  | None => o = None
  | Some None => is_Some o
  | Some (Some d) => sample d ∧ ∃ r, o = Some r ∧ is_doc c r.1 d
  end.

Record memory_models (mode : option bool) (s : state) (m : gmap (string * string) (option (string * Z))) : Prop := {
  mm_good : good s;
  mm_codec c : same_codec (engine0 c) (engine_of cfg s c);
  mm_tx : match mode with Some true => is_Some (txState s) | _ => txState s = None end;
  mm_records p : test_place p → shows p.1 (stored cfg s p.1 p.2) (m !! p);
}.

Lemma keyID_at p : keyID (key_at NewKeyWithID p) = p.2.
Proof.
  destruct (keys p.1 p.2) as (_ & Hid & Hp). unfold keyID, key_at. rewrite Hp, Hid. by apply sprint_string.
Qed.

Lemma Collection_at p : Collection (key_at NewKeyWithID p) = p.1.
Proof. apply keys. Qed.

(** Reads leave what the state stands for. *)
Lemma models_same mode s s' m :
  memory_models mode s m → good s' → txState s' = txState s → (∀ c, engine_of cfg s' c = engine_of cfg s c) →
  memory_models mode s' m.
Proof.
  intros [] Hg Htx He. split; [done| | |].
  - intros c. by rewrite He.
  - by rewrite Htx.
  - intros p Hp. unfold stored. rewrite He. by apply mm_records0.
Qed.

(** A change of one record. *)
Lemma models_change mode s m p (f : E → res mem_error E) e' v (mm : gmap string (R * option key)) :
  memory_models mode s m → test_place p →
  f (engine_of cfg s p.1) = Ret e' → now_holds (engine_of cfg s p.1) e' mm →
  (∀ id, id ≠ p.2 → mm !! id = contents (engine_of cfg s p.1) !! id) → shows p.1 (mm !! p.2) v →
  ∃ s', change cfg p.1 f s = (s', Ret tt) ∧ memory_models mode s' (partial_alter (λ _, v) p m).
Proof.
  intros Hs Hp Hf (Hok & Hc & Henc & Hdoc & Hchk) Hother Hv. destruct Hs.
  destruct (change_run cfg s p.1 f) as (s' & _ & Htx & Hrun). rewrite Hf in Hrun. destruct Hrun as (Hrun & Hgood & Heng).
  exists s'. split; [done|]. split.
  - by apply Hgood.
  - intros c. rewrite Heng. destruct (decide (c = p.1)) as [->|]; [|apply mm_codec0].
    destruct (mm_codec0 p.1) as (E1 & E2 & E3). unfold same_codec. by rewrite Henc, Hdoc, Hchk.
  - by rewrite Htx.
  - intros q Hq. unfold stored. rewrite Heng. destruct (decide (q = p)) as [->|Hne].
    + by rewrite decide_True, Hc, lookup_partial_alter_eq.
    + rewrite lookup_partial_alter_ne by done. destruct (decide (q.1 = p.1)) as [E1|]; [|by apply mm_records0].
      rewrite Hc, Hother, <- E1; [by apply mm_records0|]. intros E2. apply Hne. destruct p, q. simpl in *. congruence.
Qed.

Lemma models_mark s m : memory_models (Some true) s m → ∃ s', markWrite s = (s', Ret tt) ∧ memory_models (Some true) s' m.
Proof.
  intros []. eexists. split; [done|]. split; [done|done| |done]. simpl. by apply fmap_is_Some.
Qed.

Lemma engine_ok_of mode s m c : memory_models mode s m → engine_ok (engine_of cfg s c).
Proof. intros []. by apply good_engine. Qed.

Lemma save_models mode s m p d overwrite :
  memory_models mode s m → test_place p → sample d → overwrite = true ∨ m !! p = None →
  ∃ s', save cfg (key_at NewKeyWithID p) (TestData d.1 d.2) overwrite s = (s', Ret tt) ∧
    memory_models mode s' (<[p := Some d]> m).
Proof.
  intros Hs Hp Hd Hor. destruct (codec_struct p.1 d Hp Hd) as (r & Henc & Hdoc).
  destruct (mm_codec _ _ _ Hs p.1) as (E1 & _). rewrite <- E1 in Henc.
  unfold save, mbind, mlift. rewrite Collection_at, defined, keyID_at by done.
  pose proof (store_spec (engine_of cfg s p.1) p.2 (key_at NewKeyWithID p) (TestData d.1 d.2) overwrite (engine_ok_of _ _ _ _ Hs)) as Hst.
  rewrite Henc in Hst. destruct Hst as (e' & Hst & Hholds).
  { destruct Hor as [->|Hm]; [by left|right]. pose proof (mm_records _ _ _ Hs p Hp) as Hsh. by rewrite Hm in Hsh. }
  eapply (models_change mode s m p _ e' (Some (Some d))); [done|done|exact Hst|exact Hholds| |].
  - intros id Hid. by rewrite lookup_insert_ne.
  - rewrite lookup_insert_eq. split; [done|]. eexists. split; [done|]. exact Hdoc.
Qed.

Lemma Set_models s m p d : memory_models (Some true) s m → test_place p → sample d →
  ∃ s', Set_ cfg (key_at NewKeyWithID p) (TestData d.1 d.2) s = (s', Ret tt) ∧ memory_models (Some true) s' (<[p := Some d]> m).
Proof.
  intros Hs Hp Hd. destruct (save_models _ s m p d true Hs Hp Hd) as (s1 & E1 & Hs1); [by left|].
  destruct (models_mark s1 _ Hs1) as (s2 & E2 & Hs2). exists s2. unfold Set_, mbind. by rewrite E1, E2.
Qed.

Lemma Delete_models s m p : memory_models (Some true) s m → test_place p →
  ∃ s', Delete cfg (key_at NewKeyWithID p) s = (s', Ret tt) ∧ memory_models (Some true) s' (delete p m).
Proof.
  intros Hs Hp. destruct (models_change _ s m p (λ e, Ret (delete_ e p.2)) _ None _ Hs Hp eq_refl
    (delete_spec (engine_of cfg s p.1) p.2 (engine_ok_of _ _ _ _ Hs))) as (s1 & E1 & Hs1).
  - intros id Hid. by rewrite lookup_delete_ne.
  - apply lookup_delete_eq.
  - destruct (models_mark s1 _ Hs1) as (s2 & E2 & Hs2). exists s2. unfold Delete, mbind. rewrite Collection_at, keyID_at.
    by rewrite E1, E2.
Qed.

Lemma Update_models s m p d name : memory_models (Some true) s m → test_place p → m !! p = Some (Some d) → name ≠ "" →
  ∃ s', Update_ cfg (key_at NewKeyWithID p) [mkUpdate "StringProp" [] (Some (vstr name))] s = (s', Ret tt) ∧
    memory_models (Some true) s' (renamed name m p).
Proof.
  intros Hs Hp Hm Hname. set (us := [mkUpdate "StringProp" [] (Some (vstr name))]).
  pose proof (mm_records _ _ _ Hs p Hp) as Hsh. rewrite Hm in Hsh. destruct Hsh as (Hd & [r k] & Hst & b & Hb & Hdata & _).
  assert (Hd' : sample (name, d.2)) by (destruct Hd as [_ Hz]; by split).
  destruct (codec_map p.1 (name, d.2) Hp Hd') as (r' & Henc & Hdoc). destruct (mm_codec _ _ _ Hs p.1) as (E1 & E2 & E3).
  assert (Hup : updated (engine_of cfg s p.1) r us = Ret r').
  { unfold updated. rewrite E1, E2, E3. cbn [fst] in Hb. rewrite Hb. cbn [rbind]. rewrite Hdata. unfold us. rewrite codec_updates by done.
    cbn [rbind]. change (applyUpdatesToMap _ _) with (@Ret mem_error _
      (Some [("IntegerProp", vfloat (float_of_Z d.2)); ("StringProp", vstr name)])). exact Henc. }
  pose proof (update_spec (engine_of cfg s p.1) p.2 us (r, k) (engine_ok_of _ _ _ _ Hs) Hst) as Hspec.
  cbn [fst] in Hspec. rewrite Hup in Hspec. destruct Hspec as (e' & He' & Hholds).
  destruct (models_change _ s m p (λ e, update e p.2 us) e' (Some (Some (name, d.2))) _ Hs Hp He' Hholds) as (s1 & F1 & Hs1).
  - intros id Hid. by rewrite lookup_insert_ne.
  - rewrite lookup_insert_eq. split; [done|]. eexists. split; [done|]. exact Hdoc.
  - destruct (models_mark s1 _ Hs1) as (s2 & F2 & Hs2). exists s2. unfold Update_, UpdateRecord, mbind, mlift.
    rewrite Collection_at, keyID_at, defined by done. rewrite F1, F2. split; [done|].
    replace (renamed name m p) with (partial_alter (λ _, Some (Some (name, d.2))) p m); [done|].
    unfold renamed, alter. apply partial_alter_ext. intros x Hx. rewrite Hm in Hx. by subst x.
Qed.

(** ** Reads *)

Lemma allowRead_models mode s m : mode ≠ Some true → memory_models mode s m → allowRead s = (s, Ret tt).
Proof. intros Hm [_ _ Htx _]. unfold allowRead. destruct mode as [[]|]; by rewrite ?Htx. Qed.

Lemma engine_models mode s m c : memory_models mode s m →
  ∃ s', engine cfg c s = (s', Ret (engine_of cfg s c)) ∧ memory_models mode s' m.
Proof.
  intros Hs. destruct (engine_run cfg s c) as (s' & E1 & Htx & Hg & He). exists s'. split; [done|].
  apply (models_same mode s); [done|by apply Hg, Hs|done|done].
Qed.

Lemma Get_models mode s m p target : mode ≠ Some true → memory_models mode s m → readable m (p, target) →
  ∃ s', memory_models mode s' m ∧
    Get cfg (key_at NewKeyWithID p) target s
    = (s', match found m p with Some v => Ret v | None => Fail not_found end).
Proof.
  intros Hmode Hs [Hp Hread]. simpl in *. destruct (engine_models mode s m p.1 Hs) as (s' & E1 & Hs'). exists s'.
  split; [done|]. unfold Get, mbind, mlift. rewrite (allowRead_models mode s m) by done.
  rewrite Collection_at, keyID_at, defined, E1 by done. f_equal.
  rewrite load_spec by by eapply engine_ok_of. pose proof (mm_records _ _ _ Hs p Hp) as Hsh.
  change (contents (engine_of cfg s p.1) !! p.2) with (stored cfg s p.1 p.2). unfold found.
  destruct (m !! p) as [[d|]|]; [|done|by rewrite Hsh].
  destruct Hsh as (_ & r & -> & b & Hb & _ & Hdec). subst target. destruct (mm_codec _ _ _ Hs p.1) as (_ & -> & _).
  by rewrite Hb.
Qed.

Lemma Exists_models s m p : memory_models None s m → test_place p →
  ∃ s', Exists cfg (key_at NewKeyWithID p) s = (s', Ret (bool_decide (is_Some (m !! p)))) ∧ memory_models None s' m.
Proof.
  intros Hs Hp. destruct (engine_models None s m p.1 Hs) as (s' & E1 & Hs'). exists s'. split; [|done].
  unfold Exists, mbind. rewrite (allowRead_models None s m), Collection_at, keyID_at, E1 by done. unfold mret.
  do 2 f_equal. rewrite exists_spec by by eapply engine_ok_of. apply bool_decide_ext.
  change (contents (engine_of cfg s p.1) !! p.2) with (stored cfg s p.1 p.2).
  pose proof (mm_records _ _ _ Hs p Hp) as Hsh. destruct (m !! p) as [[d|]|].
  - destruct Hsh as (_ & r & -> & _). split; intros _; by eexists.
  - split; [by eexists|done].
  - by rewrite Hsh.
Qed.

Lemma get_all_models s m l : memory_models (Some false) s m → Forall (readable m) l →
  ∃ s', get_all cfg (prod_map (key_at NewKeyWithID) id <$> l) s = (s', Ret ((λ x, found m x.1) <$> l)) ∧
    memory_models (Some false) s' m.
Proof.
  intros Hs Hl. revert s Hs. induction Hl as [|[p target] l Hr Hl IH]; intros s Hs; [by exists s|].
  csimpl. destruct (Get_models (Some false) s m p target) as (s1 & Hs1 & E1); [done..|].
  destruct (IH s1 Hs1) as (s2 & E2 & Hs2). exists s2. split; [|done].
  unfold mbind at 1. unfold get_or_missing. simpl. rewrite E1.
  by destruct (found m p); unfold mbind; rewrite E2.
Qed.

(** ** Several writes *)

Lemma SetMulti_models s m l : memory_models (Some true) s m → Forall (λ x : (string * string) * (string * Z), test_place x.1 ∧ sample x.2) l →
  ∃ s', SetMulti cfg ((λ x, (key_at NewKeyWithID x.1, TestData x.2.1 x.2.2)) <$> l) s = (s', Ret tt) ∧
    memory_models (Some true) s' (fold_left (λ m x, <[x.1 := Some x.2]> m) l m).
Proof.
  intros Hs Hl. revert s m Hs. induction Hl as [|x l [Hp Hd] Hl IH]; intros s m Hs; [by exists s|].
  destruct (Set_models s m x.1 x.2 Hs Hp Hd) as (s1 & E1 & Hs1). destruct (IH s1 _ Hs1) as (s2 & E2 & Hs2).
  exists s2. split; [|done]. unfold SetMulti in *. csimpl. unfold mbind. by rewrite E1.
Qed.

Lemma DeleteMulti_models s m l : memory_models (Some true) s m → Forall test_place l →
  ∃ s', DeleteMulti cfg (key_at NewKeyWithID <$> l) s = (s', Ret tt) ∧
    memory_models (Some true) s' (fold_left (λ m p, delete p m) l m).
Proof.
  intros Hs Hl. revert s m Hs. induction Hl as [|p l Hp Hl IH]; intros s m Hs; [by exists s|].
  destruct (Delete_models s m p Hs Hp) as (s1 & E1 & Hs1). destruct (IH s1 _ Hs1) as (s2 & E2 & Hs2).
  exists s2. split; [|done]. unfold DeleteMulti in *. csimpl. unfold mbind. by rewrite E1.
Qed.

Lemma UpdateMulti_models s m l name : memory_models (Some true) s m → name ≠ "" →
  Forall (λ p, test_place p ∧ ∃ d, m !! p = Some (Some d)) l →
  ∃ s', UpdateMulti cfg (key_at NewKeyWithID <$> l) [mkUpdate "StringProp" [] (Some (vstr name))] s = (s', Ret tt) ∧
    memory_models (Some true) s' (fold_left (renamed name) l m).
Proof.
  intros Hs Hname. revert s m Hs. induction l as [|p l IH]; intros s m Hs Hl; [by exists s|].
  apply Forall_cons in Hl as [(Hp & d & Hd) Hl].
  destruct (Update_models s m p d name Hs Hp Hd Hname) as (s1 & E1 & Hs1).
  destruct (IH s1 (renamed name m p) Hs1) as (s2 & E2 & Hs2).
  - eapply Forall_impl; [exact Hl|]. intros q (Hq & d' & Hd'). split; [done|]. unfold renamed.
    destruct (decide (q = p)) as [->|]; [rewrite lookup_alter_eq|rewrite lookup_alter_ne by done]; rewrite Hd'; by eexists.
  - exists s2. split; [|done]. unfold UpdateMulti in *. csimpl. unfold mbind. by rewrite E1.
Qed.

Lemma models_begin rw message s m : memory_models None s m →
  ∃ s', memory_begin rw message s = (s', None) ∧ memory_models (Some rw) s' m.
Proof.
  intros [Hg Hc Htx Hr]. eexists. split; [done|]. split; [done|done| |done]. destruct rw; [by eexists|done].
Qed.

Lemma models_end rw s m : memory_models (Some rw) s m →
  ∃ s', memory_end rw None s = (s', None) ∧ memory_models None s' m.
Proof. intros [Hg Hc Htx Hr]. eexists. split; [done|]. by split. Qed.

Definition is_not_found (e : mem_error) : bool := match e with not_found => true | _ => false end.

Lemma memory_adapter : AdapterContract is_not_found NewKeyWithID memory_db memory_models.
Proof.
  split.
  - intros. by apply models_begin.
  - intros. by apply models_end.
  - intros s m p Hs Hp. by apply Exists_models.
  - intros s m p Hs Hr. destruct (Get_models None s m p (TestData "" 0) ltac:(done) Hs Hr) as (s' & Hs' & E1).
    exists s'. split; [done|]. cbn [memory_db db_Get]. rewrite E1. destruct (found m p); [done|by eexists].
  - intros s m l Hs Hl. destruct (get_all_models s m l Hs Hl) as (s' & E1 & Hs'). exists s'. split; [|done].
    cbn [memory_db tx_GetMulti]. unfold GetMulti, mbind. by rewrite (allowRead_models (Some false) s m).
  - intros s m p d Hs Hp Hd Hm. destruct (save_models _ s m p d false Hs Hp Hd) as (s1 & E1 & Hs1); [by right|].
    destruct (models_mark s1 _ Hs1) as (s2 & E2 & Hs2). exists s2. split; [|done].
    cbn [memory_db tx_Insert]. unfold Insert, insert_key. cbn [generator o_idGenerator o_preferAdapterGeneratedID]. unfold mbind. by rewrite E1, E2.
  - intros. by apply SetMulti_models.
  - intros. by apply UpdateMulti_models.
  - intros. by apply Delete_models.
  - intros. by apply DeleteMulti_models.
Qed.

(** C7: the in-memory database, with any engines that keep their contract and
    give test data back, is an adapter as the suite expects it: with its
    sessions, transactions and collections made on first use it implements the
    map of records of that contract. *)
Theorem memory_adapter_contract : AdapterContract is_not_found NewKeyWithID memory_db memory_models.
Proof. exact memory_adapter. Qed.
End Contract.
End MemoryAdapter.

(** ** On concrete data *)

Module End2EndExamples.
#[local] Existing Instance plain_fmt.
#[local] Existing Instance chain_keys.

(** The JSON of the structs of the suite. *)
#[local] Instance suite_json : GoJSON := {|
  json_field ty name := Some (name, String.eqb ty "end2end.TestData" && String.eqb name "StringProp");
  method_MarshalJSON v :=
    match v with
    | VStruct ty _ [(_, _, VString _ text)] => if String.eqb ty "time.Time" then Some (Some (JString text)) else None
    | _ => None
    end;
  json_float _ _ := "0";
  reparse_float32 f := f;
|}.

(** Reading a JSON value into a variable. *)
Definition decode_value (v : value) (j : json) : option value :=
  match v, j with
  | VString ty _, JString s => Some (VString ty s)
  | VBool ty _, JBool b => Some (VBool ty b)
  | VInt ty k _, JInt z => Some (VInt ty k z)
  | VInt ty k _, JFloat _ f => VInt ty k <$> Z_of_float f
  | VStruct _ _ _, JString s => Some (Time s)
  | _, _ => None
  end.

Definition decode_fields (fields : list (string * bool * value)) (l : list (string * json)) : option (list (string * bool * value)) :=
  opt_all (λ f : string * bool * value,
    match assoc f.1.1 l with Some j => (λ v, (f.1, v)) <$> decode_value f.2 j | None => Some f end) fields.

#[local] Instance suite_decoders : Decoders := {|
  Unmarshal_into j target :=
    match target, j with
    | VPtr pty a (Some (VStruct ty c fields)), JObject l =>
        match decode_fields fields l with
        | Some fields => Ret (VPtr pty a (Some (VStruct ty c fields)))
        | None => Fail json_error
        end
    | _, _ => Ret (unmarshal_any j)
    end;
  decode_strict _ _ := true;
|}.

#[local] Instance suite_testify : Testify := {|
  ObjectsAreEqual := deep_equal;
  ObjectsAreEqualValues want got :=
    match want, got with
    | VInt _ _ z, VFloat _ _ f => SpecFloat.SFeqb f (float_of_Z z)
    | _, _ => deep_equal want got
    end;
  isEmpty := is_empty_value;
  isZero := is_empty_value;
|}.

Definition schemaless : config (E := serializedEngine) :=
  mkConfig None false true (λ c factory _, newSerializedEngine c factory).
Definition empty_state : state (E := serializedEngine) := mkState ∅ None.
Definition with_ID (k : key) (id : value) : key := match k with ChainKey c _ p => ChainKey c id p end.
Definition new_key (collection id : string) : key := ChainKey collection (vstr id) None.
Definition own_objects : key_objects := mkObjects with_ID (λ _ _ k, k).
Definition db : DB := memory_db own_objects schemaless new_key (λ _, Fail (other_error "")).

Definition suite (now : string) (errQuerySupport : option mem_error) (s : state (E := serializedEngine))
  : state (E := serializedEngine) * list event * res stop unit :=
  TestDalgoDB is_not_found (λ e, match e with not_supported => true | _ => false end) (λ _ e, e)
    reader_failed new_key 100 true (Time now) true (Some db) errQuerySupport false s.

Definition no_records (s : state (E := serializedEngine)) : bool :=
  forallb (λ x : string * serializedEngine, bool_decide (map_to_list (s_records x.2) = [])) (map_to_list (db_collections s)).

(** *** The hypotheses hold *)

#[local] Instance suite_testify_laws : TestifyLaws.
Proof.
  split.
  - intros s. cbn. by rewrite !String.eqb_refl.
  - intros []; reflexivity.
  - intros s Hs. by apply String.eqb_neq.
  - intros z Hz. by apply Z.eqb_neq.
Qed.

#[local] Instance serialized_laws : EngineLaws serializedEngine json := serialized_engine_laws.

Lemma suite_fresh : fresh_engines schemaless.
Proof. intros c. split; [done|]. by apply map_eq. Qed.

Lemma new_key_laws c i : Collection (new_key c i) = c ∧ key_ID (new_key c i) = vstr i ∧ Parent (new_key c i) = None.
Proof. done. Qed.

Lemma struct_codec (c : string) d : c ∈ test_collections → sample d →
  ∃ r, encode (engine0 schemaless c) (TestData d.1 d.2) = Ret r ∧ is_doc schemaless c r d.
Proof.
  destruct d as [s z]. intros _ [Hs Hz]. simpl in Hs, Hz. apply String.eqb_neq in Hs.
  exists (JObject [("StringProp", JString s); ("IntegerProp", JInt z)]). split.
  - unfold engine0. simpl. unfold marshal_res, TestData. simpl. rewrite Hs. done.
  - exists (JObject [("StringProp", JString s); ("IntegerProp", JInt z)]). split_and!; reflexivity.
Qed.

Lemma map_codec (c : string) d : c ∈ test_collections → sample d →
  ∃ r, encode (engine0 schemaless c) (VMap any_map_type "string"
      (Some [("IntegerProp", vfloat (float_of_Z d.2)); ("StringProp", vstr d.1)])) = Ret r ∧ is_doc schemaless c r d.
Proof.
  destruct d as [s z]. intros _ [_ Hz]. simpl in Hz.
  exists (JObject [("IntegerProp", JFloat KFloat64 (float_of_Z z)); ("StringProp", JString s)]).
  destruct Hz as [->| ->]; (split; [reflexivity|]); eexists; split_and!; reflexivity.
Qed.

Lemma empty_models : memory_models schemaless None empty_state ∅.
Proof.
  split; [|done|done|].
  - intros c e Hc. cbn in Hc. by apply lookup_empty_Some in Hc.
  - intros p _. rewrite lookup_empty. change (contents (new_engine schemaless p.1) !! p.2 = None).
    by rewrite (proj2 (suite_fresh p.1)).
Qed.

Lemma example_contract : AdapterContract is_not_found new_key db (memory_models schemaless).
Proof.
  apply memory_adapter; [exact suite_fresh|done|exact new_key_laws|done|exact struct_codec|exact map_codec|done].
Qed.

Lemma memory_adapter_contract_witness : AdapterContract is_not_found new_key db (memory_models schemaless).
Proof.
  apply memory_adapter_contract; [exact suite_fresh|done|exact new_key_laws|done|exact struct_codec|exact map_codec|done].
Defined.

Lemma adapters_pass_witness :
  ∃ s' events, suite "2024-01-01T00:00:00Z" (Some not_supported) empty_state = (s', events, Ret tt) ∧
    forallb passed events = true ∧
    memory_models schemaless None s' (removed ((E2ETestKind1, "r0") :: all_places) ∅).
Proof.
  exact (adapters_pass is_not_found (λ e, match e with not_supported => true | _ => false end) (λ _ e, e)
    reader_failed new_key 100 true (Time "2024-01-01T00:00:00Z") true db (memory_models schemaless)
    (AdapterContract0 := example_contract) (λ _ _, eq_refl) (λ _, eq_refl) not_supported false empty_state ∅
    eq_refl empty_models (λ _ _, lookup_empty _)).
Defined.

(** The in-memory database passes the whole end-to-end suite, with the
    options of its own test: from an empty database without a schema every
    expectation on single records, on several records and on queries holds, no
    part is skipped, and the database is empty again, at whatever time the suite
    runs. *)
Example memory_passes_suite now :
  (suite now None empty_state).2 = Ret tt ∧
  forallb ran (suite now None empty_state).1.2 = true ∧
  no_records (suite now None empty_state).1.1 = true.
Proof. split_and!; vm_compute; reflexivity. Qed.

(** The order that the tests expect is that of the exported list. *)
Example first_by_population :
  take 3 (CityIDsSortedByPopulation (Time "")) = ["Istanbul_Istanbul"; "Sindh_Karachi"; "Dhaka_Dhaka"].
Proof. vm_compute. reflexivity. Qed.

(** The message of [Validate] asks for a positive number, and zero is valid. *)
Example zero_is_valid : TestData_Validate "x" 0 = None ∧
  TestData_Validate "x" (-1) = Some (BadFieldValue "IntegerProp" "should be > 0, got: -1").
Proof. split; vm_compute; reflexivity. Qed.
End End2EndExamples.
