(* ===== verification/RecordCompare.v ===== *)
(** * Comparing two records field by field
    (src/recordops/types.go, options.go, compare.go)

    A record's data is a dynamic value.  A panic of the reflection calls is the
    result [Panic], which [compareRecords] recovers into an error. *)

From Stdlib Require Import String.
From stdpp Require Import base gmap sets list strings sorting.
From S2P Require Import Prelude StableSort GoValues.

Local Open Scope string_scope.
Local Open Scope nat_scope.
Local Open Scope list_scope.

Record FieldValue := mkFieldValue {
  fv_Name : string;
  fv_Value : value;
  fv_Absent : bool;
}.

(** ** Options *)

Record options := mkOptions {
  ignoreFields : gset string;
  includeMatched : bool;
  onlyChangedFields : bool;
  absentEqualsNil : bool;
}.

Definition Option : Type := options → options.

Definition WithIgnoreFields (names : list string) : Option := λ o,
  mkOptions (ignoreFields o ∪ list_to_set names) (includeMatched o) (onlyChangedFields o)
    (absentEqualsNil o).
Definition WithIncludeMatched : Option := λ o,
  mkOptions (ignoreFields o) true (onlyChangedFields o) (absentEqualsNil o).
Definition WithOnlyChangedFields : Option := λ o,
  mkOptions (ignoreFields o) (includeMatched o) true (absentEqualsNil o).
Definition WithAbsentEqualsNil : Option := λ o,
  mkOptions (ignoreFields o) (includeMatched o) (onlyChangedFields o) true.

(** A nil option is [None]. *)
Definition resolveOptions (opts : list (option Option)) : options :=
  fold_left (λ o opt, match opt with Some f => f o | None => o end) opts
    (mkOptions ∅ false false false).

(** ** Reflection on values *)

Inductive kindBucket := bucketStruct | bucketMap | bucketOther.

#[export] Instance kindBucket_eq_dec : EqDecision kindBucket.
Proof. solve_decision. Defined.

(** All maps of the model have keys of string kind. *)
Definition bucket (v : value) : kindBucket :=
  match v with
  | VStruct _ _ _ => bucketStruct
  | VMap _ _ _ => bucketMap
  | _ => bucketOther
  end.

(** What a non-nil pointer points to. *)
Definition deref (v : value) : value :=
  match v with
  | VPtr _ _ (Some x) => x
  | _ => v
  end.

(** Nil values under [WithAbsentEqualsNil]. *)
Definition isNilLike (v : value) : bool :=
  match v with
  | VNil | VPtr _ _ None | VMap _ _ None | VSlice _ None | VFunc _ None => true
  | _ => false
  end.

Definition map_entries (v : value) : list (string * value) :=
  match v with VMap _ _ (Some l) => l | _ => [] end.

(** [v.MapIndex(reflect.ValueOf(k))]: [None] for a missing key, and a panic when
    the key type is not [string] itself. *)
Definition MapIndex (v : value) (k : string) : res unit (option value) :=
  match v with
  | VMap _ keyty _ =>
      if String.eqb keyty "string" then Ret (assoc k (map_entries v))
      else Panic "reflect.Value.MapIndex: value of type string is not assignable"
  | _ => Panic "reflect: call of reflect.Value.MapIndex on non-map"
  end.

Definition struct_fields (v : value) : list (string * bool * value) :=
  match v with VStruct _ _ l => l | _ => [] end.

(** [v.Field(i).Interface()] *)
Definition FieldInterface (v : value) (i : nat) : res unit value :=
  match struct_fields v !! i with
  | None => Panic "reflect: Field index out of range"
  | Some (_, false, _) => Panic "reflect.Value.Interface: cannot return value obtained from unexported field"
  | Some (_, true, x) => Ret x
  end.

(** Keys of either map, each once; the order of Go's map iteration is lost in
    the sort that follows every use. *)
Definition unionKeys (a b : value) : list string :=
  remove_dups ((map_entries a).*1 ++ (map_entries b).*1).

(** ** Comparing *)

(** The loop of [compareStruct] from field [i]. *)
Fixpoint compareStruct_from (i : nat) (fields : list (string * bool * value)) (cv : value)
    (cfg : options) : res unit (list FieldValue) :=
  match fields with
  | [] => Ret []
  | (name, exported, bf) :: rest =>
      if negb exported || bool_decide (name ∈ ignoreFields cfg)
      then compareStruct_from (S i) rest cv cfg
      else
        do cf <- FieldInterface cv i;
        do deltas <- compareStruct_from (S i) rest cv cfg;
        Ret (if deep_equal bf cf then deltas else mkFieldValue name cf false :: deltas)
  end.

Definition field_less : FieldValue → FieldValue → bool := key_less fv_Name.

Definition compareStruct (bv cv : value) (cfg : options) : res unit (list FieldValue) :=
  do deltas <- compareStruct_from 0 (struct_fields bv) cv cfg;
  Ret (stable_sort field_less deltas).

(** What one key contributes. *)
Definition compare_key (k : string) (bk ck : option value) (cfg : options) : list FieldValue :=
  match bk, ck with
  | Some b, Some c => if deep_equal b c then [] else [mkFieldValue k c false]
  | Some b, None =>
      if absentEqualsNil cfg && isNilLike b then [] else [mkFieldValue k VNil true]
  | None, Some c =>
      if absentEqualsNil cfg && isNilLike c then [] else [mkFieldValue k c false]
  | None, None => []
  end.

Fixpoint compare_keys (keys : list string) (bv cv : value) (cfg : options)
  : res unit (list FieldValue) :=
  match keys with
  | [] => Ret []
  | k :: rest =>
      if bool_decide (k ∈ ignoreFields cfg) then compare_keys rest bv cv cfg
      else
        do bk <- MapIndex bv k;
        do ck <- MapIndex cv k;
        do deltas <- compare_keys rest bv cv cfg;
        Ret (compare_key k bk ck cfg ++ deltas)
  end.

Definition compareMap (bv cv : value) (cfg : options) : res unit (list FieldValue) :=
  compare_keys (sort_strings (unionKeys bv cv)) bv cv cfg.

(** [ErrIncomparableField], with the panic's message. *)
Inductive compare_error := ErrIncomparableField (msg : string).

Definition compare_data (base cand : value) (cfg : options) : res unit (list FieldValue) :=
  let bv := deref base in
  let cv := deref cand in
  if negb (bool_decide (bucket bv = bucket cv)) then Ret [mkFieldValue "_value" cand false]
  else
    match bucket bv with
    | bucketStruct => compareStruct bv cv cfg
    | bucketMap => compareMap bv cv cfg
    | bucketOther =>
        if deep_equal base cand then Ret [] else Ret [mkFieldValue "_value" cand false]
    end.

(** The deferred function turns a panic into an error. *)
Definition compareRecords (base cand : value) (cfg : options)
  : res compare_error (list FieldValue) :=
  match compare_data base cand cfg with
  | Ret deltas => Ret deltas
  | Fail _ => Ret []
  | Panic msg => Fail (ErrIncomparableField msg)
  end.

(** ** Snapshots *)

Definition extractAllFields (data : value) : res unit (list FieldValue) :=
  let v := deref data in
  match bucket v with
  | bucketStruct =>
      Ret (flat_map (λ f : string * bool * value,
             if f.1.2 then [mkFieldValue f.1.1 f.2 false] else []) (struct_fields v))
  | bucketMap =>
      traverse (λ _ k,
        do x <- MapIndex v k;
        match x with
        | Some x => Ret (mkFieldValue k x false)
        | None => Panic "reflect: call of reflect.Value.Interface on zero Value"
        end) (sort_strings (map_entries v).*1)
  | bucketOther => Ret [mkFieldValue "_value" data false]
  end.

Definition baselineFields (data : value) (perCandidateDeltas : list (list FieldValue))
    (cfg : options) : res unit (list FieldValue) :=
  do all <- extractAllFields data;
  if negb (onlyChangedFields cfg) then Ret all
  else
    let deltaNames : gset string :=
      list_to_set (fv_Name <$> List.concat perCandidateDeltas) in
    if bool_decide (deltaNames = ∅) then Ret []
    else Ret (List.filter (λ fv, bool_decide (fv_Name fv ∈ deltaNames)) all).

(** ** What the comparison finds *)

Lemma unionKeys_elem k a b : k ∈ unionKeys a b ↔ k ∈ (map_entries a).*1 ∨ k ∈ (map_entries b).*1.
Proof. unfold unionKeys. by rewrite elem_of_remove_dups, elem_of_app. Qed.

Lemma unionKeys_NoDup a b : NoDup (unionKeys a b).
Proof. apply NoDup_remove_dups. Qed.

(** A map with keys of type [string]. *)
Definition string_map (v : value) : Prop :=
  match v with VMap _ keyty _ => keyty = "string" | _ => False end.

Lemma MapIndex_string v k : string_map v → MapIndex v k = Ret (assoc k (map_entries v)).
Proof. destruct v; simpl; try done. by intros ->. Qed.

Lemma string_map_bucket v : string_map v → bucket v = bucketMap.
Proof. by destruct v. Qed.

Lemma compare_keys_Ret keys bv cv cfg :
  string_map bv → string_map cv →
  compare_keys keys bv cv cfg =
  Ret (flat_map (λ k, if bool_decide (k ∈ ignoreFields cfg) then []
                      else compare_key k (assoc k (map_entries bv)) (assoc k (map_entries cv)) cfg)
         keys).
Proof.
  intros Hb Hc. induction keys as [|k keys IH]; simpl; [done|].
  case_bool_decide; [done|]. rewrite !MapIndex_string by done. simpl. by rewrite IH.
Qed.

(** Of one key at most one delta, with that name. *)
Lemma compare_key_name k b c cfg fv : fv ∈ compare_key k b c cfg → fv_Name fv = k.
Proof. unfold compare_key. intros H. repeat case_match; set_solver. Qed.

Lemma flat_map_keys_sorted (f : string → list FieldValue) keys :
  StronglySorted string_lt keys →
  (∀ k fv, fv ∈ f k → fv_Name fv = k) → (∀ k, length (f k) ≤ 1) →
  StronglySorted (λ a b, string_lt (fv_Name a) (fv_Name b)) (flat_map f keys).
Proof.
  intros Hs Hn Hl. induction Hs as [|k keys _ IH Hk]; simpl; [constructor|].
  pose proof (Hl k) as Hlk. pose proof (Hn k) as Hnk.
  destruct (f k) as [|fv [|? ?]]; simpl in *; [done| |lia]. constructor; [done|].
  apply Forall_forall. intros g Hg%list_elem_of_In. apply in_flat_map in Hg as (k' & Hk' & Hg).
  apply list_elem_of_In in Hk', Hg. rewrite (Hn k' g Hg), (Hnk fv) by set_solver.
  rewrite Forall_forall in Hk. by apply Hk.
Qed.

Lemma compareMap_Ret bv cv cfg :
  string_map bv → string_map cv →
  ∃ deltas, compareMap bv cv cfg = Ret deltas ∧
    StronglySorted (λ a b, string_lt (fv_Name a) (fv_Name b)) deltas ∧
    ∀ fv, fv ∈ deltas ↔ fv_Name fv ∉ ignoreFields cfg ∧
      fv ∈ compare_key (fv_Name fv) (assoc (fv_Name fv) (map_entries bv))
             (assoc (fv_Name fv) (map_entries cv)) cfg.
Proof.
  intros Hb Hc. unfold compareMap. rewrite compare_keys_Ret by done.
  eexists. split; [reflexivity|]. split.
  - apply flat_map_keys_sorted; [apply sort_strings_strict, unionKeys_NoDup| |].
    + intros k fv. case_bool_decide; [set_solver|]. apply compare_key_name.
    + intros k. case_bool_decide; simpl; [lia|]. unfold compare_key.
      repeat case_match; simpl; lia.
  - intros fv. rewrite list_elem_of_In, in_flat_map. split.
    + intros (k & _ & Hin). apply list_elem_of_In in Hin. case_bool_decide; [set_solver|].
      by rewrite (compare_key_name _ _ _ _ _ Hin) in *.
    + intros [Hi Hin]. exists (fv_Name fv). split.
      * apply list_elem_of_In, sort_strings_elem, unionKeys_elem.
        unfold compare_key in Hin.
        destruct (assoc (fv_Name fv) (map_entries bv)) as [x|] eqn:E1.
        { left. apply assoc_Some_elem in E1. by apply (list_elem_of_fmap_2 fst) in E1. }
        destruct (assoc (fv_Name fv) (map_entries cv)) as [x|] eqn:E2; [|set_solver].
        right. apply assoc_Some_elem in E2. by apply (list_elem_of_fmap_2 fst) in E2.
      * rewrite bool_decide_eq_false_2 by done. by apply list_elem_of_In.
Qed.

(** ** Properties *)

Local Ltac destruct_exists :=
  repeat match goal with
  | H : ∃ _, _ |- _ => destruct H
  | H : _ ∧ _ |- _ => destruct H
  end.

(** On two records whose data are maps, [compareRecords] succeeds and
    returns, in strictly ascending order of names, exactly one delta for every
    name that is not ignored and whose values differ, is missing on one side,
    or is missing with a value that counts on the other side. *)
Theorem compareRecords_maps base cand cfg
    (Hb : string_map (deref base)) (Hc : string_map (deref cand)) :
  ∃ deltas, compareRecords base cand cfg = Ret deltas ∧
    StronglySorted (λ a b, string_lt (fv_Name a) (fv_Name b)) deltas ∧
    ∀ k x absent, mkFieldValue k x absent ∈ deltas ↔
      let b := assoc k (map_entries (deref base)) in
      let c := assoc k (map_entries (deref cand)) in
      k ∉ ignoreFields cfg ∧
      ((∃ y, b = Some y ∧ c = Some x ∧ absent = false ∧ deep_equal y x = false) ∨
       (∃ y, b = Some y ∧ c = None ∧ absent = true ∧ x = VNil ∧
             (absentEqualsNil cfg = true → isNilLike y = false)) ∨
       (b = None ∧ c = Some x ∧ absent = false ∧
             (absentEqualsNil cfg = true → isNilLike x = false))).
Proof.
  destruct (compareMap_Ret (deref base) (deref cand) cfg Hb Hc) as (deltas & E & Hs & Hd).
  exists deltas. split_and!; [|done|].
  - unfold compareRecords, compare_data. rewrite (string_map_bucket _ Hb), (string_map_bucket _ Hc).
    simpl. by rewrite E.
  - intros k x ab. rewrite Hd. simpl. unfold compare_key. clear Hd Hs E Hb Hc.
    destruct (assoc k (map_entries (deref base))) as [y|],
      (assoc k (map_entries (deref cand))) as [z|].
    + destruct (deep_equal y z) eqn:Eq; rewrite ?elem_of_nil, ?list_elem_of_singleton;
        split; intros [? Hx]; destruct_or? Hx; destruct_exists; simplify_eq; try congruence; eauto 8.
    + destruct (absentEqualsNil cfg), (isNilLike y) eqn:Ey; simpl;
        rewrite ?elem_of_nil, ?list_elem_of_singleton;
        split; intros [? Hx]; destruct_or? Hx; destruct_exists; simplify_eq; try (intuition congruence); eauto 12.
    + destruct (absentEqualsNil cfg), (isNilLike z) eqn:Ez; simpl;
        rewrite ?elem_of_nil, ?list_elem_of_singleton;
        split; intros [? Hx]; destruct_or? Hx; destruct_exists; simplify_eq; try (intuition congruence); eauto 12.
    + rewrite elem_of_nil; split; intros [? Hx]; destruct_or? Hx; destruct_exists; simplify_eq.
Qed.

(** The value of a key after the deltas are applied to the baseline. *)
Definition patched (base : list (string * value)) (deltas : list FieldValue) (k : string)
  : option value :=
  match List.find (λ fv, String.eqb k (fv_Name fv)) deltas with
  | Some fv => if fv_Absent fv then None else Some (fv_Value fv)
  | None => assoc k base
  end.

Lemma find_name k deltas fv :
  List.find (λ fv, String.eqb k (fv_Name fv)) deltas = Some fv → fv ∈ deltas ∧ fv_Name fv = k.
Proof.
  intros [Hin Hn]%find_some. apply String.eqb_eq in Hn as ->. split; [|done].
  by apply list_elem_of_In.
Qed.

Lemma find_name_None k deltas fv :
  List.find (λ fv, String.eqb k (fv_Name fv)) deltas = None → fv ∈ deltas → fv_Name fv ≠ k.
Proof.
  intros Hf Hin ->%eq_sym. eapply find_none in Hf; [|by apply list_elem_of_In].
  by rewrite String.eqb_refl in Hf.
Qed.

(** The deltas are complete: with no option that hides differences,
    applying them to the baseline's map gives the candidate's map, key by key,
    up to [reflect.DeepEqual]. *)
Theorem deltas_rebuild_candidate base cand cfg
    (Hb : string_map (deref base)) (Hc : string_map (deref cand))
    (Hi : ignoreFields cfg = ∅) (Ha : absentEqualsNil cfg = false) :
  ∃ deltas, compareRecords base cand cfg = Ret deltas ∧
    ∀ k, match patched (map_entries (deref base)) deltas k, assoc k (map_entries (deref cand)) with
         | Some x, Some y => x = y ∨ deep_equal x y = true
         | None, None => True
         | _, _ => False
         end.
Proof.
  destruct (compareMap_Ret (deref base) (deref cand) cfg Hb Hc) as (deltas & E & Hs & Hd).
  exists deltas. split.
  { unfold compareRecords, compare_data. rewrite (string_map_bucket _ Hb), (string_map_bucket _ Hc).
    simpl. by rewrite E. }
  intros k. unfold patched. destruct (List.find _ deltas) as [fv|] eqn:Ef.
  - apply find_name in Ef as [Hin <-]. apply Hd in Hin as [_ Hin]. unfold compare_key in Hin.
    rewrite Ha in Hin. simpl in Hin.
    repeat case_match; simplify_eq/=; try (rewrite list_elem_of_singleton in Hin; destruct fv);
      simplify_eq/=; try set_solver.
  - assert (∀ fv, fv_Name fv = k → fv ∉ compare_key k (assoc k (map_entries (deref base)))
        (assoc k (map_entries (deref cand))) cfg) as Hno.
    { intros fv <- Hin. eapply find_name_None; [exact Ef| |reflexivity]. apply Hd.
      split; [|done]. rewrite Hi. set_solver. }
    unfold compare_key in Hno. rewrite Ha in Hno. simpl in Hno.
    repeat case_match; simplify_eq/=; try done; try by right.
    all: exfalso; eapply Hno; [|by apply list_elem_of_singleton]; done.
Qed.

Lemma compareStruct_from_same i pre fields cfg ty c :
  length pre = i → forallb (λ fv, plain fv.2) fields = true →
  compareStruct_from i fields (VStruct ty c (pre ++ fields)) cfg = Ret [].
Proof.
  revert i pre. induction fields as [|[[n ex] x] fields IH]; intros i pre Hi Hp; [done|].
  cbn [compareStruct_from forallb snd] in *. to_prop.
  assert (compareStruct_from (S i) fields (VStruct ty c (pre ++ (n, ex, x) :: fields)) cfg = Ret [])
    as Hrest.
  { pose proof (IH (S i) (pre ++ [(n, ex, x)])) as Hn. rewrite <- app_assoc in Hn. apply Hn.
    - rewrite length_app. simpl. lia.
    - done. }
  destruct (negb ex || _) eqn:Eskip; [done|]. to_prop.
  unfold FieldInterface. cbn [struct_fields].
  rewrite lookup_app_r, Hi, Nat.sub_diag by lia. simpl. subst ex. simpl. rewrite Hrest. simpl.
  by rewrite deep_equal_refl.
Qed.

Lemma flat_map_all_nil {A B} (f : A → list B) l : (∀ x, f x = []) → flat_map f l = [].
Proof. intros Hf. induction l as [|x l IH]; simpl; [done|]. by rewrite Hf, IH. Qed.

(** A value whose comparison with itself does not panic: not a map with a named
    key type. *)
Definition comparable_data (v : value) : Prop :=
  bucket (deref v) = bucketMap → string_map (deref v).

Lemma compare_same v cfg (Hp : plain v = true) (Hc : comparable_data v) :
  compareRecords v v cfg = Ret [].
Proof.
  unfold compareRecords, compare_data. rewrite bool_decide_eq_true_2 by done. cbn [negb].
  assert (plain (deref v) = true) as Hpd by (destruct v; try done; by destruct target).
  destruct (bucket (deref v)) eqn:Eb.
  - unfold compareStruct. destruct (deref v) as [| | | | | | | | |ty c fields| |]; try done.
    cbn [struct_fields]. rewrite (compareStruct_from_same 0 []) by done. done.
  - specialize (Hc Eb). unfold compareMap. rewrite compare_keys_Ret by done.
    f_equal. apply flat_map_all_nil. intros k. case_bool_decide; [done|].
    destruct (deref v) as [| | | | | | | |ty kty [l|]| | |]; try done. cbn [map_entries].
    cbn in Hpd. to_prop. unfold compare_key.
    destruct (assoc k l) as [x|] eqn:Ex; [|done]. apply assoc_Some_elem in Ex.
    rewrite deep_equal_refl; [done|].
    match goal with H : forallb _ _ = true |- _ => rewrite forallb_forall in H;
      apply (H (k, x)); by apply list_elem_of_In end.
  - by rewrite deep_equal_refl.
Qed.

(** Comparing a record with itself gives no delta, whatever the options,
    when its data hold no NaN and no function and its maps have distinct keys:
    then the record is Matched. *)
Theorem compareRecords_same v cfg (Hp : plain v = true) (Hc : comparable_data v) :
  compareRecords v v cfg = Ret [].
Proof. by apply compare_same. Qed.

(** ** Examples *)

Module CompareExamples.

Definition base : value := VPtr "*map[string]interface {}" 1
  (Some (vmap [("name", vstr "Ann"); ("age", vint 30); ("tmp", VNil)])).
Definition cand : value := vmap [("age", vint 31); ("name", vstr "Ann"); ("email", vstr "a@x")].
Definition no_options : options := resolveOptions [].

Lemma compareRecords_maps_witness :
  ∃ deltas, compareRecords base cand (resolveOptions [Some WithAbsentEqualsNil]) = Ret deltas ∧
    mkFieldValue "age" (vint 31) false ∈ deltas.
Proof.
  destruct (compareRecords_maps base cand (resolveOptions [Some WithAbsentEqualsNil]) eq_refl eq_refl)
    as (deltas & E & _ & Hd).
  exists deltas. split; [exact E|]. apply Hd. simpl. split; [set_solver|].
  left. exists (vint 30). done.
Defined.

Lemma deltas_rebuild_candidate_witness :
  ∃ deltas, compareRecords base cand no_options = Ret deltas ∧
    patched (map_entries (deref base)) deltas "tmp" = None.
Proof.
  destruct (deltas_rebuild_candidate base cand no_options eq_refl eq_refl eq_refl eq_refl)
    as (deltas & E & Hk).
  exists deltas. split; [exact E|]. specialize (Hk "tmp").
  simpl in Hk. destruct (patched _ deltas "tmp"); [done|reflexivity].
Defined.

Lemma compareRecords_same_witness : compareRecords base base no_options = Ret [].
Proof.
  apply (compareRecords_same base no_options); [vm_compute; reflexivity|]. intros _. reflexivity.
Defined.
End CompareExamples.
