(* ===== verification/RecordDiff.v ===== *)
(** * The K-way merge of sorted record streams (src/recordops/diff.go, bridge.go)

    A stream is the finite list of the pairs it yields.  The consumer of the
    result is a state machine: [yield] gives its next state and whether it wants
    more.  The loop carries fuel; [DiffFunc] starts it with more than the number
    of records, which [DiffFunc_terminates] shows to be enough when every
    identifier equals itself.  Identifiers are compared by the [==] of their Go
    type ([go_eqb]), which a float that is not a number does not satisfy: then
    the loop has no end ([unequal_id_never_ends]). *)

From Stdlib Require Import String SpecFloat.
From stdpp Require Import base gmap sets list strings sorting pretty.
From S2P Require Import Prelude StableSort GoValues RecordCompare.

Local Open Scope string_scope.
Local Open Scope nat_scope.
Local Open Scope list_scope.

Inductive RecordStatus := Missing | Extra | Matched | Changed.

#[export] Instance RecordStatus_eq_dec : EqDecision RecordStatus.
Proof. solve_decision. Defined.

Record CandidateState := mkCandidateState {
  cs_Status : RecordStatus;
  cs_Fields : list FieldValue;
}.

Record RecordSnapshot := mkRecordSnapshot { snap_Fields : list FieldValue }.

Record IDDiff (K : Type) := mkIDDiff {
  dd_ID : K;
  dd_Baseline : option RecordSnapshot;
  dd_Candidates : list CandidateState;
}.
Arguments mkIDDiff {K} _ _ _.
Arguments dd_ID {K} _.
Arguments dd_Baseline {K} _.
Arguments dd_Candidates {K} _.

(** A [record.WithID[K]]: the ID and the record's data. *)
Record WithID (K : Type) := mkWithID { w_ID : K; w_Data : value }.
Arguments mkWithID {K} _ _.
Arguments w_ID {K} _.
Arguments w_Data {K} _.

(** [==] on a comparable type. *)
Class GoEq (K : Type) := go_eqb : K → K → bool.

(** It is equality, as on strings, integers and arrays of them; not on floats:
    a NaN is not equal to itself, and the two zeros are. *)
Class GoEqLaws (K : Type) `{!GoEq K} : Prop := go_eqb_eq (a b : K) : go_eqb a b = true ↔ a = b.

#[export] Instance go_eq_string : GoEq string := String.eqb.
#[export] Instance go_eq_string_laws : GoEqLaws string.
Proof. intros a b. apply String.eqb_eq. Qed.
#[export] Instance go_eq_nat : GoEq nat := Nat.eqb.
#[export] Instance go_eq_nat_laws : GoEqLaws nat.
Proof. intros a b. apply Nat.eqb_eq. Qed.
#[export] Instance go_eq_float : GoEq spec_float := SFeqb.

Lemma go_eqb_decide {K} `{!EqDecision K, !GoEq K, !GoEqLaws K} (a b : K) : go_eqb a b = bool_decide (a = b).
Proof. apply eq_true_iff_eq. by rewrite go_eqb_eq, bool_decide_eq_true. Qed.

Section Diff.
Context {K : Type} `{!GoEq K} {E : Type}.

(** Errors of a diff; [E] holds the errors of the streams. *)
Inductive diff_error :=
| ErrUnsortedInput (id : K) (name : string)
| ErrDuplicateID (id : K) (name : string)
| ErrIncomparable (id : K) (e : compare_error)
| ErrInvalidArgument
| StreamError (e : E).

(** One step of a source stream: a record, or its error. *)
Definition item : Type := WithID K + E.
Definition RecordSeq : Type := list item.

(** [SliceToSeq]: a stream without errors. *)
Definition SliceToSeq (records : list (WithID K)) : RecordSeq := inl <$> records.

Context (zero : WithID K).

Record streamCursor := mkCursor {
  cur_name : string;
  cur_rest : RecordSeq;
  cur_live : bool;
  cur_id : K;
  cur_rec : WithID K;
  cur_prev : K;
  cur_hasPrev : bool;
}.

Definition newCursor (s : RecordSeq) (name : string) : streamCursor :=
  mkCursor name s true (w_ID zero) zero (w_ID zero) false.

Definition set_live (c : streamCursor) (rest : RecordSeq) (live : bool) : streamCursor :=
  mkCursor (cur_name c) rest live (cur_id c) (cur_rec c) (cur_prev c) (cur_hasPrev c).

Section Less.
Context (less : K → K → bool).

(** The cursor after the call, and the error. *)
Definition advance (c : streamCursor) : streamCursor * option diff_error :=
  match cur_rest c with
  | [] => (set_live c [] false, None)
  | inr e :: rest => (set_live c rest false, Some (StreamError e))
  | inl r :: rest =>
      if cur_hasPrev c && negb (less (cur_prev c) (w_ID r)) then
        (set_live c rest (cur_live c),
         Some (if go_eqb (cur_prev c) (w_ID r) then ErrDuplicateID (w_ID r) (cur_name c)
               else ErrUnsortedInput (w_ID r) (cur_name c)))
      else
        (mkCursor (cur_name c) rest (cur_live c) (w_ID r) r (w_ID r) true, None)
  end.

(** Advances the cursors that satisfy [p], in order, up to the first error. *)
Fixpoint advance_all (p : streamCursor → bool) (cs : list streamCursor)
  : list streamCursor * option diff_error :=
  match cs with
  | [] => ([], None)
  | c :: rest =>
      if p c then
        match advance c with
        | (c', Some e) => (c' :: rest, Some e)
        | (c', None) => let '(rest', e) := advance_all p rest in (c' :: rest', e)
        end
      else let '(rest', e) := advance_all p rest in (c :: rest', e)
  end.

(** The closure [consider] on the smallest ID so far. *)
Definition consider (c : streamCursor) (smallest : option K) : option K :=
  if negb (cur_live c) then smallest
  else
    match smallest with
    | None => Some (cur_id c)
    | Some s => if less (cur_id c) s then Some (cur_id c) else Some s
    end.

(** [None]: no cursor is live. *)
Definition smallestID (base : streamCursor) (cands : list streamCursor) : option K :=
  fold_left (λ s c, consider c s) (base :: cands) None.

Definition at_id (id : K) (c : streamCursor) : bool :=
  cur_live c && go_eqb (cur_id c) id.

(** The record of a cursor that is at [id]. *)
Definition record_at (id : K) (c : streamCursor) : option (WithID K) :=
  if at_id id c then Some (cur_rec c) else None.

(** Panics of [extractAllFields] go through. *)
Definition lift_panic {A} (m : res unit A) : res diff_error A :=
  match m with
  | Ret a => Ret a
  | Fail _ => Panic "unreachable"
  | Panic msg => Panic msg
  end.

Definition classify (base cand : option (WithID K)) (cfg : options)
  : res diff_error CandidateState :=
  match cand, base with
  | None, _ => Ret (mkCandidateState Missing [])
  | Some c, None =>
      do fields <- lift_panic (extractAllFields (w_Data c)); Ret (mkCandidateState Extra fields)
  | Some c, Some b =>
      do deltas <- rmap_error (ErrIncomparable (w_ID b))
                     (compareRecords (w_Data b) (w_Data c) cfg);
      match deltas with
      | [] => Ret (mkCandidateState Matched [])
      | _ => Ret (mkCandidateState Changed deltas)
      end
  end.

Definition buildBaselineSnapshot (base : WithID K) (cs : list CandidateState) (cfg : options)
  : res diff_error RecordSnapshot :=
  do fields <- lift_panic (baselineFields (w_Data base) (cs_Fields <$> cs) cfg);
  Ret (mkRecordSnapshot fields).

(** The diff of one ID, from the records that have it. *)
Definition assemble (id : K) (base : option (WithID K)) (cands : list (option (WithID K)))
    (cfg : options) : res diff_error (IDDiff K) :=
  do states <- traverse (λ _ c, classify base c cfg) cands;
  match base with
  | None => Ret (mkIDDiff id None states)
  | Some b => do snapshot <- buildBaselineSnapshot b states cfg; Ret (mkIDDiff id (Some snapshot) states)
  end.

Definition assembleIDDiff (id : K) (base : streamCursor) (cands : list streamCursor)
    (cfg : options) : res diff_error (IDDiff K) :=
  assemble id (record_at id base) (record_at id <$> cands) cfg.

Definition shouldEmit (d : IDDiff K) (cfg : options) : bool :=
  includeMatched cfg ||
  existsb (λ c, negb (bool_decide (cs_Status c = Matched))) (dd_Candidates d).

(** ** The loop *)

(** What is yielded: a diff, or the error that ends the stream. *)
Definition out : Type := IDDiff K + diff_error.

Context {S : Type} (yield : out → S → S * bool).

(** Ends the stream with an error. *)
Definition yield_error (e : diff_error) (s : S) : S := (yield (inr e) s).1.

(** [None]: out of fuel. *)
Fixpoint merge_loop (fuel : nat) (base : streamCursor) (cands : list streamCursor)
    (cfg : options) (s : S) : option (res unit S) :=
  match fuel with
  | O => None
  | Datatypes.S fuel =>
      match smallestID base cands with
      | None => Some (Ret s)
      | Some id =>
          match assembleIDDiff id base cands cfg with
          | Panic msg => Some (Panic msg)
          | Fail e => Some (Ret (yield_error e s))
          | Ret diff =>
              match advance_all (at_id id) (base :: cands) with
              | (_, Some e) => Some (Ret (yield_error e s))
              | (base' :: cands', None) =>
                  if shouldEmit diff cfg then
                    let '(s', more) := yield (inl diff) s in
                    if more then merge_loop fuel base' cands' cfg s' else Some (Ret s')
                  else merge_loop fuel base' cands' cfg s
              | ([], None) => Some (Panic "unreachable")
              end
          end
      end
  end.
End Less.

(** The names of the candidates' cursors: [candidates[i]]. *)
Definition candidate_name (i : nat) : string := "candidates[" +:+ pretty (Z.of_nat i) +:+ "]".

Definition DiffFunc (baseline : RecordSeq) (candidates : list RecordSeq)
    (less : option (K → K → bool)) (opts : list (option Option))
    {S : Type} (yield : out → S → S * bool) (s : S) : option (res unit S) :=
  let cfg := resolveOptions opts in
  match less with
  | None => Some (Ret (yield_error yield ErrInvalidArgument s))
  | Some less =>
      let baseCur := newCursor baseline "baseline" in
      let candCurs := imap (λ i c, newCursor c (candidate_name i)) candidates in
      match advance_all less (λ _, true) (baseCur :: candCurs) with
      | (_, Some e) => Some (Ret (yield_error yield e s))
      | (baseCur' :: candCurs', None) =>
          let fuel := Datatypes.S (length baseline + sum_list (length <$> candidates)) in
          merge_loop less yield fuel baseCur' candCurs' cfg s
      | ([], None) => Some (Panic "unreachable")
      end
  end.
End Diff.

(** ** Termination *)

Section Termination.
Context {K : Type} `{!GoEq K} {E : Type}.
Notation cursor := (@streamCursor K E).

(** Records a cursor still has to give. *)
Definition cursor_size (c : cursor) : nat :=
  (if cur_live c then 1 else 0) + length (cur_rest c).

Definition cursors_size (cs : list cursor) : nat := sum_list (cursor_size <$> cs).

Lemma cursors_size_cons c cs : cursors_size (c :: cs) = cursor_size c + cursors_size cs.
Proof. done. Qed.

Context (less : K → K → bool).

Lemma advance_size (c c' : cursor) :
  advance less c = (c', None) → cur_live c = true → cursor_size c' < cursor_size c.
Proof.
  unfold advance, cursor_size. intros Ha Hl.
  destruct (cur_rest c) as [|[r|e] rest]; simplify_eq/=; rewrite ?Hl; [simpl; lia|].
  case_match; simplify_eq/=. rewrite Hl. lia.
Qed.

Lemma advance_all_size (p : cursor → bool) cs cs' :
  (∀ c, c ∈ cs → p c = true → cur_live c = true) →
  advance_all less p cs = (cs', None) →
  length cs' = length cs ∧ cursors_size cs' ≤ cursors_size cs ∧
  ((∃ c, c ∈ cs ∧ p c = true) → cursors_size cs' < cursors_size cs).
Proof.
  revert cs'. induction cs as [|c cs IH]; intros cs' Hp Ha; simpl in Ha.
  - simplify_eq. split_and!; [done|done|set_solver].
  - assert (∀ c, c ∈ cs → p c = true → cur_live c = true) as Hp' by set_solver.
    rewrite (cursors_size_cons c cs). destruct (p c) eqn:Epc.
    + destruct (advance less c) as [c1 [e|]] eqn:Eadv; [done|].
      destruct (advance_all less p cs) as [rest' o] eqn:Erest. simplify_eq.
      destruct (IH rest' Hp' eq_refl) as (Hlen & Hle & _).
      pose proof (advance_size c c1 Eadv (Hp c ltac:(set_solver) Epc)).
      rewrite cursors_size_cons. simpl. split_and!; [lia..|]. intros _. lia.
    + destruct (advance_all less p cs) as [rest' o] eqn:Erest. simplify_eq.
      destruct (IH rest' Hp' eq_refl) as (Hlen & Hle & Hlt).
      rewrite cursors_size_cons. simpl. split_and!; [lia..|]. intros (x & [->|Hx]%elem_of_cons & Hpx); [congruence|].
      assert (∃ c, c ∈ cs ∧ p c = true) as Hex by eauto. specialize (Hlt Hex). lia.
Qed.

Lemma fold_consider_live (s : option K) (cs : list cursor) id :
  fold_left (λ s c, consider less c s) cs s = Some id →
  s = Some id ∨ ∃ c, c ∈ cs ∧ cur_live c = true ∧ cur_id c = id.
Proof.
  revert s. induction cs as [|c cs IH]; intros s Hf; simpl in Hf; [by left|].
  destruct (IH _ Hf) as [Hc|(x & Hx & ?)]; [|right; exists x; set_solver].
  unfold consider in Hc. destruct (cur_live c) eqn:El; simpl in Hc; [|by left].
  destruct s as [s|]; [destruct (less (cur_id c) s)|]; simplify_eq;
    first [by left | right; exists c; set_solver].
Qed.

(** Every identifier that the cursor still gives equals itself. *)
Definition reflexive_id (id : K) : Prop := go_eqb id id = true.
Definition reflexive_item (i : @item K E) : Prop := match i with inl r => reflexive_id (w_ID r) | inr _ => True end.
Definition reflexive_ids (c : cursor) : Prop :=
  (cur_live c = true → reflexive_id (cur_id c)) ∧ Forall reflexive_item (cur_rest c).

Lemma advance_reflexive (c c' : cursor) :
  Forall reflexive_item (cur_rest c) → advance less c = (c', None) → reflexive_ids c'.
Proof.
  unfold advance, reflexive_ids. intros Hr Ha.
  destruct (cur_rest c) as [|[r|e] rest]; simplify_eq/=; [done|].
  apply Forall_cons in Hr as [Hr Hrest]. by case_match; simplify_eq/=.
Qed.

Lemma advance_all_reflexive (p : cursor → bool) cs cs' :
  Forall (λ c, Forall reflexive_item (cur_rest c) ∧ (p c = false → reflexive_ids c)) cs →
  advance_all less p cs = (cs', None) → Forall reflexive_ids cs'.
Proof.
  revert cs'. induction cs as [|c cs IH]; intros cs' Hcs Ha; simpl in Ha; simplify_eq; [done|].
  apply Forall_cons in Hcs as [[Hc Hc'] Hcs]. destruct (p c).
  - destruct (advance less c) as [c1 [e|]] eqn:Ec; [done|].
    destruct (advance_all less p cs) as [rest o] eqn:Er. simplify_eq.
    constructor; [by eapply advance_reflexive|by apply IH].
  - destruct (advance_all less p cs) as [rest o] eqn:Er. simplify_eq.
    constructor; [by apply Hc'|by apply IH].
Qed.

Lemma smallestID_at base (cands : list cursor) id :
  Forall reflexive_ids (base :: cands) →
  smallestID less base cands = Some id → ∃ c, c ∈ base :: cands ∧ at_id id c = true.
Proof.
  intros Hr Hs. destruct (fold_consider_live None (base :: cands) id Hs) as [?|(c & Hc & Hl & Hi)];
    [done|].
  exists c. split; [done|]. rewrite Forall_forall in Hr. destruct (Hr c Hc) as [Hid _].
  specialize (Hid Hl). unfold at_id. subst id. by rewrite Hl, Hid.
Qed.

Lemma merge_loop_fuel {S} (yield : out → S → S * bool) fuel base (cands : list cursor) cfg s :
  Forall reflexive_ids (base :: cands) → cursors_size (base :: cands) < fuel →
  is_Some (merge_loop less yield fuel base cands cfg s).
Proof.
  revert base cands s. induction fuel as [|fuel IH]; intros base cands s Hr Hf; [lia|]. simpl.
  destruct (smallestID less base cands) as [id|] eqn:Eid; [|by eexists].
  destruct (assembleIDDiff id base cands cfg) as [diff|e|msg]; [|by eexists..].
  destruct (advance_all less (at_id id) (base :: cands)) as [cs [e|]] eqn:Eadv.
  { cbn in Eadv. rewrite Eadv. by destruct cs; eexists. }
  cbn in Eadv. rewrite Eadv.
  destruct (advance_all_size (at_id id) (base :: cands) cs) as (Hlen & _ & Hlt); [|exact Eadv|].
  { intros c _ Hc. unfold at_id in Hc. by to_prop. }
  specialize (Hlt (smallestID_at _ _ _ Hr Eid)).
  assert (Forall reflexive_ids cs) as Hr'.
  { apply (advance_all_reflexive (at_id id) (base :: cands) cs); [|exact Eadv]. eapply Forall_impl; [exact Hr|]. intros c Hc. by split; [apply Hc|]. }
  destruct cs as [|base' cands']; [done|].
  assert (cursors_size (base' :: cands') < fuel) as Hf' by lia.
  destruct (shouldEmit diff cfg); [|by apply IH].
  destruct (yield (inl diff) s) as [s' []]; [by apply IH|by eexists].
Qed.

Lemma advance_all_none (p : cursor → bool) cs :
  Forall (λ c, p c = false) cs → advance_all less p cs = (cs, None).
Proof. induction 1 as [|c cs Hc _ IH]; [done|]. simpl. by rewrite Hc, IH. Qed.

(** When no cursor is at the smallest identifier, since it does not equal
    itself, none advances: the loop stays where it is, on any fuel, for a
    consumer that always wants more. *)
Lemma stuck_never_ends {S} (yield : out → S → S * bool) fuel base (cands : list cursor) cfg s id :
  (∀ o s, (yield o s).2 = true) →
  smallestID less base cands = Some id → Forall (λ c, at_id id c = false) (base :: cands) →
  merge_loop less yield fuel base cands cfg s = None.
Proof.
  intros Hy Hid Hat. revert s. induction fuel as [|fuel IH]; intros s; [done|]. cbn [merge_loop]. rewrite Hid.
  assert (∀ c, c ∈ base :: cands → record_at id c = None) as Hnone.
  { rewrite Forall_forall in Hat. intros c Hc. unfold record_at. by rewrite Hat. }
  assert (∃ d, assembleIDDiff id base cands cfg = Ret d) as [d ->].
  { unfold assembleIDDiff, assemble, traverse. rewrite Hnone by (by left).
    rewrite (traverse_from_const _ (λ _, mkCandidateState Missing [])); [by eexists|].
    intros j x (c & -> & Hc)%list_elem_of_fmap. rewrite Hnone by (by right). done. }
  assert (advance_all less (at_id id) (base :: cands) = (base :: cands, None)) as ->.
  { by apply advance_all_none. }
  destruct (shouldEmit d cfg); [|apply IH].
  specialize (Hy (inl d) s). destruct (yield (inl d) s) as [s' []]; [apply IH|done].
Qed.
End Termination.

(** ** The merge on sorted streams *)

(** A strict total order on IDs, as [cmp.Less] is. *)
Class StrictTotal {K} (less : K → K → bool) : Prop := {
  less_irrefl a : less a a = false;
  less_trans a b c : less a b = true → less b c = true → less a c = true;
  less_total a b : less a b = false → less b a = false → a = b;
}.

Section Merge.
Context {K : Type} `{!EqDecision K, !GoEq K, !GoEqLaws K} {E : Type}.
Notation cursor := (@streamCursor K E).
Notation records := (list (WithID K)).
Context (less : K → K → bool) `{!StrictTotal less}.

Definition sorted (rs : records) : Prop :=
  StronglySorted (λ a b, less (w_ID a) (w_ID b) = true) rs.

(** The record with an ID. *)
Definition lookup_id (id : K) (rs : records) : option (WithID K) :=
  List.find (λ r, bool_decide (w_ID r = id)) rs.

(** The records at the front of a stream, called [name], that are read after
    [prev] before it ends or an error does, and that error: the stream's own, or
    that of an ID which is not after the one before it. *)
Definition after_prev (prev : option K) (id : K) : bool :=
  match prev with None => true | Some p => less p id end.

Definition order_error (name : string) (prev : option K) (id : K) : @diff_error K E :=
  if bool_decide (prev = Some id) then ErrDuplicateID id name else ErrUnsortedInput id name.

Fixpoint ascending (name : string) (prev : option K) (s : @RecordSeq K E) : records * option (@diff_error K E) :=
  match s with
  | [] => ([], None)
  | inr e :: _ => ([], Some (StreamError e))
  | inl r :: s =>
      if after_prev prev (w_ID r) then let '(rs, e) := ascending name (Some (w_ID r)) s in (r :: rs, e)
      else ([], Some (order_error name prev (w_ID r)))
  end.

(** A cursor whose current record is the first of these, if it has one. *)
Definition at_front (c : cursor) (rs : records) : Prop :=
  match rs with
  | [] => cur_live c = false
  | r :: _ => cur_live c = true ∧ cur_id c = w_ID r ∧ cur_rec c = r
  end.

(** A primed cursor with these records to give, the first being current, and
    then this error, if any. *)
Definition pending (c : cursor) (g : records * option (@diff_error K E)) : Prop :=
  at_front c g.1 ∧
  match g.1 with
  | [] => g.2 = None
  | r :: tl => cur_hasPrev c = true ∧ cur_prev c = w_ID r ∧ ascending (cur_name c) (Some (w_ID r)) (cur_rest c) = (tl, g.2)
  end.

(** The records after those with [id] at the front are gone. *)
Definition drop_id (id : K) (rs : records) : records :=
  match rs with
  | r :: tl => if bool_decide (w_ID r = id) then tl else rs
  | [] => []
  end.

Definition has_id (id : K) (rs : records) : Prop := ∃ r, r ∈ rs ∧ w_ID r = id.

Lemma at_front_at_id c rs id :
  at_front c rs → at_id id c = match rs with r :: _ => bool_decide (w_ID r = id) | [] => false end.
Proof.
  unfold at_id. destruct rs as [|r tl]; simpl; [by intros ->|].
  intros (-> & -> & _). by rewrite go_eqb_decide.
Qed.

Lemma ascending_sorted name prev s rs e :
  ascending name prev s = (rs, e) → sorted rs ∧ Forall (λ r, after_prev prev (w_ID r) = true) rs.
Proof.
  revert prev rs e. induction s as [|[r|e'] s IH]; intros prev rs e Ha; simplify_eq/=;
    [by repeat constructor| |by repeat constructor].
  destruct (after_prev prev (w_ID r)) eqn:Ep; [|simplify_eq; by repeat constructor].
  destruct (ascending name (Some (w_ID r)) s) as [rs' e'] eqn:Es. simplify_eq.
  destruct (IH _ _ _ Es) as [Hs Hf]. split; constructor; [done|done|done|].
  eapply Forall_impl; [exact Hf|]. intros x Hx. destruct prev as [p|]; [|done]. simpl in *. by eapply less_trans.
Qed.

(** Reading on from the current record: the next one, the end, or the error. *)
Lemma advance_pending c r tl e :
  pending c (r :: tl, e) →
  match tl, e with
  | [], Some e => ∃ c', advance less c = (c', Some e)
  | _, _ => ∃ c', advance less c = (c', None) ∧ pending c' (tl, e)
  end.
Proof.
  intros ((Hl & Hid & Hrec) & Hp & Hprev & Hrest). simpl in Hid, Hrec, Hprev, Hrest. unfold advance.
  destruct (cur_rest c) as [|[r'|e'] rest]; simpl in Hrest.
  - simplify_eq. eexists. split; [reflexivity|]. by split.
  - rewrite Hp, Hprev. destruct (less (w_ID r) (w_ID r')) eqn:El; simpl in *.
    + destruct (ascending (cur_name c) (Some (w_ID r')) rest) as [rs e'] eqn:Es. simplify_eq.
      eexists. split; [reflexivity|]. split; [by rewrite Hl|]. simpl. by rewrite Es.
    + simplify_eq. eexists. unfold order_error. rewrite go_eqb_decide.
      repeat case_bool_decide; first [reflexivity | congruence].
  - simplify_eq. by eexists.
Qed.

Lemma drop_id_sorted id rs : sorted rs → sorted (drop_id id rs).
Proof.
  destruct rs as [|r tl]; simpl; [done|]. case_bool_decide; [|done].
  by intros [? _]%StronglySorted_inv.
Qed.

Definition drop_front (id : K) (g : records * option (@diff_error K E)) : records * option (@diff_error K E) :=
  (drop_id id g.1, g.2).

Lemma drop_front_fst id gs : (drop_front id <$> gs).*1 = drop_id id <$> gs.*1.
Proof. by rewrite <- !list_fmap_compose. Qed.

(** The last record before the error is at [id]. *)
Definition stops_at (id : K) (g : records * option (@diff_error K E)) (e : diff_error) : Prop :=
  ∃ r, g = ([r], Some e) ∧ w_ID r = id.

Lemma advance_all_pending id cs gs :
  Forall2 pending cs gs →
  (∃ cs', advance_all less (at_id id) cs = (cs', None) ∧ Forall2 pending cs' (drop_front id <$> gs) ∧
     Forall (λ g, ∀ e, ¬ stops_at id g e) gs) ∨
  (∃ cs' i g e, advance_all less (at_id id) cs = (cs', Some e) ∧ gs !! i = Some g ∧ stops_at id g e ∧
     ∀ j g' e', j < i → gs !! j = Some g' → ¬ stops_at id g' e').
Proof.
  induction 1 as [|c [rs oe] cs gs Hc _ IH]; [left; by exists []|]. cbn [advance_all fmap list_fmap].
  rewrite (at_front_at_id c rs id (proj1 Hc)).
  assert (match rs with r :: _ => bool_decide (w_ID r = id) | [] => false end = false ∨
          ∃ r tl, rs = r :: tl ∧ w_ID r = id) as [Hat|(r & tl & -> & Hid)].
  { destruct rs as [|r tl]; [by left|]. case_bool_decide; eauto. }
  - rewrite Hat. assert (drop_front id (rs, oe) = (rs, oe)) as ->.
    { unfold drop_front. simpl. destruct rs as [|r tl]; [done|]. simpl. by rewrite Hat. }
    assert (∀ e, ¬ stops_at id (rs, oe) e) as Hno.
    { intros e (r & [= -> _] & Hr). by rewrite bool_decide_eq_true_2 in Hat. }
    destruct IH as [(cs' & -> & Hcs & Hall)|(cs' & i & g & e & -> & Hi & Hg & Hj)].
    + left. eexists. split_and!; [done|by constructor|by constructor].
    + right. eexists _, (S i), g, e. split_and!; [done..|]. intros [|j] g' e' Hlt Hg'; [by simplify_eq/=|].
      eapply Hj; [|exact Hg']. lia.
  - rewrite bool_decide_eq_true_2 by done. pose proof (advance_pending c r tl oe Hc) as Ha.
    destruct (decide (tl = [] ∧ oe ≠ None)) as [[-> Hoe]|Hgo].
    { destruct oe as [e|]; [|done]. destruct Ha as [c' ->]. right. eexists _, 0, _, e.
      split_and!; [done|done|by exists r|]. intros j g' e' Hj. lia. }
    assert (∃ c', advance less c = (c', None) ∧ pending c' (tl, oe)) as (c' & -> & Hc').
    { destruct tl; [|done]. destruct oe; [|done]. exfalso. by apply Hgo. }
    assert (drop_front id (r :: tl, oe) = (tl, oe)) as -> by (unfold drop_front; simpl; by rewrite bool_decide_eq_true_2).
    assert (∀ e, ¬ stops_at id (r :: tl, oe) e) as Hno by (intros e (r' & [= -> -> ->] & _); by apply Hgo).
    destruct IH as [(cs' & -> & Hcs & Hall)|(cs' & i & g & e & -> & Hi & Hg & Hj)].
    + left. eexists. split_and!; [done|by constructor|by constructor].
    + right. eexists _, (S i), g, e. split_and!; [done..|]. intros [|j] g' e' Hlt Hg'; [by simplify_eq/=|].
      eapply Hj; [|exact Hg']. lia.
Qed.

(** The IDs at the fronts. *)
Definition front_ids (rss : list records) : list K :=
  flat_map (λ rs, match rs with r :: _ => [w_ID r] | [] => [] end) rss.

Lemma consider_least cs rss s :
  Forall2 at_front cs rss →
  match fold_left (λ s c, consider less c s) cs s with
  | None => s = None ∧ front_ids rss = []
  | Some id => (s = Some id ∨ id ∈ front_ids rss) ∧
      (∀ x, s = Some x ∨ x ∈ front_ids rss → less x id = false)
  end.
Proof.
  intros Hr. revert s. induction Hr as [|c rs cs rss Hc _ IH]; intros s; simpl.
  - destruct s as [s|]; [|done]. split; [by left|]. intros x [[= ->]|Hx]; [apply less_irrefl|set_solver].
  - specialize (IH (consider less c s)). unfold consider in IH at 2 3 4. unfold consider at 1.
    destruct rs as [|r tl]; simpl.
    + unfold consider in *. rewrite Hc in *. simpl in *. exact IH.
    + destruct Hc as (Hl & Hid & _). unfold consider in *. rewrite Hl, Hid in *. simpl in *.
      destruct s as [s|].
      * destruct (less (w_ID r) s) eqn:Els.
        -- destruct (fold_left _ cs _) as [id|]; [|by destruct IH]. destruct IH as [Hin Hmin].
           split; [set_solver|]. intros x [[= ->]|[->|Hx]%elem_of_cons].
           ++ destruct (less x id) eqn:Exi; [|done].
              rewrite <- (Hmin (w_ID r)) by by left. symmetry. by eapply less_trans.
           ++ apply Hmin. by left.
           ++ apply Hmin. by right.
        -- destruct (fold_left _ cs _) as [id|]; [|by destruct IH]. destruct IH as [Hin Hmin].
           split; [set_solver|]. intros x [[= ->]|[->|Hx]%elem_of_cons].
           ++ apply Hmin. by left.
           ++ destruct (less (w_ID r) id) eqn:Exi; [|done].
              pose proof (Hmin s (or_introl eq_refl)) as Hs.
              destruct (decide (s = id)) as [->|Hne]; [congruence|].
              destruct (less id s) eqn:Eis; [|exfalso; apply Hne; by apply less_total].
              rewrite <- Els. symmetry. by eapply less_trans.
           ++ apply Hmin. by right.
      * destruct (fold_left _ cs _) as [id|]; [|by destruct IH]. destruct IH as [Hin Hmin].
        split; [set_solver|]. intros x [?|[->|Hx]%elem_of_cons]; [done| |].
        -- apply Hmin. by left.
        -- apply Hmin. by right.
Qed.

Lemma sorted_after r tl x : sorted (r :: tl) → has_id x tl → less (w_ID r) x = true.
Proof.
  intros [_ Hs]%StronglySorted_inv (y & Hy & <-). rewrite Forall_forall in Hs. by apply Hs.
Qed.

Lemma has_id_cons x r tl : has_id x (r :: tl) ↔ w_ID r = x ∨ has_id x tl.
Proof. unfold has_id. setoid_rewrite elem_of_cons. naive_solver. Qed.

Lemma lookup_id_None id rs : ¬ has_id id rs → lookup_id id rs = None.
Proof.
  intros Hn. induction rs as [|r tl IH]; [done|]. rewrite has_id_cons in Hn. simpl.
  rewrite bool_decide_eq_false_2 by naive_solver. apply IH. naive_solver.
Qed.

(** At the least ID, the front record is the record with that ID, if any is. *)
Lemma lookup_least c rs id :
  sorted rs → at_front c rs →
  (∀ r tl, rs = r :: tl → less (w_ID r) id = false) → record_at id c = lookup_id id rs.
Proof.
  intros Hs Hc Hmin. unfold record_at. rewrite (at_front_at_id c rs id Hc).
  destruct rs as [|r tl]; [done|]. simpl. destruct Hc as (_ & _ & ->).
  case_bool_decide as Hid; [done|]. symmetry. apply lookup_id_None. intros Hin.
  pose proof (sorted_after r tl id Hs Hin) as Hl. by rewrite (Hmin r tl) in Hl.
Qed.

Lemma lookup_drop id x rs :
  less id x = true → lookup_id x (drop_id id rs) = lookup_id x rs.
Proof.
  intros Hx. destruct rs as [|r tl]; [done|]. simpl. case_bool_decide as Hid; [|done].
  rewrite bool_decide_eq_false_2; [done|]. intros E2. rewrite <- Hid, E2, less_irrefl in Hx. done.
Qed.

Lemma has_id_drop id x rs :
  sorted rs → has_id x (drop_id id rs) → has_id x rs ∧ (x = id → ∃ r tl, rs = r :: tl ∧ less (w_ID r) id = true).
Proof.
  intros Hs Hx. destruct rs as [|r tl]; [by destruct Hx as (? & ?%elem_of_nil & _)|].
  simpl in Hx. case_bool_decide as Hid.
  - split; [by apply has_id_cons; right|]. intros ->. exists r, tl.
    pose proof (sorted_after r tl id Hs Hx) as Hl. by split.
  - split; [done|]. intros ->. apply has_id_cons in Hx as [?|Hx]; [done|].
    exists r, tl. split; [done|]. by eapply sorted_after.
Qed.

Lemma has_id_split id x rs : has_id x rs → x = id ∨ has_id x (drop_id id rs).
Proof.
  destruct rs as [|r tl]; [by intros (? & ?%elem_of_nil & _)|].
  intros Hx. simpl. case_bool_decide as Hid; [|by right].
  apply has_id_cons in Hx as [<-|?]; [by left|by right].
Qed.

(** ** The specification: one diff per ID, in order *)

Section Spec.
Context (cfg : options) {S : Type} (yield : @out K E → S → S * bool).

(** The diff of an ID from the whole inputs. *)
Definition diff_at (baseline : records) (candidates : list records) (id : K)
  : res (@diff_error K E) (IDDiff K) :=
  assemble id (lookup_id id baseline) (lookup_id id <$> candidates) cfg.

(** Yields the diffs of [ids] in order, up to the first error or until the
    consumer has enough, and then ends as [fin] does. *)
Fixpoint run_then (diff : K → res (@diff_error K E) (IDDiff K)) (fin : S → res unit S) (ids : list K) (s : S)
  : res unit S :=
  match ids with
  | [] => fin s
  | id :: ids =>
      match diff id with
      | Panic msg => Panic msg
      | Fail e => Ret (yield_error yield e s)
      | Ret d =>
          if shouldEmit d cfg then
            let '(s', more) := yield (inl d) s in
            if more then run_then diff fin ids s' else Ret s'
          else run_then diff fin ids s
      end
  end.

Definition run_spec (diff : K → res (@diff_error K E) (IDDiff K)) (ids : list K) (s : S) : res unit S :=
  run_then diff Ret ids s.

(** The end at the last record before the error [e]: its diff is assembled, and
    not yielded; without such a record there is the error only. *)
Definition stopped (diff : K → res (@diff_error K E) (IDDiff K)) (rs : records) (e : diff_error) (s : S)
  : res unit S :=
  match last rs with
  | None => Ret (yield_error yield e s)
  | Some r =>
      match diff (w_ID r) with
      | Ret _ => Ret (yield_error yield e s)
      | Fail e => Ret (yield_error yield e s)
      | Panic msg => Panic msg
      end
  end.

Lemma run_then_ext d d' fin fin' ids s :
  (∀ id, id ∈ ids → d id = d' id) → (∀ s, fin s = fin' s) → run_then d fin ids s = run_then d' fin' ids s.
Proof.
  intros Hd Hf. revert s Hd. induction ids as [|id ids IH]; intros s Hd; simpl; [apply Hf|].
  rewrite Hd by set_solver. destruct (d' id) as [x| |]; [|done|done].
  assert (∀ s, run_then d fin ids s = run_then d' fin' ids s) as Hrest by (intros; apply IH; set_solver).
  destruct (shouldEmit x cfg); [|done]. destruct (yield (inl x) s) as [s' []]; done.
Qed.

Lemma run_spec_ext d d' ids s :
  (∀ id, id ∈ ids → d id = d' id) → run_spec d ids s = run_spec d' ids s.
Proof. intros Hd. by apply run_then_ext. Qed.

Definition total_length (rss : list records) : nat := sum_list (length <$> rss).

Lemma total_length_cons rs rss : total_length (rs :: rss) = length rs + total_length rss.
Proof. done. Qed.

Lemma total_length_drop id (rss : list records) :
  total_length (drop_id id <$> rss) ≤ total_length rss ∧
  (id ∈ front_ids rss → total_length (drop_id id <$> rss) < total_length rss).
Proof.
  induction rss as [|rs rss [IH1 IH2]]; [split; [done|set_solver]|].
  assert (length (drop_id id rs) ≤ length rs) as Hle.
  { destruct rs as [|r tl]; simpl; [done|]. case_bool_decide; simpl; lia. }
  rewrite fmap_cons, !total_length_cons. split; [lia|].
  destruct rs as [|r tl]; cbn [front_ids flat_map app] in *.
  - intros Hin. specialize (IH2 Hin). simpl. lia.
  - intros [->|Hin]%elem_of_cons.
    + simpl. rewrite bool_decide_eq_true_2 by done. lia.
    + specialize (IH2 Hin). lia.
Qed.

Lemma front_ids_elem x (rss : list records) :
  x ∈ front_ids rss ↔ ∃ r tl, (r :: tl) ∈ rss ∧ w_ID r = x.
Proof.
  unfold front_ids. rewrite list_elem_of_In, in_flat_map. split.
  - intros (rs & Hrs & Hx). destruct rs as [|r tl]; [done|].
    simpl in Hx. destruct Hx as [<-|[]]. exists r, tl. split; [|done]. by apply list_elem_of_In.
  - intros (r & tl & Hin & <-). exists (r :: tl). split; [by apply list_elem_of_In|]. by left.
Qed.

(** The last record comes strictly before the other's: the error behind it is
    met first.  An error with no record before it is met at the start. *)
Definition stops_before (rs rs' : records) : bool :=
  match last rs, last rs' with
  | _, None => false
  | None, Some _ => true
  | Some a, Some b => less (w_ID a) (w_ID b)
  end.

(** The [i]-th input has the error that is met first: the one behind the
    smallest ID, and the first of those. *)
Definition first_stop (gs : list (records * option (@diff_error K E))) (i : nat) (rs : records) (e : diff_error) : Prop :=
  gs !! i = Some (rs, Some e) ∧
  ∀ j rs' e', gs !! j = Some (rs', Some e') →
    (j < i → stops_before rs rs' = true) ∧ (i < j → stops_before rs' rs = false).

(** The ID comes before the one that the error is behind. *)
Definition below (id : K) (rs : records) : Prop := ∃ r, last rs = Some r ∧ less id (w_ID r) = true.

Definition some_has (id : K) (rss : list records) : Prop := ∃ rs, rs ∈ rss ∧ has_id id rs.

(** What the smallest front leaves: it is the least ID of all. *)
Lemma smallest_split id (rss : list records) :
  Forall sorted rss → id ∈ front_ids rss →
  (∀ r tl, (r :: tl) ∈ rss → less (w_ID r) id = false) →
  (∀ x, some_has x (drop_id id <$> rss) → less id x = true) ∧
  (∀ x, some_has x rss ↔ x = id ∨ some_has x (drop_id id <$> rss)).
Proof.
  intros Hs Hfront Hmin. rewrite Forall_forall in Hs. split; [|intros x; split].
  - intros x (rs' & (rs & -> & Hin)%list_elem_of_fmap & Hx). pose proof (Hs rs Hin) as Hsr.
    destruct (has_id_drop id x rs Hsr Hx) as [Hxr Hne].
    destruct rs as [|r tl]; [by destruct Hxr as (? & ?%elem_of_nil & _)|].
    pose proof (Hmin r tl Hin) as Hle.
    destruct (decide (x = id)) as [->|Hxid].
    { destruct (Hne eq_refl) as (r' & tl' & [= <- <-] & Hl). congruence. }
    destruct (less id x) eqn:El; [done|].
    assert (less x id = true) as Hlt.
    { destruct (less x id) eqn:El'; [done|]. exfalso. apply Hxid. by apply less_total. }
    apply has_id_cons in Hxr as [<-|Hxt]; [congruence|].
    pose proof (sorted_after r tl x Hsr Hxt). rewrite <- Hle. by eapply less_trans.
  - intros (rs & Hin & Hx). destruct (has_id_split id x rs Hx) as [->|Hd]; [by left|right].
    exists (drop_id id rs). split; [|done]. by apply list_elem_of_fmap_2.
  - intros [->|(rs' & (rs & -> & Hin)%list_elem_of_fmap & Hx)].
    + apply front_ids_elem in Hfront as (r & tl & Hin & <-). exists (r :: tl). split; [done|].
      apply has_id_cons. by left.
    + exists rs. split; [done|]. by apply (has_id_drop id x rs (Hs rs Hin)) in Hx as [? _].
Qed.

Lemma assemble_front id base cands R Rs :
  Forall2 at_front (base :: cands) (R :: Rs) → Forall sorted (R :: Rs) →
  (∀ r tl, (r :: tl) ∈ R :: Rs → less (w_ID r) id = false) →
  assembleIDDiff id base cands cfg = diff_at R Rs id.
Proof.
  intros [Hb Hcs]%Forall2_cons [HsR HsRs]%Forall_cons Hmin. unfold assembleIDDiff, diff_at. f_equal.
  - apply lookup_least; [done|done|]. intros r tl ->. apply (Hmin r tl). by left.
  - clear -Hcs HsRs Hmin StrictTotal0 GoEqLaws0.
    induction Hcs as [|c rs cs rss Hc _ IHc]; [done|].
    apply Forall_cons in HsRs as [Hsr Hsrs]. cbn [fmap list_fmap]. f_equal.
    + apply lookup_least; [done|done|]. intros r tl ->. apply (Hmin r tl). set_solver.
    + apply IHc; [done|]. intros r tl Hin. apply (Hmin r tl). set_solver.
Qed.

Lemma diff_at_drop id x R Rs : less id x = true → diff_at (drop_id id R) (drop_id id <$> Rs) x = diff_at R Rs x.
Proof.
  intros Hl. unfold diff_at. rewrite lookup_drop by done. f_equal. rewrite <- list_fmap_compose.
  apply list_fmap_ext. intros _ rs _. by apply lookup_drop.
Qed.

(** The last record is not before the first. *)
Lemma sorted_last r tl : sorted (r :: tl) → ∃ l, last (r :: tl) = Some l ∧ (tl = [] ∧ l = r ∨ less (w_ID r) (w_ID l) = true).
Proof.
  intros [_ Hs]%StronglySorted_inv. destruct tl as [|x tl]; [exists r; auto|].
  destruct (last_is_Some (x :: tl)) as [_ [l Hl]]; [done|]. exists l. split; [by rewrite last_cons, Hl|].
  right. rewrite Forall_forall in Hs. apply Hs. by apply last_Some_elem_of.
Qed.

Lemma last_drop_id id rs (e : @diff_error K E) : ¬ stops_at id (rs, Some e) e → last (drop_id id rs) = last rs.
Proof.
  intros Hno. destruct rs as [|r tl]; [done|]. simpl. case_bool_decide as Hid; [|done].
  destruct tl as [|x tl]; [|by rewrite (last_cons r), last_cons; destruct (last tl)].
  exfalso. apply Hno. by exists r.
Qed.

Lemma not_less id x : less x id = false → x ≠ id → less id x = true.
Proof. intros Hl Hne. destruct (less id x) eqn:E2; [done|]. exfalso. apply Hne. by apply less_total. Qed.

(** What the order of the inputs says of an input with an error, when the
    smallest front is [id] and the error is not met there. *)
Lemma below_stop id rs (e : @diff_error K E) :
  sorted rs → rs ≠ [] → (∀ r tl, rs = r :: tl → less (w_ID r) id = false) → ¬ stops_at id (rs, Some e) e → below id rs.
Proof.
  intros Hs Hne Hmin Hno. destruct rs as [|r tl]; [done|]. specialize (Hmin r tl eq_refl).
  destruct (sorted_last r tl Hs) as (l & Hl & Hrl). exists l. split; [done|].
  destruct Hrl as [[-> ->]|Hrl].
  - apply not_less; [done|]. intros Hid. apply Hno. by exists r.
  - destruct (decide (w_ID r = id)) as [<-|Hid]; [done|]. eapply less_trans; [by apply not_less|done].
Qed.

(** How the loop ends over inputs with these errors: as its consumer has it, if
    there is none, and by the first of them otherwise. *)
Definition outcome (diff : K → res (@diff_error K E) (IDDiff K)) (gs : list (records * option (@diff_error K E)))
    (ids : list K) (fin : S → res unit S) : Prop :=
  (∀ g, g ∈ gs → g.2 = None) ∧ (∀ id, id ∈ ids ↔ some_has id gs.*1) ∧ (∀ s, fin s = Ret s) ∨
  ∃ i rs e, first_stop gs i rs e ∧ (∀ id, id ∈ ids ↔ some_has id gs.*1 ∧ below id rs) ∧ (∀ s, fin s = stopped diff rs e s).

Definition error_after_record (g : records * option (@diff_error K E)) : Prop := g.1 = [] → g.2 = None.

Section Step.
Context (id : K) (gs : list (records * option (@diff_error K E))).
Context (Hs : Forall sorted gs.*1) (He : Forall error_after_record gs).
Context (Hfront : id ∈ front_ids gs.*1) (Hmin : ∀ r tl, (r :: tl) ∈ gs.*1 → less (w_ID r) id = false).

Lemma input_at j rs oe : gs !! j = Some (rs, oe) →
  sorted rs ∧ (rs = [] → oe = None) ∧ (∀ r tl, rs = r :: tl → less (w_ID r) id = false).
Proof.
  intros Hj. assert (rs ∈ gs.*1) as Hin by (apply list_elem_of_fmap; eexists (_, _); split; [done|by eapply list_elem_of_lookup_2]).
  split_and!.
  - rewrite Forall_forall in Hs. by apply Hs.
  - apply (Forall_lookup_1 _ _ _ _ He Hj).
  - intros r tl ->. by apply (Hmin r tl).
Qed.

(** The error is met at the smallest front. *)
Lemma outcome_stop diff i g e :
  gs !! i = Some g → stops_at id g e → (∀ j g' e', j < i → gs !! j = Some g' → ¬ stops_at id g' e') →
  outcome diff gs [] (stopped diff g.1 e).
Proof.
  intros Hi (r & -> & Hr) Hfirst. right. exists i, [r], e. split_and!; [split; [done|]| |done].
  - intros j rs' e' Hj. destruct (input_at j rs' _ Hj) as (Hs' & Hne & Hm).
    destruct rs' as [|r' tl]; [by specialize (Hne eq_refl)|]. specialize (Hm r' tl eq_refl).
    destruct (sorted_last r' tl Hs') as (l & Hl & Hrl). unfold stops_before. rewrite Hl. simpl. rewrite Hr. split.
    + intros Hlt. destruct (below_stop id (r' :: tl) e') as (l' & Hl' & Hless);
        [done|done|by intros ? ? [= <- <-]|by eapply Hfirst|]. congruence.
    + intros _. destruct (less (w_ID l) id) eqn:El; [|done]. rewrite <- Hm.
      destruct Hrl as [[_ ->]|Hrl]; [done|]. symmetry. by eapply less_trans.
  - intros x. split; [by intros ?%elem_of_nil|]. intros [Hx (l & [= <-] & Hxl)]. exfalso. simpl in Hxl. rewrite Hr in Hxl.
    destruct (smallest_split id gs.*1 Hs Hfront Hmin) as [Hlt Hsp]. apply Hsp in Hx as [->|Hx].
    + by rewrite less_irrefl in Hxl.
    + pose proof (less_trans _ _ _ Hxl (Hlt x Hx)) as Hc. by rewrite less_irrefl in Hc.
Qed.

(** No error is met there. *)
Lemma outcome_step R Rs ids fin :
  Forall (λ g, ∀ e, ¬ stops_at id g e) gs →
  outcome (diff_at (drop_id id R) (drop_id id <$> Rs)) (drop_front id <$> gs) ids fin →
  outcome (diff_at R Rs) gs (id :: ids) fin.
Proof.
  intros Hno Hout. destruct (smallest_split id gs.*1 Hs Hfront Hmin) as [Hlt Hsp].
  pose proof (drop_front_fst id gs) as Hgs.
  assert (∀ j rs e, gs !! j = Some (rs, Some e) → below id rs ∧ last (drop_id id rs) = last rs) as Hstop.
  { intros j rs e Hj. destruct (input_at j rs _ Hj) as (Hsr & Hne & Hm). pose proof (Forall_lookup_1 _ _ _ _ Hno Hj e) as Hnj.
    split; [|by eapply last_drop_id]. eapply below_stop; [done| |done|exact Hnj]. intros ->. by specialize (Hne eq_refl). }
  destruct Hout as [(Hnone & Hids & Hfin)|(i & rs & e & [Hi Hfirst] & Hids & Hfin)]; rewrite Hgs in Hids.
  - left. split_and!; [|intros x; rewrite elem_of_cons, Hsp; naive_solver|done].
    intros g Hg. apply (Hnone (drop_front id g)). by apply list_elem_of_fmap_2.
  - apply list_lookup_fmap_Some in Hi as ([rs0 oe] & Heq & Hi).
    unfold drop_front in Heq. cbn [fst snd] in Heq. simplify_eq.
    destruct (Hstop i rs0 e Hi) as [(l & Hl & Hless) Hlast]. unfold below in Hids. rewrite Hlast in Hids.
    right. exists i, rs0, e. split_and!; [split; [done|]| |].
    + intros j rs' e' Hj. specialize (Hfirst j (drop_id id rs') e'). rewrite list_lookup_fmap, Hj in Hfirst.
      unfold stops_before in *. rewrite Hlast, (proj2 (Hstop j rs' e' Hj)) in Hfirst. by apply Hfirst.
    + intros x. rewrite elem_of_cons, Hids, Hsp. split; [|naive_solver]. intros [->|?]; [|naive_solver].
      split; [by left|]. by exists l.
    + intros s. rewrite Hfin. unfold stopped. rewrite Hlast, Hl. by rewrite diff_at_drop.
Qed.
End Step.

Lemma outcome_ids diff gs ids fin x : outcome diff gs ids fin → x ∈ ids → some_has x gs.*1.
Proof. intros [(_ & Hids & _)|(? & ? & ? & _ & Hids & _)] Hx; [by apply Hids|by apply Hids in Hx as [? _]]. Qed.

Lemma stopped_at diff id g e s :
  stops_at id g e → stopped diff g.1 e s =
    match diff id with Ret _ => Ret (yield_error yield e s) | Fail e => Ret (yield_error yield e s) | Panic msg => Panic msg end.
Proof. by intros (r & -> & <-). Qed.

(** No cursor is live: nothing is left, and no error either. *)
Lemma outcome_none diff gs : Forall error_after_record gs → front_ids gs.*1 = [] → outcome diff gs [] Ret.
Proof.
  intros He Hnone. assert (∀ r tl, (r :: tl) ∉ gs.*1) as Hempty.
  { intros r tl Hin. assert (w_ID r ∈ front_ids gs.*1) as Hfr by (apply front_ids_elem; eauto).
    rewrite Hnone in Hfr. set_solver. }
  left. split_and!; [| |done].
  - intros [[|r tl] oe] Hin; [by apply (proj1 (Forall_forall _ _) He _ Hin)|].
    exfalso. apply (Hempty r tl). by apply (list_elem_of_fmap_2 fst) in Hin.
  - intros id. split; [by intros ?%elem_of_nil|].
    intros ([|r tl] & Hin & Hid); [by destruct Hid as (? & ?%elem_of_nil & _)|]. by apply Hempty in Hin.
Qed.

Lemma pending_front cs gs : Forall2 pending cs gs → Forall2 at_front cs gs.*1 ∧ Forall error_after_record gs.
Proof.
  intros Hp. split.
  - apply Forall2_fmap_r. eapply Forall2_impl; [exact Hp|]. by intros c [rs oe] [? _].
  - eapply Forall2_Forall_r; [exact Hp|]. apply Forall_forall. intros c _ [rs oe] [_ Hg] Hrs. simpl in *. by subst.
Qed.

(** The loop, over cursors that stand for ascending lists and errors behind
    them, follows the specification on the sorted union of their IDs. *)
Lemma merge_loop_run fuel base cands g gs :
  Forall2 pending (base :: cands) (g :: gs) → Forall sorted (g :: gs).*1 → total_length (g :: gs).*1 < fuel →
  ∃ ids fin, StronglySorted (λ a b, less a b = true) ids ∧ outcome (diff_at g.1 gs.*1) (g :: gs) ids fin ∧
    ∀ s, merge_loop less yield fuel base cands cfg s = Some (run_then (diff_at g.1 gs.*1) fin ids s).
Proof.
  revert base cands g gs. induction fuel as [|fuel IH]; intros base cands g gs Hrep Hs Hf; [lia|].
  destruct (pending_front _ _ Hrep) as [Hat He].
  pose proof (consider_least (base :: cands) (g :: gs).*1 None Hat) as Hleast.
  destruct (fold_left _ (base :: cands) None) as [id|] eqn:Eid.
  2: { exists [], Ret. split; [constructor|]. split; [apply outcome_none; [done|by apply Hleast]|].
       intros s. cbn [merge_loop run_then]. unfold smallestID. by rewrite Eid. }
  destruct Hleast as [[?|Hfront] Hmin]; [done|].
  assert (∀ r tl, (r :: tl) ∈ (g :: gs).*1 → less (w_ID r) id = false) as Hmin'.
  { intros r tl Hin. apply Hmin. right. apply front_ids_elem. eauto. }
  pose proof (assemble_front id base cands g.1 gs.*1 Hat Hs Hmin') as Hasm.
  destruct (advance_all_pending id _ _ Hrep) as [(cs' & Hadv & Hrep' & Hno)|(cs' & i & g' & e & Hadv & Hi & Hst & Hj)].
  2: { exists [], (stopped (diff_at g.1 gs.*1) g'.1 e). split; [constructor|].
       split; [by eapply (outcome_stop id)|]. intros s. cbn [merge_loop run_then]. unfold smallestID.
       rewrite Eid, Hasm, Hadv, (stopped_at _ _ _ _ _ Hst). by destruct (diff_at g.1 gs.*1 id), cs'. }
  destruct cs' as [|base' cands']; [by inversion Hrep'|].
  destruct (IH base' cands' (drop_front id g) (drop_front id <$> gs)) as (ids & fin & Hsort & Hout & Hrun); [exact Hrep'| | |].
  { change (drop_front id g :: (drop_front id <$> gs)) with (drop_front id <$> g :: gs).
    rewrite drop_front_fst. apply Forall_fmap. eapply Forall_impl; [exact Hs|]. intros rs. apply drop_id_sorted. }
  { pose proof (proj2 (total_length_drop id (g :: gs).*1) Hfront) as Hd.
    change (drop_front id g :: (drop_front id <$> gs)) with (drop_front id <$> g :: gs).
    rewrite drop_front_fst. lia. }
  pose proof (drop_front_fst id gs) as Hgs.
  assert (∀ x, x ∈ ids → less id x = true) as Hafter.
  { intros x Hx. apply (proj1 (smallest_split id (g :: gs).*1 Hs Hfront Hmin')).
    rewrite <- drop_front_fst. by eapply outcome_ids. }
  rewrite Hgs in Hout, Hrun. cbn [drop_front fst] in Hout, Hrun.
  exists (id :: ids), fin. split_and!.
  - constructor; [done|]. by apply Forall_forall.
  - by eapply (outcome_step id).
  - intros s. cbn [merge_loop run_then]. unfold smallestID. rewrite Eid, Hasm.
    destruct (diff_at g.1 gs.*1 id) as [d|e|msg]; [|done|done]. rewrite Hadv.
    assert (∀ s, run_then (diff_at (drop_id id g.1) (drop_id id <$> gs.*1)) fin ids s = run_then (diff_at g.1 gs.*1) fin ids s) as Hext.
    { intros s'. apply run_then_ext; [|done]. intros x Hx. apply diff_at_drop. by apply Hafter. }
    destruct (shouldEmit d cfg); [destruct (yield (inl d) s) as [s' []]|]; rewrite ?Hrun, ?Hext; done.
Qed.
End Spec.
End Merge.

(** ** From streams to cursors *)

Section Sizes.
Context {K : Type} `{!GoEq K} {E : Type} (zero : WithID K).
Notation cursor := (@streamCursor K E).
Context (less : K → K → bool).

(** Every cursor that could be primed is no longer than its stream. *)
Lemma advance_new_size (s : RecordSeq) name c :
  advance less (newCursor zero s name) = (c, None) → @cursor_size K E c ≤ length s.
Proof.
  unfold advance, newCursor, cursor_size. simpl.
  destruct s as [|[r|e] rest]; intros [= <-]; simpl; lia.
Qed.

Lemma advance_all_new_size (cs cs' : list cursor) (ss : list RecordSeq) :
  Forall2 (λ c s, ∃ name, c = newCursor zero s name) cs ss →
  advance_all less (λ _, true) cs = (cs', None) →
  length cs' = length cs ∧ cursors_size cs' ≤ sum_list (length <$> ss).
Proof.
  intros Hcs. revert cs'. induction Hcs as [|c s cs ss [name ->] _ IH]; intros cs' Ha; simpl in Ha.
  { simplify_eq. done. }
  destruct (advance less (newCursor zero s name)) as [c' [e|]] eqn:Ec; [done|].
  destruct (advance_all less (λ _, true) cs) as [rest o] eqn:Er. simplify_eq.
  destruct (IH rest eq_refl) as [Hl Hs]. apply advance_new_size in Ec.
  rewrite cursors_size_cons, fmap_cons. simpl. lia.
Qed.

Lemma new_cursors (candidates : list (@RecordSeq K E)) :
  Forall2 (λ c s, ∃ name, c = newCursor zero s name)
    (imap (λ i c, newCursor zero c (candidate_name i)) candidates) candidates.
Proof.
  generalize candidate_name. induction candidates as [|c l IH]; intros name; simpl; constructor; eauto.
Qed.

Lemma all_new_cursors (baseline : @RecordSeq K E) candidates :
  Forall2 (λ c s, ∃ name, c = newCursor zero s name)
    (newCursor zero baseline "baseline"
       :: imap (λ i c, newCursor zero c (candidate_name i)) candidates) (baseline :: candidates).
Proof. constructor; [by eexists|apply new_cursors]. Qed.

(** Primed cursors give identifiers of their streams. *)
Lemma advance_all_new_reflexive (cs cs' : list cursor) (ss : list RecordSeq) :
  Forall2 (λ c s, ∃ name, c = newCursor zero s name) cs ss → Forall (Forall reflexive_item) ss →
  advance_all less (λ _, true) cs = (cs', None) → Forall reflexive_ids cs'.
Proof.
  intros Hcs Hss. apply advance_all_reflexive.
  induction Hcs as [|c s cs ss [name ->] _ IH]; [constructor|]. apply Forall_cons in Hss as [Hs Hss].
  constructor; [by split|by apply IH].
Qed.

(** A consumer that keeps everything. *)
Definition collect (o : @out K E) (acc : list out) : list out * bool := (acc ++ [o], true).

Definition no_errors (outs : list (@out K E)) : Prop := ∀ e, inr e ∉ outs.
End Sizes.

Section Streams.
Context {K : Type} `{!EqDecision K, !GoEq K, !GoEqLaws K} {E : Type} (zero : WithID K).
Notation cursor := (@streamCursor K E).
Notation records := (list (WithID K)).
Notation input := (list (WithID K) * option (@diff_error K E))%type.
Context (less : K → K → bool).

(** What [DiffFunc] reads of a stream. *)
Definition input_of (name : string) (s : @RecordSeq K E) : input := ascending less name None s.
Definition inputs_of (candidates : list (@RecordSeq K E)) : list input :=
  imap (λ i c, input_of (candidate_name i) c) candidates.

Lemma prime_input (s : @RecordSeq K E) name :
  match input_of name s with
  | ([], Some e) => ∃ c, advance less (newCursor zero s name) = (c, Some e)
  | g => ∃ c, advance less (newCursor zero s name) = (c, None) ∧ pending less c g
  end.
Proof.
  unfold input_of, advance, newCursor. destruct s as [|[r|e] s]; simpl.
  - by eexists.
  - destruct (ascending less name (Some (w_ID r)) s) as [rs e] eqn:Es.
    eexists. split; [reflexivity|]. split; [done|]. simpl. by rewrite Es.
  - by eexists.
Qed.

Lemma advance_all_prime (names : list string) (ss : list (@RecordSeq K E)) :
  let gs := zip_with input_of names ss in
  let cs := zip_with (λ name s, newCursor zero s name) names ss in
  (∃ cs', advance_all less (λ _, true) cs = (cs', None) ∧ Forall2 (pending less) cs' gs) ∨
  (∃ cs' i e, advance_all less (λ _, true) cs = (cs', Some e) ∧ gs !! i = Some ([], Some e) ∧
     ∀ j e', j < i → gs !! j ≠ Some ([], Some e')).
Proof.
  revert ss. induction names as [|name names IH]; intros [|s ss]; simpl; [left; by exists []..|].
  pose proof (prime_input s name) as Hp. destruct (input_of name s) as [rs oe] eqn:Eg.
  destruct (decide (rs = [] ∧ oe ≠ None)) as [[-> Hoe]|Hgo].
  { destruct oe as [e|]; [|done]. destruct Hp as [c ->]. right. exists (c :: zip_with (λ name s, newCursor zero s name) names ss), 0, e.
    split_and!; [done|done|]. intros j e' Hj. lia. }
  assert (∃ c, advance less (newCursor zero s name) = (c, None) ∧ pending less c (rs, oe)) as (c & -> & Hc).
  { destruct rs; [|done]. destruct oe; [|done]. exfalso. by apply Hgo. }
  destruct (IH ss) as [(cs' & -> & Hcs)|(cs' & i & e & -> & Hi & Hj)].
  - left. eexists. split; [done|]. by constructor.
  - right. eexists _, (S i), e. split_and!; [done..|]. intros [|j] e' Hlt; simpl.
    + intros [= -> ->]. by apply Hgo.
    + apply Hj. lia.
Qed.

Lemma imap_zip {A B} (f : string → A → B) (name : nat → string) (l : list A) :
  imap (λ i, f (name i)) l = zip_with f (name <$> seq 0 (length l)) l.
Proof.
  revert name. induction l as [|x l IH]; intros name; [done|]. simpl. f_equal.
  rewrite <- fmap_S_seq, <- list_fmap_compose. apply (IH (name ∘ S)).
Qed.

Lemma ascending_length name prev (s : @RecordSeq K E) : length (ascending less name prev s).1 ≤ length s.
Proof.
  revert prev. induction s as [|[r|e] s IH]; intros prev; simpl; [lia| |lia].
  specialize (IH (Some (w_ID r))). destruct (ascending less name (Some (w_ID r)) s) as [rs e].
  destruct (after_prev less prev (w_ID r)); simpl in *; lia.
Qed.

Lemma inputs_length (candidates : list (@RecordSeq K E)) :
  total_length (inputs_of candidates).*1 ≤ sum_list (length <$> candidates).
Proof.
  unfold inputs_of. generalize candidate_name. induction candidates as [|c l IH]; intros name; [done|].
  rewrite imap_cons, !fmap_cons, total_length_cons. simpl.
  pose proof (ascending_length (name 0) None c). specialize (IH (name ∘ S)). unfold compose, input_of in *. lia.
Qed.

(** A stream without errors is read as it is. *)
Lemma ascending_slice name prev (rs : records) :
  sorted less rs → Forall (λ r, after_prev less prev (w_ID r) = true) rs →
  ascending (E := E) less name prev (SliceToSeq rs) = (rs, None).
Proof.
  revert prev. induction rs as [|r rs IH]; intros prev Hs Hp; [done|].
  change (SliceToSeq (r :: rs)) with (inl (B := E) r :: SliceToSeq rs). cbn [ascending].
  apply StronglySorted_inv in Hs as [Hs Hr]. apply Forall_cons in Hp as [-> _].
  by rewrite (IH (Some (w_ID r))).
Qed.

Lemma input_slice name (rs : records) : sorted less rs → input_of name (SliceToSeq rs) = (rs, None).
Proof. intros Hs. apply ascending_slice; [done|]. by apply Forall_forall. Qed.

Lemma inputs_slices (candidates : list records) :
  Forall (sorted less) candidates → inputs_of (SliceToSeq <$> candidates) = (λ rs, (rs, None)) <$> candidates.
Proof.
  unfold inputs_of. generalize candidate_name. intros name Hs. revert name.
  induction Hs as [|rs l Hrs Hs IH]; intros name; [done|]. rewrite fmap_cons, imap_cons, fmap_cons.
  rewrite input_slice by done. f_equal. apply (IH (name ∘ S)).
Qed.

(** And only such a stream is. *)
Lemma ascending_whole name prev (s : @RecordSeq K E) rs : ascending less name prev s = (rs, None) → s = SliceToSeq rs.
Proof.
  revert prev rs. induction s as [|[r|e] s IH]; intros prev rs Ha; simplify_eq/=; [done|].
  destruct (ascending less name (Some (w_ID r)) s) as [rs' e'] eqn:Es.
  destruct (after_prev less prev (w_ID r)); simplify_eq. unfold SliceToSeq. simpl. f_equal. by eapply IH.
Qed.

Context `{!StrictTotal less}.

Lemma inputs_sorted (candidates : list (@RecordSeq K E)) : Forall (sorted less) (inputs_of candidates).*1.
Proof.
  unfold inputs_of. generalize candidate_name. induction candidates as [|c l IH]; intros name; [constructor|].
  rewrite imap_cons, fmap_cons. constructor; [|apply (IH (name ∘ S))]. unfold input_of.
  destruct (ascending less (name 0) None c) as [rs e] eqn:Ea. by eapply ascending_sorted.
Qed.

Lemma input_whole name (s : @RecordSeq K E) :
  (input_of name s).2 = None → ∃ rs, s = SliceToSeq rs ∧ sorted less rs.
Proof.
  unfold input_of. destruct (ascending less name None s) as [rs e] eqn:Ea. simpl. intros ->.
  exists rs. split; [by eapply ascending_whole|by eapply ascending_sorted].
Qed.

Lemma inputs_whole (candidates : list (@RecordSeq K E)) :
  Forall (λ g, g.2 = None) (inputs_of candidates) → Forall (λ s, ∃ rs, s = SliceToSeq rs ∧ sorted less rs) candidates.
Proof.
  unfold inputs_of. generalize candidate_name. induction candidates as [|c l IH]; intros name Hn; [constructor|].
  rewrite imap_cons in Hn. apply Forall_cons in Hn as [Hc Hn]. constructor; [by eapply input_whole|by eapply (IH (name ∘ S))].
Qed.

Lemma outcome_head {S} (yield : @out K E → S → S * bool) diff gs i e :
  gs !! i = Some ([], Some e) → (∀ j e', j < i → gs !! j ≠ Some ([], Some e')) →
  outcome less yield diff gs [] (stopped yield diff [] e).
Proof.
  intros Hi Hj. right. exists i, [], e. split_and!; [split; [done|]| |done].
  - intros j rs' e' Hg. unfold stops_before. simpl. split.
    + intros Hlt. destruct rs' as [|r tl]; [by apply Hj in Hg|].
      destruct (last_is_Some (r :: tl)) as [_ [l ->]]; done.
    + by destruct (last rs').
  - intros id. split; [by intros ?%elem_of_nil|]. by intros [_ (r & [=] & _)].
Qed.

(** [DiffFunc], over all streams. *)
Lemma DiffFunc_run (baseline : @RecordSeq K E) candidates opts {S : Type} (yield : @out K E → S → S * bool) :
  let base := input_of "baseline" baseline in
  let cands := inputs_of candidates in
  let diff := diff_at (resolveOptions opts) base.1 cands.*1 in
  ∃ ids fin, StronglySorted (λ a b, less a b = true) ids ∧ outcome less yield diff (base :: cands) ids fin ∧
    ∀ s, DiffFunc zero baseline candidates (Some less) opts yield s
      = Some (run_then (resolveOptions opts) yield diff fin ids s).
Proof.
  intros base cands diff. unfold DiffFunc.
  pose proof (advance_all_prime ("baseline" :: (candidate_name <$> seq 0 (length candidates))) (baseline :: candidates)) as Hp.
  cbn [zip_with] in Hp. rewrite <- !(imap_zip _ candidate_name) in Hp.
  destruct Hp as [(cs' & Ha & Hrep)|(cs' & i & e & Ha & Hi & Hj)].
  - destruct cs' as [|base' cands']; [by inversion Hrep|].
    destruct (merge_loop_run less (resolveOptions opts) yield
      (Datatypes.S (length baseline + sum_list (length <$> candidates))) base' cands' base cands)
      as (ids & fin & Hs & Hout & Hrun); [exact Hrep| | |].
    + rewrite fmap_cons. constructor; [|apply inputs_sorted]. unfold base, input_of.
      destruct (ascending less "baseline" None baseline) as [rs e] eqn:Eb. by eapply ascending_sorted.
    + rewrite fmap_cons, total_length_cons. pose proof (inputs_length candidates).
      pose proof (ascending_length "baseline" None baseline). unfold base, input_of, cands. lia.
    + exists ids, fin. split_and!; [done..|]. intros s. by rewrite Ha, Hrun.
  - exists [], (stopped yield diff [] e). split_and!; [constructor| |].
    + by eapply outcome_head.
    + intros s. rewrite Ha. by destruct cs'.
Qed.
End Streams.

(** ** Identical records *)

Lemma extractAllFields_Ret v :
  comparable_data v → ∃ fields, extractAllFields v = Ret fields.
Proof.
  intros Hc. unfold extractAllFields. destruct (bucket (deref v)) eqn:Eb; [by eexists| |by eexists].
  specialize (Hc Eb). unfold traverse.
  assert (∀ keys i, (∀ k, k ∈ keys → k ∈ (map_entries (deref v)).*1) →
    ∃ fields, traverse_from (λ _ k, do x <- MapIndex (deref v) k;
      match x with
      | Some x => Ret (mkFieldValue k x false)
      | None => Panic "reflect: call of reflect.Value.Interface on zero Value"
      end) i keys = Ret fields) as Hkeys.
  { induction keys as [|k keys IH]; intros i Hk; simpl; [by eexists|].
    rewrite MapIndex_string by done. simpl.
    destruct (assoc k (map_entries (deref v))) as [x|] eqn:Ex.
    - simpl. destruct (IH (S i)) as [fields ->]; [set_solver|]. by eexists.
    - apply assoc_None_elem in Ex. exfalso. apply Ex, Hk. set_solver. }
  apply Hkeys. intros k. by rewrite sort_strings_elem.
Qed.

Lemma baselineFields_Ret v deltas cfg :
  comparable_data v → ∃ fields, baselineFields v deltas cfg = Ret fields.
Proof.
  intros Hc. unfold baselineFields. destruct (extractAllFields_Ret v Hc) as [fields ->]. simpl.
  destruct (onlyChangedFields cfg); simpl; [|by eexists]. case_bool_decide; by eexists.
Qed.

Lemma same_diff {K} `{!EqDecision K} {E} (id : K) r n cfg :
  plain (w_Data r) = true → comparable_data (w_Data r) →
  ∃ snap, assemble (E:=E) id (Some r) (replicate n (Some r)) cfg
          = Ret (mkIDDiff id (Some snap) (replicate n (mkCandidateState Matched []))).
Proof.
  intros Hp Hc. unfold assemble, traverse.
  rewrite (traverse_from_const _ (λ _, mkCandidateState Matched [])).
  - rewrite fmap_replicate. simpl. unfold buildBaselineSnapshot.
    destruct (baselineFields_Ret (w_Data r) (cs_Fields <$> replicate n (mkCandidateState Matched [])) cfg Hc)
      as [fields ->]. simpl. by eexists.
  - intros j x [-> _]%elem_of_replicate. simpl.
    pose proof (compare_same (w_Data r) cfg Hp Hc) as ->. done.
Qed.

(** ** Properties *)

(** C33: [DiffFunc] terminates on all streams, sorted or not, with or without
    errors, for every order, option and consumer, if the identifiers in the
    streams equal themselves: the loop never runs out of the fuel it starts with,
    one more than the number of pending items. *)
Theorem DiffFunc_terminates {K : Type} `{!GoEq K} {E : Type} (zero : WithID K) (baseline : @RecordSeq K E) candidates less opts {S : Type}
    (yield : out → S → S * bool) s
    (Hids : Forall (Forall reflexive_item) (baseline :: candidates)) :
  is_Some (DiffFunc zero baseline candidates less opts yield s).
Proof.
  unfold DiffFunc. destruct less as [less|]; [|by eexists].
  destruct (advance_all less (λ _, true) _) as [cs [e|]] eqn:Ea; [by destruct cs; eexists|].
  destruct cs as [|base' cands']; [by eexists|].
  apply merge_loop_fuel.
  - eapply advance_all_new_reflexive; [apply (all_new_cursors zero baseline candidates)|exact Hids|exact Ea].
  - destruct (advance_all_new_size zero less _ _ (baseline :: candidates)
      (all_new_cursors zero baseline candidates) Ea) as [_ Hs].
    simpl in Hs. unfold lt. apply le_n_S. exact Hs.
Qed.

(** The hypothesis is needed: when the first stream starts with an identifier
    that does not equal itself and that the order puts before no other and
    after none, as NaN, no fuel is enough for a consumer that wants everything,
    whatever the other streams hold. *)
Theorem unequal_id_never_ends {K : Type} `{!GoEq K} {E : Type} (less : K → K → bool) r (base : @streamCursor K E) cands {S : Type}
    (yield : out → S → S * bool) fuel cfg s
    (Hbase : cur_live base = true ∧ cur_id base = w_ID r) (Hne : ∀ id, go_eqb id (w_ID r) = false)
    (Hless : ∀ id, less id (w_ID r) = false) (Hmore : ∀ o s, (yield o s).2 = true) :
  merge_loop less yield fuel base cands cfg s = None.
Proof.
  destruct Hbase as [Hl Hid]. eapply (stuck_never_ends less yield fuel base cands cfg s (w_ID r)); [done| |].
  - unfold smallestID. cbn [fold_left]. unfold consider at 2. rewrite Hl, Hid. simpl.
    induction cands as [|c cands IH]; [done|]. cbn [fold_left]. unfold consider at 2.
    destruct (cur_live c); simpl; [|exact IH]. by rewrite Hless.
  - apply Forall_forall. intros c _. unfold at_id. by rewrite Hne, andb_false_r.
Qed.

Section Properties.
Context {K : Type} `{!EqDecision K, !GoEq K, !GoEqLaws K} {E : Type} (zero : WithID K).
Notation records := (list (WithID K)).

Lemma DiffFunc_spec (less : K → K → bool) `{!StrictTotal less} (baseline : records)
    (candidates : list records) opts {S : Type} (yield : @out K E → S → S * bool) s
    (Hb : sorted less baseline) (Hc : Forall (sorted less) candidates) :
  ∃ ids, StronglySorted (λ a b, less a b = true) ids ∧
    (∀ id, id ∈ ids ↔ ∃ rs, rs ∈ baseline :: candidates ∧ has_id id rs) ∧
    DiffFunc zero (SliceToSeq baseline) (SliceToSeq <$> candidates) (Some less) opts yield s
    = Some (run_spec (resolveOptions opts) yield
              (diff_at (resolveOptions opts) baseline candidates) ids s).
Proof.
  destruct (DiffFunc_run zero less (SliceToSeq baseline) (SliceToSeq <$> candidates) opts yield)
    as (ids & fin & Hs & Hout & Hrun).
  rewrite (input_slice less "baseline" baseline Hb), (inputs_slices less candidates Hc) in Hout, Hrun.
  rewrite <- list_fmap_compose, list_fmap_id in Hout, Hrun. cbn [fst] in Hout, Hrun.
  destruct Hout as [(_ & Hids & Hfin)|(i & rs & e & [Hi _] & _)].
  - rewrite fmap_cons, <- list_fmap_compose, list_fmap_id in Hids. exists ids. split_and!; [done|exact Hids|].
    rewrite Hrun. f_equal. by apply (run_then_ext less).
  - exfalso. destruct i as [|i]; [done|]. simpl in Hi. by apply list_lookup_fmap_Some in Hi as (rs' & [=] & _).
Qed.

(** C9: on sorted streams without errors, [DiffFunc] is the merge by
    specification: it takes the IDs of all streams in ascending order, each
    once, and for each yields the diff assembled from the records that the
    streams have under that ID, if it is to be emitted, up to the first
    comparison error or until the consumer stops. *)
Theorem DiffFunc_merges (less : K → K → bool) `{!StrictTotal less} (baseline : records)
    (candidates : list records) opts {S : Type} (yield : @out K E → S → S * bool) s
    (Hb : sorted less baseline) (Hc : Forall (sorted less) candidates) :
  ∃ ids, StronglySorted (λ a b, less a b = true) ids ∧
    (∀ id, id ∈ ids ↔ ∃ rs, rs ∈ baseline :: candidates ∧ has_id id rs) ∧
    DiffFunc zero (SliceToSeq baseline) (SliceToSeq <$> candidates) (Some less) opts yield s
    = Some (run_spec (resolveOptions opts) yield
              (diff_at (resolveOptions opts) baseline candidates) ids s).
Proof. by apply DiffFunc_spec. Qed.

Lemma traverse_from_Fail {E' A B} (f : nat → A → res E' B) l i e :
  traverse_from f i l = Fail e → ∃ j x, x ∈ l ∧ f j x = Fail e.
Proof.
  revert i. induction l as [|x l IH]; intros i Hf; simpl in Hf; [done|].
  destruct (f i x) as [y|e'|] eqn:Ex; simplify_eq/=; [|exists i, x; split; [by left|done]].
  destruct (traverse_from f (S i) l) as [ys| |] eqn:El; simplify_eq/=.
  destruct (IH _ El) as (j & z & Hz & Hj). exists j, z. split; [by right|done].
Qed.

Lemma assemble_ID id base cands cfg (d : IDDiff K) : assemble (E := E) id base cands cfg = Ret d → dd_ID d = id.
Proof.
  unfold assemble. destruct (traverse _ cands) as [states| |]; simpl; [|done..].
  destruct base as [b|]; [destruct (buildBaselineSnapshot b states cfg); simpl|]; intros [=]; by subst.
Qed.

Lemma assemble_error id base cands cfg (e : @diff_error K E) :
  assemble id base cands cfg = Fail e → ∃ id ce, e = ErrIncomparable id ce.
Proof.
  unfold assemble. destruct (traverse _ cands) as [states|e'|] eqn:Et; simpl; intros Ha; [|simplify_eq|done].
  - destruct base as [b|]; [|done]. unfold buildBaselineSnapshot in Ha.
    by destruct (baselineFields (w_Data b) (cs_Fields <$> states) cfg).
  - apply traverse_from_Fail in Et as (i & c & _ & Hc). destruct c as [c|]; [|done]. simpl in Hc.
    destruct base as [b|]; simpl in Hc.
    + destruct (compareRecords (w_Data b) (w_Data c) cfg) as [[|]| |]; simplify_eq/=; eauto.
    + by destruct (extractAllFields (w_Data c)).
Qed.
Lemma sorted_ids_unique (less : K → K → bool) `{!StrictTotal less} (ids ids' : list K) :
  StronglySorted (λ a b, less a b = true) ids → StronglySorted (λ a b, less a b = true) ids' →
  (∀ id, id ∈ ids ↔ id ∈ ids') → ids = ids'.
Proof.
  intros Hs Hs' Heq.
  assert (∀ l, StronglySorted (λ a b, less a b = true) l → NoDup l) as Hnd.
  { induction 1 as [|x l _ IH Hx]; constructor; [|done]. intros Hin. rewrite Forall_forall in Hx.
    specialize (Hx x Hin). by rewrite less_irrefl in Hx. }
  apply (StronglySorted_unique_strong (λ a b, less a b = true)); [|done|done|by apply NoDup_Permutation; auto].
  intros a b _ _ Hab Hba. pose proof (less_trans _ _ _ Hab Hba) as Hc. by rewrite less_irrefl in Hc.
Qed.

Lemma first_stop_unique (less : K → K → bool) gs i rs (e : @diff_error K E) i' rs' e' :
  first_stop less gs i rs e → first_stop less gs i' rs' e' → i = i' ∧ rs = rs' ∧ e = e'.
Proof.
  intros [Hi Hf] [Hi' Hf']. destruct (Hf _ _ _ Hi') as [Hlt Hgt]. destruct (Hf' _ _ _ Hi) as [Hlt' Hgt'].
  destruct (Nat.lt_trichotomy i i') as [Hc|[<-|Hc]]; [|by simplify_eq|].
  - specialize (Hgt Hc). by rewrite Hlt' in Hgt.
  - specialize (Hgt' Hc). by rewrite Hlt in Hgt'.
Qed.

(** The run up to the error that is met first, for every consumer. *)
Lemma DiffFunc_stops (less : K → K → bool) `{!StrictTotal less} (baseline : @RecordSeq K E) candidates opts :
  let base := input_of less "baseline" baseline in
  let cands := inputs_of less candidates in
  let diff := diff_at (resolveOptions opts) base.1 cands.*1 in
  ¬ Forall (λ g, g.2 = None) (base :: cands) → ∃ i rs e ids,
    first_stop less (base :: cands) i rs e ∧ StronglySorted (λ a b, less a b = true) ids ∧
    (∀ id, id ∈ ids ↔ some_has id (base :: cands).*1 ∧ below less id rs) ∧
    ∀ S (yield : @out K E → S → S * bool) s,
      DiffFunc zero baseline candidates (Some less) opts yield s
      = Some (run_then (resolveOptions opts) yield diff (stopped yield diff rs e) ids s).
Proof.
  intros base cands diff Hbad.
  assert (∀ S (yield : @out K E → S → S * bool), ∃ i rs e ids,
    first_stop less (base :: cands) i rs e ∧ StronglySorted (λ a b, less a b = true) ids ∧
    (∀ id, id ∈ ids ↔ some_has id (base :: cands).*1 ∧ below less id rs) ∧
    ∀ s, DiffFunc zero baseline candidates (Some less) opts yield s
      = Some (run_then (resolveOptions opts) yield diff (stopped yield diff rs e) ids s)) as Hall.
  { intros S yield. destruct (DiffFunc_run zero less baseline candidates opts yield)
      as (ids & fin & Hs & [(Hnone & _)|(i & rs & e & Hst & Hids & Hfin)] & Hrun).
    - exfalso. apply Hbad. by apply Forall_forall.
    - exists i, rs, e, ids. split_and!; [done..|]. intros s. rewrite Hrun. f_equal. by apply (run_then_ext less). }
  destruct (Hall _ collect) as (i & rs & e & ids & Hst & Hs & Hids & _). exists i, rs, e, ids. split_and!; [done..|].
  intros S yield s. destruct (Hall S yield) as (i' & rs' & e' & ids' & Hst' & Hs' & Hids' & Hrun).
  destruct (first_stop_unique _ _ _ _ _ _ _ _ Hst Hst') as (<- & <- & <-).
  assert (ids = ids') as -> by (apply (sorted_ids_unique less); [done..|]; intros id; by rewrite Hids, Hids').
  done.
Qed.

(** Where the run ends before the error [e], a consumer that keeps everything
    has the differences of smaller IDs, and then that error, or that of records
    which cannot be compared. *)
Lemma run_then_collect cfg baseline (candidates : list records) (P : K → Prop) rs (e : @diff_error K E) ids acc outs
    (Hids : Forall P ids)
    (Hrun : run_then cfg collect (diff_at cfg baseline candidates) (stopped collect (diff_at cfg baseline candidates) rs e) ids acc
            = Ret outs) :
  ∃ ds e', outs = acc ++ (inl <$> ds) ++ [inr e'] ∧ Forall (λ d, P (dd_ID d)) ds ∧
    (e' = e ∨ ∃ id ce, e' = ErrIncomparable id ce).
Proof.
  assert (∀ id e', diff_at cfg baseline candidates id = Fail e' → ∃ id ce, e' = @ErrIncomparable K E id ce) as Herr
    by (intros id e'; apply assemble_error).
  revert acc Hrun. induction Hids as [|id ids Hid _ IH]; intros acc Hrun; cbn [run_then] in Hrun.
  - exists []. unfold stopped in Hrun.
    destruct (last rs) as [r|]; [destruct (diff_at cfg baseline candidates (w_ID r)) eqn:Ed|]; simplify_eq; eauto 6.
  - destruct (diff_at cfg baseline candidates id) as [d|e'|] eqn:Ed; simplify_eq; [|exists []; eauto 6].
    destruct (shouldEmit d cfg); [|by apply IH]. cbn [collect] in Hrun.
    destruct (IH _ Hrun) as (ds & e' & -> & Hds & He). exists (d :: ds), e'. rewrite <- !app_assoc. split_and!; [done| |done].
    constructor; [|done]. by rewrite (assemble_ID _ _ _ _ _ Ed).
Qed.

(** C34: bad input is never taken silently.  If no stream has an error or an ID
    that is not after the one before it, every stream is a sorted one, free of
    errors.  Otherwise the run ends with the error that is met first: the one
    behind the smallest ID, in the first stream of those where it is.  It is
    [ErrDuplicateID] or [ErrUnsortedInput], with the offending ID and the name
    of the stream, or the stream's own error ([ascending]).  Before it come the
    differences of the smaller IDs, as [DiffFunc_merges] has them, and none of
    the ID it is behind: so a consumer that keeps everything has differences
    of smaller IDs and then an error, this one unless two records could not be
    compared before. *)
Theorem DiffFunc_validates (less : K → K → bool) `{!StrictTotal less}
    (baseline : @RecordSeq K E) candidates opts :
  let base := input_of less "baseline" baseline in
  let cands := inputs_of less candidates in
  let cfg := resolveOptions opts in
  let diff := diff_at cfg base.1 cands.*1 in
  (Forall (λ g, g.2 = None) (base :: cands) →
     Forall (λ s, ∃ rs, s = SliceToSeq rs ∧ sorted less rs) (baseline :: candidates)) ∧
  (¬ Forall (λ g, g.2 = None) (base :: cands) → ∃ i rs e ids,
     first_stop less (base :: cands) i rs e ∧ StronglySorted (λ a b, less a b = true) ids ∧
     (∀ id, id ∈ ids ↔ some_has id (base :: cands).*1 ∧ below less id rs) ∧
     (∀ S (yield : @out K E → S → S * bool) s,
        DiffFunc zero baseline candidates (Some less) opts yield s
        = Some (run_then cfg yield diff (stopped yield diff rs e) ids s)) ∧
     ∀ outs, DiffFunc zero baseline candidates (Some less) opts collect [] = Some (Ret outs) →
       ∃ ds e', outs = (inl <$> ds) ++ [inr e'] ∧ Forall (λ d, below less (dd_ID d) rs) ds ∧
         (e' = e ∨ ∃ id ce, e' = ErrIncomparable id ce)).
Proof.
  intros base cands cfg diff. split.
  - intros [Hb Hc]%Forall_cons. constructor.
    + by apply (input_whole less "baseline").
    + by apply inputs_whole.
  - intros Hbad. destruct (DiffFunc_stops less baseline candidates opts Hbad) as (i & rs & e & ids & Hst & Hs & Hids & Hrun).
    exists i, rs, e, ids. split_and!; [done..|]. intros outs Ho. rewrite Hrun in Ho. injection Ho as Ho.
    apply (run_then_collect cfg _ _ (λ id, below less id rs)) in Ho; [exact Ho|].
    apply Forall_forall. intros id Hid. by apply Hids.
Qed.

Lemma lookup_id_Some id (rs : records) :
  has_id id rs → ∃ r, lookup_id id rs = Some r ∧ r ∈ rs.
Proof.
  intros (r & Hr & <-). unfold lookup_id.
  destruct (List.find _ rs) as [x|] eqn:Ef.
  - exists x. split; [done|]. apply find_some in Ef as [Hx _]. by apply list_elem_of_In.
  - exfalso. eapply find_none in Ef; [|by apply list_elem_of_In].
    by rewrite bool_decide_eq_true_2 in Ef.
Qed.

(** Identical datasets give an empty diff: with any number of candidates
    equal to the baseline, and unless matched IDs are asked for, nothing is
    yielded, for records whose data compare equal to themselves. *)
Theorem DiffFunc_identical (less : K → K → bool) `{!StrictTotal less} (baseline : records) n opts
    (Hb : sorted less baseline)
    (Hplain : Forall (λ r, plain (w_Data r) = true ∧ comparable_data (w_Data r)) baseline)
    (Hopts : includeMatched (resolveOptions opts) = false) :
  DiffFunc zero (@SliceToSeq K E baseline) (replicate n (SliceToSeq baseline)) (Some less) opts
    collect [] = Some (Ret []).
Proof.
  destruct (DiffFunc_spec less baseline (replicate n baseline) opts (@collect K E) [])
    as (ids & _ & Hids & Hrun); [done|by apply Forall_replicate|].
  rewrite fmap_replicate in Hrun. rewrite Hrun. f_equal. clear Hrun.
  assert (∀ id, id ∈ ids → has_id id baseline) as Hin.
  { intros id (rs & Hrs & Hid)%Hids. apply elem_of_cons in Hrs as [->|Hrs]; [done|].
    by apply elem_of_replicate in Hrs as [-> _]. }
  clear Hids. generalize (@nil (@out K E)) as acc.
  unfold run_spec. induction ids as [|id ids IH]; intros acc; [done|]. cbn [run_then].
  destruct (lookup_id_Some id baseline (Hin id ltac:(set_solver))) as (r & Hr & Hrb).
  rewrite Forall_forall in Hplain. destruct (Hplain r Hrb) as [Hp Hc].
  destruct (same_diff (E:=E) id r n (resolveOptions opts) Hp Hc) as (snap & Hdiff).
  unfold diff_at. rewrite fmap_replicate, Hr, Hdiff.
  unfold shouldEmit. rewrite Hopts. cbn [orb dd_Candidates].
  replace (existsb _ (replicate n _)) with false; [apply IH; set_solver|].
  clear. induction n; simpl; done.
Qed.
End Properties.

(** ** Examples *)

Module DiffExamples.

Definition nat_less (a b : nat) : bool := Nat.ltb a b.

#[local] Instance nat_less_total : StrictTotal nat_less.
Proof.
  unfold nat_less. split; intros *; rewrite ?Nat.ltb_lt, ?Nat.ltb_ge; lia.
Qed.

Definition person (id : nat) (name : string) : WithID nat :=
  mkWithID id (vmap [("name", vstr name)]).

Definition baseline : list (WithID nat) := [person 1 "Ann"; person 3 "Bob"].
Definition candidate : list (WithID nat) := [person 2 "Eve"; person 3 "Rob"].
Definition zero : WithID nat := mkWithID 0 VNil.

Lemma example_sorted : sorted nat_less baseline ∧ sorted nat_less candidate.
Proof. split; repeat constructor. Qed.

Lemma DiffFunc_merges_witness :
  ∃ ids, (∀ id, id ∈ ids ↔ ∃ rs, rs ∈ [baseline; candidate] ∧ has_id id rs) ∧
    @DiffFunc nat _ unit zero (SliceToSeq baseline) [SliceToSeq candidate] (Some nat_less) []
      _ collect []
    = Some (run_spec (resolveOptions []) collect
              (diff_at (resolveOptions []) baseline [candidate]) ids []).
Proof.
  destruct (DiffFunc_merges (E:=unit) zero nat_less baseline [candidate] [] collect [])
    as (ids & _ & Hids & Hrun);
    [exact (proj1 example_sorted)|constructor; [exact (proj2 example_sorted)|constructor]|].
  exists ids. split; [exact Hids|exact Hrun].
Defined.

Definition outs : list (@out nat unit) :=
  match DiffFunc zero (SliceToSeq baseline) [SliceToSeq candidate] (Some nat_less) [] collect [] with
  | Some (Ret outs) => outs
  | _ => []
  end.

(** IDs 1, 2 and 3 are missing, extra and changed. *)
Example outs_statuses :
  (λ o, match o with inl d => cs_Status <$> dd_Candidates d | inr _ => [] end) <$> outs
  = [[Missing]; [Extra]; [Changed]].
Proof. reflexivity. Qed.

(** The second record of the candidate is a duplicate: the difference of ID 1 is
    there, that of ID 3 is not. *)
Definition duplicated : list (WithID nat) := [person 3 "Rob"; person 3 "Rob"].

Definition outs_of (candidate : list (WithID nat)) : list (@out nat unit) :=
  match DiffFunc zero (SliceToSeq baseline) [SliceToSeq candidate] (Some nat_less) [] collect [] with
  | Some (Ret outs) => outs
  | _ => []
  end.

Example duplicate_reported :
  (λ o, match o with inl d => inl (dd_ID d) | inr e => inr e end) <$> outs_of duplicated
  = [inl 1; inr (ErrDuplicateID 3 "candidates[0]")].
Proof. reflexivity. Qed.

Lemma DiffFunc_validates_witness :
  ∃ ds e', outs_of duplicated = (inl <$> ds) ++ [inr e'] ∧ Forall (λ d, dd_ID d < 3) ds ∧
    (e' = ErrDuplicateID 3 "candidates[0]" ∨ ∃ id ce, e' = ErrIncomparable id ce).
Proof.
  destruct (DiffFunc_validates (E := unit) zero nat_less (SliceToSeq baseline) [SliceToSeq duplicated] []) as [_ Hbad].
  destruct Hbad as (i & rs & e & ids & [Hi _] & _ & _ & _ & Hruns).
  { intros Hnone. by inversion Hnone as [|? ? _ Hn]; inversion Hn. }
  destruct (Hruns (outs_of duplicated) eq_refl) as (ds & e' & Ho & Hds & He). exists ds, e'.
  destruct i as [|[|i]]; [by vm_compute in Hi| |by vm_compute in Hi].
  vm_compute in Hi. injection Hi as <- <-. split_and!; [exact Ho| |exact He].
  eapply Forall_impl; [exact Hds|]. intros d (r & [= <-] & Hl). by apply Nat.ltb_lt.
Defined.

Lemma DiffFunc_terminates_witness :
  is_Some (DiffFunc (E := unit) zero (SliceToSeq duplicated) [[inl (person 7 "Eve"); inr ()]] (Some nat_less) [] collect []).
Proof.
  apply (DiffFunc_terminates (E := unit)). repeat constructor.
Defined.

(** Floats ([Diff] admits them): from a NaN the merge does not go on. *)
Definition nan_record : WithID spec_float := mkWithID S754_nan VNil.

Example nan_never_ends fuel rest cands cfg s :
  merge_loop (E := unit) SFltb collect fuel
    (mkCursor "baseline" rest true S754_nan nan_record S754_nan true) cands cfg s = None.
Proof.
  apply (unequal_id_never_ends SFltb nan_record); [done|intros id|intros id|done]; by destruct id as [[]|[]| |[]].
Qed.

Lemma unequal_id_never_ends_witness :
  merge_loop (E := unit) SFltb collect 100
    (mkCursor "baseline" [] true S754_nan nan_record S754_nan true) [] (resolveOptions []) [] = None.
Proof.
  apply (unequal_id_never_ends SFltb nan_record); [by split|intros id|intros id|done]; by destruct id as [[]|[]| |[]].
Defined.

Lemma DiffFunc_identical_witness :
  DiffFunc zero (@SliceToSeq nat unit baseline) (replicate 2 (SliceToSeq baseline))
    (Some nat_less) [] collect [] = Some (Ret []).
Proof.
  apply (DiffFunc_identical (E:=unit) zero nat_less baseline 2 []).
  - exact (proj1 example_sorted).
  - repeat constructor.
  - reflexivity.
Defined.
End DiffExamples.
