(* ===== verification/RecordBridge.v ===== *)
(** * Record streams out of readers (src/recordops/bridge.go)

    [ReaderToSeq] pulls a reader and pushes its records to a consumer, which
    says after each whether it wants more. *)

From Stdlib Require Import String.
From stdpp Require Import base list strings.
From S2P Require Import Prelude GoValues DalReader RecordCompare RecordDiff.

Local Open Scope nat_scope.
Local Open Scope list_scope.

Section Bridge.
Context {S R K C IE : Type}.

(** The error that a stream yields: the reader's, or that of [idOf]. *)
Inductive stream_error := reader_failed (e : reader_error) | id_failed (e : IE).

Context (reader : Reader S R) (idOf : R → K + IE) (data : R → value).

(** The consumer's loop body: its next state, and whether it wants more. *)
Context (yield : WithID K + stream_error → C → C * bool).

(** The loop; the flag tells whether it ended within the fuel. *)
Fixpoint pull (fuel : nat) (s : S) (c : C) : S * C * bool :=
  match fuel with
  | O => (s, c, false)
  | Datatypes.S fuel =>
      match Next reader s with
      | (s, inr err) =>
          if errors_Is err ErrNoMoreRecords then (s, c, true)
          else (s, (yield (inr (reader_failed err)) c).1, true)
      | (s, inl rec) =>
          match idOf rec with
          | inr err => (s, (yield (inr (id_failed err)) c).1, true)
          | inl id =>
              let '(c, more) := yield (inl (mkWithID id (data rec))) c in
              if more then pull fuel s c else (s, c, true)
          end
      end
  end.

(** The deferred [Close], whose error is dropped; [None] is a loop that does not
    end within the fuel. *)
Definition ReaderToSeq (fuel : nat) (s : S) (c : C) : option (S * C) :=
  match pull fuel s c with
  | (s, c, true) => Some ((Close reader s).1, c)
  | (_, _, false) => None
  end.
End Bridge.
Arguments stream_error IE : clear implicits.

(** ** The calls of the reader *)

Inductive reader_call := called_Next | called_Close.

(** A reader that notes its calls. *)
Definition noting {S R} (reader : Reader S R) : Reader (S * list reader_call) R := mkReader
  (λ s, let '(t, r) := Next reader s.1 in ((t, s.2 ++ [called_Next]), r))
  (λ s, Cursor reader s.1)
  (λ s, let '(t, r) := Close reader s.1 in ((t, s.2 ++ [called_Close]), r)).

Section Calls.
Context {S R K C IE : Type} (reader : Reader S R) (idOf : R → K + IE) (data : R → value).
Context (yield : WithID K + stream_error IE → C → C * bool).

Lemma pull_calls fuel s log c :
  ∃ n, 1 ≤ n + (if decide (fuel = 0) then 1 else 0) ∧ n ≤ fuel ∧
    pull (noting reader) idOf data yield fuel (s, log) c =
    (let '(s', c', b) := pull reader idOf data yield fuel s c in ((s', log ++ replicate n called_Next), c', b)).
Proof.
  revert s log c. induction fuel as [|fuel IH]; intros s log c; simpl.
  { exists 0. simpl. rewrite app_nil_r. split_and!; [lia..|done]. }
  destruct (Next reader s) as [s1 [rec|err]]; simpl.
  - destruct (idOf rec) as [id|err]; simpl; [|by exists 1; split_and!; [lia..|done]].
    destruct (yield (inl (mkWithID id (data rec))) c) as [c1 [|]]; [|by exists 1; split_and!; [lia..|done]].
    destruct (IH s1 (log ++ [called_Next]) c1) as (n & Hn & Hle & ->). exists (Datatypes.S n).
    split_and!; [lia..|]. destruct (pull reader idOf data yield fuel s1 c1) as [[s2 c2] b].
    by rewrite <- app_assoc.
  - destruct (errors_Is err ErrNoMoreRecords); exists 1; by split_and!; [lia..|].
Qed.
End Calls.

(** A stream over a reader closes it exactly once, after its last read,
    whether the records ran out, the reader or the identifier of a record
    failed, or the consumer stopped early. *)
Theorem ReaderToSeq_closes_once {S R K C IE} (reader : Reader S R) (idOf : R → K + IE) (data : R → value)
    (yield : WithID K + stream_error IE → C → C * bool) fuel s c s' c' :
  ReaderToSeq reader idOf data yield fuel s c = Some (s', c') →
  ∃ n, 1 ≤ n ∧ ReaderToSeq (noting reader) idOf data yield fuel (s, []) c =
    Some ((s', replicate n called_Next ++ [called_Close]), c').
Proof.
  unfold ReaderToSeq. intros Hr. destruct (pull_calls reader idOf data yield fuel s [] c) as (n & Hn & _ & ->).
  destruct fuel as [|fuel]; [done|]. rewrite decide_False in Hn by done. exists n. split; [lia|].
  destruct (pull reader idOf data yield _ s c) as [[s1 c1] [|]]; [|done]. simplify_eq. simpl.
  by destruct (Close reader s1).
Qed.

(** ** The stream of a slice *)

Section Slice.
Context {R K C IE : Type} (idOf : R → K + IE) (data : R → value).
Context (yield : WithID K + stream_error IE → C → C * bool).

(** What a stream yields for a slice: its records, up to the first without an
    identifier. *)
Fixpoint stream_of (l : list R) : list (WithID K + stream_error IE) :=
  match l with
  | [] => []
  | r :: l => match idOf r with inl id => inl (mkWithID id (data r)) :: stream_of l | inr e => [inr (id_failed e)] end
  end.

(** A loop over a finite stream: the consumer's state at its end. *)
Fixpoint range_over (items : list (WithID K + stream_error IE)) (c : C) : C :=
  match items with
  | [] => c
  | x :: items => let '(c, more) := yield x c in if more then range_over items c else c
  end.

Lemma pull_slice l i fuel c : i ≤ length l → length l - i < fuel →
  ∃ s', pull slice_reader idOf data yield fuel (mkRecordsReader (Z.of_nat i - 1) (Some l)) c =
    (s', range_over (stream_of (drop i l)) c, true).
Proof.
  revert i c. induction fuel as [|fuel IH]; intros i c Hi Hf; [lia|]. simpl. unfold slice_Next. cbn [rr_records rr_current].
  replace (Z.of_nat i - 1 + 1)%Z with (Z.of_nat i) by lia. rewrite Nat2Z.id.
  destruct (Z.leb_spec (Z.of_nat (length l)) (Z.of_nat i)) as [Hl|Hl].
  { rewrite drop_ge by lia. by eexists. }
  destruct (lookup_lt_is_Some_2 l i ltac:(lia)) as [r Hr]. rewrite Hr.
  rewrite (drop_S _ _ _ Hr). simpl. destruct (idOf r) as [id|e]; simpl.
  - destruct (yield (inl (mkWithID id (data r))) c) as [c1 [|]]; [|by eexists].
    replace (Z.of_nat i) with (Z.of_nat (Datatypes.S i) - 1)%Z by lia. apply IH; lia.
  - destruct (yield (inr (id_failed e)) c) as [c1 [|]]; by eexists.
Qed.
End Slice.

(** The stream over the reader of a slice ends, and gives its consumer the
    records of the slice in order, up to the first whose identifier cannot be
    read, as a loop over the finite stream would. *)
Theorem ReaderToSeq_slice {R K C IE} (idOf : R → K + IE) (data : R → value)
    (yield : WithID K + stream_error IE → C → C * bool) (l : list R) fuel c :
  length l < fuel →
  ∃ s', ReaderToSeq slice_reader idOf data yield fuel (NewRecordsReader (Some l)) c =
    Some (s', range_over yield (stream_of idOf data l) c).
Proof.
  intros Hf. unfold ReaderToSeq, NewRecordsReader.
  destruct (pull_slice idOf data yield l 0 fuel c ltac:(lia) ltac:(lia)) as [s' Hp].
  change (Z.of_nat 0 - 1)%Z with (-1)%Z in Hp. rewrite Hp, drop_0. by eexists.
Qed.

(** Where every record has an identifier the stream is that of [SliceToSeq]. *)
Lemma stream_of_all {R K IE} (id : R → K) (data : R → value) (l : list R) :
  stream_of (IE := IE) (λ r, inl (id r)) data l = SliceToSeq (map (λ r, mkWithID (id r) (data r)) l).
Proof. induction l as [|r l IH]; [done|]. unfold SliceToSeq in *. simpl. by f_equal. Qed.

Module BridgeExamples.

(** Takes two records, then stops. *)
Definition two (x : WithID nat + stream_error unit) (acc : list nat) : list nat * bool :=
  match x with inl w => (acc ++ [w_ID w], length acc <? 1) | inr _ => (acc, false) end.

Definition numbers : recordsReader nat := NewRecordsReader (Some [4; 5; 6]).

Lemma ReaderToSeq_closes_once_witness :
  ReaderToSeq slice_reader (IE := unit) inl (λ _, VNil) two 4 numbers [] = Some (mkRecordsReader 1 None, [4; 5]) ∧
  ∃ n, 1 ≤ n ∧ ReaderToSeq (noting slice_reader) (IE := unit) inl (λ _, VNil) two 4 (numbers, []) [] =
    Some ((mkRecordsReader 1 None, replicate n called_Next ++ [called_Close]), [4; 5]).
Proof.
  split; [reflexivity|].
  exact (ReaderToSeq_closes_once slice_reader inl (λ _, VNil) two 4 numbers [] _ _ eq_refl).
Defined.

Lemma ReaderToSeq_slice_witness :
  ∃ s', ReaderToSeq slice_reader (IE := unit) inl (λ _, VNil) two 4 (NewRecordsReader (Some [4; 5; 6])) [] =
    Some (s', range_over two (stream_of inl (λ _, VNil) [4; 5; 6]) []).
Proof. apply (ReaderToSeq_slice inl (λ _, VNil) two [4; 5; 6] 4 []). repeat constructor. Defined.

End BridgeExamples.
