(* ===== verification/RecordRender.v ===== *)
(** * Renderings of a diff (src/recordops: render_json.go, render_yaml.go,
    render_yaml_byid.go, render_yaml_gitstyle.go)

    A diff stream is the finite list of what it yields.  The YAML and JSON
    encoders come from elsewhere: the renderers that call them are modelled up
    to the tree of nodes that they build.  The by-ID document is proved to
    determine the differences, and the git-style text to consist of the blocks
    of the records that differ. *)

From Stdlib Require Import String.
From stdpp Require Import base gmap list strings pretty.
From S2P Require Import Prelude StableSort GoValues RecordCompare RecordDiff.

Local Open Scope string_scope.
Local Open Scope nat_scope.
Local Open Scope list_scope.
Set Warnings "-register-all".

(** A diff stream yields differences and at most one error. *)
Section Stream.
Context {K E : Type}.

Fixpoint collected (diffs : list (IDDiff K + E)) : res E (list (IDDiff K)) :=
  match diffs with
  | [] => Ret []
  | inr e :: _ => Fail e
  | inl d :: diffs => do ds <- collected diffs; Ret (d :: ds)
  end.

(** [json.MarshalIndent] or [yaml.Marshal] of the map from the name to the
    differences: a text or an error. *)
Definition render_with (Marshal : string → list (IDDiff K) → string + E) (diffs : list (IDDiff K + E)) (collectionName : string)
  : res E string :=
  do ds <- collected diffs;
  match Marshal collectionName ds with inl text => Ret text | inr e => Fail e end.

Definition RenderJSON (MarshalIndent : string → list (IDDiff K) → string + E) := render_with MarshalIndent.
Definition RenderYAML (Marshal : string → list (IDDiff K) → string + E) := render_with Marshal.
End Stream.

Definition statusName (s : RecordStatus) : string :=
  match s with Missing => "missing" | Extra => "extra" | Matched => "matched" | Changed => "changed" end.

(** ** The tree of a by-ID document *)

(** [yaml.Node]: the scalars and mappings that the code builds, and those that
    [Encode] makes of a value. *)
Inductive node :=
| ScalarNode (text tag : string) (quoted : bool)
| MappingNode (flow : bool) (content : list node)
| EncodedNode (v : value).

Definition plain (text : string) : node := ScalarNode text "" false.
Definition null_node : node := ScalarNode "null" "!!null" false.

Section ByID.
Context {K E : Type}.
(** [fmt.Sprintf("%v", id)], and whether [Encode] of a value succeeds *)
Context (text_ID : K → string) (encodes : value → bool).

Definition valueNode (v : value) : node :=
  match v with VNil => null_node | _ => if encodes v then EncodedNode v else null_node end.

Definition field_node (fv : FieldValue) : node :=
  if fv_Absent fv then MappingNode false [plain "absent"; ScalarNode "true" "!!bool" false]
  else MappingNode false [plain "new"; valueNode (fv_Value fv)].

Definition buildFieldsNode (fields : list FieldValue) : node :=
  MappingNode false (concat (map (λ fv, [plain (fv_Name fv); field_node fv]) fields)).

Definition buildCandidateStateNode (c : CandidateState) : node :=
  MappingNode false ([plain "status"; plain (statusName (cs_Status c))] ++
    match cs_Fields c with [] => [] | fields => [plain "fields"; buildFieldsNode fields] end).

Definition buildCandidatesNode (cs : list CandidateState) : node :=
  match cs with
  | [] => MappingNode true []
  | _ => MappingNode false (concat (imap (λ i c, [ScalarNode (pretty i) "!!str" true; buildCandidateStateNode c]) cs))
  end.

Definition buildBaselineNode (s : RecordSnapshot) : node :=
  match snap_Fields s with
  | [] => MappingNode true []
  | fields => MappingNode false (concat (map (λ fv, [plain (fv_Name fv); valueNode (fv_Value fv)]) fields))
  end.

Definition buildIDDiffNode (d : IDDiff K) : node :=
  MappingNode false
    (match dd_Baseline d with Some s => [plain "baseline"; buildBaselineNode s] | None => [] end ++
     [plain "candidates"; buildCandidatesNode (dd_Candidates d)]).

Definition byid_body (ds : list (IDDiff K)) : node :=
  match ds with
  | [] => MappingNode true []
  | _ => MappingNode false (concat (map (λ d, [plain (text_ID (dd_ID d)); buildIDDiffNode d]) ds))
  end.

Definition byid_root (collectionName : string) (ds : list (IDDiff K)) : node :=
  MappingNode false [plain collectionName; byid_body ds].

(** [yaml.Marshal] of the root, whose error is dropped. *)
Definition RenderYAMLByID (Marshal : node → string) (diffs : list (IDDiff K + E)) (collectionName : string) : res E string :=
  do ds <- collected diffs; Ret (Marshal (byid_root collectionName ds)).

(** ** Reading a by-ID document

    What the document shows of a difference: the text of its identifier, the
    baseline's fields, and each candidate's status and changed fields; a field
    that a candidate does not have is [None]. *)
Record byid_view := mkView {
  view_ID : string;
  view_baseline : option (list (string * node));
  view_candidates : list (string * list (string * option node));
}.

Definition view_delta (fv : FieldValue) : string * option node :=
  (fv_Name fv, if fv_Absent fv then None else Some (valueNode (fv_Value fv))).

Definition view_of (d : IDDiff K) : byid_view := mkView (text_ID (dd_ID d))
  ((λ s, map (λ fv, (fv_Name fv, valueNode (fv_Value fv))) (snap_Fields s)) <$> dd_Baseline d)
  (map (λ c, (statusName (cs_Status c), map view_delta (cs_Fields c))) (dd_Candidates d)).

(** The pairs of a mapping. *)
Fixpoint pairs_of (l : list node) : list (string * node) :=
  match l with
  | ScalarNode k _ _ :: v :: l => (k, v) :: pairs_of l
  | _ => []
  end.
Definition entries_of (n : node) : list (string * node) :=
  match n with MappingNode _ content => pairs_of content | _ => [] end.
Fixpoint entry (k : string) (l : list (string * node)) : option node :=
  match l with [] => None | (k', v) :: l => if String.eqb k k' then Some v else entry k l end.
Definition scalar_text (n : node) : string := match n with ScalarNode s _ _ => s | _ => "" end.

Definition read_delta (p : string * node) : string * option node := (p.1, entry "new" (entries_of p.2)).
Definition read_candidate (n : node) : string * list (string * option node) :=
  let l := entries_of n in
  (default "" (scalar_text <$> entry "status" l), default [] ((λ f, map read_delta (entries_of f)) <$> entry "fields" l)).
Definition read_difference (p : string * node) : byid_view :=
  let l := entries_of p.2 in
  mkView p.1 (entries_of <$> entry "baseline" l)
    (default [] ((λ cs, map (λ kn, read_candidate kn.2) (entries_of cs)) <$> entry "candidates" l)).
Definition read_document (root : node) : option (string * list byid_view) :=
  match entries_of root with
  | [(name, body)] => Some (name, map read_difference (entries_of body))
  | _ => None
  end.

Lemma pairs_of_concat {A} (f : A → string) (tag : A → string) (q : A → bool) (g : A → node) l :
  pairs_of (concat (map (λ x, [ScalarNode (f x) (tag x) (q x); g x]) l)) = map (λ x, (f x, g x)) l.
Proof. induction l as [|x l IH]; [done|]. cbn. by f_equal. Qed.

Lemma pairs_of_concat_imap {A} (f : nat → string) (g : A → node) l :
  map snd (pairs_of (concat (imap (λ i x, [ScalarNode (f i) "!!str" true; g x]) l))) = map g l.
Proof.
  revert f. induction l as [|x l IH]; intros f; [done|]. cbn. f_equal. exact (IH (f ∘ Datatypes.S)).
Qed.

Lemma read_delta_field fv : read_delta (fv_Name fv, field_node fv) = view_delta fv.
Proof. unfold read_delta, view_delta, field_node. by destruct (fv_Absent fv). Qed.

Lemma read_candidate_build c :
  read_candidate (buildCandidateStateNode c) = (statusName (cs_Status c), map view_delta (cs_Fields c)).
Proof.
  destruct c as [st fields]. unfold buildCandidateStateNode, read_candidate. cbn [cs_Status cs_Fields].
  destruct fields as [|fv fields]; [done|].
  assert (Hf : map read_delta (entries_of (buildFieldsNode (fv :: fields))) = map view_delta (fv :: fields)).
  { unfold buildFieldsNode, plain, entries_of.
    rewrite (pairs_of_concat fv_Name (λ _, "") (λ _, false) field_node (fv :: fields)), map_map.
    apply map_ext. exact read_delta_field. }
  rewrite <- Hf. by generalize (buildFieldsNode (fv :: fields)).
Qed.

Lemma read_candidates_build cs :
  map (λ kn, read_candidate kn.2) (entries_of (buildCandidatesNode cs)) =
  map (λ c, (statusName (cs_Status c), map view_delta (cs_Fields c))) cs.
Proof.
  destruct cs as [|c cs]; [done|]. unfold buildCandidatesNode, entries_of.
  rewrite <- (map_map snd read_candidate), (pairs_of_concat_imap pretty), map_map.
  apply map_ext. exact read_candidate_build.
Qed.

Lemma read_baseline_build s :
  entries_of (buildBaselineNode s) = map (λ fv, (fv_Name fv, valueNode (fv_Value fv))) (snap_Fields s).
Proof.
  unfold buildBaselineNode, plain. destruct (snap_Fields s) as [|fv fields]; [done|]. cbn [entries_of].
  by rewrite (pairs_of_concat fv_Name (λ _, "") (λ _, false)).
Qed.

Lemma read_difference_build d : read_difference (text_ID (dd_ID d), buildIDDiffNode d) = view_of d.
Proof.
  destruct d as [id base cs]. unfold read_difference, view_of, buildIDDiffNode. cbn [dd_ID dd_Baseline dd_Candidates fst snd].
  rewrite <- (read_candidates_build cs). generalize (buildCandidatesNode cs). intros cn.
  destruct base as [s|]; [|done]. simpl. rewrite <- (read_baseline_build s). by generalize (buildBaselineNode s).
Qed.
End ByID.

(** The by-ID document of a diff tells, for every difference in order, its
    identifier, the baseline's fields, and for every candidate its status and
    the fields that differ, with a field the candidate lacks told apart from a
    field that is null; the renderer fails exactly when the stream does, with
    the stream's error. *)
Theorem byid_document_roundtrip {K E} (text_ID : K → string) encodes (Marshal : node → string)
    (diffs : list (IDDiff K + E)) name :
  match RenderYAMLByID text_ID encodes Marshal diffs name with
  | Ret text => ∃ ds, diffs = inl <$> ds ∧ text = Marshal (byid_root text_ID encodes name ds) ∧
      read_document (byid_root text_ID encodes name ds) = Some (name, map (view_of text_ID encodes) ds)
  | Fail e => ∃ before after, diffs = (inl <$> before) ++ inr e :: after
  | Panic _ => False
  end.
Proof.
  unfold RenderYAMLByID. assert (Hc : match collected diffs with
    | Ret ds => diffs = inl <$> ds
    | Fail e => ∃ before after, diffs = (inl <$> before) ++ inr e :: after
    | Panic _ => False end).
  { induction diffs as [|[d|e] diffs IH]; simpl; [done| |by exists [], diffs].
    destruct (collected diffs) as [ds|e|msg]; simpl; [by rewrite IH| |done].
    destruct IH as (before & after & ->). by exists (d :: before), after. }
  destruct (collected diffs) as [ds|e|msg]; simpl; [|done..].
  exists ds. split_and!; [done..|]. unfold read_document. cbn [byid_root entries_of pairs_of plain]. do 2 f_equal.
  transitivity (map read_difference (map (λ d, (text_ID (dd_ID d), buildIDDiffNode encodes d)) ds)).
  - f_equal. destruct ds as [|d ds]; [done|]. apply (pairs_of_concat (λ d, text_ID (dd_ID d)) (λ _, "") (λ _, false)).
  - rewrite map_map. apply map_ext. intros d. apply read_difference_build.
Qed.

(** ** The git-style text *)

Section GitStyle.
Context `{GoFmt} {K E : Type} (text_ID : K → string).

Definition newline : string := String (Ascii.ascii_of_nat 10) "".
Definition line (marker name : string) (v : value) : string := marker +:+ name +:+ ": " +:+ sprint v +:+ newline.

(** The copy is sorted by name, whose order is total on different names. *)
Definition sortedFields (fields : list FieldValue) : list FieldValue := stable_sort field_less fields.

(** The last field of a name wins in the map. *)
Definition baselineByName (base : option RecordSnapshot) : gmap string FieldValue :=
  match base with
  | None => ∅
  | Some s => fold_left (λ m bf, <[fv_Name bf := bf]> m) (snap_Fields s) ∅
  end.

Definition changed_lines (baseline : gmap string FieldValue) (f : FieldValue) : string :=
  match baseline !! fv_Name f with Some bf => line "-   " (fv_Name f) (fv_Value bf) | None => "" end +:+
  (if fv_Absent f then "" else line "+   " (fv_Name f) (fv_Value f)).

(** What is written for one difference. *)
Definition git_block (candidateIndex : Z) (d : IDDiff K) : string :=
  if (candidateIndex <? 0)%Z || (Z.of_nat (length (dd_Candidates d)) <=? candidateIndex)%Z then ""
  else
    match dd_Candidates d !! Z.to_nat candidateIndex with
    | None => ""
    | Some cand =>
        match cs_Status cand with
        | Matched => ""
        | Missing => "- " +:+ text_ID (dd_ID d) +:+ newline
        | Extra => "+ " +:+ text_ID (dd_ID d) +:+ ":" +:+ newline +:+
            String.concat "" (map (λ f, line "    " (fv_Name f) (fv_Value f)) (sortedFields (cs_Fields cand)))
        | Changed => text_ID (dd_ID d) +:+ ":" +:+ newline +:+
            String.concat "" (map (changed_lines (baselineByName (dd_Baseline d))) (sortedFields (cs_Fields cand)))
        end
    end.

Fixpoint git_body (candidateIndex : Z) (diffs : list (IDDiff K + E)) (body : string) : res E string :=
  match diffs with
  | [] => Ret body
  | inr e :: _ => Fail e
  | inl d :: diffs => git_body candidateIndex diffs (body +:+ git_block candidateIndex d)
  end.

Definition RenderYAMLGitStyle (diffs : list (IDDiff K + E)) (candidateIndex : Z) (collectionName : string) : res E string :=
  do body <- git_body candidateIndex diffs "";
  Ret (if decide (body = "") then collectionName +:+ ": {}" +:+ newline else collectionName +:+ ":" +:+ newline +:+ body).

(** The difference concerns the candidate. *)
Definition differs (candidateIndex : Z) (d : IDDiff K) : bool :=
  (0 <=? candidateIndex)%Z &&
  match dd_Candidates d !! Z.to_nat candidateIndex with
  | Some cand => negb (bool_decide (cs_Status cand = Matched))
  | None => false
  end.

Lemma string_app_nil_r (s : string) : s +:+ "" = s.
Proof. induction s as [|c s IH]; [done|]. change (String c (s +:+ "") = String c s). by rewrite IH. Qed.

Lemma string_app_assoc (a b c : string) : (a +:+ b) +:+ c = a +:+ (b +:+ c).
Proof. induction a as [|x a IH]; [done|]. change (String x ((a +:+ b) +:+ c) = String x (a +:+ (b +:+ c))). by rewrite IH. Qed.

Lemma string_app_nonempty_r (a : string) c s : a +:+ String c s ≠ "".
Proof. by destruct a. Qed.

Lemma concat_cons (x : string) l : String.concat "" (x :: l) = x +:+ String.concat "" l.
Proof. destruct l as [|y l]; [simpl; by rewrite string_app_nil_r|done]. Qed.

(** A difference that does not concern the candidate writes nothing; another
    one writes something. *)
Lemma git_block_empty i d : git_block i d = "" ↔ differs i d = false.
Proof.
  unfold git_block, differs. destruct (Z.ltb_spec i 0) as [Hi|Hi]; cbn [orb].
  { by rewrite (proj2 (Z.leb_gt 0 i)) by lia. }
  rewrite (proj2 (Z.leb_le 0 i)) by lia. cbn [andb].
  destruct (Z.leb_spec (Z.of_nat (length (dd_Candidates d))) i) as [Hl|Hl].
  { by rewrite lookup_ge_None_2 by lia. }
  destruct (dd_Candidates d !! Z.to_nat i) as [c|]; [|done].
  destruct (cs_Status c); rewrite ?bool_decide_false by done; cbn [negb]; split; try done.
  all: intros Hs; exfalso; revert Hs; unfold newline.
  all: rewrite <- ?string_app_assoc; rewrite ?string_app_assoc.
  all: destruct (text_ID (dd_ID d)); try discriminate; done.
Qed.

Lemma git_body_blocks i ds body :
  git_body i (inl <$> ds) body = Ret (body +:+ String.concat "" (map (git_block i) ds)).
Proof.
  revert body. induction ds as [|d ds IH]; intros body; [simpl; by rewrite string_app_nil_r|].
  change (git_body i (inl <$> d :: ds) body) with (git_body i (inl <$> ds) (body +:+ git_block i d)).
  rewrite IH, string_app_assoc. cbn [map]. by rewrite concat_cons.
Qed.

Lemma concat_filter i ds :
  String.concat "" (map (git_block i) ds) = String.concat "" (map (git_block i) (List.filter (differs i) ds)).
Proof.
  induction ds as [|d ds IH]; [done|]. cbn [map List.filter]. rewrite concat_cons.
  destruct (differs i d) eqn:Ed; [cbn [map]; by rewrite concat_cons, IH|].
  by rewrite (proj2 (git_block_empty i d) Ed), IH.
Qed.

Lemma app_eq_nil (a b : string) : a +:+ b = "" → a = "" ∧ b = "".
Proof. destruct a; [by change ("" +:+ b) with b|]. intros Hab. discriminate Hab. Qed.

Lemma concat_empty i ds : String.concat "" (map (git_block i) ds) = "" ↔ List.filter (differs i) ds = [].
Proof.
  rewrite concat_filter. split; [|by intros ->]. intros He.
  destruct (List.filter (differs i) ds) as [|d l] eqn:Ef; [done|]. exfalso.
  cbn [map] in He. rewrite concat_cons in He. apply app_eq_nil in He as [He _].
  apply git_block_empty in He. assert (Hin : In d (List.filter (differs i) ds)) by (rewrite Ef; by left).
  apply List.filter_In in Hin as [_ Hd]. congruence.
Qed.
End GitStyle.

(** The git-style text of a diff is the name of the collection and the
    blocks of the differences that concern the candidate, in order; it says
    that the collection is empty exactly when there are none, which is also so
    for an index that is not a candidate's. *)
Theorem git_style_blocks `{GoFmt} {K E} (text_ID : K → string) (ds : list (IDDiff K)) i name :
  RenderYAMLGitStyle (E := E) text_ID (inl <$> ds) i name =
  Ret (match List.filter (differs i) ds with
       | [] => name +:+ ": {}" +:+ newline
       | shown => name +:+ ":" +:+ newline +:+ String.concat "" (map (git_block text_ID i) shown)
       end).
Proof.
  unfold RenderYAMLGitStyle. rewrite git_body_blocks. cbn [rbind]. change ("" +:+ ?s) with s.
  destruct (decide (String.concat "" (map (git_block text_ID i) ds) = "")) as [He|He].
  - by rewrite (proj1 (concat_empty text_ID i ds) He).
  - rewrite concat_filter in *. destruct (List.filter (differs i) ds); [done|reflexivity].
Qed.

Module RenderExamples.
Import DiffExamples.

Example git_of_two :
  RenderYAMLGitStyle (H := {| fmt_float _ _ := "0"; method_String _ := None |}) (E := unit) (λ n : nat, pretty n)
    (inl <$> [mkIDDiff 1 None [mkCandidateState Missing []];
              mkIDDiff 2 (Some (mkRecordSnapshot [mkFieldValue "name" (vstr "Ann") false]))
                [mkCandidateState Changed [mkFieldValue "name" (vstr "Bob") false]]]) 0 "users" =
  Ret ("users:" +:+ newline +:+ "- 1" +:+ newline +:+ "2:" +:+ newline +:+
       "-   name: Ann" +:+ newline +:+ "+   name: Bob" +:+ newline).
Proof. reflexivity. Qed.

End RenderExamples.
