(* ===== verification/MemoryDiff.v ===== *)
(** * The differences between in-memory databases
    (src/recordops over src/adapters/dalgo2memory)

    A query of a whole collection returns its records by identifier, so the
    streams over the results of several databases meet what the merge of
    RecordDiff.v asks for: the differences are those of the stored records. *)

From Stdlib Require Import String Sorted.
From stdpp Require Import base gmap sets list strings.
From S2P Require Import Prelude StableSort GoValues GoMaps GoStrings GoJSON RecordKey DalQuery DalString.
From S2P Require Import MemoryRows MemoryQuery MemoryOrder MemoryResults MemoryUpdate MemoryEngine.
From S2P Require Import MemorySession MemorySessionLaws MemoryExamples.
From S2P Require Import DalReader RecordCompare RecordDiff RecordBridge.

Local Open Scope string_scope.
Local Open Scope nat_scope.
Local Open Scope list_scope.

#[export] Instance string_less : StrictTotal String.ltb.
Proof.
  split.
  - intros a. apply not_true_is_false. rewrite string_ltb_lt. apply string_lt_irrefl.
  - intros a b c. rewrite !string_ltb_lt. apply string_lt_trans.
  - intros a b Hab Hba. apply string_lt_total; by rewrite <- string_ltb_lt, ?Hab, ?Hba.
Qed.

Lemma lookup_id_sorted {K} `{!EqDecision K} (less : K → K → bool) `{!StrictTotal less} (rs : list (WithID K)) r :
  sorted less rs → r ∈ rs → lookup_id (w_ID r) rs = Some r.
Proof.
  intros Hs. induction Hs as [|x l Hs IH Hx]; [by intros ?%elem_of_nil|]. simpl.
  intros [->|Hr]%elem_of_cons; [by rewrite bool_decide_eq_true_2|].
  rewrite bool_decide_eq_false_2; [by apply IH|]. rewrite Forall_forall in Hx. specialize (Hx r Hr).
  intros Heq. rewrite Heq, less_irrefl in Hx. done.
Qed.

Lemma StronglySorted_weaken {A} (P Q : A → A → Prop) l :
  (∀ x y, P x y → Q x y) → StronglySorted P l → StronglySorted Q l.
Proof.
  intros HPQ. induction 1 as [|x l _ IH Hx]; constructor; [done|]. eapply Forall_impl; [exact Hx|]. naive_solver.
Qed.

Lemma StronglySorted_map {A B} (f : A → B) (P : B → B → Prop) l :
  StronglySorted (λ x y, P (f x) (f y)) l → StronglySorted P (f <$> l).
Proof. induction 1 as [|x l _ IH Hx]; constructor; [done|]. by apply Forall_fmap. Qed.

Lemma filter_all {A} (f : A → bool) l : (∀ x, x ∈ l → f x = true) → List.filter f l = l.
Proof.
  induction l as [|x l IH]; intros Hf; simpl; [done|]. rewrite Hf by (by left).
  f_equal. apply IH. intros y Hy. apply Hf. by right.
Qed.

(** ** The query of a whole collection *)

(** Its records are loaded into copies of [target]. *)
Definition scan `{RecordKeys} (c : string) (target : value) : structuredQuery :=
  mkQuery (Some (From_ (CollectionRef false c "" None))) None [] None [] [] (Some target) [] 0 0 0 "".

Section Scan.
Context `{GoFmt, GoJSON, Decoders}.
Context {E R : Type} `{StorageEngine E} `{!EngineModel E R} `{!EngineLaws E R}.
Context (cfg : config (E:=E)) (NewKeyWithID : string → string → key).
Context (c : string) (target : value).

Notation state := (MemorySession.state (E:=E)).

(** The identifier that the caller gives a record by its key. *)
Context (idOf : key → string).

(** The data of a stored record, and its key in a result. *)
Definition loaded (e : E) (r : R * option key) : res mem_error value := do j <- document e r.1; Unmarshal_into j target.
Definition result_key (id : string) (r : R * option key) : key := default (NewKeyWithID c id) r.2.

(** Every record can be loaded, and is named as it is stored. *)
Record readable (e : E) : Prop := {
  readable_ok : engine_ok e;
  readable_full : candidate_rows e None = Ret None;
  readable_row id r : contents e !! id = Some r → ∃ row, row_of e id r = Ret row;
  readable_data id r : contents e !! id = Some r → ∃ d, loaded e r = Ret d;
  readable_id id r : contents e !! id = Some r → idOf (result_key id r) = id;
}.

(** The record under an identifier. *)
Definition record_under (e : E) (id : string) : option (WithID string) :=
  match contents e !! id with
  | Some r => match loaded e r with Ret d => Some (mkWithID id d) | _ => None end
  | None => None
  end.

(** A result as the stream that [ReaderToSeq] makes of its reader. *)
Definition stream (results : list result_record) : list (WithID string + stream_error unit) :=
  stream_of (λ r, inl (idOf (rec_key r))) rec_data results.

Definition with_id (r : result_record) : WithID string := mkWithID (idOf (rec_key r)) (rec_data r).

Lemma stream_slice results : stream results = SliceToSeq (with_id <$> results).
Proof. apply (stream_of_all (λ r, idOf (rec_key r)) rec_data). Qed.

(** The result record of a row that can be loaded. *)
Definition of_row (row : memoryRow) : result_record :=
  mkResult (default (NewKeyWithID c (row_id row)) (row_key row))
    (match Unmarshal_into (row_text row) target with Ret d => d | _ => VNil end).

Lemma row_of_inv e id r row : row_of e id r = Ret row →
  row_id row = id ∧ row_key row = r.2 ∧ document e r.1 = Ret (row_text row).
Proof.
  unfold row_of. destruct (document e r.1) as [j| |]; [|done..]. simpl. destruct (unmarshal_map j); [|done].
  by intros [= <-].
Qed.

(** The rows of a readable engine, each with its record. *)
Lemma readable_rows e : readable e → ∃ rs, rows e = Ret rs ∧ NoDup (row_id <$> rs) ∧
  (∀ row, row ∈ rs → ∃ d, Unmarshal_into (row_text row) target = Ret d ∧
     record_under e (row_id row) = Some (mkWithID (row_id row) d) ∧ with_id (of_row row) = mkWithID (row_id row) d) ∧
  (∀ id, is_Some (contents e !! id) → id ∈ row_id <$> rs).
Proof.
  intros Hr. destruct (rows_spec e (readable_ok e Hr)) as (l & Hperm & Hrows).
  assert (Hl : ∀ x, x ∈ l → contents e !! x.1 = Some x.2).
  { intros [id r] Hx. rewrite Hperm in Hx. by apply elem_of_map_to_list in Hx. }
  pose (g := λ x : string * (R * option key), match row_of e x.1 x.2 with Ret row => row | _ => mkRow x.1 [] JNull None end).
  assert (Hg : ∀ x, x ∈ l → row_of e x.1 x.2 = Ret (g x)).
  { intros x Hx. destruct (readable_row e Hr _ _ (Hl x Hx)) as [row Hrow]. unfold g. by rewrite Hrow. }
  assert (Hid : ∀ x, x ∈ l → row_id (g x) = x.1) by (intros x Hx; by apply (row_of_inv e _ x.2), Hg).
  exists (g <$> l). split_and!.
  - rewrite Hrows. apply traverse_from_const. intros j x Hx. by apply Hg.
  - rewrite <- list_fmap_compose. rewrite (list_fmap_ext _ fst).
    + rewrite Hperm. apply NoDup_fst_map_to_list.
    + intros i x Hx. apply list_elem_of_lookup_2 in Hx. by apply Hid.
  - intros row (x & -> & Hx)%list_elem_of_fmap. destruct (readable_data e Hr _ _ (Hl x Hx)) as [d Hd].
    destruct (row_of_inv e _ _ _ (Hg x Hx)) as (Hrid & Hkey & Hdoc). pose proof Hd as Hd'. unfold loaded in Hd.
    rewrite Hdoc in Hd. simpl in Hd. exists d. split; [done|]. rewrite Hrid.
    unfold record_under. rewrite (Hl x Hx), Hd'. split; [done|]. unfold with_id, of_row. simpl. rewrite Hd, Hrid, Hkey.
    pose proof (readable_id e Hr _ _ (Hl x Hx)) as Hname. unfold result_key in Hname. by rewrite Hname.
  - intros id [r Hc]. apply list_elem_of_fmap. exists (g (id, r)).
    assert (Hin : (id, r) ∈ l) by (rewrite Hperm; by apply elem_of_map_to_list).
    split; [by rewrite (Hid _ Hin)|]. by apply list_elem_of_fmap_2.
Qed.
(** The rows by identifier. *)
Definition by_id (rs : list memoryRow) : list memoryRow :=
  orderBySources [] (λ r, baseSources (CollectionRef false c "" None) (row_data r)) row_id rs.

Lemma by_id_spec rs : NoDup (row_id <$> rs) →
  by_id rs ≡ₚ rs ∧ StronglySorted (λ a b, String.ltb (row_id a) (row_id b) = true) (by_id rs).
Proof.
  intros Hnd. destruct (orderBySources_spec (λ _ _, true) [] (λ r, baseSources (CollectionRef false c "" None) (row_data r)) row_id rs)
    as [Hp Hs]; [by apply Forall_true; intros; constructor|done|]. split; [done|].
  eapply StronglySorted_weaken; [|exact Hs]. intros a b [Hlt|[_ Hlt]]; [done|by apply string_ltb_lt].
Qed.

Lemma scan_rows (factory : option value) rs :
  (∀ row, row ∈ rs → ∃ d, Unmarshal_into (row_text row) target = Ret d) →
  executeQuery NewKeyWithID Unmarshal_into (scan c target) (CollectionRef false c "" None) factory rs = Ret (of_row <$> by_id rs).
Proof.
  intros Hd. destruct rs as [|r rs]; [done|].
  rewrite executeQuery_selected; [|done|done|by intros row _; eexists|done|done].
  unfold apply_limit. simpl. unfold selected. rewrite filter_all.
  - apply traverse_from_const. intros j row Hrow. destruct (Hd row) as [d Hrd].
    { unfold by_id, orderBySources in Hrow. by rewrite stable_sort_perm in Hrow. }
    unfold result_of, result_of_row, resultKey, of_row. simpl. rewrite Hrd. by destruct (row_key row).
  - done.
Qed.

(** ** Reading a database *)

(** The state lets the query through, and the collection is readable. *)
Definition readable_state (s : state) : Prop :=
  (allowRead s).2 = Ret tt ∧ readable (engine_of cfg s c).

Definition scan_all (s : state) : res mem_error (list result_record) :=
  (ExecuteQueryToRecordsReader cfg NewKeyWithID (StructuredQuery (scan c target)) s).2.

(** What a stream holds of a state: its records by identifier. *)
Definition streams (s : state) (results : list result_record) : Prop :=
  scan_all s = Ret results ∧ sorted String.ltb (with_id <$> results) ∧
  ∀ id, lookup_id id (with_id <$> results) = record_under (engine_of cfg s c) id ∧
    (has_id id (with_id <$> results) ↔ is_Some (stored cfg s c id)).

Context (factory : option value) (Hdefined : recordFactory cfg c = Ret factory).

Lemma scan_all_rows s rs : (allowRead s).2 = Ret tt → candidate_rows (engine_of cfg s c) None = Ret None →
  rows (engine_of cfg s c) = Ret rs →
  (∀ row, row ∈ rs → ∃ d, Unmarshal_into (row_text row) target = Ret d) → scan_all s = Ret (of_row <$> by_id rs).
Proof.
  intros Ha Hc Hrows Hd. unfold scan_all, ExecuteQueryToRecordsReader, mbind.
  assert (allowRead s = (s, Ret tt)) as ->.
  { unfold allowRead in *. by repeat case_match. }
  cbn [scan q_from From_ from_Joins from_Base length source_Name q_where]. simpl. unfold mlift. rewrite Hdefined.
  unfold loadCandidateRows, mbind. destruct (engine_run cfg s c) as (s' & -> & _). unfold mlift. rewrite Hc, Hrows.
  by apply scan_rows.
Qed.

Lemma readable_streams s : readable_state s → ∃ results, streams s results.
Proof.
  intros [Ha Hr]. destruct (readable_rows _ Hr) as (rs & Hrows & Hnd & Hrow & Hall).
  destruct (by_id_spec rs Hnd) as [Hperm Hsort]. exists (of_row <$> by_id rs).
  assert (Hid : ∀ row, row ∈ by_id rs → w_ID (with_id (of_row row)) = row_id row).
  { intros row Hin. rewrite Hperm in Hin. by destruct (Hrow row Hin) as (d & _ & _ & ->). }
  assert (Hs : sorted String.ltb (with_id <$> (of_row <$> by_id rs))).
  { rewrite <- list_fmap_compose. apply StronglySorted_map. revert Hsort Hid. generalize (by_id rs).
    induction 1 as [|x l _ IH Hx]; intros Hid; constructor; [apply IH; intros y Hy; apply Hid; by right|].
    rewrite Forall_forall in *. intros y Hy. unfold compose. rewrite !Hid by (by constructor). by apply Hx. }
  split; [|split; [done|]].
  - apply scan_all_rows; [done|by apply readable_full|done|]. intros row Hin. destruct (Hrow row Hin) as (d & Hd & _). eauto.
  - assert (Hin : ∀ row, row ∈ rs → with_id (of_row row) ∈ with_id <$> (of_row <$> by_id rs)).
    { intros row Hin. do 2 apply list_elem_of_fmap_2. by rewrite Hperm. }
    assert (Hof : ∀ id, is_Some (contents (engine_of cfg s c) !! id) → ∃ row d, row ∈ rs ∧ row_id row = id ∧
      with_id (of_row row) = mkWithID id d ∧ record_under (engine_of cfg s c) id = Some (mkWithID id d)).
    { intros id (row & -> & Hr')%Hall%list_elem_of_fmap. destruct (Hrow row Hr') as (d & _ & Hu & Hw). by exists row, d. }
    intros id. assert (Hhas : has_id id (with_id <$> (of_row <$> by_id rs)) ↔ is_Some (contents (engine_of cfg s c) !! id)).
    { split.
      - intros (w & (r & -> & (row & -> & Hr')%list_elem_of_fmap)%list_elem_of_fmap & Hw).
        rewrite Hid in Hw by done. rewrite Hperm in Hr'. destruct (Hrow row Hr') as (d & _ & Hu & _).
        unfold record_under in Hu. rewrite Hw in Hu. by destruct (contents _ !! id).
      - intros Hc. destruct (Hof id Hc) as (row & d & Hr' & <- & Hw & _). exists (with_id (of_row row)). split; [by apply Hin|by rewrite Hw]. }
    split; [|exact Hhas]. destruct (contents (engine_of cfg s c) !! id) as [r|] eqn:Hc.
    + destruct (Hof id ltac:(by eexists)) as (row & d & Hr' & Hri & Hw & ->).
      pose proof (lookup_id_sorted String.ltb _ _ Hs (Hin row Hr')) as Hl. rewrite Hw in Hl. exact Hl.
    + unfold record_under. rewrite Hc. apply lookup_id_None. rewrite Hhas. by intros [].
Qed.

(** C11: over databases whose records of a collection can be loaded and are
    named as they are stored, the merge of the streams over their scans yields,
    in ascending order of the identifiers that any of them stores, each once,
    the difference between the records stored under it: the baseline's and
    those of the candidates, loaded, or none where there is none. *)
Theorem diff_of_databases (zero : WithID string) (s0 : state) (ss : list state) opts {S : Type}
    (yield : @out string (stream_error unit) → S → S * bool) st
    (Hbase : readable_state s0) (Hs : Forall readable_state ss) :
  ∃ results candidates ids, scan_all s0 = Ret results ∧ Forall2 (λ s r, scan_all s = Ret r) ss candidates ∧
    StronglySorted (λ a b, String.ltb a b = true) ids ∧
    (∀ id, id ∈ ids ↔ ∃ s, s ∈ s0 :: ss ∧ is_Some (stored cfg s c id)) ∧
    DiffFunc zero (stream results) (stream <$> candidates) (Some String.ltb) opts yield st =
      Some (run_spec (resolveOptions opts) yield
        (λ id, assemble id (record_under (engine_of cfg s0 c) id)
                 ((λ s, record_under (engine_of cfg s c) id) <$> ss) (resolveOptions opts)) ids st).
Proof.
  destruct (readable_streams s0 Hbase) as (results & Hr & Hsort & Hat).
  assert (∃ candidates, Forall2 streams ss candidates) as [candidates Hc].
  { induction Hs as [|s ss Hs1 _ IH]; [by exists []|]. destruct IH as [cs Hcs].
    destruct (readable_streams s Hs1) as [r Hr1]. exists (r :: cs). by constructor. }
  destruct (DiffFunc_spec (E := stream_error unit) zero String.ltb (with_id <$> results) (map (map with_id) candidates) opts yield st) as (ids & Hids & Hin & Hrun).
  { done. }
  { apply Forall_fmap. clear -Hc. induction Hc as [|s r ss cs (_ & Hs & _) _ IH]; by constructor. }
  exists results, candidates, ids. split_and!; [done| |done| |].
  - clear -Hc. induction Hc as [|s r ss cs (Hs & _) _ IH]; by constructor.
  - intros id. rewrite Hin. clear -Hc Hat. split.
    + intros (rs & [->|(r & -> & Hr)%list_elem_of_fmap]%elem_of_cons & Hid).
      * exists s0. split; [by left|]. by apply Hat.
      * apply list_elem_of_lookup in Hr as [i Hr]. destruct (Forall2_lookup_r _ _ _ _ _ Hc Hr) as (s & Hs & _ & _ & Hs').
        exists s. split; [right; by eapply list_elem_of_lookup_2|]. by apply Hs'.
    + intros (s & [->|Hs]%elem_of_cons & Hid).
      * eexists. split; [by left|]. by apply Hat.
      * apply list_elem_of_lookup in Hs as [i Hs]. destruct (Forall2_lookup_l _ _ _ _ _ Hc Hs) as (r & Hr & _ & _ & Hs').
        exists (with_id <$> r). split; [right; apply list_elem_of_fmap_2; by eapply list_elem_of_lookup_2|]. by apply Hs'.
  - assert (Hstreams : stream <$> candidates = SliceToSeq <$> (map (map with_id) candidates)).
    { rewrite <- list_fmap_compose. apply list_fmap_ext. intros i r _. apply stream_slice. }
    rewrite stream_slice, Hstreams, Hrun. f_equal. apply (run_spec_ext String.ltb). intros id _. unfold diff_at. rewrite (proj1 (Hat id)).
    f_equal. clear -Hc. induction Hc as [|s r ss cs (_ & _ & Hs) _ IHc]; [done|]. simpl.
    f_equal; [exact (proj1 (Hs id))|exact IHc].
Qed.
End Scan.

(** ** Examples *)

Module MemoryDiffExamples.
Import MemoryExamples.
#[local] Existing Instance plain_fmt.
#[local] Existing Instance plain_json.
#[local] Existing Instance plain_decoders.
#[local] Existing Instance chain_keys.
#[local] Existing Instance serialized_laws.

Definition with_users (users : list (string * row_map)) : MemorySession.state (E:=serializedEngine) :=
  fold_left (λ s u, (Set_ (schemaless false) (new_key "users" u.1) (vmap u.2) s).1) users (mkState ∅ None).

Definition old_users : MemorySession.state (E:=serializedEngine) := with_users [("a", ann); ("b", bob)].
Definition new_users : MemorySession.state (E:=serializedEngine) := with_users [("c", ann); ("a", bob); ("b", bob)].

Ltac readable_by_computation :=
  split; [reflexivity|]; split;
  [vm_compute; set_solver | reflexivity |
   intros id r Hr%elem_of_map_to_list%list_elem_of_In; vm_compute in Hr;
   repeat (destruct Hr as [[= <- <-]|Hr]; [try (eexists; vm_compute; reflexivity); vm_compute; reflexivity|]); destruct Hr..].

Lemma old_users_readable : readable_state (schemaless false) new_key "users" VNil keyID old_users.
Proof. readable_by_computation. Qed.
Lemma new_users_readable : readable_state (schemaless false) new_key "users" VNil keyID new_users.
Proof. readable_by_computation. Qed.

(** Collects the differences: identifiers with the states of the candidates. *)
Definition note (o : @out string (stream_error unit)) (seen : list (string * list RecordStatus)) :
    list (string * list RecordStatus) * bool :=
  (match o with inl d => seen ++ [(dd_ID d, cs_Status <$> dd_Candidates d)] | inr _ => seen end, true).

Definition no_record : WithID string := mkWithID "" VNil.

Lemma diff_of_databases_witness :
  ∃ results candidates ids, scan_all (schemaless false) new_key "users" VNil old_users = Ret results ∧
    Forall2 (λ s r, scan_all (schemaless false) new_key "users" VNil s = Ret r) [new_users; old_users] candidates ∧
    StronglySorted (λ a b, String.ltb a b = true) ids ∧
    (∀ id, id ∈ ids ↔ ∃ s, s ∈ [old_users; new_users; old_users] ∧ is_Some (stored (schemaless false) s "users" id)) ∧
    DiffFunc no_record (stream keyID results) (stream keyID <$> candidates) (Some String.ltb) [] note [] =
      Some (run_spec (resolveOptions []) note
        (λ id, assemble id (record_under VNil (engine_of (schemaless false) old_users "users") id)
                 ((λ s, record_under VNil (engine_of (schemaless false) s "users") id) <$> [new_users; old_users])
                 (resolveOptions [])) ids []).
Proof.
  apply (diff_of_databases (schemaless false) new_key "users" VNil keyID None eq_refl no_record old_users [new_users; old_users] [] note []).
  - apply old_users_readable.
  - apply Forall_cons; split; [apply new_users_readable|]. apply Forall_singleton, old_users_readable.
Defined.

(** Ann became Bob, Ann is new under another identifier, and the second copy
    has no such record. *)
Definition users_of (s : MemorySession.state (E:=serializedEngine)) : list (WithID string + stream_error unit) :=
  match scan_all (schemaless false) new_key "users" VNil s with Ret r => stream keyID r | _ => [] end.

Example differences_of_users :
  DiffFunc no_record (users_of old_users) (users_of <$> [new_users; old_users]) (Some String.ltb) [] note [] =
    Some (Ret [("a", [Changed; Matched]); ("c", [Extra; Missing])]).
Proof. vm_compute. reflexivity. Qed.
End MemoryDiffExamples.
