(* ===== verification/Dtql.v ===== *)
(** * DTQL documents (src/dtql)

    The structs of shapes.go, the two translations between them and
    structured queries, and the structural equality of queries.  The YAML
    encoding of the structs is that of a library (DtqlText.v). *)

From Stdlib Require Import String.
From stdpp Require Import base sets list strings.
From S2P Require Import Prelude GoValues GoStrings RecordKey DalQuery.

Local Open Scope string_scope.
Local Open Scope nat_scope.
Local Open Scope list_scope.
Set Warnings "-register-all".

(** ** Shapes *)

Record fromYAML := mkFromYAML { f_Name : string; f_Alias : string }.

(** [any] fields: nil is [VNil]. *)
Record exprYAML := mkExprYAML { e_Field : string; e_Value : value; e_Values : value }.

Record columnYAML := mkColumnYAML { col_expr : exprYAML; col_As : string }.
Record orderYAML := mkOrderYAML { ord_expr : exprYAML; ord_Desc : bool }.

(** A nil slice is [None]. *)
Inductive condYAML := mkCondYAML {
  c_Op : string;
  c_Left : option exprYAML;
  c_Right : option exprYAML;
  c_And : option (list condYAML);
  c_Or : option (list condYAML);
}.

Record document := mkDocument {
  d_From : fromYAML;
  d_Columns : list columnYAML;
  d_Where : option condYAML;
  d_OrderBy : list orderYAML;
  d_Limit : Z;
  d_Offset : Z;
}.

(** Induction on conditions and their sub-conditions. *)
Section CondInd.
Context (P : condYAML → Prop).
Context (Hcond : ∀ o l r a b,
  (∀ cs, a = Some cs → Forall P cs) → (∀ cs, b = Some cs → Forall P cs) →
  P (mkCondYAML o l r a b)).

Fixpoint condYAML_nested_ind (c : condYAML) : P c :=
  let list_ind := fix go (l : list condYAML) : Forall P l :=
    match l with
    | [] => List.Forall_nil _
    | x :: l' => @List.Forall_cons _ P x l' (condYAML_nested_ind x) (go l')
    end in
  let opt_ind (a : option (list condYAML)) : ∀ cs, a = Some cs → Forall P cs :=
    match a with
    | None => λ cs e, False_ind _ (eq_ind None (λ x, match x with None => True | Some _ => False end) I _ e)
    | Some l => λ cs e, eq_ind l (Forall P) (list_ind l) cs (f_equal (default []) e)
    end in
  match c with
  | mkCondYAML o l r a b => Hcond o l r a b (opt_ind a) (opt_ind b)
  end.
End CondInd.

Definition inScopeComparisonOps : list Operator :=
  [Equal; In; GreaterThen; GreaterOrEqual; LessThen; LessOrEqual].

Inductive dtql_error :=
| no_from_source
| joins_not_supported
| group_by_not_supported
| cursor_not_supported
| unsupported_from_source
| parented_collection
| at_column (i : nat) (e : dtql_error)
| at_order_by (i : nat) (e : dtql_error)
| at_group_condition (i : nat) (e : dtql_error)
| at_left (e : dtql_error)
| at_right (e : dtql_error)
| unsupported_expression
| unsupported_condition
| unsupported_operator (o : Operator)
| unsupported_group_operator (o : Operator)
| from_name_required
| expression_sets_none
| expression_sets_several
| condition_has_no_form
| condition_mixes_forms
| unknown_comparison_operator (o : Operator)
| comparison_requires_both
| group_is_empty (o : Operator).

Section Dtql.
Context `{RecordKeys}.

(** ** Writing *)

Definition exprToYAML (expr : Expression) : res dtql_error exprYAML :=
  match expr with
  | FieldRef _ name _ => Ret (mkExprYAML name VNil VNil)
  | Constant v => Ret (mkExprYAML "" v VNil)
  | Array v => Ret (mkExprYAML "" VNil v)
  | _ => Fail unsupported_expression
  end.

Fixpoint condToYAML (cond : Condition) : res dtql_error condYAML :=
  match cond with
  | Comparison op l r =>
      if negb (bool_decide (op ∈ inScopeComparisonOps)) then Fail (unsupported_operator op)
      else
        do lhs <- rmap_error at_left (exprToYAML l);
        do rhs <- rmap_error at_right (exprToYAML r);
        Ret (mkCondYAML op (Some lhs) (Some rhs) None None)
  | GroupCondition op conditions =>
      do children <- traverse_from (λ i sub, rmap_error (at_group_condition i) (condToYAML sub))
                       0 conditions;
      if String.eqb op And then Ret (mkCondYAML "" None None (Some children) None)
      else if String.eqb op Or then Ret (mkCondYAML "" None None None (Some children))
      else Fail (unsupported_group_operator op)
  | _ => Fail unsupported_condition
  end.

Definition fromToYAML (from : FromSource) : res dtql_error fromYAML :=
  match from_Base from with
  | CollectionRef false name alias parent =>
      match parent with
      | Some _ => Fail parented_collection
      | None => Ret (mkFromYAML name alias)
      end
  | _ => Fail unsupported_from_source
  end.

Definition queryToDocument (q : structuredQuery) : res dtql_error document :=
  match q_from q with
  | None => Fail no_from_source
  | Some from =>
      if 0 <? length (from_Joins from) then Fail joins_not_supported
      else if 0 <? length (q_groupBy q) then Fail group_by_not_supported
      else if negb (String.eqb (q_startCursor q) "") then Fail cursor_not_supported
      else
        do fromDoc <- fromToYAML from;
        do columns <- traverse (λ i col,
            do e <- rmap_error (at_column i) (exprToYAML (col_Expression col));
            Ret (mkColumnYAML e (Alias col))) (q_columns q);
        do whereDoc <- match q_where q with
                    | None => Ret None
                    | Some cond => do c <- condToYAML cond; Ret (Some c)
                    end;
        do orders <- traverse (λ i o,
            do e <- rmap_error (at_order_by i) (exprToYAML (ord_Expression o));
            Ret (mkOrderYAML e (Descending o))) (q_orderBy q);
        Ret (mkDocument fromDoc columns whereDoc orders (q_limit q) (q_offset q))
  end.

(** ** Reading *)

Definition is_nil (v : value) : bool := match v with VNil => true | _ => false end.

Definition exprFromYAML (e : exprYAML) : res dtql_error Expression :=
  let set :=
    (if String.eqb (e_Field e) "" then 0 else 1) + (if is_nil (e_Value e) then 0 else 1)
    + (if is_nil (e_Values e) then 0 else 1) in
  if set =? 0 then Fail expression_sets_none
  else if 1 <? set then Fail expression_sets_several
  else if negb (String.eqb (e_Field e) "") then Ret (NewFieldRef "" (e_Field e))
  else if negb (is_nil (e_Value e)) then Ret (Constant (e_Value e))
  else Ret (Array (e_Values e)).

Definition comparisonFromYAML (c : condYAML) : res dtql_error Condition :=
  if negb (bool_decide (c_Op c ∈ inScopeComparisonOps)) then Fail (unknown_comparison_operator (c_Op c))
  else
    match c_Left c, c_Right c with
    | Some l, Some r =>
        do lhs <- rmap_error at_left (exprFromYAML l);
        do rhs <- rmap_error at_right (exprFromYAML r);
        Ret (NewComparison lhs (c_Op c) rhs)
    | _, _ => Fail comparison_requires_both
    end.

Definition is_some {A} (o : option A) : bool := match o with Some _ => true | None => false end.

Fixpoint condFromYAML (c : condYAML) : res dtql_error Condition :=
  let isComparison := negb (String.eqb (c_Op c) "") || is_some (c_Left c) || is_some (c_Right c) in
  let hasAnd := is_some (c_And c) in
  let hasOr := is_some (c_Or c) in
  let forms := (if isComparison then 1 else 0) + (if hasAnd then 1 else 0) + (if hasOr then 1 else 0) in
  let groupFromYAML (op : Operator) (subs : list condYAML) :=
    match subs with
    | [] => Fail (group_is_empty op)
    | _ =>
        do conditions <- traverse_from (λ i sub, rmap_error (at_group_condition i) (condFromYAML sub))
                           0 subs;
        Ret (NewGroupCondition op conditions)
    end in
  if forms =? 0 then Fail condition_has_no_form
  else if 1 <? forms then Fail condition_mixes_forms
  else if isComparison then comparisonFromYAML c
  else match c_And c with
       | Some subs => groupFromYAML And subs
       | None => match c_Or c with Some subs => groupFromYAML Or subs | None => groupFromYAML Or [] end
       end.

Definition columnsFromYAML (cols : list columnYAML) : res dtql_error (list Column) :=
  traverse (λ i c, do e <- rmap_error (at_column i) (exprFromYAML (col_expr c));
                   Ret (mkColumn (col_As c) e)) cols.

Definition orderFromYAML (orders : list orderYAML) : res dtql_error (list OrderExpression) :=
  traverse (λ i o, do e <- rmap_error (at_order_by i) (exprFromYAML (ord_expr o));
                   Ret (mkOrder e (ord_Desc o))) orders.

(** A [reconstructedQuery] is the builder's query with other columns. *)
Definition reconstructedQuery (q : structuredQuery) (columns : list Column) : structuredQuery :=
  mkQuery (q_from q) (q_where q) (q_groupBy q) (q_having q) (q_orderBy q) columns
    (q_intoRecord q) (q_recordsetOptions q) (q_offset q) (q_limit q) (q_idKind q) (q_startCursor q).

Definition documentToQuery (doc : document) : res dtql_error structuredQuery :=
  if String.eqb (f_Name (d_From doc)) "" then Fail from_name_required
  else
    do source <- match NewRootCollectionRef (f_Name (d_From doc)) (f_Alias (d_From doc)) with
                 | Ret s => Ret s
                 | Fail _ => Panic "unreachable"
                 | Panic msg => Panic msg
                 end;
    let qb := NewQuery (From_ source) in
    do qb <- match d_Where doc with
             | None => Ret qb
             | Some c => do cond <- condFromYAML c; Ret (Where qb [cond])
             end;
    do orderBy <- orderFromYAML (d_OrderBy doc);
    let qb := match orderBy with [] => qb | _ => OrderBy qb orderBy end in
    let qb := Limit qb (d_Limit doc) in
    let qb := Offset qb (d_Offset doc) in
    do columns <- columnsFromYAML (d_Columns doc);
    let '(_, base) := SelectIntoRecordset qb [] in
    Ret (reconstructedQuery base columns).

(** ** Equality; [None] is a panic of comparing two uncomparable values *)

Definition Array_Equal (v b : value) : option bool :=
  match v, b with
  | VNil, VNil => Some true
  | VNil, _ | _, VNil => Some false
  | VSlice _ l, VSlice _ l' =>
      let l := default [] l in
      let l' := default [] l' in
      if length l =? length l' then first_difference iface_eq l l' else Some false
  | _, _ => iface_eq v b
  end.

Definition exprEqual (a b : Expression) : option bool :=
  match a, b with
  | FieldRef s n i, FieldRef s' n' i' =>
      Some (String.eqb s s' && Bool.eqb i i' && String.eqb n n')
  | Constant v, Constant v' => Some (deep_equal v v')
  | Array v, Array v' => Array_Equal v v'
  | _, _ => Some false
  end.

(** [a && b], where [b] is not evaluated after false. *)
Definition and_then (a b : option bool) : option bool :=
  match a with Some true => b | r => r end.

Fixpoint condEqual (a b : Condition) : option bool :=
  match a, b with
  | NilExpr, NilExpr => Some true
  | Comparison o l r, Comparison o' l' r' =>
      and_then (Some (String.eqb o o')) (and_then (exprEqual l l') (exprEqual r r'))
  | GroupCondition o cs, GroupCondition o' cs' =>
      and_then (Some (String.eqb o o'))
        (and_then (Some (length cs =? length cs')) (first_difference condEqual cs cs'))
  | _, _ => Some false
  end.

Definition optional_condEqual (a b : option Condition) : option bool :=
  condEqual (default NilExpr a) (default NilExpr b).

Definition columnsEqual (a b : list Column) : option bool :=
  and_then (Some (length a =? length b))
    (first_difference (λ x y, and_then (Some (String.eqb (Alias x) (Alias y)))
       (exprEqual (col_Expression x) (col_Expression y))) a b).

Definition orderEqual (a b : list OrderExpression) : option bool :=
  and_then (Some (length a =? length b))
    (first_difference (λ x y, and_then (Some (Bool.eqb (Descending x) (Descending y)))
       (exprEqual (ord_Expression x) (ord_Expression y))) a b).

(** [CollectionRef.Equal] with [ignoreAlias] false; parents are compared as
    pointers. *)
Definition rootCollection_Equal (a b : RecordsetSource) : bool :=
  match a, b with
  | CollectionRef false n al p, CollectionRef false n' al' p' =>
      String.eqb n n' &&
      match p, p' with Some k, Some k' => key_eqb k k' | None, None => true | _, _ => false end &&
      String.eqb al al'
  | _, _ => false
  end.

Definition fromEqual (a b : option FromSource) : bool :=
  match a, b with
  | None, None => true
  | Some a, Some b => rootCollection_Equal (from_Base a) (from_Base b)
  | _, _ => false
  end.

Definition query_Equal (a b : structuredQuery) : option bool :=
  and_then (Some (fromEqual (q_from a) (q_from b)))
    (and_then (Some (Z.eqb (q_limit a) (q_limit b) && Z.eqb (q_offset a) (q_offset b)))
       (and_then (columnsEqual (q_columns a) (q_columns b))
          (and_then (optional_condEqual (q_where a) (q_where b))
             (orderEqual (q_orderBy a) (q_orderBy b))))).

(** ** What the documents can express *)

Definition expr_in_scope (e : Expression) : bool :=
  match e with
  | FieldRef source name isID => String.eqb source "" && negb (String.eqb name "") && negb isID
  | Constant v | Array v => negb (is_nil v)
  | _ => false
  end.

Fixpoint cond_in_scope (c : Condition) : bool :=
  match c with
  | Comparison op l r =>
      bool_decide (op ∈ inScopeComparisonOps) && expr_in_scope l && expr_in_scope r
  | GroupCondition op cs =>
      (String.eqb op And || String.eqb op Or) && negb (bool_decide (cs = [])) && forallb cond_in_scope cs
  | _ => false
  end.

Definition source_in_scope (from : FromSource) : bool :=
  match from_Joins from, from_Base from with
  | [], CollectionRef false name alias None => negb (String.eqb name "") && negb (String.eqb alias name)
  | _, _ => false
  end.

Definition query_in_scope (q : structuredQuery) : bool :=
  match q_from q with Some from => source_in_scope from | None => false end
  && bool_decide (q_groupBy q = []) && String.eqb (q_startCursor q) ""
  && forallb (λ c, expr_in_scope (col_Expression c)) (q_columns q)
  && match q_where q with Some c => cond_in_scope c | None => true end
  && forallb (λ o, expr_in_scope (ord_Expression o)) (q_orderBy q).

(** The parts of a query that [Equal] compares are the same. *)
Definition same_surface (q q' : structuredQuery) : Prop :=
  q_from q = q_from q' ∧ q_columns q = q_columns q' ∧ q_where q = q_where q' ∧
  q_orderBy q = q_orderBy q' ∧ q_limit q = q_limit q' ∧ q_offset q = q_offset q'.

(** ** A query is what its document says *)

Lemma traverse_from_roundtrip {E X Y} (f : nat → X → res E Y) (g : nat → Y → res E X) (p : X → bool) l i :
  Forall (λ x, p x = true → ∀ j, ∃ y, f j x = Ret y ∧ ∀ k, g k y = Ret x) l →
  forallb p l = true →
  ∃ ys, traverse_from f i l = Ret ys ∧ (∀ k, traverse_from g k ys = Ret l) ∧ length ys = length l.
Proof.
  intros HF. revert i. induction HF as [|x l Hx _ IH]; simpl; intros i Hp; [by eexists|].
  to_prop. destruct (Hx ltac:(done) i) as (y & -> & Hy).
  destruct (IH (Datatypes.S i) ltac:(done)) as (ys & -> & Hys & Hlen). simpl.
  eexists; split_and!; [done| |simpl; congruence]. intros k. simpl. by rewrite Hy, Hys.
Qed.

Lemma expr_roundtrip e :
  expr_in_scope e = true → ∃ y, exprToYAML e = Ret y ∧ exprFromYAML y = Ret e.
Proof.
  destruct e; simpl; try done; intros Hs; to_prop; eexists; (split; [done|]); unfold exprFromYAML; simpl.
  - apply String.eqb_eq in H0 as ->. subst isID. by destruct (String.eqb name "").
  - by destruct v.
  - by destruct v.
Qed.

Lemma scope_op_nonempty op : op ∈ inScopeComparisonOps → String.eqb op "" = false.
Proof. intros Hin. unfold inScopeComparisonOps in Hin. apply String.eqb_neq. intros ->. set_solver. Qed.

Lemma cond_roundtrip c :
  cond_in_scope c = true → ∃ y, condToYAML c = Ret y ∧ condFromYAML y = Ret c.
Proof.
  induction c using Expression_nested_ind; simpl; try done; intros Hs; to_prop.
  - destruct (expr_roundtrip c1 ltac:(done)) as (y1 & E1 & D1).
    destruct (expr_roundtrip c2 ltac:(done)) as (y2 & E2 & D2).
    apply bool_decide_eq_true_1 in H0. rewrite bool_decide_eq_true_2 by done. simpl.
    rewrite E1, E2. simpl. eexists; split; [done|]. simpl.
    rewrite (scope_op_nonempty o) by done. simpl. unfold comparisonFromYAML. simpl.
    rewrite bool_decide_eq_true_2 by done. simpl. by rewrite D1, D2.
  - destruct (traverse_from_roundtrip (λ i sub, rmap_error (at_group_condition i) (condToYAML sub))
      (λ i sub, rmap_error (at_group_condition i) (condFromYAML sub)) cond_in_scope l 0)
      as (ys & -> & Hys & Hlen); [|done|].
    { eapply Forall_impl; [exact H0|]. simpl. intros x Hx Hp j.
      destruct (Hx Hp) as (y & -> & Hy). exists y. split; [done|]. intros k. by rewrite Hy. }
    simpl. assert (Hne : ys ≠ []) by (intros ->; destruct l; done).
    apply orb_true_iff in H1 as [E|E]; apply String.eqb_eq in E as ->; simpl;
      (eexists; split; [done|]; simpl; destruct ys; [done|]; by rewrite (Hys 0)).
Qed.

Lemma exprs_roundtrip {X Y} (f : X → Expression) (mk : X → exprYAML → Y) (g : Y → exprYAML)
    (ix : nat → dtql_error → dtql_error) (back : Y → Expression → X) (l : list X) :
  (∀ x e, g (mk x e) = e) → (∀ x e, back (mk x e) (f x) = x) →
  forallb (λ x, expr_in_scope (f x)) l = true →
  ∃ ys, traverse (λ i x, do e <- rmap_error (ix i) (exprToYAML (f x)); Ret (mk x e)) l = Ret ys ∧
        traverse (λ i y, do e <- rmap_error (ix i) (exprFromYAML (g y)); Ret (back y e)) ys = Ret l.
Proof.
  intros Hg Hback Hp. unfold traverse.
  edestruct (traverse_from_roundtrip
    (λ i x, do e <- rmap_error (ix i) (exprToYAML (f x)); Ret (mk x e))
    (λ i y, do e <- rmap_error (ix i) (exprFromYAML (g y)); Ret (back y e))
    (λ x, expr_in_scope (f x)) l 0) as (ys & Hys & Hback' & _); [|done|by eauto].
  apply Forall_true. intros x Hx j. destruct (expr_roundtrip _ Hx) as (e & -> & De). simpl.
  eexists; split; [done|]. intros k. by rewrite Hg, De; simpl; rewrite Hback.
Qed.

(** A query in scope is what its document says. *)
Lemma query_roundtrip q (Hscope : query_in_scope q = true) :
  ∃ doc q', queryToDocument q = Ret doc ∧ documentToQuery doc = Ret q' ∧ same_surface q q'.
Proof.
  destruct q as [[[base joins]|] qwhere groupBy having orderBy columns into opts off lim kind cur];
    unfold query_in_scope, source_in_scope in Hscope; simpl in Hscope; [|done].
  to_prop. destruct joins; [|done]. destruct base as [[] n al [k|]| |]; try done. to_prop.
  repeat match goal with
  | H : bool_decide _ = true |- _ => apply bool_decide_eq_true_1 in H; subst
  | H : String.eqb _ "" = true |- _ => apply String.eqb_eq in H; subst
  end.
  destruct (exprs_roundtrip col_Expression (λ c e, mkColumnYAML e (Alias c)) col_expr at_column
    (λ c e, mkColumn (col_As c) e) columns) as (cs & Ecs & Dcs); [done|by intros []|done|].
  destruct (exprs_roundtrip ord_Expression (λ c e, mkOrderYAML e (Descending c)) ord_expr at_order_by
    (λ c e, mkOrder e (ord_Desc c)) orderBy) as (os & Eos & Dos); [done|by intros []|done|].
  assert (∃ w, (match qwhere with None => Ret None | Some c => do y <- condToYAML c; Ret (Some y) end) = Ret w
    ∧ match qwhere, w with None, None => True | Some c, Some y => condFromYAML y = Ret c | _, _ => False end)
    as (w & Ew & Dw).
  { destruct qwhere as [c|]; [|by eexists]. destruct (cond_roundtrip c) as (y & -> & Dy); [done|].
    by eexists. }
  exists (mkDocument (mkFromYAML n al) cs w os lim off),
    (mkQuery (Some (mkFrom (CollectionRef false n al None) [])) qwhere [] None orderBy columns None []
       off lim 0%Z ""). split_and!.
  - unfold queryToDocument, fromToYAML. simpl. rewrite Ecs. simpl. rewrite Ew. simpl. by rewrite Eos.
  - unfold documentToQuery, NewRootCollectionRef, newCollectionRef, columnsFromYAML, orderFromYAML.
    simpl. repeat match goal with E : String.eqb _ _ = false |- _ => rewrite E; simpl; clear E end.
    destruct qwhere, w; try done; [rewrite Dw|]; simpl; rewrite Dos; simpl;
      destruct orderBy; simpl; rewrite Dcs; done.
  - done.
Qed.

(** C12: every query that DTQL can express (a root collection, comparisons
    with the supported operators in non-empty AND/OR groups, fields, constants
    and arrays, ordering, limit and offset) is written to a document, and the
    document reads back as a query with the same source, columns, condition,
    ordering, limit and offset. *)
Theorem dtql_query_roundtrip q (Hscope : query_in_scope q = true) :
  ∃ doc q', queryToDocument q = Ret doc ∧ documentToQuery doc = Ret q' ∧ same_surface q q'.
Proof. by apply query_roundtrip. Qed.

(** ** A document is what its query says *)

Lemma traverse_from_back {E X Y} (g : nat → Y → res E X) (f : nat → X → res E Y) ys i j l :
  Forall (λ y, ∀ k x, g k y = Ret x → ∀ k', f k' x = Ret y) ys →
  traverse_from g i ys = Ret l → traverse_from f j l = Ret ys.
Proof.
  intros HF. revert i j l. induction HF as [|y ys Hy _ IH]; intros i j l H'; simpl in H'; inv_res; [done|].
  simpl. erewrite Hy by done. simpl. by erewrite IH.
Qed.

Lemma expr_back e x : exprFromYAML e = Ret x → exprToYAML x = Ret e.
Proof.
  destruct e as [n v vs]. unfold exprFromYAML. simpl.
  destruct (String.eqb_spec n "") as [->|Hn]; destruct v; destruct vs; simpl; intros; by simplify_eq.
Qed.

Lemma comparison_back c x : comparisonFromYAML c = Ret x →
  condToYAML x = Ret (mkCondYAML (c_Op c) (c_Left c) (c_Right c) None None).
Proof.
  unfold comparisonFromYAML. case_bool_decide as Hop; [|done]. simpl.
  destruct (c_Left c) as [l|], (c_Right c) as [r|]; try done. intros Hx. inv_res.
  rewrite bool_decide_eq_true_2 by done. simpl.
  erewrite !expr_back by done. done.
Qed.

Lemma cond_back c : ∀ x, condFromYAML c = Ret x → condToYAML x = Ret c.
Proof.
  induction c as [o l r a b IHa IHb] using condYAML_nested_ind. intros x. simpl.
  assert (Hsubs : ∀ cs ys, Forall (λ c, ∀ x, condFromYAML c = Ret x → condToYAML x = Ret c) cs →
    traverse_from (λ i sub, rmap_error (at_group_condition i) (condFromYAML sub)) 0 cs = Ret ys →
    traverse_from (λ i sub, rmap_error (at_group_condition i) (condToYAML sub)) 0 ys = Ret cs).
  { intros cs ys HF. apply traverse_from_back. eapply Forall_impl; [exact HF|]. simpl.
    intros y Hy k z Hz k'. inv_res. by rewrite (Hy z). }
  destruct (negb (String.eqb o "") || is_some l || is_some r) eqn:Hc.
  - destruct a, b; simpl; try done. intros Hx. by rewrite (comparison_back _ _ Hx).
  - apply orb_false_iff in Hc as [Hc Hr]. apply orb_false_iff in Hc as [Ho Hl].
    apply negb_false_iff, String.eqb_eq in Ho as ->. destruct l, r; try done.
    destruct a as [a|], b as [b|]; simpl; try done; intros Hx;
      [destruct a as [|a0 a]|destruct b as [|b0 b]]; try done; apply rbind_Ret_inv in Hx as (ys & Hys & Hx);
      simplify_eq; simpl;
      by first [rewrite (Hsubs _ _ (IHa _ eq_refl) Hys) | rewrite (Hsubs _ _ (IHb _ eq_refl) Hys)].
Qed.

Lemma exprs_back {X Y} (f : X → Expression) (mk : X → exprYAML → Y) (g : Y → exprYAML)
    (ix : nat → dtql_error → dtql_error) (back : Y → Expression → X) ys l :
  (∀ y e, f (back y e) = e) → (∀ y e, mk (back y e) (g y) = y) →
  traverse (λ i y, do e <- rmap_error (ix i) (exprFromYAML (g y)); Ret (back y e)) ys = Ret l →
  traverse (λ i x, do e <- rmap_error (ix i) (exprToYAML (f x)); Ret (mk x e)) l = Ret ys.
Proof.
  intros Hf Hmk. apply traverse_from_back. apply Forall_true. intros y k x Hx k'. inv_res.
  rewrite Hf. erewrite expr_back by done. simpl. by rewrite Hmk.
Qed.

(** An alias that repeats the name is dropped. *)
Definition canonical_document (doc : document) : document :=
  mkDocument
    (mkFromYAML (f_Name (d_From doc))
       (if String.eqb (f_Alias (d_From doc)) (f_Name (d_From doc)) then "" else f_Alias (d_From doc)))
    (d_Columns doc) (d_Where doc) (d_OrderBy doc) (d_Limit doc) (d_Offset doc).

(** A document that reads as a query loses nothing: writing that query
    gives the document back, but for an alias that repeats the collection's
    name. *)
Theorem dtql_document_roundtrip doc q (Hread : documentToQuery doc = Ret q) :
  queryToDocument q = Ret (canonical_document doc).
Proof.
  unfold documentToQuery, NewRootCollectionRef, newCollectionRef in Hread.
  destruct (String.eqb (f_Name (d_From doc)) "") eqn:Hn; [done|]. simpl in Hread.
  apply rbind_Ret_inv in Hread as (qb & Hqb & Hread).
  apply rbind_Ret_inv in Hread as (orders & Horders & Hread).
  apply rbind_Ret_inv in Hread as (columns & Hcolumns & Hread).
  apply (exprs_back ord_Expression (λ c e, mkOrderYAML e (Descending c))) in Horders;
    [|done|by intros [[]]].
  apply (exprs_back col_Expression (λ c e, mkColumnYAML e (Alias c))) in Hcolumns;
    [|done|by intros [[]]].
  destruct doc as [[n al] cs w os lim off]. simpl in *.
  assert (q = mkQuery (Some (From_ (CollectionRef false n (if String.eqb al n then "" else al) None)))
      (combine_conditions (b_conditions qb) None) [] None orders columns None [] off lim 0%Z ""
    ∧ match w with
      | None => b_conditions qb = []
      | Some c => ∃ cond, condFromYAML c = Ret cond ∧ b_conditions qb = [cond]
      end) as [-> Hw].
  { destruct w as [c|]; inv_res; [|by destruct orders]. split; [by destruct orders|eauto]. }
  unfold queryToDocument, canonical_document, fromToYAML. simpl. rewrite Hcolumns. simpl.
  destruct w as [c|]; [destruct Hw as (cond & Hcond & ->)|rewrite Hw]; simpl;
    [erewrite cond_back by done; simpl|]; by rewrite Horders.
Qed.

(** ** Equality of queries *)

Definition comparable_expr (e : Expression) : bool :=
  match e with
  | Constant v => plain v
  | Array v => match Array_Equal v v with Some b => b | None => false end
  | _ => true
  end.

Fixpoint comparable_cond (c : Condition) : bool :=
  match c with
  | Comparison _ l r => comparable_expr l && comparable_expr r
  | GroupCondition _ cs => forallb comparable_cond cs
  | _ => true
  end.

Definition comparable_query (q : structuredQuery) : bool :=
  forallb (λ c, comparable_expr (col_Expression c)) (q_columns q)
  && match q_where q with Some c => comparable_cond c | None => true end
  && forallb (λ o, comparable_expr (ord_Expression o)) (q_orderBy q).

Lemma first_difference_refl {A} (f : A → A → option bool) (p : A → bool) l :
  Forall (λ x, p x = true → f x x = Some true) l → forallb p l = true →
  first_difference f l l = Some true.
Proof.
  induction 1 as [|x l Hx _ IH]; simpl; [done|]. intros. to_prop. rewrite Hx by done. auto.
Qed.

Lemma forallb_both {A} (p p' : A → bool) l :
  forallb p l = true → forallb p' l = true → forallb (λ x, p x && p' x) l = true.
Proof. induction l; simpl; [done|]. intros. by to_prop; auto. Qed.

Lemma exprEqual_refl e :
  expr_in_scope e = true → comparable_expr e = true → exprEqual e e = Some true.
Proof.
  destruct e; simpl; try done; intros Hs Hc; rewrite ?String.eqb_refl, ?Bool.eqb_reflx; simpl; try done.
  - by rewrite deep_equal_refl.
  - by destruct (Array_Equal v v) as [[]|].
Qed.

Lemma condEqual_refl c :
  cond_in_scope c = true → comparable_cond c = true → condEqual c c = Some true.
Proof.
  induction c using Expression_nested_ind; simpl; try done; intros Hs Hc; to_prop;
    rewrite String.eqb_refl; simpl.
  - rewrite !exprEqual_refl by done. done.
  - rewrite Nat.eqb_refl. simpl.
    apply (first_difference_refl _ (λ c, cond_in_scope c && comparable_cond c)).
    + eapply Forall_impl; [exact H0|]. simpl. intros x Hx Hp. to_prop. auto.
    + by apply forallb_both.
Qed.

Lemma listed_expr_refl {X} (f : X → Expression) (same : X → X → option bool) l :
  (∀ x, exprEqual (f x) (f x) = Some true → same x x = Some true) →
  forallb (λ x, expr_in_scope (f x)) l = true → forallb (λ x, comparable_expr (f x)) l = true →
  and_then (Some (length l =? length l)) (first_difference same l l) = Some true.
Proof.
  intros Hsame Hs Hc. rewrite Nat.eqb_refl. simpl.
  apply (first_difference_refl _ (λ x, expr_in_scope (f x) && comparable_expr (f x)));
    [|by apply forallb_both].
  apply Forall_true. intros x Hx. to_prop. by apply Hsame, exprEqual_refl.
Qed.

(** Two queries with the same source, columns, condition, ordering,
    limit and offset are [Equal], when their constants are comparable values:
    so a query is [Equal] to what its document reads back as. *)
Theorem query_Equal_same q q' (Hscope : query_in_scope q = true) (Hc : comparable_query q = true)
    (Hsame : same_surface q q') : query_Equal q q' = Some true.
Proof.
  destruct Hsame as (Hf & Hcols & Hw & Ho & Hl & Hoff). unfold query_Equal.
  rewrite <- Hf, <- Hcols, <- Hw, <- Ho, <- Hl, <- Hoff, !Z.eqb_refl. simpl. clear q' Hf Hcols Hw Ho Hl Hoff.
  unfold query_in_scope, comparable_query, source_in_scope in *. destruct (q_from q) as [[base joins]|]; [|done].
  simpl in Hscope. to_prop. destruct joins; [|done]. destruct base as [[] n al [k|]| |]; try done. simpl.
  rewrite !String.eqb_refl. simpl. unfold columnsEqual, orderEqual, optional_condEqual.
  rewrite (listed_expr_refl col_Expression) by (try done; intros x ->; by rewrite String.eqb_refl).
  rewrite (listed_expr_refl ord_Expression) by (try done; intros x ->; by rewrite Bool.eqb_reflx).
  destruct (q_where q); simpl; [|done]. by rewrite condEqual_refl.
Qed.

(** Writing a query does not fail on parts a document has no place for:
    the source and the identifier flag of a field and the conditions on groups
    are dropped, and the query reads back without them. *)
Theorem serialization_drops_parts name kind having :
  name ≠ "" →
  let base := CollectionRef false "users" "" None in
  let q source isID having kind := mkQuery (Some (From_ base))
    (Some (Comparison Equal (FieldRef source name isID) (Constant (VInt "int" KInt 1)))) [] having [] [] None []
    0 0 kind "" in
  ∃ doc, queryToDocument (q "other" true having kind) = Ret doc ∧
         documentToQuery doc = Ret (q "" false None 0%Z).
Proof.
  intros Hn base q. eexists. split; [done|]. unfold documentToQuery, condFromYAML, comparisonFromYAML,
    exprFromYAML. apply String.eqb_neq in Hn. simpl. by rewrite Hn.
Qed.
End Dtql.

(** ** Concrete queries *)
Module DtqlExamples.
#[local] Existing Instance chain_keys.

Definition sample_where : Condition :=
  GroupCondition And
    [Comparison GreaterOrEqual (FieldRef "" "age" false) (Constant (vint 18));
     GroupCondition Or
       [Comparison Equal (FieldRef "" "city" false) (Constant (vstr "Cork"));
        Comparison In (FieldRef "" "city" false) (Array (VSlice "[]string" (Some [vstr "Oslo"])))]].

Definition sample_query : structuredQuery :=
  mkQuery (Some (From_ (CollectionRef false "users" "u" None))) (Some sample_where) [] None
    [mkOrder (FieldRef "" "age" false) true] [mkColumn "n" (FieldRef "" "name" false)] None [] 5 10 0 "".

Definition sample_document : document :=
  mkDocument (mkFromYAML "users" "users")
    [mkColumnYAML (mkExprYAML "name" VNil VNil) "n"]
    (Some (mkCondYAML "" None None
       (Some [mkCondYAML Equal (Some (mkExprYAML "age" VNil VNil)) (Some (mkExprYAML "" (vint 3) VNil)) None None])
       None)) [] 10 0.

Lemma dtql_query_roundtrip_witness :
  query_in_scope sample_query = true ∧
  ∃ doc q', queryToDocument sample_query = Ret doc ∧ documentToQuery doc = Ret q' ∧
    same_surface sample_query q'.
Proof. split; [reflexivity | apply dtql_query_roundtrip; reflexivity]. Defined.

Lemma dtql_document_roundtrip_witness :
  ∃ q, documentToQuery sample_document = Ret q ∧
    queryToDocument q = Ret (canonical_document sample_document).
Proof. eexists. split; [reflexivity | apply dtql_document_roundtrip; reflexivity]. Defined.

Lemma query_Equal_same_witness : query_Equal sample_query sample_query = Some true.
Proof. apply query_Equal_same; [reflexivity | reflexivity | repeat split]. Defined.

Lemma serialization_drops_parts_witness :
  let base := CollectionRef false "users" "" None in
  let q source isID having kind := mkQuery (Some (From_ base))
    (Some (Comparison Equal (FieldRef source "age" isID) (Constant (VInt "int" KInt 1)))) [] having [] [] None []
    0 0 kind "" in
  ∃ doc, queryToDocument (q "other" true (Some sample_where) 3%Z) = Ret doc ∧
         documentToQuery doc = Ret (q "" false None 0%Z).
Proof. apply serialization_drops_parts. discriminate. Defined.
End DtqlExamples.
