(* ===== verification/DtqlSchema.v ===== *)
(** * The JSON Schema of DTQL documents (src/dtql/schema.go)

    [schemaDocument] as the tree that the code builds, an interpreter for the
    keywords of JSON Schema (draft 2020-12) that it uses, and what the schema
    means for the documents of Dtql.v: what it accepts can be read, and what is
    written for a query of scalars is accepted. *)

From Stdlib Require Import String.
From stdpp Require Import base sets list strings.
From S2P Require Import Prelude StableSort GoValues GoMaps GoStrings GoJSON RecordKey DalQuery Dtql.

Local Open Scope string_scope.
Local Open Scope nat_scope.
Local Open Scope list_scope.

(** ** The schema *)

Definition SchemaID : string := "https://dal-go.github.io/dtql/schema.json".

(** A later entry of a key replaces the earlier one. *)
Definition mergeProps (a b : list (string * value)) : list (string * value) := map_copy (map_copy [] a) b.

(** The keys of the map of operators, in any order, are sorted. *)
Definition comparisonOpEnum : list value := map vstr (sort_strings inScopeComparisonOps).

Definition scalar_schema : value := vmap [("type", vanys [vstr "string"; vstr "number"; vstr "boolean"])].
Definition string_schema : value := vmap [("type", vstr "string")].
Definition scalars_schema : value := vmap [("type", vstr "array"); ("items", scalar_schema)].
Definition exprProps : list (string * value) :=
  [("field", string_schema); ("value", scalar_schema); ("values", scalars_schema)].
Definition requires (key : string) : value := vmap [("required", vanys [vstr key])].
Definition exprOneOf : list value := [requires "field"; requires "value"; requires "values"].
Definition boolean_schema : value := vmap [("type", vstr "boolean")].
Definition columnProps : list (string * value) := mergeProps exprProps [("as", string_schema)].
Definition orderProps : list (string * value) := mergeProps exprProps [("desc", boolean_schema)].

(** An object with these properties and no others. *)
Definition object_schema (rest : list (string * value)) : value :=
  vmap ([("type", vstr "object"); ("additionalProperties", vbool false)] ++ rest).
Definition ref_schema (name : string) : value := vmap [("$ref", vstr ("#/$defs/" +:+ name))].
Definition array_of (items : value) : value := vmap [("type", vstr "array"); ("items", items)].
Definition name_schema : value := vmap [("type", vstr "string"); ("minLength", vint 1)].
Definition natural_schema : value := vmap [("type", vstr "integer"); ("minimum", vint 0)].

Definition from_schema : value :=
  object_schema [("required", vanys [vstr "name"]); ("properties", vmap [("name", name_schema); ("alias", string_schema)])].
Definition expression_schema : value := object_schema [("properties", vmap exprProps); ("oneOf", vanys exprOneOf)].
Definition column_schema : value := object_schema [("properties", vmap columnProps); ("oneOf", vanys exprOneOf)].
Definition order_schema : value := object_schema [("properties", vmap orderProps); ("oneOf", vanys exprOneOf)].
Definition op_schema : value := vmap [("enum", vanys comparisonOpEnum)].
Definition comparison_schema : value :=
  object_schema [("required", vanys [vstr "op"; vstr "left"; vstr "right"]);
    ("properties", vmap [("op", op_schema); ("left", ref_schema "expression"); ("right", ref_schema "expression")])].
Definition conditions_schema : value := array_of (ref_schema "condition").
Definition group_schema : value :=
  object_schema [("properties", vmap [("and", conditions_schema); ("or", conditions_schema)]);
    ("oneOf", vanys [requires "and"; requires "or"])].
Definition condition_schema : value := vmap [("oneOf", vanys [ref_schema "comparison"; ref_schema "group"])].

Definition defs : list (string * value) :=
  [("from", from_schema); ("expression", expression_schema); ("column", column_schema); ("order", order_schema);
   ("comparison", comparison_schema); ("group", group_schema); ("condition", condition_schema)].

Definition schemaDocument : value := vmap
  [("$schema", vstr "https://json-schema.org/draft/2020-12/schema");
   ("$id", vstr SchemaID);
   ("title", vstr "DTQL");
   ("description", vstr "YAML serialization of dalgo's dal.StructuredQuery (core relational read-only subset).");
   ("type", vstr "object");
   ("additionalProperties", vbool false);
   ("required", vanys [vstr "from"]);
   ("properties", vmap
     [("from", ref_schema "from"); ("columns", array_of (ref_schema "column")); ("where", ref_schema "condition");
      ("orderBy", array_of (ref_schema "order")); ("limit", natural_schema); ("offset", natural_schema)]);
   ("$defs", vmap defs)].

(** ** Validation

    A keyword that is missing constrains nothing, and a keyword about objects,
    arrays, strings or numbers constrains nothing else.  [None]: out of fuel. *)

Definition entries (v : value) : list (string * value) := match v with VMap _ _ (Some l) => l | _ => [] end.
Definition elements (v : value) : list value :=
  match v with VSlice _ (Some l) => l | VArray _ _ l => l | _ => [] end.

(** A boolean that may be missing. *)
Definition both (a b : option bool) : option bool :=
  match a, b with Some x, Some y => Some (x && y) | _, _ => None end.
Definition all_of (l : list (option bool)) : option bool := fold_right both (Some true) l.
Definition one_of (l : list (option bool)) : option bool :=
  if existsb (λ x, match x with None => true | Some _ => false end) l then None
  else Some (length (List.filter (λ x, match x with Some true => true | _ => false end) l) =? 1).

(** A float without a fraction is an integer. *)
Definition integral (f : SpecFloat.spec_float) : bool :=
  match f with
  | SpecFloat.S754_zero _ => true
  | SpecFloat.S754_finite _ m e => (0 <=? e)%Z || (Z.pos m mod 2 ^ (- e) =? 0)%Z
  | _ => false
  end.

Definition has_type (v : value) (ty : string) : bool :=
  match v with
  | VNil => String.eqb ty "null"
  | VBool _ _ => String.eqb ty "boolean"
  | VInt _ _ _ | VUint _ _ _ => String.eqb ty "integer" || String.eqb ty "number"
  | VFloat _ _ f => String.eqb ty "number" || (String.eqb ty "integer" && integral f)
  | VString _ _ => String.eqb ty "string"
  | VSlice _ _ | VArray _ _ _ => String.eqb ty "array"
  | VMap _ _ _ => String.eqb ty "object"
  | _ => false
  end.

Definition is_object (v : value) : bool := has_type v "object".
Definition text_of (v : value) : string := match v with VString _ s => s | _ => "" end.
Definition number_of (v : value) : Z := match v with VInt _ _ z | VUint _ _ z => z | _ => 0 end.
Definition same_text (v w : value) : bool :=
  match v, w with VString _ s, VString _ t => String.eqb s t | _, _ => deep_equal v w end.

Section Check.
Context (root : value) (rec : value → value → option bool).

(** [#/$defs/name] *)
Definition resolve (ref : string) : option value :=
  if String.prefix "#/$defs/" ref
  then assoc (String.substring 8 (String.length ref - 8) ref) (entries (default VNil (assoc "$defs" (entries root))))
  else None.

Definition check_ref (s v : value) : option bool :=
  match assoc "$ref" (entries s) with
  | None => Some true
  | Some r => match resolve (text_of r) with Some s' => rec s' v | None => Some false end
  end.
Definition check_type (s v : value) : option bool :=
  match assoc "type" (entries s) with
  | None => Some true
  | Some (VSlice _ _ as tys) => Some (existsb (λ t, has_type v (text_of t)) (elements tys))
  | Some ty => Some (has_type v (text_of ty))
  end.
Definition check_enum (s v : value) : option bool :=
  match assoc "enum" (entries s) with
  | None => Some true
  | Some l => Some (existsb (λ e, same_text e v) (elements l))
  end.
Definition check_minimum (s v : value) : option bool :=
  match assoc "minimum" (entries s), v with
  | Some m, (VInt _ _ z | VUint _ _ z) => Some (number_of m <=? z)%Z
  | Some m, VFloat _ _ f => Some (SpecFloat.SFleb (float_of_Z (number_of m)) f)
  | _, _ => Some true
  end.
Definition check_minLength (s v : value) : option bool :=
  match assoc "minLength" (entries s), v with
  | Some m, VString _ t => Some (number_of m <=? Z.of_nat (String.length t))%Z
  | _, _ => Some true
  end.
Definition check_required (s v : value) : option bool :=
  match assoc "required" (entries s) with
  | Some l => Some (negb (is_object v) || forallb (λ k, match assoc (text_of k) (entries v) with Some _ => true | None => false end) (elements l))
  | None => Some true
  end.
Definition check_properties (s v : value) : option bool :=
  match assoc "properties" (entries s) with
  | Some props => all_of (map (λ ks, match assoc ks.1 (entries v) with Some x => rec ks.2 x | None => Some true end) (entries props))
  | None => Some true
  end.
(** [additionalProperties] is only used with false. *)
Definition check_additional (s v : value) : option bool :=
  match assoc "additionalProperties" (entries s) with
  | Some _ => Some (forallb (λ kx, match assoc kx.1 (entries (default VNil (assoc "properties" (entries s)))) with
                               | Some _ => true | None => false end) (entries v))
  | None => Some true
  end.
Definition check_items (s v : value) : option bool :=
  match assoc "items" (entries s) with Some s' => all_of (map (rec s') (elements v)) | None => Some true end.
Definition check_oneOf (s v : value) : option bool :=
  match assoc "oneOf" (entries s) with Some l => one_of (map (λ s', rec s' v) (elements l)) | None => Some true end.

Definition check (s v : value) : option bool :=
  all_of [check_ref s v; check_type s v; check_enum s v; check_minimum s v; check_minLength s v; check_required s v;
          check_properties s v; check_additional s v; check_items s v; check_oneOf s v].
End Check.

Fixpoint valid (root : value) (fuel : nat) (s v : value) : option bool :=
  match fuel with O => None | Datatypes.S fuel => check root (valid root fuel) s v end.

(** With enough fuel the answer is [b]. *)
Definition decides (s v : value) (b : bool) : Prop := ∃ n, ∀ m, n ≤ m → valid schemaDocument m s v = Some b.

(** A check that needs finitely many answers has one when they do. *)
Definition answers (l : list (value * value * bool)) (rec : value → value → option bool) : Prop :=
  Forall (λ q, rec q.1.1 q.1.2 = Some q.2) l.

Lemma decides_all l : Forall (λ q, decides q.1.1 q.1.2 q.2) l →
  ∃ n, ∀ m, n ≤ m → answers l (valid schemaDocument m).
Proof.
  induction 1 as [|[[s v] b] l [n1 H1] _ [n2 H2]]; [by exists 0; constructor|].
  exists (n1 `max` n2). intros m Hm. constructor; [apply H1; lia|apply H2; lia].
Qed.

Lemma decides_step (l : list (value * value * bool)) s v b :
  (∀ rec, answers l rec → check schemaDocument rec s v = Some b) →
  Forall (λ q, decides q.1.1 q.1.2 q.2) l → decides s v b.
Proof.
  intros Hc Hl. destruct (decides_all l Hl) as [n Hn]. exists (Datatypes.S n). intros [|m] Hm; [lia|].
  simpl. apply Hc, Hn. lia.
Qed.

Lemma decides_fun s v b b' : decides s v b → decides s v b' → b = b'.
Proof.
  intros [n Hn] [n' Hn']. specialize (Hn (n `max` n') ltac:(lia)). specialize (Hn' (n `max` n') ltac:(lia)). congruence.
Qed.

(** ** Documents as trees

    The tree of a document as the tags of shapes.go describe it: a field with
    [omitempty] is left out when it is empty (a nil interface or pointer, an
    empty slice or string, false, 0), and an inline struct adds its fields. *)

Definition omit_string (key s : string) : list (string * value) := if String.eqb s "" then [] else [(key, vstr s)].
Definition omit_any (key : string) (v : value) : list (string * value) := if is_nil v then [] else [(key, v)].
Definition omit_int (key : string) (z : Z) : list (string * value) := if (z =? 0)%Z then [] else [(key, vint z)].
Definition omit_list (key : string) (l : list value) : list (string * value) :=
  match l with [] => [] | _ => [(key, vanys l)] end.

Definition expr_entries (e : exprYAML) : list (string * value) :=
  omit_string "field" (e_Field e) ++ omit_any "value" (e_Value e) ++ omit_any "values" (e_Values e).
Definition expr_value (e : exprYAML) : value := vmap (expr_entries e).
Definition column_value (c : columnYAML) : value := vmap (expr_entries (col_expr c) ++ omit_string "as" (col_As c)).
Definition order_value (o : orderYAML) : value :=
  vmap (expr_entries (ord_expr o) ++ if ord_Desc o then [("desc", vbool true)] else []).

Fixpoint cond_value (c : condYAML) : value :=
  let conds (a : option (list condYAML)) : list value := match a with Some l => map cond_value l | None => [] end in
  vmap (omit_string "op" (c_Op c)
    ++ match c_Left c with Some e => [("left", expr_value e)] | None => [] end
    ++ match c_Right c with Some e => [("right", expr_value e)] | None => [] end
    ++ omit_list "and" (conds (c_And c)) ++ omit_list "or" (conds (c_Or c))).

Definition from_value (f : fromYAML) : value := vmap (("name", vstr (f_Name f)) :: omit_string "alias" (f_Alias f)).

Definition document_value (d : document) : value :=
  vmap (("from", from_value (d_From d))
    :: omit_list "columns" (map column_value (d_Columns d))
    ++ match d_Where d with Some c => [("where", cond_value c)] | None => [] end
    ++ omit_list "orderBy" (map order_value (d_OrderBy d))
    ++ omit_int "limit" (d_Limit d) ++ omit_int "offset" (d_Offset d)).

(** ** What the schema says of a document *)

Definition is_scalar (v : value) : bool := has_type v "string" || (has_type v "number" || (has_type v "boolean" || false)).
Definition is_array (v : value) : bool := has_type v "array".
Definition is_scalars (v : value) : bool := is_array v && forallb is_scalar (elements v).

Definition good_expr (e : exprYAML) : bool :=
  ((if String.eqb (e_Field e) "" then 0 else 1) + (if is_nil (e_Value e) then 0 else 1)
   + (if is_nil (e_Values e) then 0 else 1) =? 1)
  && (is_nil (e_Value e) || is_scalar (e_Value e)) && (is_nil (e_Values e) || is_scalars (e_Values e)).

Definition subs (a : option (list condYAML)) : list condYAML := match a with Some l => l | None => [] end.
Definition none {A} (l : list A) : bool := match l with [] => true | _ => false end.

(** A comparison with both sides, or a group: empty groups are left out of the
    tree. *)
Definition good_comparison (c : condYAML) : bool :=
  bool_decide (c_Op c ∈ inScopeComparisonOps)
  && match c_Left c, c_Right c with Some l, Some r => good_expr l && good_expr r | _, _ => false end
  && none (subs (c_And c)) && none (subs (c_Or c)).
Fixpoint good_cond (c : condYAML) : bool :=
  good_comparison c
  || (String.eqb (c_Op c) "" && negb (is_some (c_Left c)) && negb (is_some (c_Right c))
      && xorb (none (subs (c_And c))) (none (subs (c_Or c)))
      && match c_And c with Some l => forallb good_cond l | None => true end
      && match c_Or c with Some l => forallb good_cond l | None => true end).

Definition good_document (d : document) : bool :=
  negb (String.eqb (f_Name (d_From d)) "")
  && forallb (λ c, good_expr (col_expr c)) (d_Columns d)
  && match d_Where d with Some c => good_cond c | None => true end
  && forallb (λ o, good_expr (ord_expr o)) (d_OrderBy d)
  && (0 <=? d_Limit d)%Z && (0 <=? d_Offset d)%Z.

(** *** Scalars, names, expressions *)

Lemma decides_scalar v : decides scalar_schema v (is_scalar v).
Proof. apply (decides_step []); [|constructor]. intros rec _. by destruct v. Qed.

Lemma decides_string s : decides string_schema (vstr s) true.
Proof. apply (decides_step []); [|constructor]. by intros rec _. Qed.

Lemma all_of_items (f : value → value → bool) rec s l :
  (∀ x, x ∈ l → rec s x = Some (f s x)) → all_of (map (rec s) l) = Some (forallb (f s) l).
Proof.
  induction l as [|x l IH]; intros Hf; [done|]. simpl.
  rewrite (Hf x) by set_solver. rewrite IH by set_solver. done.
Qed.

(** An array whose elements decide. *)
Lemma decides_array items v (f : value → bool) :
  (∀ x, x ∈ elements v → decides items x (f x)) → decides (array_of items) v (is_array v && forallb f (elements v)).
Proof.
  intros Hf. apply (decides_step ((λ x, (items, x, f x)) <$> elements v)).
  - intros rec Ha. apply Forall_fmap in Ha. rewrite Forall_forall in Ha.
    transitivity (all_of [Some true; Some (is_array v); Some true; Some true; Some true; Some true; Some true; Some true;
      all_of (map (rec items) (elements v)); Some true]); [reflexivity|].
    rewrite (all_of_items (λ _, f) rec items); [|exact Ha]. simpl. by rewrite !andb_true_r.
  - apply Forall_fmap. by apply Forall_forall.
Qed.

Definition has_entry (k : string) (l : list (string * value)) : bool :=
  match assoc k l with Some _ => true | None => false end.

Lemma decides_requires k l : decides (requires k) (vmap l) (has_entry k l).
Proof.
  apply (decides_step []); [|constructor]. intros rec _.
  transitivity (Some (has_entry k l && true && true)); [|by rewrite !andb_true_r].
  unfold check, has_entry. simpl. by destruct (assoc k l).
Qed.

(** What the properties of an object say, and whether it has only those. *)
Definition props_answer (rec : value → value → option bool) (props l : list (string * value)) : option bool :=
  all_of (map (λ ks, match assoc ks.1 l with Some x => rec ks.2 x | None => Some true end) props).
Definition closed (props l : list (string * value)) : bool := forallb (λ kx, has_entry kx.1 props) l.

(** An object with properties of which one of some keys is required. *)
Lemma check_object rec props l keys :
  let s := object_schema [("properties", vmap props); ("oneOf", vanys (map requires keys))] in
  Forall (λ k, rec (requires k) (vmap l) = Some (has_entry k l)) keys →
  check schemaDocument rec s (vmap l) =
  both (props_answer rec props l)
    (Some (closed props l && (length (List.filter (λ k, has_entry k l) keys) =? 1))).
Proof.
  intros s Hr.
  assert (Ho : one_of (map (λ s', rec s' (vmap l)) (map requires keys)) =
    Some (length (List.filter (λ k, has_entry k l) keys) =? 1)).
  { rewrite map_map. unfold one_of.
    assert (Hm : map (λ x, rec (requires x) (vmap l)) keys = map (λ k, Some (has_entry k l)) keys).
    { induction Hr as [|k keys Hk _ IH]; [done|]. cbn [map]. by rewrite Hk, IH. }
    rewrite Hm. clear Hm Hr s.
    assert (He : existsb (λ x, match x with None => true | Some _ => false end) (map (λ k, Some (has_entry k l)) keys) = false)
      by (induction keys as [|k keys IH]; [done|exact IH]).
    rewrite He. do 2 f_equal. induction keys as [|k keys IH]; [done|]. simpl. destruct (has_entry k l); simpl; by rewrite IH. }
  unfold check, all_of at 1. simpl fold_right.
  change (check_oneOf rec s (vmap l)) with (one_of (map (λ s', rec s' (vmap l)) (map requires keys))).
  change (check_properties rec s (vmap l)) with (props_answer rec props l).
  change (check_additional s (vmap l)) with (Some (closed props l)).
  rewrite Ho. cbn. destruct (props_answer rec props l) as [b|]; [|done]. simpl. by rewrite !andb_true_r.
Qed.

(** The answers about an expression and about its object. *)
Definition expr_keys : list string := ["field"; "value"; "values"].
Definition expr_answers (e : exprYAML) (l : list (string * value)) : list (value * value * bool) :=
  [(string_schema, vstr (e_Field e), true); (scalar_schema, e_Value e, is_scalar (e_Value e));
   (scalars_schema, e_Values e, is_scalars (e_Values e));
   (requires "field", vmap l, has_entry "field" l); (requires "value", vmap l, has_entry "value" l);
   (requires "values", vmap l, has_entry "values" l)].

Lemma expr_answers_decided e l : Forall (λ q, decides q.1.1 q.1.2 q.2) (expr_answers e l).
Proof.
  repeat constructor; simpl; try apply decides_requires.
  - apply decides_string.
  - apply decides_scalar.
  - apply decides_array. intros x _. apply decides_scalar.
Qed.

(** Uses the answers, and splits on the parts that an expression sets. *)
Ltac use_answers :=
  unfold answers, expr_answers in *; cbn [app] in *;
  repeat match goal with H : Forall _ (_ :: _) |- _ => apply Forall_cons in H as [? H]; cbn [fst snd app] in * end.
Ltac split_expression e :=
  unfold props_answer, closed, has_entry, good_expr, expr_entries, omit_string, omit_any in *;
  destruct (String.eqb (e_Field e) ""), (is_nil (e_Value e)), (is_nil (e_Values e)); simpl in *;
  repeat match goal with H : ?rec ?s ?v = Some _ |- context [?rec ?s ?v] => rewrite H; simpl end;
  repeat match goal with |- context [is_scalar ?v] => destruct (is_scalar v) | |- context [is_scalars ?v] => destruct (is_scalars v) end;
  try reflexivity.

Lemma decides_expr e : decides expression_schema (expr_value e) (good_expr e).
Proof.
  apply (decides_step (expr_answers e (expr_entries e))); [|apply expr_answers_decided].
  intros rec Ha. use_answers. unfold expression_schema, expr_value.
  change exprOneOf with (map requires expr_keys). rewrite check_object by (by repeat constructor).
  unfold exprProps, expr_keys. split_expression e.
Qed.

Lemma decides_column c : decides column_schema (column_value c) (good_expr (col_expr c)).
Proof.
  destruct c as [e a]. cbn [col_expr]. unfold column_value. cbn [col_expr col_As].
  apply (decides_step (expr_answers e (expr_entries e ++ omit_string "as" a) ++ [(string_schema, vstr a, true)])).
  2: { apply Forall_app. split; [apply expr_answers_decided|]. repeat constructor. apply decides_string. }
  intros rec Ha. use_answers. unfold column_schema.
  change exprOneOf with (map requires expr_keys). rewrite check_object by (by repeat constructor).
  change columnProps with (("as", string_schema) :: exprProps). unfold exprProps, expr_keys, omit_string in *.
  destruct (String.eqb a ""); split_expression e.
Qed.

Lemma decides_boolean b : decides boolean_schema (vbool b) true.
Proof. apply (decides_step []); [|constructor]. by intros rec _. Qed.

Lemma decides_order o : decides order_schema (order_value o) (good_expr (ord_expr o)).
Proof.
  destruct o as [e d]. unfold order_value. cbn [ord_expr ord_Desc].
  apply (decides_step (expr_answers e (expr_entries e ++ if d then [("desc", vbool true)] else [])
    ++ [(boolean_schema, vbool true, true)])).
  2: { apply Forall_app. split; [apply expr_answers_decided|]. repeat constructor. apply decides_boolean. }
  intros rec Ha. use_answers. unfold order_schema.
  change exprOneOf with (map requires expr_keys). rewrite check_object by (by repeat constructor).
  change orderProps with (("desc", boolean_schema) :: exprProps). unfold exprProps, expr_keys in *.
  destruct d; split_expression e.
Qed.

(** A reference answers as its target. *)
Lemma decides_ref name s v b :
  resolve schemaDocument ("#/$defs/" +:+ name) = Some s → decides s v b → decides (ref_schema name) v b.
Proof.
  intros Hr Hd. apply (decides_step [(s, v, b)]); [|by repeat constructor].
  intros rec Ha. use_answers.
  transitivity (all_of [match resolve schemaDocument ("#/$defs/" +:+ name) with Some s' => rec s' v | None => Some false end;
    Some true; Some true; Some true; Some true; Some true; Some true; Some true; Some true; Some true]); [reflexivity|].
  rewrite Hr. simpl. rewrite H. simpl. by rewrite andb_true_r.
Qed.

(** *** Conditions *)

Lemma decides_op op : decides op_schema (vstr op) (bool_decide (op ∈ inScopeComparisonOps)).
Proof.
  apply (decides_step []); [|constructor]. intros rec _.
  transitivity (Some (true && (true && (existsb (λ e, same_text e (vstr op)) comparisonOpEnum && true)))); [reflexivity|].
  cbn [andb]. rewrite andb_true_r. f_equal. apply eq_true_iff_eq. rewrite bool_decide_eq_true, existsb_exists. unfold comparisonOpEnum.
  split.
  - intros (v & Hv & Hs). apply in_map_iff in Hv as (o & <- & Ho). cbn in Hs. apply String.eqb_eq in Hs as ->.
    by apply sort_strings_elem, list_elem_of_In.
  - intros Ho. exists (vstr op). split; [|apply String.eqb_refl].
    apply in_map, list_elem_of_In. by apply sort_strings_elem.
Qed.

Definition good_group (c : condYAML) : bool :=
  String.eqb (c_Op c) "" && negb (is_some (c_Left c)) && negb (is_some (c_Right c))
  && xorb (none (subs (c_And c))) (none (subs (c_Or c)))
  && forallb good_cond (subs (c_And c)) && forallb good_cond (subs (c_Or c)).

Lemma good_cond_split c : good_cond c = good_comparison c || good_group c.
Proof. destruct c as [op l r [a|] [b|]]; reflexivity. Qed.

Lemma cond_value_eq c : cond_value c =
  vmap (omit_string "op" (c_Op c)
    ++ match c_Left c with Some e => [("left", expr_value e)] | None => [] end
    ++ match c_Right c with Some e => [("right", expr_value e)] | None => [] end
    ++ omit_list "and" (map cond_value (subs (c_And c))) ++ omit_list "or" (map cond_value (subs (c_Or c)))).
Proof. destruct c as [op l r [a|] [b|]]; reflexivity. Qed.

(** An object of which some keys are required. *)
Lemma check_required_object rec props l keys :
  let s := object_schema [("required", vanys (map vstr keys)); ("properties", vmap props)] in
  check schemaDocument rec s (vmap l) =
  both (props_answer rec props l) (Some (forallb (λ k, has_entry k l) keys && closed props l)).
Proof.
  intros s.
  assert (Hr : check_required s (vmap l) = Some (forallb (λ k, has_entry k l) keys)).
  { unfold check_required. simpl. f_equal. induction keys as [|k keys IH]; [done|]. simpl. by rewrite IH. }
  transitivity (all_of [Some true; Some true; Some true; Some true; Some true; check_required s (vmap l);
    props_answer rec props l; Some (closed props l); Some true; Some true]); [reflexivity|].
  rewrite Hr. cbn. destruct (props_answer rec props l) as [x|]; [|done]. simpl.
  destruct (forallb _ keys), x, (closed props l); reflexivity.
Qed.

(** Rewrites with the answers that are known. *)
Ltac answer := repeat match goal with H : ?rec ?s ?v = Some _ |- context [?rec ?s ?v] => rewrite H; cbn [both fold_right all_of map assoc] end.

Lemma decides_comparison c : decides comparison_schema (cond_value c) (good_comparison c).
Proof.
  rewrite cond_value_eq. destruct c as [op l r a b]. unfold good_comparison. cbn [c_Op c_Left c_Right c_And c_Or].
  generalize (subs a) (subs b). clear a b. intros a b.
  apply (decides_step ((op_schema, vstr op, bool_decide (op ∈ inScopeComparisonOps)) ::
    map (λ e, (ref_schema "expression", expr_value e, good_expr e)) (default [] ((λ e, [e]) <$> l) ++ default [] ((λ e, [e]) <$> r)))).
  2: { constructor; [apply decides_op|]. destruct l as [l|], r as [r|]; repeat constructor;
       (eapply decides_ref; [reflexivity|apply decides_expr]). }
  intros rec Ha. unfold comparison_schema. change [vstr "op"; vstr "left"; vstr "right"] with (map vstr ["op"; "left"; "right"]).
  rewrite check_required_object. unfold props_answer, closed, has_entry, omit_string, omit_list.
  assert (Hop : String.eqb op "" = true → bool_decide (op ∈ inScopeComparisonOps) = false)
    by (intros ->%String.eqb_eq; reflexivity).
  revert Ha Hop. generalize (bool_decide (op ∈ inScopeComparisonOps)). intros inside Ha Hop.
  destruct (String.eqb op "") eqn:Eop; [rewrite Hop by done|];
    destruct l as [l|], r as [r|], a as [|x a], b as [|y b]; simpl in Ha; use_answers; simpl; answer;
    try (destruct (good_expr l)); try (destruct (good_expr r)); destruct inside; reflexivity.
Qed.

(** A list of trees that decide. *)
Lemma decides_list {A} items (g : A → value) (f : A → bool) l :
  Forall (λ x, decides items (g x) (f x)) l → decides (array_of items) (vanys (map g l)) (forallb f l).
Proof.
  intros Hf. apply (decides_step ((λ x, (items, g x, f x)) <$> l)); [|by apply Forall_fmap].
  intros rec Ha. apply Forall_fmap in Ha. simpl in Ha.
  transitivity (all_of [Some true; Some true; Some true; Some true; Some true; Some true; Some true; Some true;
    all_of (map (rec items) (map g l)); Some true]); [reflexivity|].
  assert (Hl : all_of (map (rec items) (map g l)) = Some (forallb f l)).
  { clear Hf. induction Ha as [|x l Hx _ IH]; [done|]. cbn [map all_of fold_right forallb].
    change (fold_right both (Some true) (map (rec items) (map g l))) with (all_of (map (rec items) (map g l))).
    by rewrite IH, Hx. }
  rewrite Hl. simpl. by rewrite andb_true_r.
Qed.

Lemma decides_group c :
  Forall (λ x, decides (ref_schema "condition") (cond_value x) (good_cond x)) (subs (c_And c) ++ subs (c_Or c)) →
  decides group_schema (cond_value c) (good_group c).
Proof.
  rewrite Forall_app. intros [Ha Hb]. apply decides_list in Ha, Hb. revert Ha Hb.
  unfold good_group. rewrite cond_value_eq. destruct c as [op l r a b]. cbn [c_Op c_Left c_Right c_And c_Or].
  assert (Hm : ∀ s : list condYAML, none s = none (map cond_value s) ∧
    (map cond_value s = [] → forallb good_cond s = true)) by (by intros []).
  rewrite (proj1 (Hm (subs a))), (proj1 (Hm (subs b))). generalize (proj2 (Hm (subs a))) (proj2 (Hm (subs b))). clear Hm.
  generalize (forallb good_cond (subs a)) (forallb good_cond (subs b)).
  generalize (map cond_value (subs a)) (map cond_value (subs b)). clear a b. intros a b ga gb Hga Hgb Ha Hb.
  set (w := _ ++ _ ++ _ ++ _ ++ _).
  apply (decides_step [(conditions_schema, vanys a, ga); (conditions_schema, vanys b, gb);
    (requires "and", vmap w, has_entry "and" w); (requires "or", vmap w, has_entry "or" w)]).
  2: { repeat constructor; try done; apply decides_requires. }
  intros rec Hans. use_answers. unfold group_schema. change [requires "and"; requires "or"] with (map requires ["and"; "or"]).
  rewrite check_object by (by repeat constructor). subst w. unfold props_answer, closed, has_entry, omit_string, omit_list.
  destruct (String.eqb op ""), l as [l|], r as [r|], a as [|x a], b as [|y b]; cbn -[conditions_schema vanys] in *;
    rewrite ?Hga, ?Hgb by done; answer; try (destruct ga); try (destruct gb); reflexivity.
Qed.

(** A comparison has an operator and a group has none. *)
Lemma good_forms_exclude c : good_comparison c && good_group c = false.
Proof.
  destruct (good_comparison c && good_group c) eqn:E; [exfalso|done]. apply andb_true_iff in E as [Hc Hg].
  unfold good_comparison, good_group in *. to_prop.
  match goal with H : String.eqb _ "" = true |- _ => apply String.eqb_eq in H; rewrite H in * end. done.
Qed.

Lemma decides_condition c : decides condition_schema (cond_value c) (good_cond c).
Proof.
  induction c as [op l r a b Ha Hb] using condYAML_nested_ind. set (c := mkCondYAML op l r a b).
  assert (Hsubs : Forall (λ x, decides (ref_schema "condition") (cond_value x) (good_cond x)) (subs (c_And c) ++ subs (c_Or c))).
  { apply Forall_app. split; [destruct a as [a|]; [|constructor]|destruct b as [b|]; [|constructor]].
    - eapply Forall_impl; [apply Ha; reflexivity|]. intros x Hx. by eapply decides_ref.
    - eapply Forall_impl; [apply Hb; reflexivity|]. intros x Hx. by eapply decides_ref. }
  apply (decides_step [(ref_schema "comparison", cond_value c, good_comparison c); (ref_schema "group", cond_value c, good_group c)]).
  2: { repeat constructor; cbn [fst snd]; (eapply decides_ref; [reflexivity|]).
       - apply decides_comparison.
       - by apply decides_group. }
  intros rec Hans. use_answers.
  transitivity (all_of [Some true; Some true; Some true; Some true; Some true; Some true; Some true; Some true; Some true;
    one_of [rec (ref_schema "comparison") (cond_value c); rec (ref_schema "group") (cond_value c)]]); [reflexivity|].
  rewrite good_cond_split. pose proof (good_forms_exclude c) as Hx. answer.
  destruct (good_comparison c), (good_group c); done.
Qed.

(** *** Documents *)

Lemma decides_from f : decides from_schema (from_value f) (negb (String.eqb (f_Name f) "")).
Proof.
  apply (decides_step [(name_schema, vstr (f_Name f), negb (String.eqb (f_Name f) "")); (string_schema, vstr (f_Alias f), true)]).
  - intros rec Ha. use_answers. unfold from_schema, from_value. change [vstr "name"] with (map vstr ["name"]).
    rewrite check_required_object. unfold props_answer, closed, has_entry, omit_string.
    destruct (String.eqb (f_Alias f) ""); cbn -[name_schema string_schema]; answer; by destruct (String.eqb (f_Name f) "").
  - repeat constructor; [|apply decides_string]. apply (decides_step []); [|constructor]. intros rec _.
    destruct f as [[|ch n] al]; [done|].
    transitivity (all_of [Some true; Some true; Some true; Some true; Some (1 <=? Z.of_nat (Datatypes.S (String.length n)))%Z;
      Some true; Some true; Some true; Some true; Some true]); [reflexivity|].
    by rewrite (proj2 (Z.leb_le 1 _)) by lia.
Qed.

Lemma decides_natural z : decides natural_schema (vint z) (0 <=? z)%Z.
Proof. apply (decides_step []); [|constructor]. intros rec _. cbn. by destruct z. Qed.

Definition document_props : list (string * value) :=
  [("from", ref_schema "from"); ("columns", array_of (ref_schema "column")); ("where", ref_schema "condition");
   ("orderBy", array_of (ref_schema "order")); ("limit", natural_schema); ("offset", natural_schema)].

Lemma check_root rec l :
  check schemaDocument rec schemaDocument (vmap l) =
  both (props_answer rec document_props l) (Some (has_entry "from" l && closed document_props l)).
Proof.
  transitivity (all_of [Some true; Some true; Some true; Some true; Some true; Some (has_entry "from" l && true);
    props_answer rec document_props l; Some (closed document_props l); Some true; Some true]); [reflexivity|].
  generalize (props_answer rec document_props l) (has_entry "from" l) (closed document_props l).
  by intros [[|]|] [|] [|].
Qed.

(** The schema means [good_document], for every document. *)
Lemma decides_document d : decides schemaDocument (document_value d) (good_document d).
Proof.
  destruct d as [f cols wh ords lim off]. unfold document_value, good_document.
  cbn [d_From d_Columns d_Where d_OrderBy d_Limit d_Offset].
  assert (Hf : decides (ref_schema "from") (from_value f) (negb (String.eqb (f_Name f) "")))
    by (eapply decides_ref; [reflexivity|apply decides_from]).
  assert (Hc : decides (array_of (ref_schema "column")) (vanys (map column_value cols)) (forallb (λ c, good_expr (col_expr c)) cols)).
  { apply decides_list, Forall_forall. intros c _. eapply decides_ref; [reflexivity|apply decides_column]. }
  assert (Ho : decides (array_of (ref_schema "order")) (vanys (map order_value ords)) (forallb (λ o, good_expr (ord_expr o)) ords)).
  { apply decides_list, Forall_forall. intros o _. eapply decides_ref; [reflexivity|apply decides_order]. }
  assert (Hw : ∀ c, decides (ref_schema "condition") (cond_value c) (good_cond c))
    by (intros c; eapply decides_ref; [reflexivity|apply decides_condition]).
  assert (Hcn : map column_value cols = [] → forallb (λ c, good_expr (col_expr c)) cols = true) by (by destruct cols).
  assert (Hon : map order_value ords = [] → forallb (λ o, good_expr (ord_expr o)) ords = true) by (by destruct ords).
  revert Hf Hc Ho Hcn Hon. generalize (from_value f) (negb (String.eqb (f_Name f) "")) (forallb (λ c, good_expr (col_expr c)) cols)
    (forallb (λ o, good_expr (ord_expr o)) ords) (map column_value cols) (map order_value ords).
  clear f cols ords. intros fv gf gc go cs os Hf Hc Ho Hcn Hon.
  apply (decides_step ([(ref_schema "from", fv, gf); (array_of (ref_schema "column"), vanys cs, gc);
    (array_of (ref_schema "order"), vanys os, go); (natural_schema, vint lim, (0 <=? lim)%Z);
    (natural_schema, vint off, (0 <=? off)%Z)] ++
    match wh with Some c => [(ref_schema "condition", cond_value c, good_cond c)] | None => [] end)).
  2: { apply Forall_app. split; [repeat constructor; try done; apply decides_natural|].
       destruct wh as [c|]; repeat constructor. apply Hw. }
  clear Hf Hc Ho Hw. intros rec Ha. unfold omit_list, omit_int.
  assert (Hl : (lim =? 0)%Z = true → (0 <=? lim)%Z = true) by (intros ->%Z.eqb_eq; done).
  assert (Hoff : (off =? 0)%Z = true → (0 <=? off)%Z = true) by (intros ->%Z.eqb_eq; done).
  destruct cs as [|c0 cs], os as [|o0 os], (lim =? 0)%Z, (off =? 0)%Z, wh as [w|]; use_answers;
    try rewrite Hcn by done; try rewrite Hon by done; try rewrite Hl by done; try rewrite Hoff by done;
    rewrite check_root; unfold props_answer, closed, has_entry;
    cbn -[array_of vanys natural_schema ref_schema vint Z.leb]; answer; repeat match goal with |- context [?b && _] => is_var b; destruct b
      | |- context [_ && ?b] => is_var b; destruct b
      | |- context [(?x <=? ?y)%Z] => destruct (x <=? y)%Z | |- context [good_cond ?c] => destruct (good_cond c) end; reflexivity.
Qed.

(** ** What the schema accepts and what can be read *)

Section Reading.
Context `{RecordKeys}.

(** The constants of a query are scalars, and its arrays hold scalars. *)
Definition scalar_expr (e : Expression) : bool :=
  match e with Constant v => is_scalar v | Array v => is_scalars v | _ => true end.
Fixpoint scalar_cond (c : Condition) : bool :=
  match c with
  | Comparison _ l r => scalar_expr l && scalar_expr r
  | GroupCondition _ cs => forallb scalar_cond cs
  | _ => true
  end.
Definition scalar_query (q : structuredQuery) : bool :=
  forallb (λ c, scalar_expr (col_Expression c)) (q_columns q)
  && match q_where q with Some c => scalar_cond c | None => true end
  && forallb (λ o, scalar_expr (ord_Expression o)) (q_orderBy q).

(** No group is present and empty: such a group has no place in the tree. *)
Fixpoint compact (c : condYAML) : bool :=
  match c_And c with Some [] => false | Some l => forallb compact l | None => true end
  && match c_Or c with Some [] => false | Some l => forallb compact l | None => true end.

Lemma traverse_reads {E X Y} (f : nat → Y → res E X) (p : Y → bool) (r : X → bool) ys i :
  Forall (λ y, ∀ j, p y = true ↔ ∃ x, f j y = Ret x ∧ r x = true) ys →
  forallb p ys = true ↔ ∃ xs, traverse_from f i ys = Ret xs ∧ forallb r xs = true.
Proof.
  intros HF. revert i. induction HF as [|y ys Hy _ IH]; intros i; simpl; [split; [by exists []|done]|].
  rewrite andb_true_iff, (Hy i), (IH (Datatypes.S i)). split.
  - intros ((x & -> & Hx) & xs & -> & Hxs). exists (x :: xs). simpl. by rewrite Hx, Hxs.
  - intros (xs & Hxs & Hr). inv_res. simpl in Hr. apply andb_true_iff in Hr as [Hx Hr]. split; eauto.
Qed.

Lemma expr_reads y : good_expr y = true ↔ ∃ e, exprFromYAML y = Ret e ∧ scalar_expr e = true.
Proof.
  unfold good_expr, exprFromYAML. destruct (String.eqb (e_Field y) "") eqn:Ef, (is_nil (e_Value y)) eqn:Ev, (is_nil (e_Values y)) eqn:Es;
    simpl; split; try (by intros (e & ? & ?)); try done.
  - intros Hs. eauto.
  - by intros (e & [= <-] & Hs).
  - intros Hv. rewrite andb_true_r in Hv. eauto.
  - intros (e & [= <-] & Hs). simpl in Hs. by rewrite Hs.
  - intros _. by eexists.
Qed.

Lemma rmap_error_reads {E F A} (f : E → F) (m : res E A) (P : A → Prop) :
  (∃ a, rmap_error f m = Ret a ∧ P a) ↔ ∃ a, m = Ret a ∧ P a.
Proof. split; intros (a & Ha & HP); exists a; split; try done; by apply rmap_error_Ret in Ha || apply rmap_error_Ret. Qed.

Lemma comparison_reads c : c_And c = None → c_Or c = None →
  good_comparison c = true ↔ ∃ x, comparisonFromYAML c = Ret x ∧ scalar_cond x = true.
Proof.
  intros Ha Hb. unfold good_comparison, comparisonFromYAML. rewrite Ha, Hb. simpl.
  destruct (bool_decide (c_Op c ∈ inScopeComparisonOps)); simpl; [|by split; [|intros (x & ? & ?)]].
  destruct (c_Left c) as [l|], (c_Right c) as [r|]; simpl; try (split; [done|by intros (x & [=] & ?)]).
  rewrite !andb_true_r, andb_true_iff, !expr_reads. split.
  - intros [(el & -> & Hl) (er & -> & Hr)]. eexists. simpl. split; [reflexivity|]. simpl. by rewrite Hl, Hr.
  - intros (x & Hx & Hs). inv_res. to_prop. split; eauto.
Qed.

(** The reader of a group. *)
Lemma group_reads op cs : cs ≠ [] →
  Forall (λ c, good_cond c = true ↔ ∃ x, condFromYAML c = Ret x ∧ scalar_cond x = true) cs →
  forallb good_cond cs = true ↔ ∃ x,
    (match cs with
     | [] => Fail (group_is_empty op)
     | _ => do conditions <- traverse_from (λ i sub, rmap_error (at_group_condition i) (condFromYAML sub)) 0 cs;
            Ret (NewGroupCondition op conditions)
     end) = Ret x ∧ scalar_cond x = true.
Proof.
  intros Hne HF. rewrite (traverse_reads (λ i sub, rmap_error (at_group_condition i) (condFromYAML sub)) _ scalar_cond cs 0).
  2: { eapply Forall_impl; [exact HF|]. intros c Hc j. by rewrite rmap_error_reads. }
  destruct cs as [|c cs]; [done|]. split.
  - intros (xs & -> & Hxs). by eexists.
  - intros (x & Hx & Hs). apply rbind_Ret in Hx as (xs & Hxs & [= <-]). by eexists.
Qed.

Lemma cond_reads c : compact c = true → good_cond c = true ↔ ∃ x, condFromYAML c = Ret x ∧ scalar_cond x = true.
Proof.
  induction c as [op l r a b IHa IHb] using condYAML_nested_ind. intros Hc.
  assert (Hsubs : ∀ cs, (a = Some cs ∨ b = Some cs) → cs ≠ [] ∧
    Forall (λ c, good_cond c = true ↔ ∃ x, condFromYAML c = Ret x ∧ scalar_cond x = true) cs).
  { intros cs Hcs. simpl in Hc. to_prop.
    assert (Hcc : cs ≠ [] ∧ forallb compact cs = true).
    { destruct Hcs as [-> | ->]; destruct cs; by split. }
    split; [apply Hcc|]. destruct Hcc as [_ Hcc]. assert (HF : Forall (λ c, compact c = true → good_cond c = true ↔
      ∃ x, condFromYAML c = Ret x ∧ scalar_cond x = true) cs) by (destruct Hcs as [Hcs|Hcs]; [by apply IHa|by apply IHb]).
    clear -HF Hcc. induction HF as [|c cs Hc _ IH]; [constructor|]. simpl in Hcc. to_prop. constructor; auto. }
  rewrite good_cond_split. clear IHa IHb Hc. unfold good_group. cbn [c_Op c_Left c_Right c_And c_Or].
  assert (Hform : String.eqb op "" && negb (is_some l) && negb (is_some r) =
    negb (negb (String.eqb op "") || is_some l || is_some r)) by (by destruct (String.eqb op ""), l, r).
  rewrite Hform. clear Hform.
  destruct a as [a|]; [destruct (Hsubs a (or_introl eq_refl)) as [Hna Ha]|].
  - assert (Hcmp : good_comparison (mkCondYAML op l r (Some a) b) = false).
    { unfold good_comparison. cbn [c_And subs]. destruct a; [done|]. by rewrite !andb_false_r. }
    rewrite Hcmp. cbn [orb condFromYAML c_Op c_Left c_Right c_And c_Or]. destruct b as [b|].
    + destruct (Hsubs b (or_intror eq_refl)) as [Hnb _]. destruct a; [done|]. destruct b; [done|].
      destruct (_ || is_some r); simpl; split; try done; by intros (x & [=] & _).
    + destruct (_ || is_some r); [split; [done|by intros (x & [=] & _)]|].
      rewrite <- (group_reads And a Hna Ha). by destruct a; [done|rewrite !andb_true_r].
  - destruct b as [b|]; [destruct (Hsubs b (or_intror eq_refl)) as [Hnb Hb]|].
    + assert (Hcmp : good_comparison (mkCondYAML op l r None (Some b)) = false).
      { unfold good_comparison. cbn [c_Or subs]. destruct b; [done|]. by rewrite !andb_false_r. }
      rewrite Hcmp. cbn [orb condFromYAML c_Op c_Left c_Right c_And c_Or].
      destruct (_ || is_some r); [split; [done|by intros (x & [=] & _)]|].
      rewrite <- (group_reads Or b Hnb Hb). by destruct b; [done|].
    + cbn [condFromYAML c_Op c_Left c_Right c_And c_Or subs none xorb]. rewrite andb_false_r, orb_false_r.
      destruct (negb (String.eqb op "") || is_some l || is_some r) eqn:Ec; simpl.
      * by apply comparison_reads.
      * apply orb_false_iff in Ec as [Ec _]. apply orb_false_iff in Ec as [Ec _]. apply negb_false_iff, String.eqb_eq in Ec as ->.
        split; [done|by intros (x & [=] & _)].
Qed.

(** Documents without empty groups. *)
Definition compact_document (d : document) : bool := match d_Where d with Some c => compact c | None => true end.

Lemma exprs_reads {X Y} (g : Y → exprYAML) (ix : nat → dtql_error → dtql_error) (back : Y → Expression → X) (f : X → Expression) ys :
  (∀ y e, f (back y e) = e) →
  forallb (λ y, good_expr (g y)) ys = true ↔ ∃ xs,
    traverse (λ i y, do e <- rmap_error (ix i) (exprFromYAML (g y)); Ret (back y e)) ys = Ret xs ∧
    forallb (λ x, scalar_expr (f x)) xs = true.
Proof.
  intros Hf. apply traverse_reads. apply Forall_true. intros y j. rewrite expr_reads. split.
  - intros (e & -> & Hs). eexists. split; [reflexivity|]. by rewrite Hf.
  - intros (x & Hx & Hs). inv_res. rewrite Hf in Hs. eauto.
Qed.

(** What [documentToQuery] makes of its parts. *)
Lemma documentToQuery_parts d q : documentToQuery d = Ret q ↔
  f_Name (d_From d) ≠ "" ∧ ∃ cols ords w, columnsFromYAML (d_Columns d) = Ret cols ∧ orderFromYAML (d_OrderBy d) = Ret ords ∧
    match d_Where d with Some c => ∃ x, condFromYAML c = Ret x ∧ w = Some x | None => w = None end ∧
    q = mkQuery (Some (From_ (CollectionRef false (f_Name (d_From d))
          (if String.eqb (f_Alias (d_From d)) (f_Name (d_From d)) then "" else f_Alias (d_From d)) None)))
        w [] None ords cols None [] (d_Offset d) (d_Limit d) 0%Z "".
Proof.
  unfold documentToQuery, NewRootCollectionRef, newCollectionRef.
  destruct (String.eqb_spec (f_Name (d_From d)) "") as [E|Hn]; [split; [done|by intros [? _]]|]. simpl.
  destruct d as [[n al] cs wh os lim off]. simpl in *. split.
  - intros Hr. split; [done|]. apply rbind_Ret_inv in Hr as (qb & Hqb & Hr).
    apply rbind_Ret_inv in Hr as (ords & Hords & Hr). apply rbind_Ret_inv in Hr as (cols & Hcols & Hr).
    exists cols, ords. destruct wh as [c|]; inv_res.
    + eexists. split_and!; [done..|by eexists|]. by destruct ords.
    + eexists. split_and!; [done..|]. by destruct ords.
  - intros (_ & cols & ords & w & Hcols & Hords & Hw & ->).
    destruct wh as [c|]; [destruct Hw as (x & -> & ->)|subst w]; simpl; rewrite Hords; simpl; rewrite Hcols; by destruct ords.
Qed.


(** What is read has no empty groups. *)
Lemma read_compact c : ∀ x, condFromYAML c = Ret x → compact c = true.
Proof.
  induction c as [o l r a b IHa IHb] using condYAML_nested_ind. intros x.
  assert (Hsubs : ∀ cs op, Forall (λ c, ∀ x, condFromYAML c = Ret x → compact c = true) cs →
    match cs with
    | [] => Fail (group_is_empty op)
    | _ => do conditions <- traverse_from (λ i sub, rmap_error (at_group_condition i) (condFromYAML sub)) 0 cs;
           Ret (NewGroupCondition op conditions)
    end = Ret x → match cs with [] => false | _ => forallb compact cs end = true).
  { intros [|c0 cs] op HF Hx; [done|]. apply rbind_Ret_inv in Hx as (ys & Hys & _).
    revert Hys. generalize 0. revert ys. induction HF as [|c cs' Hc _ IH]; intros ys i Hys; [done|].
    simpl in Hys. inv_res. simpl. apply andb_true_iff. split; [by eapply Hc|by eapply IH]. }
  simpl. destruct (negb (String.eqb o "") || is_some l || is_some r); destruct a as [a|], b as [b|]; simpl; try done.
  - intros Hx. apply andb_true_iff. split; [|done]. by eapply Hsubs; [apply IHa|].
  - intros Hx. by eapply Hsubs; [apply IHb|].
Qed.

Lemma read_document_compact d q : documentToQuery d = Ret q → compact_document d = true.
Proof.
  intros (_ & _ & _ & w & _ & _ & Hw & _)%documentToQuery_parts. unfold compact_document.
  destruct (d_Where d) as [c|]; [|done]. destruct Hw as (x & Hx & _). by eapply read_compact.
Qed.

(** The schema says the same as the reader of the document. *)
Lemma document_valid d : compact_document d = true →
  decides schemaDocument (document_value d) true ↔
  ∃ q, documentToQuery d = Ret q ∧ scalar_query q = true ∧ (0 <= q_limit q)%Z ∧ (0 <= q_offset q)%Z.
Proof.
  intros Hc.
  assert (Hg : decides schemaDocument (document_value d) true ↔ good_document d = true).
  { split; [intros Hd; symmetry; by eapply decides_fun, decides_document|intros <-; apply decides_document]. }
  rewrite Hg. unfold good_document.
  pose proof (exprs_reads col_expr at_column (λ c e, mkColumn (col_As c) e) col_Expression (d_Columns d) ltac:(done)) as Hcols.
  pose proof (exprs_reads ord_expr at_order_by (λ c e, mkOrder e (ord_Desc c)) ord_Expression (d_OrderBy d) ltac:(done)) as Hords.
  split.
  - rewrite !andb_true_iff, !Z.leb_le, negb_true_iff, String.eqb_neq, Hcols, Hords.
    intros [[[[[Hn (cols & Ecols & Scols)] Hw] (ords & Eords & Sords)] Hl] Ho].
    assert (∃ w, match d_Where d with Some c => ∃ x, condFromYAML c = Ret x ∧ w = Some x | None => w = None end ∧
      match w with Some c => scalar_cond c | None => true end = true) as (w & Ew & Sw).
    { unfold compact_document in Hc. destruct (d_Where d) as [c|]; [|by exists None].
      apply (cond_reads c Hc) in Hw as (x & Ex & Sx). by exists (Some x); eauto. }
    eexists. split; [apply documentToQuery_parts; split; [done|]; exists cols, ords, w; split_and!; [exact Ecols|exact Eords|exact Ew|reflexivity]|].
    unfold scalar_query. simpl. by rewrite Scols, Sords, Sw.
  - intros (q & Hq & Hs & Hl & Ho). apply documentToQuery_parts in Hq as (Hn & cols & ords & w & Ecols & Eords & Ew & ->).
    unfold scalar_query in Hs. simpl in Hs, Hl, Ho. rewrite !andb_true_iff in Hs. destruct Hs as [[Scols Sw] Sords].
    rewrite !andb_true_iff, !Z.leb_le, negb_true_iff, String.eqb_neq, Hcols, Hords.
    split_and!; [done|by exists cols| |by exists ords|done|done].
    unfold compact_document in Hc. destruct (d_Where d) as [c|]; [|done]. destruct Ew as (x & Ex & ->).
    apply (cond_reads c Hc). by exists x.
Qed.

(** C13: the JSON Schema accepts exactly the documents that can be read as a
    query whose constants are scalars (or arrays of them) and whose limit and
    offset are not negative, among the documents without empty groups.  So such
    a document that passes the schema is never rejected by the program, and the
    program also reads documents that the schema rejects, with negative limits
    or other constants.  And a query that DTQL can express is written to a
    document that passes the schema exactly if it is such a query. *)
Theorem schema_types_documents d q (Hc : compact_document d = true) (Hscope : query_in_scope q = true) :
  (decides schemaDocument (document_value d) true ↔
   ∃ q', documentToQuery d = Ret q' ∧ scalar_query q' = true ∧ (0 <= q_limit q')%Z ∧ (0 <= q_offset q')%Z) ∧
  ∃ doc, queryToDocument q = Ret doc ∧
    (decides schemaDocument (document_value doc) true ↔
     scalar_query q = true ∧ (0 <= q_limit q)%Z ∧ (0 <= q_offset q)%Z).
Proof.
  split; [by apply document_valid|]. destruct (query_roundtrip q Hscope) as (doc & q' & Hdoc & Hq' & Hsame).
  exists doc. split; [done|]. rewrite document_valid by by eapply read_document_compact.
  destruct Hsame as (_ & Hcols & Hw & Ho & Hl & Hoff). unfold scalar_query. rewrite Hcols, Hw, Ho, Hl, Hoff. split.
  - intros (q2 & Hq2 & H2). rewrite Hq' in Hq2. by injection Hq2 as <-.
  - intros H2. by exists q'.
Qed.
End Reading.

Module SchemaExamples.

(** [limit: -1] is read, and rejected by the schema. *)
Definition negative_limit : document := mkDocument (mkFromYAML "users" "") [] None [] (-1) 0.

Example negative_limit_is_read : ∃ q, documentToQuery (H := chain_keys) negative_limit = Ret q.
Proof. by eexists. Qed.
Example negative_limit_is_invalid : valid schemaDocument 5 schemaDocument (document_value negative_limit) = Some false.
Proof. reflexivity. Qed.

(** An empty group passes the schema, and is not read. *)
Example empty_group_is_valid : valid schemaDocument 5 condition_schema (vmap [("and", vanys [])]) = Some true.
Proof. reflexivity. Qed.
Example empty_group_is_not_read :
  condFromYAML (mkCondYAML "" None None (Some []) None) = Fail (group_is_empty And).
Proof. reflexivity. Qed.

Definition adults : document := mkDocument (mkFromYAML "users" "u") [mkColumnYAML (mkExprYAML "name" VNil VNil) "n"]
  (Some (mkCondYAML "" None None
    (Some [mkCondYAML ">=" (Some (mkExprYAML "age" VNil VNil)) (Some (mkExprYAML "" (vint 18) VNil)) None None]) None))
  [mkOrderYAML (mkExprYAML "name" VNil VNil) true] 10 0.

Definition oslo_query : structuredQuery (H := chain_keys) :=
  mkQuery (Some (From_ (CollectionRef false "users" "u" None)))
    (Some (Comparison In (FieldRef "" "city" false) (Array (VSlice "[]string" (Some [vstr "Oslo"]))))) [] None
    [] [mkColumn "n" (FieldRef "" "name" false)] None [] 5 10 0 "".

Lemma schema_types_documents_witness :
  (decides schemaDocument (document_value adults) true ↔
   ∃ q, documentToQuery (H := chain_keys) adults = Ret q ∧ scalar_query (H := chain_keys) q = true ∧
     (0 <= q_limit q)%Z ∧ (0 <= q_offset q)%Z) ∧
  ∃ doc, queryToDocument (H := chain_keys) oslo_query = Ret doc ∧ decides schemaDocument (document_value doc) true.
Proof.
  destruct (schema_types_documents (H := chain_keys) adults oslo_query eq_refl eq_refl) as [Hr (doc & Hdoc & Hv)].
  split; [exact Hr|]. exists doc. split; [exact Hdoc|]. apply Hv. split_and!; [reflexivity|discriminate..].
Defined.

End SchemaExamples.
