(* ===== verification/DtqlText.v ===== *)
(** * Queries as texts, and the queries that are read from them
    (src/dtql/serialize.go, deserialize.go, query.go, schema.go;
    src/dal/query_struct.go, q_text.go)

    [Serialize] and [Deserialize] over the encoder and the decoder of the YAML
    library, which are arguments, and what the methods of a query run on an
    executor.  A query that was written and read back selects the same records
    of the in-memory database; its own methods run it without its columns. *)

From Stdlib Require Import String.
From stdpp Require Import base gmap sets list strings.
From S2P Require Import Prelude GoValues GoMaps GoStrings GoJSON RecordKey DalQuery DalString.
From S2P Require DalReader RecordsetRows.
From S2P Require Import MemoryRows MemoryQuery MemoryUpdate MemoryEngine MemorySession MemoryPivot MemoryRecordset MemoryExamples.
From S2P Require Import AccessCodec Dtql DtqlSchema.

Local Open Scope string_scope.
Local Open Scope nat_scope.
Local Open Scope list_scope.

(** ** What the methods of queries run

    [execute] and [execute_recordset] are the methods of an executor, with
    whatever they return. *)

Section Run.
Context `{RecordKeys} {RR SR : Type}.
Context (execute : DalQuery.Query → RR) (execute_recordset : DalQuery.Query → list value → SR).

Definition structured_GetRecordsReader (q : structuredQuery) : RR := execute (StructuredQuery q).
Definition structured_GetRecordsetReader (q : structuredQuery) : SR :=
  execute_recordset (StructuredQuery q) (q_recordsetOptions q).

(** A text query; nothing sets its options. *)
Record textQuery := mkTextQuery {
  tq_text : string;
  tq_args : list (string * value);
  tq_offset : Z;
  tq_limit : Z;
  tq_recordsetOptions : list value;
}.

Definition text_query (q : textQuery) : DalQuery.Query := TextQuery (tq_text q) (tq_args q) (tq_offset q) (tq_limit q).
Definition text_String (q : textQuery) : string := tq_text q.
Definition text_GetRecordsReader (q : textQuery) : RR := execute (text_query q).
Definition text_GetRecordsetReader (q : textQuery) : SR := execute_recordset (text_query q) (tq_recordsetOptions q).

(** A query that was read: the query of the builder, which has no columns, in
    a struct that overrides [Columns] only. *)
Record reconstructed := mkReconstructed {
  rq_StructuredQuery : structuredQuery;
  rq_columns : list Column;
}.

(** What an executor sees through the accessors. *)
Definition rq_seen (r : reconstructed) : structuredQuery := reconstructedQuery (rq_StructuredQuery r) (rq_columns r).

(** The other methods are those of the query inside. *)
Definition rq_GetRecordsReader (r : reconstructed) : RR := structured_GetRecordsReader (rq_StructuredQuery r).
Definition rq_GetRecordsetReader (r : reconstructed) : SR := structured_GetRecordsetReader (rq_StructuredQuery r).
End Run.

(** ** Texts *)

Section Text.
Context `{RecordKeys} {B D W : Type}.

(** [yaml.NewDecoder] with known fields only, and [yaml.NewEncoder]; an error is
    its text. *)
Context (NewDecoder : B → D) (Decode : D → D * read_result document).
Context (NewEncoder : W) (Encode : W → document → W * option string) (Close : W → W * option string) (bytes : W → B).

Inductive text_error :=
| query_is_nil
| not_representable (e : dtql_error)
| invalid_yaml (text : string)
| invalid_document (e : dtql_error).

(** The errors of the encoder are dropped. *)
Definition marshalCanonical (doc : document) : B :=
  let '(w, _) := Encode NewEncoder doc in
  let '(w, _) := Close w in
  bytes w.

(** [None] is the nil query. *)
Definition Serialize (q : option structuredQuery) : res text_error B :=
  match q with
  | None => Fail query_is_nil
  | Some q => do doc <- rmap_error not_representable (queryToDocument q); Ret (marshalCanonical doc)
  end.

(** The first document of the stream; what follows is not read. *)
Definition Deserialize (data : B) : res text_error reconstructed :=
  match (Decode (NewDecoder data)).2 with
  | Value doc =>
      do q <- rmap_error invalid_document (documentToQuery doc);
      Ret (mkReconstructed (reconstructedQuery q []) (q_columns q))
  | EOF => Fail (invalid_yaml "EOF")
  | Bad text => Fail (invalid_yaml text)
  end.

(** What the library gives back of a document. *)
Definition reads_back (doc : document) : Prop := (Decode (NewDecoder (marshalCanonical doc))).2 = Value doc.
End Text.

(** The published schema as texts; [marshal] and [encode] are the libraries. *)
Definition SchemaJSON {B} (marshal : value → B) (newline : B → B) : B := newline (marshal schemaDocument).
Definition SchemaYAML {B} (encode : value → B) : B := encode schemaDocument.

(** ** Running a query that was written and read back *)

Section Runs.
Context `{GoFmt, GoJSON, Decoders}.
Context {E : Type} `{StorageEngine E}.
Context (cfg : config (E:=E)) (NewKeyWithID : string → string → key).

(** A query that was read groups nothing and has no record and no options. *)
Lemma documentToQuery_shape doc q : documentToQuery doc = Ret q →
  q_groupBy q = [] ∧ q_intoRecord q = None ∧ q_recordsetOptions q = [].
Proof. by intros (_ & cols & ords & w & _ & _ & _ & ->)%documentToQuery_parts. Qed.

(** The in-memory database looks at the surface of an ungrouped query, and at
    where its records are loaded into. *)
Lemma execute_surface q q' s :
  same_surface q q' → q_groupBy q = [] → q_groupBy q' = [] → q_intoRecord q = q_intoRecord q' →
  ExecuteQueryToRecordsReader cfg NewKeyWithID (StructuredQuery q) s =
  ExecuteQueryToRecordsReader cfg NewKeyWithID (StructuredQuery q') s.
Proof.
  destruct q, q'. unfold same_surface. simpl. intros (-> & -> & -> & -> & -> & ->) -> -> ->. reflexivity.
Qed.

Context {B D W : Type} (NewDecoder : B → D) (Decode : D → D * read_result document).
Context (NewEncoder : W) (Encode : W → document → W * option string) (Close : W → W * option string) (bytes : W → B).

Notation write := (Serialize NewEncoder Encode Close bytes).
Notation read := (Deserialize NewDecoder Decode).
Notation reads_back := (reads_back NewDecoder Decode NewEncoder Encode Close bytes).

(** C15: a query that DTQL can express and that loads no records of its own is
    written to a text, and the text, if YAML gives its document back, is read
    as a query with the same surface that selects the same records of the
    in-memory database in every state, or fails with the same error. *)
Theorem serialized_query_executes q (Hscope : query_in_scope q = true) (Hinto : q_intoRecord q = None)
    (Hyaml : ∀ doc, queryToDocument q = Ret doc → reads_back doc) :
  ∃ text r, write (Some q) = Ret text ∧ read text = Ret r ∧ same_surface q (rq_seen r) ∧
    ∀ s, ExecuteQueryToRecordsReader cfg NewKeyWithID (StructuredQuery (rq_seen r)) s =
         ExecuteQueryToRecordsReader cfg NewKeyWithID (StructuredQuery q) s.
Proof.
  destruct (query_roundtrip q Hscope) as (doc & q' & Hdoc & Hq' & Hsame).
  exists (marshalCanonical NewEncoder Encode Close bytes doc), (mkReconstructed (reconstructedQuery q' []) (q_columns q')).
  assert (Hseen : rq_seen (mkReconstructed (reconstructedQuery q' []) (q_columns q')) = q') by by destruct q'.
  rewrite Hseen. split_and!; [| |done|].
  - unfold Serialize. by rewrite Hdoc.
  - unfold Deserialize. rewrite (Hyaml doc Hdoc). by rewrite Hq'.
  - intros s. symmetry. destruct (documentToQuery_shape _ _ Hq') as (Hg & Hi & _).
    apply execute_surface; [done| |done|congruence].
    unfold query_in_scope in Hscope. rewrite !andb_true_iff in Hscope.
    destruct Hscope as [[[[[_ Hgr] _] _] _] _]. by apply bool_decide_eq_true in Hgr.
Qed.

(** The methods of the query that was read run it without its columns. *)
Lemma reconstructed_runs_plain (RR SR : Type) (execute : DalQuery.Query → RR) (execute_recordset : DalQuery.Query → list value → SR)
    text r :
  read text = Ret r → ∃ q, q_columns q = [] ∧ rq_seen r = reconstructedQuery q (rq_columns r) ∧
    rq_GetRecordsReader execute r = execute (StructuredQuery q) ∧
    rq_GetRecordsetReader execute_recordset r = execute_recordset (StructuredQuery q) [].
Proof.
  unfold Deserialize. destruct (Decode _).2 as [doc| |]; [|done..]. intros Hr.
  destruct (documentToQuery doc) as [q| |] eqn:Hq; [|done..]. injection Hr as <-.
  exists (reconstructedQuery q []). split_and!; [done..|]. unfold rq_GetRecordsetReader, structured_GetRecordsetReader. simpl.
  by destruct (documentToQuery_shape _ _ Hq) as (_ & _ & ->).
Qed.
End Runs.

(** ** Examples *)

Module TextExamples.
Import MemoryExamples.
#[local] Existing Instance plain_fmt.
#[local] Existing Instance plain_json.
#[local] Existing Instance plain_decoders.
#[local] Existing Instance chain_keys.

(** Texts as the streams of their documents. *)
Definition next_document (l : list document) : list document * read_result document :=
  match l with [] => ([], EOF) | d :: l => (l, Value d) end.
Definition add_document (l : list document) (d : document) : list document * option string := (l ++ [d], None).
Definition close_stream (l : list document) : list document * option string := (l, None).

Definition adults_by_age : structuredQuery :=
  mkQuery (Some (From_ (CollectionRef false "users" "" None)))
    (Some (GroupCondition And [Comparison GreaterOrEqual (FieldRef "" "age" false) (Constant (num 18))])) [] None
    [mkOrder (FieldRef "" "age" false) true] [mkColumn "n" (FieldRef "" "name" false)] None [] 0 10 0 "".

Lemma serialized_query_executes_witness :
  ∃ text r, Serialize [] add_document close_stream id (Some adults_by_age) = Ret text ∧
    Deserialize id next_document text = Ret r ∧ same_surface adults_by_age (rq_seen r) ∧
    ∀ s, ExecuteQueryToRecordsReader (schemaless false) new_key (StructuredQuery (rq_seen r)) s =
         ExecuteQueryToRecordsReader (schemaless false) new_key (StructuredQuery adults_by_age) s.
Proof.
  apply (serialized_query_executes (schemaless false) new_key id next_document [] add_document close_stream id adults_by_age);
    [vm_compute; reflexivity | reflexivity | by intros doc _].
Defined.

(** Ann, by the query and by the query's own method: without her name. *)
Lemma own_method_drops_columns :
  let r := mkReconstructed (reconstructedQuery adults_by_age []) (q_columns adults_by_age) in
  let run q := (ExecuteQueryToRecordsReader (schemaless false) new_key q after_set).2 in
  Deserialize id next_document (match Serialize [] add_document close_stream id (Some adults_by_age) with Ret t => t | _ => [] end) = Ret r ∧
  run (StructuredQuery (rq_seen r)) = Ret [mkResult (new_key "users" "a") (vmap [("n", vstr "Ann")])] ∧
  rq_GetRecordsReader run r = Ret [mkResult (new_key "users" "a") VNil].
Proof. split_and!; vm_compute; reflexivity. Qed.
End TextExamples.
